(* ===== verification/_CoqProject ===== *)
-Q . S2P
Prelude.v
JenHash.v
Rabin.v
Partition.v
ListSort.v
Bitmap.v
Store.v
HashTable.v
Aging.v
NfIn.v
StoreInv.v
StoreOps.v
AgingOps.v
DiskOps.v
System.v
StoreSpec.v
Handler.v
HandlerSpec.v
DArray.v
KeyValue.v
ChunkBuf.v
HashAlgos.v
Hashmap.v
HashmapSpec.v
Pack.v
PackCuts.v
PackLedger.v
PackSpec.v
PackMain.v
CharSort.v
WinnPack.v
WinnCuts.v
WinnMain.v
Tcpre.v
TcpreSpec.v
SendTable.v
SendOut.v
SendSpec.v
SendWalk.v
SendOutSpec.v
SendRun.v
Sha1Pool.v
Sha1PoolSpec.v
ModInit.v
ModInitSpec.v
SendInit.v
StoreTypes.v
Sock.v
SockSpec.v
ListH.v
ListHSpec.v
Netlink.v
NetlinkSpec.v
TcpBuild.v
TcpBuildSpec.v
Bstr.v
BstrMem.v
BstrSpec.v
BstrOps.v
BstrMore.v
BstrFind.v
BstrFindSpec.v
BstrEqSpec.v
BstrRefine.v
BstrList.v
BstrListSpec.v
BstrIO.v
BstrCell.v
BstrPair.v
BstrIOSpec.v
BstrStreamSpec.v
BstrStream.v
BstrSession.v
BstrReplace.v
BstrReplaceSpec.v
BstrReplaceAll.v
BstrFormat.v
BstrFormatSpec.v
