(* ===== verification/Prelude.v ===== *)
(** * Chunk-level redundancy elimination: a model of the programs under src/model

    The repository holds three programs that look for repeated pieces in TCP
    streams, and two samples. The programs cut the payload of a packet into
    chunks at positions that depend on its content, hash each chunk with SHA-1,
    and keep what they have seen in a hash table:

    - model/kernel_hash, a kernel module on the receiving side. It stores the
      chunks themselves, ages them, moves the cold ones to one file per CPU, reads
      them back when they are met again, and then lets the packet go on.
    - model/send_module, a kernel module on the sending side. It stores digests
      only and lays out the payload in which known chunks are replaced by them.
    - model/c-skeleton, user programs that measure how many bytes would be saved:
      pack.c and winn_pack.c on a capture file, with two ways of cutting, and an
      earlier prototype on lines of text, tcpre.c; with a small library of
      containers and a copy of bstrlib, byte strings that grow.

    The samples, which share no code with the programs:

    - model/tcp_netlink: kernel modules that talk to user programs over netlink,
      and the stream and list helpers of those programs.
    - model/build_receive_tcp: a module that builds a TCP segment by hand and
      sends it, and a module that takes it off the stack of the other machine.

    ** Conventions

    A w-bit integer is a [Z] with the wrap-around of its C type written out
    ([u8] ... [s64] below). Code that can stop the machine or touch memory it must
    not touch returns an [outcome]: [Done], [Bug] (BUG(), exit) or [Oops] (a
    fault). The kernel and C libraries are parameters: the class [Allocator] says
    which allocation succeeds, SHA-1, the clock of a counter and the file system
    are arguments with their documented behaviour as hypotheses where a theorem
    needs any. Concurrency of softirqs, timers, work queues and threads is a step
    relation whose steps are the sections a lock protects.

    ** The receiving module

    - JenHash: HASH_JEN (hash_table.h) and the lock array (hash_lock.h).
    - Rabin: pack_hash and calculate_partition (chunk.c), the constants that
      init_hash_parameters computes (main.c). [calculate_partition_correct]: the
      sliding hash is the hash of every window from scratch;
      [calculate_partition_resync]: the cuts depend on the last bytes only.
    - Partition: get_partition (nf_in.c): the chunks tile the payload. The queue
      of cut positions has KFIFO_INTS entries; more are dropped.
    - ListSort: sort.c, a merge sort of linked lists with its back links.
    - Bitmap: bitmap_find_next_zero_area (bitmap.c) and the sizes of the bitmap.
    - Store: struct hashinfo_item, the tables and the per-CPU data; HashTable and
      Aging: hash_table.c; NfIn: hand_hash and read_data (nf_in.c); Handler:
      the rest of nf_in.c, from jpf_ip_rcv to clear_remainder_skb.
    - StoreInv: the invariant of an item in each of its states (in memory, cold,
      being copied, on disk, in both places, being read), of the table and of the
      counters. StoreOps, AgingOps, DiskOps and HandlerSpec: every operation keeps
      it. System: any sequence of packets, timers, writer passes and reads;
      StoreSpec: the properties of what is reachable. No reachable state faults;
      an item's bytes are those its digest was computed from, wherever they are;
      what is read back is what was written; a request to read refers to an item
      that cannot be freed. The statements speak of digests: none assumes that
      SHA-1 does not collide.
    - StoreTypes: every field of the state holds a value of its C type, and every
      step keeps it so.
    - Sha1Pool, Sha1PoolSpec: the pool of digest contexts of sha.c, with threads.
    - ModInit, ModInitSpec: minit and mexit (main.c), alloc_file.c, slab_cache.c:
      what is left behind by the first call that fails.

    ** The sending module

    - SendTable: hash_table.c; SendOut: nf_out.c. SendSpec: the table implements
      a map from digest to count and length. SendWalk: the timer and the flush.
      SendOutSpec: a packet, and the size of the new payload. SendRun: packets and
      timers in any order. SendInit: minit and mexit. chunk.c, hash_lock.h and
      sha.c are copies of the receiver's.

    ** The analyser

    - DArray, KeyValue, ChunkBuf, HashAlgos, Hashmap: darray.c, keyvalue.c,
      chunk.c, hashmap_algos.c with checksum.c, hashmap.c (src/lcthw). Arrays
      refine stacks, the map refines a finite map, with the places where they do
      not (memory left uninitialised, keys left behind by realloc, a buffer one
      byte short) as theorems.
    - Pack: pack.c, and what winn_pack.c shares with it: the class [Cutter] has
      what differs, and [CutterLaws] (PackCuts) what the rest relies on: in-order
      positions inside the payload, equal to those of a specification.
    - PackCuts: the cuts of pack.c. PackLedger: one chunk. PackSpec: one packet.
      PackMain: a capture file: the counters that main prints are those of a
      specification on the sequence of chunks, for any [CutterLaws].
    - CharSort: the merge sort of pack.c and the counts of store_char, and the table
      of data_set.
    - WinnPack, WinnCuts: the winnowing of winn_pack.c and its laws, and its other
      functions, which are those of pack.c at this cutter; WinnMain: the
      whole run, whose chunks have 16 to 78 bytes, so that the bounds on buffers
      follow from the lengths of the payloads.
    - Tcpre, TcpreSpec: tcpre.c, against a specification that says what counts as
      a repetition.

    ** The byte strings

    - Bstr: the operations of bstrlib.c that make, write and destroy strings, on a
      memory of blocks and headers, where an argument may be the destination or lie
      in its block, and where any allocation may fail. BstrMem: rules to run them,
      balloc. BstrSpec, BstrOps, BstrMore: each operation against one on lists:
      [effect] says that it succeeds, or fails and nothing has changed.
    - BstrFind: comparison and search. BstrFindSpec: the order, the first and the
      last place; the loop of binstr skips no occurrence. BstrEqSpec: the tests for
      equality.
    - BstrRefine: [bstrings_refine], for any program over the handles.
    - BstrList: splitting with a callback, lists, bjoin. BstrListSpec: the fields of
      bsplit, and that bjoin undoes bsplitstr.
    - BstrReplace: the engine of find and replace. BstrReplaceSpec: its three loops
      against [replaced], which replaces occurrences in a list. BstrReplaceAll:
      [bfindreplace_replaces], for the strings of a client.
    - BstrIO: the loops that read from a callback, and the streams (struct bStream).
      BstrCell, BstrPair: rules for one string and for two, the buffer and the
      result, while they are written. BstrIOSpec: the sources, breada and bgetsa,
      lines. BstrStreamSpec, BstrStream: the operations on streams. BstrSession:
      [stream_delivers], for a stream that is opened, asked and closed. These
      theorems suppose an allocator that has memory; the definitions do not.
    - BstrFormat, BstrFormatSpec: the functions over vsnprintf, which is a parameter:
      the bytes it prints, and what it returns for a size. [formats_print] holds
      whatever it returns.

    ** The samples

    - Sock, SockSpec: readline.c, whose buffer is static, writen and its callers,
      and str_cli.c. What the kernel answers to read and write is a script, a list
      of results that a call consumes. readline returns the next line of the bytes
      the descriptor delivers however read cuts them; str_cli relays both ways,
      in order and without loss, until the server closes.
    - ListH, ListHSpec: the circular lists of list.h on a store of nodes. Each
      operation refines one on sequences, the two loops visit every entry, and
      list_for_each_safe survives the removal of the entry visited.
    - Netlink, NetlinkSpec: lx_kernel.c ([Receiver]), send_kernel.c ([Sender]), and
      lx_netlink.c with the mains of the clients ([Client]): the handlers, the
      timer, loading and unloading in any order. The client asks with a number that
      the module it is shipped with does not answer.
    - TcpBuild, TcpBuildSpec: main.c and csum.c of build_tcp and nf_in of
      receive_tcp: the cache of hardware addresses, the segment byte by byte with
      its checksums, and that the receiver accepts what the builder sends.

    ** Bounds and fuel

    A payload has at most 2^16 - 1 bytes (tot_len has 16 bits). [read_packets] has
    one unit of fuel per byte of the file and one more, and each turn but the last
    consumes a record of at least 16 bytes ([read_packets_terminates]). The loops
    of [find_area], [list_sort] and the buckets have fuel or lists whose length
    bounds them, and a theorem that it is enough. The counters are exact below 2^63
    and their hypotheses say so. The arena of keys is not expanded before
    [MAX_CHUNKS] chunks, a hypothesis of [main_counts]; [keyvalue_expand_dangles]
    shows what happens at the next one. [fits] says that what remains of a stream
    fits the buffer of [LEN] bytes. [read_lines] has one unit of fuel per byte of
    the file and one more; each turn takes a line. The loops of readline and
    str_cli run on the script, the walk over a circular list has fuel, and more
    than its length suffices ([drain_spec]). [get_mac_fresh] supposes that jiffies
    does not wrap within the period it speaks of. The loops of binstr
    and its kin have a fuel that is quadratic in the length, and the searches are
    proved to end with it; that of the splits suffices for callbacks that do not
    lengthen the string. The loops that read from a callback take their fuel: with one
    unit more than the bytes that the source still has and the stream holds they
    end. Find and replace searches once more than the string has bytes, at most; the
    loops over vsnprintf have one turn per byte of the text and one more, and each turn
    but the last makes the size larger. The theorems on byte strings speak of strings
    below 2^28 bytes (2^27 for the streams), so that no sum of lengths wraps.

    ** Not modelled

    Log files, printing and measurement of time (fprintf, printk,
    print_memory_usage, getCurrentTime). What the programs do not call: store_data
    and text_test of pack.c, ecryptfs_calculate_sha1, the hlist operations of list.h. calculate_sha of the analyser asks /dev/crypto for the
    digest: the driver is a parameter. The macros of bstrlib.h that read a field or
    fill a header are written out where they are used; a vsnprintf that fails is left
    out. The splits of a stream, bssplitscb and bssplitstrcb, have runs and no
    theorem. [bcatcstr] and [bassigncstr], which leave a string without its NUL when
    memory is short, the comparisons bstrncmp, bstricmp and bstrnicmp, bstr2cstr and the list
    functions bstrListCreate, Alloc and AllocMin are modelled without a theorem.
    The macros of list.h that find the enclosing structure from an entry have no
    counterpart: an entry of the model is the structure. In tcp_netlink: the
    wrappers of lx_sock.c that call one function of the C library, error.c, the
    libevent loops and the threads of main, and client_old and server_old, earlier
    copies. test/ holds kernel experiments; TCPRE.java is an earlier prototype.
    Memory ordering below the level of locks and atomic operations is not
    modelled. *)
From stdpp Require Export base tactics functions list gmap sorting.
From Stdlib Require Export ZArith Lia.

(** ** Machine integers

    A w-bit C integer is a [Z]; the wrap-around of the C type is written out
    with the conversions below ([u32]: [unsigned], [u64]: [unsigned long],
    [size_t]; [s32]: [int], [atomic_t]; [s8]: [char] on x86). *)

Definition u8 (z : Z) : Z := (z mod 2 ^ 8)%Z.
Definition u16 (z : Z) : Z := (z mod 2 ^ 16)%Z.
Definition u32 (z : Z) : Z := (z mod 2 ^ 32)%Z.
Definition u64 (z : Z) : Z := (z mod 2 ^ 64)%Z.
Definition s8 (z : Z) : Z := ((z + 2 ^ 7) mod 2 ^ 8 - 2 ^ 7)%Z.
Definition s32 (z : Z) : Z := ((z + 2 ^ 31) mod 2 ^ 32 - 2 ^ 31)%Z.
Definition s64 (z : Z) : Z := ((z + 2 ^ 63) mod 2 ^ 64 - 2 ^ 63)%Z.

(** Atomic variables ([atomic_t]). *)
Definition atomic_add (d v : Z) : Z := s32 (v + d)%Z.
Definition atomic_inc (v : Z) : Z := atomic_add 1 v.
Definition atomic_dec (v : Z) : Z := atomic_add (-1) v.

(** ** Results of kernel code

    [Bug] is the kernel's [BUG()] (the machine stops), [Oops] an access through
    a NULL or dangling pointer or past the end of a buffer. *)

Inductive outcome (A : Type) : Type :=
| Done (a : A)
| Bug
| Oops.
Arguments Done {A} a.
Arguments Bug {A}.
Arguments Oops {A}.

#[export] Instance outcome_ret : MRet outcome := @Done.
#[export] Instance outcome_bind : MBind outcome := fun A B f m =>
  match m with Done a => f a | Bug => Bug | Oops => Oops end.

(** Reading the first [n] bytes of a buffer: past its end is a fault. *)
Definition read_bytes (src : list Z) (n : nat) : outcome (list Z) :=
  if decide (n ≤ length src) then Done (take n src) else Oops.

(** A pointer dereference: NULL and dangling pointers fault. *)
Definition deref {A} (o : option A) : outcome A :=
  match o with Some a => Done a | None => Oops end.

(** Iteration of an effectful body over a list, in order. *)
Fixpoint ofold {A S} (f : S → A → outcome S) (s : S) (l : list A) : outcome S :=
  match l with
  | [] => Done s
  | a :: l => s' ← f s a; ofold f s' l
  end.

(** ** Memory blocks *)

(** What a [char *] field points to: nothing yet, a block of bytes, or a block
    that has been given back to its allocator. *)
Inductive mem :=
| Null
| Live (bytes : list Z)
| Freed.

(** [memcpy(dst, src, n)] into a block: past its end is a fault. *)
Definition memcpy (dst : mem) (src : list Z) : outcome mem :=
  match dst with
  | Live b => if decide (length src ≤ length b)
              then Done (Live (src ++ drop (length src) b)) else Oops
  | _ => Oops
  end.

#[export] Instance mem_eq_dec : EqDecision mem.
Proof. solve_decision. Defined.

(** ** The allocator *)

(** The allocator: whether the [n]-th atomic allocation since the program
    started succeeds, and what an uninitialised block contains. *)
Class Allocator : Type := {
  alloc_ok : nat → bool;
  junk : nat → nat → list Z }.

Class AllocatorLaws `{Allocator} : Prop := {
  junk_length n size : length (junk n size) = size }.

#[export] Instance zero_allocator : Allocator := {|
  alloc_ok _ := true; junk _ n := replicate n 0%Z |}.
#[export] Instance zero_allocator_laws : AllocatorLaws.
Proof. split. intros. apply length_replicate. Qed.

(** ** Slices *)

(** The slice of [n] elements from [i]. *)
Definition slice {A} (i n : nat) (l : list A) : list A := take n (drop i l).

(** ** Automation *)

Create HintDb wspack.
Create HintDb cint.
Create Rewrite HintDb cint.

Lemma u32_range z : (0 ≤ u32 z < 2 ^ 32)%Z.
Proof. apply Z.mod_pos_bound. done. Qed.
Lemma u64_range z : (0 ≤ u64 z < 2 ^ 64)%Z.
Proof. apply Z.mod_pos_bound. done. Qed.
Lemma s32_range z : (- 2 ^ 31 ≤ s32 z < 2 ^ 31)%Z.
Proof. unfold s32. pose proof (Z.mod_pos_bound (z + 2 ^ 31) (2 ^ 32)). lia. Qed.
Lemma u32_small z : (0 ≤ z < 2 ^ 32)%Z → u32 z = z.
Proof. apply Z.mod_small. Qed.
Lemma u64_small z : (0 ≤ z < 2 ^ 64)%Z → u64 z = z.
Proof. apply Z.mod_small. Qed.
Lemma s32_small z : (- 2 ^ 31 ≤ z < 2 ^ 31)%Z → s32 z = z.
Proof. intros. unfold s32. rewrite Z.mod_small; lia. Qed.
Lemma s8_small z : (- 2 ^ 7 ≤ z < 2 ^ 7)%Z → s8 z = z.
Proof. intros. unfold s8. rewrite Z.mod_small; lia. Qed.
Lemma s64_small z : (- 2 ^ 63 ≤ z < 2 ^ 63)%Z → s64 z = z.
Proof. intros. unfold s64. rewrite Z.mod_small; lia. Qed.
Lemma s64_add_idemp_l a b : s64 (s64 a + b) = s64 (a + b).
Proof.
  unfold s64. f_equal.
  replace ((a + 2 ^ 63) mod 2 ^ 64 - 2 ^ 63 + b + 2 ^ 63)%Z
    with ((a + 2 ^ 63) mod 2 ^ 64 + b)%Z by lia.
  rewrite Zplus_mod_idemp_l. f_equal. lia.
Qed.
Lemma u32_idemp z : u32 (u32 z) = u32 z.
Proof. unfold u32. by rewrite Z.mod_mod. Qed.
Lemma u32_sub_idemp_l a b : u32 (u32 a - b) = u32 (a - b).
Proof. unfold u32. by rewrite Zminus_mod_idemp_l. Qed.
Lemma u32_add_idemp_l a b : u32 (u32 a + b) = u32 (a + b).
Proof. unfold u32. by rewrite Zplus_mod_idemp_l. Qed.

#[export] Hint Resolve u32_range u64_range s32_range : cint.
#[export] Hint Rewrite u32_idemp u32_sub_idemp_l u32_add_idemp_l : cint.

(** Simplify [outcome] binds and case on the guards of the code. *)
Ltac osimpl :=
  repeat match goal with
  | H : mbind _ _ = Done _ |- _ => unfold mbind, outcome_bind in H
  | H : match ?m with Done _ => _ | Bug => _ | Oops => _ end = Done _ |- _ =>
      destruct m eqn:?; try discriminate H
  | H : deref ?o = Done _ |- _ =>
      destruct o eqn:?; simpl in H; try discriminate H
  | H : Done _ = Done _ |- _ => injection H as H; subst
  | H : mret _ = Done _ |- _ => unfold mret, outcome_ret in H
  end.

(** ** Lists *)

Lemma slice_length {A} i n (l : list A) : i + n ≤ length l → length (slice i n l) = n.
Proof. intros. unfold slice. rewrite length_take, length_drop. lia. Qed.

Lemma slice_app_l {A} i n (l k : list A) : i + n ≤ length l → slice i n (l ++ k) = slice i n l.
Proof.
  intros. unfold slice. destruct (decide (i ≤ length l)); [|lia].
  rewrite drop_app_le by done. apply take_app_le. rewrite length_drop. lia.
Qed.

Lemma slice_app_r {A} i n (l k : list A) : slice (length l + i) n (l ++ k) = slice i n k.
Proof. unfold slice. by rewrite drop_app_add. Qed.

Lemma slice_cons {A} i n (l : list A) x :
  l !! i = Some x → slice i (S n) l = x :: slice (S i) n l.
Proof. intros H. unfold slice. by rewrite (drop_S _ _ _ H). Qed.

Lemma slice_snoc {A} i n (l : list A) x :
  l !! (i + n) = Some x → slice i (S n) l = slice i n l ++ [x].
Proof.
  intros H. unfold slice. rewrite (take_S_r _ _ x); [done|]. by rewrite lookup_drop.
Qed.

Lemma slice_slice {A} i n j m (l : list A) :
  j + m ≤ n → slice j m (slice i n l) = slice (i + j) m l.
Proof.
  intros. unfold slice. rewrite skipn_firstn_comm, firstn_firstn, drop_drop.
  f_equal. lia.
Qed.

Lemma ofold_app {A S} (f : S → A → outcome S) s l k :
  ofold f s (l ++ k) = (s' ← ofold f s l; ofold f s' k).
Proof.
  revert s. induction l as [|a l IH]; intros s; [done|]. simpl.
  destruct (f s a); simpl; [apply IH|done|done].
Qed.

Lemma ofold_ext {A S} (f g : S → A → outcome S) s l :
  (∀ s a, f s a = g s a) → ofold f s l = ofold g s l.
Proof.
  intros Hfg. revert s. induction l as [|a l IH]; intros s; [done|]. simpl. rewrite Hfg.
  destruct (g s a); simpl; [apply IH|done|done].
Qed.

(** The rule for an invariant of an effectful loop. *)
Lemma ofold_inv {A S} (f : S → A → outcome S) (I : S → Prop) s l s' :
  (∀ s a s', a ∈ l → I s → f s a = Done s' → I s') →
  I s → ofold f s l = Done s' → I s'.
Proof.
  revert s. induction l as [|a l IH]; intros s Hf Hs H; simpl in H; osimpl; [done|].
  eapply IH; [|eapply Hf|eassumption]; eauto.
  - intros ???? . apply Hf. by right.
  - by left.
Qed.

(** ... and for its absence of faults. *)
Lemma ofold_total {A S} (f : S → A → outcome S) (I : S → Prop) s l :
  (∀ s a, a ∈ l → I s → ∃ s', f s a = Done s' ∧ I s') →
  I s → ∃ s', ofold f s l = Done s' ∧ I s'.
Proof.
  revert s. induction l as [|a l IH]; intros s Hf Hs; [by exists s|]. simpl.
  destruct (Hf s a) as (s1&->&H1); [by left|done|]. simpl.
  apply IH; [|done]. intros ???. apply Hf. by right.
Qed.

(** ** Congruence modulo [q]

    The equivalence the rolling hash is computed up to; a setoid, so that the
    conversions to a machine width are erased by rewriting. *)

Definition eqmod (q a b : Z) : Prop := (a mod q = b mod q)%Z.

#[export] Instance eqmod_equiv q : Equivalence (eqmod q).
Proof. split; unfold eqmod; congruence. Qed.

#[export] Instance eqmod_add q : Proper (eqmod q ==> eqmod q ==> eqmod q) Z.add.
Proof. unfold eqmod. intros a b H c d H'. by rewrite Zplus_mod, H, H', <- Zplus_mod. Qed.
#[export] Instance eqmod_sub q : Proper (eqmod q ==> eqmod q ==> eqmod q) Z.sub.
Proof. unfold eqmod. intros a b H c d H'. by rewrite Zminus_mod, H, H', <- Zminus_mod. Qed.
#[export] Instance eqmod_mul q : Proper (eqmod q ==> eqmod q ==> eqmod q) Z.mul.
Proof. unfold eqmod. intros a b H c d H'. by rewrite Zmult_mod, H, H', <- Zmult_mod. Qed.

Lemma eqmod_mod q a : eqmod q (a mod q) a.
Proof. unfold eqmod. by rewrite Zmod_mod. Qed.

Lemma eqmod_u64 k a : (0 ≤ k ≤ 64)%Z → eqmod (2 ^ k) (u64 a) a.
Proof.
  intros. unfold eqmod, u64. apply Z.mod_mod_divide.
  exists (2 ^ (64 - k))%Z. rewrite <- Z.pow_add_r by lia. f_equal. lia.
Qed.

Lemma eqmod_add_self q a : eqmod q (a + q) a.
Proof.
  unfold eqmod. rewrite <- (Z.mul_1_l q) at 1. apply Z_mod_plus_full.
Qed.

Lemma take_take_app {A} n (l k : list A) : take n (take n l ++ k) = take n (l ++ k).
Proof.
  destruct (decide (n ≤ length l)).
  - rewrite (take_app_le l k n) by done. rewrite (take_app_le (take n l) k n).
    + by rewrite take_take, Nat.min_id.
    + rewrite length_take. lia.
  - by rewrite (take_ge l) by lia.
Qed.

Lemma take_app_take {A} n (l k : list A) : take n (l ++ take n k) = take n (l ++ k).
Proof. rewrite !firstn_app, firstn_firstn. do 2 f_equal. lia. Qed.

Lemma StronglySorted_impl {A} (P Q : relation A) l :
  (∀ x y, P x y → Q x y) → StronglySorted P l → StronglySorted Q l.
Proof.
  intros HPQ. induction 1 as [|x l _ IH Hx]; constructor; [done|].
  eapply Forall_impl; [exact Hx|]. auto.
Qed.

(** Removing an element that is not there. *)
Lemma remove_absent {A} `{EqDecision A} (x : A) (l : list A) : x ∉ l → filter (.≠ x) l = l.
Proof.
  induction l as [|y l IH]; [done|]. rewrite not_elem_of_cons. intros [Hy Hl].
  rewrite filter_cons_True by congruence. by rewrite IH.
Qed.
Lemma remove_head {A} `{EqDecision A} (x : A) (l : list A) : NoDup (x :: l) → filter (.≠ x) (x :: l) = l.
Proof.
  rewrite NoDup_cons. intros [? ?]. rewrite filter_cons_False by naive_solver.
  by apply remove_absent.
Qed.

(** ** Weakest preconditions of [outcome] computations

    [wp B m P]: [m] does not fault, it stops the machine only if [B], and its
    result satisfies [P]. *)

Definition wp {A} (B : Prop) (m : outcome A) (P : A → Prop) : Prop :=
  match m with Done a => P a | Bug => B | Oops => False end.

Lemma wp_ret {A} B (a : A) (P : A → Prop) : P a → wp B (Done a) P.
Proof. done. Qed.
Lemma wp_bug {A} (B : Prop) (P : A → Prop) : B → wp B Bug P.
Proof. done. Qed.
Lemma wp_bind {A C} B (m : outcome A) (f : A → outcome C) P :
  wp B m (λ a, wp B (f a) P) → wp B (m ≫= f) P.
Proof. by destruct m. Qed.
Lemma wp_mono {A} B (m : outcome A) (P P' : A → Prop) :
  (∀ a, P a → P' a) → wp B m P → wp B m P'.
Proof. destruct m; simpl; auto. Qed.
Lemma wp_weaken {A} (B B' : Prop) (m : outcome A) (P : A → Prop) :
  (B → B') → wp B m P → wp B' m P.
Proof. destruct m; simpl; auto. Qed.
Lemma wp_deref {A} B (o : option A) a (P : A → Prop) :
  o = Some a → P a → wp B (deref o) P.
Proof. by intros ->. Qed.
Lemma wp_done {A} B (m : outcome A) P a : wp B m P → m = Done a → P a.
Proof. by intros H ->. Qed.
Lemma wp_total {A} (m : outcome A) P : wp False m P → ∃ a, m = Done a ∧ P a.
Proof. destruct m; simpl; [eauto|done|done]. Qed.

(** The loop rule: the invariant may mention what is left to do. *)
Lemma wp_ofold {A S} B (f : S → A → outcome S) (I : S → list A → Prop) s l :
  (∀ s a l, I s (a :: l) → wp B (f s a) (λ s', I s' l)) →
  I s l → wp B (ofold f s l) (λ s', I s' []).
Proof.
  intros Hf. revert s. induction l as [|a l IH]; intros s Hs; [done|]. simpl.
  apply wp_bind. eapply wp_mono; [|by apply Hf]. simpl. auto.
Qed.

(** ** Sums over finite maps *)

Definition msum {A} (w : A → Z) (m : gmap Z A) : Z := map_fold (λ _ a acc, (w a + acc)%Z) 0%Z m.

Lemma msum_empty {A} (w : A → Z) : msum w ∅ = 0%Z.
Proof. apply map_fold_empty. Qed.
Lemma msum_insert_new {A} (w : A → Z) m i a :
  m !! i = None → msum w (<[i := a]> m) = (w a + msum w m)%Z.
Proof. intros. unfold msum. rewrite map_fold_insert_L; [done|intros; lia|done]. Qed.
Lemma msum_delete {A} (w : A → Z) m i a :
  m !! i = Some a → msum w (delete i m) = (msum w m - w a)%Z.
Proof.
  intros H. rewrite <- (insert_delete_id m i a H) at 2.
  rewrite msum_insert_new by apply lookup_delete_eq. lia.
Qed.
Lemma msum_insert {A} (w : A → Z) m i a a' :
  m !! i = Some a → msum w (<[i := a']> m) = (msum w m - w a + w a')%Z.
Proof.
  intros H. rewrite <- insert_delete_eq.
  rewrite msum_insert_new by apply lookup_delete_eq. rewrite (msum_delete w m i a) by done. lia.
Qed.

Lemma msum_nonneg {A} (w : A → Z) m : (∀ a, 0 ≤ w a)%Z → (0 ≤ msum w m)%Z.
Proof.
  intros Hw. induction m as [|i a m Hi IH] using map_ind; [by rewrite msum_empty|].
  rewrite msum_insert_new by done. specialize (Hw a). lia.
Qed.
Lemma msum_le {A} (w w' : A → Z) m : (∀ a, w a ≤ w' a)%Z → (msum w m ≤ msum w' m)%Z.
Proof.
  intros Hw. induction m as [|i a m Hi IH] using map_ind; [by rewrite !msum_empty|].
  rewrite !msum_insert_new by done. specialize (Hw a). lia.
Qed.

(** ** Files as byte lists *)

(** The contents of a file once [buf] is written at [pos]; a hole reads as
    zeros. *)
Definition write_at (pos : nat) (buf l : list Z) : list Z :=
  take pos (l ++ replicate (pos - length l) 0%Z) ++ buf ++ drop (pos + length buf) l.

Lemma write_at_length_pre pos (l : list Z) :
  length (take pos (l ++ replicate (pos - length l) 0%Z)) = pos.
Proof. rewrite length_take, length_app, length_replicate. lia. Qed.

(** What has been written is read back. *)
Lemma slice_write_at_in pos buf l i n :
  i + n ≤ length buf → slice (pos + i) n (write_at pos buf l) = slice i n buf.
Proof.
  intros H. unfold write_at.
  rewrite <- (write_at_length_pre pos l) at 1. rewrite slice_app_r. by apply slice_app_l.
Qed.

(** What lies before the position is kept. *)
Lemma slice_write_at_before pos buf l i n :
  i + n ≤ pos → i + n ≤ length l → slice i n (write_at pos buf l) = slice i n l.
Proof.
  intros H1 H2. unfold write_at.
  rewrite slice_app_l by (rewrite write_at_length_pre; lia).
  unfold slice. rewrite skipn_firstn_comm, take_take, Nat.min_l by lia. by apply slice_app_l.
Qed.

Lemma length_write_at pos buf l :
  pos + length buf ≤ length l → length (write_at pos buf l) = length l.
Proof.
  intros. unfold write_at. rewrite !length_app, write_at_length_pre, length_drop. lia.
Qed.

(** A slice only depends on what comes before its end. *)
Lemma slice_take {A} i n k (l : list A) : i + n ≤ k → slice i n (take k l) = slice i n l.
Proof. intros. unfold slice. rewrite skipn_firstn_comm, take_take. f_equal. lia. Qed.

Lemma take_write_at_before pos buf l : pos ≤ length l → take pos (write_at pos buf l) = take pos l.
Proof.
  intros. unfold write_at. rewrite take_app_le, take_take by (rewrite write_at_length_pre; lia).
  rewrite Nat.min_id. by apply take_app_le.
Qed.

(** Writing into a buffer that is itself to be written. *)
Lemma take_write_at_nested pos m src buf l :
  m ≤ length buf →
  take (pos + m) (write_at pos (write_at m src buf) l) = take (pos + m) (write_at pos buf l).
Proof.
  intros Hm.
  assert (E : ∀ b, take (pos + m) (write_at pos b l)
    = take pos (l ++ replicate (pos - length l) 0%Z) ++ take m (b ++ drop (pos + length b) l)).
  { intros b. unfold write_at. apply take_app_add'. by rewrite write_at_length_pre. }
  assert (m ≤ length (write_at m src buf)).
  { unfold write_at. rewrite length_app, write_at_length_pre. lia. }
  rewrite !E. f_equal. rewrite (take_app_le (write_at m src buf)), (take_app_le buf) by done.
  by apply take_write_at_before.
Qed.
