(* ===== verification/JenHash.v ===== *)
(** The Bob Jenkins hash of a SHA-1 digest that picks the bucket of a chunk
    ([HASH_JEN] of model/kernel_hash/hash_table.h) and the striped lock array
    that protects the buckets (model/kernel_hash/hash_lock.h). *)
From S2P Require Import Prelude.
#[local] Open Scope Z_scope.

(** ** The mixing step *)

(** One line of the macro on [unsigned] variables: [x -= y; x -= z; x ^= m]. *)
Definition jen_line (x y z m : Z) : Z :=
  let x := u32 (x - y) in let x := u32 (x - z) in Z.lxor x m.

(** The nine lines of [HASH_JEN_MIX(a,b,c)]. *)
Definition HASH_JEN_MIX (abc : Z * Z * Z) : Z * Z * Z :=
  let '(a, b, c) := abc in
  let a := jen_line a b c (Z.shiftr c 13) in
  let b := jen_line b c a (u32 (Z.shiftl a 8)) in
  let c := jen_line c a b (Z.shiftr b 13) in
  let a := jen_line a b c (Z.shiftr c 12) in
  let b := jen_line b c a (u32 (Z.shiftl a 16)) in
  let c := jen_line c a b (Z.shiftr b 5) in
  let a := jen_line a b c (Z.shiftr c 3) in
  let b := jen_line b c a (u32 (Z.shiftl a 10)) in
  let c := jen_line c a b (Z.shiftr b 15) in
  (a, b, c).

(** ** The hash *)

(** [_hj_key[i]], a byte of the key at the running pointer. *)
Definition key_byte (key : list Z) (i : nat) : Z := default 0 (key !! i).

(** Four bytes of the key as a little-endian [unsigned]. *)
Definition key_word (key : list Z) (i : nat) : Z :=
  u32 (key_byte key i + Z.shiftl (key_byte key (i + 1)) 8
       + Z.shiftl (key_byte key (i + 2)) 16 + Z.shiftl (key_byte key (i + 3)) 24).

Record jen_state := mk_jen {
  hj_key : list Z;   (* _hj_key, the rest of the key *)
  hj_k : Z;          (* _hj_k *)
  hj_i : Z; hj_j : Z;
  hashv : Z }.

(** One turn of [while (_hj_k >= 12U)] eats twelve bytes of the key. *)
Definition jen_turn (s : jen_state) : jen_state :=
  let i := u32 (hj_i s + key_word (hj_key s) 0) in
  let j := u32 (hj_j s + key_word (hj_key s) 4) in
  let h := u32 (hashv s + key_word (hj_key s) 8) in
  let '(i, j, h) := HASH_JEN_MIX (i, j, h) in
  mk_jen (drop 12 (hj_key s)) (u32 (hj_k s - 12)) i j h.

Fixpoint jen_loop (fuel : nat) (s : jen_state) : jen_state :=
  match fuel with
  | O => s
  | S fuel => if 12 <=? hj_k s then jen_loop fuel (jen_turn s) else s
  end.

(** One [case n:] of the fall-through switch: add a byte when [k >= n]. *)
Definition jen_case (n : Z) (k : Z) (key : list Z) (sh : Z) (v : Z) : Z :=
  if n <=? k then u32 (v + Z.shiftl (key_byte key (Z.to_nat (n - 1))) sh) else v.

(** The switch on the remaining length and the last mixing. *)
Definition jen_tail (keylen : Z) (s : jen_state) : Z :=
  let k := hj_k s in let key := hj_key s in
  let h := u32 (hashv s + u32 keylen) in
  let h := jen_case 11 k key 24 h in
  let h := jen_case 10 k key 16 h in
  let h := jen_case 9 k key 8 h in
  let j := jen_case 8 k key 24 (hj_j s) in
  let j := jen_case 7 k key 16 j in
  let j := jen_case 6 k key 8 j in
  let j := jen_case 5 k key 0 j in
  let i := jen_case 4 k key 24 (hj_i s) in
  let i := jen_case 3 k key 16 i in
  let i := jen_case 2 k key 8 i in
  let i := jen_case 1 k key 0 i in
  let '(_, _, h) := HASH_JEN_MIX (i, j, h) in h.

(** The value the macro leaves in [hashv]. *)
Definition jen_hashv (key : list Z) (keylen : Z) : Z :=
  let s0 := mk_jen key (u32 keylen) 0x9e3779b9 0x9e3779b9 0xfeedbeef in
  jen_tail keylen (jen_loop (S (Z.to_nat (u32 keylen / 12))) s0).

(** [HASH_JEN(key,keylen,num_bkts,hashv,bkt)]: the pair [(hashv, bkt)]. *)
Definition HASH_JEN (key : list Z) (keylen : Z) (num_bkts : Z) : Z * Z :=
  (jen_hashv key keylen, Z.land (jen_hashv key keylen) (u32 (num_bkts - 1))).

Definition SHA1SIZE : Z := 20.
Definition WS_SP_HASH_TABLE_BITS : Z := 20.
Definition hash_tab_size : Z := Z.shiftl 1 WS_SP_HASH_TABLE_BITS.

(** [HASH_FCN(info, SHA1SIZE, hash_tab_size, hash, bkt)] as the table calls it. *)
Definition HASH_FCN (info : list Z) : Z * Z := HASH_JEN info SHA1SIZE hash_tab_size.

(** ** The lock stripe *)

Definition CT_LOCKARRAY_BITS : Z := 10.
Definition CT_LOCKARRAY_SIZE : Z := Z.shiftl 1 CT_LOCKARRAY_BITS.
Definition CT_LOCKARRAY_MASK : Z := CT_LOCKARRAY_SIZE - 1.

(** The lock that [ct_read_lock_bh(key, a)] and its siblings take. *)
Definition ct_lock (key : Z) : Z := Z.land key CT_LOCKARRAY_MASK.

(** ** Facts *)

Lemma lxor_u32_range a b : 0 ≤ a < 2 ^ 32 → 0 ≤ b < 2 ^ 32 → 0 ≤ Z.lxor a b < 2 ^ 32.
Proof.
  intros Ha Hb. split; [apply Z.lxor_nonneg; lia|].
  destruct (decide (Z.lxor a b = 0)) as [->|Hne]; [lia|].
  apply Z.log2_lt_pow2.
  - assert (0 ≤ Z.lxor a b) by (apply Z.lxor_nonneg; lia). lia.
  - apply Z.le_lt_trans with (Z.max (Z.log2 a) (Z.log2 b)); [apply Z.log2_lxor; lia|].
    assert (∀ x, 0 ≤ x < 2 ^ 32 → Z.log2 x < 32) as Hlog.
    { intros x Hx. destruct (decide (x = 0)) as [->|]; [done|].
      apply Z.log2_lt_pow2; lia. }
    apply Z.max_lub_lt; auto.
Qed.

Lemma shiftr_u32_range a n : 0 ≤ a < 2 ^ 32 → 0 ≤ n → 0 ≤ Z.shiftr a n < 2 ^ 32.
Proof.
  intros. rewrite Z.shiftr_div_pow2 by done.
  assert (1 ≤ 2 ^ n) by (assert (0 < 2 ^ n) by (apply Z.pow_pos_nonneg; lia); lia).
  split; [apply Z.div_pos; lia|]. apply Z.div_lt_upper_bound; nia.
Qed.

#[export] Hint Resolve lxor_u32_range shiftr_u32_range : cint.
#[export] Hint Extern 1 (0 ≤ Zpos _) => apply Pos2Z.is_nonneg : cint.

(** [x ^= m; x += z; x += y] undoes a line. *)
Definition unline (x y z m : Z) : Z := u32 (u32 (Z.lxor x m + z) + y).

(** The inverse of [HASH_JEN_MIX]: its nine lines undone in reverse order. *)
Definition unmix (abc : Z * Z * Z) : Z * Z * Z :=
  let '(a, b, c) := abc in
  let c := unline c a b (Z.shiftr b 15) in
  let b := unline b c a (u32 (Z.shiftl a 10)) in
  let a := unline a b c (Z.shiftr c 3) in
  let c := unline c a b (Z.shiftr b 5) in
  let b := unline b c a (u32 (Z.shiftl a 16)) in
  let a := unline a b c (Z.shiftr c 12) in
  let c := unline c a b (Z.shiftr b 13) in
  let b := unline b c a (u32 (Z.shiftl a 8)) in
  let a := unline a b c (Z.shiftr c 13) in
  (a, b, c).

Definition word3 (abc : Z * Z * Z) : Prop :=
  let '(a, b, c) := abc in
  0 ≤ a < 2 ^ 32 ∧ 0 ≤ b < 2 ^ 32 ∧ 0 ≤ c < 2 ^ 32.

Lemma jen_line_range x y z m : 0 ≤ m < 2 ^ 32 → 0 ≤ jen_line x y z m < 2 ^ 32.
Proof. intros. unfold jen_line. auto with cint. Qed.

Lemma unline_jen_line x y z m :
  0 ≤ x < 2 ^ 32 → unline (jen_line x y z m) y z m = x.
Proof.
  intros. unfold unline, jen_line.
  rewrite Z.lxor_assoc, Z.lxor_nilpotent, Z.lxor_0_r.
  rewrite u32_add_idemp_l, <- Z.add_assoc, u32_add_idemp_l.
  replace (u32 (x - y) - z + (z + y)) with (u32 (x - y) + y) by lia.
  rewrite u32_add_idemp_l, Z.sub_add. by apply u32_small.
Qed.

(** Name the value of the innermost line of the goal, keeping its range. *)
Ltac name_line :=
  match goal with
  | |- context [jen_line ?x ?y ?z ?m] =>
      is_var x; is_var y; is_var z;
      let v := fresh "v" in let E := fresh "E" in
      assert (0 ≤ jen_line x y z m < 2 ^ 32) by (apply jen_line_range; auto with cint);
      remember (jen_line x y z m) as v eqn:E
  end.

Lemma mix_word3 abc : word3 abc → word3 (HASH_JEN_MIX abc).
Proof.
  destruct abc as [[a b] c]. intros (Ha&Hb&Hc). unfold HASH_JEN_MIX. cbv zeta.
  repeat name_line. done.
Qed.

Lemma unmix_mix abc : word3 abc → unmix (HASH_JEN_MIX abc) = abc.
Proof.
  destruct abc as [[a b] c]. intros (Ha&Hb&Hc). unfold HASH_JEN_MIX. cbv zeta.
  repeat name_line. unfold unmix.
  repeat match goal with
  | E : ?v = jen_line ?x ?y ?z ?m |- context [unline ?v ?y ?z ?m] =>
      rewrite E, (unline_jen_line x y z m) by done; clear E
  end. done.
Qed.

Lemma jen_turn_k s : hj_k (jen_turn s) = u32 (hj_k s - 12).
Proof. unfold jen_turn. by repeat case_match. Qed.

(** The loop leaves less than twelve bytes: the fuel [keylen/12 + 1] is enough. *)
Lemma jen_loop_spec fuel s :
  0 ≤ hj_k s < 2 ^ 32 → hj_k s / 12 < Z.of_nat fuel →
  hj_k (jen_loop fuel s) = hj_k s mod 12.
Proof.
  revert s. induction fuel as [|fuel IH]; intros s Hk Hf.
  - assert (0 ≤ hj_k s / 12) by (apply Z.div_pos; lia). lia.
  - simpl. destruct (Z.leb_spec 12 (hj_k s)) as [Hle|Hlt].
    + rewrite IH; rewrite jen_turn_k, u32_small by lia; [|lia|].
      * rewrite <- (Z_mod_plus_full (hj_k s - 12) 1 12). f_equal. lia.
      * replace (hj_k s - 12) with (hj_k s + (-1) * 12) by lia.
        rewrite Z.div_add by lia. lia.
    + by rewrite Z.mod_small by lia.
Qed.

Definition jen_word (s : jen_state) : Prop := word3 (hj_i s, hj_j s, hashv s).

Lemma jen_turn_word s : jen_word (jen_turn s).
Proof.
  unfold jen_turn, jen_word. cbv zeta.
  match goal with |- context [HASH_JEN_MIX ?t] =>
    assert (word3 (HASH_JEN_MIX t)) by (apply mix_word3; repeat split; apply u32_range);
    destruct (HASH_JEN_MIX t) as [[i j] h]
  end. done.
Qed.

Lemma jen_loop_word fuel s : jen_word s → jen_word (jen_loop fuel s).
Proof.
  revert s. induction fuel as [|fuel IH]; intros s Hs; [done|]. simpl.
  destruct (12 <=? hj_k s); [|done]. by apply IH, jen_turn_word.
Qed.

Lemma jen_case_range n k key sh v : 0 ≤ v < 2 ^ 32 → 0 ≤ jen_case n k key sh v < 2 ^ 32.
Proof. unfold jen_case. case_match; auto with cint. Qed.
#[export] Hint Resolve jen_case_range : cint.

Lemma jen_tail_range keylen s : jen_word s → 0 ≤ jen_tail keylen s < 2 ^ 32.
Proof.
  intros (Hi&Hj&Hh). unfold jen_tail. cbv zeta.
  match goal with |- context [HASH_JEN_MIX ?t] =>
    assert (word3 (HASH_JEN_MIX t)) as Hw
      by (apply mix_word3; repeat split; auto 10 with cint; apply jen_case_range;
          auto 10 with cint);
    destruct (HASH_JEN_MIX t) as [[i j] h]
  end. apply Hw.
Qed.

Lemma jen_hashv_range key keylen : 0 ≤ jen_hashv key keylen < 2 ^ 32.
Proof. apply jen_tail_range, jen_loop_word. by repeat split. Qed.

Lemma land_mask_range h b : 0 ≤ h → 0 ≤ b → 0 ≤ Z.land h (2 ^ b - 1) < 2 ^ b.
Proof.
  intros. rewrite Z.sub_1_r, <- Z.ones_equiv, Z.land_ones by done.
  apply Z.mod_pos_bound. by apply Z.pow_pos_nonneg.
Qed.

(** ** Properties *)

(** The hash is a 32-bit word and, for a table of [2^b] buckets, the bucket
    it selects is inside the table: [hash_tab[bkt]] never runs off its end. *)
Lemma HASH_JEN_in_table key keylen b :
  0 ≤ b ≤ 32 →
  0 ≤ fst (HASH_JEN key keylen (2 ^ b)) < 2 ^ 32 ∧
  0 ≤ snd (HASH_JEN key keylen (2 ^ b)) < 2 ^ b.
Proof.
  intros Hb. split; [apply jen_hashv_range|]. cbn [HASH_JEN fst snd].
  assert (2 ^ b ≤ 2 ^ 32) by (apply Z.pow_le_mono_r; lia).
  assert (0 < 2 ^ b) by (apply Z.pow_pos_nonneg; lia).
  rewrite (u32_small (2 ^ b - 1)) by lia.
  apply land_mask_range; [apply jen_hashv_range|lia].
Qed.

(** [get_hash_item] takes the lock of [hash] and walks the bucket [bkt],
    while [_hash], [bucket_clear_item] and [wr_file] take the lock of the
    bucket number: for the table's size both name the same lock. *)
Lemma lock_of_hash_is_lock_of_bucket info :
  ct_lock (fst (HASH_FCN info)) = ct_lock (snd (HASH_FCN info)).
Proof.
  unfold HASH_FCN, ct_lock, HASH_JEN. cbn [fst snd].
  rewrite <- Z.land_assoc. reflexivity.
Qed.

(** [HASH_JEN_MIX] is injective on triples of 32-bit words and stays inside
    them: mixing loses nothing of the state it has gathered from the key. *)
Lemma HASH_JEN_MIX_injective s t :
  word3 s → word3 t → HASH_JEN_MIX s = HASH_JEN_MIX t → s = t ∧ word3 (HASH_JEN_MIX s).
Proof.
  intros Hs Ht E. split; [|by apply mix_word3].
  rewrite <- (unmix_mix s Hs), <- (unmix_mix t Ht). by rewrite E.
Qed.
Lemma HASH_JEN_MIX_injective_witness :
  (1, 2, 3) = (1, 2, 3) ∧ word3 (HASH_JEN_MIX (1, 2, 3)).
Proof. apply (HASH_JEN_MIX_injective (1, 2, 3) (1, 2, 3)); [done|done|reflexivity]. Defined.
