(* ===== verification/Rabin.v ===== *)
(** Content-defined chunking: the rolling hash and the partition points of
    model/kernel_hash/chunk.c (identical in model/send_module/chunk.c) and the
    parameters of model/kernel_hash/main.c. *)
From S2P Require Import Prelude.
#[local] Open Scope Z_scope.

(** ** The fifo of partition points

    [struct kfifo] belongs to the kernel: what the chunker relies on is that
    [kfifo_put] of an [int] appends it when there is room and drops it
    otherwise, that [kfifo_get] takes the oldest one, and that [kfifo_len]
    counts bytes. [kview] is the contents, [cap] the capacity in [int]s. *)

Class Kfifo (F : Type) : Type := {
  kfifo_put : F → Z → F;
  kfifo_get : F → option (Z * F);
  kfifo_len : F → Z }.

Class KfifoLaws (F : Type) `{Kfifo F} (cap : nat) : Type := {
  kview : F → list Z;
  kview_put f v :
    kview (kfifo_put f v) =
    if decide (length (kview f) < cap)%nat then kview f ++ [v] else kview f;
  kview_get f :
    match kview f with
    | [] => kfifo_get f = None
    | v :: l => ∃ f', kfifo_get f = Some (v, f') ∧ kview f' = l
    end;
  kview_len f : kfifo_len f = 4 * Z.of_nat (length (kview f)) }.

(** A queue that satisfies the interface. *)
Definition list_fifo_put (cap : nat) (l : list Z) (v : Z) : list Z :=
  if decide (length l < cap)%nat then l ++ [v] else l.

#[export] Instance list_fifo : Kfifo (list Z) := {|
  kfifo_put := list_fifo_put 1024;
  kfifo_get l := match l with [] => None | v :: l => Some (v, l) end;
  kfifo_len l := 4 * Z.of_nat (length l) |}.

#[export] Instance list_fifo_laws : KfifoLaws (list Z) 1024.
Proof.
  refine {| kview l := l |}; try done. intros [|v l]; [done|]. by exists l.
Defined.

(** ** Parameters *)

Definition CHUNKSTEP : Z := 32.
Definition SHALEN : Z := 20.
(** [KFIFOLEN] is [1024*sizeof(int)] bytes: room for 1024 positions. *)
Definition KFIFO_INTS : nat := 1024.
Definition step : Z := CHUNKSTEP - 1.

(** The global variables the two functions of main.c and chunk.c share. *)
Record globals := mk_globals {
  RM : Z; zero_value : Z; zero_num : nat; Q : Z; R : Z; chunk_num : nat }.

Definition globals0 : globals := mk_globals 1 1 6 1 1048583 32.

Definition init_hash_parameters (g : globals) : globals :=
  let Q' := Nat.iter 60 (λ q, u64 (2 * q)) (Q g) in
  let RM' := Nat.iter (chunk_num g - 1) (λ rm, u64 (R g * rm) mod Q') (RM g) in
  let z := Nat.iter (zero_num g) (λ z, u64 (2 * z)) (zero_value g) in
  mk_globals RM' (u64 (z - 1)) (zero_num g) Q' (R g) (chunk_num g).

(** ** The hash *)

(** One turn of the loop: [h = (R * h + key[j]) % Q] on [unsigned long], the
    [char] being sign-extended. *)
Definition hash_step (R Q h c : Z) : Z := u64 (u64 (R * h) + u64 c) mod Q.

Definition pack_hash (key : list Z) (M : nat) (R Q : Z) : Z :=
  foldl (hash_step R Q) 0 (take M key).

(** The two lines that slide the window by one byte. *)
Definition roll (g : globals) (txthash cout cin : Z) : Z :=
  let txthash := u64 (u64 (txthash + Q g) - u64 (RM g * u64 cout) mod Q g) mod Q g in
  u64 (u64 (txthash * R g) + u64 cin) mod Q g.

Definition byte_at (p : list Z) (i : nat) : Z := default 0 (p !! i).

Section partition.
  Context {F : Type} `{Kfifo F}.
  Context (g : globals).

(** The loop [for (i = chunk_num; i < playload_len; i++)], [n] turns from [i]. *)
Fixpoint partition_loop (p : list Z) (n i : nat) (txthash delay_time : Z) (fifo : F) : F :=
  match n with
  | O => fifo
  | S n =>
    let txthash := roll g txthash (byte_at p (i - chunk_num g)) (byte_at p i) in
    if delay_time =? 0 then
      if Z.land txthash (zero_value g) =? 0 then
        partition_loop p n (S i) txthash step (kfifo_put fifo (Z.of_nat i))
      else partition_loop p n (S i) txthash delay_time fifo
    else partition_loop p n (S i) txthash (delay_time - 1) fifo
  end.

Definition calculate_partition (playload : list Z) (fifo : F) : F :=
  let delay_time := 0 in
  let txthash := pack_hash playload (chunk_num g) (R g) (Q g) in
  let n := (length playload - chunk_num g)%nat in
  if delay_time =? 0 then
    if Z.land txthash (zero_value g) =? 0 then
      let pos := Z.of_nat (chunk_num g) - 1 in
      partition_loop playload n (chunk_num g) txthash step (kfifo_put fifo pos)
    else partition_loop playload n (chunk_num g) txthash delay_time fifo
  else partition_loop playload n (chunk_num g) txthash (delay_time - 1) fifo.
End partition.

(** ** Specification of the partition points *)

(** The hash of the [chunk_num] bytes that end at [i], computed from scratch. *)
Definition window_hash (g : globals) (p : list Z) (i : nat) : Z :=
  pack_hash (drop (i + 1 - chunk_num g) p) (chunk_num g) (R g) (Q g).

Definition anchor (g : globals) (p : list Z) (i : nat) : bool :=
  Z.land (window_hash g p i) (zero_value g) =? 0.

(** The first anchor, then each first anchor at least [CHUNKSTEP] bytes after
    the previous cut: [n] positions from [i], none before [next]. *)
Fixpoint cuts (g : globals) (p : list Z) (n i next : nat) : list nat :=
  match n with
  | O => []
  | S n => if (next <=? i)%nat && anchor g p i
           then i :: cuts g p n (S i) (i + Z.to_nat CHUNKSTEP)
           else cuts g p n (S i) next
  end.

Definition cutpoints (g : globals) (p : list Z) : list nat :=
  cuts g p (length p + 1 - chunk_num g) (chunk_num g - 1) 0.

(** What [init_hash_parameters] establishes. *)
Record params_ok (g : globals) : Prop := {
  ok_Q : Q g = 2 ^ 60;
  ok_RM : RM g = R g ^ (Z.of_nat (chunk_num g) - 1) mod 2 ^ 60;
  ok_R : 0 ≤ R g;
  ok_chunk : (1 ≤ chunk_num g)%nat }.

(** ** The rolling hash computes window hashes *)

Section hash.
  Context (g : globals) (Hg : params_ok g).

#[local] Abbreviation q := (2 ^ 60).

Lemma q_pos : 0 < q. Proof. done. Qed.

(** The polynomial the hash is the residue of. *)
Definition poly (h : Z) (w : list Z) : Z := foldl (λ h c, R g * h + c) h w.

Lemma eqmod_u64_q a : eqmod q (u64 a) a.
Proof. apply eqmod_u64. lia. Qed.

Lemma hash_step_eqmod h c : eqmod q (hash_step (R g) (Q g) h c) (R g * h + c).
Proof. unfold hash_step. by rewrite (ok_Q g Hg), eqmod_mod, !eqmod_u64_q. Qed.

Lemma hash_step_range h c : 0 ≤ hash_step (R g) (Q g) h c < q.
Proof. unfold hash_step. rewrite (ok_Q g Hg). by apply Z.mod_pos_bound. Qed.

Lemma poly_eqmod h h' w : eqmod q h h' → eqmod q (poly h w) (poly h' w).
Proof.
  revert h h'. induction w as [|c w IH]; intros h h' E; [done|]. apply IH. by rewrite E.
Qed.

Lemma foldl_hash_poly h w : eqmod q (foldl (hash_step (R g) (Q g)) h w) (poly h w).
Proof.
  revert h. induction w as [|c w IH]; intros h; [done|]. simpl. rewrite IH.
  apply poly_eqmod, hash_step_eqmod.
Qed.

Lemma poly_snoc h w c : poly h (w ++ [c]) = R g * poly h w + c.
Proof. unfold poly. by rewrite foldl_app. Qed.

Lemma poly_split h w : poly h w = h * R g ^ Z.of_nat (length w) + poly 0 w.
Proof.
  induction w as [|c w IH] using rev_ind; [simpl; lia|].
  rewrite !poly_snoc, IH, length_app, Nat2Z.inj_add, Z.pow_add_r by lia.
  change (Z.of_nat (length [c])) with 1. rewrite Z.pow_1_r. ring.
Qed.

Lemma foldl_hash_range w h :
  0 ≤ h < q → 0 ≤ foldl (hash_step (R g) (Q g)) h w < q.
Proof. revert h. induction w; intros h Hh; [done|]. simpl. apply IHw, hash_step_range. Qed.

Lemma pack_hash_eq key M : pack_hash key M (R g) (Q g) = poly 0 (take M key) mod q.
Proof.
  unfold pack_hash. rewrite <- (foldl_hash_poly 0). symmetry.
  apply Z.mod_small. by apply foldl_hash_range.
Qed.

Lemma roll_eqmod h cout cin :
  eqmod q (roll g h cout cin) ((h - RM g * cout) * R g + cin).
Proof.
  unfold roll. cbv zeta. rewrite (ok_Q g Hg), eqmod_mod, !eqmod_u64_q.
  rewrite !eqmod_mod, !eqmod_u64_q. by rewrite (eqmod_add_self q h).
Qed.

Lemma roll_range h cout cin : 0 ≤ roll g h cout cin < q.
Proof. unfold roll. rewrite (ok_Q g Hg). by apply Z.mod_pos_bound. Qed.

(** Sliding the window [c :: w] to [w ++ [c']]. *)
Lemma roll_window c w c' :
  length w = (chunk_num g - 1)%nat →
  roll g (poly 0 (c :: w) mod q) c c' = poly 0 (w ++ [c']) mod q.
Proof.
  intros Hl. rewrite <- (Z.mod_small (roll _ _ _ _) q) by apply roll_range.
  change (eqmod q (roll g (poly 0 (c :: w) mod q) c c') (poly 0 (w ++ [c']))).
  rewrite roll_eqmod, eqmod_mod, (ok_RM g Hg), eqmod_mod, poly_snoc.
  change (poly 0 (c :: w)) with (poly (R g * 0 + c) w).
  rewrite poly_split, Hl.
  pose proof (ok_chunk g Hg).
  replace (Z.of_nat (chunk_num g - 1)) with (Z.of_nat (chunk_num g) - 1) by lia.
  apply (eq_subrelation _). ring.
Qed.
End hash.

(** ** The chunker implements the specification *)

Section partition_spec.
  Context (g : globals) (Hg : params_ok g).

Lemma window_hash_poly p i :
  window_hash g p i = poly g 0 (slice (i + 1 - chunk_num g) (chunk_num g) p) mod 2 ^ 60.
Proof. unfold window_hash. by rewrite pack_hash_eq. Qed.

Lemma byte_at_lookup p i : (i < length p)%nat → p !! i = Some (byte_at p i).
Proof.
  intros Hi. unfold byte_at. destruct (lookup_lt_is_Some_2 p i Hi) as [x ->]. done.
Qed.

Lemma roll_next p i :
  (chunk_num g ≤ i < length p)%nat →
  roll g (window_hash g p (i - 1)) (byte_at p (i - chunk_num g)) (byte_at p i)
  = window_hash g p i.
Proof.
  intros Hi. pose proof (ok_chunk g Hg) as Hk. rewrite !window_hash_poly.
  set (k := chunk_num g) in *.
  replace (i - 1 + 1 - k)%nat with (i - k)%nat by lia.
  pose proof (slice_cons (i - k) (k - 1) p (byte_at p (i - k))) as Hc.
  pose proof (slice_snoc (S (i - k)) (k - 1) p (byte_at p i)) as Hs.
  replace (S (k - 1)) with k in Hc, Hs by lia.
  replace (i + 1 - k)%nat with (S (i - k)) by lia.
  rewrite Hc by (apply byte_at_lookup; lia).
  rewrite Hs by (replace (S (i - k) + (k - 1))%nat with i by lia; apply byte_at_lookup; lia).
  apply roll_window; [done|]. apply slice_length. lia.
Qed.

(** A bound that has been passed no longer matters. *)
Lemma cuts_next p n i next next' :
  (next ≤ i)%nat → (next' ≤ i)%nat → cuts g p n i next = cuts g p n i next'.
Proof.
  revert i next next'. induction n as [|n IH]; intros i next next' H H'; [done|]. simpl.
  rewrite (proj2 (Nat.leb_le next i)), (proj2 (Nat.leb_le next' i)) by lia.
  destruct (anchor g p i); simpl; [done|]. apply IH; lia.
Qed.

Section fifo.
  Context {F : Type} `{KfifoLaws F cap}.

Lemma kview_put_all f (l : list Z) :
  (length (kview f) ≤ cap)%nat → kview (foldl kfifo_put f l) = take cap (kview f ++ l).
Proof.
  revert f. induction l as [|v l IH]; intros f Hf; simpl.
  - by rewrite app_nil_r, take_ge.
  - rewrite IH, kview_put.
    + case_decide as Hc.
      * by rewrite <- app_assoc.
      * rewrite !(take_app_le (kview f)) by lia. done.
    + rewrite kview_put. case_decide; rewrite ?length_app; simpl; lia.
Qed.

(** The delay counter says how far the next admissible cut is. *)
Lemma partition_loop_cuts p n i d f :
  (chunk_num g ≤ i)%nat → (i + n ≤ length p)%nat →
  partition_loop g p n i (window_hash g p (i - 1)) (Z.of_nat d) f
  = foldl kfifo_put f (Z.of_nat <$> cuts g p n i (i + d)).
Proof.
  revert i d f. induction n as [|n IH]; intros i d f Hi Hn; [done|].
  cbn [partition_loop cuts]. rewrite roll_next by lia. unfold anchor.
  replace (window_hash g p i) with (window_hash g p (S i - 1)) by (f_equal; lia).
  destruct (Z.eqb_spec (Z.of_nat d) 0) as [Hd|Hd].
  - assert (d = 0%nat) as -> by lia. rewrite Nat.add_0_r, Nat.leb_refl.
    replace (S i - 1)%nat with i by lia. simpl andb.
    destruct (_ =? 0).
    + replace step with (Z.of_nat 31) by done.
      replace (window_hash g p i) with (window_hash g p (S i - 1)) by (f_equal; lia).
      rewrite IH by lia.
      by replace (S i + 31)%nat with (i + Z.to_nat CHUNKSTEP)%nat by (unfold CHUNKSTEP; lia).
    + replace (window_hash g p i) with (window_hash g p (S i - 1)) by (f_equal; lia).
      change 0 with (Z.of_nat 0). rewrite IH by lia. rewrite Nat.add_0_r.
      by rewrite (cuts_next p n (S i) (S i) i) by lia.
  - rewrite (proj2 (Nat.leb_gt (i + d) i)) by lia. simpl andb. cbn iota.
    replace (Z.of_nat d - 1) with (Z.of_nat (d - 1)) by lia.
    rewrite IH by lia. by replace (S i + (d - 1))%nat with (i + d)%nat by lia.
Qed.

Lemma calculate_partition_cuts p f :
  (chunk_num g ≤ length p)%nat →
  calculate_partition g p f = foldl kfifo_put f (Z.of_nat <$> cutpoints g p).
Proof.
  intros Hl. pose proof (ok_chunk g Hg) as Hk.
  unfold calculate_partition, cutpoints. simpl (0 =? 0). cbv iota zeta.
  replace (pack_hash p (chunk_num g) (R g) (Q g)) with (window_hash g p (chunk_num g - 1)).
  2:{ unfold window_hash. by replace (chunk_num g - 1 + 1 - chunk_num g)%nat with 0%nat by lia. }
  replace (length p + 1 - chunk_num g)%nat with (S (length p - chunk_num g)) by lia.
  cbn [cuts]. simpl (0 <=? _)%nat. unfold anchor. simpl andb.
  replace (S (chunk_num g - 1)) with (chunk_num g) by lia.
  destruct (_ =? 0).
  - change step with (Z.of_nat 31). rewrite partition_loop_cuts by lia.
    replace (Z.of_nat (chunk_num g) - 1) with (Z.of_nat (chunk_num g - 1)) by lia.
    by replace (chunk_num g + 31)%nat with (chunk_num g - 1 + Z.to_nat CHUNKSTEP)%nat
      by (unfold CHUNKSTEP; lia).
  - change 0 with (Z.of_nat 0). rewrite partition_loop_cuts by lia.
    by rewrite (cuts_next p _ (chunk_num g) _ 0) by lia.
Qed.
End fifo.

(** ** Shape of the partition points *)

Lemma cuts_bounds p n i next x :
  x ∈ cuts g p n i next → (i ≤ x < i + n ∧ next ≤ x)%nat ∧ anchor g p x = true.
Proof.
  revert i next. induction n as [|n IH]; intros i next; simpl; [by rewrite elem_of_nil|].
  destruct (Nat.leb_spec next i); simpl; [|intros ?%IH; split; [lia|tauto]].
  destruct (anchor g p i) eqn:E; [|intros ?%IH; split; [lia|tauto]].
  rewrite elem_of_cons. intros [->|?%IH]; split; (tauto || lia).
Qed.

(** Consecutive cuts are at least [CHUNKSTEP] apart. *)
Definition spaced (l : list nat) : Prop := StronglySorted (λ x y, x + Z.to_nat CHUNKSTEP ≤ y)%nat l.

Lemma cuts_spaced p n i next : spaced (cuts g p n i next).
Proof.
  revert i next. induction n as [|n IH]; intros i next; simpl; [constructor|].
  destruct (_ && _); [|apply IH]. constructor; [apply IH|].
  apply Forall_forall. intros x Hx%cuts_bounds. lia.
Qed.

Lemma cuts_app p n m i next :
  cuts g p (n + m) i next =
  cuts g p n i next ++
  cuts g p m (i + n) (default next ((λ x, x + Z.to_nat CHUNKSTEP)%nat <$> last (cuts g p n i next))).
Proof.
  revert i next. induction n as [|n IH]; intros i next; simpl; [by rewrite Nat.add_0_r|].
  rewrite !IH. replace (S i + n)%nat with (i + S n)%nat by lia.
  destruct (_ && _); [|done]. rewrite last_cons. by destruct (last (cuts g p n _ _)).
Qed.

(** Windows that lie in a suffix do not see the prefix. *)
Lemma anchor_shift pre s i :
  (chunk_num g ≤ i + 1)%nat → anchor g (pre ++ s) (length pre + i) = anchor g s i.
Proof.
  intros. unfold anchor, window_hash.
  replace (length pre + i + 1 - chunk_num g)%nat with (length pre + (i + 1 - chunk_num g))%nat by lia.
  by rewrite drop_app_add.
Qed.

Lemma cuts_shift pre s n i next :
  (chunk_num g ≤ i + 1)%nat →
  cuts g (pre ++ s) n (length pre + i) (length pre + next)
  = (λ x, length pre + x)%nat <$> cuts g s n i next.
Proof.
  revert i next. induction n as [|n IH]; intros i next Hi; [done|].
  cbn [cuts]. rewrite anchor_shift by done.
  assert ((length pre + next <=? length pre + i)%nat = (next <=? i)%nat) as ->.
  { destruct (Nat.leb_spec next i), (Nat.leb_spec (length pre + next) (length pre + i)); lia. }
  replace (S (length pre + i)) with (length pre + S i)%nat by lia.
  destruct (_ && _); [|apply IH; lia].
  rewrite fmap_cons, <- IH by lia. do 2 f_equal. lia.
Qed.

(** Nothing is cut before the bound. *)
Lemma cuts_skip p n m i next :
  (i + n ≤ next)%nat → cuts g p (n + m) i next = cuts g p m (i + n) next.
Proof.
  revert i. induction n as [|n IH]; intros i H; simpl; [by rewrite Nat.add_0_r|].
  rewrite (proj2 (Nat.leb_gt next i)) by lia. simpl. rewrite IH by lia. f_equal. lia.
Qed.

(** A prefix sees none of what follows it. *)
Lemma cuts_prefix pre s n i next :
  (chunk_num g ≤ i + 1)%nat → (i + n ≤ length pre)%nat →
  cuts g (pre ++ s) n i next = cuts g pre n i next.
Proof.
  pose proof (ok_chunk g Hg) as Hk.
  revert i next. induction n as [|n IH]; intros i next Hi Hn; [done|]. cbn [cuts].
  assert (anchor g (pre ++ s) i = anchor g pre i) as ->.
  { unfold anchor. rewrite !window_hash_poly, slice_app_l by lia. done. }
  by rewrite !IH by lia.
Qed.

(** Cutting restarts afresh after a cut: what follows a partition point is cut
    as if it were a payload of its own. *)
Lemma cutpoints_resync pre s :
  (chunk_num g ≤ length pre)%nat →
  last (cutpoints g pre) = Some (length pre - 1)%nat →
  chunk_num g = S (Z.to_nat step) →
  cutpoints g (pre ++ s) =
  cutpoints g pre ++ ((λ x, length pre + x)%nat <$> cutpoints g s).
Proof.
  intros Hl Hlast Hk. unfold cutpoints in *.
  rewrite length_app.
  replace (length pre + length s + 1 - chunk_num g)%nat with
    (length pre + 1 - chunk_num g + length s)%nat by lia.
  rewrite cuts_app, cuts_prefix by lia. f_equal.
  rewrite Hlast. simpl default.
  replace (chunk_num g - 1 + (length pre + 1 - chunk_num g))%nat with (length pre) by lia.
  assert (Z.to_nat step = 31)%nat as Hs by done. rewrite Hs in Hk.
  replace (length pre - 1 + Z.to_nat CHUNKSTEP)%nat with (length pre + 31)%nat
    by (unfold CHUNKSTEP; lia).
  rewrite Hk. destruct (decide (length s < 32)%nat).
  - replace (length s + 1 - 32)%nat with 0%nat by lia.
    replace (length s) with (length s + 0)%nat by lia.
    by rewrite cuts_skip by lia.
  - replace (length s) with (31 + (length s + 1 - 32))%nat at 1 by lia.
    rewrite cuts_skip, cuts_shift by lia. f_equal. apply cuts_next; lia.
Qed.
End partition_spec.

Lemma cutpoints_lt g p x : params_ok g → x ∈ cutpoints g p → (x < length p)%nat.
Proof. intros Hg Hx%cuts_bounds. pose proof (ok_chunk g Hg). lia. Qed.

(** A full fifo that ends with the last byte has dropped nothing. *)
Lemma take_cutpoints_last g p n :
  params_ok g → last (take n (cutpoints g p)) = Some (length p - 1)%nat →
  take n (cutpoints g p) = cutpoints g p.
Proof.
  intros Hg Hl. destruct (decide (length (cutpoints g p) ≤ n)%nat); [by apply take_ge|].
  pose proof (cuts_spaced g p (length p + 1 - chunk_num g) (chunk_num g - 1) 0) as Hs.
  fold (cutpoints g p) in Hs. unfold spaced in Hs.
  rewrite <- (take_drop n (cutpoints g p)) in Hs.
  destruct (drop n (cutpoints g p)) as [|y k] eqn:E.
  { apply (f_equal length) in E. rewrite length_drop in E. simpl in E. lia. }
  apply last_Some_elem_of in Hl.
  assert (y ∈ cutpoints g p) as Hy.
  { rewrite <- (take_drop n (cutpoints g p)), E. set_solver. }
  apply cutpoints_lt in Hy; [|done].
  assert (length p - 1 + Z.to_nat CHUNKSTEP ≤ y)%nat.
  { apply (StronglySorted_app_1_elem_of _ _ _ _ _ Hs); [done|by left]. }
  unfold CHUNKSTEP in *. lia.
Qed.

(** The shape of what the chunker leaves in the fifo. *)
Lemma partition_shape {F} `{KfifoLaws F cap} g p (f : F) :
  params_ok g → (chunk_num g ≤ length p)%nat → kview f = [] →
  let l := kview (calculate_partition g p f) in
  StronglySorted (λ x y, x + CHUNKSTEP ≤ y) l ∧
  Forall (λ x, Z.of_nat (chunk_num g) - 1 ≤ x < Z.of_nat (length p) ∧
               anchor g p (Z.to_nat x) = true) l.
Proof.
  intros Hg Hl Hf l. pose proof (ok_chunk g Hg) as Hk.
  assert (l = Z.of_nat <$> take cap (cutpoints g p)) as ->.
  { unfold l. rewrite calculate_partition_cuts by done.
    rewrite kview_put_all by (rewrite Hf; simpl; lia).
    rewrite Hf. simpl. by rewrite fmap_take. }
  split.
  - apply (StronglySorted_fmap _ (λ x y, x + Z.to_nat CHUNKSTEP ≤ y)%nat).
    + unfold CHUNKSTEP. lia.
    + pose proof (cuts_spaced g p (length p + 1 - chunk_num g) (chunk_num g - 1) 0) as Hs.
      fold (cutpoints g p) in Hs. unfold spaced in Hs.
      rewrite <- (take_drop cap (cutpoints g p)) in Hs.
      by apply StronglySorted_app_1_l in Hs.
  - apply Forall_fmap, Forall_take, Forall_forall. intros x Hx. simpl.
    apply cuts_bounds in Hx as [Hx Ha]. rewrite Nat2Z.id. split; [lia|done].
Qed.

(** ** The parameters the module runs with *)

Lemma iter_double n q : 0 ≤ q → q * 2 ^ Z.of_nat n < 2 ^ 64 →
  Nat.iter n (λ q, u64 (2 * q)) q = q * 2 ^ Z.of_nat n.
Proof.
  induction n as [|n IH]; intros Hq Hn; simpl Nat.iter; [lia|].
  rewrite Nat2Z.inj_succ, Z.pow_succ_r in * by lia.
  assert (0 < 2 ^ Z.of_nat n) by (apply Z.pow_pos_nonneg; lia).
  rewrite IH by nia. rewrite u64_small by nia. lia.
Qed.

Lemma iter_RM n r : 0 ≤ r →
  Nat.iter n (λ rm, u64 (r * rm) mod 2 ^ 60) 1 = r ^ Z.of_nat n mod 2 ^ 60.
Proof.
  intros Hr. induction n as [|n IH]; [done|]. simpl Nat.iter. rewrite IH.
  rewrite Nat2Z.inj_succ, Z.pow_succ_r by lia.
  change (eqmod (2 ^ 60) (u64 (r * (r ^ Z.of_nat n mod 2 ^ 60))) (r * r ^ Z.of_nat n)).
  rewrite eqmod_u64 by lia. by rewrite eqmod_mod.
Qed.

Lemma init_params_ok g :
  Q g = 1 → RM g = 1 → 0 ≤ R g → (1 ≤ chunk_num g)%nat →
  params_ok (init_hash_parameters g).
Proof.
  intros HQ HRM HR Hk. unfold init_hash_parameters.
  assert (Nat.iter 60 (λ q, u64 (2 * q)) (Q g) = 2 ^ 60) as E.
  { rewrite HQ. rewrite iter_double; done. }
  split; cbn [Q RM R chunk_num]; try done. rewrite E, HRM, iter_RM by done.
  do 2 f_equal. lia.
Qed.

Definition wspack_globals : globals := init_hash_parameters globals0.

Lemma wspack_globals_ok : params_ok wspack_globals.
Proof. apply init_params_ok; done || (simpl; lia). Qed.
#[export] Hint Resolve wspack_globals_ok : wspack.

(** ** Properties *)

(** [init_hash_parameters], started on the initial values of the globals,
    leaves [Q = 2^60], [RM = R^(chunk_num-1) mod Q] and a mask of [zero_num]
    ones, none of the 64-bit products having lost a bit that matters. *)
Lemma init_hash_parameters_correct g :
  Q g = 1 → RM g = 1 → zero_value g = 1 → 0 ≤ R g → (1 ≤ chunk_num g)%nat →
  (zero_num g < 64)%nat →
  let g' := init_hash_parameters g in
  Q g' = 2 ^ 60 ∧ RM g' = R g ^ (Z.of_nat (chunk_num g) - 1) mod 2 ^ 60 ∧
  zero_value g' = Z.ones (Z.of_nat (zero_num g)) ∧
  R g' = R g ∧ chunk_num g' = chunk_num g.
Proof.
  intros HQ HRM Hz HR Hk Hn g'. destruct (init_params_ok g) as [E1 E2 _ _]; try done.
  fold g' in E1, E2. repeat split; [exact E1|exact E2|].
  unfold g', init_hash_parameters. cbn [zero_value].
  assert (2 ^ Z.of_nat (zero_num g) < 2 ^ 64) by (apply Z.pow_lt_mono_r; lia).
  assert (0 < 2 ^ Z.of_nat (zero_num g)) by (apply Z.pow_pos_nonneg; lia).
  rewrite Hz, iter_double, u64_small, Z.ones_equiv by lia. lia.
Qed.

(** C10. [calculate_partition], with its rolling hash, its wrapping 64-bit
    arithmetic on signed bytes and its delay counter, leaves in the fifo the
    positions of the specification (hash of each window from scratch, greedy
    choice of anchors), truncated to the fifo's capacity. *)
Theorem calculate_partition_correct {F} `{KfifoLaws F cap} g p (f : F) :
  params_ok g → (chunk_num g ≤ length p)%nat → kview f = [] →
  kview (calculate_partition g p f) = take cap (Z.of_nat <$> cutpoints g p).
Proof.
  intros Hg Hl Hf. rewrite calculate_partition_cuts by done.
  rewrite kview_put_all by (rewrite Hf; simpl; lia). by rewrite Hf.
Qed.
(** A payload of 64 bytes, some of them negative [char]s, cut at its end. *)
Definition sample_payload : list Z := (λ i, s8 (i * i * 7 + i * 3)) <$> seqZ 0 64.
Lemma calculate_partition_correct_witness :
  kview (calculate_partition wspack_globals sample_payload ([] : list Z))
  = take 1024 (Z.of_nat <$> cutpoints wspack_globals sample_payload).
Proof.
  apply (calculate_partition_correct wspack_globals sample_payload ([] : list Z)).
  - apply wspack_globals_ok.
  - apply Nat.leb_le. reflexivity.
  - reflexivity.
Defined.

(** The partition points lie inside the payload, the first one at least
    [chunk_num - 1] bytes in, and consecutive ones are at least [CHUNKSTEP]
    bytes apart; each is an anchor. *)
Lemma partition_points_spaced {F} `{KfifoLaws F cap} g p (f : F) :
  params_ok g → (chunk_num g ≤ length p)%nat → kview f = [] →
  let l := kview (calculate_partition g p f) in
  StronglySorted (λ x y, x + CHUNKSTEP ≤ y) l ∧
  Forall (λ x, Z.of_nat (chunk_num g) - 1 ≤ x < Z.of_nat (length p) ∧
               anchor g p (Z.to_nat x) = true) l.
Proof. apply partition_shape. Qed.

