(* ===== verification/Partition.v ===== *)
(** Cutting a payload into chunks: [get_partition] of
    model/kernel_hash/nf_in.c and of model/send_module/nf_out.c, which differ
    only in the [build_hash] they call on each chunk. *)
From S2P Require Import Prelude Rabin.
#[local] Open Scope Z_scope.

Section get_partition.
  Context {F : Type} `{Kfifo F}.
  Context (g : globals).
  (** [build_hash] on the state [S], for the chunk from [start] to [end] (both
      included), of length [end - start + 1]. *)
  Context {S : Type} (build_hash : S → Z → Z → outcome S).

(** The variables of the loop over the fifo. *)
Record cursor := mk_cursor { start_pos : Z; end_pos : Z; value : Z }.

(** [for (fifo_i = 0; fifo_i < fifo_part/sizeof(value); ++fifo_i)], [n] turns
    left from [fifo_i]. *)
Fixpoint fifo_loop (n : nat) (fifo_i : nat) (fifo : F) (c : cursor) (s : S)
    : outcome (cursor * S) :=
  match n with
  | O => Done (c, s)
  | Datatypes.S n =>
    let '(v, fifo) := default (value c, fifo) (kfifo_get fifo) in
    let start := if (fifo_i =? 0)%nat then 0 else end_pos c + 1 in
    s ← build_hash s start v;
    fifo_loop n (Datatypes.S fifo_i) fifo (mk_cursor start v v) s
  end.

(** [fifo] is what [kfifo_alloc] returned, [None] for an error pointer. *)
Definition get_partition (fifo : option F) (data : list Z) (s : S) : outcome S :=
  let length := Z.of_nat (length data) in
  if Z.of_nat (chunk_num g) <? length then
    match fifo with
    | None => Done s
    | Some fifo =>
      let fifo := calculate_partition g data fifo in
      let fifo_part := kfifo_len fifo in
      let fifo_len := fifo_part / 4 in
      '(c, s) ← fifo_loop (Z.to_nat (fifo_part / 4)) 0 fifo (mk_cursor 0 0 0) s;
      if 0 <? fifo_len then
        if negb (end_pos c =? length - 1) then build_hash s (end_pos c + 1) (length - 1)
        else Done s
      else build_hash s 0 (length - 1)
    end
  else Done s.
End get_partition.

(** ** Specification: the ranges of the chunks *)

(** From [start], a chunk up to each cut and one for what remains. *)
Fixpoint chunk_ranges (start : Z) (cuts : list Z) (len : Z) : list (Z * Z) :=
  match cuts with
  | [] => if start =? len then [] else [(start, len - 1)]
  | c :: cuts => (start, c) :: chunk_ranges (c + 1) cuts len
  end.

(** The bytes of a range. *)
Definition range_bytes (data : list Z) (r : Z * Z) : list Z :=
  slice (Z.to_nat (fst r)) (Z.to_nat (snd r - fst r + 1)) data.

(** The ranges that [get_partition] hands to [build_hash]. *)
Definition chunks_of {F} `{KfifoLaws F cap} (g : globals) (fifo : F) (data : list Z)
    : list (Z * Z) :=
  chunk_ranges 0 (kview (calculate_partition g data fifo)) (Z.of_nat (length data)).

Section facts.
  Context {F : Type} `{KfifoLaws F cap}.
  Context {S : Type} (build : S → Z → Z → outcome S).

#[local] Abbreviation step_range := (λ s r, build s (fst r) (snd r)).

(** The loop and the remainder that follows it, once a first cut is behind. *)
Lemma fifo_loop_ranges l fifo i c s len :
  kview fifo = l →
  ('(c', s') ← fifo_loop build (length l) (Datatypes.S i) fifo c s;
   if negb (end_pos c' =? len - 1) then build s' (end_pos c' + 1) (len - 1) else Done s')
  = ofold step_range s (chunk_ranges (end_pos c + 1) l len).
Proof.
  revert fifo i c s. induction l as [|v l IH]; intros fifo i c s Hv; cbn [length fifo_loop].
  - simpl. destruct (Z.eqb_spec (end_pos c) (len - 1)), (Z.eqb_spec (end_pos c + 1) len);
      simpl; try lia; [done|]. by destruct (build _ _ _).
  - pose proof (kview_get fifo) as Hget. rewrite Hv in Hget.
    destruct Hget as (f'&->&Hf'). simpl.
    destruct (build s _ v) as [s'| |]; [|done|done]. simpl.
    rewrite <- (IH f' (Datatypes.S i) (mk_cursor (end_pos c + 1) v v)) by done. done.
Qed.

Lemma get_partition_ranges g fifo data s :
  (chunk_num g < length data)%nat →
  get_partition g build (Some fifo) data s = ofold step_range s (chunks_of g fifo data).
Proof.
  intros Hl. unfold get_partition, chunks_of.
  rewrite (proj2 (Z.ltb_lt _ _)) by lia. rewrite kview_len.
  set (fifo' := calculate_partition g data fifo).
  replace (4 * Z.of_nat (length (kview fifo')) / 4) with (Z.of_nat (length (kview fifo')))
    by (rewrite Z.mul_comm, Z.div_mul by lia; done).
  rewrite Nat2Z.id. destruct (kview fifo') as [|v l] eqn:E; cbn [length fifo_loop].
  - cbn [chunk_ranges]. rewrite (proj2 (Z.eqb_neq 0 _)) by lia.
    simpl mbind. change (0 <? Z.of_nat 0) with false. cbv iota.
    cbn [ofold fst snd]. by destruct (build _ _ _).
  - pose proof (kview_get fifo') as Hget. rewrite E in Hget.
    destruct Hget as (f'&->&Hf'). simpl.
    destruct (build s 0 v) as [s'| |]; [|done|done]. simpl.
    rewrite <- (fifo_loop_ranges l f' 0 (mk_cursor 0 v v)) by done. done.
Qed.

Lemma get_partition_small g fifo data s :
  (length data ≤ chunk_num g)%nat → get_partition g build fifo data s = Done s.
Proof. intros. unfold get_partition. by rewrite (proj2 (Z.ltb_ge _ _)) by lia. Qed.

Lemma get_partition_no_fifo g data s : get_partition g build (None : option F) data s = Done s.
Proof. unfold get_partition. by destruct (_ <? _). Qed.
End facts.

(** ** The ranges tile the payload *)

(** [tiles start rs len]: the ranges are consecutive from [start] to [len]. *)
Inductive tiles : Z → list (Z * Z) → Z → Prop :=
| tiles_nil len : tiles len [] len
| tiles_cons start stop rs len :
    0 ≤ start → start ≤ stop < len → tiles (stop + 1) rs len → tiles start ((start, stop) :: rs) len.

Lemma tiles_bytes data start rs :
  tiles start rs (Z.of_nat (length data)) → 0 ≤ start →
  concat (range_bytes data <$> rs) = drop (Z.to_nat start) data.
Proof.
  remember (Z.of_nat (length data)) as len eqn:El. intros Ht.
  induction Ht as [len|start stop rs len H0 H1 Ht IH]; intros Hs; subst.
  - simpl. by rewrite Nat2Z.id, drop_all.
  - rewrite fmap_cons. cbn [concat]. rewrite IH by (done || lia).
    unfold range_bytes, slice. cbn [fst snd].
    replace (Z.to_nat (stop + 1)) with (Z.to_nat start + Z.to_nat (stop - start + 1))%nat by lia.
    rewrite <- drop_drop. apply take_drop.
Qed.

Lemma chunk_ranges_tiles start l len :
  0 ≤ start ≤ len → StronglySorted Z.lt l → Forall (λ c, start ≤ c < len) l →
  tiles start (chunk_ranges start l len) len.
Proof.
  intros Hs Hl. revert start Hs. induction Hl as [|c l Hl IH Hc]; intros start Hs Hb; simpl.
  - destruct (Z.eqb_spec start len) as [->|]; [constructor|].
    constructor; [lia|lia|]. rewrite Z.sub_add. constructor.
  - apply Forall_cons in Hb as [Hc1 Hb]. constructor; [lia|lia|]. apply IH; [lia|].
    rewrite Forall_forall in *. intros x Hx. specialize (Hc x Hx). specialize (Hb x Hx). lia.
Qed.

(** All the ranges but the last one come from a cut. *)
Lemma chunk_ranges_long k start l len r :
  StronglySorted (λ x y, x + k ≤ y) l → Forall (λ c, start + k - 1 ≤ c) l → 0 < k →
  r ∈ chunk_ranges start l len → snd r = len - 1 ∨ k ≤ snd r - fst r + 1.
Proof.
  intros Hl. revert start. induction Hl as [|c l Hl IH Hc]; intros start Hb Hk; simpl.
  - destruct (_ =? _); [by intros ?%elem_of_nil|]. intros ->%list_elem_of_singleton. by left.
  - apply Forall_cons in Hb as [Hc1 Hb]. intros [->|Hr]%elem_of_cons; [right; simpl; lia|].
    apply (IH (c + 1)); [|done|done].
    rewrite Forall_forall in *. intros x Hx. specialize (Hc x Hx). lia.
Qed.

Section properties.
  Context {F : Type} `{KfifoLaws F cap}.

Lemma chunks_of_tiles g (fifo : F) data :
  params_ok g → (chunk_num g ≤ length data)%nat → kview fifo = [] →
  tiles 0 (chunks_of g fifo data) (Z.of_nat (length data)).
Proof.
  intros Hg Hl Hf. destruct (partition_shape g data fifo Hg Hl Hf) as [Hs Hb].
  apply chunk_ranges_tiles; [lia| |].
  - eapply StronglySorted_impl; [|exact Hs]. unfold CHUNKSTEP. simpl. lia.
  - eapply Forall_impl; [exact Hb|]. pose proof (ok_chunk g Hg). simpl. lia.
Qed.

(** C11. On a payload longer than the window, [get_partition] calls
    [build_hash] on consecutive chunks that cover the payload exactly, from the
    first byte to the last, in order; every chunk but the last is at least
    [CHUNKSTEP] bytes long when the window is. *)
Theorem get_partition_tiles {S} g (fifo : F) data (build : S → Z → Z → outcome S) s :
  params_ok g → kview fifo = [] → (chunk_num g < length data)%nat →
  CHUNKSTEP ≤ Z.of_nat (chunk_num g) →
  let rs := chunks_of g fifo data in
  get_partition g build (Some fifo) data s = ofold (λ s r, build s (fst r) (snd r)) s rs ∧
  tiles 0 rs (Z.of_nat (length data)) ∧
  concat (range_bytes data <$> rs) = data ∧
  Forall (λ r, snd r = Z.of_nat (length data) - 1 ∨ CHUNKSTEP ≤ snd r - fst r + 1) rs.
Proof.
  intros Hg Hf Hl Hk rs.
  assert (tiles 0 rs (Z.of_nat (length data))) as Ht by (apply chunks_of_tiles; [done|lia|done]).
  split; [by apply get_partition_ranges|]. split; [done|]. split.
  - by rewrite (tiles_bytes _ 0).
  - destruct (partition_shape g data fifo Hg ltac:(lia) Hf) as [Hs Hb].
    apply Forall_forall. intros r Hr. unfold rs, chunks_of in Hr.
    apply (chunk_ranges_long CHUNKSTEP) in Hr; [done|done| |done].
    eapply Forall_impl; [exact Hb|]. simpl. lia.
Qed.
End properties.
Lemma get_partition_tiles_witness :
  let data := sample_payload ++ [1; 2; 3] in
  get_partition wspack_globals (λ l s e, Done (l ++ [(s, e)])) (Some ([] : list Z)) data []
    = Done [(0, 31); (32, 63); (64, 66)] ∧
  concat (range_bytes data <$> chunks_of wspack_globals ([] : list Z) data) = data.
Proof.
  intros data.
  destruct (get_partition_tiles wspack_globals ([] : list Z) data
              (λ l s e, Done (l ++ [(s, e)])) []) as (H1&_&H2&_).
  - apply wspack_globals_ok.
  - reflexivity.
  - apply Nat.ltb_lt. reflexivity.
  - vm_compute. discriminate.
  - split; [rewrite H1; vm_compute; reflexivity|exact H2].
Defined.
