(* ===== verification/ListSort.v ===== *)
(** The merge sort of linked lists of model/kernel_hash/sort.c: [merge],
    [merge_and_restore_back_links] and [list_sort].

    A NULL-terminated chain of nodes is the list of its nodes, NULL is [[]].
    The back links that the last pass restores are explicit: the pass yields
    each node with the node its [prev] field is set to ([None] is the head). *)
From S2P Require Import Prelude.
#[local] Open Scope Z_scope.

Definition MAX_LIST_LENGTH_BITS : nat := 20.

Section sort.
  Context {A : Type} (cmp : A → A → Z).

(** [while (a && b)]: if equal, take [a]; then the rest of the other chain. *)
Fixpoint merge (a : list A) : list A → list A :=
  fix merge_a (b : list A) : list A :=
    match a, b with
    | [], _ => b
    | _, [] => a
    | x :: a', y :: b' => if cmp x y <=? 0 then x :: merge a' b else y :: merge_a b'
    end.

(** The do-while loop over the chain that is left: it dereferences
    [tail->next] before it tests it. *)
Fixpoint link_rest (tail : option A) (rest : list A) : list (A * option A) * option A :=
  match rest with
  | [] => ([], tail)
  | x :: rest => let '(l, last) := link_rest (Some x) rest in ((x, tail) :: l, last)
  end.

Definition restore_rest (tail : option A) (rest : list A)
    : outcome (list (A * option A) * option A) :=
  match rest with [] => Oops | _ => Done (link_rest tail rest) end.

(** The merging loop of [merge_and_restore_back_links]: the nodes with their
    back links and, last, the node [head->prev] is set to. *)
Fixpoint merge_and_restore_back_links (tail : option A) (a : list A)
    : list A → outcome (list (A * option A) * option A) :=
  (fix restore_a (tail : option A) (b : list A) :=
    match a, b with
    | [], _ => restore_rest tail b
    | _, [] => restore_rest tail a
    | x :: a', y :: b' =>
      if cmp x y <=? 0 then
        '(l, last) ← merge_and_restore_back_links (Some x) a' b; Done ((x, tail) :: l, last)
      else '(l, last) ← restore_a (Some y) b'; Done ((y, tail) :: l, last)
    end) tail.

(** [for (lev = 0; part[lev]; lev++)]: merge [cur] with the partial lists below
    the first free slot; the sentinel slot ends the loop. *)
Fixpoint carry (fuel : nat) (lev : nat) (part : list (list A)) (cur : list A)
    : outcome (nat * list (list A) * list A) :=
  match fuel, part !! lev with
  | S fuel, Some (x :: l) => carry fuel (S lev) (<[lev := []]> part) (merge (x :: l) cur)
  | _, Some [] => Done (lev, part, cur)
  | _, _ => Oops
  end.

(** The update of [max_lev]: the last slot of [part] stays the sentinel. *)
Definition raise_max_lev (lev max_lev : nat) : nat * nat :=
  if (max_lev <? lev)%nat then
    let lev := if (MAX_LIST_LENGTH_BITS <=? lev)%nat then (lev - 1)%nat else lev in (lev, lev)
  else (lev, max_lev).

(** The body of [while (list)] for the node [cur], on [part] and [max_lev]. *)
Definition add_node (s : list (list A) * nat) (cur : A) : outcome (list (list A) * nat) :=
  let '(part, max_lev) := s in
  '(lev, part, cur) ← carry (length part) 0 part [cur];
  let '(lev, max_lev) := raise_max_lev lev max_lev in
  Done (<[lev := cur]> part, max_lev).

(** [for (lev = 0; lev < max_lev; lev++) if (part[lev]) list = merge(part[lev], list)]. *)
Definition collect (part : list (list A)) (max_lev : nat) : list A :=
  foldl (λ acc l, match l with [] => acc | _ => merge l acc end) [] (take max_lev part).

(** The nodes in their new order, each with its back link, and [head->prev]. *)
Definition list_sort (l : list A) : outcome (list (A * option A) * option A) :=
  match l with
  | [] => Done ([], None)
  | _ =>
    '(part, max_lev) ← ofold add_node (replicate (S MAX_LIST_LENGTH_BITS) [], 0%nat) l;
    merge_and_restore_back_links None (default [] (part !! max_lev)) (collect part max_lev)
  end.

(** ** Merging *)

Lemma merge_nil_l b : merge [] b = b.
Proof. by destruct b. Qed.
Lemma merge_nil_r a : merge a [] = a.
Proof. by destruct a. Qed.
Lemma merge_cons x a y b :
  merge (x :: a) (y :: b) =
  if cmp x y <=? 0 then x :: merge a (y :: b) else y :: merge (x :: a) b.
Proof. done. Qed.

(** Induction along the merging of two chains. *)
Lemma merge_ind (P : list A → list A → Prop) :
  (∀ b, P [] b) → (∀ x a, P (x :: a) []) →
  (∀ x a y b, cmp x y ≤ 0 → P a (y :: b) → P (x :: a) (y :: b)) →
  (∀ x a y b, ¬ cmp x y ≤ 0 → P (x :: a) b → P (x :: a) (y :: b)) →
  ∀ a b, P a b.
Proof.
  intros H1 H2 H3 H4 a. induction a as [|x a IHa]; intros b; [done|].
  induction b as [|y b IHb]; [done|].
  destruct (Z.le_gt_cases (cmp x y) 0); [by apply H3|apply H4; [lia|done]].
Qed.

Ltac merge_induction a b :=
  pattern a, b; apply merge_ind; clear a b;
  [intros b|intros x a|intros x a y b Hxy IH|intros x a y b Hxy IH].

Lemma merge_Permutation a b : merge a b ≡ₚ a ++ b.
Proof.
  merge_induction a b; rewrite ?merge_nil_l, ?merge_nil_r, ?app_nil_r; [done|done| |];
    rewrite merge_cons.
  - rewrite (proj2 (Z.leb_le _ _)) by done. simpl. by f_equiv.
  - rewrite (proj2 (Z.leb_gt _ _)) by lia. rewrite <- Permutation_middle. by f_equiv.
Qed.

Lemma link_rest_nodes tail l : fst <$> (link_rest tail l).1 = l.
Proof.
  revert tail. induction l as [|x l IH]; intros tail; [done|]. cbn [link_rest].
  specialize (IH (Some x)). destruct (link_rest (Some x) l). cbn [fst] in *.
  by rewrite fmap_cons, IH.
Qed.

(** The back links of a circular list: each node points to the one before it,
    the head to the last one. *)
Fixpoint linked (prev : option A) (l : list (A * option A)) (last : option A) : Prop :=
  match l with
  | [] => last = prev
  | (x, p) :: l => p = prev ∧ linked (Some x) l last
  end.

Lemma link_rest_linked tail l : linked tail (link_rest tail l).1 (link_rest tail l).2.
Proof.
  revert tail. induction l as [|x l IH]; intros tail; [done|]. simpl.
  specialize (IH (Some x)). by destruct (link_rest (Some x) l).
Qed.

Lemma restore_cons tail x a y b :
  merge_and_restore_back_links tail (x :: a) (y :: b) =
  if cmp x y <=? 0 then
    '(l, last) ← merge_and_restore_back_links (Some x) a (y :: b); Done ((x, tail) :: l, last)
  else '(l, last) ← merge_and_restore_back_links (Some y) (x :: a) b; Done ((y, tail) :: l, last).
Proof. done. Qed.

(** The last pass merges like [merge], links the nodes back and, on chains that
    are not both empty, dereferences no NULL. *)
Lemma restore_spec a b tail :
  a ≠ [] ∨ b ≠ [] →
  ∃ l last, merge_and_restore_back_links tail a b = Done (l, last) ∧
    fst <$> l = merge a b ∧ linked tail l last.
Proof.
  intros Hne. revert tail Hne. merge_induction a b; intros tail Hne.
  - destruct b as [|y b]; [by destruct Hne|].
    exists (link_rest tail (y :: b)).1, (link_rest tail (y :: b)).2.
    rewrite link_rest_nodes. split; [|split; [done|apply link_rest_linked]].
    cbn -[link_rest]. by destruct (link_rest _ _).
  - exists (link_rest tail (x :: a)).1, (link_rest tail (x :: a)).2.
    rewrite link_rest_nodes. split; [|split; [done|apply link_rest_linked]].
    cbn -[link_rest]. by destruct (link_rest _ _).
  - destruct (IH (Some x)) as (l&last&E&El&Hl); [by right|].
    exists ((x, tail) :: l), last.
    rewrite restore_cons, merge_cons, (proj2 (Z.leb_le _ _)) by done.
    rewrite E, fmap_cons, El. done.
  - destruct (IH (Some y)) as (l&last&E&El&Hl); [by left|].
    exists ((y, tail) :: l), last.
    rewrite restore_cons, merge_cons, (proj2 (Z.leb_gt _ _)) by lia.
    rewrite E, fmap_cons, El. done.
Qed.
(** ** Inserting a node into the partial lists *)

Definition merge_up (cur : list A) (mid : list (list A)) : list A :=
  foldl (λ cur l, merge l cur) cur mid.

(** [carry] empties the full slots below the first free one. *)
Lemma carry_spec pre post cur :
  [] ∈ post →
  ∃ mid post', post = mid ++ [] :: post' ∧
    carry (length post) (length pre) (pre ++ post) cur =
    Done ((length pre + length mid)%nat,
          pre ++ replicate (length mid) [] ++ [] :: post', merge_up cur mid).
Proof.
  revert pre cur. induction post as [|l post IH]; intros pre cur Hin; [by apply elem_of_nil in Hin|].
  cbn [length carry]. rewrite lookup_app_r, Nat.sub_diag by lia. cbn [lookup list_lookup].
  destruct l as [|x l].
  - exists [], post. rewrite Nat.add_0_r. done.
  - apply elem_of_cons in Hin as [?|Hin]; [done|].
    destruct (IH (pre ++ [[]]) (merge (x :: l) cur) Hin) as (mid&post'&->&E).
    exists ((x :: l) :: mid), post'. split; [done|].
    rewrite insert_app_r_alt, Nat.sub_diag by lia. cbn [insert list_insert].
    replace (length (pre ++ [[]])) with (S (length pre)) in E by (rewrite length_app; simpl; lia).
    rewrite <- !app_assoc in E. cbn [app] in E. rewrite E.
    replace (S (length pre) + length mid)%nat with (length pre + S (length mid))%nat by lia.
    done.
Qed.

Lemma merge_up_Permutation cur mid : merge_up cur mid ≡ₚ concat (reverse mid) ++ cur.
Proof.
  revert cur. induction mid as [|l mid IH]; intros cur; [done|].
  unfold merge_up. simpl foldl. fold (merge_up (merge l cur) mid). rewrite IH.
  rewrite merge_Permutation, reverse_cons, concat_app. simpl. by rewrite app_nil_r, app_assoc.
Qed.

(** What [list_sort] keeps true of its partial lists. *)
Record parts_ok (s : list (list A) * nat) : Prop := {
  parts_length : length s.1 = S MAX_LIST_LENGTH_BITS;
  parts_max : (s.2 < MAX_LIST_LENGTH_BITS)%nat;
  parts_above : Forall (λ l, l = []) (drop (S s.2) s.1) }.

(** The contents of the partial lists, oldest nodes first. *)
Definition contents (part : list (list A)) : list A := concat (reverse part).

Lemma contents_app p1 p2 : contents (p1 ++ p2) = contents p2 ++ contents p1.
Proof. unfold contents. by rewrite reverse_app, concat_app. Qed.
Lemma contents_cons l p : contents (l :: p) = contents p ++ l.
Proof. unfold contents. rewrite reverse_cons, concat_app. simpl. by rewrite app_nil_r. Qed.
Lemma contents_nils p : Forall (λ l : list A, l = []) p → contents p = [].
Proof. induction 1 as [|l p -> _ IH]; [done|]. by rewrite contents_cons, IH. Qed.
Lemma contents_replicate n : contents (replicate n []) = [].
Proof. apply contents_nils. by apply Forall_replicate. Qed.

Lemma parts_sentinel s : parts_ok s → [] ∈ s.1.
Proof.
  intros [Hlen Hmax Habove].
  destruct (lookup_lt_is_Some_2 s.1 MAX_LIST_LENGTH_BITS) as [l Hl]; [lia|].
  apply list_elem_of_lookup. exists MAX_LIST_LENGTH_BITS.
  rewrite Hl. f_equal. rewrite Forall_lookup in Habove.
  apply (Habove (MAX_LIST_LENGTH_BITS - S s.2)%nat). rewrite lookup_drop, <- Hl. f_equal. lia.
Qed.

(** The slot that receives the merged list: the first free one, or, when the
    sentinel stopped the loop, the one below it. *)
Lemma raise_max_lev_spec lev max_lev n :
  (max_lev < MAX_LIST_LENGTH_BITS)%nat → (lev + S n = S MAX_LIST_LENGTH_BITS)%nat →
  ∃ k m, raise_max_lev lev max_lev = (lev - k, Nat.max max_lev (lev - k))%nat ∧
    (k + n = m)%nat ∧ (lev - k < MAX_LIST_LENGTH_BITS)%nat ∧
    (k = 0 ∨ k = 1 ∧ n = 0)%nat ∧ (k ≤ lev)%nat.
Proof.
  intros Hmax Hlev. unfold raise_max_lev, MAX_LIST_LENGTH_BITS in *.
  destruct (Nat.ltb_spec max_lev lev); [destruct (Nat.leb_spec 20 lev)|].
  - exists 1%nat, 1%nat. split; [|lia]. f_equal; lia.
  - exists 0%nat, n. split; [|lia]. f_equal; lia.
  - exists 0%nat, n. split; [|lia]. f_equal; lia.
Qed.

(** The partial lists once [cur] is in its slot. *)
Definition placed (k lev : nat) (cur : list A) (post : list (list A)) : list (list A) :=
  replicate (lev - k) [] ++ cur :: replicate k [] ++ post.

Lemma insert_placed k lev cur post :
  (k ≤ lev)%nat → (k = 0 ∨ k = 1)%nat →
  <[(lev - k)%nat := cur]> (replicate lev [] ++ [] :: post) = placed k lev cur post.
Proof.
  intros Hk Hk'. unfold placed.
  assert (replicate lev ([] : list A) ++ [] :: post
          = replicate (lev - k) [] ++ [] :: replicate k [] ++ post) as ->.
  { destruct Hk' as [->| ->]; [by rewrite Nat.sub_0_r|]. destruct lev; [lia|].
    replace (S lev - 1)%nat with lev by lia. rewrite <- Nat.add_1_r, replicate_add, <- app_assoc.
    done. }
  rewrite insert_app_r_alt by (rewrite length_replicate; lia).
  by rewrite length_replicate, Nat.sub_diag.
Qed.

Lemma placed_parts_ok k lev cur mid post max_lev :
  parts_ok (mid ++ [] :: post, max_lev) → length mid = lev →
  (k ≤ lev)%nat → (lev - k < MAX_LIST_LENGTH_BITS)%nat →
  parts_ok (placed k lev cur post, Nat.max max_lev (lev - k)).
Proof.
  intros [Hlen Hmax Habove] Hmid Hk Hlt. unfold placed. cbn [fst snd] in *.
  rewrite length_app in Hlen. simpl in Hlen. split; cbn [fst snd].
  - rewrite length_app. cbn [length]. rewrite length_app, !length_replicate. lia.
  - lia.
  - apply Forall_forall. intros l Hl. apply list_elem_of_lookup in Hl as [i Hi].
    rewrite lookup_drop, lookup_app_r in Hi by (rewrite length_replicate; lia).
    rewrite length_replicate in Hi.
    replace (S (max_lev `max` (lev - k)) + i - (lev - k))%nat
      with (S (max_lev `max` (lev - k) + i - (lev - k)))%nat in Hi by lia.
    set (j := (max_lev `max` (lev - k) + i - (lev - k))%nat) in Hi.
    change ((replicate k [] ++ post) !! j = Some l) in Hi.
    destruct (decide (j < k)%nat).
    { rewrite lookup_app_l in Hi by (rewrite length_replicate; lia).
      by apply lookup_replicate in Hi as [-> _]. }
    rewrite lookup_app_r in Hi by (rewrite length_replicate; lia). rewrite length_replicate in Hi.
    rewrite Forall_lookup in Habove.
    apply (Habove (lev + S (j - k) - S max_lev)%nat).
    rewrite lookup_drop, lookup_app_r by lia.
    replace (S max_lev + (lev + S (j - k) - S max_lev) - length mid)%nat with (S (j - k)) by lia.
    done.
Qed.

(** One node: the full slots below the first free one are merged with it. *)
Lemma add_node_spec s x :
  parts_ok s →
  ∃ s' mid post k, add_node s x = Done s' ∧ parts_ok s' ∧ s.1 = mid ++ [] :: post ∧
    s'.1 = placed k (length mid) (merge_up [x] mid) post.
Proof.
  intros Hs. pose proof (parts_sentinel s Hs) as Hin. destruct s as [part max_lev].
  destruct (carry_spec [] part [x] Hin) as (mid&post&Ep&E). simpl in Ep, E.
  pose proof (parts_length _ Hs) as Hl. pose proof (parts_max _ Hs) as Hmax.
  cbn [fst snd] in *. rewrite Ep, length_app in Hl. cbn [length] in Hl.
  destruct (raise_max_lev_spec (length mid) max_lev (length post) Hmax Hl)
    as (k&m&Er&_&Hlt&Hk&Hkm).
  exists (placed k (length mid) (merge_up [x] mid) post, Nat.max max_lev (length mid - k)),
    mid, post, k.
  split; [|split; [|done]].
  - unfold add_node. rewrite E. simpl. rewrite Er. rewrite insert_placed by lia. done.
  - subst part. by apply (placed_parts_ok k _ _ mid).
Qed.

Lemma contents_placed k lev cur post : contents (placed k lev cur post) = contents post ++ cur.
Proof.
  unfold placed. rewrite contents_app, contents_cons, contents_app, !contents_replicate.
  by rewrite !app_nil_r.
Qed.

Lemma contents_mid mid post : contents (mid ++ [] :: post) = contents post ++ contents mid.
Proof. by rewrite contents_app, contents_cons, app_nil_r. Qed.
(** The rule for what holds of the partial lists and the nodes seen so far. *)
Lemma add_nodes (J : list (list A) → list A → Prop) l s seen :
  parts_ok s → J s.1 seen →
  (∀ mid post k x seen, J (mid ++ [] :: post) seen →
     J (placed k (length mid) (merge_up [x] mid) post) (seen ++ [x])) →
  ∃ s', ofold add_node s l = Done s' ∧ parts_ok s' ∧ J s'.1 (seen ++ l).
Proof.
  intros Hs HJ Hstep. revert s seen Hs HJ. induction l as [|x l IH]; intros s seen Hs HJ.
  - exists s. by rewrite app_nil_r.
  - destruct (add_node_spec s x Hs) as (s1&mid&post&k&E&Hs1&E0&E1).
    destruct (IH s1 (seen ++ [x]) Hs1) as (s'&E'&Hs'&HJ').
    { rewrite E1. apply Hstep. by rewrite <- E0. }
    exists s'. simpl. rewrite E. simpl. rewrite <- app_assoc in HJ'. done.
Qed.

Lemma collect_merge_up part m : collect part m = merge_up [] (take m part).
Proof.
  unfold collect, merge_up. generalize ([] : list A) as acc.
  induction (take m part) as [|l p IH]; intros acc; [done|]. simpl. rewrite IH.
  destruct l; [by rewrite merge_nil_l|done].
Qed.

(** [list_sort] faults on no list; it is the last merging of partial lists that
    satisfy whatever each insertion preserves. *)
Lemma list_sort_spec (J : list (list A) → list A → Prop) l :
  J (replicate (S MAX_LIST_LENGTH_BITS) []) [] →
  (∀ mid post k x seen, J (mid ++ [] :: post) seen →
     J (placed k (length mid) (merge_up [x] mid) post) (seen ++ [x])) →
  (∀ part seen, J part seen → contents part = [] → seen = []) →
  ∃ nodes last low top above, list_sort l = Done (nodes, last) ∧ linked None nodes last ∧
    J (low ++ top :: above) l ∧ Forall (λ l, l = []) above ∧
    fst <$> nodes = merge top (merge_up [] low).
Proof.
  intros H0 Hstep Hne.
  destruct (add_nodes J l (replicate (S MAX_LIST_LENGTH_BITS) [], 0%nat) []) as (s&E&Hs&HJ);
    [by split; [done|apply Nat.leb_le|apply Forall_drop, Forall_replicate]|done|done|].
  destruct s as [part m]. destruct Hs as [Hlen Hmax Habove]. cbn [fst snd app] in *.
  destruct (lookup_lt_is_Some_2 part m) as [top Htop]; [lia|].
  pose proof (take_drop_middle _ _ _ Htop) as Hp.
  destruct l as [|x l].
  - exists [], None, (take m part), top, (drop (S m) part). rewrite Hp.
    injection E as <- <-. split; [done|]. split; [done|].
    split; [done|]. split; [done|]. injection Htop as <-.
    rewrite merge_nil_l. done.
  - destruct (restore_spec top (collect part m) None) as (nodes&last&Er&Ef&El).
    { destruct top; [right|by left]. intros Ec. cut (x :: l = []); [done|].
      apply (Hne part); [done|]. rewrite <- Hp, contents_mid.
      rewrite (contents_nils (drop _ _)) by done.
      rewrite collect_merge_up in Ec. apply Permutation_nil_r.
      pose proof (merge_up_Permutation [] (take m part)) as HP.
      rewrite Ec, app_nil_r in HP. by symmetry. }
    exists nodes, last, (take m part), top, (drop (S m) part).
    rewrite Hp, Ef, collect_merge_up. unfold list_sort.
    rewrite E. simpl mbind. cbn beta iota. by rewrite Htop, <- collect_merge_up.
Qed.
Lemma contents_Permutation part seen : contents part ≡ₚ seen → contents part = [] → seen = [].
Proof. intros HP E. rewrite E in HP. by apply Permutation_nil_l in HP. Qed.

Lemma placed_Permutation mid post k x seen :
  contents (mid ++ [] :: post) ≡ₚ seen →
  contents (placed k (length mid) (merge_up [x] mid) post) ≡ₚ seen ++ [x].
Proof.
  rewrite contents_placed, contents_mid. intros <-.
  by rewrite merge_up_Permutation, (assoc_L (++)).
Qed.

(** ** Sorting by a total preorder *)

Definition le (x y : A) : Prop := cmp x y ≤ 0.
Definition same_key (k x : A) : Prop := cmp k x ≤ 0 ∧ cmp x k ≤ 0.
#[local] Instance same_key_dec k x : Decision (same_key k x).
Proof. unfold same_key. apply _. Defined.

Section order.
  Context (cmp_total : ∀ x y, cmp x y ≤ 0 ∨ cmp y x ≤ 0).
  Context (cmp_trans : ∀ x y z, cmp x y ≤ 0 → cmp y z ≤ 0 → cmp x z ≤ 0).

Lemma merge_sorted a b :
  StronglySorted le a → StronglySorted le b → StronglySorted le (merge a b).
Proof.
  merge_induction a b; intros Ha Hb; rewrite ?merge_nil_l, ?merge_nil_r; [done|done| |];
    rewrite merge_cons;
    apply StronglySorted_inv in Ha as [Ha Hx]; apply StronglySorted_inv in Hb as [Hb Hy].
  - rewrite (proj2 (Z.leb_le _ _)) by done.
    constructor; [apply IH; [done|by constructor]|].
    rewrite merge_Permutation. apply Forall_app. split; [done|]. constructor; [done|].
    eapply Forall_impl; [exact Hy|]. intros z. by apply cmp_trans.
  - rewrite (proj2 (Z.leb_gt _ _)) by lia.
    assert (cmp y x ≤ 0) as Hyx by (destruct (cmp_total x y); [done|done]).
    constructor; [apply IH; [by constructor|done]|].
    rewrite merge_Permutation. simpl. constructor; [done|]. apply Forall_app. split; [|done].
    eapply Forall_impl; [exact Hx|]. intros z. by apply cmp_trans.
Qed.

(** Nodes of one key come out of a merge in their order, those of [a] first. *)
Lemma merge_stable k a b :
  StronglySorted le a → filter (same_key k) (merge a b) = filter (same_key k) a ++ filter (same_key k) b.
Proof.
  merge_induction a b; intros Ha; rewrite ?merge_nil_l, ?merge_nil_r, ?app_nil_r; [done|done| |];
    rewrite merge_cons.
  - rewrite (proj2 (Z.leb_le _ _)) by done. apply StronglySorted_inv in Ha as [Ha _].
    rewrite !(filter_cons _ x), IH by done. by case_decide.
  - rewrite (proj2 (Z.leb_gt _ _)) by lia.
    rewrite (filter_cons _ y (merge _ _)), IH, (filter_cons _ y b) by done.
    destruct (decide (same_key k y)) as [[Hky Hyk]|]; [|done].
    assert (filter (same_key k) (x :: a) = []) as ->; [|done].
    apply StronglySorted_inv in Ha as [_ Hx].
    assert (∀ z, cmp x z ≤ 0 → ¬ same_key k z) as Hno.
    { intros z Hxz [_ Hzk]. apply Hxy. eauto. }
    rewrite filter_cons_False by (apply Hno; by destruct (cmp_total x x)).
    clear IH. induction Hx as [|z a Hz _ IHa]; [done|].
    by rewrite filter_cons_False by (apply Hno, Hz).
Qed.

Lemma merge_up_sorted cur mid :
  StronglySorted le cur → Forall (StronglySorted le) mid → StronglySorted le (merge_up cur mid).
Proof.
  intros Hc Hm. revert cur Hc. induction Hm as [|l mid Hl _ IH]; intros cur Hc; [done|].
  apply IH, merge_sorted; done.
Qed.

Lemma merge_up_stable k cur mid :
  StronglySorted le cur → Forall (StronglySorted le) mid →
  filter (same_key k) (merge_up cur mid) =
  filter (same_key k) (contents mid) ++ filter (same_key k) cur.
Proof.
  intros Hc Hm. revert cur Hc. induction Hm as [|l mid Hl Hm IH]; intros cur Hc; [done|].
  change (merge_up cur (l :: mid)) with (merge_up (merge l cur) mid).
  rewrite IH by (apply merge_sorted; done). rewrite merge_stable by done.
  by rewrite contents_cons, filter_app, app_assoc.
Qed.

(** What the insertions preserve. *)
Definition parts_sorted (part : list (list A)) (seen : list A) : Prop :=
  Forall (StronglySorted le) part ∧ contents part ≡ₚ seen ∧
  ∀ k, filter (same_key k) (contents part) = filter (same_key k) seen.

Lemma placed_sorted mid post k x seen :
  parts_sorted (mid ++ [] :: post) seen →
  parts_sorted (placed k (length mid) (merge_up [x] mid) post) (seen ++ [x]).
Proof.
  intros (Hs&HP&Hf). apply Forall_app in Hs as [Hm Hs]. apply Forall_cons in Hs as [_ Hpost].
  assert (StronglySorted le [x]) as Hx by (by repeat constructor).
  split; [|split; [by apply placed_Permutation|]].
  - unfold placed. apply Forall_app. split; [apply Forall_replicate; constructor|].
    constructor; [by apply merge_up_sorted|].
    apply Forall_app. split; [apply Forall_replicate; constructor|done].
  - intros k'. rewrite contents_placed, filter_app, merge_up_stable by done.
    specialize (Hf k'). rewrite contents_mid, filter_app in Hf.
    by rewrite filter_app, <- Hf, app_assoc.
Qed.

Lemma list_sort_sorted_stable l :
  ∃ nodes last, list_sort l = Done (nodes, last) ∧ linked None nodes last ∧
    StronglySorted le nodes.*1 ∧ nodes.*1 ≡ₚ l ∧
    ∀ k, filter (same_key k) nodes.*1 = filter (same_key k) l.
Proof.
  destruct (list_sort_spec parts_sorted l)
    as (nodes&last&low&top&above&E&Hlink&(Hs&HP&Hf)&Habove&Hn).
  - split; [apply Forall_replicate; constructor|]. rewrite contents_replicate. done.
  - intros. by apply placed_sorted.
  - intros part seen (_&HP&_). by apply contents_Permutation.
  - exists nodes, last. split; [done|]. split; [done|]. rewrite Hn.
    apply Forall_app in Hs as [Hlow Hs]. apply Forall_cons in Hs as [Htop _].
    assert (StronglySorted le ([] : list A)) as Hnil by constructor.
    assert (contents (low ++ top :: above) = top ++ contents low) as Hc.
    { by rewrite contents_app, contents_cons, contents_nils. }
    rewrite Hc in HP, Hf. split; [|split].
    + apply merge_sorted; [done|]. by apply merge_up_sorted.
    + rewrite merge_Permutation, merge_up_Permutation, app_nil_r. done.
    + intros k. rewrite merge_stable, merge_up_stable, <- Hf, filter_app by done.
      by rewrite app_nil_r.
Qed.
End order.
End sort.

(** ** Properties *)

(** Whatever [cmp] answers, the sort is a permutation. *)
Lemma list_sort_total {A} (cmp : A → A → Z) (l : list A) :
  ∃ nodes last, list_sort cmp l = Done (nodes, last) ∧
    nodes.*1 ≡ₚ l ∧ linked None nodes last.
Proof.
  destruct (list_sort_spec cmp (λ part seen, contents part ≡ₚ seen) l)
    as (nodes&last&low&top&above&E&Hlink&HP&Habove&Hn).
  - by rewrite contents_replicate.
  - intros. by apply placed_Permutation.
  - intros part seen. apply contents_Permutation.
  - exists nodes, last. split; [done|]. split; [|done]. rewrite Hn, <- HP.
    rewrite merge_Permutation, merge_up_Permutation, app_nil_r.
    by rewrite contents_app, contents_cons, contents_nils.
Qed.

(** C14. Whatever the comparison function answers, even inconsistently,
    [list_sort] ends without dereferencing NULL or running past [part[]], for
    lists of any length, and leaves the same nodes in the list, doubly linked:
    each [prev] is the node before, [head->prev] the last one. *)
Theorem list_sort_permutation {A} (cmp : A → A → Z) (l : list A) :
  ∃ nodes last, list_sort cmp l = Done (nodes, last) ∧
    nodes.*1 ≡ₚ l ∧ linked None nodes last.
Proof. apply list_sort_total. Qed.

(** C13. With a comparison that is a total preorder, [list_sort] sorts, and it
    is stable: the nodes of each key keep their original order. *)
Theorem list_sort_stable {A} (cmp : A → A → Z) (l : list A) :
  (∀ x y, cmp x y ≤ 0 ∨ cmp y x ≤ 0) →
  (∀ x y z, cmp x y ≤ 0 → cmp y z ≤ 0 → cmp x z ≤ 0) →
  ∃ nodes last, list_sort cmp l = Done (nodes, last) ∧
    StronglySorted (λ x y, cmp x y ≤ 0) nodes.*1 ∧
    (∀ k, filter (same_key cmp k) nodes.*1 = filter (same_key cmp k) l).
Proof.
  intros Htotal Htrans.
  destruct (list_sort_sorted_stable cmp Htotal Htrans l) as (nodes&last&E&_&Hs&_&Hf).
  by exists nodes, last.
Qed.
Lemma list_sort_stable_witness :
  ∃ nodes last,
    list_sort (λ x y : Z * Z, fst x - fst y) [(3, 1); (1, 2); (3, 3); (2, 4); (1, 5)]
      = Done (nodes, last) ∧
    StronglySorted (λ x y, fst x - fst y ≤ 0) nodes.*1 ∧
    (∀ k, filter (same_key (λ x y, fst x - fst y) k) nodes.*1 =
          filter (same_key (λ x y, fst x - fst y) k) [(3, 1); (1, 2); (3, 3); (2, 4); (1, 5)]).
Proof.
  apply (list_sort_stable (λ x y : Z * Z, fst x - fst y)); intros; simpl; lia.
Defined.
Example list_sort_example :
  list_sort (λ x y : Z * Z, fst x - fst y) [(3, 1); (1, 2); (3, 3); (2, 4); (1, 5)] =
  Done ([((1, 2), None); ((1, 5), Some (1, 2)); ((2, 4), Some (1, 5)); ((3, 1), Some (2, 4));
         ((3, 3), Some (3, 1))], Some (3, 3)).
Proof. reflexivity. Qed.
