(* ===== verification/Bitmap.v ===== *)
(** The allocator of file positions: [bitmap_find_next_zero_area] and the sizes
    of model/kernel_hash/bitmap.c. A bitmap is the set of its bits that are 1;
    [set_bit] and [clear_bit] add and remove an element. *)
From S2P Require Import Prelude.
#[local] Open Scope Z_scope.

(** ** The kernel's bit searches

    [find_next_zero_bit] and [find_next_bit] belong to the kernel. Their
    documented behaviour: the first bit of the wanted value from [offset] on,
    and [size] when there is none below [size]. *)

Class BitSearch : Type := {
  find_next_zero_bit : gset Z → Z → Z → Z;
  find_next_bit : gset Z → Z → Z → Z }.

(** [r] is the first place in [[start, size)] where [P] holds, or [size]. *)
Definition first_from (P : Z → Prop) (size start r : Z) : Prop :=
  (start ≤ r < size ∧ P r ∨ r = size) ∧ ∀ j, start ≤ j < r → j < size → ¬ P j.

Class BitSearchLaws `{BitSearch} : Prop := {
  find_next_zero_bit_spec map size start :
    0 ≤ start → first_from (λ j, j ∉ map) size start (find_next_zero_bit map size start);
  find_next_bit_spec map size start :
    0 ≤ start → first_from (λ j, j ∈ map) size start (find_next_bit map size start) }.

(** An implementation: scan the bits one by one. *)
Fixpoint scan (P : Z → bool) (size : Z) (n : nat) (i : Z) : Z :=
  match n with
  | O => size
  | S n => if P i then i else scan P size n (i + 1)
  end.

#[export] Instance scan_search : BitSearch := {|
  find_next_zero_bit map size start :=
    scan (λ j, bool_decide (j ∉ map)) size (Z.to_nat (size - start)) start;
  find_next_bit map size start :=
    scan (λ j, bool_decide (j ∈ map)) size (Z.to_nat (size - start)) start |}.

Lemma scan_spec P `{∀ j, Decision (P j)} size n i :
  n = Z.to_nat (size - i) →
  first_from P size i (scan (λ j, bool_decide (P j)) size n i).
Proof.
  revert i. induction n as [|n IH]; intros i Hn; simpl.
  - split; [by right|]. intros. lia.
  - case_bool_decide as HP.
    + split; [left; split; [lia|done]|]. intros. lia.
    + destruct (IH (i + 1) ltac:(lia)) as [H1 H2]. split.
      * destruct H1 as [[? ?]|?]; [left; split; [lia|done]|by right].
      * intros j Hj Hjs. destruct (decide (j = i)) as [->|]; [done|]. apply H2; lia.
Qed.

#[export] Instance scan_search_laws : BitSearchLaws.
Proof. split; intros; simpl; by apply scan_spec. Qed.

(** ** The search of bitmap.c *)

(** [__ALIGN_MASK(x, mask)]: [(x + mask) & ~mask] on [unsigned long]. *)
Definition align_mask_up (x mask : Z) : Z := Z.ldiff (u64 (x + mask)) mask.

Section search.
  Context `{BitSearch}.

(** The code between [again:] and [return]; [None] when [fuel] is too small. *)
Fixpoint find_area (fuel : nat) (map : gset Z) (size start nr align_mask : Z) : option Z :=
  match fuel with
  | O => None
  | S fuel =>
    let index := find_next_zero_bit map size start in
    let index := align_mask_up index align_mask in
    let stop := u64 (index + nr) in
    if size <? stop then Some stop
    else
      let i := find_next_bit map stop index in
      if i <? stop then find_area fuel map size (u64 (i + 1)) nr align_mask
      else Some index
  end.

Definition bitmap_find_next_zero_area (map : gset Z) (size start nr align_mask : Z) : option Z :=
  find_area (S (Z.to_nat (size - start))) map size start nr align_mask.
End search.

(** ** Sizes *)

Definition CHUNKSIZE : Z := 32.
Definition FILESIZE : Z := 10.
(** The local variables of [alloc_bitmap] and the global [bitmap_size]. *)
Definition file_size : Z := FILESIZE * 1024 * 1024 * 1024.
Definition bitmap_chunks : Z := file_size / CHUNKSIZE.
Definition bitmap_size : Z := bitmap_chunks / 8.

(** ** First fit *)

(** [r] is an aligned place for [nr] free bits below [size]. *)
Definition area_at (map : gset Z) (size nr a r : Z) : Prop :=
  r mod 2 ^ a = 0 ∧ r + nr ≤ size ∧ ∀ j, r ≤ j < r + nr → j ∉ map.

Lemma align_mask_up_spec x a :
  0 ≤ a → 0 ≤ x → x + 2 ^ a ≤ 2 ^ 64 →
  let r := align_mask_up x (2 ^ a - 1) in
  x ≤ r < x + 2 ^ a ∧ r mod 2 ^ a = 0 ∧ ∀ y, x ≤ y → y mod 2 ^ a = 0 → r ≤ y.
Proof.
  intros Ha Hx Hm. cbv zeta. unfold align_mask_up.
  assert (0 < 2 ^ a) as Hp by (by apply Z.pow_pos_nonneg).
  rewrite u64_small by lia. rewrite Z.sub_1_r, <- Z.ones_equiv, Z.ldiff_ones_r by done.
  rewrite Z.shiftl_mul_pow2, Z.shiftr_div_pow2 by done. rewrite Z.ones_equiv.
  set (q := 2 ^ a) in *.
  pose proof (Z.div_mod (x + Z.pred q) q ltac:(lia)) as E.
  pose proof (Z.mod_pos_bound (x + Z.pred q) q Hp).
  split; [lia|]. split; [by apply Z_mod_mult|].
  intros y Hy Hym. apply Z.div_exact in Hym; [|lia]. rewrite Hym.
  assert ((x + Z.pred q) / q ≤ y / q) by nia.
  nia.
Qed.

Section first_fit.
  Context `{BitSearch} `{!BitSearchLaws}.
  Context (map : gset Z) (size nr a : Z).
  Context (Ha : 0 ≤ a) (Hnr : 1 ≤ nr) (Hsize : 0 ≤ size) (Hw : size + nr + 2 ^ a < 2 ^ 64).

(** An area from [start] on cannot begin before the first free, aligned bit,
    nor at or before a set bit that lies less than [nr] after it. *)
Lemma area_after_index start r :
  0 ≤ start → start ≤ r → area_at map size nr a r →
  align_mask_up (find_next_zero_bit map size start) (2 ^ a - 1) ≤ r.
Proof.
  intros Hs Hr (Hal&Hle&Hfree).
  destruct (find_next_zero_bit_spec map size start Hs) as [Hi Hbefore].
  set (i := find_next_zero_bit map size start) in *.
  assert (i ≤ r) as Hir.
  { destruct (Z.le_gt_cases i r); [done|]. exfalso.
    apply (Hbefore r); [lia|lia|]. apply Hfree. lia. }
  apply align_mask_up_spec; [done|destruct Hi as [[? _]|?]; lia
    |destruct Hi as [[? _]|?]; lia|done|done].
Qed.

Lemma find_area_spec fuel start :
  0 ≤ start ≤ size → size - start < Z.of_nat fuel →
  ∃ r, find_area fuel map size start nr (2 ^ a - 1) = Some r ∧
    ((start ≤ r ∧ area_at map size nr a r ∧
      ∀ r', start ≤ r' → area_at map size nr a r' → r ≤ r') ∨
     (size < r < size + nr + 2 ^ a ∧ ∀ r', start ≤ r' → ¬ area_at map size nr a r')).
Proof.
  revert start. induction fuel as [|fuel IH]; intros start Hs Hf.
  { lia. }
  cbn [find_area]. set (i0 := find_next_zero_bit map size start).
  pose proof (find_next_zero_bit_spec map size start ltac:(lia)) as [Hi0 _]. fold i0 in Hi0.
  assert (0 ≤ i0 ≤ size ∧ (start ≤ i0 ∨ i0 = size)) as [Hi1 Hi2]
    by (destruct Hi0 as [[? _]|?]; lia).
  destruct (align_mask_up_spec i0 a Ha ltac:(lia) ltac:(lia)) as (Hx&Hal&_).
  pose proof (area_after_index start) as Hafter. fold i0 in Hafter.
  set (index := align_mask_up i0 (2 ^ a - 1)) in *.
  rewrite (u64_small (index + nr)) by lia.
  destruct (Z.ltb_spec size (index + nr)).
  { exists (index + nr). split; [done|]. right. split; [lia|].
    intros r' Hr' Har. specialize (Hafter r' ltac:(lia) Hr' Har). destruct Har as (_&?&_). lia. }
  destruct (find_next_bit_spec map (index + nr) index ltac:(lia)) as [Hb Hbefore].
  set (b := find_next_bit map (index + nr) index) in *.
  assert (index ≤ b ≤ index + nr) by (destruct Hb as [[? _]|?]; lia).
  destruct (Z.ltb_spec b (index + nr)).
  - rewrite u64_small by lia.
    assert (∀ r', start ≤ r' → area_at map size nr a r' → b + 1 ≤ r') as Hskip.
    { intros r' Hr' Har. specialize (Hafter r' ltac:(lia) Hr' Har).
      destruct (Z.le_gt_cases (b + 1) r'); [done|]. exfalso.
      destruct Har as (_&_&Hfree). apply (Hfree b); [lia|]. destruct Hb as [[_ ?]|?]; [done|lia]. }
    destruct (IH (b + 1)) as (r&E&Hr); [lia|lia|]. exists r. split; [exact E|].
    destruct Hr as [(Hr&Har&Hmin)|(Hr&Hno)]; [left|right].
    + split; [lia|]. split; [done|]. intros r' Hr' Har'. apply Hmin; [|done]. by apply Hskip.
    + split; [done|]. intros r' Hr' Har'. apply (Hno r'); [|done]. by apply Hskip.
  - exists index. split; [done|]. left. split; [lia|]. split.
    + split; [done|]. split; [lia|]. intros j Hj. apply Hbefore; lia.
    + intros r' Hr' Har'. apply Hafter; [lia|done|done].
Qed.

(** When every set bit lies before [start], the area is at [start]. *)
Lemma find_fresh start :
  a = 0 → 0 ≤ start ≤ size → (∀ i, i ∈ map → i < start) →
  ∃ r, bitmap_find_next_zero_area map size start nr 0 = Some r ∧
    ((start + nr ≤ size ∧ r = start) ∨ (size < start + nr ∧ size < r < size + nr + 1)).
Proof.
  intros Ha0 Hs Hb. unfold bitmap_find_next_zero_area.
  assert (E1 : 2 ^ a = 1) by (by rewrite Ha0).
  destruct (find_area_spec (S (Z.to_nat (size - start))) start) as (r&E&Hr); [lia|lia|].
  exists r. split; [by rewrite E1 in E|].
  assert (Hat : start + nr ≤ size → area_at map size nr a start).
  { intros. split; [rewrite E1; apply Z.mod_1_r|]. split; [done|]. intros j Hj Hm. apply Hb in Hm. lia. }
  destruct Hr as [(Hr&(_&Hle&_)&Hmin)|(Hr&Hno)].
  - left. split; [lia|]. specialize (Hmin start). assert (r ≤ start); [|lia].
    apply Hmin, Hat; lia.
  - right. split; [|lia]. destruct (Z.le_gt_cases (start + nr) size) as [Hle|]; [|done].
    by destruct (Hno start (Z.le_refl _) (Hat Hle)).
Qed.
End first_fit.

(** C15. [bitmap_find_next_zero_area] terminates (the fuel is never exhausted)
    and is first fit: it returns the lowest aligned position from [start] on
    with [nr] free bits below [size], or a value above [size] exactly when
    there is none. *)
Theorem bitmap_find_next_zero_area_first_fit `{BitSearch} `{!BitSearchLaws} map size start nr a :
  0 ≤ a → 1 ≤ nr → 0 ≤ start ≤ size → size + nr + 2 ^ a < 2 ^ 64 →
  ∃ r, bitmap_find_next_zero_area map size start nr (2 ^ a - 1) = Some r ∧
    (r ≤ size → start ≤ r ∧ area_at map size nr a r ∧
       ∀ r', start ≤ r' → area_at map size nr a r' → r ≤ r') ∧
    (size < r ↔ ∀ r', start ≤ r' → ¬ area_at map size nr a r').
Proof.
  intros Ha Hnr Hs Hw. unfold bitmap_find_next_zero_area.
  destruct (find_area_spec map size nr a Ha Hnr ltac:(lia) Hw (S (Z.to_nat (size - start))) start)
    as (r&E&Hr); [lia|lia|].
  exists r. split; [done|]. destruct Hr as [(H1&H2&H3)|(H1&H2)].
  - split; [done|]. split; [destruct H2 as (_&?&_); lia|]. intros Hno. by destruct (Hno r).
  - split; [lia|]. split; [done|lia].
Qed.
Lemma bitmap_find_next_zero_area_first_fit_witness :
  ∃ r, bitmap_find_next_zero_area {[ 0; 1; 5 ]} 16 0 3 (2 ^ 0 - 1) = Some r ∧
    (r ≤ 16 → 0 ≤ r ∧ area_at {[ 0; 1; 5 ]} 16 3 0 r ∧
       ∀ r', 0 ≤ r' → area_at {[ 0; 1; 5 ]} 16 3 0 r' → r ≤ r') ∧
    (16 < r ↔ ∀ r', 0 ≤ r' → ¬ area_at {[ 0; 1; 5 ]} 16 3 0 r').
Proof. apply (bitmap_find_next_zero_area_first_fit {[ 0; 1; 5 ]} 16 0 3 0); done || lia. Defined.
Example find_area_example : bitmap_find_next_zero_area {[ 0; 1; 5 ]} 16 0 3 0 = Some 2.
Proof. reflexivity. Qed.
