(* ===== verification/Store.v ===== *)
(** The data of the chunk store (model/kernel_hash/hash_table.h, the globals of
    hash_table.c, bitmap.c and alloc_file.c) and what it takes from the kernel:
    the allocator and the files. *)
From S2P Require Import Prelude JenHash Rabin Bitmap.
#[local] Open Scope Z_scope.

(** ** What belongs to the kernel *)

(** Files: [vfs_write f buf pos] and [kernel_read f pos count] return what the
    kernel's functions return, with the new file or the bytes read. *)
Class VFS : Type := {
  file : Type;
  vfs_write : file → list Z → Z → Z * file;
  kernel_read : file → Z → Z → Z * list Z }.

(** The contents [fview] of a regular file. A write that does not fail writes
    the whole buffer, one that fails returns an error number; a read that does not fail and lies within the file reads
    all it asks for. *)
Class VFSLaws `{VFS} : Type := {
  fview : file → list Z;
  vfs_write_errno f buf pos : - 4095 ≤ fst (vfs_write f buf pos) ≤ Z.of_nat (length buf);
  vfs_write_spec f buf pos :
    0 ≤ pos → 0 ≤ fst (vfs_write f buf pos) →
    fview (snd (vfs_write f buf pos)) = write_at (Z.to_nat pos) buf (fview f);
  kernel_read_spec f pos count :
    0 ≤ pos → 0 ≤ count → pos + count ≤ Z.of_nat (length (fview f)) →
    0 ≤ fst (kernel_read f pos count) →
    snd (kernel_read f pos count) = slice (Z.to_nat pos) (Z.to_nat count) (fview f) }.

(** The global variables that are set once when the module is loaded;
    [hash_max_count] depends on [sizeof(struct hashinfo_item)]. *)
Class StoreParams : Type := {
  hash_max_count : Z;
  bitmap_size : Z;
  num_online_cpus : Z }.

Class StoreParamsLaws `{StoreParams} : Prop := {
  hash_max_count_range : 0 ≤ hash_max_count < 2 ^ 31 - 1;
  bitmap_size_range : 0 ≤ bitmap_size < 2 ^ 30;
  num_online_cpus_pos : 0 < num_online_cpus }.

(** ** Constants of hash_table.c *)

Definition ITEM_CITE_ADD : Z := 6.
Definition ITEM_CITE_FIND : Z := 6.
Definition ITEM_DISK_LIMIT : Z := 6.
Definition ITEM_VIP_LIMIT : Z := 12.

(** ** Items *)

(** [struct hashinfo_item]; its [c_list] is the order of the addresses in the
    bucket, its [data_lock] guards two steps that are atomic here. *)
Record hashinfo_item := Item {
  refcnt : Z;
  share_ref : Z;
  len : Z;
  sha1 : list Z;
  data : mem;
  mem_style : Z;
  cpuid : Z;
  start : Z;
  flag_cache : Z;
  flag_mem : Z;
  store_flag : Z }.

#[export] Instance hashinfo_item_eq_dec : EqDecision hashinfo_item.
Proof. solve_decision. Defined.

Definition set_refcnt (v : Z) (i : hashinfo_item) : hashinfo_item :=
  Item v (share_ref i) (len i) (sha1 i) (data i) (mem_style i) (cpuid i) (start i)
    (flag_cache i) (flag_mem i) (store_flag i).
Definition set_share_ref (v : Z) (i : hashinfo_item) : hashinfo_item :=
  Item (refcnt i) v (len i) (sha1 i) (data i) (mem_style i) (cpuid i) (start i)
    (flag_cache i) (flag_mem i) (store_flag i).
Definition set_data (d : mem) (i : hashinfo_item) : hashinfo_item :=
  Item (refcnt i) (share_ref i) (len i) (sha1 i) d (mem_style i) (cpuid i) (start i)
    (flag_cache i) (flag_mem i) (store_flag i).
Definition set_mem_style (v : Z) (i : hashinfo_item) : hashinfo_item :=
  Item (refcnt i) (share_ref i) (len i) (sha1 i) (data i) v (cpuid i) (start i)
    (flag_cache i) (flag_mem i) (store_flag i).
Definition set_cpuid (v : Z) (i : hashinfo_item) : hashinfo_item :=
  Item (refcnt i) (share_ref i) (len i) (sha1 i) (data i) (mem_style i) v (start i)
    (flag_cache i) (flag_mem i) (store_flag i).
Definition set_start (v : Z) (i : hashinfo_item) : hashinfo_item :=
  Item (refcnt i) (share_ref i) (len i) (sha1 i) (data i) (mem_style i) (cpuid i) v
    (flag_cache i) (flag_mem i) (store_flag i).
Definition set_flag_cache (v : Z) (i : hashinfo_item) : hashinfo_item :=
  Item (refcnt i) (share_ref i) (len i) (sha1 i) (data i) (mem_style i) (cpuid i) (start i)
    v (flag_mem i) (store_flag i).
Definition set_flag_mem (v : Z) (i : hashinfo_item) : hashinfo_item :=
  Item (refcnt i) (share_ref i) (len i) (sha1 i) (data i) (mem_style i) (cpuid i) (start i)
    (flag_cache i) v (store_flag i).
Definition set_store_flag (v : Z) (i : hashinfo_item) : hashinfo_item :=
  Item (refcnt i) (share_ref i) (len i) (sha1 i) (data i) (mem_style i) (cpuid i) (start i)
    (flag_cache i) (flag_mem i) v.

(** ** The store *)

(** The statistics: [atomic64_t] and [percpu_counter] variables. *)
Inductive counter :=
| mm0 | mm1 | mm2 | mm3
| devote0 | devote1 | devote2 | devote3 | devote4
| mmw | mmd | mmm | mmf
| sum_num | save_num | skb_num | rdl | rdf.

#[export] Instance counter_eq_dec : EqDecision counter.
Proof. solve_decision. Defined.

(** The same counters, each computed once. *)
Definition tabulate (f : counter → Z) : counter → Z :=
  let v0 := f mm0 in let v1 := f mm1 in let v2 := f mm2 in let v3 := f mm3 in
  let d0 := f devote0 in let d1 := f devote1 in let d2 := f devote2 in
  let d3 := f devote3 in let d4 := f devote4 in
  let w := f mmw in let d := f mmd in let m := f mmm in let fr := f mmf in
  let su := f sum_num in let sa := f save_num in let sk := f skb_num in
  let rl := f rdl in let rf := f rdf in
  λ k, match k with
       | mm0 => v0 | mm1 => v1 | mm2 => v2 | mm3 => v3
       | devote0 => d0 | devote1 => d1 | devote2 => d2 | devote3 => d3 | devote4 => d4
       | mmw => w | mmd => d | mmm => m | mmf => fr
       | sum_num => su | save_num => sa | skb_num => sk | rdl => rl | rdf => rf
       end.
Lemma tabulate_eq f k : tabulate f k = f k.
Proof. by destruct k. Qed.

(** The per-CPU variables [bitmap], [bitmap_index], [loff_file], [reserve_file]. *)
Record percpu `{VFS} := PerCpu {
  bitmap : gset Z;
  bitmap_index : Z;
  loff_file : Z;
  reserve_file : file }.

(** [items] is the heap of live items, [hash_tab] the addresses in each bucket
    from the head, [works] the buckets whose work item is pending. *)
Record store `{VFS} := Store {
  items : gmap Z hashinfo_item;
  next_addr : Z;
  nalloc : nat;
  hash_tab : gmap Z (list Z);
  hash_count : Z;
  ctr : counter → Z;
  cpus : gmap Z percpu;
  works : gset Z }.

Section store.
  Context `{VFS}.

Definition set_items (m : gmap Z hashinfo_item) (s : store) : store :=
  Store _ m (next_addr s) (nalloc s) (hash_tab s) (hash_count s) (ctr s) (cpus s) (works s).
Definition set_next_addr (v : Z) (s : store) : store :=
  Store _ (items s) v (nalloc s) (hash_tab s) (hash_count s) (ctr s) (cpus s) (works s).
Definition count_alloc (s : store) : store :=
  Store _ (items s) (next_addr s) (S (nalloc s)) (hash_tab s) (hash_count s) (ctr s) (cpus s) (works s).
Definition set_hash_tab (t : gmap Z (list Z)) (s : store) : store :=
  Store _ (items s) (next_addr s) (nalloc s) t (hash_count s) (ctr s) (cpus s) (works s).
Definition set_hash_count (v : Z) (s : store) : store :=
  Store _ (items s) (next_addr s) (nalloc s) (hash_tab s) v (ctr s) (cpus s) (works s).
Definition set_cpus (m : gmap Z percpu) (s : store) : store :=
  Store _ (items s) (next_addr s) (nalloc s) (hash_tab s) (hash_count s) (ctr s) m (works s).
Definition set_works (w : gset Z) (s : store) : store :=
  Store _ (items s) (next_addr s) (nalloc s) (hash_tab s) (hash_count s) (ctr s) (cpus s) w.

(** [atomic64_add], [atomic64_sub], [percpu_counter_add]. *)
Definition ctr_add (k : counter) (d : Z) (s : store) : store :=
  Store _ (items s) (next_addr s) (nalloc s) (hash_tab s) (hash_count s)
    (tabulate (λ k', if decide (k' = k) then s64 (ctr s k + d) else ctr s k')) (cpus s) (works s).

Lemma ctr_ctr_add k d s k' :
  ctr (ctr_add k d s) k' = if decide (k' = k) then s64 (ctr s k + d) else ctr s k'.
Proof. apply tabulate_eq. Qed.

Definition get_item (s : store) (a : Z) : outcome hashinfo_item := deref (items s !! a).
Definition put_item (a : Z) (i : hashinfo_item) (s : store) : store :=
  set_items (<[a := i]> (items s)) s.
Definition bucket (s : store) (b : Z) : list Z := default [] (hash_tab s !! b).
Definition percpu_of (s : store) (c : Z) : outcome percpu := deref (cpus s !! c).
End store.

(** A file system of byte lists that satisfies the interface: a write past
    [limit] fails. *)
#[export] Instance list_vfs : VFS := {|
  file := list Z;
  vfs_write f buf pos :=
    if pos + Z.of_nat (length buf) <=? 2 ^ 40
    then (Z.of_nat (length buf), write_at (Z.to_nat pos) buf f) else (-28, f);
  kernel_read f pos count :=
    let bs := slice (Z.to_nat pos) (Z.to_nat count) f in (Z.of_nat (length bs), bs) |}.

#[export] Instance list_vfs_laws : VFSLaws.
Proof.
  refine {| fview f := f |}; [| |done]; simpl; intros f buf pos.
  - destruct (_ <=? _); simpl; lia.
  - intros Hp. destruct (_ <=? _); simpl; [done|lia].
Defined.
