(* ===== verification/HashTable.v ===== *)
(** The operations of model/kernel_hash/hash_table.c: the hash table of chunks,
    their memory, the aging of a bucket and the writing of cold chunks to disk. *)
From S2P Require Import Prelude JenHash Rabin Bitmap Store.
#[local] Open Scope Z_scope.

Section hash_table.
  Context `{Allocator} `{VFS} `{StoreParams} `{BitSearch}.
  Implicit Types s : store.

(** ** Memory and lists *)

(** [kmem_cache_zalloc] of an object of [size] bytes, [kmalloc(size)]. *)
Definition zalloc (size : nat) (s : store) : option (list Z) * store :=
  (if alloc_ok (nalloc s) then Some (replicate size 0) else None, count_alloc s).
Definition kmalloc (size : nat) (s : store) : option (list Z) * store :=
  (if alloc_ok (nalloc s) then Some (junk (nalloc s) size) else None, count_alloc s).

(** [list_add(&cp->c_list, &hash_tab[b])] and [list_del(&cp->c_list)]. *)
Definition list_add (b a : Z) (s : store) : store :=
  set_hash_tab (<[b := a :: bucket s b]> (hash_tab s)) s.
Definition list_del (b a : Z) (s : store) : store :=
  set_hash_tab (<[b := filter (.≠ a) (bucket s b)]> (hash_tab s)) s.

Definition _hash (b a : Z) (s : store) : store := list_add b a s.
Definition _unhash (b a : Z) (s : store) : store := list_del b a s.

(** ** Memory of the chunks *)

(** What the branches of [alloc_data_memory] share: the allocated block becomes
    [cp->data], [style] its [mem_style], and [n] bytes are counted in [k]. *)
Definition place_data (a : Z) (r : option (list Z) * store) (style : Z) (k : counter) (n : Z)
    : outcome store :=
  let '(block, s) := r in
  match block with
  | None => Bug
  | Some b =>
    cp ← get_item s a;
    Done (ctr_add k n (put_item a (set_mem_style style (set_data (Live b) cp)) s))
  end.

Definition alloc_data_memory (s : store) (a : Z) (length : Z) : outcome store :=
  cp ← get_item s a;
  if 0 <=? mem_style cp then Done s
  else if length <=? CHUNKSTEP then
    place_data a (zalloc (Z.to_nat CHUNKSTEP) s) 1 mm1 length
  else if length <=? CHUNKSTEP * 2 then
    place_data a (zalloc (Z.to_nat (CHUNKSTEP * 2)) s) 2 mm2 length
  else if length <=? CHUNKSTEP * 3 then
    place_data a (zalloc (Z.to_nat (CHUNKSTEP * 3)) s) 3 mm3 length
  else place_data a (kmalloc (Z.to_nat (u64 (len cp))) s) 0 mm0 (len cp).

(** What the branches of [free_data_memory] share. *)
Definition drop_data (a : Z) (cp : hashinfo_item) (k : counter) (s : store) : store :=
  ctr_add k (- len cp) (put_item a (set_mem_style (-1) (set_data Freed cp)) s).

Definition free_data_memory (s : store) (a : Z) : outcome store :=
  cp ← get_item s a;
  if mem_style cp =? 0 then Done (drop_data a cp mm0 s)
  else if mem_style cp =? 1 then Done (drop_data a cp mm1 s)
  else if mem_style cp =? 2 then Done (drop_data a cp mm2 s)
  else if mem_style cp =? 3 then Done (drop_data a cp mm3 s)
  else Bug.

(** ** Insertion and lookup *)

(** The bucket of a digest: [bkt] of [HASH_FCN]. *)
Definition bkt_of (info : list Z) : Z := snd (HASH_FCN info).

(** A fresh item as [kmem_cache_zalloc] and the four assignments before
    [alloc_data_memory] leave it. *)
Definition item0 (len_value : Z) : hashinfo_item :=
  Item 0 0 (s32 len_value) (replicate (Z.to_nat SHA1SIZE) 0) Null (-1) 0 0 0 0 0.

(** [memcpy(cp->data, src, n)]. *)
Definition copy_data (s : store) (a : Z) (src : list Z) : outcome store :=
  cp ← get_item s a;
  d ← memcpy (data cp) src;
  Done (put_item a (set_data d cp) s).

Definition hash_new_item (s : store) (info value : list Z) (len_value : Z)
    : outcome (store * option Z) :=
  let hash_count_now := hash_count s in
  if hash_max_count <? u64 hash_count_now then Done (s, None)
  else if alloc_ok (nalloc s) then
    let cp := next_addr s in
    let s := put_item cp (item0 len_value) (set_next_addr (cp + 1) (count_alloc s)) in
    s ← alloc_data_memory s cp (u64 (s32 len_value));
    src ← read_bytes value (Z.to_nat (u64 (s32 len_value)));
    s ← copy_data s cp src;
    it ← get_item s cp;
    sha ← read_bytes info (Z.to_nat SHA1SIZE);
    let it := Item ITEM_CITE_ADD 1 (len it) sha (data it) (mem_style it) (-1) (start it)
                (flag_cache it) (flag_mem it) 0 in
    let s := set_hash_count (atomic_inc (hash_count s)) (put_item cp it s) in
    Done (_hash (bkt_of sha) cp s, Some cp)
  else Done (count_alloc s, None).

Definition add_hash_info (s : store) (info value : list Z) (len_value : Z)
    : outcome (store * Z) :=
  '(s, cp) ← hash_new_item s info value len_value;
  Done (s, match cp with None => -1 | Some _ => 0 end).

(** The loop of [get_hash_item]: the first item of the list with the digest. *)
Fixpoint find_item (s : store) (info : list Z) (l : list Z) : outcome (option Z) :=
  match l with
  | [] => Done None
  | a :: l =>
    cp ← get_item s a;
    if decide (take (Z.to_nat SHA1SIZE) (sha1 cp) = take (Z.to_nat SHA1SIZE) info)
    then Done (Some a) else find_item s info l
  end.

(** The statistics of a hit, by the state of the item. *)
Definition devote (flag : Z) (n : Z) (s : store) : store :=
  if flag =? 0 then ctr_add devote0 n s
  else if flag =? 1 then ctr_add devote1 n s
  else if flag =? 2 then ctr_add devote2 n s
  else if flag =? 3 then ctr_add devote3 n s
  else if flag =? 4 then ctr_add devote4 n s
  else s.

(** What a hit does to the item. *)
Definition hit (cp : hashinfo_item) : hashinfo_item :=
  let cp := set_refcnt (atomic_add ITEM_CITE_FIND (refcnt cp)) cp in
  let cp := set_share_ref (atomic_inc (share_ref cp)) cp in
  if flag_cache cp =? 1 then set_flag_cache 4 cp else cp.

Definition get_hash_item (s : store) (info : list Z) : outcome (store * option Z) :=
  a ← find_item s info (bucket s (bkt_of info));
  match a with
  | None => Done (s, None)
  | Some a =>
    cp ← get_item s a;
    Done (put_item a (hit cp) (devote (flag_cache cp) (len cp) s), Some a)
  end.

(** ** Deletion *)

Definition hash_del_item (s : store) (a : Z) : outcome store :=
  cp ← get_item s a;
  let cp := set_refcnt (atomic_inc (refcnt cp)) cp in
  let s := put_item a cp s in
  s ← (if refcnt cp =? 2 then
         let bkt := bkt_of (sha1 cp) in
         let s := _unhash bkt a s in
         cp ← get_item s a;
         if refcnt cp =? 1 then
           let s := set_hash_count (atomic_dec (hash_count s)) s in
           s ← free_data_memory s a;
           Done (inl (set_items (delete a (items s)) s))
         else Done (inr (_hash bkt a s))
       else Done (inr s));
  match s with
  | inl s => Done s
  | inr s =>
    cp ← get_item s a;
    Done (put_item a (set_refcnt (atomic_dec (refcnt cp)) cp) s)
  end.

Definition hash_item_expire (s : store) (a : Z) : outcome store :=
  cp ← get_item s a;
  if refcnt cp =? 1 then hash_del_item s a
  else Done (put_item a (set_refcnt (atomic_dec (refcnt cp)) cp) s).

(** The condition under which a flush or an expiry has data to free. *)
Definition has_data (flag : Z) : bool :=
  (flag =? 0) || (flag =? 2) || (flag =? 3) || (flag =? 4).

(** The lines of [hash_flush] and [bucket_clear_item] that take an item out of
    the table and free its data. *)
Definition evict (b : Z) (s : store) (a : Z) : outcome store :=
  let s := set_hash_count (atomic_dec (hash_count s)) (list_del b a s) in
  cp ← get_item s a;
  if has_data (flag_cache cp) then
    s ← free_data_memory s a;
    Done (ctr_add mmf (len cp) s)
  else Done s.

(** [kmem_cache_free(hash_cachep, cp)]. *)
Definition free_item (a : Z) (s : store) : store := set_items (delete a (items s)) s.

Definition flush_body (b : Z) (s : store) (a : Z) : outcome store :=
  s ← evict b s a; Done (free_item a s).

Definition flush_bucket (s : store) (b : Z) : outcome store :=
  ofold (flush_body b) s (bucket s b).

Definition hash_flush (s : store) : outcome store :=
  ofold flush_bucket s (seqZ 0 hash_tab_size).
End hash_table.
