(* ===== verification/Aging.v ===== *)
(** The life of a chunk in model/kernel_hash/hash_table.c: the timer
    [bucket_clear_item] that ages, promotes and expires the chunks of a bucket,
    and the work [wr_file] that moves the cold ones to the CPU's file. *)
From S2P Require Import Prelude JenHash Rabin Bitmap Store HashTable.
#[local] Open Scope Z_scope.

Section aging.
  Context `{Allocator} `{VFS} `{StoreParams} `{BitSearch}.
  Implicit Types s : store.

(** ** Disk units *)

(** The units of [CHUNKSTEP] bytes a chunk of [len] bytes takes on disk. *)
Definition disk_units (len : Z) : Z :=
  if len <=? CHUNKSTEP then 1 else Z.quot (s32 (len + CHUNKSTEP - 1)) CHUNKSTEP.

(** [set_bit] and [clear_bit] on a bitmap of [bitmap_size] bytes. *)
Definition set_bit (m : gset Z) (i : Z) : outcome (gset Z) :=
  if decide (0 ≤ i < 8 * bitmap_size) then Done ({[ i ]} ∪ m) else Oops.
Definition clear_bit (m : gset Z) (i : Z) : outcome (gset Z) :=
  if decide (0 ≤ i < 8 * bitmap_size) then Done (m ∖ {[ i ]}) else Oops.

Definition put_percpu (c : Z) (pc : percpu) (s : store) : store :=
  set_cpus (<[c := pc]> (cpus s)) s.

(** The bits of an item in the bitmap of its CPU are cleared. *)
Definition clear_bits (s : store) (cp : hashinfo_item) : outcome store :=
  pc ← percpu_of s (cpuid cp);
  m ← ofold clear_bit (bitmap pc) (seqZ (start cp) (disk_units (len cp)));
  Done (put_percpu (cpuid cp) (PerCpu _ m (bitmap_index pc) (loff_file pc) (reserve_file pc)) s).

(** ** [bucket_clear_item] *)

(** Whether the data of an evicted item has a place on disk. *)
Definition has_place (cp : hashinfo_item) : bool :=
  (flag_cache cp =? 1) || ((flag_cache cp =? 2) && (0 <=? cpuid cp)) || (flag_cache cp =? 4).

(** The branch of an item nobody refers to any more. *)
Definition expire_item (b : Z) (s : store) (a : Z) : outcome store :=
  s ← evict b s a;
  cp ← get_item s a;
  s ← (if has_place cp then clear_bits s cp else Done s);
  let s := if store_flag cp =? 1 then ctr_add mmd (len cp) s else s in
  Done (free_item a s).

(** The three transitions of the "status machine", in order. *)
Definition to_vip (cp : hashinfo_item) (s : store) : hashinfo_item * store :=
  if (ITEM_VIP_LIMIT <=? refcnt cp) && (flag_cache cp =? 0)
  then (set_flag_cache 3 cp, ctr_add mmm (len cp) s) else (cp, s).
Definition to_disk_candidate (cp : hashinfo_item) : hashinfo_item :=
  if (refcnt cp <? ITEM_VIP_LIMIT) && (ITEM_DISK_LIMIT <=? refcnt cp) && (flag_cache cp =? 0)
  then set_flag_cache 2 cp else cp.
Definition back_to_vip (cp : hashinfo_item) (s : store) : hashinfo_item * store :=
  if (ITEM_VIP_LIMIT <=? refcnt cp) && (flag_cache cp =? 2) && (cpuid cp <? 0)
  then (set_flag_cache 3 cp, ctr_add mmm (len cp) s) else (cp, s).

Definition wants_disk (cp : hashinfo_item) : bool :=
  (ITEM_DISK_LIMIT <=? refcnt cp) && (refcnt cp <? ITEM_VIP_LIMIT).

(** The branch of the other items; the returned boolean is the new [flag]. *)
Definition age_item (s : store) (a : Z) (flag : bool) : outcome (store * bool) :=
  cp ← get_item s a;
  let cp := set_refcnt (atomic_dec (refcnt cp)) cp in
  let '(cp, s) := to_vip cp s in
  let cp := to_disk_candidate cp in
  let '(cp, s) := back_to_vip cp s in
  let flag := flag || wants_disk cp in
  let cp := if (ITEM_DISK_LIMIT <? refcnt cp) && (store_flag cp =? 0)
            then set_store_flag 1 cp else cp in
  Done (put_item a cp s, flag).

Definition clear_body (b : Z) (sf : store * bool) (a : Z) : outcome (store * bool) :=
  let '(s, flag) := sf in
  cp ← get_item s a;
  if (share_ref cp =? 1) && (refcnt cp <=? 1) then
    s ← expire_item b s a; Done (s, flag)
  else age_item s a flag.

Definition bucket_clear_item (s : store) (b : Z) : outcome store :=
  sf ← ofold (clear_body b) (s, false) (bucket s b);
  let '(s, flag) := (sf : store * bool) in
  if flag then Done (set_works ({[ b ]} ∪ works s) s) else Done s.

(** ** [wr_file] *)

(** The condition of the first pass. *)
Definition wr_pick (cp : hashinfo_item) : bool :=
  (refcnt cp <? ITEM_VIP_LIMIT) && (ITEM_DISK_LIMIT <=? refcnt cp)
  && (flag_cache cp =? 2) && (cpuid cp =? -1) && (share_ref cp =? 1).

(** First pass: mark the items to write and sum their sizes. *)
Definition mark_body (sz : store * Z) (a : Z) : outcome (store * Z) :=
  let '(s, all_size) := sz in
  cp ← get_item s a;
  if wr_pick cp then
    let cp := if store_flag cp =? 1 then set_store_flag 2 cp else cp in
    let all_size := u64 (all_size + u64 (disk_units (len cp) * CHUNKSTEP)) in
    Done (put_item a (set_cpuid (-2) cp) s, all_size)
  else Done (s, all_size).

Definition wr_mark (s : store) (data : Z) : outcome (store * Z) :=
  ofold mark_body (s, 0) (bucket s data).

(** A store into the copy buffer. *)
Definition buf_write (buf : list Z) (pos : Z) (bs : list Z) : outcome (list Z) :=
  if decide (pos + Z.of_nat (length bs) ≤ Z.of_nat (length buf))
  then Done (write_at (Z.to_nat pos) bs buf) else Oops.

Definition mem_bytes (d : mem) : outcome (list Z) :=
  match d with Live b => Done b | _ => Oops end.

(** [copy_mem], [mem_index] and [st_all_size]. *)
Record copying := Copying { copy_mem : list Z; mem_index : Z; st_all_size : Z }.

(** Place and bits for an item in the bitmap of [cpu]. *)
Definition take_place (s : store) (cpu : Z) (num : Z) : outcome (store * Z) :=
  pc ← percpu_of s cpu;
  r ← deref (bitmap_find_next_zero_area (bitmap pc) bitmap_size (bitmap_index pc) (u32 num) 0);
  let find_index := s32 r in
  if bitmap_size <? u64 find_index then Bug
  else
    m ← ofold set_bit (bitmap pc) (seqZ (u64 find_index) num);
    Done (put_percpu cpu (PerCpu _ m (u64 (bitmap_index pc + u64 num)) (loff_file pc)
                            (reserve_file pc)) s, u64 find_index).

(** Second pass: give each marked item its place and copy its data. *)
Definition copy_body (cpu : Z) (sc : store * copying) (a : Z) : outcome (store * copying) :=
  let '(s, c) := sc in
  cp ← get_item s a;
  if (cpuid cp =? -2) && (flag_cache cp =? 2) && (1 <? share_ref cp) then
    Done (put_item a (set_cpuid (-1) cp) s, c)
  else if (refcnt cp <? ITEM_VIP_LIMIT) && (ITEM_DISK_LIMIT <=? refcnt cp)
          && (cpuid cp =? -2) && (flag_cache cp =? 2) && (share_ref cp =? 1) then
    let num := disk_units (len cp) in
    '(s, find_index) ← take_place s cpu num;
    let s := put_item a (set_cpuid cpu (set_start find_index cp)) s in
    bytes ← mem_bytes (data cp);
    src ← read_bytes bytes (Z.to_nat (u64 (len cp)));
    buf ← buf_write (copy_mem c) (mem_index c) src;
    Done (s, Copying buf (u64 (mem_index c + u64 (num * CHUNKSTEP)))
                (u64 (st_all_size c + u64 (len cp))))
  else Done (s, c).

Definition wr_copy (s : store) (cpu data all_size : Z) : outcome (store * copying) :=
  let '(block, s) := zalloc (Z.to_nat all_size) s in
  match block with
  | None => Bug
  | Some buf => ofold (copy_body cpu) (s, Copying buf 0 0) (bucket s data)
  end.

(** [kernel_write] of file.c, which calls [vfs_write] on [count] bytes of [buf]. *)
Definition kernel_write (f : file) (buf : list Z) (count pos : Z) : Z * file :=
  vfs_write f (take (Z.to_nat count) buf) pos.

(** The write of the copy buffer and its accounting. *)
Definition wr_write (s : store) (cpu : Z) (buf : list Z) (all_size st_all_size : Z)
    : outcome store :=
  pc ← percpu_of s cpu;
  let '(ret, f) := kernel_write (reserve_file pc) buf all_size (loff_file pc) in
  if s32 ret <? 0 then Bug
  else Done (ctr_add mmw st_all_size
         (put_percpu cpu (PerCpu _ (bitmap pc) (bitmap_index pc)
                            (s64 (loff_file pc + all_size)) f) s)).

(** Third pass: the data that has been written leaves memory. *)
Definition finish_body (s : store) (a : Z) : outcome store :=
  cp ← get_item s a;
  if (flag_cache cp =? 2) && (share_ref cp =? 1) && (0 <=? cpuid cp)
  then free_data_memory (put_item a (set_flag_cache 1 cp) s) a
  else Done s.

Definition wr_finish (s : store) (data : Z) : outcome store :=
  ofold finish_body s (bucket s data).

(** What holds the read lock: the two passes. [None] when there is nothing to write. *)
Definition wr_prepare (s : store) (cpu data : Z) : outcome (store * option (copying * Z)) :=
  '(s, all_size) ← wr_mark s data;
  if all_size =? 0 then Done (s, None)
  else '(s, c) ← wr_copy s cpu data all_size; Done (s, Some (c, all_size)).

(** The worker has cleared the pending bit of the work before it calls this. *)
Definition wr_file (s : store) (cpu data : Z) : outcome store :=
  '(s, c) ← wr_prepare s cpu data;
  match c with
  | None => Done s
  | Some (c, all_size) =>
    s ← wr_write s cpu (copy_mem c) all_size (st_all_size c);
    wr_finish s data
  end.
End aging.
