(* ===== verification/NfIn.v ===== *)
(** The receive path of model/kernel_hash/nf_in.c: what is done with each chunk
    of a packet, and the reading back of chunks from disk. *)
From S2P Require Import Prelude JenHash Rabin Partition ListSort Bitmap Store HashTable Aging.
#[local] Open Scope Z_scope.

(** The array of read lists, one per CPU: the items of its [read_skb]s from the head. *)
Abbreviation heads := (gmap Z (list Z)).

Section nf_in.
  Context `{Allocator} `{VFS} `{StoreParams}.
  Implicit Types s : store.

(** The branch of a hit that takes note of a read to do. *)
Definition request_read (s : store) (h : heads) (a : Z) (item : hashinfo_item)
    : outcome (store * heads) :=
  if alloc_ok (nalloc s) then
    let s := count_alloc s in
    if num_online_cpus <=? cpuid item then Bug
    else
      l ← deref (h !! cpuid item);
      Done (s, <[cpuid item := a :: l]> h)
  else Bug.

Definition hand_hash (s : store) (h : heads) (src : list Z) (len_ : Z) (dst : list Z)
    : outcome (store * heads) :=
  '(s, item) ← get_hash_item s dst;
  match item with
  | None =>
    '(s, ret) ← add_hash_info s dst src len_;
    Done (ctr_add sum_num len_ s, h)
  | Some a =>
    let s := ctr_add sum_num len_ s in
    let s := ctr_add save_num (len_ - (SHALEN + 2)) s in
    item ← get_item s a;
    if negb (flag_cache item =? 4) then
      Done (put_item a (set_share_ref (atomic_dec (share_ref item)) item) s, h)
    else request_read s h a item
  end.

(** The temporary buffer: the stack for up to 512 bytes, else the heap; the
    result of [kzalloc] is not tested. *)
Definition read_buffer (s : store) (len : Z) : mem * store :=
  if 512 <? len then
    let '(b, s) := zalloc (Z.to_nat len) s in
    (match b with Some b => Live b | None => Null end, s)
  else (Live (replicate 512 0), s).

(** The part of the loop of [read_data] under [flag_mem == 0]. *)
Definition fetch_item (s : store) (cpu a : Z) : outcome store :=
  item ← get_item s a;
  s ← alloc_data_memory s a (u64 (len item));
  let '(tmp, s) := read_buffer s (len item) in
  pc ← percpu_of s cpu;
  let '(ret, bytes) :=
    kernel_read (reserve_file pc) (s64 (u64 (start item * CHUNKSTEP))) (u64 (len item)) in
  if ret <? 0 then Bug
  else
    tmp ← memcpy tmp bytes;
    tmp ← mem_bytes tmp;
    src ← read_bytes tmp (Z.to_nat (u64 (len item)));
    s ← copy_data (ctr_add rdf 1 (ctr_add rdl (len item) s)) a src;
    item ← get_item s a;
    Done (put_item a (set_flag_mem 1 item) s).

(** One turn of the inner loop of [read_data], for the request [a] of the list
    of [cpu]; the request itself is unlinked and freed. *)
Definition read_item (cpu : Z) (s : store) (a : Z) : outcome store :=
  item ← get_item s a;
  s ← (if flag_mem item =? 0 then fetch_item s cpu a else Done s);
  item ← get_item s a;
  Done (put_item a (set_share_ref (atomic_dec (share_ref item)) item) s).
End nf_in.
