(* ===== verification/StoreInv.v ===== *)
(** The invariant of the chunk store: the state machine of an item with what
    each state promises about memory and disk, and the consistency of the
    table, the counters and the per-CPU files. *)
From S2P Require Import Prelude JenHash Rabin Bitmap Store HashTable Aging.
#[local] Open Scope Z_scope.

Lemma bkt_of_range info : 0 ≤ bkt_of info < hash_tab_size.
Proof. apply (land_mask_range _ 20); [apply jen_hashv_range|done]. Qed.

(** The proofs never look into the hash. *)
#[global] Opaque bkt_of.

(** The states of an item; hash_table.h numbers them in [flag_cache] (0, 2 and 3
    are in memory; 2 with a place on disk is [Staged]; 4 is [Requested] until
    the data is read back, then [Cached]). [Marked] exists inside [wr_file] only. *)
Inductive astate := InMemory | Marked | Staged | OnDisk | Requested | Cached.

(** [mem_style] and the counter of a chunk of [n] bytes in memory. *)
Definition style_of (n : Z) : Z :=
  if n <=? CHUNKSTEP then 1 else if n <=? CHUNKSTEP * 2 then 2
  else if n <=? CHUNKSTEP * 3 then 3 else 0.
Definition mm_of (style : Z) : counter :=
  if style =? 1 then mm1 else if style =? 2 then mm2 else if style =? 3 then mm3 else mm0.

(** The bytes an item of [style] accounts for. *)
Definition style_weight (style : Z) (cp : hashinfo_item) : Z :=
  if mem_style cp =? style then len cp else 0.

Definition ctr_ok (m : gmap Z hashinfo_item) (c : counter → Z) : Prop :=
  ∀ j, 0 ≤ j ≤ 3 → c (mm_of j) = s64 (msum (style_weight j) m).

(** [cp] holds the bytes [ct] in memory. *)
Definition mem_ok (cp : hashinfo_item) (ct : list Z) : Prop :=
  mem_style cp = style_of (len cp) ∧
  ∃ b, data cp = Live b ∧ (length ct ≤ length b)%nat ∧ take (length ct) b = ct.

(** [ct] is at unit [st] of the bytes [view], before [limit]. *)
Definition place_ok (view : list Z) (limit st : Z) (ct : list Z) : Prop :=
  0 ≤ st ∧ CHUNKSTEP * (st + disk_units (Z.of_nat (length ct))) ≤ limit ∧
  CHUNKSTEP * st + Z.of_nat (length ct) ≤ limit ∧
  slice (Z.to_nat (CHUNKSTEP * st)) (length ct) view = ct.

Section inv.
  Context `{VFSLaws} `{StoreParams}.
  Implicit Types (s : store) (pc : percpu) (C : Z → list Z) (P : Z → nat).

(** The CPU whose worker writes the chunks of a bucket: its timer is pinned there. *)
Definition home (b : Z) : Z := b mod num_online_cpus.

(** A write that is being prepared or is under way on a CPU: the copy buffer
    and how many of its bytes are taken. *)
Record writing := Writing { wbuf : list Z; wused : Z }.
Implicit Types (w : option writing) (W : Z → option writing).

(** The file of a CPU as it will be when the write under way is done. *)
Definition virt pc w : list Z :=
  match w with
  | None => fview (reserve_file pc)
  | Some w => write_at (Z.to_nat (loff_file pc)) (wbuf w) (fview (reserve_file pc))
  end.
Definition used w : Z := match w with None => 0 | Some w => wused w end.

Record cpu_ok pc w : Prop := {
  cpu_bits : ∀ i, i ∈ bitmap pc → 0 ≤ i < bitmap_index pc;
  cpu_index : 0 ≤ bitmap_index pc ≤ bitmap_size;
  cpu_loff : 0 ≤ loff_file pc;
  cpu_pos : CHUNKSTEP * bitmap_index pc = loff_file pc + used w;
  cpu_len : loff_file pc ≤ Z.of_nat (length (fview (reserve_file pc)));
  cpu_used : match w with None => True | Some w => 0 ≤ wused w ≤ Z.of_nat (length (wbuf w)) end }.

Definition on_disk (cs : gmap Z percpu) (h st : Z) (ct : list Z) : Prop :=
  ∃ pc, cs !! h = Some pc ∧ place_ok (fview (reserve_file pc)) (loff_file pc) st ct.
Definition on_virt (cs : gmap Z percpu) W (h st : Z) (ct : list Z) : Prop :=
  ∃ pc, cs !! h = Some pc ∧ place_ok (virt pc (W h)) (CHUNKSTEP * bitmap_index pc) st ct.

(** [cp], with contents [ct] and [n] reads pending, is in the state; [K] says
    whether it may be marked. *)
Inductive item_state (cs : gmap Z percpu) W (K : Prop) (ct : list Z) (n : nat)
    (cp : hashinfo_item) : astate → Prop :=
| st_memory :
    flag_cache cp = 0 ∨ flag_cache cp = 2 ∨ flag_cache cp = 3 →
    cpuid cp = -1 → flag_mem cp = 0 → mem_ok cp ct → n = 0%nat →
    item_state cs W K ct n cp InMemory
| st_marked :
    K → flag_cache cp = 2 → cpuid cp = -2 → flag_mem cp = 0 → mem_ok cp ct → n = 0%nat →
    wants_disk cp = true →
    item_state cs W K ct n cp Marked
| st_staged :
    flag_cache cp = 2 → cpuid cp = home (bkt_of (sha1 cp)) → flag_mem cp = 0 →
    mem_ok cp ct → n = 0%nat → on_virt cs W (cpuid cp) (start cp) ct →
    item_state cs W K ct n cp Staged
| st_disk :
    flag_cache cp = 1 → cpuid cp = home (bkt_of (sha1 cp)) → flag_mem cp = 0 →
    mem_style cp = -1 → n = 0%nat → on_disk cs (cpuid cp) (start cp) ct →
    item_state cs W K ct n cp OnDisk
| st_requested :
    flag_cache cp = 4 → cpuid cp = home (bkt_of (sha1 cp)) → flag_mem cp = 0 →
    mem_style cp = -1 → (0 < n)%nat → on_disk cs (cpuid cp) (start cp) ct →
    item_state cs W K ct n cp Requested
| st_cached :
    flag_cache cp = 4 → cpuid cp = home (bkt_of (sha1 cp)) → flag_mem cp = 1 →
    mem_ok cp ct → on_disk cs (cpuid cp) (start cp) ct →
    item_state cs W K ct n cp Cached.

(** The largest payload of an IP packet bounds a chunk. *)
Definition MAX_CHUNK : Z := 65535.

Record item_ok (cs : gmap Z percpu) W (K : Prop) (ct : list Z) (n : nat)
    (cp : hashinfo_item) : Prop := {
  ok_sha : length (sha1 cp) = Z.to_nat SHA1SIZE;
  ok_len : len cp = Z.of_nat (length ct);
  ok_range : 0 < len cp ≤ MAX_CHUNK;
  ok_share : share_ref cp = 1 + Z.of_nat n;
  ok_pend : Z.of_nat n < 2 ^ 31 - 1;
  ok_state : ∃ st, item_state cs W K ct n cp st }.

Definition bucket_in (tab : gmap Z (list Z)) (b : Z) : list Z := default [] (tab !! b).

Record store_ok C P W (K : list Z) (m : gmap Z hashinfo_item) (next : Z)
    (tab : gmap Z (list Z)) (count : Z) (c : counter → Z) (cs : gmap Z percpu) : Prop := {
  inv_item : ∀ a cp, m !! a = Some cp → item_ok cs W (a ∈ K) (C a) (P a) cp;
  inv_tab : ∀ b a, a ∈ bucket_in tab b ↔ ∃ cp, m !! a = Some cp ∧ bkt_of (sha1 cp) = b;
  inv_nodup : ∀ b, NoDup (bucket_in tab b);
  inv_unique : ∀ a a' cp cp',
    m !! a = Some cp → m !! a' = Some cp' → sha1 cp = sha1 cp' → a = a';
  inv_count : count = Z.of_nat (size m) ∧ count ≤ hash_max_count + 1;
  inv_fresh : ∀ a cp, m !! a = Some cp → a < next;
  inv_pend : ∀ a, P a ≠ 0%nat → is_Some (m !! a);
  inv_ctr : ctr_ok m c;
  inv_cpus : ∀ h, 0 ≤ h < num_online_cpus → ∃ pc, cs !! h = Some pc ∧ cpu_ok pc (W h) }.

(** The store holds the contents [C] (by address), [P] reads are pending for
    each address, [W] is being written on each CPU, and only the items of [K]
    may be marked for writing. *)
Definition store_inv C P W (K : list Z) s : Prop :=
  store_ok C P W K (items s) (next_addr s) (hash_tab s) (hash_count s) (ctr s) (cpus s).
End inv.

(** ** Counters *)

Lemma mm_of_inj i j : 0 ≤ i ≤ 3 → 0 ≤ j ≤ 3 → mm_of i = mm_of j → i = j.
Proof.
  intros Hi Hj. unfold mm_of.
  destruct (Z.eqb_spec i 1), (Z.eqb_spec i 2), (Z.eqb_spec i 3),
    (Z.eqb_spec j 1), (Z.eqb_spec j 2), (Z.eqb_spec j 3); intros; try congruence; lia.
Qed.

Lemma style_of_range n : 0 ≤ style_of n ≤ 3.
Proof. unfold style_of. repeat case_match; lia. Qed.
#[export] Hint Resolve style_of_range : cint.

Lemma msum_ext {A} (w : A → Z) (m : gmap Z A) i a a' :
  m !! i = Some a → w a' = w a → msum w (<[i := a']> m) = msum w m.
Proof. intros H E. rewrite (msum_insert w m i a) by done. lia. Qed.

(** A counter that is not one of the four. *)
Definition not_mm (k : counter) : bool :=
  match k with mm0 | mm1 | mm2 | mm3 => false | _ => true end.

Lemma mm_of_mm j : not_mm (mm_of j) = false.
Proof. unfold mm_of. by repeat case_match. Qed.

Section ctr.
  Context `{VFS}.
  Implicit Types s : store.

Lemma ctr_ok_other m s k d : not_mm k = true → ctr_ok m (ctr s) → ctr_ok m (ctr (ctr_add k d s)).
Proof.
  intros Hk Hm j Hj. rewrite ctr_ctr_add, decide_False; [by apply Hm|].
  intros <-. by rewrite mm_of_mm in Hk.
Qed.

(** The counters follow a change of the weights of the items. *)
Lemma ctr_ok_add m m' s j d :
  0 ≤ j ≤ 3 → ctr_ok m (ctr s) →
  msum (style_weight j) m' = msum (style_weight j) m + d →
  (∀ i, 0 ≤ i ≤ 3 → i ≠ j → msum (style_weight i) m' = msum (style_weight i) m) →
  ctr_ok m' (ctr (ctr_add (mm_of j) d s)).
Proof.
  intros Hj Hm Hd Ho i Hi. rewrite ctr_ctr_add. destruct (decide _) as [E|E].
  - apply mm_of_inj in E; [|done..]. subst i. by rewrite (Hm j), s64_add_idemp_l, Hd by done.
  - rewrite (Hm i), (Ho i); [done|done|congruence|done].
Qed.

Lemma ctr_ok_put m c a cp cp' :
  ctr_ok m c → m !! a = Some cp → mem_style cp' = mem_style cp → len cp' = len cp →
  ctr_ok (<[a := cp']> m) c.
Proof.
  intros Hm Ha Es El j Hj. rewrite (msum_ext _ _ _ cp _); [by apply Hm|done|].
  unfold style_weight. by rewrite Es, El.
Qed.

Lemma style_weight_out i cp : mem_style cp ≠ i → style_weight i cp = 0.
Proof. intros. unfold style_weight. by rewrite (proj2 (Z.eqb_neq _ _)). Qed.
Lemma style_weight_in cp : style_weight (mem_style cp) cp = len cp.
Proof. unfold style_weight. by rewrite Z.eqb_refl. Qed.

(** The data of an item enters memory ... *)
Lemma ctr_ok_alloc m s a cp cp' :
  ctr_ok m (ctr s) → m !! a = Some cp → mem_style cp = -1 → 0 ≤ mem_style cp' ≤ 3 →
  len cp' = len cp →
  ctr_ok (<[a := cp']> m) (ctr (ctr_add (mm_of (mem_style cp')) (len cp) s)).
Proof.
  intros Hm Ha Hs Hj El. apply (ctr_ok_add m); [done|done| |].
  - rewrite (msum_insert _ _ _ cp), style_weight_in, (style_weight_out _ cp) by (done || lia). lia.
  - intros i Hi Hne. rewrite (msum_insert _ _ _ cp), !style_weight_out by (done || lia). lia.
Qed.

(** ... and leaves it, the item staying in the table or not. *)
Lemma ctr_ok_free m s a cp cp' :
  ctr_ok m (ctr s) → m !! a = Some cp → 0 ≤ mem_style cp ≤ 3 → mem_style cp' = -1 →
  ctr_ok (<[a := cp']> m) (ctr (ctr_add (mm_of (mem_style cp)) (- len cp) s)).
Proof.
  intros Hm Ha Hj Hs. apply (ctr_ok_add m); [done|done| |].
  - rewrite (msum_insert _ _ _ cp), style_weight_in, (style_weight_out _ cp') by (done || lia). lia.
  - intros i Hi Hne. rewrite (msum_insert _ _ _ cp), !style_weight_out by (done || lia). lia.
Qed.

Lemma ctr_ok_delete m c a cp :
  ctr_ok m c → m !! a = Some cp → mem_style cp = -1 → ctr_ok (delete a m) c.
Proof.
  intros Hm Ha Hs j Hj. rewrite (msum_delete _ _ _ cp) by done.
  rewrite style_weight_out by lia. rewrite (Hm j) by done. f_equal. lia.
Qed.
End ctr.

(** ** Keeping the invariant *)

Section keep.
  Context `{VFSLaws} `{StoreParamsLaws}.
  Implicit Types (s : store) (pc : percpu) (C : Z → list Z) (P : Z → nat)
    (W : Z → option writing).

Lemma home_range b : 0 ≤ home b < num_online_cpus.
Proof. apply Z.mod_pos_bound, num_online_cpus_pos. Qed.

(** What holds on disk and in the files to come only grows. *)
Definition disk_le (cs : gmap Z percpu) W (cs' : gmap Z percpu) (W' : Z → option writing) : Prop :=
  ∀ h st ct, (on_disk cs h st ct → on_disk cs' h st ct) ∧
             (on_virt cs W h st ct → on_virt cs' W' h st ct).

Lemma disk_le_refl cs W : disk_le cs W cs W.
Proof. by split. Qed.
Lemma disk_le_trans cs1 W1 cs2 W2 cs3 W3 :
  disk_le cs1 W1 cs2 W2 → disk_le cs2 W2 cs3 W3 → disk_le cs1 W1 cs3 W3.
Proof. intros Hab Hbc h st ct. destruct (Hab h st ct), (Hbc h st ct). split; auto. Qed.

Lemma item_state_mono cs W cs' W' (K K' : Prop) ct n cp st :
  disk_le cs W cs' W' → (K → K') →
  item_state cs W K ct n cp st → item_state cs' W' K' ct n cp st.
Proof.
  intros Hle HK. destruct 1; econstructor; eauto; try (by apply (Hle _ _ _)).
Qed.

Lemma item_ok_mono cs W cs' W' (K K' : Prop) ct n cp :
  disk_le cs W cs' W' → (K → K') → item_ok cs W K ct n cp → item_ok cs' W' K' ct n cp.
Proof.
  intros Hle HK [? ? ? ? ? (st&?)]. split; try done. exists st.
  by eapply item_state_mono.
Qed.

(** The state only depends on some fields. *)
Lemma item_state_fields cs W K ct n cp cp' st :
  flag_cache cp' = flag_cache cp → cpuid cp' = cpuid cp → flag_mem cp' = flag_mem cp →
  mem_style cp' = mem_style cp → len cp' = len cp → data cp' = data cp →
  sha1 cp' = sha1 cp → start cp' = start cp → (K → wants_disk cp' = wants_disk cp) →
  item_state cs W K ct n cp st → item_state cs W K ct n cp' st.
Proof.
  intros E1 E2 E3 E4 E5 E6 E7 E8 E9.
  assert (mem_ok cp ct → mem_ok cp' ct) by (unfold mem_ok; by rewrite E4, E5, E6).
  destruct 1; econstructor; try rewrite E1; try rewrite E2; try rewrite E3; try rewrite E4;
    try rewrite E7; try rewrite E8; try rewrite E9; eauto.
Qed.

(** An item changes; its neighbours do not. *)
Lemma store_ok_put C P P' W K K' m next tab count c c' cs a cp cp' :
  store_ok C P W K m next tab count c cs → m !! a = Some cp →
  sha1 cp' = sha1 cp → len cp' = len cp → ctr_ok (<[a := cp']> m) c' →
  item_ok cs W (a ∈ K') (C a) (P' a) cp' →
  (∀ x, x ≠ a → P' x = P x ∧ (x ∈ K → x ∈ K')) →
  store_ok C P' W K' (<[a := cp']> m) next tab count c' cs.
Proof.
  intros [Hi Ht Hn Hu Hc Hf Hp Hm Hcs] Ha Hs Hl Hc' Hok HP. split; try done.
  - intros x cpx. destruct (decide (x = a)) as [->|Hne].
    + rewrite lookup_insert_eq. by intros [= <-].
    + rewrite lookup_insert_ne by done. intros Hx. destruct (HP x Hne) as [-> HK].
      eapply item_ok_mono; [apply disk_le_refl|exact HK|by apply Hi].
  - intros b x. rewrite Ht. destruct (decide (x = a)) as [->|Hne].
    + rewrite lookup_insert_eq, Ha. split; intros (y&[= <-]&?); eexists; (split; [done|congruence]).
    + by rewrite lookup_insert_ne.
  - assert (Hu' : ∀ x y, <[a := cp']> m !! x = Some y → ∃ y', m !! x = Some y' ∧ sha1 y' = sha1 y).
    { intros x y. destruct (decide (x = a)) as [->|Hne].
      - rewrite lookup_insert_eq. intros [= <-]. by exists cp.
      - rewrite lookup_insert_ne by done. by exists y. }
    intros x x' y y' Hx Hx' E. destruct (Hu' _ _ Hx) as (z&?&?), (Hu' _ _ Hx') as (z'&?&?).
    eapply Hu; [done..|congruence].
  - rewrite map_size_insert_Some; [done|]. by rewrite Ha.
  - intros x y. destruct (decide (x = a)) as [->|Hne].
    + intros _. by eapply Hf.
    + rewrite lookup_insert_ne by done. apply Hf.
  - intros x Hx. destruct (decide (x = a)) as [->|Hne].
    + rewrite lookup_insert_eq. by eexists.
    + rewrite lookup_insert_ne by done. apply Hp. by rewrite <- (proj1 (HP x Hne)).
Qed.

(** The files change for the better. *)
Lemma store_ok_cpus C P W W' K m next tab count c cs cs' :
  store_ok C P W K m next tab count c cs → disk_le cs W cs' W' →
  (∀ h, 0 ≤ h < num_online_cpus → ∃ pc, cs' !! h = Some pc ∧ cpu_ok pc (W' h)) →
  store_ok C P W' K m next tab count c cs'.
Proof.
  intros [Hi Ht Hn Hu Hc Hf Hp Hm Hcs] Hle Hcs'. split; try done.
  intros x y Hx. eapply item_ok_mono; [exact Hle|done|by apply Hi].
Qed.

Lemma store_ok_weaken C P W K K' m next tab count c cs :
  (∀ a, a ∈ K → a ∈ K') →
  store_ok C P W K m next tab count c cs → store_ok C P W K' m next tab count c cs.
Proof.
  intros HK [Hi Ht Hn Hu Hc Hf Hp Hm Hcs]. split; try done.
  intros x y Hx. eapply item_ok_mono; [apply disk_le_refl|apply HK|by apply Hi].
Qed.

Lemma store_ok_ctr C P W K m next tab count c c' cs :
  store_ok C P W K m next tab count c cs → ctr_ok m c' →
  store_ok C P W K m next tab count c' cs.
Proof. intros [Hi Ht Hn Hu Hc Hf Hp Hm Hcs] Hc'. by split. Qed.

(** An item leaves the table and the heap. *)
Lemma store_ok_delete C P W m next tab count c c' cs a cp b :
  store_ok C P W [] m next tab count c cs → m !! a = Some cp → bkt_of (sha1 cp) = b →
  P a = 0%nat → ctr_ok (delete a m) c' →
  store_ok C P W [] (delete a m) next
    (<[b := filter (.≠ a) (bucket_in tab b)]> tab) (atomic_dec count) c' cs.
Proof.
  intros [Hi Ht Hn Hu [Hc Hc2] Hf Hp Hm Hcs] Ha Hb HP Hc'.
  assert (Hb' : ∀ b', bucket_in (<[b := filter (.≠ a) (bucket_in tab b)]> tab) b'
    = filter (.≠ a) (bucket_in tab b')).
  { intros b'. unfold bucket_in. destruct (decide (b' = b)) as [->|Hne].
    - by rewrite lookup_insert_eq.
    - rewrite lookup_insert_ne by done. symmetry. apply remove_absent.
      intros Hx. apply Ht in Hx as (y&?&?). congruence. }
  split; [| | | | | | |exact Hc'|exact Hcs].
  - intros x y [Hx Hy]%lookup_delete_Some. by apply Hi.
  - intros b' x. rewrite Hb', list_elem_of_filter, Ht. split.
    + intros [Hne (y&?&?)]. exists y. split; [|done].
      rewrite lookup_delete_ne by congruence. assumption.
    + intros (y&[? ?]%lookup_delete_Some&?). split; [congruence|exists y; by split].
  - intros b'. rewrite Hb'. by apply NoDup_filter.
  - intros x x' y y' [? ?]%lookup_delete_Some [? ?]%lookup_delete_Some. by apply Hu.
  - pose proof hash_max_count_range. rewrite map_size_delete_Some by done.
    assert (size m ≠ 0%nat) by (intros E%map_size_empty_inv; subst; done).
    rewrite Hc in *. unfold atomic_dec, atomic_add. rewrite s32_small; [lia|]. lia.
  - intros x y [? ?]%lookup_delete_Some. by eapply Hf.
  - intros x Hx. destruct (Hp x Hx) as [y Hy]. exists y.
    rewrite lookup_delete_ne; [done|]. congruence.
Qed.

(** A new item enters the table. *)
Lemma store_ok_new C P W m next tab count c c' cs cp :
  store_ok C P W [] m next tab count c cs →
  (∀ a cp', m !! a = Some cp' → sha1 cp' ≠ sha1 cp) → count ≤ hash_max_count →
  ctr_ok (<[next := cp]> m) c' → item_ok cs W False (C next) 0 cp →
  store_ok C P W [] (<[next := cp]> m) (next + 1)
    (<[bkt_of (sha1 cp) := next :: bucket_in tab (bkt_of (sha1 cp))]> tab)
    (atomic_inc count) c' cs.
Proof.
  intros [Hi Ht Hn Hu [Hc Hc2] Hf Hp Hm Hcs] Hnew Hmax Hc' Hok.
  assert (Hfresh : m !! next = None).
  { destruct (m !! next) as [y|] eqn:E; [|done]. apply Hf in E. lia. }
  assert (HPn : P next = 0%nat).
  { destruct (decide (P next = 0%nat)) as [|Hne]; [done|].
    destruct (Hp _ Hne). congruence. }
  assert (Hold : ∀ x b, x ∈ bucket_in tab b → x ≠ next).
  { intros x b' Hx ->. apply Ht in Hx as (y&?&?). congruence. }
  split; [| | | | | | |exact Hc'|exact Hcs].
  - intros x y. destruct (decide (x = next)) as [->|Hne].
    + rewrite lookup_insert_eq, HPn. intros [= <-].
      eapply item_ok_mono; [apply disk_le_refl| |exact Hok]. done.
    + rewrite lookup_insert_ne by done. apply Hi.
  - intros b x. unfold bucket_in at 1. destruct (decide (b = bkt_of (sha1 cp))) as [->|Hb].
    + rewrite lookup_insert_eq. simpl. rewrite elem_of_cons, Ht.
      destruct (decide (x = next)) as [->|Hne].
      * rewrite lookup_insert_eq. split; [intros _; by exists cp|by left].
      * rewrite lookup_insert_ne by done. split; [intros [?|?]; done|by right].
    + rewrite lookup_insert_ne by done. change (default [] (tab !! b)) with (bucket_in tab b).
      rewrite Ht. destruct (decide (x = next)) as [->|Hne].
      * rewrite Hfresh, lookup_insert_eq. split; intros (y&[= <-]&?). congruence.
      * by rewrite lookup_insert_ne.
  - intros b. unfold bucket_in at 1. destruct (decide (b = bkt_of (sha1 cp))) as [->|Hb].
    + rewrite lookup_insert_eq. simpl. apply NoDup_cons. split; [|done].
      intros Hx. by apply (Hold _ _ Hx).
    + rewrite lookup_insert_ne by done. apply Hn.
  - intros x x' y y'. rewrite !lookup_insert_Some.
    intros [[<- <-]|[? Hx]] [[<- <-]|[? Hx']] E; [done| | |by eapply Hu].
    + by destruct (Hnew _ _ Hx').
    + by destruct (Hnew _ _ Hx).
  - pose proof hash_max_count_range. rewrite map_size_insert_None by done.
    unfold atomic_inc, atomic_add. rewrite s32_small; lia.
  - intros x y. rewrite lookup_insert_Some. intros [[<- <-]|[? Hx]]; [lia|].
    apply Hf in Hx. lia.
  - intros x Hx. destruct (Hp x Hx) as [y Hy]. rewrite lookup_insert_ne; [by exists y|]. congruence.
Qed.

(** The items of [m'] come from those of [m], changed as [R] says. *)
Definition keeps_by (R : hashinfo_item → hashinfo_item → Prop) (m m' : gmap Z hashinfo_item) : Prop :=
  ∀ a cp', m' !! a = Some cp' → ∃ cp, m !! a = Some cp ∧ R cp cp'.

(** They keep their digests ... *)
Definition same_digest (cp cp' : hashinfo_item) : Prop := sha1 cp' = sha1 cp.
Definition keeps := keeps_by same_digest.

(** ... and [wr_file] may only move them from state 2 to state 1. *)
Definition disk_step (cp cp' : hashinfo_item) : Prop :=
  sha1 cp' = sha1 cp ∧
  (flag_cache cp' = flag_cache cp ∨ flag_cache cp = 2 ∧ flag_cache cp' = 1).
Definition steady s s' : Prop := works s' = works s ∧ keeps_by disk_step (items s) (items s').

#[export] Instance disk_step_preorder : PreOrder disk_step.
Proof.
  split; [split; auto|].
  intros x y z [E1 F1] [E2 F2]. split; [congruence|]. lia.
Qed.

#[export] Instance same_digest_preorder : PreOrder same_digest.
Proof. split; unfold same_digest; repeat intro; congruence. Qed.

Lemma keeps_by_refl R `{!Reflexive R} m : keeps_by R m m.
Proof. intros a cp Ha. by exists cp. Qed.
Lemma keeps_by_trans R `{!Transitive R} m1 m2 m3 :
  keeps_by R m1 m2 → keeps_by R m2 m3 → keeps_by R m1 m3.
Proof.
  intros Hab Hbc a cp (cp2&(cp1&Ha&E1)%Hab&E2)%Hbc. exists cp1. split; [done|by etransitivity].
Qed.
Lemma keeps_by_insert R `{!Reflexive R} m a cp cp' :
  m !! a = Some cp → R cp cp' → keeps_by R m (<[a := cp']> m).
Proof.
  intros Ha E x y. destruct (decide (x = a)) as [->|Hne].
  - rewrite lookup_insert_eq. intros [= <-]. by exists cp.
  - rewrite lookup_insert_ne by done. by exists y.
Qed.
Lemma keeps_by_impl (R R' : hashinfo_item → hashinfo_item → Prop) m m' :
  (∀ x y, R x y → R' x y) → keeps_by R m m' → keeps_by R' m m'.
Proof. intros Hi Hk a cp' (cp&?&?)%Hk. exists cp. auto. Qed.

Lemma keeps_refl m : keeps m m.
Proof. intros a cp Ha. by exists cp. Qed.
Lemma keeps_insert m a cp cp' : m !! a = Some cp → sha1 cp' = sha1 cp → keeps m (<[a := cp']> m).
Proof. intros Ha E. by apply (keeps_by_insert same_digest m a cp). Qed.
Lemma steady_keeps s s' : steady s s' → keeps (items s) (items s').
Proof. intros [_ Hk]. eapply keeps_by_impl; [|exact Hk]. by intros x y [? _]. Qed.

Lemma steady_refl s s' : works s' = works s → items s' = items s → steady s s'.
Proof. intros E1 E2. split; [done|]. rewrite E2. apply (keeps_by_refl disk_step). Qed.
Lemma steady_trans s1 s2 s3 : steady s1 s2 → steady s2 s3 → steady s1 s3.
Proof. intros [E1 K1] [E2 K2]. split; [congruence|by eapply (keeps_by_trans disk_step)]. Qed.
Lemma steady_put s s' a cp cp' :
  items s !! a = Some cp → disk_step cp cp' → works s' = works s →
  items s' = <[a := cp']> (items s) → steady s s'.
Proof. intros Ha E E1 E2. split; [done|]. rewrite E2. by eapply (keeps_by_insert disk_step). Qed.
End keep.
