(* ===== verification/StoreOps.v ===== *)
(** The operations of the hash table and of the receive path keep the
    invariant of the store, do not fault and do not stop the machine. *)
From S2P Require Import Prelude JenHash Rabin Bitmap Store HashTable Aging NfIn StoreInv.
#[local] Open Scope Z_scope.

(** Hypotheses on the lengths decide the comparisons of the code. *)
Ltac zcase :=
  repeat match goal with
  | |- context [?a <=? ?b] => destruct (Z.leb_spec a b); try lia
  | |- context [?a <? ?b] => destruct (Z.ltb_spec a b); try lia
  | |- context [?a =? ?b] => destruct (Z.eqb_spec a b); try lia
  end.

Lemma get_item_bind `{VFS} {A} (s : store) a cp (f : hashinfo_item → outcome A) :
  items s !! a = Some cp → (get_item s a ≫= f) = f cp.
Proof. unfold get_item. by intros ->. Qed.

Section memory.
  Context `{AllocatorLaws} `{VFS} (Hmem : ∀ n, alloc_ok n = true).
  Implicit Types s : store.

Lemma place_data_spec s a cp r b style k n :
  items s !! a = Some cp → r = (Some b, count_alloc s) →
  place_data a r style k n
  = Done (ctr_add k n (put_item a (set_mem_style style (set_data (Live b) cp)) (count_alloc s))).
Proof. intros Ha ->. unfold place_data, get_item. simpl. by rewrite Ha. Qed.

(** Data comes into memory. *)
Lemma alloc_data_memory_spec s a cp :
  items s !! a = Some cp → mem_style cp = -1 → 0 < len cp ≤ MAX_CHUNK →
  ∃ b, (Z.to_nat (len cp) ≤ length b)%nat ∧
    alloc_data_memory s a (u64 (len cp)) =
    Done (ctr_add (mm_of (style_of (len cp))) (len cp)
      (put_item a (set_mem_style (style_of (len cp)) (set_data (Live b) cp)) (count_alloc s))).
Proof.
  intros Ha Hs Hl. unfold MAX_CHUNK in Hl. rewrite u64_small by lia.
  assert (Hz : ∀ n, zalloc n s = (Some (replicate n 0), count_alloc s))
    by (intros; unfold zalloc; by rewrite Hmem).
  assert (Hk : ∀ n, kmalloc n s = (Some (junk (nalloc s) n), count_alloc s))
    by (intros; unfold kmalloc; by rewrite Hmem).
  unfold alloc_data_memory. rewrite (get_item_bind _ _ cp), Hs by done.
  unfold style_of, CHUNKSTEP. cbn [Z.leb Z.compare].
  rewrite (u64_small (len cp)) by lia. zcase;
    (eexists; split; [|by apply place_data_spec];
     rewrite ?length_replicate, ?junk_length; lia).
Qed.

(** ... and leaves it: the last branch of [free_data_memory] is not taken. *)
Lemma free_data_memory_spec s a cp :
  items s !! a = Some cp → mem_style cp = style_of (len cp) →
  free_data_memory s a = Done (drop_data a cp (mm_of (style_of (len cp))) s).
Proof.
  intros Ha Hs. unfold free_data_memory. rewrite (get_item_bind _ _ cp), Hs by done.
  unfold style_of. by repeat case_match.
Qed.

Lemma memcpy_spec b src : (length src ≤ length b)%nat →
  memcpy (Live b) src = Done (Live (src ++ drop (length src) b)).
Proof. intros. simpl. by rewrite decide_True. Qed.

Lemma read_bytes_spec src n : (n ≤ length src)%nat → read_bytes src n = Done (take n src).
Proof. intros. unfold read_bytes. by rewrite decide_True. Qed.
End memory.

(** ** Insertion and lookup *)

Section table.
  Context `{AllocatorLaws} `{VFSLaws} `{StoreParamsLaws} (Hmem : ∀ n, alloc_ok n = true).
  Implicit Types (s : store) (C : Z → list Z) (P : Z → nat) (W : Z → option writing).

(** The item that [hash_new_item] links; [b] is the block it was given. *)
Definition new_item (info value : list Z) (n : Z) (b : list Z) : hashinfo_item :=
  Item ITEM_CITE_ADD 1 n (take 20 info)
    (Live (take (Z.to_nat n) value ++ drop (Z.to_nat n) b)) (style_of n) (-1) 0 0 0 0.

Lemma hash_new_item_spec s info value n :
  0 ≤ hash_count s ≤ hash_max_count → (20 ≤ length info)%nat → 0 < n ≤ MAX_CHUNK →
  n ≤ Z.of_nat (length value) →
  ∃ b s', (Z.to_nat n ≤ length b)%nat ∧
    hash_new_item s info value n = Done (s', Some (next_addr s)) ∧
    items s' = <[next_addr s := new_item info value n b]> (items s) ∧
    next_addr s' = next_addr s + 1 ∧
    hash_tab s' = <[bkt_of (take 20 info) := next_addr s :: bucket s (bkt_of (take 20 info))]>
                    (hash_tab s) ∧
    hash_count s' = atomic_inc (hash_count s) ∧
    ctr s' = ctr (ctr_add (mm_of (style_of n)) n s) ∧ cpus s' = cpus s ∧ works s' = works s.
Proof.
  intros Hc Hi Hn Hv. pose proof hash_max_count_range. unfold MAX_CHUNK in Hn.
  unfold hash_new_item. rewrite (u64_small (hash_count s)) by lia.
  rewrite (proj2 (Z.ltb_ge _ _)), Hmem by lia.
  set (a := next_addr s). set (s1 := put_item a (item0 n) _).
  assert (Hn32 : s32 n = n) by (apply s32_small; lia).
  destruct (alloc_data_memory_spec Hmem s1 a (item0 n)) as (b&Hb&E);
    [apply lookup_insert_eq|done|cbn [item0 len]; rewrite Hn32; unfold MAX_CHUNK; lia|].
  cbn [item0 len] in E, Hb. rewrite Hn32 in *. cbv zeta. rewrite E. clear E.
  cbn [mbind outcome_bind]. rewrite ?(u64_small n) by lia.
  rewrite (read_bytes_spec value) by lia. cbn [mbind outcome_bind].
  unfold copy_data. erewrite get_item_bind by apply lookup_insert_eq.
  cbn [set_mem_style set_data data]. rewrite memcpy_spec by (rewrite length_take; lia).
  cbn [mbind outcome_bind]. erewrite get_item_bind by apply lookup_insert_eq.
  rewrite read_bytes_spec by (unfold SHA1SIZE; lia). cbn [mbind outcome_bind].
  eexists b, _. split; [done|]. split; [done|].
  cbn [items next_addr hash_tab hash_count ctr cpus works _hash list_add set_hash_tab
    set_hash_count put_item set_items ctr_add count_alloc set_next_addr s1].
  split; [|done]. rewrite !insert_insert_eq. f_equal. unfold new_item.
  cbn. by rewrite length_take, Nat.min_l, Hn32 by lia.
Qed.

(** A new item is in state 0: in memory, not referred to. *)
Lemma new_item_ok cs W info value n b :
  (20 ≤ length info)%nat → 0 < n ≤ MAX_CHUNK → n ≤ Z.of_nat (length value) →
  (Z.to_nat n ≤ length b)%nat →
  item_ok cs W False (take (Z.to_nat n) value) 0 (new_item info value n b).
Proof.
  intros Hi Hn Hv Hb. split; cbn; rewrite ?length_take; try (unfold SHA1SIZE; lia).
  exists InMemory. apply st_memory; try done; [by left|]. split; [done|].
  eexists; split; [done|]. rewrite length_app, length_drop, length_take. split; [lia|].
  rewrite take_app_le, take_take by (rewrite length_take; lia). f_equal. lia.
Qed.

Lemma hash_new_item_inv C P W s info value n :
  store_inv C P W [] s → length info = 20%nat → 0 < n ≤ MAX_CHUNK →
  n ≤ Z.of_nat (length value) → hash_count s ≤ hash_max_count →
  (∀ a cp, items s !! a = Some cp → sha1 cp ≠ info) →
  ∃ b s', hash_new_item s info value n = Done (s', Some (next_addr s)) ∧
    items s' = <[next_addr s := new_item info value n b]> (items s) ∧
    store_inv (<[next_addr s := take (Z.to_nat n) value]> C) P W [] s'.
Proof.
  intros Hinv Hi Hn Hv Hmax Hnew.
  destruct (hash_new_item_spec s info value n) as (b&s'&Hb&E&E1&E2&E3&E4&E5&E6&_);
    [destruct (inv_count _ _ _ _ _ _ _ _ _ _ Hinv); lia|lia|done|done|].
  exists b, s'. split; [done|]. split; [done|].
  unfold store_inv. rewrite E1, E2, E3, E4, E5, E6. rewrite (take_ge info) by lia.
  assert (Hfresh : items s !! next_addr s = None).
  { destruct (items s !! next_addr s) as [y|] eqn:Ey; [|done].
    apply (inv_fresh _ _ _ _ _ _ _ _ _ _ Hinv) in Ey. lia. }
  assert (Hsha : sha1 (new_item info value n b) = info) by (apply take_ge; lia).
  rewrite <- Hsha at 2 3. apply (store_ok_new _ _ _ _ _ _ _ (ctr s)); rewrite ?Hsha; [| |done| |].
  - destruct Hinv as [Hitem ? ? ? ? Hf ? ? ?]. split; try done. intros a cp Ha.
    rewrite fn_lookup_insert_ne; [by apply Hitem|]. apply Hf in Ha. lia.
  - done.
  - apply (ctr_ok_add (items s)); [apply style_of_range|apply Hinv| |].
    + rewrite msum_insert_new by done.
      change (style_of n) with (mem_style (new_item info value n b)) at 1.
      rewrite style_weight_in. simpl. lia.
    + intros i Hr Hne. rewrite msum_insert_new by done.
      rewrite style_weight_out; [lia|]. simpl. congruence.
  - rewrite fn_lookup_insert. apply new_item_ok; (done || lia).
Qed.

(** The lookup finds the item of the digest, or there is none. *)
Lemma find_item_spec s info l :
  (∀ a, a ∈ l → is_Some (items s !! a)) →
  ∃ r, find_item s info l = Done r ∧
    match r with
    | None => ∀ a cp, a ∈ l → items s !! a = Some cp →
        take (Z.to_nat SHA1SIZE) (sha1 cp) ≠ take (Z.to_nat SHA1SIZE) info
    | Some a => a ∈ l ∧ ∃ cp, items s !! a = Some cp ∧
        take (Z.to_nat SHA1SIZE) (sha1 cp) = take (Z.to_nat SHA1SIZE) info
    end.
Proof.
  induction l as [|a l IH]; intros Hl.
  { exists None. split; [done|]. intros a cp Ha. by apply not_elem_of_nil in Ha. }
  destruct (Hl a (list_elem_of_here _ _)) as [cp Ha]. cbn [find_item].
  rewrite (get_item_bind _ _ cp) by done. case_decide as Hd.
  - exists (Some a). split; [done|]. split; [apply list_elem_of_here|by exists cp].
  - destruct IH as (r&->&Hr); [intros x Hx; apply Hl; by apply list_elem_of_further|].
    exists r. split; [done|]. destruct r as [x|].
    + destruct Hr. split; [by apply list_elem_of_further|done].
    + intros x y Hx Hy. apply elem_of_cons in Hx as [->|Hx]; [congruence|]. by eapply Hr.
Qed.

Lemma inv_bucket C P W K s b a :
  store_inv C P W K s → a ∈ bucket s b → is_Some (items s !! a).
Proof. intros Hinv (cp&?&?)%(inv_tab _ _ _ _ _ _ _ _ _ _ Hinv). by exists cp. Qed.

Lemma get_hash_item_spec C P W K s info :
  store_inv C P W K s → length info = 20%nat →
  (get_hash_item s info = Done (s, None) ∧
     ∀ a cp, items s !! a = Some cp → sha1 cp ≠ info) ∨
  (∃ a cp, items s !! a = Some cp ∧ sha1 cp = info ∧
     get_hash_item s info
     = Done (put_item a (hit cp) (devote (flag_cache cp) (len cp) s), Some a)).
Proof.
  intros Hinv Hi. unfold get_hash_item.
  destruct (find_item_spec s info (bucket s (bkt_of info))) as (r&->&Hr).
  { intros a Ha. by eapply inv_bucket. }
  assert (Hsha : ∀ a cp, items s !! a = Some cp →
    take (Z.to_nat SHA1SIZE) (sha1 cp) = take (Z.to_nat SHA1SIZE) info ↔ sha1 cp = info).
  { intros a cp Ha. pose proof (ok_sha _ _ _ _ _ _ (inv_item _ _ _ _ _ _ _ _ _ _ Hinv _ _ Ha)).
    rewrite !take_ge by (unfold SHA1SIZE in *; lia). done. }
  cbn [mbind outcome_bind]. destruct r as [a|].
  - right. destruct Hr as (_&cp&Ha&E). exists a, cp. split; [done|].
    split; [by eapply Hsha|]. by rewrite (get_item_bind _ _ cp).
  - left. split; [done|]. intros a cp Ha E. apply (Hr a cp); [|done|by eapply Hsha].
    apply (inv_tab _ _ _ _ _ _ _ _ _ _ Hinv). exists cp. by rewrite E.
Qed.

(** ** A chunk of a packet *)

Lemma atomic_inc_share (n : nat) : Z.of_nat n < 2 ^ 31 - 2 →
  atomic_inc (1 + Z.of_nat n) = 1 + Z.of_nat (S n).
Proof. intros. unfold atomic_inc, atomic_add. rewrite s32_small; lia. Qed.
Lemma atomic_dec_share (n : nat) : Z.of_nat n < 2 ^ 31 - 1 →
  atomic_dec (1 + Z.of_nat (S n)) = 1 + Z.of_nat n.
Proof. intros. unfold atomic_dec, atomic_add. rewrite s32_small; lia. Qed.

(** The statistics of a hit leave the rest of the store alone. *)
Lemma devote_rest f n s :
  items (devote f n s) = items s ∧ next_addr (devote f n s) = next_addr s ∧
  hash_tab (devote f n s) = hash_tab s ∧ hash_count (devote f n s) = hash_count s ∧
  cpus (devote f n s) = cpus s ∧ works (devote f n s) = works s.
Proof. unfold devote. by repeat case_match. Qed.
Lemma devote_ctr f n s k : k = sum_num ∨ k = save_num → ctr (devote f n s) k = ctr s k.
Proof. intros [-> | ->]; unfold devote; by repeat case_match. Qed.
Lemma devote_ok f n s m : ctr_ok m (ctr s) → ctr_ok m (ctr (devote f n s)).
Proof. intros. unfold devote. repeat case_match; try by apply ctr_ok_other. done. Qed.

(** What a hit leaves when the data is in memory: one more citation. *)
Definition cited (cp : hashinfo_item) : hashinfo_item :=
  set_refcnt (atomic_add ITEM_CITE_FIND (refcnt cp)) cp.
(** ... and when it is on disk, or was read back: a read is requested. *)
Definition requested (cp : hashinfo_item) : hashinfo_item :=
  set_flag_cache 4 (set_share_ref (atomic_inc (share_ref cp)) (cited cp)).

Definition disk_flag (cp : hashinfo_item) : bool := (flag_cache cp =? 1) || (flag_cache cp =? 4).

Lemma hit_split cp :
  hit cp = if disk_flag cp then requested cp
           else set_share_ref (atomic_inc (share_ref cp)) (cited cp).
Proof.
  unfold hit, disk_flag, requested, cited. cbn.
  destruct (Z.eqb_spec (flag_cache cp) 1), (Z.eqb_spec (flag_cache cp) 4); try done.
  destruct cp; simpl in *; by subst.
Qed.

Section hit.
  Context C P W s a cp (Hinv : store_inv C P W [] s) (Ha : items s !! a = Some cp).
  Context (HP : Z.of_nat (P a) < 2 ^ 31 - 2).

Lemma hit_item_ok : item_ok (cpus s) W (a ∈ []) (C a) (P a) cp.
Proof. by apply (inv_item _ _ _ _ _ _ _ _ _ _ Hinv). Qed.

Lemma disk_flag_home : disk_flag cp = true → cpuid cp = home (bkt_of (sha1 cp)).
Proof.
  destruct hit_item_ok as [_ _ _ _ _ (st&Hst)]. unfold disk_flag.
  destruct Hst as [[Ef|[Ef|Ef]]|? Ef|Ef|? Ec|? Ec|? Ec]; try (rewrite Ef; discriminate);
    by intros _.
Qed.

(** A hit in memory. *)
Lemma cited_inv c :
  disk_flag cp = false → ctr_ok (items s) c →
  store_ok C P W [] (<[a := cited cp]> (items s)) (next_addr s) (hash_tab s) (hash_count s) c
    (cpus s).
Proof.
  intros Hf Hc. eapply store_ok_put; [exact Hinv|exact Ha|done|done| | |by split].
  - by eapply ctr_ok_put.
  - destruct hit_item_ok as [? ? ? ? ? (st&Hst)]. split; try done. exists st.
    eapply item_state_fields; [..|exact Hst]; try done. by intros ?%not_elem_of_nil.
Qed.

(** A hit on disk. *)
Lemma requested_inv c :
  disk_flag cp = true → ctr_ok (items s) c →
  store_ok C (<[a := S (P a)]> P) W [] (<[a := requested cp]> (items s)) (next_addr s)
    (hash_tab s) (hash_count s) c (cpus s).
Proof.
  intros Hf Hc. eapply store_ok_put; [exact Hinv|exact Ha|done|done|by eapply ctr_ok_put| |].
  - rewrite fn_lookup_insert.
    destruct hit_item_ok as [? ? ? Hsh ? (st&Hst)]. split; try done; [|lia|].
    + cbn. rewrite Hsh. by apply atomic_inc_share.
    + unfold disk_flag in Hf.
      destruct Hst as [[E|[E|E]]|? E|E|E|E|E]; rewrite E in Hf; try discriminate Hf.
      * exists Requested. apply st_requested; (assumption || reflexivity || lia).
      * exists Requested. apply st_requested; (assumption || reflexivity || lia).
      * exists Cached. apply st_cached; (assumption || reflexivity).
  - intros x Hx. split; [by apply fn_lookup_insert_ne|done].
Qed.
End hit.

(** What [hand_hash] does with the digest [dst] of a chunk of [n] bytes: the
    read lists, the pending reads and the contents afterwards. *)
Inductive handed (s : store) (h : heads) C P (src : list Z) (n : Z) (dst : list Z) :
    store → heads → (Z → list Z) → (Z → nat) → Prop :=
| handed_new s' b :
    items s !! next_addr s = None →
    items s' = <[next_addr s := new_item dst src n b]> (items s) →
    handed s h C P src n dst s' h (<[next_addr s := take (Z.to_nat n) src]> C) P
| handed_full s' :
    hash_max_count < hash_count s → items s' = items s →
    handed s h C P src n dst s' h C P
| handed_memory s' a cp :
    items s !! a = Some cp → disk_flag cp = false → items s' = <[a := cited cp]> (items s) →
    handed s h C P src n dst s' h C P
| handed_disk s' a cp l :
    items s !! a = Some cp → disk_flag cp = true → h !! cpuid cp = Some l →
    items s' = <[a := requested cp]> (items s) →
    handed s h C P src n dst s' (<[cpuid cp := a :: l]> h) C (<[a := S (P a)]> P).

Lemma hand_hash_miss C P W s h src n dst :
  store_inv C P W [] s → length dst = 20%nat → 0 < n ≤ MAX_CHUNK → n ≤ Z.of_nat (length src) →
  get_hash_item s dst = Done (s, None) → (∀ a cp, items s !! a = Some cp → sha1 cp ≠ dst) →
  ∃ s' C', hand_hash s h src n dst = Done (s', h) ∧
    store_inv C' P W [] s' ∧ handed s h C P src n dst s' h C' P.
Proof.
  intros Hinv Hd Hn Hs E Hno. unfold hand_hash. rewrite E. cbn [mbind outcome_bind].
  unfold add_hash_info. destruct (Z.leb_spec (hash_count s) hash_max_count) as [Hle|Hgt].
  - destruct (hash_new_item_inv C P W s dst src n) as (b&s'&->&Hi&Hinv'); [done..|].
    cbn [mbind outcome_bind]. eexists _, _. split; [done|]. split.
    + eapply store_ok_ctr; [exact Hinv'|]. apply ctr_ok_other; [done|apply Hinv'].
    + apply (handed_new _ _ _ _ _ _ _ _ b); [|done].
      destruct (items s !! next_addr s) as [y|] eqn:Ey; [|done].
      apply (inv_fresh _ _ _ _ _ _ _ _ _ _ Hinv) in Ey. lia.
  - unfold hash_new_item. pose proof hash_max_count_range.
    destruct (inv_count _ _ _ _ _ _ _ _ _ _ Hinv) as [Hc ?].
    rewrite u64_small, (proj2 (Z.ltb_lt _ _)) by lia. cbn [mbind outcome_bind].
    eexists _, _. split; [done|]. split.
    + eapply store_ok_ctr; [exact Hinv|]. apply ctr_ok_other; [done|apply Hinv].
    + by apply handed_full.
Qed.

(** [hand_hash] is total, keeps the invariant, and does one of the four things. *)
Lemma hand_hash_inv C P W s h src n dst :
  store_inv C P W [] s → length dst = 20%nat → 0 < n ≤ MAX_CHUNK → n ≤ Z.of_nat (length src) →
  (∀ c, 0 ≤ c < num_online_cpus → is_Some (h !! c)) → (∀ a, Z.of_nat (P a) < 2 ^ 31 - 2) →
  ∃ s' h' C' P', hand_hash s h src n dst = Done (s', h') ∧
    store_inv C' P' W [] s' ∧ handed s h C P src n dst s' h' C' P'.
Proof.
  intros Hinv Hd Hn Hs Hh HP.
  destruct (get_hash_item_spec C P W [] s dst Hinv Hd) as [[E Hno]|(a&cp&Ha&<-&E)].
  { destruct (hand_hash_miss C P W s h src n dst) as (s'&C'&?&?&?); [done..|].
    by exists s', h, C', P. }
  unfold hand_hash. rewrite E. cbn [mbind outcome_bind].
  erewrite get_item_bind by apply lookup_insert_eq.
  destruct (devote_rest (flag_cache cp) (len cp) s) as (E1&E2&E3&E4&E5&_).
  assert (Hc : ctr_ok (items s) (ctr (ctr_add save_num (n - (SHALEN + 2))
    (ctr_add sum_num n (put_item a (hit cp) (devote (flag_cache cp) (len cp) s)))))).
  { do 2 (apply ctr_ok_other; [done|]). apply devote_ok, Hinv. }
  rewrite hit_split in *. destruct (disk_flag cp) eqn:Hf.
  - change (flag_cache (requested cp) =? 4) with true. cbn [negb].
    unfold request_read. rewrite Hmem.
    assert (Hr : 0 ≤ cpuid cp < num_online_cpus).
    { rewrite (disk_flag_home C P W s a cp Hinv Ha Hf). apply home_range. }
    change (cpuid (requested cp)) with (cpuid cp).
    rewrite (proj2 (Z.leb_gt _ _)) by lia. destruct (Hh (cpuid cp) Hr) as [l Hl].
    rewrite Hl. cbn [deref mbind outcome_bind]. eexists _, _, C, _. split; [done|].
    unfold store_inv. cbn [items next_addr hash_tab hash_count cpus count_alloc ctr_add put_item set_items].
    rewrite E1, E2, E3, E4, E5. split.
    + by apply requested_inv.
    + eapply handed_disk; [done..|]. cbn. by rewrite E1.
  - unfold disk_flag in Hf. apply orb_false_iff in Hf as [Hf1 Hf4].
    change (flag_cache (set_share_ref _ _)) with (flag_cache cp).
    rewrite Hf4. cbn [negb].
    destruct (hit_item_ok C P W s a cp Hinv Ha) as [_ _ _ Hsh _ _].
    assert (Eq : set_share_ref (atomic_dec (atomic_inc (share_ref cp)))
                   (set_share_ref (atomic_inc (share_ref cp)) (cited cp)) = cited cp).
    { rewrite Hsh, atomic_inc_share, atomic_dec_share by (specialize (HP a); lia).
      rewrite <- Hsh. by destruct cp. }
    change (share_ref (set_share_ref ?x _)) with x. rewrite Eq.
    eexists _, _, C, P. split; [done|].
    unfold store_inv. cbn [items next_addr hash_tab hash_count cpus ctr_add put_item set_items].
    rewrite E1, E2, E3, E4, E5, insert_insert_eq. split.
    + apply cited_inv; [done..| |done]. unfold disk_flag. by rewrite Hf1, Hf4.
    + eapply handed_memory; [done| |cbn; by rewrite E1, insert_insert_eq].
      unfold disk_flag. by rewrite Hf1, Hf4.
Qed.

(** ** Reading back *)

Lemma disk_units_spec n : 0 < n ≤ MAX_CHUNK →
  1 ≤ disk_units n ≤ 2048 ∧ n ≤ CHUNKSTEP * disk_units n < n + CHUNKSTEP.
Proof.
  unfold MAX_CHUNK, disk_units, CHUNKSTEP. intros. destruct (Z.leb_spec n 32); [lia|].
  rewrite s32_small, Z.quot_div_nonneg by lia.
  pose proof (Z.div_mod (n + 32 - 1) 32). pose proof (Z.mod_pos_bound (n + 32 - 1) 32). lia.
Qed.

(** The temporary buffer is large enough. *)
Lemma read_buffer_spec s n : 0 ≤ n → ∃ k s',
  read_buffer s n = (Live (replicate k 0), s') ∧ (Z.to_nat n ≤ k)%nat ∧
  items s' = items s ∧ next_addr s' = next_addr s ∧ hash_tab s' = hash_tab s ∧
  hash_count s' = hash_count s ∧ ctr s' = ctr s ∧ cpus s' = cpus s ∧ works s' = works s.
Proof.
  intros. unfold read_buffer, zalloc. destruct (Z.ltb_spec 512 n).
  - rewrite Hmem. by exists (Z.to_nat n), (count_alloc s).
  - exists 512%nat, s. split; [done|]. split; [lia|done].
Qed.

(** The read that [fetch_item] asks for. *)
Definition fetch_read (s : store) (cpu : Z) (cp : hashinfo_item) : Z :=
  match cpus s !! cpu with
  | Some pc => fst (kernel_read (reserve_file pc) (CHUNKSTEP * start cp) (len cp))
  | None => 0
  end.

(** The item once its data has been read back into the block [b]. *)
Definition fetched (cp : hashinfo_item) (b : list Z) : hashinfo_item :=
  set_flag_mem 1 (set_data (Live b) (set_mem_style (style_of (len cp)) cp)).

Lemma fetch_item_spec s cpu a cp pc ct :
  items s !! a = Some cp → mem_style cp = -1 → 0 < len cp ≤ MAX_CHUNK →
  len cp = Z.of_nat (length ct) → cpus s !! cpu = Some pc →
  place_ok (fview (reserve_file pc)) (loff_file pc) (start cp) ct →
  loff_file pc ≤ Z.of_nat (length (fview (reserve_file pc))) → loff_file pc < 2 ^ 62 →
  wp (fetch_read s cpu cp < 0) (fetch_item s cpu a) (λ s', ∃ b,
    take (length ct) b = ct ∧ (length ct ≤ length b)%nat ∧
    items s' = <[a := fetched cp b]> (items s) ∧ next_addr s' = next_addr s ∧
    hash_tab s' = hash_tab s ∧ hash_count s' = hash_count s ∧ cpus s' = cpus s ∧
    works s' = works s ∧
    ctr s' = ctr (ctr_add rdf 1 (ctr_add rdl (len cp)
               (ctr_add (mm_of (style_of (len cp))) (len cp) s)))).
Proof.
  intros Ha Hs Hl Hct Hpc (Hst&Hlim&_&Hslice) Hlen Hloff.
  destruct (disk_units_spec _ Hl) as [_ Hu]. rewrite <- Hct in Hlim. unfold CHUNKSTEP in *.
  unfold fetch_item. rewrite (get_item_bind _ _ cp) by done.
  destruct (alloc_data_memory_spec Hmem s a cp Ha Hs Hl) as (b&Hb&->).
  cbn [mbind outcome_bind].
  match goal with |- context [read_buffer ?x ?n] =>
    destruct (read_buffer_spec x n) as (k&s1&->&Hk&E1&E2&E3&E4&E5&E6&E7); [lia|] end.
  unfold percpu_of. rewrite E6. cbn [ctr_add put_item set_items count_alloc cpus].
  rewrite Hpc. cbn [deref mbind outcome_bind].
  unfold fetch_read. rewrite Hpc. unfold MAX_CHUNK, CHUNKSTEP in *.
  rewrite (Z.mul_comm (start cp)), !(u64_small (len cp)), (u64_small (32 * start cp)),
    s64_small by lia.
  pose proof (kernel_read_spec (reserve_file pc) (32 * start cp) (len cp)) as Hread.
  destruct (kernel_read _ _ _) as [ret bytes]. cbn [fst snd] in *.
  destruct (Z.ltb_spec ret 0); [done|]. rewrite Hread by lia. clear Hread.
  rewrite Hct, Nat2Z.id, Hslice.
  rewrite memcpy_spec by (rewrite length_replicate; lia). cbn [mbind outcome_bind mem_bytes].
  rewrite read_bytes_spec by (rewrite length_app; lia). cbn [mbind outcome_bind].
  unfold copy_data. cbn [items ctr_add put_item set_items]. rewrite take_app_length.
  erewrite get_item_bind by (cbn; rewrite E1; apply lookup_insert_eq).
  cbn [data set_data set_mem_style]. rewrite memcpy_spec by lia. cbn [mbind outcome_bind].
  erewrite get_item_bind by apply lookup_insert_eq.
  cbn [wp]. eexists. split; [apply take_app_length|]. split; [rewrite length_app; lia|].
  cbn [items next_addr hash_tab hash_count ctr cpus works ctr_add put_item set_items].
  rewrite E1, E2, E3, E4, E5, E6, E7. cbn. unfold fetched.
  by rewrite !insert_insert_eq, Hct.
Qed.

(** An item with reads pending is in state 4. *)
Lemma pending_state cs W K ct n cp st :
  item_state cs W K ct n cp st → n ≠ 0%nat →
  flag_cache cp = 4 ∧ cpuid cp = home (bkt_of (sha1 cp)) ∧ on_disk cs (cpuid cp) (start cp) ct ∧
  (flag_mem cp = 0 ∧ mem_style cp = -1 ∨ flag_mem cp = 1 ∧ mem_ok cp ct).
Proof.
  destruct 1; intros; try congruence;
    (do 3 (split; [assumption|])); [left|right]; by split.
Qed.

(** The end of a read: the request is gone, the data is in memory. *)
Lemma read_done_inv C P W s a cp cp' c :
  store_inv C P W [] s → items s !! a = Some cp → P a ≠ 0%nat →
  sha1 cp' = sha1 cp → len cp' = len cp → cpuid cp' = cpuid cp → start cp' = start cp →
  share_ref cp' = atomic_dec (share_ref cp) → flag_cache cp' = 4 → flag_mem cp' = 1 →
  mem_ok cp' (C a) → ctr_ok (<[a := cp']> (items s)) c →
  store_ok C (<[a := pred (P a)]> P) W [] (<[a := cp']> (items s)) (next_addr s)
    (hash_tab s) (hash_count s) c (cpus s).
Proof.
  intros Hinv Ha HP E1 E2 E3 E4 E5 E6 E7 Hm Hc.
  eapply store_ok_put; [exact Hinv|exact Ha|done|done|done| |].
  - rewrite fn_lookup_insert.
    destruct (inv_item _ _ _ _ _ _ _ _ _ _ Hinv _ _ Ha) as [? ? ? Hsh ? (st&Hst)].
    destruct (pending_state _ _ _ _ _ _ _ Hst HP) as (_&Hcpu&Hd&_).
    split; [congruence..| |lia|].
    + rewrite E5, Hsh. destruct (P a) as [|n]; [congruence|]. rewrite atomic_dec_share; simpl; lia.
    + exists Cached. apply st_cached; [done|congruence|done|done|congruence].
  - intros x Hx. split; [by apply fn_lookup_insert_ne|done].
Qed.

(** A pending read is served: it only stops on a read error, and the data of
    the item is the contents it had when it was stored. *)
Lemma read_item_inv C P W s cpu a cp :
  store_inv C P W [] s → items s !! a = Some cp → P a ≠ 0%nat → cpu = cpuid cp →
  wp (fetch_read s cpu cp < 0) (read_item cpu s a) (λ s',
    store_inv C (<[a := pred (P a)]> P) W [] s' ∧
    ∃ cp', items s' = <[a := cp']> (items s) ∧ sha1 cp' = sha1 cp ∧
      flag_cache cp' = flag_cache cp ∧ mem_ok cp' (C a) ∧ length (C a) = Z.to_nat (len cp')).
Proof.
  intros Hinv Ha HP ->. unfold read_item. rewrite (get_item_bind _ _ cp) by done.
  destruct (inv_item _ _ _ _ _ _ _ _ _ _ Hinv _ _ Ha) as [_ Hlen Hr Hsh _ (st&Hst)].
  destruct (pending_state _ _ _ _ _ _ _ Hst HP) as (Hf4&Hcpu&(pc&Hpc&Hplace)&Hmode).
  destruct Hmode as [[Hfm Hs]|[Hfm Hm]]; rewrite Hfm;
    [change (0 =? 0) with true|change (1 =? 0) with false]; cbv iota.
  - destruct (inv_cpus _ _ _ _ _ _ _ _ _ _ Hinv (cpuid cp)) as (pc'&Hpc'&Hcok);
      [rewrite Hcpu; apply home_range|].
    rewrite Hpc in Hpc'. injection Hpc' as <-. destruct Hcok as [_ Hix Hlo Hpos Hlf Hus].
    pose proof bitmap_size_range. apply wp_bind.
    eapply wp_mono; [|apply (fetch_item_spec s (cpuid cp) a cp pc (C a)); try done].
    2: { unfold CHUNKSTEP in *. assert (0 ≤ used (W (cpuid cp))) by (destruct (W _); simpl; lia). lia. }
    intros s' (b&Hb&Hbl&E1&E2&E3&E4&E5&E6&E7).
    erewrite get_item_bind by (rewrite E1; apply lookup_insert_eq). cbn [wp].
    assert (Hc : ctr_ok (<[a := fetched cp b]> (items s)) (ctr s')).
    { rewrite E7. do 2 (apply ctr_ok_other; [done|]). 
      apply (ctr_ok_alloc (items s) s a cp (fetched cp b)); [apply Hinv|done|done|apply style_of_range|done]. }
    split; [|eexists; cbn; rewrite E1, insert_insert_eq; split; [done|];
      do 2 (split; [reflexivity|]); split; [|cbn; lia]].
    + unfold store_inv. cbn. rewrite E1, E2, E3, E4, E5, insert_insert_eq.
      eapply read_done_inv; [done..| |].
      * split; [reflexivity|]. exists b. split; [reflexivity|]. by split.
      * rewrite <- (insert_insert_eq (items s) a _ (fetched cp b)).
        by eapply ctr_ok_put; [exact Hc|apply lookup_insert_eq|..].
    + split; [reflexivity|]. exists b. split; [reflexivity|]. by split.
  - cbn [mbind outcome_bind]. rewrite (get_item_bind _ _ cp) by done. cbn [wp]. split.
    + apply (read_done_inv C P W s a cp); try done.
      eapply ctr_ok_put; [apply Hinv|done..].
    + eexists. do 3 (split; [reflexivity|]). split; [exact Hm|]. cbn [len set_share_ref]. lia.
Qed.
End table.
