(* ===== verification/AgingOps.v ===== *)
(** The aging of a bucket, the expiry of its items and the flush of the table
    keep the invariant, do not fault and do not stop the machine. *)
From S2P Require Import Prelude JenHash Rabin Bitmap Store HashTable Aging NfIn StoreInv StoreOps.
#[local] Open Scope Z_scope.

Section evict.
  Context `{AllocatorLaws} `{VFSLaws} `{StoreParamsLaws} `{BitSearchLaws}
    (Hmem : ∀ n, alloc_ok n = true).
  Implicit Types (s : store) (C : Z → list Z) (P : Z → nat) (W : Z → option writing).

(** ** Freeing the data of an item *)

(** [cp'] is [cp] without data in memory. *)
Definition stripped (cp cp' : hashinfo_item) : Prop :=
  mem_style cp' = -1 ∧ sha1 cp' = sha1 cp ∧ len cp' = len cp ∧ cpuid cp' = cpuid cp ∧
  start cp' = start cp ∧ flag_cache cp' = flag_cache cp ∧ share_ref cp' = share_ref cp ∧
  flag_mem cp' = flag_mem cp ∧ store_flag cp' = store_flag cp.

(** An item nobody reads, in a state a timer or a flush may find it in. *)
Lemma idle_state cs W ct cp st :
  item_state cs W (∀ P : Prop, P) ct 0 cp st →
  has_data (flag_cache cp) = true ∧ mem_style cp = style_of (len cp) ∨
  has_data (flag_cache cp) = false ∧ mem_style cp = -1.
Proof.
  destruct 1 as [E _ _ [Hm _] _|HF|E _ _ [Hm _]|E|? ? ? ? HF|E _ _ [Hm _]];
    try (exfalso; apply HF || lia); [left|left|right|left]; (split; [|assumption]);
    first [rewrite E; done|destruct E as [E|[E|E]]; rewrite E; done].
Qed.

Lemma evict_spec C P W s a cp b :
  store_inv C P W [] s → items s !! a = Some cp → P a = 0%nat →
  ∃ cp' s', evict b s a = Done s' ∧ stripped cp cp' ∧ items s' = <[a := cp']> (items s) ∧
    next_addr s' = next_addr s ∧
    hash_tab s' = <[b := filter (.≠ a) (bucket s b)]> (hash_tab s) ∧
    hash_count s' = atomic_dec (hash_count s) ∧ cpus s' = cpus s ∧ works s' = works s ∧
    ctr_ok (items s') (ctr s').
Proof.
  intros Hinv Ha HP.
  destruct (inv_item _ _ _ _ _ _ _ _ _ _ Hinv _ _ Ha) as [_ _ _ _ _ (st&Hst)].
  rewrite HP in Hst. eapply (item_state_mono _ _ _ _ _ (∀ P : Prop, P)) in Hst;
    [|apply disk_le_refl|by intros ?%not_elem_of_nil].
  unfold evict. rewrite (get_item_bind _ _ cp) by done. cbv zeta.
  destruct (idle_state _ _ _ _ _ Hst) as [[-> Hs]|[-> Hs]].
  - rewrite (free_data_memory_spec _ a cp) by done. cbn [mbind outcome_bind].
    eexists (set_mem_style (-1) (set_data Freed cp)), _. do 6 (split; [done|]).
    do 2 (split; [done|]). apply ctr_ok_other; [done|]. cbn [items]. rewrite <- Hs.
    apply (ctr_ok_free (items s) _ a cp); [apply Hinv|done| |done].
    rewrite Hs. apply style_of_range.
  - eexists cp, _. split; [done|]. split; [done|].
    cbn [items next_addr hash_tab hash_count cpus works set_hash_count list_del set_hash_tab].
    rewrite insert_id by done. do 6 (split; [done|]). apply Hinv.
Qed.

(** ** The flush *)

Lemma flush_body_inv C P W s a cp b :
  store_inv C P W [] s → items s !! a = Some cp → bkt_of (sha1 cp) = b → P a = 0%nat →
  ∃ s', flush_body b s a = Done s' ∧ store_inv C P W [] s' ∧
    items s' = delete a (items s) ∧
    hash_tab s' = <[b := filter (.≠ a) (bucket s b)]> (hash_tab s).
Proof.
  intros Hinv Ha Hb HP. unfold flush_body.
  destruct (evict_spec C P W s a cp b Hinv Ha HP) as (cp'&s'&->&Hst&E1&E2&E3&E4&E5&E6&Hc).
  cbn [mbind outcome_bind]. eexists. split; [done|].
  unfold store_inv. cbn [free_item items next_addr hash_tab hash_count cpus ctr set_items].
  rewrite E1, delete_insert_eq, E2, E3, E4, E5. split; [|done].
  eapply store_ok_delete; [exact Hinv|exact Ha|done|done|].
  rewrite <- (delete_insert_eq _ a cp'), <- E1.
  eapply ctr_ok_delete; [exact Hc|rewrite E1; apply lookup_insert_eq|apply Hst].
Qed.

(** What is left to flush in bucket [b] is the rest of its list. *)
Lemma flush_bucket_inv C P W s b :
  store_inv C P W [] s → (∀ a, P a = 0%nat) →
  wp False (flush_bucket s b) (λ s', store_inv C P W [] s' ∧ bucket s' b = [] ∧
    ∀ b', b' ≠ b → bucket s' b' = bucket s b').
Proof.
  intros Hinv HP. unfold flush_bucket.
  apply (wp_ofold False (flush_body b)
    (λ s' l, store_inv C P W [] s' ∧ bucket s' b = l ∧ ∀ b', b' ≠ b → bucket s' b' = bucket s b'));
    [|done].
  clear Hinv. intros s' a l (Hinv&Hl&Ho).
  assert (Ha : a ∈ bucket s' b) by (rewrite Hl; apply list_elem_of_here).
  apply (inv_tab _ _ _ _ _ _ _ _ _ _ Hinv) in Ha as (cp&Ha&Hb).
  destruct (flush_body_inv C P W s' a cp b) as (s1&->&Hinv1&_&E); [done..|]. cbn [wp].
  pose proof (inv_nodup _ _ _ _ _ _ _ _ _ _ Hinv b) as Hnd.
  change (bucket_in (hash_tab s') b) with (bucket s' b) in Hnd. rewrite Hl in Hnd.
  split; [done|]. unfold bucket at 1 2. rewrite E. split.
  - rewrite lookup_insert_eq, Hl. by apply remove_head.
  - intros b' Hb'. rewrite lookup_insert_ne by congruence. by apply Ho.
Qed.

Lemma hash_flush_inv C P W s :
  store_inv C P W [] s → (∀ a, P a = 0%nat) →
  wp False (hash_flush s) (λ s', store_inv C P W [] s' ∧ items s' = ∅).
Proof.
  intros Hinv HP. unfold hash_flush.
  eapply wp_mono; [|apply (wp_ofold False flush_bucket (λ s' l, store_inv C P W [] s' ∧
    ∀ b, 0 ≤ b < hash_tab_size → b ∉ l → bucket s' b = []))].
  - intros s' [Hinv' He]. split; [done|]. apply map_eq. intros a. rewrite lookup_empty.
    destruct (items s' !! a) as [cp|] eqn:Ha; [|done].
    assert (Hin : a ∈ bucket s' (bkt_of (sha1 cp)))
      by (apply (inv_tab _ _ _ _ _ _ _ _ _ _ Hinv'); by exists cp).
    rewrite He in Hin; [by apply not_elem_of_nil in Hin|apply bkt_of_range|apply not_elem_of_nil].
  - clear Hinv. intros s' b l [Hinv He]. eapply wp_mono; [|by apply flush_bucket_inv].
    intros s1 (Hinv1&Hb&Ho). split; [done|]. intros b' Hr Hl.
    destruct (decide (b' = b)) as [->|Hne]; [done|]. rewrite Ho by done.
    apply He; [done|]. rewrite not_elem_of_cons. done.
  - split; [done|]. intros b Hr Hl. exfalso. apply Hl, elem_of_seqZ. lia.
Qed.

(** ** Expiry *)

Lemma clear_bit_fold m l :
  (∀ i, i ∈ l → 0 ≤ i < 8 * bitmap_size) →
  ofold clear_bit m l = Done (m ∖ list_to_set l).
Proof.
  revert m. induction l as [|i l IH]; intros m Hl; cbn [ofold].
  - f_equal. clear Hl. set_solver.
  - assert (clear_bit m i = Done (m ∖ {[ i ]})) as ->
      by (unfold clear_bit; rewrite decide_True; [done|apply Hl, list_elem_of_here]).
    cbn [mbind outcome_bind]. rewrite IH.
    + f_equal. clear Hl IH. set_solver.
    + intros j Hj. by apply Hl, list_elem_of_further.
Qed.

(** The place an item has on the disk of its CPU. *)
Definition placed (cs : gmap Z percpu) (cp : hashinfo_item) : Prop :=
  0 ≤ cpuid cp < num_online_cpus ∧
  ∃ pc, cs !! cpuid cp = Some pc ∧ 0 ≤ start cp ∧
    start cp + disk_units (len cp) ≤ bitmap_index pc.

Lemma place_of_state C P W s cp ct n st :
  store_inv C P W [] s → len cp = Z.of_nat (length ct) →
  item_state (cpus s) W (∀ P : Prop, P) ct n cp st → has_place cp = true → placed (cpus s) cp.
Proof.
  intros Hinv Hl Hst Hp.
  assert (Hd : cpuid cp = home (bkt_of (sha1 cp)) →
    on_disk (cpus s) (cpuid cp) (start cp) ct ∨ on_virt (cpus s) W (cpuid cp) (start cp) ct →
    placed (cpus s) cp).
  { intros Hc Hd. split; [rewrite Hc; apply home_range|].
    destruct (inv_cpus _ _ _ _ _ _ _ _ _ _ Hinv (cpuid cp)) as (pc&Hpc&[_ _ _ Hpos _ Hu]);
      [rewrite Hc; apply home_range|].
    assert (0 ≤ used (W (cpuid cp))) by (destruct (W _); simpl; lia). unfold CHUNKSTEP in Hpos.
    exists pc. split; [done|]. rewrite Hl.
    destruct Hd as [(pc'&Hpc'&H1'&H2'&_)|(pc'&Hpc'&H1'&H2'&_)];
      rewrite Hpc in Hpc'; injection Hpc' as <-; unfold CHUNKSTEP in H2'; lia. }
  unfold has_place in Hp. destruct Hst as [E Hc|HF|? ? ? ? ? ?|? ? ? ? ? ?|? ? ? ? ? ?|? ? ? ? ?].
  - exfalso. rewrite Hc in Hp. destruct E as [E|[E|E]]; rewrite E in Hp; discriminate Hp.
  - apply HF.
  - apply Hd; [done|by right].
  - apply Hd; [done|by left].
  - apply Hd; [done|by left].
  - apply Hd; [done|by left].
Qed.

(** Clearing bits does not fault; the files stay as they are. *)
Lemma clear_bits_spec C P W m next tab count c s cp :
  store_ok C P W [] m next tab count c (cpus s) → placed (cpus s) cp →
  ∃ s', clear_bits s cp = Done s' ∧ items s' = items s ∧ next_addr s' = next_addr s ∧
    hash_tab s' = hash_tab s ∧ hash_count s' = hash_count s ∧ ctr s' = ctr s ∧
    works s' = works s ∧ store_ok C P W [] m next tab count c (cpus s').
Proof.
  intros Hok (Hr&pc&Hpc&Hst&Hlim).
  destruct (inv_cpus _ _ _ _ _ _ _ _ _ _ Hok _ Hr) as (pc'&Hpc'&[Hbits Hix Hlo Hpos Hlen Hu]).
  rewrite Hpc in Hpc'. injection Hpc' as <-.
  unfold clear_bits, percpu_of. rewrite Hpc. cbn [deref mbind outcome_bind].
  rewrite clear_bit_fold.
  2: { intros i Hi%elem_of_seqZ. lia. }
  cbn [mbind outcome_bind]. eexists. split; [done|]. do 6 (split; [done|]).
  eapply store_ok_cpus; [exact Hok| |].
  - intros h st ct. cbn. split; intros (pc'&Hpc'&Hp);
      (destruct (decide (h = cpuid cp)) as [->|Hne];
        [rewrite Hpc in Hpc'; injection Hpc' as <-; eexists; rewrite lookup_insert_eq; by split
        |exists pc'; by rewrite lookup_insert_ne]).
  - intros h Hh. cbn. destruct (decide (h = cpuid cp)) as [->|Hne].
    + rewrite lookup_insert_eq. eexists. split; [done|]. split; try done. cbn.
      intros i [Hi _]%elem_of_difference. by apply Hbits.
    + rewrite lookup_insert_ne by done. by apply (inv_cpus _ _ _ _ _ _ _ _ _ _ Hok).
Qed.

Lemma expire_item_inv C P W s a cp b :
  store_inv C P W [] s → items s !! a = Some cp → bkt_of (sha1 cp) = b → P a = 0%nat →
  ∃ s', expire_item b s a = Done s' ∧ store_inv C P W [] s' ∧
    items s' = delete a (items s) ∧
    hash_tab s' = <[b := filter (.≠ a) (bucket s b)]> (hash_tab s).
Proof.
  intros Hinv Ha Hb HP. unfold expire_item.
  destruct (inv_item _ _ _ _ _ _ _ _ _ _ Hinv _ _ Ha) as [_ Hl _ _ _ (st&Hst)].
  eapply (item_state_mono _ _ _ _ _ (∀ P : Prop, P)) in Hst;
    [|apply disk_le_refl|by intros ?%not_elem_of_nil].
  destruct (evict_spec C P W s a cp b Hinv Ha HP) as (cp'&s1&->&Hs&E1&E2&E3&E4&E5&E6&Hc).
  cbn [mbind outcome_bind]. erewrite get_item_bind by (rewrite E1; apply lookup_insert_eq).
  destruct Hs as (Hms&_&Hsl&Hsc&Hss&Hsf&_).
  assert (Hpl : has_place cp' = has_place cp) by (unfold has_place; by rewrite Hsf, Hsc).
  assert (Hok : store_ok C P W [] (delete a (items s)) (next_addr s)
    (<[b := filter (.≠ a) (bucket s b)]> (hash_tab s)) (atomic_dec (hash_count s)) (ctr s1) (cpus s1)).
  { rewrite E5. eapply store_ok_delete; [exact Hinv|exact Ha|done|done|].
    rewrite <- (delete_insert_eq _ a cp'), <- E1.
    eapply ctr_ok_delete; [exact Hc|rewrite E1; apply lookup_insert_eq|done]. }
  assert (∃ s2, (if has_place cp' then clear_bits s1 cp' else Done s1) = Done s2 ∧
    items s2 = items s1 ∧ next_addr s2 = next_addr s1 ∧ hash_tab s2 = hash_tab s1 ∧
    hash_count s2 = hash_count s1 ∧ ctr s2 = ctr s1 ∧ works s2 = works s1 ∧
    store_ok C P W [] (delete a (items s)) (next_addr s)
      (<[b := filter (.≠ a) (bucket s b)]> (hash_tab s)) (atomic_dec (hash_count s)) (ctr s1)
      (cpus s2)) as (s2&->&F1&F2&F3&F4&F5&F6&Hok2).
  { rewrite Hpl. destruct (has_place cp) eqn:Hp;
      [|exists s1; do 7 (split; [reflexivity|]); exact Hok].
    eapply clear_bits_spec; [exact Hok|].
    assert (placed (cpus s) cp) as (Hr&pc&?&?&?) by by eapply place_of_state.
    unfold placed. rewrite E5, Hsc, Hss, Hsl. split; [assumption|].
    exists pc. split; [assumption|]. by split. }
  cbn [mbind outcome_bind]. eexists. split; [done|]. unfold store_inv, free_item.
  destruct (_ =? 1); cbn [items next_addr hash_tab hash_count ctr cpus set_items ctr_add];
    rewrite F1, E1, delete_insert_eq, F2, F3, F4, E2, E3, E4; (split; [|by split]).
  - eapply store_ok_ctr; [exact Hok2|]. apply ctr_ok_other; [done|]. rewrite F5. apply Hok2.
  - by rewrite F5.
Qed.

(** ** Aging *)

(** What [age_item] leaves of an item. *)
Definition aged (cp : hashinfo_item) : hashinfo_item :=
  let cp := set_refcnt (atomic_dec (refcnt cp)) cp in
  let cp := if (ITEM_VIP_LIMIT <=? refcnt cp) && (flag_cache cp =? 0)
            then set_flag_cache 3 cp else cp in
  let cp := to_disk_candidate cp in
  let cp := if (ITEM_VIP_LIMIT <=? refcnt cp) && (flag_cache cp =? 2) && (cpuid cp <? 0)
            then set_flag_cache 3 cp else cp in
  if (ITEM_DISK_LIMIT <? refcnt cp) && (store_flag cp =? 0) then set_store_flag 1 cp else cp.

Lemma age_item_spec s a cp flag :
  items s !! a = Some cp →
  ∃ flag' s', age_item s a flag = Done (s', flag') ∧ items s' = <[a := aged cp]> (items s) ∧
    next_addr s' = next_addr s ∧ hash_tab s' = hash_tab s ∧ hash_count s' = hash_count s ∧
    cpus s' = cpus s ∧ works s' = works s ∧ ∀ m, ctr_ok m (ctr s) → ctr_ok m (ctr s').
Proof.
  intros Ha. unfold age_item. rewrite (get_item_bind _ _ cp) by done.
  unfold aged, to_vip, back_to_vip. cbv zeta.
  set (cp1 := set_refcnt _ cp). destruct ((_ <=? _) && (flag_cache cp1 =? 0));
  match goal with |- context [to_disk_candidate ?x] => set (cp2 := to_disk_candidate x) end;
  destruct ((_ <=? _) && (flag_cache cp2 =? 2) && (_ <? _));
  (eexists _, _; split; [done|]; do 6 (split; [done|]); intros m Hm;
   repeat (apply ctr_ok_other; [done|]); exact Hm).
Qed.

(** Aging moves an item between the states in memory only. *)
Lemma aged_flag cp :
  flag_cache (aged cp) = flag_cache cp ∨
  (flag_cache cp = 0 ∧ (flag_cache (aged cp) = 2 ∨ flag_cache (aged cp) = 3)) ∨
  (flag_cache cp = 2 ∧ cpuid cp < 0 ∧ flag_cache (aged cp) = 3).
Proof.
  unfold aged, to_disk_candidate. cbv zeta. set (r := atomic_dec _).
  destruct cp as [r0 sr l sh d ms cpu st f fm sf].
  repeat match goal with
  | |- context [if ?b then _ else _] =>
    lazymatch b with context [if _ then _ else _] => fail | _ => destruct b eqn:?; cbn in * end
  end; lia.
Qed.

Lemma aged_same cp :
  sha1 (aged cp) = sha1 cp ∧ len (aged cp) = len cp ∧ cpuid (aged cp) = cpuid cp ∧
  start (aged cp) = start cp ∧ data (aged cp) = data cp ∧ mem_style (aged cp) = mem_style cp ∧
  flag_mem (aged cp) = flag_mem cp ∧ share_ref (aged cp) = share_ref cp.
Proof.
  unfold aged, to_disk_candidate. cbv zeta.
  do 8 try split; repeat (match goal with |- context [if ?b then _ else _] =>
    lazymatch b with context [if _ then _ else _] => fail | _ => destruct b end end; cbn); done.
Qed.

Lemma aged_state cs W ct n cp st :
  item_state cs W False ct n cp st → ∃ st', item_state cs W False ct n (aged cp) st'.
Proof.
  destruct (aged_same cp) as (E1&E2&E3&E4&E5&E6&E7&E8). intros Hst.
  destruct (aged_flag cp) as [Ef|Ef].
  - exists st. eapply item_state_fields; [..|exact Hst]; (assumption || contradiction).
  - assert (Hm : ∀ ct, mem_ok cp ct → mem_ok (aged cp) ct)
      by (intros ct'; unfold mem_ok; by rewrite E5, E6, E2).
    pose proof (Z.mod_pos_bound (bkt_of (sha1 cp)) num_online_cpus num_online_cpus_pos) as Hh.
    exists InMemory.
    destruct Hst as [? Hc ? ? ?|[]|E Hc|E|E|E].
    + apply st_memory; [lia|congruence|congruence|by apply Hm|done].
    + unfold home in Hc. lia.
    + lia.
    + lia.
    + lia.
Qed.

Lemma age_item_inv C P W s a cp flag :
  store_inv C P W [] s → items s !! a = Some cp →
  ∃ flag' s', age_item s a flag = Done (s', flag') ∧ store_inv C P W [] s' ∧
    items s' = <[a := aged cp]> (items s) ∧ hash_tab s' = hash_tab s.
Proof.
  intros Hinv Ha.
  destruct (age_item_spec s a cp flag Ha) as (flag'&s'&->&E1&E2&E3&E4&E5&E6&Hc).
  exists flag', s'. split; [done|]. split; [|by split].
  destruct (aged_same cp) as (F1&F2&_&_&_&F6&_&F8).
  unfold store_inv. rewrite E1, E2, E3, E4, E5.
  eapply store_ok_put; [exact Hinv|exact Ha|done|done| | |by split].
  - apply Hc. eapply ctr_ok_put; [apply Hinv|done..].
  - destruct (inv_item _ _ _ _ _ _ _ _ _ _ Hinv _ _ Ha) as [? ? ? ? ? (st&Hst)].
    split; [congruence..|done|].
    eapply item_state_mono in Hst; [|apply disk_le_refl|apply not_elem_of_nil].
    destruct (aged_state _ _ _ _ _ _ Hst) as [st' Hst']. exists st'.
    by eapply item_state_mono; [apply disk_le_refl| |exact Hst'].
Qed.

(** ** A pass of the timer *)

(** What a pass leaves of an item. *)
Definition survive (cp : hashinfo_item) : option hashinfo_item :=
  if (share_ref cp =? 1) && (refcnt cp <=? 1) then None else Some (aged cp).

Lemma clear_body_inv C P W s a cp b flag :
  store_inv C P W [] s → items s !! a = Some cp → bkt_of (sha1 cp) = b →
  ∃ s' flag', clear_body b (s, flag) a = Done (s', flag') ∧ store_inv C P W [] s' ∧
    items s' = partial_alter (λ _, survive cp) a (items s) ∧
    ∀ x, x ≠ a → x ∈ bucket s b → x ∈ bucket s' b.
Proof.
  intros Hinv Ha Hb. unfold clear_body. rewrite (get_item_bind _ _ cp) by done. unfold survive.
  destruct ((share_ref cp =? 1) && (refcnt cp <=? 1)) eqn:Hx.
  - apply andb_true_iff in Hx as [Hs%Z.eqb_eq _].
    pose proof (ok_share _ _ _ _ _ _ (inv_item _ _ _ _ _ _ _ _ _ _ Hinv _ _ Ha)) as Hsh.
    destruct (expire_item_inv C P W s a cp b) as (s'&->&Hinv'&E1&E2); [done..|lia|].
    cbn [mbind outcome_bind]. exists s', flag. split; [done|]. split; [done|]. split; [exact E1|].
    intros x Hne Hin. unfold bucket. rewrite E2, lookup_insert_eq. simpl.
    by apply list_elem_of_filter.
  - destruct (age_item_inv C P W s a cp flag Hinv Ha) as (flag'&s'&->&Hinv'&E1&E2).
    exists s', flag'. split; [done|]. split; [done|]. split; [exact E1|].
    unfold bucket. by rewrite E2.
Qed.

(** The store after a pass over bucket [b]: its items age or expire. *)
Definition passed (s : store) (b : Z) (done : list Z) (m : gmap Z hashinfo_item) : Prop :=
  ∀ x, m !! x = if decide (x ∈ done) then items s !! x ≫= survive else items s !! x.

Lemma bucket_clear_item_inv C P W s b :
  store_inv C P W [] s →
  wp False (bucket_clear_item s b) (λ s',
    store_inv C P W [] s' ∧ passed s b (bucket s b) (items s')).
Proof.
  intros Hinv. unfold bucket_clear_item. apply wp_bind.
  eapply wp_mono; [|apply (wp_ofold False (clear_body b) (λ sf l,
    store_inv C P W [] (fst sf) ∧ ∃ d, bucket s b = d ++ l ∧ passed s b d (items (fst sf)) ∧
      ∀ x, x ∈ l → x ∈ bucket (fst sf) b))].
  - intros [s' flag] (Hinv'&d&Hd&Hp&_). rewrite app_nil_r in Hd. subst d.
    by destruct flag.
  - intros [s' flag] a l (Hinv'&d&Hd&Hp&Hl). cbn [fst] in *.
    assert (Hin : a ∈ bucket s' b) by (apply Hl, list_elem_of_here).
    apply (inv_tab _ _ _ _ _ _ _ _ _ _ Hinv') in Hin as (cp&Ha&Hb).
    destruct (clear_body_inv C P W s' a cp b flag) as (s1&f1&->&Hinv1&E&Hk); [done..|].
    pose proof (inv_nodup _ _ _ _ _ _ _ _ _ _ Hinv b) as Hnd.
    change (bucket_in (hash_tab s) b) with (bucket s b) in Hnd. rewrite Hd in Hnd.
    apply NoDup_app in Hnd as (_&Hdl&[Hal _]%NoDup_cons). split; [done|].
    exists (d ++ [a]). split; [by rewrite Hd, <- app_assoc|]. split.
    + intros x. cbn [fst]. rewrite E. pose proof (Hp a) as Hpa.
      rewrite decide_False in Hpa by (intros Had; apply (Hdl a Had), list_elem_of_here).
      destruct (decide (x = a)) as [->|Hne].
      * rewrite lookup_partial_alter_eq, decide_True by set_solver.
        by rewrite <- Hpa, Ha.
      * rewrite lookup_partial_alter_ne, Hp by done.
        by destruct (decide (x ∈ d)), (decide (x ∈ d ++ [a])); set_solver.
    + intros x Hx. apply Hk; [congruence|]. by apply Hl, list_elem_of_further.
  - split; [done|]. exists []. split; [done|]. split; [|done].
    intros x. by rewrite decide_False by apply not_elem_of_nil.
Qed.
End evict.
