(* ===== verification/DiskOps.v ===== *)
(** The three passes of [wr_file] and the write between them keep the
    invariant; they stop the machine when the bitmap is full or the write fails,
    and only then. *)
From S2P Require Import Prelude JenHash Rabin Bitmap Store HashTable Aging NfIn StoreInv StoreOps.
#[local] Open Scope Z_scope.

(** ** Lists of live addresses *)

Lemma length_le_size {A} (m : gmap Z A) (l : list Z) :
  NoDup l → (∀ a, a ∈ l → is_Some (m !! a)) → (length l ≤ size m)%nat.
Proof.
  intros Hnd Hl. rewrite <- size_dom, <- (size_list_to_set (C := gset Z) l) by done.
  apply subseteq_size. intros a Ha%elem_of_list_to_set. by apply elem_of_dom, Hl.
Qed.

(** The disk bytes of the marked items of a list. *)
Definition marked_bytes (m : gmap Z hashinfo_item) (l : list Z) : Z :=
  foldr (λ a acc, match m !! a with
                  | Some cp => if cpuid cp =? -2 then disk_units (len cp) * CHUNKSTEP + acc else acc
                  | None => acc end) 0 l.

Lemma marked_bytes_cons m a l cp : m !! a = Some cp →
  marked_bytes m (a :: l) =
  if cpuid cp =? -2 then disk_units (len cp) * CHUNKSTEP + marked_bytes m l else marked_bytes m l.
Proof. simpl. by intros ->. Qed.

Lemma marked_bytes_app m l k : marked_bytes m (l ++ k) = marked_bytes m l + marked_bytes m k.
Proof.
  induction l as [|a l IH]; [done|]. simpl. destruct (m !! a) as [cp|]; [|done].
  destruct (cpuid cp =? -2); lia.
Qed.

Lemma marked_bytes_insert m l a cp : a ∉ l → marked_bytes (<[a := cp]> m) l = marked_bytes m l.
Proof.
  induction l as [|x l IH]; [done|]. rewrite not_elem_of_cons. intros [Hx Hl]. simpl.
  by rewrite lookup_insert_ne, IH by done.
Qed.

Section disk.
  Context `{AllocatorLaws} `{VFSLaws} `{StoreParamsLaws} `{BitSearchLaws}
    (Hmem : ∀ n, alloc_ok n = true).
  Implicit Types (s : store) (C : Z → list Z) (P : Z → nat) (W : Z → option writing).

Lemma bucket_length C P W K s b :
  store_inv C P W K s → Z.of_nat (length (bucket s b)) < 2 ^ 31.
Proof.
  intros Hinv. destruct (inv_count _ _ _ _ _ _ _ _ _ _ Hinv) as [Hc Hm].
  pose proof hash_max_count_range.
  assert (length (bucket s b) ≤ size (items s))%nat; [|lia].
  apply length_le_size; [apply Hinv|]. intros a Ha. by eapply inv_bucket.
Qed.

(** Marks may be forgotten where there are none. *)
Lemma store_ok_unmark C P W K K' m next tab count c cs :
  store_ok C P W K m next tab count c cs →
  (∀ a cp, m !! a = Some cp → a ∈ K → a ∈ K' ∨ cpuid cp ≠ -2) →
  store_ok C P W K' m next tab count c cs.
Proof.
  intros [Hi Ht Hn Hu Hc Hf Hp Hm Hcs] HK. split; try done.
  intros a cp Ha. destruct (Hi a cp Ha) as [? ? ? ? ? (st&Hst)]. split; try done. exists st.
  destruct Hst as [|HaK ? Hc2|?|?|?|?]; [by apply st_memory| |by apply st_staged|by apply st_disk
    |by apply st_requested|by apply st_cached].
  apply st_marked; try done. destruct (HK a cp Ha HaK); done.
Qed.

(** ** First pass *)

(** What the first pass makes of an item it picks. *)
Definition marked (cp : hashinfo_item) : hashinfo_item :=
  set_cpuid (-2) (if store_flag cp =? 1 then set_store_flag 2 cp else cp).

Lemma wr_pick_true cp : wr_pick cp = true →
  wants_disk cp = true ∧ flag_cache cp = 2 ∧ cpuid cp = -1 ∧ share_ref cp = 1.
Proof. unfold wr_pick, wants_disk. rewrite !andb_true_iff, !Z.eqb_eq. tauto. Qed.

Lemma marked_state cs W K ct n cp st :
  item_state cs W K ct n cp st → share_ref cp = 1 + Z.of_nat n → wr_pick cp = true →
  item_state cs W True ct n (marked cp) Marked.
Proof.
  intros Hst Hs (Hw&Hf&Hc&Hs1)%wr_pick_true.
  assert (E : ∀ A (f : hashinfo_item → A), (∀ i v, f (set_store_flag v i) = f i) →
    (∀ i v, f (set_cpuid v i) = f i) → f (marked cp) = f cp)
    by (intros A f E1 E2; unfold marked; rewrite E2; by destruct (_ =? 1)).
  assert (Hmem' : mem_ok cp ct ∧ flag_mem cp = 0).
  { pose proof (home_range (bkt_of (sha1 cp))). destruct Hst as [| | | | |]; first [lia|split; assumption]. }
  destruct Hmem' as [Hm Hfm].
  apply st_marked; [done|by rewrite (E _ flag_cache)|done|by rewrite (E _ flag_mem)| |lia|].
  - unfold mem_ok. by rewrite (E _ mem_style), (E _ len), (E _ data).
  - by rewrite (E _ wants_disk).
Qed.

Lemma marked_bytes_nonneg (cs : gmap Z percpu) W K C P m l :
  (∀ a cp, m !! a = Some cp → item_ok cs W (K a) (C a) (P a) cp) → 0 ≤ marked_bytes m l.
Proof.
  intros Hm. induction l as [|a l IH]; [done|]. simpl.
  destruct (m !! a) as [cp|] eqn:Ha; [|done]. destruct (cpuid cp =? -2); [|done].
  pose proof (disk_units_spec _ (ok_range _ _ _ _ _ _ (Hm a cp Ha))). unfold CHUNKSTEP in *. lia.
Qed.

Lemma mark_body_inv C P W d s a cp n :
  store_inv C P W d s → items s !! a = Some cp → a ∉ d →
  n = marked_bytes (items s) d → n < 2 ^ 50 →
  ∃ s' n', mark_body (s, n) a = Done (s', n') ∧ store_inv C P W (d ++ [a]) s' ∧
    n' = marked_bytes (items s') (d ++ [a]) ∧ n ≤ n' ≤ n + 2 ^ 17 ∧
    hash_tab s' = hash_tab s ∧ cpus s' = cpus s ∧ steady s s'.
Proof.
  intros Hinv Ha Had Hn Hlt. unfold mark_body. rewrite (get_item_bind _ _ cp) by done.
  destruct (inv_item _ _ _ _ _ _ _ _ _ _ Hinv _ _ Ha) as [Hsh Hl Hr Hshare Hpend (st&Hst)].
  destruct (disk_units_spec _ Hr) as [Hu _].
  pose proof (marked_bytes_nonneg _ _ _ _ _ _ d (inv_item _ _ _ _ _ _ _ _ _ _ Hinv)) as Hpos.
  destruct (wr_pick cp) eqn:Hpick.
  - cbv zeta. change (set_cpuid (-2) (if store_flag cp =? 1 then set_store_flag 2 cp else cp))
      with (marked cp).
    assert (E : ∀ A (f : hashinfo_item → A), (∀ i v, f (set_store_flag v i) = f i) →
      f (if store_flag cp =? 1 then set_store_flag 2 cp else cp) = f cp)
      by (intros A f E1; by destruct (_ =? 1)).
    rewrite (E _ len) by done. unfold CHUNKSTEP. rewrite !u64_small by (rewrite ?u64_small; lia).
    eexists _, _. split; [done|]. split; [|split; [|split; [lia|do 2 (split; [done|]);
      apply (steady_put _ _ a cp (marked cp));
        [exact Ha|split; [by apply (E _ sha1)|left; by apply (E _ flag_cache)]|done|done]]]].
    + eapply store_ok_put; [exact Hinv|exact Ha|by apply (E _ sha1)|by apply (E _ len)| | |].
      * eapply ctr_ok_put; [apply Hinv|done|by apply (E _ mem_style)|by apply (E _ len)].
      * split; unfold marked; cbn; rewrite ?(E _ sha1), ?(E _ len), ?(E _ share_ref) by done; try done.
        exists Marked. eapply item_state_mono; [apply disk_le_refl| |by eapply marked_state].
        intros _. set_solver.
      * intros x Hx. split; [done|]. set_solver.
    + cbn [items put_item set_items]. rewrite marked_bytes_app, marked_bytes_insert by done.
      rewrite <- Hn. simpl. rewrite lookup_insert_eq. cbn. rewrite (E _ len) by done.
      unfold CHUNKSTEP. lia.
  - eexists _, _. split; [done|]. split; [|split; [|split; [lia|do 2 (split; [done|]);
      by apply steady_refl]]].
    + eapply store_ok_weaken; [|exact Hinv]. set_solver.
    + rewrite marked_bytes_app, Hn. simpl. rewrite Ha.
      destruct (Z.eqb_spec (cpuid cp) (-2)) as [Hc|]; [|lia]. exfalso.
      pose proof (home_range (bkt_of (sha1 cp))).
      destruct Hst as [|HK|? Hc'|? Hc'|? Hc'|? Hc']; first [lia|by destruct (Had HK)].
Qed.

Lemma wr_mark_inv C P W s b :
  store_inv C P W [] s →
  wp False (wr_mark s b) (λ r, store_inv C P W (bucket s b) (fst r) ∧
    snd r = marked_bytes (items (fst r)) (bucket s b) ∧ 0 ≤ snd r < 2 ^ 50 ∧
    hash_tab (fst r) = hash_tab s ∧ cpus (fst r) = cpus s ∧ steady s (fst r)).
Proof.
  intros Hinv. pose proof (bucket_length C P W [] s b Hinv) as Hlen. unfold wr_mark.
  eapply wp_mono; [|apply (wp_ofold False mark_body (λ r l, ∃ d, bucket s b = d ++ l ∧
    store_inv C P W d (fst r) ∧ snd r = marked_bytes (items (fst r)) d ∧
    0 ≤ snd r ≤ Z.of_nat (length d) * 2 ^ 17 ∧
    hash_tab (fst r) = hash_tab s ∧ cpus (fst r) = cpus s ∧ steady s (fst r)))].
  - intros [s' n] (d&Hd&Hi&Hn&Hr&E1&E2&E3). rewrite app_nil_r in Hd. rewrite Hd in *.
    cbn [fst snd] in *. split; [done|]. split; [done|]. split; [lia|done].
  - intros [s' n] a l (d&Hd&Hi&Hn&Hr&E1&E2&E3). cbn [fst snd] in *.
    assert (a ∈ bucket s' b) as Hin.
    { unfold bucket. rewrite E1. fold (bucket s b). rewrite Hd. set_solver. }
    apply (inv_tab _ _ _ _ _ _ _ _ _ _ Hi) in Hin as (cp&Ha&_).
    pose proof (inv_nodup _ _ _ _ _ _ _ _ _ _ Hinv b) as Hnd.
    change (bucket_in (hash_tab s) b) with (bucket s b) in Hnd. rewrite Hd in Hnd, Hlen.
    apply NoDup_app in Hnd as (_&Hdl&_). rewrite length_app in Hlen. simpl in Hlen.
    destruct (mark_body_inv C P W d s' a cp n) as (s1&n1&->&?&?&?&?&?&?); [done..| |done|lia|].
    { intros Had. apply (Hdl a Had), list_elem_of_here. }
    cbn [wp fst snd]. exists (d ++ [a]). rewrite length_app. simpl.
    split; [by rewrite Hd, <- app_assoc|]. split; [done|]. split; [done|].
    split; [lia|]. split; [congruence|]. split; [congruence|by eapply steady_trans].
  - exists []. do 3 (split; [done|]). split; [simpl; lia|]. do 2 (split; [done|]). by apply steady_refl.
Qed.

(** ** Second pass *)

Lemma place_ok_view v v' limit limit' st ct :
  limit ≤ limit' → take (Z.to_nat limit) v' = take (Z.to_nat limit) v →
  place_ok v limit st ct → place_ok v' limit' st ct.
Proof.
  intros Hl Ht (Hst&Hu&Hn&Hs). split; [done|]. split; [lia|]. split; [lia|].
  unfold CHUNKSTEP in *. rewrite <- Hs at 2.
  rewrite <- (slice_take _ _ (Z.to_nat limit) v'), Ht, slice_take by lia. done.
Qed.

Lemma set_bit_fold m l :
  (∀ i, i ∈ l → 0 ≤ i < 8 * bitmap_size) → ofold set_bit m l = Done (list_to_set l ∪ m).
Proof.
  revert m. induction l as [|i l IH]; intros m Hl; cbn [ofold].
  - f_equal. clear Hl. set_solver.
  - assert (set_bit m i = Done ({[ i ]} ∪ m)) as ->
      by (unfold set_bit; rewrite decide_True; [done|apply Hl, list_elem_of_here]).
    cbn [mbind outcome_bind]. rewrite IH.
    + f_equal. clear Hl IH. set_solver.
    + intros j Hj. by apply Hl, list_elem_of_further.
Qed.

(** A place in the bitmap: the next free units, or the disk is full. *)
Lemma take_place_spec s cpu pc w num :
  cpus s !! cpu = Some pc → cpu_ok pc w → 1 ≤ num ≤ 2048 →
  (bitmap_size < bitmap_index pc + num ∧ take_place s cpu num = Bug) ∨
  (bitmap_index pc + num ≤ bitmap_size ∧
   take_place s cpu num = Done (put_percpu cpu
     (PerCpu _ (list_to_set (seqZ (bitmap_index pc) num) ∪ bitmap pc) (bitmap_index pc + num)
        (loff_file pc) (reserve_file pc)) s, bitmap_index pc)).
Proof.
  intros Hpc [Hb Hi _ _ _ _] Hn. pose proof bitmap_size_range as Hbs.
  unfold take_place, percpu_of. rewrite Hpc. cbn [deref mbind outcome_bind].
  rewrite (u32_small num) by lia.
  destruct (find_fresh (bitmap pc) bitmap_size num 0) with (start := bitmap_index pc)
    as (r&->&Hr); [lia..|done|lia|intros i Hin; by apply Hb|].
  cbn [deref mbind outcome_bind]. rewrite s32_small by lia. rewrite !(u64_small r) by lia.
  destruct Hr as [[Hle ->]|[Hlt Hr]].
  - right. split; [done|]. rewrite (proj2 (Z.ltb_ge _ _)) by lia.
    rewrite set_bit_fold by (intros i ?%elem_of_seqZ; lia). cbn [mbind outcome_bind].
    by rewrite (u64_small num), u64_small by lia.
  - left. split; [done|]. by rewrite (proj2 (Z.ltb_lt _ _)) by lia.
Qed.

(** The CPU after a place of [num] units has been taken. *)
Definition grown (pc : percpu) (num : Z) : percpu :=
  PerCpu _ (list_to_set (seqZ (bitmap_index pc) num) ∪ bitmap pc) (bitmap_index pc + num)
    (loff_file pc) (reserve_file pc).

(** The chunk [ct] goes to offset [m] of the copy buffer [buf] of [cpu]. *)
Section append.
  Context C P W (K : list Z) (m : gmap Z hashinfo_item) (next : Z) (tab : gmap Z (list Z))
    (count : Z) (c : counter → Z) (cs : gmap Z percpu).
  Context (cpu : Z) (pc : percpu) (buf ct : list Z) (pos : Z).
  Context (Hok : store_ok C P (<[cpu := Some (Writing buf pos)]> W) K m next tab count c cs)
    (Hcpu : 0 ≤ cpu < num_online_cpus) (Hpc : cs !! cpu = Some pc).
  Context (Hct : 0 < Z.of_nat (length ct) ≤ MAX_CHUNK)
    (Hroom : pos + CHUNKSTEP * disk_units (Z.of_nat (length ct)) ≤ Z.of_nat (length buf))
    (Hidx : bitmap_index pc + disk_units (Z.of_nat (length ct)) ≤ bitmap_size).

#[local] Abbreviation num := (disk_units (Z.of_nat (length ct))).
#[local] Abbreviation buf' := (write_at (Z.to_nat pos) ct buf).
#[local] Abbreviation W1 := (<[cpu := Some (Writing buf pos)]> W).
#[local] Abbreviation W2 := (<[cpu := Some (Writing buf' (pos + CHUNKSTEP * num))]> W).

Lemma append_cpu_ok : cpu_ok pc (Some (Writing buf pos)).
Proof.
  destruct (inv_cpus _ _ _ _ _ _ _ _ _ _ Hok cpu Hcpu) as (pc'&Hpc'&Hc).
  rewrite Hpc in Hpc'. injection Hpc' as <-. by rewrite fn_lookup_insert in Hc.
Qed.

Lemma append_disk_le : disk_le cs W1 (<[cpu := grown pc num]> cs) W2.
Proof.
  destruct append_cpu_ok as [_ Hi Hlo Hpos Hlen Hu]. simpl in Hpos, Hu.
  destruct (disk_units_spec _ Hct) as [? ?].
  intros h st ct'. destruct (decide (h = cpu)) as [->|Hne].
  - split; intros (pc'&Hpc'&Hp); rewrite Hpc in Hpc'; injection Hpc' as <-;
      exists (grown pc num); rewrite lookup_insert_eq; (split; [done|]); [done|].
    rewrite fn_lookup_insert in *. cbn [virt grown reserve_file loff_file wbuf bitmap_index] in *.
    eapply place_ok_view; [|  |exact Hp]; [unfold CHUNKSTEP in *; lia|].
    rewrite Hpos, Z2Nat.inj_add by lia. apply take_write_at_nested. lia.
  - unfold on_disk, on_virt.
    rewrite lookup_insert_ne, !fn_lookup_insert_ne by done. done.
Qed.

(** The chunk is found at its place once the buffer is written. *)
Lemma append_place :
  on_virt (<[cpu := grown pc num]> cs) W2 cpu (bitmap_index pc) ct.
Proof.
  destruct append_cpu_ok as [_ Hi Hlo Hpos Hlen Hu]. simpl in Hpos, Hu.
  destruct (disk_units_spec _ Hct) as [? ?].
  exists (grown pc num). rewrite lookup_insert_eq, fn_lookup_insert. split; [done|].
  cbn [virt grown reserve_file loff_file wbuf bitmap_index].
  split; [lia|]. split; [lia|]. split; [unfold CHUNKSTEP in *; lia|].
  rewrite Hpos, Z2Nat.inj_add by lia. cbn [used wused].
  rewrite slice_write_at_in by (rewrite length_write_at; unfold CHUNKSTEP in *; lia).
  rewrite <- (Nat.add_0_r (Z.to_nat pos)) at 1. rewrite slice_write_at_in by lia.
  unfold slice. by rewrite drop_0, firstn_all.
Qed.

Lemma append_ok : store_ok C P W2 K m next tab count c (<[cpu := grown pc num]> cs).
Proof.
  destruct append_cpu_ok as [Hb Hi Hlo Hpos Hlen Hu]. simpl in Hpos, Hu.
  destruct (disk_units_spec _ Hct) as [? ?].
  eapply store_ok_cpus; [exact Hok|exact append_disk_le|]. intros h Hh.
  destruct (decide (h = cpu)) as [->|Hne].
  - rewrite lookup_insert_eq, fn_lookup_insert. eexists. split; [done|].
    split; cbn [grown bitmap bitmap_index loff_file reserve_file used wused wbuf]; try lia.
    + intros i [Hin%elem_of_list_to_set%elem_of_seqZ|Hin%Hb]%elem_of_union; lia.
    + rewrite length_write_at; unfold CHUNKSTEP in *; lia.
  - rewrite lookup_insert_ne, fn_lookup_insert_ne by done.
    destruct (inv_cpus _ _ _ _ _ _ _ _ _ _ Hok h Hh) as (pc'&?&Hc).
    rewrite fn_lookup_insert_ne in Hc by done. by exists pc'.
Qed.
End append.

(** The item of a marked address once its data has its place. *)
Definition staged (cpu st : Z) (cp : hashinfo_item) : hashinfo_item := set_cpuid cpu (set_start st cp).

(** The second pass at a marked item, whose data is [b] in memory. *)
Lemma copy_marked_spec s cpu pc w c a cp b :
  items s !! a = Some cp → cpus s !! cpu = Some pc → cpu_ok pc w →
  cpuid cp = -2 → flag_cache cp = 2 → share_ref cp = 1 → wants_disk cp = true →
  data cp = Live b → 0 < len cp ≤ MAX_CHUNK → (Z.to_nat (len cp) ≤ length b)%nat →
  0 ≤ mem_index c < 2 ^ 50 → mem_index c + len cp ≤ Z.of_nat (length (copy_mem c)) →
  let num := disk_units (len cp) in
  (bitmap_size < bitmap_index pc + num ∧ copy_body cpu (s, c) a = Bug) ∨
  (bitmap_index pc + num ≤ bitmap_size ∧ ∃ st,
   copy_body cpu (s, c) a =
   Done (put_item a (staged cpu (bitmap_index pc) cp) (put_percpu cpu (grown pc num) s),
         Copying (write_at (Z.to_nat (mem_index c)) (take (Z.to_nat (len cp)) b) (copy_mem c))
           (mem_index c + CHUNKSTEP * num) st)).
Proof.
  intros Ha Hpc Hcok Hc Hf Hs Hw Hd Hr Hb Hm Hroom num.
  destruct (disk_units_spec _ Hr) as [Hu Hu2]. fold num in Hu, Hu2.
  unfold copy_body. rewrite (get_item_bind _ _ cp) by done.
  rewrite Hc, Hf, Hs. apply andb_true_iff in Hw as [Hw1 Hw2]. rewrite Hw1, Hw2. cbn [andb].
  change (-2 =? -2) with true. change (2 =? 2) with true. change (1 <? 1) with false.
  change (1 =? 1) with true. cbn [andb]. fold num.
  destruct (take_place_spec s cpu pc w num Hpc Hcok Hu) as [[Hfull ->]|[Hfit ->]]; [by left|right].
  split; [done|]. cbn [mbind outcome_bind]. rewrite Hd. cbn [mem_bytes mbind outcome_bind].
  unfold MAX_CHUNK, CHUNKSTEP in *. rewrite (u64_small (len cp)) by lia.
  rewrite read_bytes_spec by lia. cbn [mbind outcome_bind].
  unfold buf_write. rewrite decide_True by (rewrite length_take; lia). cbn [mbind outcome_bind].
  rewrite (u64_small (num * 32)), (u64_small (mem_index c + num * 32)) by lia.
  eexists. rewrite (Z.mul_comm num). reflexivity.
Qed.

Lemma staged_ok C P W (K : list Z) m next tab count c cs cpu a cp st :
  store_ok C P W K m next tab count c cs → m !! a = Some cp →
  cpu = home (bkt_of (sha1 cp)) → flag_cache cp = 2 → flag_mem cp = 0 → mem_ok cp (C a) →
  P a = 0%nat → on_virt cs W cpu st (C a) →
  store_ok C P W (filter (.≠ a) K) (<[a := staged cpu st cp]> m) next tab count c cs.
Proof.
  intros Hok Ha Hcpu Hf Hfm Hm HP Hv.
  eapply store_ok_put; [exact Hok|exact Ha|done|done|eapply ctr_ok_put; [apply Hok|done..]| |].
  - destruct (inv_item _ _ _ _ _ _ _ _ _ _ Hok _ _ Ha) as [? ? ? ? ? _]. split; try assumption.
    exists Staged. apply st_staged; (assumption || (by rewrite HP)).
  - intros x Hx. split; [done|]. intros HK. by apply list_elem_of_filter.
Qed.

(** An item with the mark is in memory, alone and a candidate for the disk. *)
Lemma marked_item cs W K ct n cp :
  item_ok cs W K ct n cp → cpuid cp = -2 →
  flag_cache cp = 2 ∧ flag_mem cp = 0 ∧ mem_ok cp ct ∧ n = 0%nat ∧ wants_disk cp = true.
Proof.
  intros [_ _ _ _ _ (st&Hst)] Hc. pose proof (home_range (bkt_of (sha1 cp))).
  destruct Hst; first [lia|by repeat (split; [assumption|])].
Qed.
Lemma copy_body_inv C P W s c a l cpu pc :
  store_inv C P (<[cpu := Some (Writing (copy_mem c) (mem_index c))]> W) (a :: l) s →
  NoDup (a :: l) → 0 ≤ cpu < num_online_cpus → cpus s !! cpu = Some pc →
  (∃ cp, items s !! a = Some cp ∧ home (bkt_of (sha1 cp)) = cpu) →
  0 ≤ mem_index c →
  mem_index c + marked_bytes (items s) (a :: l) = Z.of_nat (length (copy_mem c)) →
  Z.of_nat (length (copy_mem c)) < 2 ^ 50 →
  wp (CHUNKSTEP * bitmap_size < loff_file pc + Z.of_nat (length (copy_mem c)))
    (copy_body cpu (s, c) a) (λ r,
      store_inv C P (<[cpu := Some (Writing (copy_mem (snd r)) (mem_index (snd r)))]> W) l (fst r) ∧
      length (copy_mem (snd r)) = length (copy_mem c) ∧ mem_index c ≤ mem_index (snd r) ∧
      mem_index (snd r) + marked_bytes (items (fst r)) l = Z.of_nat (length (copy_mem c)) ∧
      hash_tab (fst r) = hash_tab s ∧ steady s (fst r) ∧
      ∃ pc', cpus (fst r) !! cpu = Some pc' ∧ loff_file pc' = loff_file pc).
Proof.
  intros Hinv Hnd Hcpu Hpc (cp&Ha&Hhome) Hmi Hsum Hlen.
  pose proof (append_cpu_ok _ _ _ _ _ _ _ _ _ _ _ _ _ _ Hinv Hcpu Hpc) as Hcok.
  pose proof Hnd as [Hal _]%NoDup_cons.
  destruct (inv_item _ _ _ _ _ _ _ _ _ _ Hinv _ _ Ha) as [_ Hl Hr Hshare _ (st&Hst)].
  pose proof (marked_bytes_nonneg _ _ _ _ _ _ l (inv_item _ _ _ _ _ _ _ _ _ _ Hinv)) as Hrest.
  rewrite (marked_bytes_cons _ _ _ _ Ha) in Hsum.
  destruct (disk_units_spec _ Hr) as [Hu Hu2].
  destruct (Z.eq_dec (cpuid cp) (-2)) as [Hc|Hc].
  - rewrite Hc in Hsum. change (-2 =? -2) with true in Hsum. cbv iota in Hsum.
    destruct (marked_item _ _ _ _ _ _ (inv_item _ _ _ _ _ _ _ _ _ _ Hinv _ _ Ha) Hc) as (Hf&Hfm&Hm&HP&Hw). pose proof Hm as (_&b&Hd&Hbl&Hbt).
    assert (Hct : len cp = Z.of_nat (length (C a))) by done.
    destruct (copy_marked_spec s cpu pc _ c a cp b Ha Hpc Hcok Hc Hf) as [[Hfull ->]|[Hfit [stt ->]]];
      [lia|done|done|done|lia|unfold CHUNKSTEP in *; lia|unfold CHUNKSTEP in *; lia| |].
    + cbn [wp]. destruct Hcok as [_ _ _ Hpos _ _]. cbn in Hpos. unfold CHUNKSTEP in *. lia.
    + cbn [wp fst snd copy_mem mem_index]. rewrite Hct, Nat2Z.id, Hbt in *.
      assert (Hok := append_ok _ _ _ _ _ _ _ _ _ _ cpu pc (copy_mem c) (C a) (mem_index c)
        Hinv Hcpu Hpc ltac:(lia) ltac:(unfold CHUNKSTEP in *; lia) ltac:(lia)).
      assert (Hv := append_place _ _ _ _ _ _ _ _ _ _ cpu pc (copy_mem c) (C a) (mem_index c)
        Hinv Hcpu Hpc ltac:(lia) ltac:(unfold CHUNKSTEP in *; lia)).
      split; [|split; [|split; [|split; [|split; [done|split;
        [apply (steady_put _ _ a cp (staged cpu (bitmap_index pc) cp));
           [done|split; [done|by left]|done|done]|]]]]]].
      * unfold store_inv. rewrite <- (remove_head a l Hnd).
        eapply staged_ok; [exact Hok|exact Ha|by symmetry|done..|exact Hv].
      * apply length_write_at. unfold CHUNKSTEP in *. lia.
      * unfold CHUNKSTEP. lia.
      * cbn [items put_item put_percpu set_cpus set_items].
        rewrite marked_bytes_insert by done. unfold CHUNKSTEP in *. lia.
      * exists (grown pc (disk_units (Z.of_nat (length (C a))))). split; [|done].
        cbn. by rewrite lookup_insert_eq.
  - assert (copy_body cpu (s, c) a = Done (s, c)) as ->.
    { unfold copy_body. rewrite (get_item_bind _ _ cp) by done.
      rewrite (proj2 (Z.eqb_neq (cpuid cp) (-2)) Hc). by rewrite !andb_false_r. }
    rewrite (proj2 (Z.eqb_neq (cpuid cp) (-2)) Hc) in Hsum. cbn [wp fst snd].
    split; [|do 4 (split; [first [done|lia]|]); split; [by apply steady_refl|by exists pc]].
    eapply store_ok_unmark; [exact Hinv|]. intros x y Hx HK.
    apply elem_of_cons in HK as [->|HK]; [right; congruence|by left].
Qed.

(** The file of a CPU between two writes. *)
Lemma idle_cpu_ok C P W K m next tab count c cs cpu :
  store_ok C P W K m next tab count c cs → 0 ≤ cpu < num_online_cpus → W cpu = None →
  ∃ pc, cs !! cpu = Some pc ∧ cpu_ok pc None.
Proof.
  intros Hok Hcpu HW. destruct (inv_cpus _ _ _ _ _ _ _ _ _ _ Hok cpu Hcpu) as (pc&?&Hc).
  rewrite HW in Hc. by exists pc.
Qed.

(** The copy starts with a buffer of zeros. *)
Lemma start_copy_ok C P W K m next tab count c cs cpu n :
  store_ok C P W K m next tab count c cs → 0 ≤ cpu < num_online_cpus → W cpu = None →
  store_ok C P (<[cpu := Some (Writing (replicate n 0) 0)]> W) K m next tab count c cs.
Proof.
  intros Hok Hcpu HW.
  destruct (idle_cpu_ok _ _ _ _ _ _ _ _ _ _ _ Hok Hcpu HW) as (pc&Hpc&[Hb Hi Hlo Hpos Hlen _]).
  simpl in Hpos. eapply store_ok_cpus; [exact Hok| |].
  - intros h st ct. split; [done|]. intros (pc'&Hpc'&Hp). exists pc'. split; [done|].
    destruct (decide (h = cpu)) as [->|Hne]; [|by rewrite fn_lookup_insert_ne].
    rewrite Hpc in Hpc'. injection Hpc' as <-. rewrite HW in Hp. rewrite fn_lookup_insert.
    cbn [virt wbuf] in *. eapply place_ok_view; [|  |exact Hp]; [done|].
    replace (CHUNKSTEP * bitmap_index pc) with (loff_file pc) by lia.
    apply take_write_at_before. lia.
  - intros h Hh. destruct (decide (h = cpu)) as [->|Hne].
    + rewrite fn_lookup_insert. exists pc. split; [done|]. split; simpl; try done.
      split; [done|apply Zle_0_nat].
    + rewrite fn_lookup_insert_ne by done. by apply (inv_cpus _ _ _ _ _ _ _ _ _ _ Hok).
Qed.

Lemma wr_copy_inv C P W s b all pc :
  store_inv C P W (bucket s b) s → W (home b) = None → cpus s !! home b = Some pc →
  all = marked_bytes (items s) (bucket s b) → 0 ≤ all < 2 ^ 50 →
  wp (CHUNKSTEP * bitmap_size < loff_file pc + all) (wr_copy s (home b) b all) (λ r,
    store_inv C P (<[home b := Some (Writing (copy_mem (snd r)) all)]> W) [] (fst r) ∧
    Z.of_nat (length (copy_mem (snd r))) = all ∧
    hash_tab (fst r) = hash_tab s ∧ steady s (fst r)).
Proof.
  intros Hinv HW Hpc Hall Hr. unfold wr_copy, zalloc. rewrite Hmem.
  assert (Hlen : Z.of_nat (length (replicate (Z.to_nat all) 0)) = all)
    by (rewrite length_replicate; lia).
  change (bucket (count_alloc s) b) with (bucket s b).
  eapply wp_mono; [|apply (wp_ofold _ (copy_body (home b)) (λ r l, (∃ d, bucket s b = d ++ l) ∧
    store_inv C P (<[home b := Some (Writing (copy_mem (snd r)) (mem_index (snd r)))]> W) l (fst r) ∧
    Z.of_nat (length (copy_mem (snd r))) = all ∧ 0 ≤ mem_index (snd r) ∧
    mem_index (snd r) + marked_bytes (items (fst r)) l = all ∧
    hash_tab (fst r) = hash_tab s ∧ steady s (fst r) ∧
    ∃ pc', cpus (fst r) !! home b = Some pc' ∧ loff_file pc' = loff_file pc))].
  - intros [s' c] (_&Hi&Hl&_&Hm&E1&E2&_). cbn [fst snd] in *. simpl in Hm.
    replace (mem_index c) with all in Hi by lia. by split.
  - intros [s' c] a l ((d&Hd)&Hi&Hl&Hp&Hm&E1&E2&pc'&Hpc'&Hlo). cbn [fst snd] in *.
    pose proof (inv_nodup _ _ _ _ _ _ _ _ _ _ Hinv b) as Hnd.
    change (bucket_in (hash_tab s) b) with (bucket s b) in Hnd. rewrite Hd in Hnd.
    apply NoDup_app in Hnd as (_&_&Hnd).
    assert (Hin : a ∈ bucket_in (hash_tab s') b).
    { unfold bucket_in. rewrite E1. fold (bucket s b). rewrite Hd.
      apply elem_of_app. right. apply list_elem_of_here. }
    apply (inv_tab _ _ _ _ _ _ _ _ _ _ Hi) in Hin as (cp&Ha&Hb).
    rewrite <- Hlo, <- Hl.
    eapply wp_mono; [|apply (copy_body_inv C P W s' c a l (home b) pc');
      [exact Hi|exact Hnd|apply home_range|exact Hpc'|exists cp; by rewrite Hb|exact Hp|lia|lia]].
    intros [s1 c1] (Hi1&F1&F2&F3&F4&F5&pc1&F6&F7). cbn [fst snd] in *.
    split; [exists (d ++ [a]); by rewrite Hd, <- app_assoc|]. split; [done|].
    split; [by rewrite F1|]. split; [lia|]. split; [by rewrite F3|].
    split; [congruence|]. split; [by eapply steady_trans|]. exists pc1. split; [done|congruence].
  - cbn [fst snd copy_mem mem_index]. split; [by exists []|]. split.
    { apply start_copy_ok; [exact Hinv|apply home_range|done]. }
    split; [done|]. split; [done|]. split; [by rewrite Hall|].
    split; [done|]. split; [by apply steady_refl|by eauto].
Qed.

(** ** The two passes together *)

(** Nothing to write means nothing marked. *)
Lemma none_marked C P W K s b :
  store_inv C P W K s → (∀ a, a ∈ K → a ∈ bucket s b) →
  marked_bytes (items s) (bucket s b) = 0 → store_inv C P W [] s.
Proof.
  intros Hinv HK H0'. eapply store_ok_unmark; [exact Hinv|]. intros a cp Ha HaK. right. intros Hc.
  apply HK in HaK. apply list_elem_of_split in HaK as (l1&l2&E). rewrite E in H0'.
  rewrite marked_bytes_app, (marked_bytes_cons _ _ _ _ Ha), Hc in H0'.
  change (-2 =? -2) with true in H0'. cbv iota in H0'.
  pose proof (marked_bytes_nonneg _ _ _ _ _ _ l1 (inv_item _ _ _ _ _ _ _ _ _ _ Hinv)).
  pose proof (marked_bytes_nonneg _ _ _ _ _ _ l2 (inv_item _ _ _ _ _ _ _ _ _ _ Hinv)).
  destruct (disk_units_spec _ (ok_range _ _ _ _ _ _ (inv_item _ _ _ _ _ _ _ _ _ _ Hinv _ _ Ha))).
  unfold CHUNKSTEP in *. lia.
Qed.

(** The disk is too full for what bucket [b] has to write. *)
Definition disk_full (s : store) (b : Z) : Prop :=
  ∃ s1 all pc, wr_mark s b = Done (s1, all) ∧ cpus s !! home b = Some pc ∧
    CHUNKSTEP * bitmap_size < loff_file pc + all.

Lemma wr_prepare_inv C P W s b :
  store_inv C P W [] s → W (home b) = None →
  wp (disk_full s b) (wr_prepare s (home b) b) (λ r,
    hash_tab (fst r) = hash_tab s ∧ steady s (fst r) ∧
    match snd r with
    | None => store_inv C P W [] (fst r)
    | Some (c, all) => store_inv C P (<[home b := Some (Writing (copy_mem c) all)]> W) [] (fst r) ∧
        Z.of_nat (length (copy_mem c)) = all
    end).
Proof.
  intros Hinv HW. pose proof (wr_mark_inv C P W s b Hinv) as Hmark. unfold wr_prepare.
  destruct (wr_mark s b) as [[s1 all]| |] eqn:Em; [|done|done]. cbn [wp fst snd] in Hmark.
  destruct Hmark as (Hi&Hall&Hr&E1&E2&E3). cbn [mbind outcome_bind].
  assert (Eb : bucket s1 b = bucket s b) by (unfold bucket; by rewrite E1).
  destruct (Z.eqb_spec all 0) as [->|Hne].
  - cbn [wp fst snd]. split; [done|]. split; [done|].
    eapply none_marked; [exact Hi|by rewrite Eb|by rewrite Eb].
  - destruct (idle_cpu_ok _ _ _ _ _ _ _ _ _ _ (home b) Hi (home_range b) HW) as (pc&Hpc&_).
    rewrite <- Eb in Hi, Hall. apply wp_bind.
    eapply wp_weaken; [|eapply wp_mono; [|apply (wr_copy_inv C P W s1 b all pc); done]].
    + intros Hfull. exists s1, all, pc. rewrite <- E2. by split.
    + intros [s2 c] (Hi2&Hl&F1&F2). cbn [wp fst snd] in *.
      split; [congruence|]. split; [by eapply steady_trans|]. by split.
Qed.

(** ** The write *)

(** The write of the copy buffer [buf] of [cpu] fails, or its length does not
    fit the [int] the result is kept in. *)
Definition write_fails (s : store) (cpu : Z) (buf : list Z) : Prop :=
  2 ^ 31 ≤ Z.of_nat (length buf) ∨
  ∃ pc, cpus s !! cpu = Some pc ∧ fst (vfs_write (reserve_file pc) buf (loff_file pc)) < 0.

(** The file with the buffer at the write position, and the position behind it. *)
Lemma written_ok C P W s cpu pc buf f z :
  store_inv C P W [] s → 0 ≤ cpu < num_online_cpus → cpus s !! cpu = Some pc →
  W cpu = Some (Writing buf (Z.of_nat (length buf))) → fview f = write_at (Z.to_nat (loff_file pc)) buf (fview (reserve_file pc)) →
  store_inv C P (<[cpu := None]> W) []
    (ctr_add mmw z (put_percpu cpu (PerCpu _ (bitmap pc) (bitmap_index pc) (loff_file pc + Z.of_nat (length buf)) f) s)).
Proof.
  intros Hinv Hcpu Hpc HW Hspec.
  destruct (inv_cpus _ _ _ _ _ _ _ _ _ _ Hinv cpu Hcpu) as (pc'&Hpc'&[Hb Hi Hlo Hpos Hlen _]).
  rewrite Hpc in Hpc'. injection Hpc' as <-. rewrite HW in Hpos. cbn [used wused] in Hpos. unfold CHUNKSTEP in Hpos.
  assert (E2 : fview f = virt pc (W cpu)) by (rewrite HW; exact Hspec).
  unfold store_inv.
  cbn [items next_addr hash_tab hash_count cpus put_percpu set_cpus ctr_add].
  eapply store_ok_ctr; [|apply ctr_ok_other; [done|apply Hinv]].
  eapply store_ok_cpus; [exact Hinv| |].
  - intros h s0 ct. destruct (decide (h = cpu)) as [->|Hne].
    + split; intros (pc'&Hpc'&Hp); rewrite Hpc in Hpc'; injection Hpc' as <-;
        eexists; rewrite lookup_insert_eq; (split; [done|]);
        rewrite ?fn_lookup_insert; cbn [virt reserve_file loff_file bitmap_index].
      * rewrite Hspec. eapply place_ok_view; [|  |exact Hp]; [lia|].
        apply take_write_at_before. lia.
      * by rewrite E2.
    + unfold on_disk, on_virt. by rewrite lookup_insert_ne, fn_lookup_insert_ne by done.
  - intros h Hh. destruct (decide (h = cpu)) as [->|Hne].
    + rewrite lookup_insert_eq, fn_lookup_insert. eexists. split; [done|].
      split; cbn [bitmap bitmap_index loff_file reserve_file used]; try done.
      * lia.
      * unfold CHUNKSTEP. lia.
      * rewrite Hspec. unfold write_at.
        rewrite !length_app, write_at_length_pre. lia.
    + rewrite lookup_insert_ne, fn_lookup_insert_ne by done.
      by apply (inv_cpus _ _ _ _ _ _ _ _ _ _ Hinv).
Qed.

Lemma wr_write_inv C P W s cpu buf st :
  store_inv C P W [] s → 0 ≤ cpu < num_online_cpus →
  W cpu = Some (Writing buf (Z.of_nat (length buf))) →
  wp (write_fails s cpu buf) (wr_write s cpu buf (Z.of_nat (length buf)) st) (λ s',
    store_inv C P (<[cpu := None]> W) [] s' ∧ hash_tab s' = hash_tab s ∧ steady s s').
Proof.
  intros Hinv Hcpu HW. pose proof bitmap_size_range as Hbs.
  destruct (inv_cpus _ _ _ _ _ _ _ _ _ _ Hinv cpu Hcpu) as (pc&Hpc&[Hb Hi Hlo Hpos Hlen _]).
  rewrite HW in Hpos. cbn [used wused] in Hpos. unfold CHUNKSTEP in Hpos.
  unfold wr_write, percpu_of, kernel_write. rewrite Hpc. cbn [deref mbind outcome_bind].
  rewrite Nat2Z.id, take_ge by done.
  pose proof (vfs_write_errno (reserve_file pc) buf (loff_file pc)) as Herr.
  pose proof (vfs_write_spec (reserve_file pc) buf (loff_file pc) Hlo) as Hspec.
  assert (Hfail : fst (vfs_write (reserve_file pc) buf (loff_file pc)) < 0 → write_fails s cpu buf)
    by (intros; right; by exists pc).
  destruct (vfs_write _ _ _) as [ret f]. cbn [fst snd] in *.
  destruct (Z.ltb_spec ret 0) as [Hneg|Hret].
  { destruct (s32 ret <? 0) eqn:E; [by apply Hfail|]. apply Z.ltb_ge in E.
    rewrite s32_small in E by lia. lia. }
  destruct (s32 ret <? 0) eqn:E.
  { left. destruct (Z.le_gt_cases (2 ^ 31) (Z.of_nat (length buf))); [done|].
    rewrite s32_small, (proj2 (Z.ltb_ge _ _)) in E by lia. done. }
  cbn [wp]. rewrite s64_small by lia. split; [|split; [done|by apply steady_refl]].
  by apply written_ok, Hspec.
Qed.

(** ** Third pass *)

Lemma finish_body_inv C P W s a cp :
  store_inv C P W [] s → items s !! a = Some cp → W (home (bkt_of (sha1 cp))) = None →
  ∃ s' cp', finish_body s a = Done s' ∧ store_inv C P W [] s' ∧
    items s' = <[a := cp']> (items s) ∧ hash_tab s' = hash_tab s ∧ steady s s' ∧
    (flag_cache cp = 2 → 0 ≤ cpuid cp → share_ref cp = 1 →
       flag_cache cp' = 1 ∧ data cp' = Freed ∧ cpuid cp' = cpuid cp ∧ start cp' = start cp).
Proof.
  intros Hinv Ha HW. unfold finish_body. rewrite (get_item_bind _ _ cp) by done.
  destruct (inv_item _ _ _ _ _ _ _ _ _ _ Hinv _ _ Ha) as [Hsh Hl Hr Hshare Hpe (st&Hst)].
  destruct (Z.eqb_spec (flag_cache cp) 2) as [Hf|Hf]; cbn [andb].
  2: { exists s, cp. split; [done|]. split; [done|]. rewrite insert_id by done.
       do 2 (split; [done|]). split; [by apply steady_refl|done]. }
  destruct (Z.eqb_spec (share_ref cp) 1) as [Hs|Hs]; cbn [andb].
  2: { exists s, cp. split; [done|]. split; [done|]. rewrite insert_id by done.
       do 2 (split; [done|]). split; [by apply steady_refl|done]. }
  destruct (Z.leb_spec 0 (cpuid cp)) as [Hc|Hc].
  2: { exists s, cp. split; [done|]. split; [done|]. rewrite insert_id by done.
       do 2 (split; [done|]). split; [by apply steady_refl|lia]. }
  assert (Hstd : cpuid cp = home (bkt_of (sha1 cp)) ∧ flag_mem cp = 0 ∧ mem_ok cp (C a) ∧
    on_virt (cpus s) W (cpuid cp) (start cp) (C a)).
  { destruct Hst; first [lia|by repeat (split; [assumption|])]. }
  destruct Hstd as (Hh&Hfm&[Hms Hm]&pc&Hpc&Hp).
  rewrite (free_data_memory_spec _ a (set_flag_cache 1 cp)) by (try apply lookup_insert_eq; done).
  eexists _, _. split; [done|].
  cbn [items drop_data ctr_add put_item set_items hash_tab works]. rewrite insert_insert_eq.
  split; [|do 2 (split; [reflexivity|]); split; [|done];
    apply (steady_put _ _ a cp (set_mem_style (-1) (set_data Freed (set_flag_cache 1 cp))));
    [exact Ha|split; [reflexivity|by right]|reflexivity|by cbn; rewrite insert_insert_eq]].
  unfold store_inv.
  cbn [items next_addr hash_tab hash_count cpus put_item set_items ctr_add drop_data].
  rewrite insert_insert_eq.
  eapply store_ok_put; [exact Hinv|exact Ha|done|done| | |by split].
  - cbn [len set_flag_cache]. rewrite <- Hms.
    eapply (ctr_ok_free (items s) _ a cp); [apply Hinv|done|rewrite Hms; apply style_of_range|done].
  - split; try done. exists OnDisk. apply st_disk; try done; [lia|].
    exists pc. split; [done|]. cbn [start set_mem_style set_data set_flag_cache cpuid] in *.
    rewrite Hh, HW in Hp. cbn [virt] in Hp.
    rewrite Hh in Hpc. destruct (idle_cpu_ok _ _ _ _ _ _ _ _ _ _ _ Hinv (home_range _) HW)
      as (pc'&Hpc'&[_ _ _ Hpos _ _]).
    rewrite Hpc in Hpc'. injection Hpc' as <-. cbn [used] in Hpos.
    by replace (loff_file pc) with (CHUNKSTEP * bitmap_index pc) by lia.
Qed.

Lemma wr_finish_inv C P W s b :
  store_inv C P W [] s → W (home b) = None →
  wp False (wr_finish s b) (λ s', store_inv C P W [] s' ∧ hash_tab s' = hash_tab s ∧
    steady s s').
Proof.
  intros Hinv HW. unfold wr_finish.
  eapply wp_mono; [|apply (wp_ofold False finish_body (λ s' l, store_inv C P W [] s' ∧
    hash_tab s' = hash_tab s ∧ steady s s' ∧ ∀ a, a ∈ l → a ∈ bucket s b))].
  - intros s' (?&?&?&_). by split.
  - intros s' a l (Hi&E1&E2&Hl).
    assert (Hin : a ∈ bucket_in (hash_tab s') b)
      by (unfold bucket_in; rewrite E1; apply Hl, list_elem_of_here).
    apply (inv_tab _ _ _ _ _ _ _ _ _ _ Hi) in Hin as (cp&Ha&Hb).
    destruct (finish_body_inv C P W s' a cp) as (s1&cp1&->&Hi1&_&F1&F2&_);
      [done|done|by rewrite Hb|].
    split; [done|]. split; [congruence|]. split; [by eapply steady_trans|].
    intros x Hx. by apply Hl, list_elem_of_further.
  - split; [done|]. split; [done|]. split; [by apply steady_refl|done].
Qed.
End disk.
