(* ===== verification/System.v ===== *)
(** The chunk store at work: packets, reads, timers and workers interleaved.
    Every step is one critical section of the code; the theorems hold for every
    order of the steps. *)
From S2P Require Import Prelude JenHash Rabin Bitmap Store HashTable Aging NfIn StoreInv StoreOps.
From S2P Require Import AgingOps DiskOps.
#[local] Open Scope Z_scope.

(** ** The state of the system *)

Section system.
  Context `{Allocator} `{VFS} `{StoreParams} `{BitSearch}.
  Implicit Types s : store.

(** Where the worker of a CPU is inside [wr_file]: the buffer is copied, or it
    is written and the third pass is left. *)
Inductive frame :=
| Copied (b : Z) (c : copying) (all_size : Z)
| Written (b : Z).

(** The store, the read requests of all handlers by CPU of the file, and the
    workers inside [wr_file]. *)
Record sys := Sys { st : store; reads : heads; frames : gmap Z frame }.

Inductive op :=
| Packet (dst src : list Z) (n : Z)
| ReadBack (cpu : Z) (i : nat)
| Tick (b : Z)
| WorkStart (b : Z)
| WorkWrite (cpu : Z)
| WorkFinish (cpu : Z).

Definition remove_nth {A} (i : nat) (l : list A) : list A := take i l ++ drop (S i) l.

(** The worker clears the pending bit of the work before it calls [wr_file]. *)
Definition started (b : Z) (s : store) : store := set_works (works s ∖ {[ b ]}) s.

(** One step: [hand_hash] on a chunk; the [i]-th request of a read list; the
    timer of a bucket; and the three parts of [wr_file]. *)
Definition run_op (x : sys) (o : op) : outcome sys :=
  match o with
  | Packet dst src n =>
    '(s, h) ← hand_hash (st x) (reads x) src n dst; Done (Sys s h (frames x))
  | ReadBack cpu i =>
    l ← deref (reads x !! cpu); a ← deref (l !! i);
    s ← read_item cpu (st x) a;
    Done (Sys s (<[cpu := remove_nth i l]> (reads x)) (frames x))
  | Tick b => s ← bucket_clear_item (st x) b; Done (Sys s (reads x) (frames x))
  | WorkStart b =>
    '(s, c) ← wr_prepare (started b (st x)) (home b) b;
    Done (Sys s (reads x) match c with
                          | None => frames x
                          | Some (c, all_size) => <[home b := Copied b c all_size]> (frames x)
                          end)
  | WorkWrite cpu =>
    f ← deref (frames x !! cpu);
    match f with
    | Copied b c all_size =>
      s ← wr_write (st x) cpu (copy_mem c) all_size (st_all_size c);
      Done (Sys s (reads x) (<[cpu := Written b]> (frames x)))
    | Written _ => Done x
    end
  | WorkFinish cpu =>
    f ← deref (frames x !! cpu);
    match f with
    | Written b =>
      s ← wr_finish (st x) b; Done (Sys s (reads x) (delete cpu (frames x)))
    | Copied _ _ _ => Done x
    end
  end.

(** The requests in all read lists. *)
Definition total_reads (h : heads) : Z := msum (λ l, Z.of_nat (length l)) h.

(** When a step can happen: chunks have a 20-byte digest and are longer than 22
    bytes, the requests fit the [int] that counts them, a worker runs a pending
    work when it is not inside another. *)
Definition enabled (x : sys) (o : op) : Prop :=
  match o with
  | Packet dst src n => length dst = 20%nat ∧ SHALEN + 2 < n ≤ MAX_CHUNK ∧
      n ≤ Z.of_nat (length src) ∧ total_reads (reads x) < 2 ^ 31 - 2
  | ReadBack cpu i => ∃ l a, reads x !! cpu = Some l ∧ l !! i = Some a
  | Tick b => 0 ≤ b < hash_tab_size
  | WorkStart b => b ∈ works (st x) ∧ frames x !! home b = None
  | WorkWrite cpu => ∃ b c n, frames x !! cpu = Some (Copied b c n)
  | WorkFinish cpu => ∃ b, frames x !! cpu = Some (Written b)
  end.

(** The store when the module is loaded: empty, every CPU with its file and an
    empty bitmap. *)
Record initial (x : sys) : Prop := {
  init_items : items (st x) = ∅;
  init_tab : ∀ b, bucket (st x) b = [];
  init_count : hash_count (st x) = 0;
  init_ctr : ∀ k, ctr (st x) k = 0;
  init_cpus : ∀ c, 0 ≤ c < num_online_cpus → ∃ pc, cpus (st x) !! c = Some pc ∧
    bitmap pc = ∅ ∧ bitmap_index pc = 0 ∧ loff_file pc = 0;
  init_reads : ∀ c, reads x !! c = if decide (0 ≤ c < num_online_cpus) then Some [] else None;
  init_frames : frames x = ∅ }.

(** The states reached from an initial one, with the steps that led there. *)
Inductive reached : list op → sys → Prop :=
| reached_init x : initial x → reached [] x
| reached_step tr x o x' :
    reached tr x → enabled x o → run_op x o = Done x' → reached (tr ++ [o]) x'.
End system.

(** ** The invariant of the system *)

Section sys_inv.
  Context `{AllocatorLaws} `{VFSLaws} `{StoreParamsLaws} `{BitSearchLaws}
    (Hmem : ∀ n, alloc_ok n = true).
  Implicit Types (s : store) (C : Z → list Z) (P : Z → nat) (x : sys).

Definition writing_of (fs : gmap Z frame) (c : Z) : option writing :=
  match fs !! c with
  | Some (Copied _ c n) => Some (Writing (copy_mem c) n)
  | _ => None
  end.

(** The requests for [a] in a list. *)
Definition occ (a : Z) (l : list Z) : Z := Z.of_nat (length (filter (.= a) l)).

Record sys_ok (tr : list op) x C P : Prop := {
  so_store : store_inv C P (writing_of (frames x)) [] (st x);
  so_pend : ∀ a, Z.of_nat (P a) = msum (occ a) (reads x);
  so_heads : ∀ c, 0 ≤ c < num_online_cpus → is_Some (reads x !! c);
  so_reads : ∀ c l a, reads x !! c = Some l → a ∈ l →
    ∃ cp, items (st x) !! a = Some cp ∧ home (bkt_of (sha1 cp)) = c;
  so_frames : ∀ c f, frames x !! c = Some f →
    match f with
    | Copied b cc n => home b = c ∧ n = Z.of_nat (length (copy_mem cc))
    | Written b => home b = c
    end;
  so_origin : ∀ a cp, items (st x) !! a = Some cp →
    ∃ src n, Packet (sha1 cp) src n ∈ tr ∧ 0 ≤ n ≤ Z.of_nat (length src) ∧
      C a = take (Z.to_nat n) src }.

(** The parameters of the invariant matter pointwise only. *)
Lemma store_inv_ext C P P' W W' K s :
  (∀ a, P a = P' a) → (∀ c, W c = W' c) → store_inv C P W K s → store_inv C P' W' K s.
Proof.
  intros HP HW [Hi Ht Hn Hu Hc Hf Hp Hm Hcs]. split; try assumption.
  - intros a cp Ha. rewrite <- HP. eapply item_ok_mono; [|exact (λ k, k)|by apply Hi].
    intros h s0 ct. split; [exact (λ k, k)|]. intros (pc&?&?). exists pc. by rewrite <- HW.
  - intros a. rewrite <- HP. apply Hp.
  - intros h Hh. rewrite <- HW. by apply Hcs.
Qed.

Lemma occ_pos a l : a ∈ l → 0 < occ a l.
Proof.
  intros Ha. unfold occ. assert (a ∈ filter (.= a) l) as Hin by by apply list_elem_of_filter.
  destruct (filter (.= a) l); [by apply not_elem_of_nil in Hin|simpl; lia].
Qed.
Lemma occ_le a l : 0 ≤ occ a l ≤ Z.of_nat (length l).
Proof. unfold occ. pose proof (length_filter (.= a) l). lia. Qed.

Lemma pending_nonzero tr x C P c l a :
  sys_ok tr x C P → reads x !! c = Some l → a ∈ l → P a ≠ 0%nat.
Proof.
  intros Hx Hl Ha HP. pose proof (so_pend _ _ _ _ Hx a) as Hs. rewrite HP in Hs.
  rewrite <- (insert_delete_id _ _ _ Hl), msum_insert_new in Hs by apply lookup_delete_eq.
  pose proof (occ_pos a l Ha).
  pose proof (msum_nonneg (occ a) (delete c (reads x)) (λ l, proj1 (occ_le a l))). lia.
Qed.

(** A step that leaves the requests alone. *)
Lemma sys_ok_quiet tr tr' x C P s' fs' :
  sys_ok tr x C P → (∀ o, o ∈ tr → o ∈ tr') →
  store_inv C P (writing_of fs') [] s' → keeps (items (st x)) (items s') →
  (∀ c f, fs' !! c = Some f →
    match f with
    | Copied b cc n => home b = c ∧ n = Z.of_nat (length (copy_mem cc))
    | Written b => home b = c
    end) →
  sys_ok tr' (Sys s' (reads x) fs') C P.
Proof.
  intros Hx Htr Hinv Hk Hf. split; cbn [st reads frames]; try assumption; try apply Hx.
  - intros c l a Hl Ha.
    destruct (inv_pend _ _ _ _ _ _ _ _ _ _ Hinv a) as [cp' Ha'];
      [by eapply pending_nonzero|].
    destruct (Hk a cp' Ha') as (cp&Hcp&E).
    destruct (so_reads _ _ _ _ Hx c l a Hl Ha) as (cp2&Hcp2&Hh).
    exists cp'. split; [done|]. rewrite E. congruence.
  - intros a cp' Ha. destruct (Hk a cp' Ha) as (cp&Hcp&E).
    destruct (so_origin _ _ _ _ Hx a cp Hcp) as (src&n&?&?).
    exists src, n. rewrite E. split; [by apply Htr|done].
Qed.

(** ** Each step keeps the invariant *)

Lemma occ_app a l k : occ a (l ++ k) = occ a l + occ a k.
Proof. unfold occ. rewrite filter_app, length_app. lia. Qed.
Lemma occ_cons a b l : occ a (b :: l) = (if decide (b = a) then 1 else 0) + occ a l.
Proof. unfold occ. rewrite filter_cons. case_decide; simpl; lia. Qed.
Lemma remove_nth_split {A} i (l : list A) a : l !! i = Some a →
  ∃ l1 l2, l = l1 ++ a :: l2 ∧ remove_nth i l = l1 ++ l2.
Proof. intros Hi. exists (take i l), (drop (S i) l). split; [by rewrite take_drop_middle|done]. Qed.

(** The requests change as the count of pending reads does. *)
Lemma msum_occ_put (h : heads) c l l' d y : h !! c = Some l → occ y l' = occ y l + d →
  msum (occ y) (<[c := l']> h) = msum (occ y) h + d.
Proof. intros Hl E. rewrite (msum_insert _ _ _ l) by done. lia. Qed.

Lemma heads_put (h : heads) c l : is_Some (h !! c) →
  ∀ c', is_Some (h !! c') → is_Some (<[c := l]> h !! c').
Proof.
  intros _ c' Hc. destruct (decide (c' = c)) as [->|Hne].
  - rewrite lookup_insert_eq. by eexists.
  - by rewrite lookup_insert_ne.
Qed.

(** A chunk that goes on disk adds a request to the list of its CPU. *)
Lemma requested_ok tr x C P s' a cp l e :
  sys_ok tr x C P → items (st x) !! a = Some cp → disk_flag cp = true →
  reads x !! cpuid cp = Some l → items s' = <[a := requested cp]> (items (st x)) →
  store_inv C (<[a := S (P a)]> P) (writing_of (frames x)) [] s' →
  sys_ok (tr ++ [e]) (Sys s' (<[cpuid cp := a :: l]> (reads x)) (frames x)) C (<[a := S (P a)]> P).
Proof.
  intros Hx Ha Hf Hl Hi Hinv. split; cbn [st reads frames]; try apply Hx; [done| | | |].
  - intros y. destruct (decide (y = a)) as [->|Hne].
    + rewrite fn_lookup_insert, (msum_occ_put _ _ l _ 1), <- (so_pend _ _ _ _ Hx) by
        (done || (rewrite occ_cons, decide_True by done; lia)). lia.
    + rewrite fn_lookup_insert_ne, (msum_occ_put _ _ l _ 0), <- (so_pend _ _ _ _ Hx) by
        (done || (rewrite occ_cons, decide_False by done; lia)). lia.
  - intros c Hc. apply heads_put; [by eexists|by apply Hx].
  - intros c l0 y Hl0 Hy. rewrite Hi.
    assert (∃ cp0, items (st x) !! y = Some cp0 ∧ home (bkt_of (sha1 cp0)) = c) as (cp0&Hy0&Hc).
    { apply lookup_insert_Some in Hl0 as [[<- <-]|[_ Hl0]]; [|by eapply (so_reads _ _ _ _ Hx)].
      apply elem_of_cons in Hy as [->|Hy]; [|by eapply (so_reads _ _ _ _ Hx)].
      exists cp. split; [done|]. symmetry.
      by eapply disk_flag_home; [apply Hx|exact Ha|]. }
    destruct (decide (y = a)) as [->|Hne].
    + rewrite lookup_insert_eq. eexists. split; [done|]. cbn. congruence.
    + rewrite lookup_insert_ne by done. by exists cp0.
  - intros y cpy Hy. rewrite Hi in Hy.
    apply (keeps_insert _ _ cp) in Hy as (cp0&Hy&->); [|done|done].
    destruct (so_origin _ _ _ _ Hx y cp0 Hy) as (src0&n0&?&?). exists src0, n0.
    split; [apply elem_of_app; by left|done].
Qed.

Lemma packet_ok tr x C P dst src n :
  sys_ok tr x C P → enabled x (Packet dst src n) →
  wp False (run_op x (Packet dst src n)) (λ x', ∃ C' P', sys_ok (tr ++ [Packet dst src n]) x' C' P').
Proof.
  intros Hx (Hd&Hn&Hs&Hr). unfold run_op.
  assert (HP : ∀ a, Z.of_nat (P a) < 2 ^ 31 - 2).
  { intros a. rewrite (so_pend _ _ _ _ Hx). unfold total_reads in Hr.
    pose proof (msum_le (occ a) _ (reads x) (λ l, proj2 (occ_le a l))). lia. }
  destruct (hand_hash_inv Hmem C P (writing_of (frames x)) (st x) (reads x) src n dst)
    as (s'&h'&C'&P'&->&Hinv&Hh); [apply Hx|done|unfold SHALEN in Hn; lia|done|apply Hx|done|].
  cbn [mbind outcome_bind wp]. exists C', P'.
  destruct Hh as [s' b Hnew Hi|s' _ Hi|s' a cp Ha _ Hi|s' a cp l Ha Hf Hl Hi].
  - split; cbn [st reads frames]; try apply Hx; [done| |].
    + intros c l a Hl Ha. destruct (so_reads _ _ _ _ Hx c l a Hl Ha) as (cp&Hcp&?).
      exists cp. rewrite Hi, lookup_insert_ne by congruence. done.
    + intros a cp. rewrite Hi, lookup_insert_Some. intros [[<- <-]|[Hne Ha]].
      * exists src, n. cbn. rewrite take_ge, fn_lookup_insert by lia.
        split; [apply elem_of_app; right; apply list_elem_of_here|].
        split; [unfold SHALEN in Hn; lia|done].
      * destruct (so_origin _ _ _ _ Hx a cp Ha) as (src0&n0&?&?). exists src0, n0.
        rewrite fn_lookup_insert_ne by done. split; [apply elem_of_app; by left|done].
  - eapply sys_ok_quiet; [exact Hx|intros; apply elem_of_app; by left|done| |apply Hx].
    rewrite Hi. apply keeps_refl.
  - eapply sys_ok_quiet; [exact Hx|intros; apply elem_of_app; by left|done| |apply Hx].
    rewrite Hi. by eapply keeps_insert.
  - by eapply requested_ok.
Qed.

(** The read of a request fails. *)
Definition read_fails x (cpu : Z) (i : nat) : Prop :=
  ∃ l a cp, reads x !! cpu = Some l ∧ l !! i = Some a ∧ items (st x) !! a = Some cp ∧
    fetch_read (st x) cpu cp < 0.

(** The reasons for which a step may stop the machine. *)
Definition io_failure x (o : op) : Prop :=
  match o with
  | ReadBack cpu i => read_fails x cpu i
  | WorkStart b => disk_full (started b (st x)) b
  | WorkWrite cpu => ∃ b c n, frames x !! cpu = Some (Copied b c n) ∧
      write_fails (st x) cpu (copy_mem c)
  | _ => False
  end.

(** The item of a request is live and its file is the one of the list. *)
Lemma request_item tr x C P cpu l a :
  sys_ok tr x C P → reads x !! cpu = Some l → a ∈ l →
  ∃ cp, items (st x) !! a = Some cp ∧ cpu = cpuid cp ∧ P a ≠ 0%nat.
Proof.
  intros Hx Hl Ha. pose proof (pending_nonzero _ _ _ _ _ _ _ Hx Hl Ha) as HP.
  destruct (so_reads _ _ _ _ Hx _ _ _ Hl Ha) as (cp&Hcp&<-). exists cp. split; [done|].
  split; [|done].
  destruct (inv_item _ _ _ _ _ _ _ _ _ _ (so_store _ _ _ _ Hx) _ _ Hcp) as [_ _ _ _ _ (s0&Hst)].
  by destruct (pending_state _ _ _ _ _ _ _ Hst HP) as (_&->&_).
Qed.

Lemma read_back_ok tr x C P cpu i :
  sys_ok tr x C P → enabled x (ReadBack cpu i) →
  wp (read_fails x cpu i) (run_op x (ReadBack cpu i)) (λ x',
    (∃ P', sys_ok (tr ++ [ReadBack cpu i]) x' C P') ∧
    ∀ l a, reads x !! cpu = Some l → l !! i = Some a → ∃ cp, items (st x') !! a = Some cp ∧
      mem_ok cp (C a) ∧ length (C a) = Z.to_nat (len cp)).
Proof.
  intros Hx (l&a&Hl&Hi). unfold run_op. rewrite Hl. cbn [deref mbind outcome_bind].
  rewrite Hi. cbn [deref mbind outcome_bind].
  assert (Ha : a ∈ l) by by eapply list_elem_of_lookup_2.
  destruct (request_item _ _ _ _ _ _ _ Hx Hl Ha) as (cp&Hcp&Hcpu&HP).
  pose proof (read_item_inv Hmem C P _ (st x) cpu a cp (so_store _ _ _ _ Hx) Hcp HP Hcpu) as Hread.
  apply wp_bind. eapply wp_weaken; [|eapply wp_mono; [|exact Hread]].
  { intros Hf. by exists l, a, cp. }
  intros s' (Hinv&cp'&Hit&Hsha&Hcp'&Hm&Hlen). cbn [wp]. split.
  2: { intros l0 a0 [= <-] E2. cbn [st].
       rewrite Hi in E2. injection E2 as <-. exists cp'. by rewrite Hit, lookup_insert_eq. }
  destruct (remove_nth_split i l a Hi) as (l1&l2&El&Er).
  exists (<[a := pred (P a)]> P). split; cbn [st reads frames]; try apply Hx; [done| | | |].
  - intros y. destruct (decide (y = a)) as [->|Hne].
    + rewrite fn_lookup_insert, (msum_occ_put _ _ l _ (-1)), <- (so_pend _ _ _ _ Hx) by
        (done || (rewrite Er, El, !occ_app, occ_cons, decide_True by done; lia)). lia.
    + rewrite fn_lookup_insert_ne, (msum_occ_put _ _ l _ 0), <- (so_pend _ _ _ _ Hx) by
        (done || (rewrite Er, El, !occ_app, occ_cons, decide_False by done; lia)). lia.
  - intros c Hc. apply heads_put; [by eexists|by apply Hx].
  - intros c l0 y Hl0 Hy. rewrite Hit.
    assert (∃ cp0, items (st x) !! y = Some cp0 ∧ home (bkt_of (sha1 cp0)) = c) as (cp0&Hy0&Hc).
    { apply lookup_insert_Some in Hl0 as [[<- <-]|[_ Hl0]]; [|by eapply (so_reads _ _ _ _ Hx)].
      apply (so_reads _ _ _ _ Hx cpu l y Hl). rewrite Er in Hy. rewrite El.
      apply elem_of_app in Hy as [Hy|Hy]; apply elem_of_app; [by left|right].
      by apply list_elem_of_further. }
    destruct (decide (y = a)) as [->|Hne].
    + rewrite lookup_insert_eq. eexists. split; [done|]. rewrite Hsha. congruence.
    + rewrite lookup_insert_ne by done. by exists cp0.
  - intros y cpy Hy. rewrite Hit in Hy.
    apply (keeps_insert _ _ cp) in Hy as (cp0&Hy&->); [|done|done].
    destruct (so_origin _ _ _ _ Hx y cp0 Hy) as (src0&n0&?&?). exists src0, n0.
    split; [apply elem_of_app; by left|done].
Qed.

Lemma passed_keeps s b d m : passed s b d m → keeps (items s) m.
Proof.
  intros Hp a cp'. rewrite (Hp a). destruct (decide (a ∈ d)); [|by exists cp'].
  destruct (items s !! a) as [cp|]; [|done]. cbn. unfold survive.
  destruct (_ && _); [done|]. intros [= <-]. exists cp. split; [done|]. apply aged_same.
Qed.

Lemma in_tr (tr : list op) o o' : o' ∈ tr → o' ∈ tr ++ [o].
Proof. intros. apply elem_of_app. by left. Qed.

Lemma tick_ok tr x C P b :
  sys_ok tr x C P →
  wp False (run_op x (Tick b)) (λ x', sys_ok (tr ++ [Tick b]) x' C P).
Proof.
  intros Hx. unfold run_op. apply wp_bind.
  eapply wp_mono; [|apply (bucket_clear_item_inv Hmem C P _ (st x) b (so_store _ _ _ _ Hx))].
  intros s' [Hinv Hp]. cbn [wp].
  eapply sys_ok_quiet; [exact Hx|apply in_tr|exact Hinv|by eapply passed_keeps|apply Hx].
Qed.

Lemma work_start_ok tr x C P b :
  sys_ok tr x C P → enabled x (WorkStart b) →
  wp (disk_full (started b (st x)) b) (run_op x (WorkStart b)) (λ x',
    sys_ok (tr ++ [WorkStart b]) x' C P).
Proof.
  intros Hx [Hw Hf]. unfold run_op. cbv zeta.
  assert (HW : writing_of (frames x) (home b) = None) by (unfold writing_of; by rewrite Hf).
  pose proof (wr_prepare_inv Hmem C P _ (started b (st x)) b (so_store _ _ _ _ Hx) HW) as Hprep.
  apply wp_bind. eapply wp_mono; [|exact Hprep].
  intros [s' r] (E1&Hk%steady_keeps&Hr). cbn [fst snd] in *. cbn [wp].
  destruct r as [[c n]|].
  - destruct Hr as [Hinv Hn].
    eapply sys_ok_quiet; [exact Hx|apply in_tr| |exact Hk|].
    + eapply store_inv_ext; [done| |exact Hinv]. intros h. unfold writing_of.
      destruct (decide (h = home b)) as [->|Hne].
      * by rewrite fn_lookup_insert, lookup_insert_eq.
      * by rewrite fn_lookup_insert_ne, lookup_insert_ne by done.
    + intros h f. rewrite lookup_insert_Some. intros [[<- <-]|[_ Hh]]; [done|].
      by apply (so_frames _ _ _ _ Hx).
  - eapply sys_ok_quiet; [exact Hx|apply in_tr|exact Hr|exact Hk|apply Hx].
Qed.

Lemma work_write_ok tr x C P cpu :
  sys_ok tr x C P → enabled x (WorkWrite cpu) →
  wp (io_failure x (WorkWrite cpu)) (run_op x (WorkWrite cpu)) (λ x',
    sys_ok (tr ++ [WorkWrite cpu]) x' C P).
Proof.
  intros Hx (b&c&n&Hf). unfold run_op. rewrite Hf. cbn [deref mbind outcome_bind].
  destruct (so_frames _ _ _ _ Hx _ _ Hf) as [<- ->].
  assert (HW : writing_of (frames x) (home b)
    = Some (Writing (copy_mem c) (Z.of_nat (length (copy_mem c))))) by (unfold writing_of; by rewrite Hf).
  apply wp_bind. eapply wp_weaken; [|eapply wp_mono; [|apply (wr_write_inv C P _ (st x) (home b)
    (copy_mem c) (st_all_size c) (so_store _ _ _ _ Hx) (home_range b) HW)]].
  { intros Hw. by exists b, c, (Z.of_nat (length (copy_mem c))). }
  intros s' (Hinv&_&Hk%steady_keeps). cbn [wp].
  eapply sys_ok_quiet; [exact Hx|apply in_tr| |exact Hk|].
  - eapply store_inv_ext; [done| |exact Hinv]. intros h. unfold writing_of.
    destruct (decide (h = home b)) as [->|Hne].
    + by rewrite fn_lookup_insert, lookup_insert_eq.
    + by rewrite fn_lookup_insert_ne, lookup_insert_ne by done.
  - intros h f. rewrite lookup_insert_Some. intros [[<- <-]|[_ Hh]]; [done|].
    by apply (so_frames _ _ _ _ Hx).
Qed.

Lemma work_finish_ok tr x C P cpu :
  sys_ok tr x C P → enabled x (WorkFinish cpu) →
  wp False (run_op x (WorkFinish cpu)) (λ x', sys_ok (tr ++ [WorkFinish cpu]) x' C P).
Proof.
  intros Hx (b&Hf). unfold run_op. rewrite Hf. cbn [deref mbind outcome_bind].
  pose proof (so_frames _ _ _ _ Hx _ _ Hf) as Hb. cbn in Hb. subst cpu.
  assert (HW : writing_of (frames x) (home b) = None) by (unfold writing_of; by rewrite Hf).
  apply wp_bind.
  eapply wp_mono; [|apply (wr_finish_inv C P _ (st x) b (so_store _ _ _ _ Hx) HW)].
  intros s' (Hinv&_&Hk%steady_keeps). cbn [wp].
  eapply sys_ok_quiet; [exact Hx|apply in_tr| |exact Hk|].
  - eapply store_inv_ext; [done| |exact Hinv]. intros h. unfold writing_of.
    destruct (decide (h = home b)) as [->|Hne].
    + by rewrite lookup_delete_eq, Hf.
    + by rewrite lookup_delete_ne by done.
  - intros h f [_ Hh]%lookup_delete_Some. by apply (so_frames _ _ _ _ Hx).
Qed.

Lemma step_ok tr x C P o :
  sys_ok tr x C P → enabled x o →
  wp (io_failure x o) (run_op x o) (λ x', ∃ C' P', sys_ok (tr ++ [o]) x' C' P').
Proof.
  intros Hx He. destruct o.
  - by apply (packet_ok tr x C P).
  - eapply wp_mono; [|by apply (read_back_ok tr x C P)]. intros x' [(P'&?) _]. by exists C, P'.
  - eapply wp_mono; [|by apply (tick_ok tr x C P)]. intros x' ?. by exists C, P.
  - eapply wp_mono; [|by apply (work_start_ok tr x C P)]. intros x' ?. by exists C, P.
  - eapply wp_mono; [|by apply (work_write_ok tr x C P)]. intros x' ?. by exists C, P.
  - eapply wp_mono; [|by apply (work_finish_ok tr x C P)]. intros x' ?. by exists C, P.
Qed.

Lemma initial_ok x : initial x → sys_ok [] x (λ _, []) (λ _, 0%nat).
Proof.
  intros [Hi Ht Hc Hctr Hcpus Hr Hf].
  assert (Hocc : ∀ a, msum (occ a) (reads x) = 0).
  { intros a. assert (∀ c l, reads x !! c = Some l → l = []) as Hnil.
    { intros c l. rewrite Hr. case_decide; [by intros [= <-]|done]. }
    clear Hr. induction (reads x) as [|c l h Hcl IH] using map_ind; [apply msum_empty|].
    rewrite msum_insert_new by done. rewrite (Hnil c l) by apply lookup_insert_eq.
    rewrite IH; [done|]. intros c' l' Hl'. apply (Hnil c'). rewrite lookup_insert_ne; [done|].
    congruence. }
  split.
  - split; rewrite ?Hi; try (intros; by rewrite ?lookup_empty in *).
    + intros b a. change (bucket_in (hash_tab (st x)) b) with (bucket (st x) b). rewrite Ht.
      split; [by intros ?%not_elem_of_nil|]. intros (cp&Ha&_). by rewrite lookup_empty in Ha.
    + intros b. change (bucket_in (hash_tab (st x)) b) with (bucket (st x) b). rewrite Ht.
      constructor.
    + rewrite Hc. split; [done|]. pose proof hash_max_count_range. lia.
    + intros j Hj. by rewrite Hctr, msum_empty.
    + intros h Hh. destruct (Hcpus h Hh) as (pc&Hpc&E1&E2&E3). exists pc. split; [done|].
      unfold writing_of. rewrite Hf, lookup_empty. pose proof bitmap_size_range.
      split; rewrite ?E1, ?E2, ?E3; cbn [used]; try done; lia.
  - intros a. by rewrite Hocc.
  - intros c Hcr. rewrite Hr, decide_True by done. by eexists.
  - intros c l a. rewrite Hr. case_decide; [|done]. intros [= <-] Ha. by apply not_elem_of_nil in Ha.
  - intros c f. by rewrite Hf, lookup_empty.
  - intros a cp. by rewrite Hi, lookup_empty.
Qed.

Lemma reached_ok tr x : reached tr x → ∃ C P, sys_ok tr x C P.
Proof.
  induction 1 as [x Hx|tr x o x' Hreach (C&P&Hx) He Hrun].
  - eexists _, _. by apply initial_ok.
  - by apply (wp_done _ _ _ _ (step_ok tr x C P o Hx He)).
Qed.
End sys_inv.
