(* ===== verification/StoreSpec.v ===== *)
(** What the chunk store guarantees, whatever the order of its steps: it does
    not fault, keeps the contents of every chunk in memory, on disk and back,
    and frees what it has taken. *)
From S2P Require Import Prelude JenHash Rabin Bitmap Store HashTable Aging NfIn StoreInv StoreOps.
From S2P Require Import AgingOps DiskOps System.
#[local] Open Scope Z_scope.

(** ** A small system to evaluate the definitions on *)

#[local] Instance demo_params : StoreParams :=
  {| hash_max_count := 100; bitmap_size := 64; num_online_cpus := 1 |}.
#[local] Instance demo_params_laws : StoreParamsLaws.
Proof. split; simpl; lia. Qed.

Definition demo0 : sys :=
  Sys (Store _ ∅ 1 0 ∅ 0 (λ _, 0) {[ 0 := PerCpu _ ∅ 0 0 [] ]} ∅) {[ 0 := [] ]} ∅.

Lemma demo0_initial : initial demo0.
Proof.
  split; try done.
  - intros c Hc. assert (c = 0) as -> by (unfold num_online_cpus, demo_params in Hc; lia).
    by eexists.
  - intros c. unfold demo0, reads, num_online_cpus, demo_params.
    destruct (decide (c = 0)) as [->|Hne]; [done|].
    rewrite lookup_singleton_ne by done. rewrite decide_False; [done|]. lia.
Qed.

#[export] Instance enabled_dec `{VFS, StoreParams} x o : Decision (enabled x o).
Proof.
  destruct o as [dst src n|cpu i|b|b|cpu|cpu]; simpl; [apply _| |apply _| | |].
  - destruct (reads x !! cpu) as [l|]; [destruct (l !! i) as [a|] eqn:E|].
    + left. by exists l, a.
    + right. intros (l'&a&[= <-]&?). congruence.
    + right. by intros (l'&a&?&_).
  - destruct (frames x !! home b); [right; by intros [_ ?]|].
    destruct (decide (b ∈ works (st x))); [by left|right; by intros [? _]].
  - destruct (frames x !! cpu) as [[b c n|b]|]; [left; by eauto|right..]; by intros (?&?&?&?).
  - destruct (frames x !! cpu) as [[b c n|b]|]; [right|left; by eauto|right]; by intros (?&?).
Defined.

(** The steps of a list, each in a state where it is enabled. *)
Definition run_step `{Allocator, VFS, StoreParams, BitSearch} (x : sys) (o : op) : outcome sys :=
  if decide (enabled x o) then run_op x o else Oops.

Lemma run_reached `{Allocator, VFS, StoreParams, BitSearch} tr x l x' :
  reached tr x → ofold run_step x l = Done x' → reached (tr ++ l) x'.
Proof.
  revert tr x. induction l as [|o l IH]; intros tr x Hx E; cbn [ofold] in E.
  - injection E as <-. by rewrite app_nil_r.
  - destruct (run_step x o) as [x1| |] eqn:E1; [|done..].
    unfold run_step in E1. destruct (decide (enabled x o)); [|done].
    rewrite cons_middle, app_assoc. apply (IH _ x1); [|done]. by eapply reached_step.
Qed.

(** Two chunks; the first goes to disk and is asked for again. *)
Definition demo_digest : list Z := seqZ 1 20.
Definition demo_bucket : Z := Eval vm_compute in bkt_of demo_digest.
Definition demo_chunk : list Z := seqZ 65 40.
Definition demo_trace : list op :=
  [ Packet demo_digest demo_chunk 40; Packet demo_digest demo_chunk 40;
    Packet (seqZ 2 20) (seqZ 1 30) 30; Tick demo_bucket; WorkStart demo_bucket;
    WorkWrite 0; WorkFinish 0; Packet demo_digest demo_chunk 40 ].
Definition demo : sys := Eval vm_compute in
  match ofold run_step demo0 demo_trace with Done x => x | _ => demo0 end.
Lemma demo_reached : reached demo_trace demo.
Proof.
  apply (run_reached [] demo0); [apply reached_init, demo0_initial|].
  vm_cast_no_check (eq_refl (Done demo)).
Qed.

(** ** Safety *)

Section spec.
  Context `{AllocatorLaws} `{VFSLaws} `{StoreParamsLaws} `{BitSearchLaws}.
  Implicit Types (s : store) (x : sys).


(** ** Contents *)

(** The data of the item is in memory, as [flag_cache] and [flag_mem] say. *)
Definition in_memory (cp : hashinfo_item) : Prop :=
  flag_cache cp ≠ 1 ∧ (flag_cache cp = 4 → flag_mem cp = 1).
(** ... and the file of its CPU holds it. *)
Definition in_file (cp : hashinfo_item) : Prop := flag_cache cp = 1 ∨ flag_cache cp = 4.

Definition memory_bytes (cp : hashinfo_item) : option (list Z) :=
  match data cp with
  | Live b => if decide (Z.to_nat (len cp) ≤ length b)%nat
              then Some (take (Z.to_nat (len cp)) b) else None
  | _ => None
  end.
Definition file_bytes s (cp : hashinfo_item) : option (list Z) :=
  pc ← cpus s !! cpuid cp;
  Some (slice (Z.to_nat (CHUNKSTEP * start cp)) (Z.to_nat (len cp)) (fview (reserve_file pc))).

Lemma mem_ok_bytes cp ct : mem_ok cp ct → len cp = Z.of_nat (length ct) → memory_bytes cp = Some ct.
Proof.
  intros (_&b&Hd&Hl&Hb) Hlen. unfold memory_bytes. rewrite Hd, Hlen, Nat2Z.id.
  by rewrite decide_True, Hb.
Qed.




(** ** The table and the counters *)


(** C16. The memory statistics are exact: [mm1], [mm2], [mm3] and [mm0] are the
    bytes of the items whose data is in a slab of one, two and three units and
    in a [kmalloc] block. *)
Theorem memory_counters_exact tr x j :
  (∀ n, alloc_ok n = true) → reached tr x → 0 ≤ j ≤ 3 →
  ctr (st x) (mm_of j) = s64 (msum (style_weight j) (items (st x))).
Proof.
  intros Hmem Hx Hj. destruct (reached_ok Hmem tr x Hx) as (C&P&Hok).
  by apply (inv_ctr _ _ _ _ _ _ _ _ _ _ (so_store _ _ _ _ Hok)).
Qed.

(** C17. When no read is pending, [hash_flush] terminates without stopping the
    machine and frees everything: no item is left, every bucket is empty, and
    the item count and the four memory counters are back to zero. *)
Theorem hash_flush_frees_all tr x :
  (∀ n, alloc_ok n = true) → reached tr x → (∀ c l, reads x !! c = Some l → l = []) →
  ∃ s', hash_flush (st x) = Done s' ∧ items s' = ∅ ∧ (∀ b, bucket s' b = []) ∧
    hash_count s' = 0 ∧ ∀ j, 0 ≤ j ≤ 3 → ctr s' (mm_of j) = 0.
Proof.
  intros Hmem Hx Hr. destruct (reached_ok Hmem tr x Hx) as (C&P&Hok).
  assert (HP : ∀ a, P a = 0%nat).
  { intros a. destruct (decide (P a = 0%nat)) as [|HP]; [done|]. exfalso.
    pose proof (so_pend _ _ _ _ Hok a) as Hp.
    assert (msum (occ a) (reads x) = 0); [|lia].
    rewrite <- (msum_empty (occ a) (A := list Z)). clear -Hr.
    induction (reads x) as [|c l h Hcl IH] using map_ind; [done|].
    rewrite msum_insert_new by done. rewrite (Hr c l) by apply lookup_insert_eq. cbn.
    rewrite IH; [done|]. intros c' l' Hl'. apply (Hr c'). rewrite lookup_insert_ne; [done|].
    congruence. }
  destruct (wp_total _ _ (hash_flush_inv C P _ (st x) (so_store _ _ _ _ Hok) HP))
    as (s'&E&Hinv&Hi).
  exists s'. split; [done|]. split; [done|].
  destruct Hinv as [_ Ht _ _ [Hc _] _ _ Hm _]. rewrite Hi in *. split; [|split; [done|]].
  - intros b. destruct (bucket s' b) as [|a l] eqn:Eb; [done|].
    assert (a ∈ bucket_in (hash_tab s') b) as Hin.
    { change (bucket_in (hash_tab s') b) with (bucket s' b). rewrite Eb. apply list_elem_of_here. }
    apply Ht in Hin as (cp&Ha&_). by rewrite lookup_empty in Ha.
  - intros j Hj. by rewrite (Hm j Hj), msum_empty.
Qed.

(** ** The state machine of an item *)

(** The transitions of [flag_cache] that a step may make. *)
Definition moves (o : op) (f f' : Z) : Prop :=
  f' = f ∨
  match o with
  | Packet _ _ _ => f = 1 ∧ f' = 4
  | ReadBack _ _ => False
  | Tick _ => f = 0 ∧ (f' = 2 ∨ f' = 3) ∨ f = 2 ∧ f' = 3
  | WorkStart _ | WorkWrite _ | WorkFinish _ => f = 2 ∧ f' = 1
  end.

Lemma survive_moves cp cp' : survive cp = Some cp' → moves (Tick 0) (flag_cache cp) (flag_cache cp').
Proof.
  unfold survive, moves. destruct (_ && _); [done|]. intros [= <-].
  destruct (aged_flag cp) as [?|[[? ?]|(?&?&?)]]; auto.
Qed.

Lemma steady_moves o s s' a cp' : steady s s' →
  (∀ f f', f' = f ∨ f = 2 ∧ f' = 1 → moves o f f') → items s' !! a = Some cp' →
  ∃ cp, items s !! a = Some cp ∧ sha1 cp' = sha1 cp ∧ moves o (flag_cache cp) (flag_cache cp').
Proof. intros [_ Hk] Ho (cp&?&?&?)%Hk. exists cp. auto. Qed.

Lemma work_moves tr x C P o x' a cp' :
  (∀ n, alloc_ok n = true) → sys_ok tr x C P → enabled x o → run_op x o = Done x' →
  match o with WorkStart _ | WorkWrite _ | WorkFinish _ => True | _ => False end →
  items (st x') !! a = Some cp' →
  ∃ cp, items (st x) !! a = Some cp ∧ sha1 cp' = sha1 cp ∧
    (flag_cache cp' = flag_cache cp ∨ flag_cache cp = 2 ∧ flag_cache cp' = 1).
Proof.
  intros Hmem Hok He Hrun Ho Ha.
  assert (steady (st x) (st x') ∨ keeps_by disk_step (items (st x)) (items (st x'))) as Hst.
  { destruct o as [| | |b|cpu|cpu]; try done; unfold run_op in Hrun.
    - assert (HW : writing_of (frames x) (home b) = None)
        by (unfold writing_of; by rewrite (proj2 He)).
      pose proof (wr_prepare_inv Hmem C P _ (started b (st x)) b (so_store _ _ _ _ Hok) HW) as Hw.
      destruct (wr_prepare _ _ _) as [[s' r]| |]; [|done..]. injection Hrun as <-.
      destruct Hw as (_&[_ Hk]&_). by right.
    - destruct He as (b&c&n&Hf). rewrite Hf in Hrun. cbn [deref mbind outcome_bind] in Hrun.
      destruct (so_frames _ _ _ _ Hok _ _ Hf) as [<- ->].
      pose proof (wr_write_inv C P (writing_of (frames x)) (st x) (home b) (copy_mem c)
        (st_all_size c) (so_store _ _ _ _ Hok) (home_range b)
        ltac:(unfold writing_of; by rewrite Hf)) as Hw.
      destruct (wr_write _ _ _ _ _) as [s'| |]; [|done..]. injection Hrun as <-.
      left. by apply Hw.
    - destruct He as (b&Hf). rewrite Hf in Hrun. cbn [deref mbind outcome_bind] in Hrun.
      pose proof (so_frames _ _ _ _ Hok _ _ Hf) as Hb. cbn in Hb. subst cpu.
      pose proof (wr_finish_inv C P (writing_of (frames x)) (st x) b (so_store _ _ _ _ Hok)
        ltac:(unfold writing_of; by rewrite Hf)) as Hw.
      destruct (wr_finish _ _) as [s'| |]; [|done..]. injection Hrun as <-. left. by apply Hw. }
  destruct Hst as [[_ Hk]|Hk]; by apply Hk.
Qed.

(** One lemma for each kind of step: an item that is there afterwards is new, or
    moved. *)
Definition moved (o : op) (x : sys) (a : Z) (cp' : hashinfo_item) : Prop :=
  ∃ cp, items (st x) !! a = Some cp ∧ sha1 cp' = sha1 cp ∧ moves o (flag_cache cp) (flag_cache cp').
Lemma moved_same o x a cp' : items (st x) !! a = Some cp' → moved o x a cp'.
Proof. intros Ha. exists cp'. split; [done|]. split; [done|by left]. Qed.
Lemma moved_insert o x m y cp f a cp' :
  items (st x) !! y = Some cp → sha1 f = sha1 cp → moves o (flag_cache cp) (flag_cache f) →
  m = <[y := f]> (items (st x)) → m !! a = Some cp' → moved o x a cp'.
Proof.
  intros Hy Ef Hm -> [[<- <-]|[_ Ha]]%lookup_insert_Some; [by exists cp|by apply moved_same].
Qed.

Lemma packet_moves tr x C P dst src n x' a cp' :
  (∀ n, alloc_ok n = true) → sys_ok tr x C P → enabled x (Packet dst src n) →
  run_op x (Packet dst src n) = Done x' → items (st x') !! a = Some cp' →
  (items (st x) !! a = None ∧ flag_cache cp' = 0) ∨ moved (Packet dst src n) x a cp'.
Proof.
  intros Hmem Hok (Hd&Hn&Hs&Hr) Hrun Ha. unfold SHALEN in Hn.
  assert (HP : ∀ a, Z.of_nat (P a) < 2 ^ 31 - 2).
  { intros y. rewrite (so_pend _ _ _ _ Hok). unfold total_reads in Hr.
    pose proof (msum_le (occ y) _ (reads x) (λ l, proj2 (occ_le y l))). lia. }
  destruct (hand_hash_inv Hmem C P _ (st x) (reads x) src n dst (so_store _ _ _ _ Hok) Hd
    ltac:(lia) Hs (so_heads _ _ _ _ Hok) HP) as (s'&h'&C'&P'&E&_&Hh).
  unfold run_op in Hrun. rewrite E in Hrun. injection Hrun as <-. cbn in Ha.
  destruct Hh as [s' b Hnew Hi|s' _ Hi|s' y cp Hy _ Hi|s' y cp l Hy Hf _ Hi].
  - rewrite Hi in Ha. apply lookup_insert_Some in Ha as [[<- <-]|[_ Ha]]; [by left|right; by apply moved_same].
  - right. rewrite Hi in Ha. by apply moved_same.
  - right. refine (moved_insert _ x _ y cp _ a cp' Hy _ _ Hi Ha); [done|by left].
  - right. refine (moved_insert _ x _ y cp _ a cp' Hy _ _ Hi Ha); [done|].
    unfold disk_flag in Hf. unfold moves. cbn. lia.
Qed.
Lemma read_moves tr x C P cpu i x' a cp' :
  (∀ n, alloc_ok n = true) → sys_ok tr x C P → enabled x (ReadBack cpu i) →
  run_op x (ReadBack cpu i) = Done x' → items (st x') !! a = Some cp' → moved (ReadBack cpu i) x a cp'.
Proof.
  intros Hmem Hok (l&y&Hl&Hi) Hrun Ha. unfold run_op in Hrun. rewrite Hl in Hrun.
  cbn [deref mbind outcome_bind] in Hrun. rewrite Hi in Hrun. cbn [deref mbind outcome_bind] in Hrun.
  destruct (request_item _ _ _ _ _ _ _ Hok Hl (list_elem_of_lookup_2 _ _ _ Hi)) as (cp&Hy&Hc&HP).
  pose proof (read_item_inv Hmem C P _ (st x) cpu y cp (so_store _ _ _ _ Hok) Hy HP Hc) as Hr.
  destruct (read_item cpu (st x) y) as [s'| |]; [|done..]. injection Hrun as <-. cbn in Ha.
  destruct Hr as (_&cp1&E1&E2&E3&_). refine (moved_insert _ x _ y cp _ a cp' Hy _ _ E1 Ha); [done|by left].
Qed.
Lemma tick_moves tr x C P b x' a cp' :
  (∀ n, alloc_ok n = true) → sys_ok tr x C P →
  run_op x (Tick b) = Done x' → items (st x') !! a = Some cp' → moved (Tick b) x a cp'.
Proof.
  intros Hmem Hok Hrun Ha. unfold run_op in Hrun.
  pose proof (bucket_clear_item_inv Hmem C P _ (st x) b (so_store _ _ _ _ Hok)) as Hb.
  destruct (bucket_clear_item (st x) b) as [s'| |]; [|done..]. injection Hrun as <-. cbn in Ha.
  destruct Hb as [_ Hp]. rewrite (Hp a) in Ha. destruct (decide _); [|by apply moved_same].
  destruct (items (st x) !! a) as [cp|] eqn:Ex; [|done]. cbn in Ha.
  exists cp. split; [done|]. split; [|exact (survive_moves _ _ Ha)].
  unfold survive in Ha. destruct (_ && _); [done|]. injection Ha as <-. apply aged_same.
Qed.


(** ** A pass of the timer *)

(** C18. A run of [bucket_clear_item] deletes exactly the items of its bucket
    that have one citation left and no other reference, ages every other item of
    the bucket by one citation, and leaves all other items alone. *)
Theorem bucket_clear_item_pass tr x b :
  (∀ n, alloc_ok n = true) → reached tr x →
  ∃ s', bucket_clear_item (st x) b = Done s' ∧
    ∀ a cp, items (st x) !! a = Some cp →
      items s' !! a =
        if decide (bkt_of (sha1 cp) = b) then
          if (share_ref cp =? 1) && (refcnt cp <=? 1) then None else Some (aged cp)
        else Some cp.
Proof.
  intros Hmem Hx. destruct (reached_ok Hmem tr x Hx) as (C&P&Hok).
  pose proof (so_store _ _ _ _ Hok) as Hinv.
  destruct (wp_total _ _ (bucket_clear_item_inv Hmem C P _ (st x) b Hinv)) as (s'&E&_&Hp).
  exists s'. split; [done|]. intros a cp Ha. rewrite (Hp a), Ha. cbn.
  pose proof (inv_tab _ _ _ _ _ _ _ _ _ _ Hinv b a) as Ht.
  change (bucket_in (hash_tab (st x)) b) with (bucket (st x) b) in Ht.
  destruct (decide (a ∈ bucket (st x) b)) as [Hin|Hin]; case_decide as Hb; try done.
  - exfalso. apply Ht in Hin as (cp'&Ha'&Hb'). congruence.
  - exfalso. apply Hin, Ht. by exists cp.
Qed.

(** ** Accounting *)

Lemma add_hash_info_ctr s info value n s' r k :
  add_hash_info s info value n = Done (s', r) → not_mm k = true → ctr s' k = ctr s k.
Proof.
  unfold add_hash_info, hash_new_item. intros E Hk. 
  destruct (_ <? _); [by injection E as <- <-|].
  destruct (alloc_ok _); [|by injection E as <- <-].
  cbv zeta in E. set (s1 := put_item _ _ _) in E.
  destruct (alloc_data_memory s1 _ _) as [s2| |] eqn:Ea; [|done..].
  cbn [mbind outcome_bind] in E.
  destruct (read_bytes value _) as [src| |]; [|done..]. cbn [mbind outcome_bind] in E.
  destruct (copy_data _ _ _) as [s3| |] eqn:Ec; [|done..]. cbn [mbind outcome_bind] in E.
  destruct (get_item _ _) as [it| |]; [|done..]. cbn [mbind outcome_bind] in E.
  destruct (read_bytes info _) as [sha| |]; [|done..]. cbn [mbind outcome_bind] in E.
  injection E as <- <-. cbn.
  assert (ctr s3 = ctr s2) as ->.
  { unfold copy_data in Ec. destruct (get_item s2 _) as [c| |]; [|done..].
    cbn [mbind outcome_bind] in Ec. destruct (memcpy _ _); [|done..]. by injection Ec as <-. }
  assert (∀ r st0 k0 n0 s4, ctr (snd r) = ctr s → not_mm k0 = false →
    place_data (next_addr s) r st0 k0 n0 = Done s4 → ctr s4 k = ctr s k) as Hplace.
  { intros [[b|] s5] st0 k0 n0 s4 Es Hk0 E4; [|done]. unfold place_data in E4.
    destruct (get_item s5 _) as [c| |]; [|done..]. injection E4 as <-.
    rewrite ctr_ctr_add, decide_False by congruence. cbn in *. congruence. }
  unfold alloc_data_memory in Ea. destruct (get_item s1 _) as [c| |]; [|done..].
  cbn [mbind outcome_bind] in Ea.
  destruct (0 <=? _); [by injection Ea as <-|].
  repeat (destruct (_ <=? _); [by eapply Hplace in Ea|]). by eapply Hplace in Ea.
Qed.

(** Every chunk handed over is counted in [sum_num], and in [save_num] the
    bytes its digest replaces (all but the 22 bytes a reference takes) exactly
    when the digest is already in the table. *)
Lemma hand_hash_accounting tr x h src n dst s' h' :
  (∀ n, alloc_ok n = true) → reached tr x → length dst = 20%nat →
  hand_hash (st x) h src n dst = Done (s', h') →
  ctr s' sum_num = s64 (ctr (st x) sum_num + n) ∧
  ((∃ a cp, items (st x) !! a = Some cp ∧ sha1 cp = dst) →
     ctr s' save_num = s64 (ctr (st x) save_num + (n - 22))) ∧
  ((∀ a cp, items (st x) !! a = Some cp → sha1 cp ≠ dst) →
     ctr s' save_num = ctr (st x) save_num).
Proof.
  intros Hmem Hx Hd E. destruct (reached_ok Hmem tr x Hx) as (C&P&Hok).
  unfold hand_hash in E.
  destruct (get_hash_item_spec C P _ [] (st x) dst (so_store _ _ _ _ Hok) Hd)
    as [[Eg Hno]|(a&cp&Ha&Hsha&Eg)]; rewrite Eg in E; cbn [mbind outcome_bind] in E.
  - destruct (add_hash_info _ _ _ _) as [[s1 r]| |] eqn:Eadd; [|done..].
    injection E as <- <-.
    rewrite !ctr_ctr_add, decide_True, decide_False by done.
    rewrite !(add_hash_info_ctr _ _ _ _ _ _ _ Eadd) by done. split; [done|].
    split; [|done]. intros (a&cp&Ha&Hs). by destruct (Hno a cp Ha).
  - set (s1 := ctr_add save_num _ (ctr_add sum_num _ _)) in E.
    assert (Hc : ctr s1 sum_num = s64 (ctr (st x) sum_num + n) ∧
      ctr s1 save_num = s64 (ctr (st x) save_num + (n - 22))).
    { subst s1. rewrite !ctr_ctr_add, (decide_True (P := save_num = save_num)),
        (decide_True (P := sum_num = sum_num)), !decide_False by done.
      cbn [put_item set_items ctr]. by rewrite !devote_ctr by auto. }
    assert (Hs' : ctr s' = ctr s1).
    { destruct (get_item s1 a) as [it| |]; [|done..]. cbn [mbind outcome_bind] in E.
      destruct (negb _); [by injection E as <- <-|]. unfold request_read in E.
      rewrite Hmem in E. destruct (_ <=? _); [done|].
      destruct (deref _); [|done..]. by injection E as <- <-. }
    rewrite Hs'. split; [apply Hc|]. split; [intros _; apply Hc|].
    intros Hno. by destruct (Hno a cp Ha).
Qed.
End spec.

(** ** Two behaviours the code does not intend *)

Section surprises.
  Context `{Allocator} `{VFS} `{StoreParams} `{BitSearch}.
  Implicit Types s : store.

(** [hash_del_item] never deletes: it increments [refcnt] before it tests it
    for 2 and then tests the same counter for 1, so that the item, its data and
    the count stay as they were (at most the item moves to the head of its
    bucket). *)
Lemma hash_del_item_deletes_nothing s a cp :
  items s !! a = Some cp → - 2 ^ 31 ≤ refcnt cp < 2 ^ 31 → a ∈ bucket s (bkt_of (sha1 cp)) →
  ∃ s', hash_del_item s a = Done s' ∧ items s' = items s ∧ hash_count s' = hash_count s ∧
    ctr s' = ctr s ∧ ∀ b x, x ∈ bucket s' b ↔ x ∈ bucket s b.
Proof.
  intros Ha Hr Hin. unfold hash_del_item. rewrite (get_item_bind _ _ cp) by done. cbv zeta.
  set (cp1 := set_refcnt (atomic_inc (refcnt cp)) cp).
  assert (Eback : set_refcnt (atomic_dec (refcnt cp1)) cp1 = cp).
  { destruct cp as [r ? ? ? ? ? ? ? ? ? ?]. cbn in *. unfold cp1, set_refcnt. cbn. f_equal.
    unfold atomic_dec, atomic_inc, atomic_add, s32.
    replace ((r + 1 + 2 ^ 31) mod 2 ^ 32 - 2 ^ 31 + -1 + 2 ^ 31)
      with ((r + 1 + 2 ^ 31) mod 2 ^ 32 - 1) by lia.
    rewrite Zminus_mod_idemp_l, Z.mod_small; lia. }
  assert (Hback : ∀ t, (get_item (set_hash_tab t (put_item a cp1 s)) a ≫= λ cp0,
    Done (put_item a (set_refcnt (atomic_dec (refcnt cp0)) cp0) (set_hash_tab t (put_item a cp1 s))))
    = Done (set_hash_tab t s)).
  { intros t. erewrite get_item_bind by apply lookup_insert_eq. rewrite Eback.
    unfold put_item, set_hash_tab, set_items. cbn. rewrite insert_insert_eq, insert_id by done.
    by destruct s. }
  destruct (Z.eqb_spec (refcnt cp1) 2) as [Hr2|Hr2].
  - erewrite get_item_bind by apply lookup_insert_eq. rewrite Hr2. change (2 =? 1) with false.
    cbn [mbind outcome_bind]. set (b1 := bkt_of (sha1 cp1)).
    change (_hash b1 a (_unhash b1 a (put_item a cp1 s))) with
      (set_hash_tab (hash_tab (_hash b1 a (_unhash b1 a s))) (put_item a cp1 s)).
    rewrite Hback. eexists. split; [done|]. do 3 (split; [done|]).
    intros b x. unfold bucket. cbn. subst b1. change (sha1 cp1) with (sha1 cp).
    set (b0 := bkt_of (sha1 cp)) in *.
    assert (bucket (_unhash b0 a s) b0 = filter (.≠ a) (bucket s b0)) as ->
      by (unfold bucket at 1, _unhash, list_del; cbn; by rewrite lookup_insert_eq).
    destruct (decide (b = b0)) as [->|Hb]; [|by rewrite !lookup_insert_ne].
    rewrite lookup_insert_eq. cbn. change (default [] (hash_tab s !! b0)) with (bucket s b0).
    rewrite elem_of_cons, list_elem_of_filter. destruct (decide (x = a)) as [->|Hx]; tauto.
  - cbn [mbind outcome_bind]. pose proof (Hback (hash_tab s)) as Hb.
    assert (E : set_hash_tab (hash_tab s) (put_item a cp1 s) = put_item a cp1 s) by done.
    rewrite E in Hb. rewrite Hb. eexists. split; [done|]. by destruct s.
Qed.
End surprises.

(** [wr_file] on the bucket of the first demo chunk, with a packet of that chunk
    on another CPU between the two passes: [get_hash_item] has taken its
    reference when the second pass comes, and drops it after. *)
Definition race : outcome store :=
  x ← ofold run_step demo0 [ Packet demo_digest demo_chunk 40; Packet demo_digest demo_chunk 40;
                             Tick demo_bucket ];
  '(s, all_size) ← wr_mark (st x) demo_bucket;
  '(s, _) ← get_hash_item s demo_digest;
  '(s, c) ← wr_copy s 0 demo_bucket all_size;
  cp ← get_item s 1;
  let s := put_item 1 (set_share_ref (atomic_dec (share_ref cp)) cp) s in
  s ← wr_write s 0 (copy_mem c) all_size (st_all_size c);
  wr_finish s demo_bucket.

(** ... and then the life of a second chunk, undisturbed. *)
Definition race_digest : list Z := seqZ 2 20.
Definition race_chunk : list Z := seqZ 1 30.
Definition after_race : outcome store :=
  s ← race;
  x ← ofold run_step (Sys s {[ 0 := [] ]} ∅)
    [ Packet race_digest race_chunk 30; Packet race_digest race_chunk 30;
      Tick (bkt_of race_digest) ];
  wr_file (st x) 0 (bkt_of race_digest).

Definition race_end : store := Eval vm_compute in
  match after_race with Done s => s | _ => st demo0 end.
Definition race_item : hashinfo_item := Eval vm_compute in
  default (item0 0) (items race_end !! 2).

(** [wr_file] sums the sizes in its first pass and places the items in its
    second, but both only hold the read lock: a lookup between them makes the
    second pass skip an item that the first has counted, so that the file
    position runs ahead of the bitmap and every chunk written later is read
    back from the wrong place. *)
Lemma wr_file_race_loses_data :
  ∃ s cp, after_race = Done s ∧ items s !! 2 = Some cp ∧ sha1 cp = race_digest ∧
    flag_cache cp = 1 ∧ file_bytes s cp ≠ Some race_chunk.
Proof.
  exists race_end, race_item. split; [vm_cast_no_check (eq_refl (Done race_end))|].
  do 3 (split; [reflexivity|]). by vm_compute.
Qed.

(** ** The theorems on the small system *)

#[local] Hint Resolve demo_reached : wspack.
Lemma demo_memory : ∀ n, alloc_ok n = true.
Proof. done. Qed.
Lemma demo_enabled : enabled demo (ReadBack 0 0).
Proof. by exists [1], 1. Qed.

(** The system once the request is served. *)
Definition demo_read : sys := Eval vm_compute in
  match run_op demo (ReadBack 0 0) with Done x => x | _ => demo end.
Lemma demo_read_run : run_op demo (ReadBack 0 0) = Done demo_read.
Proof. vm_cast_no_check (eq_refl (Done demo_read)). Qed.
Lemma demo_read_reached : reached (demo_trace ++ [ReadBack 0 0]) demo_read.
Proof. eapply reached_step; [apply demo_reached|apply demo_enabled|apply demo_read_run]. Qed.
Lemma demo_read_no_request c l : reads demo_read !! c = Some l → l = [].
Proof.
  destruct (decide (c = 0)) as [->|Hne]; [by intros [= <-]|].
  assert (reads demo_read = {[ 0 := [] ]}) as -> by reflexivity.
  by rewrite lookup_singleton_ne.
Qed.

Definition demo_item : hashinfo_item := Eval vm_compute in default (item0 0) (items (st demo) !! 1).
Definition demo_read_item : hashinfo_item := Eval vm_compute in
  default (item0 0) (items (st demo_read) !! 1).






Lemma memory_counters_exact_witness :
  ctr (st demo) (mm_of 1) = s64 (msum (style_weight 1) (items (st demo))).
Proof. apply (memory_counters_exact demo_trace demo 1); [done|apply demo_reached|lia]. Defined.

Lemma hash_flush_frees_all_witness :
  ∃ s', hash_flush (st demo_read) = Done s' ∧ items s' = ∅ ∧ (∀ b, bucket s' b = []) ∧
    hash_count s' = 0 ∧ ∀ j, 0 ≤ j ≤ 3 → ctr s' (mm_of j) = 0.
Proof.
  apply (hash_flush_frees_all (demo_trace ++ [ReadBack 0 0]) demo_read);
    [done|apply demo_read_reached|apply demo_read_no_request].
Defined.


Lemma bucket_clear_item_pass_witness :
  ∃ s', bucket_clear_item (st demo) demo_bucket = Done s' ∧
    ∀ a cp, items (st demo) !! a = Some cp →
      items s' !! a =
        if decide (bkt_of (sha1 cp) = demo_bucket) then
          if (share_ref cp =? 1) && (refcnt cp <=? 1) then None else Some (aged cp)
        else Some cp.
Proof. apply (bucket_clear_item_pass demo_trace demo); [done|apply demo_reached]. Defined.

Lemma hand_hash_accounting_witness :
  let r := match hand_hash (st demo) (reads demo) demo_chunk 40 demo_digest with
           | Done r => r | _ => (st demo0, ∅) end in
  ctr (fst r) sum_num = s64 (ctr (st demo) sum_num + 40) ∧
  ((∃ a cp, items (st demo) !! a = Some cp ∧ sha1 cp = demo_digest) →
     ctr (fst r) save_num = s64 (ctr (st demo) save_num + (40 - 22))) ∧
  ((∀ a cp, items (st demo) !! a = Some cp → sha1 cp ≠ demo_digest) →
     ctr (fst r) save_num = ctr (st demo) save_num).
Proof.
  apply (hand_hash_accounting demo_trace demo (reads demo) demo_chunk 40 demo_digest _
    (snd (match hand_hash (st demo) (reads demo) demo_chunk 40 demo_digest with
           | Done r => r | _ => (st demo0, ∅) end)));
    [done|apply demo_reached|reflexivity|vm_cast_no_check (eq_refl
      (hand_hash (st demo) (reads demo) demo_chunk 40 demo_digest))].
Defined.

Lemma hash_del_item_deletes_nothing_witness :
  ∃ s', hash_del_item (st demo) 1 = Done s' ∧ items s' = items (st demo) ∧
    hash_count s' = hash_count (st demo) ∧ ctr s' = ctr (st demo) ∧
    ∀ b x, x ∈ bucket s' b ↔ x ∈ bucket (st demo) b.
Proof.
  apply (hash_del_item_deletes_nothing (st demo) 1 demo_item); [reflexivity|cbn; lia|].
  apply (bool_decide_unpack _). vm_cast_no_check I.
Defined.
