(* ===== verification/Handler.v ===== *)
(** The packet path of model/kernel_hash/nf_in.c: the probe on [ip_rcv] that
    queues copies of packets, the worker [handle_skb] that cuts them into chunks,
    reads back what is on disk and sends them on, and the draining at unload. *)
From S2P Require Import Prelude JenHash Rabin Partition ListSort Bitmap Store HashTable Aging.
From S2P Require Import NfIn.
#[local] Open Scope Z_scope.

(** ** Headers *)

(** The bytes from [skb->data]; reading past them faults. *)
Definition skb : Type := list Z.
Definition hdr8 (d : skb) (i : nat) : outcome Z := b ← deref (d !! i); Done (u8 b).
(** A 16-bit field in network byte order, as [ntohs] gives it. *)
Definition hdr16 (d : skb) (i : nat) : outcome Z :=
  h ← hdr8 d i; l ← hdr8 d (i + 1); Done (256 * h + l).

(** [iph->ihl << 2], [ntohs(iph->tot_len)], and [tcph->doff << 2] for the TCP
    header at offset [iphl]. *)
Definition ip_hdrlen (d : skb) : outcome Z := b ← hdr8 d 0; Done (Z.land b 15 * 4).
Definition ip_tot_len (d : skb) : outcome Z := hdr16 d 2.
Definition tcp_hdrlen (d : skb) (iphl : Z) : outcome Z :=
  b ← hdr8 d (Z.to_nat iphl + 12); Done (Z.shiftr b 4 * 4).

(** The address 139.209.90.213 the probe leaves alone, as the four bytes of the
    header: ["%pI4"] prints an address injectively, so that [strcmp] of the
    printed strings is equality of the bytes. *)
Definition excluded_host : list Z := [139; 209; 90; 213].
Definition ip_addr (d : skb) (i : nat) : outcome (list Z) :=
  a ← hdr8 d i; b ← hdr8 d (i + 1); c ← hdr8 d (i + 2); e ← hdr8 d (i + 3);
  Done [a; b; c; e].

Definition IPPROTO_TCP : Z := 6.

Section handler.
  Context `{Allocator} `{VFS} `{StoreParams}.
  Context {F : Type} `{Kfifo F} (kfifo_new : F).
  (** [tcp_v4_sha1_hash_data]: the digest, or none when it fails. *)
  Context (sha1_hash : list Z → option (list Z)).
  (** What [file_poisit_compare] finds where it looks for [start]: it takes the
      [list] field of a [struct read_skb] for the [c_list] of a [struct
      hashinfo_item] and reads past the object. *)
  Context (past_object : Z → Z).
  Context (g : globals).
  Implicit Types s : store.

(** ** Chunks *)

Definition build_hash (src : list Z) (sh : store * heads) (start stop : Z)
    : outcome (store * heads) :=
  let '(s, h) := sh in
  let length := stop - start + 1 in
  if length <=? SHALEN + 2 then Done (s, h)
  else if alloc_ok (nalloc s) then
    let s := count_alloc s in
    match sha1_hash (slice (Z.to_nat start) (Z.to_nat length) src) with
    | None => Done (s, h)
    | Some dst => hand_hash s h (drop (Z.to_nat start) src) length dst
    end
  else Bug.

(** [get_partition] with the [kfifo_alloc] it starts with. *)
Definition handle_payload (s : store) (h : heads) (data : list Z) : outcome (store * heads) :=
  if Z.of_nat (chunk_num g) <? Z.of_nat (length data) then
    let fifo := if alloc_ok (nalloc s) then Some kfifo_new else None in
    get_partition g (build_hash data) fifo data (count_alloc s, h)
  else get_partition g (build_hash data) None data (s, h).

(** The TCP payload [handle_skb] hands to [get_partition]; a length that is not
    greater than [chunk_num], a negative one too, is returned at once. *)
Definition payload_of (d : skb) : outcome (list Z) :=
  iphl ← ip_hdrlen d;
  tcphl ← tcp_hdrlen d iphl;
  tot ← ip_tot_len d;
  let data_len := s32 (u64 (tot - iphl - tcphl)) in
  if Z.of_nat (chunk_num g) <? data_len
  then read_bytes (drop (Z.to_nat (iphl + tcphl)) d) (Z.to_nat data_len)
  else Done [].

(** ** Reading back *)

Definition file_poisit_compare (a b : Z) : Z := s32 (u64 (past_object a - past_object b)).

(** The two loops of [read_data] over the CPUs. *)
Definition sort_heads (h : heads) (cpu : Z) : outcome heads :=
  l ← deref (h !! cpu);
  r ← list_sort file_poisit_compare l;
  let '(nodes, _) := (r : list (Z * option Z) * option Z) in
  Done (<[cpu := nodes.*1]> h).
Definition read_cpu (sh : store * heads) (cpu : Z) : outcome (store * heads) :=
  let '(s, h) := sh in
  l ← deref (h !! cpu);
  s ← ofold (read_item cpu) s l;
  Done (s, <[cpu := []]> h).
Definition read_data (s : store) (h : heads) : outcome (store * heads) :=
  h ← ofold sort_heads h (seqZ 0 num_online_cpus);
  ofold read_cpu (s, h) (seqZ 0 num_online_cpus).

(** ** The worker *)

(** The store, the per-CPU queues of copies (NULL when the copy failed), the
    CPUs whose work is pending, and what has been given to [ip_rcv_finish]. *)
Record nf := Nf {
  nst : store;
  skb_list : gmap Z (list (option skb));
  pending_work : gset Z;
  resent : list skb }.

Definition threshold : nat := Z.to_nat 10000.

(** The two loops of [handle_skb] over the packets taken from the queue. *)
Definition cut_skb (sh : store * heads) (cp : option skb) : outcome (store * heads) :=
  let '(s, h) := sh in
  d ← deref cp;
  data ← payload_of d;
  handle_payload s h data.

Definition resend_skb (s : store) (out : list skb) (hand_list : list (option skb))
    : outcome (store * list skb) :=
  let tmp_tasklet := alloc_ok (nalloc s) in
  ofold (λ so cp, d ← deref cp;
                  if tmp_tasklet : bool then Done (fst so, snd so ++ [d]) else Oops)
    (count_alloc s, out) hand_list.

Definition empty_heads : heads :=
  list_to_map ((λ c, (c, [])) <$> seqZ 0 num_online_cpus).

Definition handle_skb (x : nf) (cpu : Z) : outcome nf :=
  q ← deref (skb_list x !! cpu);
  let hand_list := take threshold q in
  let x := Nf (nst x) (<[cpu := drop threshold q]> (skb_list x)) (pending_work x) (resent x) in
  match hand_list with
  | [] => Done x
  | _ =>
    if alloc_ok (nalloc (nst x)) then
      '(s, all_list) ← ofold cut_skb (count_alloc (nst x), empty_heads) hand_list;
      '(s, _) ← read_data s all_list;
      '(s, out) ← resend_skb s (resent x) hand_list;
      Done (Nf s (skb_list x) (pending_work x) out)
    else Bug
  end.

(** ** The probe *)

(** [queue_work] of the CPU's work, unless it is pending. *)
Definition queue_skb_work (x : nf) (cpu : Z) : nf :=
  Nf (nst x) (skb_list x) ({[ cpu ]} ∪ pending_work x) (resent x).

Definition MIN_PAGES : Z := 400 * 1024 * 1024 / 4 / 1024.

(** [reserve_mem] is what the two [global_page_state] calls add up to; [skb_copy]
    returns NULL when its allocation fails. *)
Definition jpf_ip_rcv (x : nf) (cpu reserve_mem : Z) (d : skb) : outcome nf :=
  if reserve_mem <? MIN_PAGES then Done x
  else
    proto ← hdr8 d 9;
    if proto =? IPPROTO_TCP then
      src ← ip_addr d 12; dst ← ip_addr d 16;
      if decide (dst ≠ excluded_host ∧ src ≠ excluded_host) then
        if alloc_ok (nalloc (nst x)) then
          let s := count_alloc (nst x) in
          let copy := if alloc_ok (nalloc s) then Some d else None in
          let s := ctr_add skb_num 1 (count_alloc s) in
          q ← deref (skb_list x !! cpu);
          Done (queue_skb_work
            (Nf s (<[cpu := q ++ [copy]]> (skb_list x)) (pending_work x) (resent x)) cpu)
        else Bug
      else Done x
    else Done x.

(** A worker runs the pending work of a CPU: the bit is cleared, then
    [handle_skb] is called. *)
Definition run_skb_work (x : nf) (cpu : Z) : outcome nf :=
  if decide (cpu ∈ pending_work x)
  then handle_skb (Nf (nst x) (skb_list x) (pending_work x ∖ {[ cpu ]}) (resent x)) cpu
  else Done x.

(** [clear_remainder_skb]: one turn counts the empty queues and queues the work
    of the others; [flush_workqueue] runs what is pending. *)
Definition count_empty (xr : nf * Z) (cpu : Z) : outcome (nf * Z) :=
  let '(x, rem) := xr in
  q ← deref (skb_list x !! cpu);
  match q with
  | [] => Done (x, rem + 1)
  | _ => Done (queue_skb_work x cpu, rem)
  end.

Fixpoint clear_remainder_skb (fuel : nat) (x : nf) : outcome (option nf) :=
  match fuel with
  | O => Done None
  | S fuel =>
    xr ← ofold count_empty (x, 0) (seqZ 0 num_online_cpus);
    let '(x, rem) := (xr : nf * Z) in
    if rem =? num_online_cpus then Done (Some x)
    else x ← ofold run_skb_work x (seqZ 0 num_online_cpus); clear_remainder_skb fuel x
  end.
End handler.
