(* ===== verification/HandlerSpec.v ===== *)
(** The packet path keeps the invariant of the store, serves every read it asks
    for, and sends on every packet it takes, in order. *)
From S2P Require Import Prelude JenHash Rabin Partition ListSort Bitmap Store HashTable Aging.
From S2P Require Import NfIn StoreInv StoreOps AgingOps DiskOps System StoreSpec Handler.
#[local] Open Scope Z_scope.

Section spec.
  Context `{AllocatorLaws} `{VFSLaws} `{StoreParamsLaws} `{BitSearchLaws}
    (Hmem : ∀ n, alloc_ok n = true).
  Context {F : Type} `{KfifoLaws F cap} (kfifo_new : F) (Hnew : kview kfifo_new = []).
  Context (sha1_hash : list Z → option (list Z))
    (Hsha : ∀ b d, sha1_hash b = Some d → length d = 20%nat).
  Context (past_object : Z → Z) (g : globals) (Hg : params_ok g).
  Implicit Types (s : store) (h : heads) (fs : gmap Z frame).

(** The state of the system at some point of some history. *)
Definition sound (x : sys) : Prop := ∃ tr C P, sys_ok tr x C P.

Lemma sound_alloc s h fs : sound (Sys s h fs) → sound (Sys (count_alloc s) h fs).
Proof.
  intros (tr&C&P&Hx). exists tr, C, P.
  apply (sys_ok_quiet tr tr (Sys s h fs)); [done|done|apply Hx|apply keeps_refl|apply Hx].
Qed.

Lemma total_reads_put h c l l' : h !! c = Some l →
  total_reads (<[c := l']> h) = total_reads h - Z.of_nat (length l) + Z.of_nat (length l').
Proof. intros Hl. unfold total_reads. by rewrite (msum_insert _ _ _ l). Qed.

(** One chunk. *)
Lemma hand_hash_sound s h fs src n dst :
  sound (Sys s h fs) → length dst = 20%nat → SHALEN + 2 < n ≤ MAX_CHUNK →
  n ≤ Z.of_nat (length src) → total_reads h < 2 ^ 31 - 2 →
  ∃ s' h', hand_hash s h src n dst = Done (s', h') ∧ sound (Sys s' h' fs) ∧
    total_reads h' ≤ total_reads h + 1.
Proof.
  intros (tr&C&P&Hx) Hd Hn Hs Hr.
  assert (HP : ∀ a, Z.of_nat (P a) < 2 ^ 31 - 2).
  { intros a. rewrite (so_pend _ _ _ _ Hx). unfold total_reads in Hr. cbn [reads].
    pose proof (msum_le (occ a) _ h (λ l, proj2 (occ_le a l))). lia. }
  destruct (hand_hash_inv Hmem C P (writing_of fs) s h src n dst)
    as (s'&h'&C'&P'&E&_&Hh); [apply Hx|done|unfold SHALEN in Hn; lia|done|apply Hx|done|].
  pose proof (packet_ok Hmem tr _ C P dst src n Hx (conj Hd (conj Hn (conj Hs Hr)))) as Hp.
  unfold run_op in Hp. cbn [st reads] in Hp. rewrite E in Hp. destruct Hp as (C2&P2&Hx2).
  exists s', h'. split; [done|]. split; [by eexists _, _, _|].
  destruct Hh as [| | |s' a cp l _ _ Hl _]; try lia.
  rewrite (total_reads_put _ _ l) by done. cbn [length]. lia.
Qed.

Lemma build_hash_sound data s h fs start stop :
  sound (Sys s h fs) → 0 ≤ start ≤ stop → stop < Z.of_nat (length data) ≤ MAX_CHUNK →
  total_reads h < 2 ^ 31 - 2 →
  ∃ s' h', build_hash sha1_hash data (s, h) start stop = Done (s', h') ∧ sound (Sys s' h' fs) ∧
    total_reads h' ≤ total_reads h + 1.
Proof.
  intros Hx Hs Hl Hr. unfold build_hash. cbv zeta.
  destruct (Z.leb_spec (stop - start + 1) (SHALEN + 2)); [exists s, h; split; [done|]; split; [done|lia]|].
  rewrite Hmem. destruct (sha1_hash _) as [dst|] eqn:Ed.
  - apply hand_hash_sound; [by apply sound_alloc|by eapply Hsha|lia| |done].
    rewrite length_drop. lia.
  - exists (count_alloc s), h. split; [done|]. split; [by apply sound_alloc|lia].
Qed.

(** The chunks of a payload. *)
Lemma ranges_sound data rs start s h fs T :
  tiles start rs (Z.of_nat (length data)) → 0 ≤ start → Z.of_nat (length data) ≤ MAX_CHUNK →
  sound (Sys s h fs) → total_reads h ≤ T + start → T + Z.of_nat (length data) < 2 ^ 31 - 2 →
  ∃ s' h', ofold (λ sh r, build_hash sha1_hash data sh (fst r) (snd r)) (s, h) rs = Done (s', h') ∧
    sound (Sys s' h' fs) ∧ total_reads h' ≤ T + Z.of_nat (length data).
Proof.
  remember (Z.of_nat (length data)) as len eqn:El. intros Ht. revert s h.
  induction Ht as [len|start stop rs len Hs0 Hs1 Ht IH]; intros s h Hs Hm Hx Hr HT; subst.
  - exists s, h. by split.
  - cbn [ofold fst snd].
    destruct (build_hash_sound data s h fs start stop) as (s1&h1&->&Hx1&Hr1); [done|lia|lia|lia|].
    cbn [mbind outcome_bind]. apply IH; [done|lia|done|done|lia|done].
Qed.

Lemma handle_payload_sound data s h fs T :
  sound (Sys s h fs) → Z.of_nat (length data) ≤ MAX_CHUNK →
  total_reads h ≤ T → T + MAX_CHUNK < 2 ^ 31 - 2 →
  ∃ s' h', handle_payload kfifo_new sha1_hash g s h data = Done (s', h') ∧
    sound (Sys s' h' fs) ∧ total_reads h' ≤ T + MAX_CHUNK.
Proof.
  intros Hx Hl HT Hb. unfold handle_payload. unfold MAX_CHUNK in *.
  destruct (Z.ltb_spec (Z.of_nat (chunk_num g)) (Z.of_nat (length data))) as [Hlt|Hge].
  - rewrite Hmem, get_partition_ranges by lia.
    destruct (ranges_sound data (chunks_of g kfifo_new data) 0 (count_alloc s) h fs T)
      as (s'&h'&->&Hx'&Hr'); [apply chunks_of_tiles; [done|lia|done]|lia|unfold MAX_CHUNK; lia
        |by apply sound_alloc|lia|lia|].
    exists s', h'. split; [done|]. split; [done|lia].
  - rewrite get_partition_small by lia. exists s, h. split; [done|]. split; [done|lia].
Qed.

(** ** Payloads *)

Lemma hdr8_range d i v : hdr8 d i = Done v → 0 ≤ v < 256.
Proof.
  unfold hdr8. destruct (d !! i); [|done]. cbn. intros [= <-]. apply (Z.mod_pos_bound _ 256). done.
Qed.

Lemma payload_length d data : payload_of g d = Done data → Z.of_nat (length data) ≤ MAX_CHUNK.
Proof.
  unfold payload_of, ip_hdrlen, tcp_hdrlen, ip_tot_len, hdr16, MAX_CHUNK.
  destruct (hdr8 d 0) as [b0| |] eqn:E0; [|done..]. cbn [mbind outcome_bind].
  destruct (hdr8 d (_ + 12)) as [b1| |] eqn:E1; [|done..]. cbn [mbind outcome_bind].
  destruct (hdr8 d 2) as [b2| |] eqn:E2; [|done..]. cbn [mbind outcome_bind].
  destruct (hdr8 d (2 + 1)) as [b3| |] eqn:E3; [|done..]. cbn [mbind outcome_bind].
  apply hdr8_range in E0, E1, E2, E3.
  assert (0 ≤ Z.land b0 15) by (apply Z.land_nonneg; lia).
  assert (0 ≤ Z.shiftr b1 4) by (apply Z.shiftr_nonneg; lia).
  set (n := 256 * b2 + b3 - Z.land b0 15 * 4 - Z.shiftr b1 4 * 4).
  destruct (Z.ltb_spec (Z.of_nat (chunk_num g)) (s32 (u64 n))) as [Hlt|]; [|by intros [= <-]].
  unfold read_bytes. case_decide; [|done]. intros [= <-]. rewrite length_take.
  assert (s32 (u64 n) ≤ 65535); [|lia].
  assert (Es : s32 (u64 n) = s32 n).
  { unfold s32, u64. f_equal. rewrite <- (Z.mod_mod_divide (n mod 2 ^ 64 + 2 ^ 31) (2 ^ 64)) by
      (exists (2 ^ 32); lia). rewrite Zplus_mod_idemp_l, Z.mod_mod_divide; [done|exists (2 ^ 32); lia]. }
  rewrite Es. destruct (Z_lt_le_dec n (- 2 ^ 31)) as [Hn|Hn].
  - exfalso. assert (Z.land b0 15 ≤ 15).
    { change 15 with (Z.ones 4) at 1. rewrite Z.land_ones by done.
      pose proof (Z.mod_pos_bound b0 (2 ^ 4)). lia. }
    assert (Z.shiftr b1 4 ≤ 15).
    { rewrite Z.shiftr_div_pow2 by done. assert (b1 / 2 ^ 4 < 16) by (apply Z.div_lt_upper_bound; lia). lia. }
    lia.
  - rewrite s32_small; lia.
Qed.

(** ** Reading back *)

(** Some read of a file fails. *)
Definition read_error : Prop := ∃ f pos n, fst (kernel_read f pos n) < 0.

Lemma occ_perm a l l' : l ≡ₚ l' → occ a l = occ a l'.
Proof. intros Hp. unfold occ. by rewrite Hp. Qed.

(** The order of the requests does not matter. *)
Lemma sound_perm s h fs c l l' :
  h !! c = Some l → l' ≡ₚ l → sound (Sys s h fs) → sound (Sys s (<[c := l']> h) fs).
Proof.
  intros Hl Hp (tr&C&P&Hx). exists tr, C, P. split; cbn [st reads frames]; try apply Hx.
  - intros a. rewrite (msum_occ_put _ _ l _ 0) by (done || (rewrite (occ_perm a l' l) by done; lia)).
    rewrite Z.add_0_r. apply (so_pend _ _ _ _ Hx).
  - intros c' Hc. apply heads_put; [by eexists|by apply Hx].
  - intros c' l0 a Hl0 Ha. apply lookup_insert_Some in Hl0 as [[<- <-]|[_ Hl0]].
    + apply (so_reads _ _ _ _ Hx c l a Hl). by rewrite <- Hp.
    + by apply (so_reads _ _ _ _ Hx c' l0).
Qed.

Lemma sort_heads_sound s h fs c :
  sound (Sys s h fs) → 0 ≤ c < num_online_cpus →
  ∃ h', sort_heads past_object h c = Done h' ∧ sound (Sys s h' fs) ∧
    (∀ c', is_Some (h' !! c') → is_Some (h !! c')).
Proof.
  intros Hx Hc. pose proof Hx as (tr&C&P&Hx'). destruct (so_heads _ _ _ _ Hx' c Hc) as [l Hl].
  cbn in Hl. unfold sort_heads. rewrite Hl. cbn [deref mbind outcome_bind].
  destruct (list_sort_total (file_poisit_compare past_object) l) as (nodes&last&->&Hp&_).
  cbn [mbind outcome_bind]. eexists. split; [done|]. split; [by eapply sound_perm|].
  intros c'. destruct (decide (c' = c)) as [->|Hne]; [rewrite Hl; by eexists|].
  by rewrite lookup_insert_ne.
Qed.

(** The inner loop of [read_data]: the first request of the list, again and again. *)
Lemma read_list_sound l s h fs c :
  sound (Sys s h fs) → h !! c = Some l →
  wp read_error (ofold (read_item c) s l) (λ s', sound (Sys s' (<[c := []]> h) fs)).
Proof.
  revert s h. induction l as [|a l IH]; intros s h (tr&C&P&Hx) Hl; cbn [ofold].
  - cbn [wp]. exists tr, C, P. by rewrite insert_id.
  - assert (He : enabled (Sys s h fs) (ReadBack c 0)) by (by exists (a :: l), a).
    pose proof (read_back_ok Hmem tr _ C P c 0 Hx He) as Hread. unfold run_op in Hread.
    cbn [reads st frames] in Hread. rewrite Hl in Hread. cbn [deref mbind outcome_bind lookup] in Hread.
    cbn in Hread.
    apply wp_bind. destruct (read_item c s a) as [s1| |] eqn:E.
    + cbn [wp]. cbn in Hread. destruct Hread as [(P'&Hx1) _].
      rewrite <- (insert_insert_eq h c [] l). apply IH.
      * by eexists _, _, _.
      * apply lookup_insert_eq.
    + cbn in Hread |- *. destruct Hread as (l0&a0&cp&_&_&_&Hf). unfold fetch_read in Hf.
      destruct (cpus _ !! c) as [pc|]; [|lia]. by eexists _, _, _.
    + done.
Qed.

(** Every request is served. *)
Lemma read_data_sound s h fs :
  sound (Sys s h fs) → (∀ c, is_Some (h !! c) → 0 ≤ c < num_online_cpus) →
  wp read_error (read_data past_object s h) (λ sh,
    sound (Sys (fst sh) (snd sh) fs) ∧ ∀ c l, snd sh !! c = Some l → l = []).
Proof.
  intros Hx Hdom. unfold read_data.
  assert (Hsort : ∃ h', ofold (sort_heads past_object) h (seqZ 0 num_online_cpus) = Done h' ∧
    sound (Sys s h' fs) ∧ (∀ c, is_Some (h' !! c) → 0 ≤ c < num_online_cpus)).
  { apply (ofold_total (sort_heads past_object) (λ h', sound (Sys s h' fs) ∧
      (∀ c, is_Some (h' !! c) → 0 ≤ c < num_online_cpus))); [|done].
    intros h1 c Hc%elem_of_seqZ [Hx1 Hd1].
    destruct (sort_heads_sound s h1 fs c) as (h2&->&Hx2&Hd2); [done|lia|].
    exists h2. split; [done|]. split; [done|]. intros c' Hc'. by apply Hd1, Hd2. }
  destruct Hsort as (h1&->&Hx1&Hd1). cbn [mbind outcome_bind].
  eapply wp_mono; [|apply (wp_ofold read_error read_cpu (λ sh l,
    sound (Sys (fst sh) (snd sh) fs) ∧ (∀ c, c ∈ l → 0 ≤ c < num_online_cpus) ∧
    ∀ c l0, snd sh !! c = Some l0 → c ∈ l ∨ l0 = []))].
  - intros [s' h'] (Hx'&_&He). split; [done|]. intros c l Hl.
    destruct (He c l Hl) as [Hin|]; [by apply not_elem_of_nil in Hin|done].
  - intros [s1' h2] c l (Hx2&Hr&He). cbn [fst snd] in *.
    pose proof Hx2 as (tr&C&P&Hx2').
    destruct (so_heads _ _ _ _ Hx2' c) as [l0 Hl0]; [apply Hr, list_elem_of_here|]. cbn in Hl0.
    unfold read_cpu. rewrite Hl0. cbn [deref mbind outcome_bind]. apply wp_bind.
    eapply wp_mono; [|by apply (read_list_sound l0 s1' h2 fs c)].
    intros s3 Hx3. cbn [wp fst snd]. split; [done|]. split.
    + intros c' Hc'. by apply Hr, list_elem_of_further.
    + intros c' l' Hl'. apply lookup_insert_Some in Hl' as [[<- <-]|[Hne Hl']]; [by right|].
      destruct (He c' l' Hl') as [Hin|]; [|by right]. apply elem_of_cons in Hin as [->|]; [done|by left].
  - split; [done|]. split; [intros c Hc%elem_of_seqZ; lia|].
    intros c l Hl. left. apply elem_of_seqZ. cbn in Hl. specialize (Hd1 c (ex_intro _ l Hl)). lia.
Qed.

(** ** The worker *)

(** A queued copy whose headers and payload lie within its bytes. *)
Definition whole (cp : option skb) : Prop := ∃ d data, cp = Some d ∧ payload_of g d = Done data.
(** The packets of a queue. *)
Definition packets (q : list (option skb)) : list skb := omap id q.

Lemma empty_heads_lookup c :
  (empty_heads : heads) !! c = if decide (0 ≤ c < num_online_cpus) then Some [] else None.
Proof.
  unfold empty_heads. case_decide as Hc.
  - apply elem_of_list_to_map; [rewrite <- list_fmap_compose; simpl; rewrite list_fmap_id;
      apply NoDup_seqZ|].
    apply list_elem_of_fmap. exists c. split; [done|]. apply elem_of_seqZ. lia.
  - apply not_elem_of_list_to_map. rewrite <- list_fmap_compose. simpl. rewrite list_fmap_id.
    rewrite elem_of_seqZ. lia.
Qed.

Lemma msum_all_nil (w : list Z → Z) h : w [] = 0 → (∀ c l, h !! c = Some l → l = []) → msum w h = 0.
Proof.
  intros Hw Hn. induction h as [|c l h Hcl IH] using map_ind; [apply msum_empty|].
  rewrite msum_insert_new by done. rewrite (Hn c l) by apply lookup_insert_eq.
  rewrite Hw, IH; [done|]. intros c' l' Hl'. apply (Hn c'). rewrite lookup_insert_ne; [done|].
  congruence.
Qed.

(** With no request left, the lists may as well be fresh. *)
Lemma sound_empty s h fs :
  sound (Sys s h fs) → (∀ c l, h !! c = Some l → l = []) → sound (Sys s empty_heads fs).
Proof.
  intros (tr&C&P&Hx) Hn. exists tr, C, P. split; cbn [st reads frames]; try apply Hx.
  - intros a. rewrite (so_pend _ _ _ _ Hx a). cbn [reads].
    rewrite !msum_all_nil; try done. intros c l. rewrite empty_heads_lookup.
    case_decide; [by intros [= <-]|done].
  - intros c Hc. rewrite empty_heads_lookup, decide_True by done. by eexists.
  - intros c l a. rewrite empty_heads_lookup. case_decide; [|done].
    intros [= <-] Ha. by apply not_elem_of_nil in Ha.
Qed.

Lemma total_empty : total_reads (empty_heads : heads) = 0.
Proof.
  apply msum_all_nil; [done|]. intros c l. rewrite empty_heads_lookup.
  case_decide; [by intros [= <-]|done].
Qed.

Lemma hand_hash_dom s h src n dst s' h' :
  hand_hash s h src n dst = Done (s', h') → ∀ c, is_Some (h' !! c) → is_Some (h !! c).
Proof.
  unfold hand_hash. destruct (get_hash_item s dst) as [[s1 [a|]]| |]; [| |done..];
    cbn [mbind outcome_bind].
  - cbv zeta. destruct (get_item _ a) as [it| |]; [|done..]. cbn [mbind outcome_bind].
    destruct (negb _); [by intros [= _ <-]|]. unfold request_read. rewrite Hmem.
    destruct (_ <=? _); [done|]. destruct (h !! cpuid it) as [l|] eqn:Hl; [|done].
    cbn. intros [= _ <-] c. destruct (decide (c = cpuid it)) as [->|Hne]; [by rewrite Hl|].
    by rewrite lookup_insert_ne.
  - destruct (add_hash_info s1 dst src n) as [[s2 r]| |]; [|done..]. by intros [= _ <-].
Qed.

Lemma build_hash_dom data sh start stop sh' :
  build_hash sha1_hash data sh start stop = Done sh' →
  ∀ c, is_Some (snd sh' !! c) → is_Some (snd sh !! c).
Proof.
  destruct sh as [s h], sh' as [s' h']. unfold build_hash. cbv zeta.
  destruct (_ <=? _); [by intros [= _ <-]|]. destruct (alloc_ok _); [|done].
  destruct (sha1_hash _); [|by intros [= _ <-]]. apply hand_hash_dom.
Qed.

(** A packet is cut; the read lists stay those of the CPUs. *)
Lemma cut_skb_sound s h fs cp T :
  sound (Sys s h fs) → whole cp → total_reads h ≤ T → T + MAX_CHUNK < 2 ^ 31 - 2 →
  (∀ c, is_Some (h !! c) → 0 ≤ c < num_online_cpus) →
  ∃ s' h', cut_skb kfifo_new sha1_hash g (s, h) cp = Done (s', h') ∧ sound (Sys s' h' fs) ∧
    total_reads h' ≤ T + MAX_CHUNK ∧ (∀ c, is_Some (h' !! c) → 0 ≤ c < num_online_cpus).
Proof.
  intros Hx (d&data&->&Hd) HT Hb Hdom. unfold cut_skb. cbn [deref mbind outcome_bind]. rewrite Hd.
  cbn [mbind outcome_bind].
  destruct (handle_payload_sound data s h fs T Hx (payload_length _ _ Hd) HT Hb) as (s'&h'&E&Hx'&Hr).
  exists s', h'. split; [done|]. split; [done|]. split; [done|].
  intros c Hc. apply Hdom. unfold handle_payload in E.
  assert (Hfold : ∀ rs s1 sh, ofold (λ sh r, build_hash sha1_hash data sh (fst r) (snd r)) (s1, h) rs
    = Done sh → ∀ c, is_Some (snd sh !! c) → is_Some (h !! c)).
  { intros rs s1 sh Hf. eapply (ofold_inv _ (λ sh, ∀ c, is_Some (snd sh !! c) → is_Some (h !! c)));
      [|  |exact Hf]; [|done].
    intros sh1 r sh2 _ Hi Hb' c0 Hc0. eapply Hi, build_hash_dom; [exact Hb'|done]. }
  destruct (Z.ltb_spec (Z.of_nat (chunk_num g)) (Z.of_nat (length data))) as [Hlt|Hge].
  - rewrite Hmem, get_partition_ranges in E by lia. by apply (Hfold _ _ _ E).
  - rewrite get_partition_small in E by lia. injection E as <- <-. done.
Qed.

Lemma cut_list_sound l s h fs T :
  sound (Sys s h fs) → Forall whole l → total_reads h ≤ T →
  T + Z.of_nat (length l) * MAX_CHUNK < 2 ^ 31 - 2 →
  (∀ c, is_Some (h !! c) → 0 ≤ c < num_online_cpus) →
  ∃ s' h', ofold (cut_skb kfifo_new sha1_hash g) (s, h) l = Done (s', h') ∧ sound (Sys s' h' fs) ∧
    (∀ c, is_Some (h' !! c) → 0 ≤ c < num_online_cpus).
Proof.
  intros Hx Hl. revert s h T Hx. induction Hl as [|cp l Hcp Hl IH]; intros s h T Hx HT Hb Hdom.
  - by exists s, h.
  - cbn [ofold]. cbn [length] in Hb.
    destruct (cut_skb_sound s h fs cp T) as (s1&h1&->&Hx1&Hr1&Hd1); [done..|unfold MAX_CHUNK in *; lia|done|].
    cbn [mbind outcome_bind]. apply (IH s1 h1 (T + MAX_CHUNK)); [done|done| |done].
    unfold MAX_CHUNK in *. lia.
Qed.

Lemma resend_skb_spec s out l :
  Forall whole l → resend_skb s out l = Done (count_alloc s, out ++ packets l).
Proof.
  intros Hl. unfold resend_skb. rewrite Hmem. generalize (count_alloc s). intros s1. revert out.
  induction Hl as [|cp l (d&data&->&_) Hl IH]; intros out; [by rewrite app_nil_r|].
  cbn [ofold deref mbind outcome_bind fst snd]. rewrite IH. unfold packets. cbn.
  by rewrite <- app_assoc.
Qed.

(** The worker of a CPU, on a queue of whole packets. *)
Lemma handle_skb_sound x fs cpu q :
  sound (Sys (nst x) empty_heads fs) → skb_list x !! cpu = Some q → Forall whole q →
  wp read_error (handle_skb kfifo_new sha1_hash past_object g x cpu) (λ x',
    sound (Sys (nst x') empty_heads fs) ∧ skb_list x' = <[cpu := drop threshold q]> (skb_list x) ∧
    pending_work x' = pending_work x ∧ resent x' = resent x ++ packets (take threshold q)).
Proof.
  intros Hx Hq Hw. unfold handle_skb. rewrite Hq. cbn [deref mbind outcome_bind]. cbv zeta.
  assert (Hwt : Forall whole (take threshold q)) by by apply Forall_take.
  assert (Hlt : Z.of_nat (length (take threshold q)) ≤ 10000)
    by (rewrite length_take; unfold threshold; lia).
  destruct (take threshold q) as [|cp l] eqn:Et.
  { cbn. split; [done|]. split; [done|]. split; [done|by rewrite app_nil_r]. }
  rewrite Hmem. cbn [nst skb_list pending_work resent].
  destruct (cut_list_sound (cp :: l) (count_alloc (nst x)) empty_heads fs 0)
    as (s1&h1&->&Hx1&Hd1); [by apply sound_alloc|done|by rewrite total_empty
      |unfold MAX_CHUNK; lia| |].
  { intros c. rewrite empty_heads_lookup. case_decide; [done|by intros []]. }
  cbn [mbind outcome_bind]. apply wp_bind.
  eapply wp_mono; [|by apply (read_data_sound s1 h1 fs)].
  intros [s2 h2] [Hx2 Hn2]. cbn [fst snd] in *. rewrite resend_skb_spec by done. cbn.
  split; [|done]. apply sound_alloc. by eapply sound_empty.
Qed.

(** ** The work queue *)

(** The queue of a CPU and the packets of all queues. *)
Definition queue (x : nf) (c : Z) : list (option skb) := default [] (skb_list x !! c).
Definition queued (x : nf) : list skb := seqZ 0 num_online_cpus ≫= λ c, packets (queue x c).

(** Between two runs of the worker: the store is sound, every CPU has a queue of
    whole packets. *)
Record ready (fs : gmap Z frame) (x : nf) : Prop := {
  rd_sound : sound (Sys (nst x) empty_heads fs);
  rd_queues : ∀ c, 0 ≤ c < num_online_cpus → is_Some (skb_list x !! c);
  rd_whole : ∀ c q, skb_list x !! c = Some q → Forall whole q }.

Lemma queued_split (x x' : nf) c t :
  0 ≤ c < num_online_cpus → (∀ c', c' ≠ c → queue x' c' = queue x c') →
  packets (queue x c) = t ++ packets (queue x' c) → queued x ≡ₚ t ++ queued x'.
Proof.
  intros Hc Hne Hq. unfold queued.
  assert (Hin : c ∈ seqZ 0 num_online_cpus) by (apply elem_of_seqZ; lia).
  apply list_elem_of_split in Hin as (l1&l2&E).
  assert (Hnd : NoDup (l1 ++ c :: l2)) by (rewrite <- E; apply NoDup_seqZ).
  apply NoDup_app in Hnd as (_&Hn1&Hn2). apply NoDup_cons in Hn2 as [Hn2 _].
  assert (Hsame : ∀ l, c ∉ l → (l ≫= λ c, packets (queue x c)) = (l ≫= λ c, packets (queue x' c))).
  { intros l Hl. induction l as [|c' l IH]; [done|]. apply not_elem_of_cons in Hl as [Hc' Hl].
    cbn. by rewrite IH, Hne by done. }
  rewrite E, !bind_app. cbn [mbind list_bind]. rewrite Hq, (Hsame l1), (Hsame l2).
  - rewrite <- !app_assoc. rewrite !(Permutation_app_comm (l1 ≫= _)). by rewrite <- !app_assoc.
  - done.
  - intros Hc1. apply (Hn1 c Hc1), list_elem_of_here.
Qed.

(** A worker that runs on the CPU [c] takes what it can from its queue. *)
Lemma run_skb_work_sound x fs c :
  ready fs x → 0 ≤ c < num_online_cpus → (queue x c ≠ [] → c ∈ pending_work x) →
  wp read_error (run_skb_work kfifo_new sha1_hash past_object g x c) (λ x',
    ready fs x' ∧ (∀ c', c' ≠ c → queue x' c' = queue x c') ∧
    queue x' c = drop threshold (queue x c) ∧
    pending_work x' = pending_work x ∖ {[ c ]} ∧ resent x' ++ queued x' ≡ₚ resent x ++ queued x).
Proof.
  intros [Hx Hd Hw] Hc Hp. destruct (Hd c Hc) as [q Hq].
  assert (Eq : queue x c = q) by (unfold queue; by rewrite Hq). rewrite Eq in *.
  unfold run_skb_work. case_decide as Hin.
  - eapply wp_mono; [|apply (handle_skb_sound _ fs c q); [exact Hx|exact Hq|by eapply Hw]].
    intros x' (Hx'&El&Ep&Er). cbn [skb_list pending_work resent] in *.
    assert (Hne : ∀ c', c' ≠ c → queue x' c' = queue x c').
    { intros c' Hne. unfold queue. by rewrite El, lookup_insert_ne. }
    assert (Hqc : queue x' c = drop threshold q) by (unfold queue; by rewrite El, lookup_insert_eq).
    split; [|split; [exact Hne|split; [exact Hqc|split; [done|]]]].
    + split; [done| |].
      * intros c' Hc'. rewrite El. destruct (decide (c' = c)) as [->|].
        -- rewrite lookup_insert_eq. by eexists.
        -- rewrite lookup_insert_ne by done. by apply Hd.
      * intros c' q' Hq'. rewrite El in Hq'.
        apply lookup_insert_Some in Hq' as [[<- <-]|[_ Hq']]; [by eapply Forall_drop, Hw|by eapply Hw].
    + rewrite Er, <- app_assoc. f_equiv. symmetry. apply (queued_split _ _ c); [done|exact Hne|].
      rewrite Eq, Hqc. unfold packets. rewrite <- omap_app. by rewrite take_drop.
  - assert (q = []) as -> by (destruct q; [done|]; exfalso; by apply Hin, Hp).
    cbn [wp]. split; [done|]. split; [done|]. split; [exact Eq|]. split; [|done].
    apply set_eq. intros c'. rewrite elem_of_difference, elem_of_singleton.
    split; [|tauto]. intros Hc'. split; [done|]. by intros ->.
Qed.

(** The worker queue, once per turn of [clear_again]. *)
Lemma count_empty_spec l x r :
  (∀ c, c ∈ l → is_Some (skb_list x !! c)) →
  ∃ p, ofold count_empty (x, r) l =
      Done (Nf (nst x) (skb_list x) p (resent x),
            r + Z.of_nat (length (filter (λ c, queue x c = []) l))) ∧
    ∀ c, c ∈ l → queue x c ≠ [] → c ∈ p.
Proof.
  assert (Hgen : ∀ p0, (∀ c, c ∈ l → is_Some (skb_list x !! c)) →
    ∃ p, ofold count_empty (Nf (nst x) (skb_list x) p0 (resent x), r) l =
      Done (Nf (nst x) (skb_list x) p (resent x),
            r + Z.of_nat (length (filter (λ c, queue x c = []) l))) ∧ p0 ⊆ p ∧
    ∀ c, c ∈ l → queue x c ≠ [] → c ∈ p).
  { revert r. induction l as [|c l IH]; intros r p0 Hd.
    - exists p0. cbn. rewrite Z.add_0_r. split; [done|]. split; [done|].
      by intros c ?%not_elem_of_nil.
    - destruct (Hd c) as [q Hq]; [apply list_elem_of_here|].
      assert (Eq : queue x c = q) by (unfold queue; by rewrite Hq).
      cbn [ofold count_empty skb_list]. rewrite Hq. cbn [deref mbind outcome_bind].
      assert (Hd' : ∀ c', c' ∈ l → is_Some (skb_list x !! c'))
        by (intros c' Hc'; by apply Hd, list_elem_of_further).
      destruct q as [|o q].
      + rewrite filter_cons_True by done.
        destruct (IH (r + 1) p0 Hd') as (p&E&Hs&Hp). exists p. cbn [length].
        split; [etransitivity; [exact E|do 2 f_equal; lia]|]. split; [done|].
        intros c' [->|Hc']%elem_of_cons Hne; [by destruct Hne|by apply Hp].
      + rewrite filter_cons_False by (by rewrite Eq).
        destruct (IH r ({[c]} ∪ p0) Hd') as (p&E&Hs&Hp). exists p. split; [exact E|].
        split; [set_solver|].
        intros c' [->|Hc']%elem_of_cons Hne; [set_solver|by apply Hp]. }
  intros Hd. destruct (Hgen (pending_work x) Hd) as (p&E&_&Hp). exists p. split; [|done].
  rewrite <- E. by destruct x.
Qed.

(** The workers of the CPUs of a list, one after the other. *)
Lemma run_works_sound l x fs :
  NoDup l → (∀ c, c ∈ l → 0 ≤ c < num_online_cpus) → ready fs x →
  (∀ c, c ∈ l → queue x c ≠ [] → c ∈ pending_work x) →
  wp read_error (ofold (run_skb_work kfifo_new sha1_hash past_object g) x l) (λ x',
    ready fs x' ∧ (∀ c, c ∈ l → queue x' c = drop threshold (queue x c)) ∧
    (∀ c, c ∉ l → queue x' c = queue x c) ∧ resent x' ++ queued x' ≡ₚ resent x ++ queued x).
Proof.
  intros Hnd. revert x. induction Hnd as [|c l Hc Hnd IH]; intros x Hl Hr Hp; cbn [ofold].
  - cbn [wp]. split; [done|]. split; [by intros c ?%not_elem_of_nil|]. done.
  - apply wp_bind. eapply wp_mono; [|apply (run_skb_work_sound x fs c Hr);
      [apply Hl|apply Hp]; apply list_elem_of_here].
    intros x1 (Hr1&Hne&Eq&Ep&Hperm).
    assert (Hx : ∀ c', c' ∈ l → c' ≠ c) by congruence.
    eapply wp_mono; [|apply (IH x1)].
    + intros x2 (Hr2&Hin&Hout&Hperm2). split; [done|]. split; [|split].
      * intros c' [->|Hc']%elem_of_cons; [by rewrite (Hout c Hc)|].
        rewrite (Hin c' Hc'), Hne; [done|by apply Hx].
      * intros c' [Hc1 Hc2]%not_elem_of_cons. by rewrite (Hout c' Hc2), Hne.
      * by rewrite Hperm2.
    + intros c' Hc'. by apply Hl, list_elem_of_further.
    + done.
    + intros c' Hc' Hq. rewrite Ep. apply elem_of_difference.
      rewrite Hne in Hq by (by apply Hx).
      split; [by apply Hp; [apply list_elem_of_further|]|]. rewrite elem_of_singleton. by apply Hx.
Qed.

Lemma all_empty x : 0 ≤ num_online_cpus →
  Z.of_nat (length (filter (λ c, queue x c = []) (seqZ 0 num_online_cpus))) = num_online_cpus →
  ∀ c, 0 ≤ c < num_online_cpus → queue x c = [].
Proof.
  intros Hn Hl c Hc.
  assert (Hin : c ∈ filter (λ c, queue x c = []) (seqZ 0 num_online_cpus));
    [|apply list_elem_of_filter in Hin; apply Hin].
  rewrite (submseteq_length_Permutation (filter (λ c, queue x c = []) (seqZ 0 num_online_cpus))
    (seqZ 0 num_online_cpus)).
  - apply elem_of_seqZ. lia.
  - apply sublist_submseteq, sublist_filter.
  - rewrite length_seqZ. lia.
Qed.

Lemma all_nil_count x : 0 ≤ num_online_cpus → (∀ c, 0 ≤ c < num_online_cpus → queue x c = []) →
  Z.of_nat (length (filter (λ c, queue x c = []) (seqZ 0 num_online_cpus))) = num_online_cpus.
Proof.
  intros Hn Hq. assert (Hl : ∀ c, c ∈ seqZ 0 num_online_cpus → queue x c = [])
    by (intros c ?%elem_of_seqZ; apply Hq; lia).
  rewrite <- (Z2Nat.id num_online_cpus) at 2 by done. rewrite <- (length_seqZ 0 num_online_cpus).
  f_equal. induction (seqZ 0 num_online_cpus) as [|c l IH]; [done|].
  rewrite filter_cons_True by apply Hl, list_elem_of_here. cbn [length]. f_equal. apply IH.
  intros c' Hc'. by apply Hl, list_elem_of_further.
Qed.

Lemma clear_remainder_skb_S n x :
  clear_remainder_skb kfifo_new sha1_hash past_object g (S n) x =
    (xr ← ofold count_empty (x, 0) (seqZ 0 num_online_cpus);
     let '(x, rem) := (xr : nf * Z) in
     if rem =? num_online_cpus then Done (Some x)
     else x ← ofold (run_skb_work kfifo_new sha1_hash past_object g) x (seqZ 0 num_online_cpus);
          clear_remainder_skb kfifo_new sha1_hash past_object g n x).
Proof. reflexivity. Qed.

Lemma queued_nil x : (∀ c, 0 ≤ c < num_online_cpus → queue x c = []) → queued x = [].
Proof.
  intros Hq. unfold queued.
  assert (Hl : ∀ c, c ∈ seqZ 0 num_online_cpus → queue x c = [])
    by (intros c ?%elem_of_seqZ; apply Hq; lia).
  induction (seqZ 0 num_online_cpus) as [|c l IH]; [done|]. cbn.
  rewrite Hl by apply list_elem_of_here. cbn. apply IH. intros c' Hc'.
  by apply Hl, list_elem_of_further.
Qed.

(** C9. The worker of a CPU takes the first packets of its queue, ten thousand
    at most, cuts each into chunks, serves every read the chunks need, and sends
    exactly these packets on, in order; the store stays sound and the packets
    left stay queued. It stops the machine only when a file cannot be read. *)
Theorem run_skb_work_resends x fs c q :
  ready fs x → c ∈ pending_work x → skb_list x !! c = Some q →
  wp read_error (run_skb_work kfifo_new sha1_hash past_object g x c) (λ x',
    sound (Sys (nst x') empty_heads fs) ∧ skb_list x' = <[c := drop threshold q]> (skb_list x) ∧
    pending_work x' = pending_work x ∖ {[ c ]} ∧ resent x' = resent x ++ packets (take threshold q)).
Proof.
  intros [Hx _ Hw] Hc Hq. unfold run_skb_work. rewrite decide_True by done.
  eapply wp_mono; [|apply (handle_skb_sound _ fs c q); [exact Hx|exact Hq|by eapply Hw]].
  by intros x' (?&?&?&?).
Qed.

(** C8. [clear_remainder_skb] terminates: when no queue holds more than
    [n * 10000] packets it is done after [n] turns and one more to see that
    every queue is empty; and then every packet that was queued has been sent
    on, once. *)
Theorem clear_remainder_skb_drains x fs n :
  ready fs x → (∀ c, 0 ≤ c < num_online_cpus → (length (queue x c) ≤ n * threshold)%nat) →
  wp read_error (clear_remainder_skb kfifo_new sha1_hash past_object g (S n) x) (λ r,
    ∃ x', r = Some x' ∧ ready fs x' ∧ (∀ c, 0 ≤ c < num_online_cpus → queue x' c = []) ∧
      resent x' ≡ₚ resent x ++ queued x).
Proof.
  pose proof num_online_cpus_pos as Hcpus.
  revert x. induction n as [|n IH]; intros x Hr Hl; rewrite clear_remainder_skb_S;
    (destruct (count_empty_spec (seqZ 0 num_online_cpus) x 0) as (p&->&Hp);
      [intros c Hc%elem_of_seqZ; apply Hr; lia|]); cbn [mbind outcome_bind];
    (destruct (Z.eqb_spec (0 + Z.of_nat (length (filter (λ c, queue x c = [])
      (seqZ 0 num_online_cpus)))) num_online_cpus) as [He|He];
     [cbn [wp]; pose proof (all_empty x ltac:(lia) ltac:(lia)) as Hq; eexists; split; [reflexivity|];
      split; [by destruct Hr|]; split; [exact Hq|]; by rewrite (queued_nil x Hq), app_nil_r|]).
  - destruct He. rewrite all_nil_count; [lia|lia|]. intros c Hc. apply nil_length_inv.
    specialize (Hl c Hc). lia.
  - set (x1 := Nf _ _ _ _). apply wp_bind.
    eapply wp_mono; [|apply (run_works_sound _ x1 fs);
      [apply NoDup_seqZ|intros c Hc%elem_of_seqZ; lia|by destruct Hr|exact Hp]].
    intros x2 (Hr2&Hq2&_&Hperm). cbn [resent x1] in Hperm.
    eapply wp_mono; [|apply (IH x2 Hr2)].
    + intros r (x'&->&Hr'&Hn&Hp'). exists x'. split; [done|]. split; [done|]. split; [done|].
      by rewrite Hp', Hperm.
    + intros c Hc. rewrite Hq2 by (apply elem_of_seqZ; lia). rewrite length_drop.
      specialize (Hl c Hc). change (queue x1 c) with (queue x c). lia.
Qed.

(** The probe on [ip_rcv]: a TCP packet that neither comes from nor goes to
    the excluded host is copied to the end of the queue of the CPU, counted, and
    the work of the CPU is pending; any other packet, and any packet while free
    memory is short, changes nothing. *)
Lemma jpf_ip_rcv_queues x c reserve_mem d q proto src dst :
  hdr8 d 9 = Done proto → ip_addr d 12 = Done src → ip_addr d 16 = Done dst →
  skb_list x !! c = Some q →
  (MIN_PAGES ≤ reserve_mem → proto = IPPROTO_TCP → src ≠ excluded_host → dst ≠ excluded_host →
   ∃ x', jpf_ip_rcv x c reserve_mem d = Done x' ∧ skb_list x' = <[c := q ++ [Some d]]> (skb_list x) ∧
     c ∈ pending_work x' ∧ resent x' = resent x ∧
     ctr (nst x') skb_num = s64 (ctr (nst x) skb_num + 1) ∧ items (nst x') = items (nst x)) ∧
  (reserve_mem < MIN_PAGES ∨ proto ≠ IPPROTO_TCP ∨ src = excluded_host ∨ dst = excluded_host →
   jpf_ip_rcv x c reserve_mem d = Done x).
Proof using Hmem.
  intros Ep Es Ed Hq. unfold jpf_ip_rcv. rewrite Ep, Es, Ed, Hq. split.
  - intros Hm -> Hs Hd. rewrite (proj2 (Z.ltb_ge _ _)) by done. cbn [mbind outcome_bind deref].
    rewrite Z.eqb_refl, decide_True, !Hmem by done. eexists. split; [reflexivity|].
    unfold queue_skb_work. cbn [skb_list pending_work resent nst]. split; [done|].
    split; [by apply elem_of_union_l, elem_of_singleton|]. split; [done|]. by rewrite ctr_ctr_add, decide_True.
  - intros Hc. destruct (Z.ltb_spec reserve_mem MIN_PAGES) as [|Hm]; [done|]. cbn [mbind outcome_bind].
    destruct (Z.eqb_spec proto IPPROTO_TCP); [|done]. rewrite decide_False; [done|]. intros [??].
    destruct Hc as [Hc|[?|[?|?]]]; [by apply Z.le_ngt in Hm|done..].
Qed.
End spec.

(** ** The theorems on a packet *)

#[local] Existing Instance demo_params.
#[local] Existing Instance demo_params_laws.

Definition demo_sha (b : list Z) : option (list Z) := Some (take 20 (b ++ replicate 20 0)).
Lemma demo_sha_length b d : demo_sha b = Some d → length d = 20%nat.
Proof.
  assert (E : length (take 20 (b ++ replicate 20 0)) = 20%nat)
    by (rewrite length_take, length_app, length_replicate; lia).
  unfold demo_sha. congruence.
Qed.
Lemma demo_fifo_empty : kview ([] : list Z) = [].
Proof. reflexivity. Qed.
(** An IP header of 20 bytes, a TCP header of 20 bytes, 66 bytes of payload. *)
Definition demo_skb : skb :=
  [69; 0; 0; 106; 0; 0; 0; 0; 64; 6; 0; 0; 10; 0; 0; 1; 10; 0; 0; 2] ++
  [0; 80; 31; 144; 0; 0; 0; 0; 0; 0; 0; 0; 80; 16; 0; 0; 0; 0; 0; 0] ++
  seqZ 1 66.
Definition demo_nf : nf := Nf (st demo0) {[ 0 := [Some demo_skb] ]} {[ 0 ]} [].

Lemma demo_whole : whole wspack_globals (Some demo_skb).
Proof. eexists _, _. split; [done|]. vm_compute. reflexivity. Qed.

Lemma demo_ready : ready wspack_globals ∅ demo_nf.
Proof.
  split.
  - replace (Sys (nst demo_nf) empty_heads ∅) with demo0 by reflexivity.
    destruct (reached_ok demo_memory [] demo0) as (C&P&Hok);
      [apply reached_init, demo0_initial|]. by exists [], C, P.
  - intros c Hc. assert (c = 0) as -> by (unfold num_online_cpus, demo_params in Hc; lia).
    by eexists.
  - intros c q Hq. unfold demo_nf in Hq; cbn [skb_list] in Hq; apply lookup_singleton_Some in Hq as [_ <-]. by constructor; [apply demo_whole|].
Qed.

Lemma run_skb_work_resends_witness :
  wp read_error (run_skb_work ([] : list Z) demo_sha id wspack_globals demo_nf 0) (λ x',
    sound (Sys (nst x') empty_heads ∅) ∧ skb_list x' = <[0 := []]> {[ 0 := [Some demo_skb] ]} ∧
    pending_work x' = {[ 0 ]} ∖ {[ 0 ]} ∧ resent x' = [demo_skb]).
Proof.
  apply (run_skb_work_resends demo_memory ([] : list Z) demo_fifo_empty demo_sha demo_sha_length
    id wspack_globals wspack_globals_ok demo_nf ∅ 0 [Some demo_skb]);
    [apply demo_ready|set_solver|reflexivity].
Defined.

Lemma clear_remainder_skb_drains_witness :
  wp read_error (clear_remainder_skb ([] : list Z) demo_sha id wspack_globals 2 demo_nf) (λ r,
    ∃ x', r = Some x' ∧ ready wspack_globals ∅ x' ∧
      (∀ c, 0 ≤ c < num_online_cpus → queue x' c = []) ∧
      resent x' ≡ₚ resent demo_nf ++ queued demo_nf).
Proof.
  apply (clear_remainder_skb_drains demo_memory ([] : list Z) demo_fifo_empty demo_sha demo_sha_length
    id wspack_globals wspack_globals_ok demo_nf ∅ 1 demo_ready).
  intros c Hc. assert (c = 0) as -> by (unfold num_online_cpus, demo_params in Hc; lia).
  change (queue demo_nf 0) with [Some demo_skb]. unfold threshold. cbn [length]. lia.
Defined.

Lemma jpf_ip_rcv_queues_witness :
  (∃ x', jpf_ip_rcv demo_nf 0 MIN_PAGES demo_skb = Done x' ∧
    skb_list x' = <[0 := [Some demo_skb; Some demo_skb]]> (skb_list demo_nf) ∧
    0 ∈ pending_work x' ∧ resent x' = [] ∧ ctr (nst x') skb_num = 1 ∧ items (nst x') = ∅) ∧
  jpf_ip_rcv demo_nf 0 0 demo_skb = Done demo_nf.
Proof.
  destruct (jpf_ip_rcv_queues demo_memory demo_nf 0 MIN_PAGES demo_skb [Some demo_skb] 6
      [10; 0; 0; 1] [10; 0; 0; 2] eq_refl eq_refl eq_refl eq_refl) as [Hq _].
  destruct (jpf_ip_rcv_queues demo_memory demo_nf 0 0 demo_skb [Some demo_skb] 6
      [10; 0; 0; 1] [10; 0; 0; 2] eq_refl eq_refl eq_refl eq_refl) as [_ Hn].
  split; [|apply Hn; by left].
  apply Hq; [reflexivity|reflexivity|unfold excluded_host; congruence..].
Defined.
