(* ===== verification/DArray.v ===== *)
(** The dynamic arrays of the packet analyser
    (model/c-skeleton/src/lcthw/darray.c and darray.h).

    [contents] is the block of slots the field points to. A slot is what the
    memory holds: nothing defined, NULL, or a pointer to an element. Sizes and
    indices keep their C types; an access outside the block, and a branch on or
    a free of an undefined slot, are faults. *)
From S2P Require Import Prelude.
#[local] Open Scope Z_scope.

Inductive slot (A : Type) :=
| Undef
| Nil
| Ptr (x : A).
Arguments Undef {A}.
Arguments Nil {A}.
Arguments Ptr {A} x.

Record darray (A : Type) := DArr {
  end_ : Z;
  max : Z;
  element_size : Z;
  expand_rate : Z;
  contents : list (slot A) }.
Arguments DArr {A}.
Arguments end_ {A}.
Arguments max {A}.
Arguments element_size {A}.
Arguments expand_rate {A}.
Arguments contents {A}.

Definition DEFAULT_EXPAND_RATE : Z := 300.

Section darray.
  Context `{Allocator} {A : Type}.
  Implicit Types (a : darray A) (n : nat).

Definition with_contents a c : darray A := DArr (end_ a) (max a) (element_size a) (expand_rate a) c.
Definition with_end a e : darray A := DArr e (max a) (element_size a) (expand_rate a) (contents a).

(** ** Memory *)

(** Reading and writing the slot [i]. *)
Definition load a (i : Z) : outcome (slot A) :=
  if decide (0 ≤ i) then deref (contents a !! Z.to_nat i) else Oops.
Definition store_slot a (i : Z) (s : slot A) : outcome (darray A) :=
  if decide (0 ≤ i < Z.of_nat (length (contents a)))
  then Done (with_contents a (<[Z.to_nat i := s]> (contents a))) else Oops.

(** [memset(contents + from, 0, bytes)]: a slot that is cleared only in part is
    not defined. *)
Definition clear_bytes (c : list (slot A)) (from bytes : Z) : outcome (list (slot A)) :=
  if decide (0 ≤ from ∧ 0 ≤ bytes ∧ 8 * from + bytes ≤ 8 * Z.of_nat (length c)) then
    let full := Z.to_nat (bytes / 8) in
    let part := if bytes mod 8 =? 0 then 0%nat else 1%nat in
    let from := Z.to_nat from in
    Done (take from c ++ replicate full Nil ++ replicate part Undef ++ drop (from + full + part) c)
  else Oops.

(** ** Operations: [n] counts the allocations made so far *)

Definition DArray_create n (element_size initial_max : Z) : option (darray A) * nat :=
  if alloc_ok n then
    let max := s32 initial_max in
    if 0 <? max then
      if alloc_ok (S n) then
        (Some (DArr 0 max element_size DEFAULT_EXPAND_RATE
                 (replicate (Z.to_nat initial_max) Nil)), S (S n))
      else (None, S (S n))
    else (None, S n)
  else (None, S n).

(** The elements that are freed, in order. *)
Definition clear_slot a (freed : list A) (i : Z) : outcome (list A) :=
  s ← load a i;
  match s with Undef => Oops | Nil => Done freed | Ptr x => Done (freed ++ [x]) end.
Definition DArray_clear a : outcome (list A) :=
  if 0 <? element_size a then ofold (clear_slot a) [] (seqZ 0 (max a)) else Done [].

(** Freeing the block and the array has no result: what is left is the clearing. *)
Definition DArray_clear_destroy a : outcome (list A) := DArray_clear a.

(** Whether an element was allocated. *)
Definition DArray_new a n : bool * nat := if 0 <? element_size a then (alloc_ok n, S n) else (false, n).

(** [realloc] keeps what fits; the rest of a larger block is not defined. *)
Definition realloc_slots (c : list (slot A)) (m : nat) : list (slot A) :=
  take m c ++ replicate (m - length c) Undef.

(** [max] is set before the reallocation is known to succeed. *)
Definition DArray_resize a n (newsize : Z) : darray A * Z * nat :=
  let max := s32 newsize in
  let a := DArr (end_ a) max (element_size a) (expand_rate a) (contents a) in
  if 0 <? max then
    if alloc_ok n then (with_contents a (realloc_slots (contents a) (Z.to_nat max)), 0, S n)
    else (a, -1, S n)
  else (a, -1, n).

Definition DArray_expand a n : outcome (darray A * Z * nat) :=
  let old_max := u64 (max a) in
  let '(a, rc, n) := DArray_resize a n (u64 (max a + expand_rate a)) in
  if rc =? 0 then
    c ← clear_bytes (contents a) old_max (expand_rate a + 1);
    Done (with_contents a c, 0, n)
  else Done (a, -1, n).

Definition DArray_contract a n : darray A * Z * nat :=
  let new_size := if end_ a <? s32 (expand_rate a) then s32 (expand_rate a) else end_ a in
  DArray_resize a n (new_size + 1).

Definition DArray_push a n (el : slot A) : outcome (darray A * Z * nat) :=
  a ← store_slot a (end_ a) el;
  let a := with_end a (s32 (end_ a + 1)) in
  if max a <=? end_ a then DArray_expand a n else Done (a, 0, n).

Definition DArray_remove a (i : Z) : outcome (slot A * darray A) :=
  el ← load a i;
  a ← store_slot a i Nil;
  Done (el, a).

Definition DArray_pop a n : outcome (slot A * darray A * nat) :=
  if 0 <=? s32 (end_ a - 1) then
    '(el, a) ← DArray_remove a (end_ a - 1);
    let a := with_end a (end_ a - 1) in
    if (s32 (expand_rate a) <? end_ a) && negb (u64 (end_ a) mod expand_rate a =? 0) then
      let '(a, _, n) := DArray_contract a n in Done (el, a, n)
    else Done (el, a, n)
  else Done (Nil, a, n).

Definition DArray_set a (i : Z) (el : slot A) : outcome (darray A) :=
  if i <? max a then
    let a := if end_ a <? i then with_end a i else a in
    store_slot a i el
  else Done a.

Definition DArray_get a (i : Z) : outcome (slot A) :=
  if i <? max a then load a i else Done Nil.
End darray.

(** ** The array as a stack *)

(** The first [end] slots point to the elements of [l]; the block has at least
    [max] slots, and one of them is free. *)
Record holds {A} (a : darray A) (l : list A) : Prop := {
  hd_end : end_ a = Z.of_nat (length l);
  hd_room : end_ a < max a < 2 ^ 31;
  hd_block : max a ≤ Z.of_nat (length (contents a));
  hd_slots : take (length l) (contents a) = Ptr <$> l;
  hd_rate : expand_rate a = DEFAULT_EXPAND_RATE }.

Section facts.
  Context `{Allocator} {A : Type}.
  Implicit Types (a : darray A) (n : nat) (l : list A).

Lemma holds_slot a l i x : holds a l → l !! i = Some x → contents a !! i = Some (Ptr x).
Proof.
  intros Ha Hi. assert (i < length l)%nat by (by eapply lookup_lt_Some).
  rewrite <- (lookup_take_lt _ (length l)) by done.
  rewrite (hd_slots _ _ Ha), list_lookup_fmap, Hi. done.
Qed.

Lemma load_spec a l i x : holds a l → l !! i = Some x → load a (Z.of_nat i) = Done (Ptr x).
Proof.
  intros Ha Hi. unfold load. rewrite decide_True, Nat2Z.id by lia.
  rewrite (holds_slot a l i x Ha Hi). reflexivity.
Qed.

Lemma DArray_get_spec a l i x :
  holds a l → l !! i = Some x → DArray_get a (Z.of_nat i) = Done (Ptr x).
Proof.
  intros Ha Hi. unfold DArray_get. assert (i < length l)%nat by (by eapply lookup_lt_Some).
  destruct Ha. rewrite (proj2 (Z.ltb_lt _ _)) by lia. by eapply load_spec.
Qed.

Lemma store_slot_spec a (i : Z) s :
  0 ≤ i < Z.of_nat (length (contents a)) →
  store_slot a i s = Done (with_contents a (<[Z.to_nat i := s]> (contents a))).
Proof. intros. unfold store_slot. by rewrite decide_True. Qed.

(** Replacing the element at an index of the list. *)
Lemma DArray_set_spec a l i x :
  holds a l → (i < length l)%nat →
  ∃ a', DArray_set a (Z.of_nat i) (Ptr x) = Done a' ∧ holds a' (<[i := x]> l) ∧ max a' = max a.
Proof.
  intros Ha Hi. pose proof Ha as [He Hr Hb Hs Hx]. unfold DArray_set.
  rewrite (proj2 (Z.ltb_lt _ _)), (proj2 (Z.ltb_ge _ _)) by lia.
  rewrite store_slot_spec by lia. eexists. split; [reflexivity|]. rewrite Nat2Z.id.
  split; [|done]. split; cbn [end_ max contents expand_rate with_contents]; rewrite ?length_insert; try done.
  rewrite take_insert_lt, Hs by lia. by rewrite list_fmap_insert.
Qed.

(** Growing: the elements stay where they are. *)
Lemma clear_bytes_total (c : list (slot A)) from bytes :
  0 ≤ from → 0 ≤ bytes → 8 * from + bytes ≤ 8 * Z.of_nat (length c) →
  ∃ c', clear_bytes c from bytes = Done c' ∧ length c' = length c ∧
    take (Z.to_nat from) c' = take (Z.to_nat from) c ∧
    (bytes mod 8 ≠ 0 → c' !! (Z.to_nat from + Z.to_nat (bytes / 8))%nat = Some Undef).
Proof.
  intros Hf Hb Hc. unfold clear_bytes. rewrite decide_True by done.
  eexists. split; [reflexivity|].
  assert (Hd : 8 * (bytes / 8) + bytes mod 8 = bytes) by (rewrite <- Z.div_mod; lia).
  assert (0 ≤ bytes / 8) by (apply Z.div_pos; lia).
  pose proof (Z.mod_pos_bound bytes 8 eq_refl).
  set (part := if bytes mod 8 =? 0 then 0%nat else 1%nat).
  assert (Hp : (Z.to_nat from + Z.to_nat (bytes / 8) + part ≤ length c)%nat)
    by (subst part; destruct (Z.eqb_spec (bytes mod 8) 0); lia).
  split; [|split].
  - rewrite !length_app, !length_replicate, length_take, length_drop. lia.
  - rewrite take_app_le by (rewrite length_take; lia). by rewrite take_take, Nat.min_id.
  - intros Hn. rewrite lookup_app_r by (rewrite length_take; lia).
    rewrite length_take, Nat.min_l, Nat.add_comm, Nat.add_sub by lia.
    rewrite lookup_app_r, length_replicate, Nat.sub_diag by (rewrite length_replicate; lia).
    subst part. by destruct (Z.eqb_spec (bytes mod 8) 0).
Qed.

Lemma realloc_slots_spec (c : list (slot A)) m k :
  (k ≤ m)%nat → length (realloc_slots c m) = m ∧ take k (realloc_slots c m) = take k c ∨
  (length c < k)%nat.
Proof.
  intros Hk. destruct (decide (k ≤ length c)%nat); [left|right; lia].
  unfold realloc_slots. rewrite length_app, length_take, length_replicate. split; [lia|].
  rewrite take_app_le by (rewrite length_take; lia). rewrite take_take. f_equal. lia.
Qed.

(** The array is full: it grows by [expand_rate]. *)
Lemma DArray_expand_spec a n l :
  (∀ n, alloc_ok n = true) →
  end_ a = Z.of_nat (length l) → end_ a = max a → 0 < max a → max a + 300 < 2 ^ 31 →
  max a ≤ Z.of_nat (length (contents a)) → take (length l) (contents a) = Ptr <$> l →
  expand_rate a = DEFAULT_EXPAND_RATE →
  ∃ a', DArray_expand a n = Done (a', 0, S n) ∧ holds a' l ∧ max a' = max a + 300 ∧
    element_size a' = element_size a ∧ contents a' !! (Z.to_nat (max a) + 37)%nat = Some Undef.
Proof.
  intros Hmem He Hm Hp Hr Hb Hs Hx. unfold DArray_expand, DArray_resize.
  rewrite Hx. unfold DEFAULT_EXPAND_RATE. rewrite (u64_small (max a)), (u64_small (max a + 300)) by lia.
  rewrite s32_small, (proj2 (Z.ltb_lt 0 (max a + 300))), Hmem by lia. cbn [with_contents contents].
  change (0 =? 0) with true. cbv iota.
  destruct (realloc_slots_spec (contents a) (Z.to_nat (max a + 300)) (length l)) as [[Hl Ht]|];
    [lia| |lia].
  set (c := realloc_slots (contents a) (Z.to_nat (max a + 300))) in *.
  destruct (clear_bytes_total c (max a) (300 + 1)) as (c'&E&Hl'&Ht'&Hu); [lia|lia|lia|].
  cbn [expand_rate with_contents contents]. change (300 + 1) with 301 in E.
  rewrite ?Hx. unfold DEFAULT_EXPAND_RATE. change (300 + 1) with 301. rewrite E.
  cbn [mbind outcome_bind].
  eexists. split; [reflexivity|].
  split; [|do 2 (split; [done|]); cbn [contents with_contents]; by apply Hu].
  split; cbn [end_ max contents expand_rate with_contents]; [done|lia|lia| |done].
  rewrite <- Hs, <- Ht. assert (length l = Z.to_nat (max a)) as -> by lia. done.
Qed.

Lemma DArray_push_spec a n l x :
  (∀ n, alloc_ok n = true) → holds a l → max a + 300 < 2 ^ 31 →
  ∃ a' n', DArray_push a n (Ptr x) = Done (a', 0, n') ∧ holds a' (l ++ [x]) ∧
    max a' ≤ max a + 300 ∧ element_size a' = element_size a ∧
    (end_ a + 1 = max a → contents a' !! (Z.to_nat (max a) + 37)%nat = Some Undef ∧
       max a' = max a + 300) ∧ (n ≤ n')%nat.
Proof.
  intros Hmem [He Hr Hb Hs Hx] Hm. unfold DArray_push.
  rewrite store_slot_spec by lia. cbn [mbind outcome_bind].
  set (c := <[Z.to_nat (end_ a) := Ptr x]> (contents a)).
  assert (Hc : take (length (l ++ [x])) c = Ptr <$> (l ++ [x])).
  { rewrite length_app. cbn [length]. rewrite Nat.add_1_r. subst c. rewrite He, Nat2Z.id.
    rewrite (take_S_r _ _ (Ptr x)) by (apply list_lookup_insert_eq; lia).
    by rewrite take_insert_ge, Hs, fmap_app by lia. }
  assert (Hlc : length c = length (contents a)) by apply length_insert.
  cbn [with_end with_contents end_ max contents]. rewrite s32_small by lia.
  destruct (Z.leb_spec (max a) (end_ a + 1)) as [Hfull|Hfree].
  - set (a1 := with_end _ _).
    destruct (DArray_expand_spec a1 n (l ++ [x]) Hmem) as (a'&E&Ha'&Hm'&Hz&Hu); subst a1;
      cbn [with_end with_contents end_ max contents expand_rate] in *;
      [rewrite length_app; cbn [length]; lia|lia|lia|lia|lia|exact Hc|exact Hx|].
    exists a', (S n). rewrite E. split; [done|]. split; [done|]. split; [lia|]. split; [done|].
    split; [intros _; by split|lia].
  - eexists _, n. split; [reflexivity|]. split; [|split; [cbn; lia|split; [done|split; [lia|done]]]].
    split; cbn [end_ max contents expand_rate with_end with_contents]; try done; try lia.
    rewrite length_app. cbn [length]. lia.
Qed.

Lemma DArray_contract_spec a n l :
  holds a l → 300 < end_ a →
  ∃ a' rc n', DArray_contract a n = (a', rc, n') ∧ holds a' l ∧ max a' ≤ max a ∧ (n ≤ n')%nat.
Proof.
  intros [He Hr Hb Hs Hx] Hn. unfold DArray_contract, DArray_resize.
  rewrite Hx. change (s32 DEFAULT_EXPAND_RATE) with 300.
  rewrite (proj2 (Z.ltb_ge (end_ a) 300)), (s32_small (end_ a + 1)) by lia.
  rewrite (proj2 (Z.ltb_lt 0 (end_ a + 1))) by lia.
  destruct (alloc_ok n); do 3 eexists; (split; [reflexivity|]); (split; [|cbn; split; lia]).
  - destruct (realloc_slots_spec (contents a) (Z.to_nat (end_ a + 1)) (length l)) as [[Hl Ht]|];
      [lia| |lia].
    split; cbn [end_ max contents expand_rate with_contents]; try done; try lia. by rewrite Ht.
  - split; cbn [end_ max contents expand_rate]; try done; lia.
Qed.

Lemma DArray_pop_spec a n l x :
  holds a (l ++ [x]) →
  ∃ a' n', DArray_pop a n = Done (Ptr x, a', n') ∧ holds a' l ∧ max a' ≤ max a ∧ (n ≤ n')%nat.
Proof.
  intros Ha. pose proof Ha as [He Hr Hb Hs Hx]. rewrite length_app in *. cbn [length] in *.
  unfold DArray_pop. rewrite s32_small, (proj2 (Z.leb_le 0 _)) by lia. unfold DArray_remove.
  replace (end_ a - 1) with (Z.of_nat (length l)) by lia.
  rewrite (load_spec a (l ++ [x]) _ x) by (done || (rewrite lookup_app_r, Nat.sub_diag by lia; done)).
  cbn [mbind outcome_bind]. rewrite store_slot_spec, Nat2Z.id by lia. cbn [mbind outcome_bind].
  set (a1 := with_end _ _).
  assert (H1 : holds a1 l).
  { subst a1. split; cbn [end_ max contents expand_rate with_end with_contents];
      rewrite ?length_insert; try done; try lia.
    rewrite take_insert_ge by lia. rewrite Nat.add_1_r in Hs.
    apply (f_equal (take (length l))) in Hs. rewrite take_take, Nat.min_l in Hs by lia.
    rewrite Hs, fmap_app, take_app_le by (rewrite length_fmap; lia).
    by rewrite take_ge by (rewrite length_fmap; lia). }
  assert (Hm : max a1 = max a) by done.
  destruct ((s32 (expand_rate a1) <? end_ a1) && negb (u64 (end_ a1) mod expand_rate a1 =? 0)) eqn:Eb.
  - apply andb_true_iff in Eb as [Eb _]. rewrite (hd_rate _ _ H1) in Eb.
    change (s32 DEFAULT_EXPAND_RATE) with 300 in Eb. apply Z.ltb_lt in Eb.
    destruct (DArray_contract_spec a1 n l H1 Eb) as (a'&rc&n'&->&H'&Hm'&Hn'). by exists a', n'.
  - by exists a1, n.
Qed.

Lemma DArray_pop_empty a n : holds a [] → DArray_pop a n = Done (Nil, a, n).
Proof. intros Ha. unfold DArray_pop. by rewrite (hd_end _ _ Ha). Qed.

Lemma DArray_create_spec n (size m : Z) :
  (∀ n, alloc_ok n = true) → 0 < m < 2 ^ 31 →
  ∃ a, DArray_create (A := A) n size m = (Some a, S (S n)) ∧ holds a [] ∧ max a = m ∧
    element_size a = size ∧ contents a = replicate (Z.to_nat m) Nil.
Proof.
  intros Hmem Hm. unfold DArray_create. rewrite !Hmem, s32_small, (proj2 (Z.ltb_lt 0 m)) by lia.
  eexists. split; [reflexivity|]. split; [|done].
  split; cbn [end_ max contents expand_rate length]; rewrite ?length_replicate; try done; lia.
Qed.

(** ** The properties *)

(** A stack and its operations; what [Pop] answers. *)
Inductive stack_op := Push (x : A) | Pop.
Definition spec_step l (o : stack_op) : list A * option A :=
  match o with
  | Push x => (l ++ [x], None)
  | Pop => (take (length l - 1) l, List.last (Some <$> l) None)
  end.
Definition run_step a n (o : stack_op) : outcome (darray A * nat * slot A) :=
  match o with
  | Push x => '(a, _, n) ← DArray_push a n (Ptr x); Done (a, n, Nil)
  | Pop => '(el, a, n) ← DArray_pop a n; Done (a, n, el)
  end.
Fixpoint spec_run l (ops : list stack_op) : list A * list (option A) :=
  match ops with
  | [] => (l, [])
  | o :: ops =>
    let '(l, x) := spec_step l o in let '(l, xs) := spec_run l ops in (l, x :: xs)
  end.
Fixpoint impl_run a n (ops : list stack_op) : outcome (darray A * list (slot A)) :=
  match ops with
  | [] => Done (a, [])
  | o :: ops =>
    '(a, n, x) ← run_step a n o; '(a, xs) ← impl_run a n ops; Done (a, x :: xs)
  end.
Definition to_slot (x : option A) : slot A := match x with Some x => Ptr x | None => Nil end.

(** C33. While allocations succeed, any sequence of pushes and pops on an array
    behaves like a stack, whatever expansions and contractions happen on the
    way: no access leaves the block and the answers are those of the stack. *)
Theorem DArray_refines_stack ops a l n :
  (∀ n, alloc_ok n = true) → holds a l → max a + 300 * Z.of_nat (length ops) < 2 ^ 31 →
  ∃ a', impl_run a n ops = Done (a', to_slot <$> (spec_run l ops).2) ∧ holds a' (spec_run l ops).1.
Proof.
  intros Hmem. revert a l n. induction ops as [|o ops IH]; intros a l n Ha Hb; [by exists a|].
  cbn [length] in Hb. destruct o as [x|]; cbn [impl_run run_step spec_run spec_step].
  - destruct (DArray_push_spec a n l x Hmem Ha) as (a1&n1&->&Ha1&Hm1&_); [lia|].
    cbn [mbind outcome_bind]. destruct (IH a1 (l ++ [x]) n1) as (a'&E&Ha'); [done|lia|].
    rewrite E. destruct (spec_run (l ++ [x]) ops) as [l' xs]. by exists a'.
  - destruct l as [|y l0] eqn:El using rev_ind.
    + rewrite DArray_pop_empty by done. cbn [mbind outcome_bind].
      destruct (IH a [] n) as (a'&E&Ha'); [done|lia|]. cbn in *. rewrite E.
      destruct (spec_run [] ops) as [l' xs]. by exists a'.
    + rewrite length_app, Nat.add_sub, take_app_length.
      destruct (DArray_pop_spec a n l0 y Ha) as (a1&n1&->&Ha1&Hm1&_). cbn [mbind outcome_bind].
      destruct (IH a1 l0 n1) as (a'&E&Ha'); [done|lia|].
      rewrite E, fmap_app, (List.last_last (Some <$> l0) (Some y) None). destruct (spec_run l0 ops) as [l' xs]. by exists a'.
Qed.

(** A loop that faults at one of its elements. *)
Lemma clear_slot_not_bug a fr i : clear_slot a fr i ≠ Bug.
Proof.
  unfold clear_slot, load. case_decide; [|done]. destruct (contents a !! Z.to_nat i) as [[]|]; done.
Qed.
Lemma clear_oops a fr i is_ :
  i ∈ is_ → load a i = Done Undef → ofold (clear_slot a) fr is_ = Oops.
Proof.
  intros Hi Hl. revert fr. induction is_ as [|j is_ IH]; intros fr; [by apply not_elem_of_nil in Hi|].
  cbn [ofold]. apply elem_of_cons in Hi as [<-|Hi].
  - unfold clear_slot. by rewrite Hl.
  - pose proof (clear_slot_not_bug a fr j). destruct (clear_slot a fr j); [by apply IH|done|done].
Qed.

(** The push that fills an array leaves it in a state that
    [DArray_clear] cannot survive: [DArray_expand] clears [expand_rate + 1] bytes
    where it means as many elements, and [DArray_clear] then frees pointers that
    were never written. *)
Lemma DArray_clear_after_expand a l n x :
  (∀ n, alloc_ok n = true) → holds a l → end_ a + 1 = max a → max a + 300 < 2 ^ 31 →
  0 < element_size a →
  ∃ a' n', DArray_push a n (Ptr x) = Done (a', 0, n') ∧ DArray_clear a' = Oops.
Proof.
  intros Hmem Ha Hfull Hm Hz.
  destruct (DArray_push_spec a n l x Hmem Ha Hm) as (a'&n'&E&Ha'&_&Hz'&Hu&_).
  destruct (Hu Hfull) as [Hu1 Hm']. pose proof (hd_end _ _ Ha). exists a', n'. split; [done|].
  unfold DArray_clear. rewrite (proj2 (Z.ltb_lt _ _)) by lia.
  apply (clear_oops a' [] (max a + 37)).
  - apply elem_of_seqZ. lia.
  - unfold load. rewrite decide_True by lia.
    replace (Z.to_nat (max a + 37)) with (Z.to_nat (max a) + 37)%nat by lia. by rewrite Hu1.
Qed.
End facts.

(** ** On concrete arrays *)

Lemma DArray_refines_stack_witness :
  ∃ a', impl_run (DArr 1 2 8 300 [Ptr 5; Nil]) 0 [Push 6; Push 7; Pop; Pop; Pop; Pop] =
      Done (a', [Nil; Nil; Ptr 7; Ptr 6; Ptr 5; Nil]) ∧ holds a' ([] : list Z).
Proof.
  apply (DArray_refines_stack [Push 6; Push 7; Pop; Pop; Pop; Pop] (DArr 1 2 8 300 [Ptr 5; Nil]) [5] 0);
    [done| |cbn; lia].
  split; cbn; try done; lia.
Defined.

Lemma DArray_clear_after_expand_witness :
  ∃ a' n', DArray_push (DArr 1 2 8 300 [Ptr 5; Nil]) 0 (Ptr 6) = Done (a', 0, n') ∧
    DArray_clear a' = Oops.
Proof.
  apply (DArray_clear_after_expand (DArr 1 2 8 300 [Ptr 5; Nil]) [5] 0 6);
    [done| |cbn; lia|cbn; lia|cbn; lia].
  split; cbn; try done; lia.
Defined.
