(* ===== verification/KeyValue.v ===== *)
(** The arena that holds the keys of the packet analyser
    (model/c-skeleton/src/lcthw/keyvalue.c and keyvalue.h). *)
From S2P Require Import Prelude.
#[local] Open Scope Z_scope.

(** [SHA] is the size of a digest, [SHANUM] the number of keys of an arena. *)
Definition SHA : Z := 20.
Definition SHANUM : Z := 50000000.

(** [key] points to the start of a heap block: [block] is its identity (the
    number of the allocation that made it), [bytes] its contents. A pointer into
    it is the identity and an offset; [realloc] makes a new block, so that
    pointers into the old one dangle. *)
Record keyvalue := KV {
  index : Z;
  capacity : Z;
  kv_expand_rate : Z;
  kv_step : Z;
  block : nat;
  bytes : list Z }.
Definition pointer : Type := nat * Z.

Section keyvalue.
  Context `{Allocator}.
  Implicit Types (kv : keyvalue) (n : nat).

(** Writing [src] at an offset of the block: outside it is a fault. *)
Definition write_block (b : list Z) (off : Z) (src : list Z) : outcome (list Z) :=
  if decide (0 ≤ off ∧ off + Z.of_nat (length src) ≤ Z.of_nat (length b))
  then Done (write_at (Z.to_nat off) src b) else Oops.

(** Reading through a pointer: a block that has moved is gone. *)
Definition read_pointer kv (p : pointer) (len : Z) : outcome (list Z) :=
  let '(b, off) := p in
  if decide (b = block kv ∧ 0 ≤ off) then read_bytes (drop (Z.to_nat off) (bytes kv)) (Z.to_nat len)
  else Oops.

(** [calloc(num, size)]: the product is checked, the bytes are zero. *)
Definition calloc n (num size : Z) : option (list Z) :=
  if alloc_ok n && (u64 num * u64 size <? 2 ^ 63)
  then Some (replicate (Z.to_nat (u64 num * u64 size)) 0) else None.

Definition keyvalue_create n (num step_s : Z) : option keyvalue * nat :=
  if alloc_ok n then
    let step := if num <=? 0 then SHA else s32 step_s in
    let num := if num <=? 0 then SHANUM else num in
    match calloc (S n) num step with
    | Some b =>
      let capacity := u64 (num * u64 step) in (Some (KV 0 capacity capacity step (S n) b), S (S n))
    | None => (None, S (S n))
    end
  else (None, S n).

Definition keyvalue_full kv : Z :=
  if index kv <=? u64 (capacity kv - kv_step kv) then 0 else 1.

(** The capacity is set before the reallocation is known to succeed. *)
Definition keyvalue_resize kv n (newsize : Z) : keyvalue * Z * nat :=
  let kv := KV (index kv) newsize (kv_expand_rate kv) (kv_step kv) (block kv) (bytes kv) in
  if 0 <? capacity kv then
    if alloc_ok n then
      let size := Z.to_nat (u64 (capacity kv * u64 (kv_step kv))) in
      let b := take size (bytes kv) ++ junk n (size - length (bytes kv)) in
      (KV (index kv) (capacity kv) (kv_expand_rate kv) (kv_step kv) n b, 0, S n)
    else (kv, -1, S n)
  else (kv, -1, n).

Definition keyvalue_expand kv n : outcome (keyvalue * Z * nat) :=
  let old_max := capacity kv in
  let '(kv, rc, n) := keyvalue_resize kv n (u64 (capacity kv + kv_expand_rate kv)) in
  if rc =? 0 then
    b ← write_block (bytes kv) old_max (replicate (Z.to_nat (kv_expand_rate kv)) 0);
    Done (KV (index kv) (capacity kv) (kv_expand_rate kv) (kv_step kv) (block kv) b, 0, n)
  else Done (kv, -1, n).

Definition keyvalue_push kv n (el : list Z) : outcome (keyvalue * option pointer * nat) :=
  let old_index := s32 (index kv) in
  src ← read_bytes el (Z.to_nat (u64 (kv_step kv)));
  b ← write_block (bytes kv) old_index src;
  let kv := KV (u64 (index kv + u64 (kv_step kv))) (capacity kv) (kv_expand_rate kv) (kv_step kv)
              (block kv) b in
  if negb (keyvalue_full kv =? 0) then
    '(kv, rc, n) ← keyvalue_expand kv n;
    if negb (rc =? 0) then Done (kv, None, n) else Done (kv, Some (block kv, old_index), n)
  else Done (kv, Some (block kv, old_index), n).
End keyvalue.

(** ** The arena as a list of keys *)

(** The keys [l] fill the block up to [index]; there is room for one more. *)
Record stores (kv : keyvalue) (l : list (list Z)) : Prop := {
  st_index : index kv = kv_step kv * Z.of_nat (length l);
  st_step : 0 < kv_step kv < 2 ^ 31;
  st_room : index kv + kv_step kv ≤ capacity kv;
  st_size : capacity kv ≤ Z.of_nat (length (bytes kv));
  st_rate : kv_step kv ≤ kv_expand_rate kv;
  st_keys : Forall (λ e, length e = Z.to_nat (kv_step kv)) l;
  st_bytes : take (Z.to_nat (index kv)) (bytes kv) = concat l }.

Section facts.
  Context `{AllocatorLaws}.
  Implicit Types (kv : keyvalue) (n : nat).

Lemma write_block_spec b off src :
  0 ≤ off → off + Z.of_nat (length src) ≤ Z.of_nat (length b) →
  write_block b off src = Done (write_at (Z.to_nat off) src b).
Proof. intros. unfold write_block. by rewrite decide_True. Qed.

Lemma take_write_at_end pos src b :
  (pos + length src ≤ length b)%nat → take (pos + length src) (write_at pos src b) = take pos b ++ src.
Proof.
  intros Hl. unfold write_at. rewrite app_assoc, take_app_le
    by (rewrite length_app, write_at_length_pre; lia).
  rewrite take_ge by (rewrite length_app, write_at_length_pre; lia).
  f_equal. by rewrite take_app_le by lia.
Qed.

(** The arena is full: a larger block with the same keys. *)
Lemma keyvalue_expand_spec kv n l :
  (∀ n, alloc_ok n = true) → index kv = kv_step kv * Z.of_nat (length l) →
  0 < kv_step kv < 2 ^ 31 → 0 ≤ index kv ≤ capacity kv → 0 < capacity kv →
  capacity kv ≤ Z.of_nat (length (bytes kv)) → kv_step kv ≤ kv_expand_rate kv →
  (capacity kv + kv_expand_rate kv) * kv_step kv < 2 ^ 63 →
  Forall (λ e, length e = Z.to_nat (kv_step kv)) l →
  take (Z.to_nat (index kv)) (bytes kv) = concat l →
  ∃ kv', keyvalue_expand kv n = Done (kv', 0, S n) ∧ stores kv' l ∧ block kv' = n ∧
    capacity kv' = capacity kv + kv_expand_rate kv ∧ kv_step kv' = kv_step kv ∧ index kv' = index kv ∧
    kv_expand_rate kv' = kv_expand_rate kv.
Proof.
  intros Hmem Hi Hs Hic Hc Hsz Hr Hb Hk Ht. unfold keyvalue_expand, keyvalue_resize.
  assert (capacity kv + kv_expand_rate kv ≤ (capacity kv + kv_expand_rate kv) * kv_step kv) by nia.
  rewrite (u64_small (capacity kv + kv_expand_rate kv)) by lia. cbn [capacity].
  rewrite (proj2 (Z.ltb_lt 0 _)), Hmem by lia. cbn [index kv_expand_rate kv_step block bytes].
  change (0 =? 0) with true. cbv iota.
  rewrite (u64_small (kv_step kv)), (u64_small (_ * _)) by lia.
  set (size := Z.to_nat ((capacity kv + kv_expand_rate kv) * kv_step kv)).
  set (b := take size (bytes kv) ++ _).
  assert (Hlb : length b = size).
  { subst b. rewrite length_app, length_take, junk_length. lia. }
  rewrite write_block_spec by (rewrite ?length_replicate; subst size; lia).
  cbn [mbind outcome_bind]. eexists. split; [reflexivity|]. split; [|done].
  split; cbn [index kv_expand_rate kv_step block bytes capacity]; try done.
  - lia.
  - rewrite length_write_at by (rewrite length_replicate; subst size; lia). subst size. lia.
  - rewrite <- (Nat.min_l (Z.to_nat (index kv)) (Z.to_nat (capacity kv))) by lia.
    rewrite <- take_take, take_write_at_before by (subst size; lia).
    rewrite take_take, Nat.min_l by lia. subst b.
    rewrite take_app_le by (rewrite length_take; subst size; lia).
    rewrite take_take, Nat.min_l by (subst size; lia). done.
Qed.

Lemma keyvalue_push_spec kv n l el :
  (∀ n, alloc_ok n = true) → stores kv l → (Z.to_nat (kv_step kv) ≤ length el)%nat →
  index kv < 2 ^ 31 → (capacity kv + kv_expand_rate kv) * kv_step kv < 2 ^ 63 →
  ∃ kv' n', keyvalue_push kv n el = Done (kv', Some (block kv', index kv), n') ∧
    stores kv' (l ++ [take (Z.to_nat (kv_step kv)) el]) ∧ kv_step kv' = kv_step kv ∧
    kv_expand_rate kv' = kv_expand_rate kv ∧
    (if decide (index kv + 2 * kv_step kv ≤ capacity kv)
     then block kv' = block kv ∧ capacity kv' = capacity kv ∧ n' = n
     else block kv' = n ∧ capacity kv' = capacity kv + kv_expand_rate kv ∧ n' = S n).
Proof.
  intros Hmem [Hi Hs Hro Hsz Hr Hk Ht] Hel Hix Hb. unfold keyvalue_push.
  rewrite s32_small, (u64_small (kv_step kv)) by lia.
  unfold read_bytes. rewrite decide_True by done. cbn [mbind outcome_bind].
  set (e := take _ el). assert (He : length e = Z.to_nat (kv_step kv))
    by (subst e; rewrite length_take; lia).
  rewrite write_block_spec by lia. cbn [mbind outcome_bind].
  assert (capacity kv + kv_expand_rate kv ≤ (capacity kv + kv_expand_rate kv) * kv_step kv) by nia.
  rewrite u64_small by lia. set (b := write_at _ _ _).
  assert (Hlb : length b = length (bytes kv)) by (subst b; apply length_write_at; lia).
  assert (Htb : take (Z.to_nat (index kv + kv_step kv)) b = concat (l ++ [e])).
  { replace (Z.to_nat (index kv + kv_step kv)) with (Z.to_nat (index kv) + length e)%nat by lia.
    subst b. rewrite take_write_at_end, Ht by lia. rewrite concat_app. cbn. by rewrite app_nil_r. }
  assert (Hk' : Forall (λ e, length e = Z.to_nat (kv_step kv)) (l ++ [e]))
    by (apply Forall_app; by split; [|constructor]).
  unfold keyvalue_full. cbn [index capacity kv_step]. rewrite u64_small by lia.
  case_decide as Hfree.
  - rewrite (proj2 (Z.leb_le _ _)) by lia. change (negb (0 =? 0)) with false. cbv iota.
    eexists _, n. split; [reflexivity|]. split; [|done].
    split; cbn [index capacity kv_step kv_expand_rate bytes]; try done; rewrite ?length_app; cbn; lia.
  - rewrite (proj2 (Z.leb_gt _ _)) by lia. change (negb (1 =? 0)) with true. cbv iota.
    set (kv1 := KV _ _ _ _ _ _).
    destruct (keyvalue_expand_spec kv1 n (l ++ [e]) Hmem)
      as (kv'&->&Hst&Hbl&Hcap&Hstep&Hidx&Hrate); subst kv1;
      cbn [index capacity kv_step kv_expand_rate bytes] in *;
      [rewrite length_app; cbn; lia|lia|lia|lia|lia|lia|lia|exact Hk'|exact Htb|].
    cbn [mbind outcome_bind]. change (negb (0 =? 0)) with false. cbv iota.
    exists kv', (S n). split; [done|]. split; [done|]. split; [done|]. by repeat split.
Qed.

Lemma read_stored kv l i e :
  stores kv l → l !! i = Some e →
  read_pointer kv (block kv, kv_step kv * Z.of_nat i) (kv_step kv) = Done e.
Proof.
  intros [Hi Hs Hro Hsz Hr Hk Ht] He. unfold read_pointer. rewrite decide_True by lia.
  assert (Hlt : (i < length l)%nat) by (by eapply lookup_lt_Some).
  assert (Hlen : length e = Z.to_nat (kv_step kv)) by (by eapply (Forall_lookup_1 _ _ _ _ Hk)).
  assert (Hpre : length (concat (take i l)) = Z.to_nat (kv_step kv * Z.of_nat i)).
  { clear Ht Hi. revert i Hlt He. induction l as [|x l IH]; intros i Hlt He; [done|].
    apply Forall_cons in Hk as [Hx Hk].
    destruct i as [|i]; [cbn; lia|]. cbn in *. rewrite length_app, IH by (done || lia). lia. }
  assert (Hcat : concat l = concat (take i l) ++ e ++ concat (drop (S i) l)).
  { rewrite <- (take_drop_middle l i e He) at 1. by rewrite concat_app. }
  assert (Hfull : bytes kv = concat l ++ drop (Z.to_nat (index kv)) (bytes kv))
    by (rewrite <- Ht; symmetry; apply take_drop).
  rewrite Hfull, Hcat, <- !app_assoc, drop_app_length' by (symmetry; exact Hpre).
  unfold read_bytes. rewrite decide_True by (rewrite !length_app; lia).
  by rewrite take_app_length'.
Qed.

(** While the arena is not moved past offset [2^31], a push appends a key:
    it stays inside the block, even when it has to enlarge it, and afterwards
    every key ever pushed can be read at its place, the new one through the
    pointer that is returned. *)
Lemma keyvalue_push_keeps_keys kv n l el :
  (∀ n, alloc_ok n = true) → stores kv l → (Z.to_nat (kv_step kv) ≤ length el)%nat →
  index kv < 2 ^ 31 → (capacity kv + kv_expand_rate kv) * kv_step kv < 2 ^ 63 →
  ∃ kv' p n', keyvalue_push kv n el = Done (kv', Some p, n') ∧
    stores kv' (l ++ [take (Z.to_nat (kv_step kv)) el]) ∧
    read_pointer kv' p (kv_step kv) = Done (take (Z.to_nat (kv_step kv)) el) ∧
    ∀ i e, l !! i = Some e →
      read_pointer kv' (block kv', kv_step kv * Z.of_nat i) (kv_step kv) = Done e.
Proof.
  intros Hmem Hst Hel Hix Hb.
  destruct (keyvalue_push_spec kv n l el Hmem Hst Hel Hix Hb) as (kv'&n'&E&Hst'&Hstep&_&_).
  exists kv', (block kv', index kv), n'. split; [done|]. split; [done|].
  rewrite <- Hstep. split.
  - rewrite (st_index _ _ Hst), <- Hstep. apply (read_stored _ _ _ _ Hst').
    by rewrite lookup_app_r, Nat.sub_diag, Hstep by done.
  - intros i e He. apply (read_stored _ _ _ _ Hst'). by apply lookup_app_l_Some.
Qed.

(** The push that fills the arena makes every pointer handed out before it
    dangle: [keyvalue_expand] reallocates the block, and the keys of the hash map
    point into it. *)
Lemma keyvalue_expand_dangles kv n l el i :
  (∀ n, alloc_ok n = true) → stores kv l → (Z.to_nat (kv_step kv) ≤ length el)%nat →
  index kv < 2 ^ 31 → (capacity kv + kv_expand_rate kv) * kv_step kv < 2 ^ 63 →
  (block kv < n)%nat → capacity kv < index kv + 2 * kv_step kv → (i < length l)%nat →
  let p := (block kv, kv_step kv * Z.of_nat i) in
  ∃ e kv' q n', read_pointer kv p (kv_step kv) = Done e ∧
    keyvalue_push kv n el = Done (kv', q, n') ∧ read_pointer kv' p (kv_step kv) = Oops.
Proof.
  intros Hmem Hst Hel Hix Hb Hn Hfull Hi p.
  destruct (lookup_lt_is_Some_2 l i Hi) as [e He]. exists e.
  destruct (keyvalue_push_spec kv n l el Hmem Hst Hel Hix Hb) as (kv'&n'&E&_&_&_&Hd).
  rewrite decide_False in Hd by lia. destruct Hd as (Hbl&_).
  exists kv', (Some (block kv', index kv)), n'. split; [by apply (read_stored _ l)|]. split; [done|].
  subst p. unfold read_pointer. rewrite decide_False; [done|]. lia.
Qed.

Lemma keyvalue_create_spec n num step_s :
  (∀ n, alloc_ok n = true) → 0 < num → 0 < step_s < 2 ^ 31 → num * step_s < 2 ^ 63 →
  ∃ kv, keyvalue_create n num step_s = (Some kv, S (S n)) ∧ stores kv [] ∧ kv_step kv = step_s ∧
    capacity kv = num * step_s ∧ kv_expand_rate kv = num * step_s ∧ block kv = S n.
Proof.
  intros Hmem Hn Hs Hb. unfold keyvalue_create. rewrite Hmem, (proj2 (Z.leb_gt num 0)) by lia.
  assert (num ≤ num * step_s) by nia.
  unfold calloc. rewrite Hmem, s32_small, (u64_small step_s), (u64_small num) by lia.
  cbn [andb]. rewrite (proj2 (Z.ltb_lt _ _)) by lia. eexists. split; [reflexivity|].
  rewrite u64_small by lia. split; [|done].
  split; cbn [index capacity kv_step kv_expand_rate bytes length]; try done; try nia.
  rewrite length_replicate. nia.
Qed.
End facts.

(** ** On concrete arenas *)

Definition two_keys : keyvalue := KV 2 6 4 2 7 [10; 11; 0; 0; 0; 0].
Lemma two_keys_stores : stores two_keys [[10; 11]].
Proof. split; cbn; try lia; try done. by repeat constructor. Qed.

Lemma keyvalue_push_keeps_keys_witness :
  ∃ kv' p n', keyvalue_push two_keys 8 [12; 13; 14] = Done (kv', Some p, n') ∧
    stores kv' [[10; 11]; [12; 13]] ∧ read_pointer kv' p 2 = Done [12; 13] ∧
    ∀ i e, [[10; 11]] !! i = Some e → read_pointer kv' (block kv', 2 * Z.of_nat i) 2 = Done e.
Proof.
  apply (keyvalue_push_keeps_keys two_keys 8 [[10; 11]] [12; 13; 14]);
    [done|apply two_keys_stores|cbn; lia|cbn; lia|cbn; lia].
Defined.

Definition full_keys : keyvalue := KV 2 4 4 2 7 [10; 11; 0; 0].
Lemma full_keys_stores : stores full_keys [[10; 11]].
Proof. split; cbn; try lia; try done. by repeat constructor. Qed.

Lemma keyvalue_expand_dangles_witness :
  ∃ e kv' q n', read_pointer full_keys (7%nat, 0) 2 = Done e ∧
    keyvalue_push full_keys 8 [12; 13] = Done (kv', q, n') ∧ read_pointer kv' (7%nat, 0) 2 = Oops.
Proof.
  apply (keyvalue_expand_dangles full_keys 8 [[10; 11]] [12; 13] 0);
    [done|apply full_keys_stores|cbn; lia..].
Defined.
