(* ===== verification/ChunkBuf.v ===== *)
(** The buffer for the bytes of a stream that no cut has closed yet
    (model/c-skeleton/src/lcthw/chunk.c and chunk.h). *)
From S2P Require Import Prelude KeyValue.
#[local] Open Scope Z_scope.

Definition LEN : Z := 30000.

(** [content] is the block the field points to, of [limit] bytes unless a
    reallocation has failed. *)
Record chunk := Ck {
  ck_end : Z;
  limit : Z;
  content : list Z }.

Section chunk.
  Context `{Allocator}.
  Implicit Types (ck : chunk) (n : nat).

Definition chunk_create n : option chunk * nat :=
  if alloc_ok n then
    if alloc_ok (S n) then (Some (Ck 0 LEN (junk (S n) (Z.to_nat LEN))), S (S n))
    else (None, S (S n))
  else (None, S n).

Definition chunk_clean ck : chunk := Ck 0 (limit ck) (content ck).

(** [src + begin], [len] bytes of it, as [memcpy] reads them. *)
Definition read_range (src : list Z) (begin len : Z) : outcome (list Z) :=
  if decide (0 ≤ begin) then read_bytes (drop (Z.to_nat begin) src) (Z.to_nat (u64 len)) else Oops.

(** [src] is [None] for NULL. *)
Definition chunk_store ck (src : option (list Z)) (begin stop : Z) : outcome (chunk * Z) :=
  let len := s32 (stop - begin + 1) in
  match src with
  | None => Done (ck, -1)
  | Some src =>
    if begin <=? stop then
      b ← read_range src begin len;
      c ← write_block (content ck) 0 b;
      Done (Ck (u64 len) (limit ck) c, len)
    else Done (ck, -1)
  end.

(** [limit] is set before the reallocation is known to succeed; the new bytes
    are cleared, with one more. *)
Definition chunk_merge ck n (src : option (list Z)) (begin stop : Z) : outcome (chunk * Z * nat) :=
  let len := s32 (stop - begin + 1) in
  let old_max := ck_end ck in
  match src with
  | None => Done (ck, -1, n)
  | Some src =>
    if begin <=? stop then
      r ← (if limit ck <? u64 (u64 (ck_end ck - 1) + len) then
             let ck := Ck (ck_end ck) (u64 (u64 (len + ck_end ck) - 1)) (content ck) in
             if alloc_ok n then
               let size := Z.to_nat (limit ck) in
               let c := take size (content ck) ++ junk n (size - length (content ck)) in
               c ← write_block c old_max (replicate (Z.to_nat (u64 (s32 (len + 1)))) 0);
               Done (Some (Ck (ck_end ck) (limit ck) c), ck, S n)
             else Done (None, ck, S n)
           else Done (Some ck, ck, n));
      let '(ok, failed, n) := (r : option chunk * chunk * nat) in
      match ok with
      | None => Done (failed, -1, n)
      | Some ck =>
        b ← read_range src begin len;
        c ← write_block (content ck) (ck_end ck) b;
        Done (Ck (u64 (ck_end ck + len)) (limit ck) c, len, n)
      end
    else Done (ck, -1, n)
  end.
End chunk.

(** ** The buffer as a list of bytes *)

Record carries (ck : chunk) (l : list Z) : Prop := {
  cy_end : ck_end ck = Z.of_nat (length l);
  cy_limit : limit ck < 2 ^ 31;
  cy_block : Z.of_nat (length (content ck)) = limit ck;
  cy_fits : ck_end ck ≤ limit ck;
  cy_bytes : take (length l) (content ck) = l }.

Section facts.
  Context `{AllocatorLaws}.
  Implicit Types (ck : chunk) (n : nat).

Lemma chunk_create_spec n :
  (∀ n, alloc_ok n = true) →
  ∃ ck, chunk_create n = (Some ck, S (S n)) ∧ carries ck [] ∧ limit ck = LEN.
Proof.
  intros Hmem. unfold chunk_create. rewrite !Hmem. eexists. split; [reflexivity|]. split; [|done].
  split; cbn [ck_end limit content length]; rewrite ?junk_length; done.
Qed.

Lemma chunk_clean_spec ck l : carries ck l → carries (chunk_clean ck) [].
Proof. intros []. split; cbn; done || lia. Qed.

Lemma read_range_spec src begin len :
  0 ≤ begin → 0 ≤ len < 2 ^ 64 → begin + len ≤ Z.of_nat (length src) →
  read_range src begin len = Done (slice (Z.to_nat begin) (Z.to_nat len) src).
Proof.
  intros. unfold read_range, read_bytes. rewrite decide_True, u64_small by lia.
  rewrite decide_True; [done|]. rewrite length_drop. lia.
Qed.

(** [chunk_store] replaces what is kept. *)
Lemma chunk_store_spec ck l src begin stop :
  carries ck l → 0 ≤ begin ≤ stop → stop < Z.of_nat (length src) → stop - begin + 1 ≤ limit ck →
  ∃ ck', chunk_store ck (Some src) begin stop = Done (ck', stop - begin + 1) ∧
    carries ck' (slice (Z.to_nat begin) (Z.to_nat (stop - begin + 1)) src) ∧ limit ck' = limit ck.
Proof.
  intros [He Hl Hb Hf Hc] Hbs Hs Hfit. unfold chunk_store.
  rewrite s32_small, (proj2 (Z.leb_le _ _)), read_range_spec by lia. cbn [mbind outcome_bind].
  set (b := slice _ _ src). assert (Hlb : length b = Z.to_nat (stop - begin + 1))
    by (subst b; apply slice_length; lia).
  rewrite write_block_spec by lia. cbn [mbind outcome_bind]. eexists. split; [reflexivity|].
  split; [|done]. split; cbn [ck_end limit content]; rewrite ?u64_small by lia; try lia.
  - rewrite length_write_at by lia. lia.
  - rewrite <- (Nat.add_0_l (length b)). change (Z.to_nat 0) with 0%nat.
    by rewrite take_write_at_end by lia.
Qed.

(** When the bytes fit, [chunk_merge] appends them. *)
Lemma chunk_merge_fits ck l n src begin stop :
  carries ck l → 0 ≤ begin ≤ stop → stop < Z.of_nat (length src) →
  ck_end ck + (stop - begin + 1) ≤ limit ck →
  ∃ ck', chunk_merge ck n (Some src) begin stop = Done (ck', stop - begin + 1, n) ∧
    carries ck' (l ++ slice (Z.to_nat begin) (Z.to_nat (stop - begin + 1)) src) ∧
    limit ck' = limit ck.
Proof.
  intros [He Hl Hb Hf Hc] Hbs Hs Hfit. unfold chunk_merge.
  rewrite s32_small, (proj2 (Z.leb_le _ _)) by lia.
  assert (Hu : u64 (u64 (ck_end ck - 1) + (stop - begin + 1)) = ck_end ck + (stop - begin)).
  { unfold u64 at 1. unfold u64. rewrite Zplus_mod_idemp_l, Z.mod_small; lia. }
  rewrite Hu, (proj2 (Z.ltb_ge _ _)) by lia. cbn [mbind outcome_bind].
  rewrite read_range_spec by lia. cbn [mbind outcome_bind].
  set (b := slice _ _ src). assert (Hlb : length b = Z.to_nat (stop - begin + 1))
    by (subst b; apply slice_length; lia).
  rewrite write_block_spec by lia. cbn [mbind outcome_bind]. eexists. split; [reflexivity|].
  split; [|done]. split; cbn [ck_end limit content]; rewrite ?u64_small, ?length_app by lia; try lia.
  - rewrite length_write_at by lia. lia.
  - rewrite He, Nat2Z.id, take_write_at_end by lia. by rewrite Hc.
Qed.

(** [chunk_merge] appends the bytes of the range exactly when they fit in the
    buffer; when they do not, it enlarges the buffer to one byte less than it
    needs (or, when one byte is missing, not at all) and then writes past its
    end. *)
Lemma chunk_merge_fits_or_overflows ck l n src begin stop :
  (∀ n, alloc_ok n = true) → carries ck l → 0 ≤ begin ≤ stop → stop < Z.of_nat (length src) →
  Z.of_nat (length src) < 2 ^ 31 →
  let len := stop - begin + 1 in
  if decide (ck_end ck + len ≤ limit ck) then
    ∃ ck', chunk_merge ck n (Some src) begin stop = Done (ck', len, n) ∧
      carries ck' (l ++ slice (Z.to_nat begin) (Z.to_nat len) src)
  else chunk_merge ck n (Some src) begin stop = Oops.
Proof.
  intros Hmem Hck Hbs Hs Hlen len. case_decide as Hfit.
  { destruct (chunk_merge_fits ck l n src begin stop) as (ck'&E&Hc&_); [done..|]. by exists ck'. }
  destruct Hck as [He Hl Hb Hf Hc]. unfold chunk_merge.
  assert (Hd : stop - begin + 1 = len) by done. rewrite Hd. clearbody len.
  rewrite (s32_small len), (proj2 (Z.leb_le begin stop)) by lia.
  assert (Hu : u64 (u64 (ck_end ck - 1) + len) = ck_end ck + len - 1).
  { unfold u64 at 1. unfold u64. rewrite Zplus_mod_idemp_l, Z.mod_small; lia. }
  rewrite Hu. destruct (Z.ltb_spec (limit ck) (ck_end ck + len - 1)) as [Hg|Hg].
  - rewrite Hmem, (u64_small (len + ck_end ck)), u64_small by lia. cbn [limit ck_end content].
    set (size := Z.to_nat (len + ck_end ck - 1)).
    set (c := take size (content ck) ++ _).
    assert (Hlc : length c = size) by (subst c; rewrite length_app, length_take, junk_length; lia).
    assert (write_block c (ck_end ck) (replicate (Z.to_nat (u64 (s32 (len + 1)))) 0) = Oops) as ->;
      [|done].
    unfold write_block. rewrite decide_False; [done|]. rewrite length_replicate, Hlc. subst size.
    destruct (decide (len + 1 < 2 ^ 31)).
    + rewrite s32_small, u64_small by lia. lia.
    + assert (u64 (s32 (len + 1)) = 2 ^ 64 - 2 ^ 31) as ->
        by (by replace len with (2 ^ 31 - 1) by lia). lia.
  - cbn [mbind outcome_bind]. rewrite read_range_spec by lia. cbn [mbind outcome_bind].
    unfold write_block. rewrite decide_False; [done|].
    rewrite slice_length by lia. lia.
Qed.
End facts.

Lemma chunk_merge_fits_or_overflows_witness :
  let ck := Ck 2 4 [1; 2; 0; 0] in
  (∃ ck', chunk_merge ck 0 (Some [7; 8; 9]) 1 2 = Done (ck', 2, 0%nat) ∧ carries ck' [1; 2; 8; 9]) ∧
  chunk_merge ck 0 (Some [7; 8; 9]) 0 2 = Oops.
Proof.
  assert (Hc : carries (Ck 2 4 [1; 2; 0; 0]) [1; 2]) by (split; cbn; lia || done). split.
  - apply (chunk_merge_fits_or_overflows (Ck 2 4 [1; 2; 0; 0]) [1; 2] 0 [7; 8; 9] 1 2);
      [done|done|lia|cbn; lia|cbn; lia].
  - apply (chunk_merge_fits_or_overflows (Ck 2 4 [1; 2; 0; 0]) [1; 2] 0 [7; 8; 9] 0 2);
      [done|done|lia|cbn; lia|cbn; lia].
Defined.
