(* ===== verification/HashAlgos.v ===== *)
(** The hash functions and the checksum of the analyser's library
    (model/c-skeleton/src/lcthw/hashmap_algos.c, checksum.c and the default hash
    of hashmap.c), on byte strings. *)
From S2P Require Import Prelude.
#[local] Open Scope Z_scope.

(** A [bstring]: NULL, or its bytes as [unsigned char]; [blength] and [bchare]
    are the macros of bstrlib.h. *)
Definition bstring : Type := option (list Z).
Definition blength (b : bstring) : Z :=
  match b with Some d => Z.of_nat (length d) | None => 0 end.
Definition bchare (b : bstring) (p e : Z) : Z :=
  if u32 p <? u32 (blength b)
  then match b with Some d => default e (d !! Z.to_nat p) | None => e end else e.

(** The indices of the loops [for (i = 0; i < blength(s); i++)]. *)
Definition indices (b : bstring) : list Z := seqZ 0 (blength b).

Definition FNV_PRIME : Z := 16777619.
Definition FNV_OFFSET_BASIS : Z := 2166136261.
Definition Hashmap_fnv1a_hash (s : bstring) : Z :=
  foldl (λ hash i, u32 (Z.lxor hash (bchare s i 0) * FNV_PRIME)) FNV_OFFSET_BASIS (indices s).

Definition MOD_ADLER : Z := 65521.
Definition adler_step (s : bstring) (ab : Z * Z) (i : Z) : Z * Z :=
  let a := u32 (ab.1 + bchare s i 0) mod MOD_ADLER in
  (a, u32 (ab.2 + a) mod MOD_ADLER).
Definition Hashmap_adler32_hash (s : bstring) : Z :=
  let '(a, b) := foldl (adler_step s) (1, 0) (indices s) in
  Z.lor (u32 (Z.shiftl b 16)) a.

Definition Hashmap_djb_hash (s : bstring) : Z :=
  foldl (λ hash i, u32 (u32 (u32 (Z.shiftl hash 5) + hash) + bchare s i 0)) 5381 (indices s).

(** [bdata] is a [char *]: the bytes are signed here. *)
Definition jenkins_step (hash c : Z) : Z :=
  let hash := u32 (hash + s8 c) in
  let hash := u32 (hash + u32 (Z.shiftl hash 10)) in
  Z.lxor hash (Z.shiftr hash 6).
Definition default_hash (s : bstring) : Z :=
  let hash := foldl jenkins_step 0 (default [] s) in
  let hash := u32 (hash + u32 (Z.shiftl hash 3)) in
  let hash := Z.lxor hash (Z.shiftr hash 11) in
  u32 (hash + u32 (Z.shiftl hash 15)).

Definition xor_checksum (buff : list Z) (buff_len : nat) : outcome Z :=
  b ← read_bytes buff buff_len;
  Done (foldl (λ x c, u8 (Z.lxor x (u8 c))) 0 b).

(** ** Facts *)

Definition byte (z : Z) : Prop := 0 ≤ z < 256.

Lemma bchare_spec (d : list Z) i :
  0 ≤ i < Z.of_nat (length d) → Z.of_nat (length d) < 2 ^ 31 →
  bchare (Some d) i 0 = default 0 (d !! Z.to_nat i).
Proof.
  intros Hi Hl. unfold bchare. cbn [blength]. rewrite !u32_small by lia.
  by rewrite (proj2 (Z.ltb_lt _ _)) by lia.
Qed.

(** A loop over the indices is a loop over the bytes. *)
Lemma foldl_bytes {S} (f : S → Z → S) (d : list Z) s :
  Z.of_nat (length d) < 2 ^ 31 →
  foldl (λ s i, f s (bchare (Some d) i 0)) s (indices (Some d)) = foldl f s d.
Proof.
  intros Hl. unfold indices, blength.
  assert (Hg : ∀ k l, d = k ++ l → ∀ s,
    foldl (λ s i, f s (bchare (Some d) i 0)) s (seqZ (Z.of_nat (length k)) (Z.of_nat (length l)))
      = foldl f s l).
  { intros k l. revert k. induction l as [|x l IH]; intros k E s'; [done|].
    cbn [length]. rewrite seqZ_cons by lia. cbn [foldl].
    rewrite bchare_spec; [|subst d; rewrite length_app; cbn; lia|done].
    assert (d !! Z.to_nat (Z.of_nat (length k)) = Some x) as ->.
    { subst d. rewrite Nat2Z.id, lookup_app_r, Nat.sub_diag by done. done. }
    cbn [default]. rewrite <- (IH (k ++ [x])) by (by rewrite <- app_assoc).
    rewrite length_app. cbn [length]. f_equal. f_equal; lia. }
  apply (Hg [] d). done.
Qed.

(** The two sums of Adler-32. *)
Definition adler_a (d : list Z) : Z := 1 + foldr Z.add 0 d.
Fixpoint adler_b (d : list Z) : Z :=
  match d with [] => 0 | x :: l => (1 + x) + Z.of_nat (length l) * x + adler_b l end.

Lemma adler_fold d a b :
  Forall byte d → 0 ≤ a < MOD_ADLER → 0 ≤ b < MOD_ADLER →
  foldl (λ ab x, let a := u32 (ab.1 + x) mod MOD_ADLER in (a, u32 (ab.2 + a) mod MOD_ADLER)) (a, b) d
  = ((a + foldr Z.add 0 d) mod MOD_ADLER,
     (b + Z.of_nat (length d) * (a - 1) + adler_b d) mod MOD_ADLER).
Proof.
  intros Hd. revert a b. induction Hd as [|x d Hx Hd IH]; intros a b Ha Hb; cbn [foldl foldr length adler_b].
  - rewrite !Z.mod_small by lia. f_equal; lia.
  - cbn [fst snd]. unfold byte, MOD_ADLER in *. rewrite (u32_small (a + x)) by lia.
    set (a' := (a + x) mod 65521). assert (0 ≤ a' < 65521) by (apply Z.mod_pos_bound; lia).
    rewrite (u32_small (b + a')) by lia. rewrite IH by (lia || apply Z.mod_pos_bound; lia).
    f_equal; fold (eqmod 65521 (a' + foldr Z.add 0 d) (a + (x + foldr Z.add 0 d))).
    + subst a'. rewrite eqmod_mod. unfold eqmod. f_equal. lia.
    + set (n := Z.of_nat (length d)).
      change (eqmod 65521 ((b + a') mod 65521 + n * (a' - 1) + adler_b d)
        (b + Z.of_nat (S (length d)) * (a - 1) + (1 + x + n * x + adler_b d))).
      subst a'. rewrite !eqmod_mod. unfold eqmod. f_equal. subst n. lia.
Qed.

Lemma lor_shifted a b k : 0 ≤ k → 0 ≤ a < 2 ^ k → Z.lor (Z.shiftl b k) a = b * 2 ^ k + a.
Proof.
  intros Hk Ha. assert (Z.land (Z.shiftl b k) a = 0) as Hz.
  { apply Z.bits_inj'. intros i Hi. rewrite Z.land_spec, Z.bits_0.
    destruct (Z.lt_ge_cases i k); [by rewrite Z.shiftl_spec_low|].
    rewrite <- (Z.mod_small a (2 ^ k)), Z.mod_pow2_bits_high by lia. apply andb_false_r. }
  rewrite <- Z.lxor_lor, <- Z.add_nocarry_lxor by done. by rewrite Z.shiftl_mul_pow2.
Qed.

(** Adler-32 is the two sums of its definition, whatever the length: the [%]
    after each byte keeps both below the modulus, so that no addition wraps. *)
Lemma Hashmap_adler32_hash_spec d :
  Forall byte d → Z.of_nat (length d) < 2 ^ 31 →
  Hashmap_adler32_hash (Some d) =
    adler_b d mod MOD_ADLER * 2 ^ 16 + adler_a d mod MOD_ADLER.
Proof.
  intros Hd Hl. unfold Hashmap_adler32_hash.
  assert (foldl (adler_step (Some d)) (1, 0) (indices (Some d)) =
    (adler_a d mod MOD_ADLER, adler_b d mod MOD_ADLER)) as ->.
  { etransitivity; [exact (foldl_bytes (λ ab x, let a := u32 (ab.1 + x) mod MOD_ADLER in
      (a, u32 (ab.2 + a) mod MOD_ADLER)) d (1, 0) Hl)|].
    rewrite adler_fold by (done || unfold MOD_ADLER; lia). unfold adler_a. f_equal. f_equal. lia. }
  unfold MOD_ADLER. pose proof (Z.mod_pos_bound (adler_a d) 65521 eq_refl).
  pose proof (Z.mod_pos_bound (adler_b d) 65521 eq_refl).
  rewrite u32_small by (rewrite Z.shiftl_mul_pow2; lia). rewrite lor_shifted; lia.
Qed.

(** A message followed by its checksum has checksum zero. *)
Lemma lxor_bytes x y : byte x → byte y → byte (Z.lxor x y).
Proof.
  unfold byte. intros Hx Hy. change 256 with (2 ^ 8) in *.
  assert (Z.lxor x y mod 2 ^ 8 = Z.lxor x y) as <-; [|by apply Z.mod_pos_bound].
  apply Z.bits_inj'. intros i Hi. destruct (Z.lt_ge_cases i 8).
  - by rewrite Z.mod_pow2_bits_low.
  - rewrite Z.mod_pow2_bits_high, Z.lxor_spec by lia.
    rewrite <- (Z.mod_small x (2 ^ 8)), <- (Z.mod_small y (2 ^ 8)) by done.
    by rewrite !Z.mod_pow2_bits_high by lia.
Qed.

Lemma xor_checksum_spec b :
  ∃ c, xor_checksum b (length b) = Done c ∧ byte c ∧
    xor_checksum (b ++ [c]) (S (length b)) = Done 0.
Proof.
  set (f := λ x c, u8 (Z.lxor x (u8 c))). exists (foldl f 0 b).
  unfold xor_checksum, read_bytes. rewrite !decide_True by (rewrite ?length_app; cbn; lia).
  cbn [mbind outcome_bind]. rewrite !take_ge by (rewrite ?length_app; cbn; lia).
  split; [done|]. fold f. rewrite foldl_app. cbn [foldl].
  assert (Hb : ∀ x, byte x → byte (foldl f x b)).
  { induction b as [|y b IH]; intros x Hx; [done|]. cbn. apply IH. apply (Z.mod_pos_bound _ 256). done. }
  specialize (Hb 0 ltac:(unfold byte; lia)). split; [done|]. do 2 f_equal. unfold f at 1.
  assert (u8 (foldl f 0 b) = foldl f 0 b) as -> by (apply Z.mod_small, Hb).
  by rewrite Z.lxor_nilpotent.
Qed.

Lemma Hashmap_adler32_hash_spec_witness :
  Hashmap_adler32_hash (Some [87; 105; 107; 105]) =
    adler_b [87; 105; 107; 105] mod MOD_ADLER * 2 ^ 16 + adler_a [87; 105; 107; 105] mod MOD_ADLER.
Proof.
  apply (Hashmap_adler32_hash_spec [87; 105; 107; 105]); [|cbn; lia].
  repeat constructor; unfold byte; lia.
Defined.
