(* ===== verification/Hashmap.v ===== *)
(** The chained hash map of the analyser's library
    (model/c-skeleton/src/lcthw/hashmap.c and hashmap.h): an array of buckets,
    each an array of nodes.

    A bucket is reached through its slot only, so that the pointer to a bucket is
    the index of its slot. A node has an identity (the number of the allocation
    that made it), which is what a comparison of node pointers compares. The two
    function pointers of the map may read memory and fault. *)
From S2P Require Import Prelude DArray KeyValue.
#[local] Open Scope Z_scope.

Definition DEFAULT_NUMBER_OF_BUCKETS : Z := 100.

Record HashmapNode (K D : Type) := Node {
  node_id : nat;
  key : K;
  data : D;
  node_hash : Z;
  next : keyvalue }.
Arguments Node {K D}.
Arguments node_id {K D}.
Arguments key {K D}.
Arguments data {K D}.
Arguments node_hash {K D}.
Arguments next {K D}.

Section hashmap.
  Context `{Allocator} {K D : Type}.
  Context (hash : K → outcome Z) (compare : K → K → outcome Z).

Abbreviation bucket_t := (darray (HashmapNode K D)).
Abbreviation Hashmap := (darray bucket_t).
Implicit Types (m : Hashmap) (n : nat).

(** The number of buckets is read before the array is known to exist. *)
Definition Hashmap_create n (buckets_len : Z) : outcome (option Hashmap * nat) :=
  if alloc_ok n then
    let buckets_n := if 0 <? buckets_len then buckets_len else DEFAULT_NUMBER_OF_BUCKETS in
    match DArray_create (S n) 8 buckets_n with
    | (Some b, n) => Done (Some (with_end b (max b)), n)
    | (None, _) => Oops
    end
  else Done (None, S n).

Definition Hashmap_node_create n (hash_ : Z) (key : K) (data : D) : option (HashmapNode K D) * nat :=
  if alloc_ok n then
    match keyvalue_create (S n) 1 SHA with
    | (Some next, n') => (Some (Node n key data (u32 (s32 hash_)) next), n')
    | (None, n') => (None, n')
    end
  else (None, S n).

(** The bucket behind a slot; a branch on an undefined slot is a fault. *)
Definition bucket_at m (b : Z) : outcome (option bucket_t) :=
  s ← DArray_get m b;
  match s with Undef => Oops | Nil => Done None | Ptr d => Done (Some d) end.

(** The index of the bucket, if there is one, and the hash. *)
Definition Hashmap_find_bucket m n (key : K) (create : bool)
    : outcome (option Z * Z * Hashmap * nat) :=
  hash ← hash key;
  if max m =? 0 then Oops
  else
    let bucket_n := s32 (u32 hash mod u32 (max m)) in
    if 0 <=? bucket_n then
      bucket ← bucket_at m bucket_n;
      match bucket with
      | Some _ => Done (Some bucket_n, u32 hash, m, n)
      | None =>
        if create then
          match DArray_create n 8 DEFAULT_NUMBER_OF_BUCKETS with
          | (Some d, n) => m ← DArray_set m bucket_n (Ptr d); Done (Some bucket_n, u32 hash, m, n)
          | (None, n) => Done (None, u32 hash, m, n)
          end
        else Done (None, u32 hash, m, n)
      end
    else Done (None, 0, m, n).

(** A bucket through its pointer. *)
Definition the_bucket m (b : Z) : outcome bucket_t := d ← bucket_at m b; deref d.
Definition the_node (d : bucket_t) (i : Z) : outcome (HashmapNode K D) :=
  s ← DArray_get d i; match s with Ptr nd => Done nd | _ => Oops end.
Definition put_bucket m (b : Z) (d : bucket_t) : outcome Hashmap := store_slot m b (Ptr d).

(** The result of the push is not used. *)
Definition Hashmap_set m n (key : K) (data : D) : outcome (Hashmap * Z * nat) :=
  '(b, hash_, m, n) ← Hashmap_find_bucket m n key true;
  match b with
  | None => Done (m, -1, n)
  | Some b =>
    match Hashmap_node_create n hash_ key data with
    | (None, n) => Done (m, -1, n)
    | (Some node, n) =>
      d ← the_bucket m b;
      '(d, _, n) ← DArray_push d n (Ptr node);
      m ← put_bucket m b d;
      Done (m, 0, n)
    end
  end.

Fixpoint find_node (d : bucket_t) (hash_ : Z) (k : K) (is_ : list Z) : outcome Z :=
  match is_ with
  | [] => Done (-1)
  | i :: is_ =>
    node ← the_node d i;
    if node_hash node =? hash_ then
      c ← compare (key node) k;
      if c =? 0 then Done i else find_node d hash_ k is_
    else find_node d hash_ k is_
  end.
Definition Hashmap_get_node (d : bucket_t) (hash_ : Z) (k : K) : outcome Z :=
  find_node d hash_ k (seqZ 0 (end_ d)).

(** The common part of [Hashmap_get], [Hashmap_getnode] and [Hashmap_delete]:
    the bucket, the index of the node and the node. *)
Definition locate m n (k : K) : outcome (option (Z * Z * HashmapNode K D) * nat) :=
  '(b, hash_, m, n) ← Hashmap_find_bucket m n k false;
  match b with
  | None => Done (None, n)
  | Some b =>
    d ← the_bucket m b;
    i ← Hashmap_get_node d hash_ k;
    if i =? -1 then Done (None, n)
    else node ← the_node d i; Done (Some (b, i, node), n)
  end.

Definition Hashmap_getnode m n (k : K) : outcome (option (HashmapNode K D)) :=
  '(r, _) ← locate m n k; Done (snd <$> (r : option (Z * Z * HashmapNode K D))).
Definition Hashmap_get m n (k : K) : outcome (option D) :=
  node ← Hashmap_getnode m n k; Done (data <$> (node : option (HashmapNode K D))).

(** The node is freed, the arena it owns is not. *)
Definition Hashmap_delete m n (k : K) : outcome (Hashmap * option D * nat) :=
  '(r, n) ← locate m n k;
  match r with
  | None => Done (m, None, n)
  | Some (b, i, node) =>
    d ← the_bucket m b;
    '(ending, d, n) ← DArray_pop d n;
    d ← (match ending with
         | Undef => Oops
         | Nil => DArray_set d i Nil
         | Ptr e => if (node_id e =? node_id node)%nat then Done d else DArray_set d i (Ptr e)
         end);
    m ← put_bucket m b d;
    Done (m, Some (data node), n)
  end.

(** The loops over buckets and nodes: the callback threads a state and stops the
    traversal with a result that is not 0. *)
Fixpoint visit_nodes {S} (cb : S → HashmapNode K D → outcome (S * Z)) (s : S) (d : bucket_t)
    (js : list Z) : outcome (S * Z) :=
  match js with
  | [] => Done (s, 0)
  | j :: js =>
    node ← the_node d j;
    '(s, rc) ← cb s node;
    if negb (rc =? 0) then Done (s, rc) else visit_nodes cb s d js
  end.
Fixpoint visit_buckets {S} (cb : S → HashmapNode K D → outcome (S * Z)) (s : S) m
    (is_ : list Z) : outcome (S * Z) :=
  match is_ with
  | [] => Done (s, 0)
  | i :: is_ =>
    bucket ← bucket_at m i;
    '(s, rc) ← (match bucket with
                | Some d => visit_nodes cb s d (seqZ 0 (end_ d))
                | None => Done (s, 0)
                end);
    if negb (rc =? 0) then Done (s, rc) else visit_buckets cb s m is_
  end.
Definition Hashmap_traverse {S} (cb : S → HashmapNode K D → outcome (S * Z)) (s : S) m
    : outcome (S * Z) := visit_buckets cb s m (seqZ 0 (end_ m)).

(** The nodes [Hashmap_destroy] frees, each with its arena. *)
Definition Hashmap_destroy m : outcome (list (HashmapNode K D)) :=
  '(freed, _) ← visit_buckets (λ l node, Done (l ++ [node], 0)) [] m (seqZ 0 (end_ m));
  Done freed.
End hashmap.
