(* ===== verification/HashmapSpec.v ===== *)
(** The hash map of the analyser implements a finite map: what the library
    promises to the two tools that use it. *)
From S2P Require Import Prelude DArray KeyValue Hashmap.
#[local] Open Scope Z_scope.

Section spec.
  Context `{AllocatorLaws} {K D V : Type} `{Countable V}.
  Context (hash : K → outcome Z) (compare : K → K → outcome Z).
  (** What the tools have to know of their keys: the pointers that are [valid]
      stand for values [val]; the hash of a key is a function [hv] of its value,
      and where two hashes agree, [compare] is zero exactly on equal values. *)
  Context (valid : K → Prop) (val : K → V) (hv : V → Z).
  Context (hash_spec : ∀ k, valid k → hash k = Done (hv (val k))).
  Context (hv_range : ∀ v, 0 ≤ hv v < 2 ^ 32).
  Context (compare_spec : ∀ a b, valid a → valid b → hv (val a) = hv (val b) →
    ∃ z, compare a b = Done z ∧ (z = 0 ↔ val a = val b)).
  Abbreviation node := (HashmapNode K D).
  Abbreviation hashmap := (darray (darray (HashmapNode K D))).
  Implicit Types (m : hashmap) (M : gmap V D) (n : nat) (nd : node) (d : darray node).

Definition vkey nd : V := val (key nd).

(** ** The nodes of a bucket *)

Record node_ok (n : nat) (nb b : Z) nd : Prop := {
  nk_valid : valid (key nd);
  nk_hash : node_hash nd = hv (vkey nd);
  nk_bucket : hv (vkey nd) mod nb = b;
  nk_id : (node_id nd < n)%nat }.

Record chain (n : nat) (nb b : Z) M (nodes : list node) : Prop := {
  ch_nodes : ∀ nd, nd ∈ nodes → node_ok n nb b nd;
  ch_keys : NoDup (vkey <$> nodes);
  ch_ids : NoDup (node_id <$> nodes);
  ch_map : ∀ v x, hv v mod nb = b →
    M !! v = Some x ↔ ∃ nd, nd ∈ nodes ∧ vkey nd = v ∧ data nd = x }.

Lemma chain_perm n nb b M nodes nodes' :
  nodes ≡ₚ nodes' → chain n nb b M nodes → chain n nb b M nodes'.
Proof.
  intros Hp [Hc1 Hc2 Hc3 Hc4]. split; [|by rewrite <- Hp..|].
  - intros nd. rewrite <- Hp. apply Hc1.
  - intros v x Hv. rewrite (Hc4 v x Hv). by setoid_rewrite Hp.
Qed.

Lemma chain_mono n n' nb b M nodes : (n ≤ n')%nat → chain n nb b M nodes → chain n' nb b M nodes.
Proof.
  intros Hn [Hc1 Hc2 Hc3 Hc4]. split; try done. intros nd [? ? ? ?]%Hc1. split; try done. lia.
Qed.

(** The other buckets do not see a change at a key of this one. *)
Lemma chain_other n nb b M M' nodes v :
  hv v mod nb ≠ b → (∀ w, w ≠ v → M' !! w = M !! w) → chain n nb b M nodes → chain n nb b M' nodes.
Proof.
  intros Hv HM [Hc1 Hc2 Hc3 Hc4]. split; try done. intros w x Hw. rewrite HM; [by apply Hc4|]. congruence.
Qed.

Lemma chain_nil n nb b M : (∀ v, hv v mod nb = b → M !! v = None) → chain n nb b M [].
Proof.
  intros HM. split; [by intros nd ?%not_elem_of_nil|constructor..|].
  intros v x Hv. rewrite HM by done. split; [done|]. by intros (nd&?%not_elem_of_nil&_).
Qed.

Lemma chain_insert n nb b M nodes nd :
  chain n nb b M nodes → node_ok n nb b nd → M !! vkey nd = None →
  (∀ nd', nd' ∈ nodes → node_id nd' ≠ node_id nd) →
  chain n nb b (<[vkey nd := data nd]> M) (nd :: nodes).
Proof.
  intros [Hc1 Hc2 Hc3 Hc4] Hnd HM Hid. split.
  - intros nd' [->|Hin]%elem_of_cons; [done|by apply Hc1].
  - cbn. constructor; [|done]. intros (nd'&E&Hin)%list_elem_of_fmap.
    assert (M !! vkey nd = Some (data nd')); [|congruence].
    apply Hc4; [apply Hnd|]. by exists nd'.
  - cbn. constructor; [|done]. intros (nd'&E&Hin)%list_elem_of_fmap. by destruct (Hid nd' Hin).
  - intros v x Hv. destruct (decide (v = vkey nd)) as [->|Hne].
    + rewrite lookup_insert_eq. split.
      * intros [= <-]. exists nd. split; [apply list_elem_of_here|done].
      * intros (nd'&[->|Hin]%elem_of_cons&E&<-); [done|].
        assert (M !! vkey nd = Some (data nd')); [|congruence]. apply Hc4; [done|]. by exists nd'.
    + rewrite lookup_insert_ne by done. rewrite (Hc4 v x Hv). split.
      * intros (nd'&Hin&E). exists nd'. split; [by apply list_elem_of_further|done].
      * intros (nd'&[->|Hin]%elem_of_cons&E&Ex); [by destruct Hne|by exists nd'].
Qed.

Lemma chain_delete n nb b M nodes nd :
  chain n nb b M (nd :: nodes) → chain n nb b (delete (vkey nd) M) nodes.
Proof.
  intros [Hc1 Hc2 Hc3 Hc4]. cbn in Hc2, Hc3. apply NoDup_cons in Hc2 as [Hc2 Hc2'], Hc3 as [Hc3 Hc3'].
  split; try done.
  - intros nd' Hin. apply Hc1. by apply list_elem_of_further.
  - intros v x Hv. destruct (decide (v = vkey nd)) as [->|Hne].
    + rewrite lookup_delete_eq. split; [done|]. intros (nd'&Hin&E&_). destruct Hc2.
      apply list_elem_of_fmap. by exists nd'.
    + rewrite lookup_delete_ne by done. rewrite (Hc4 v x Hv). split.
      * intros (nd'&[->|Hin]%elem_of_cons&E&Ex); [by destruct Hne|by exists nd'].
      * intros (nd'&Hin&E). exists nd'. split; [by apply list_elem_of_further|done].
Qed.

(** ** The map *)

(** [hi] bounds the capacity of every bucket. *)
Definition bucket_ok (n : nat) (hi nb b : Z) M (s : slot (darray node)) : Prop :=
  match s with
  | Undef => False
  | Nil => ∀ v, hv v mod nb = b → M !! v = None
  | Ptr d => ∃ nodes, holds d nodes ∧ max d ≤ hi ∧ chain n nb b M nodes
  end.

Record represents (n : nat) (hi : Z) m M : Prop := {
  rp_max : 0 < max m < 2 ^ 31;
  rp_end : end_ m = max m;
  rp_block : max m ≤ Z.of_nat (length (contents m));
  rp_hi : 100 ≤ hi;
  rp_buckets : ∀ b, 0 ≤ b < max m →
    ∃ s, contents m !! Z.to_nat b = Some s ∧ bucket_ok n hi (max m) b M s }.

Lemma bucket_ok_mono n n' hi hi' nb b M s :
  (n ≤ n')%nat → hi ≤ hi' → bucket_ok n hi nb b M s → bucket_ok n' hi' nb b M s.
Proof.
  intros Hn Hh. destruct s as [| |d]; try done. intros (nodes&?&?&?). exists nodes.
  split; [done|]. split; [lia|]. by eapply chain_mono.
Qed.

Lemma bucket_ok_other n hi nb b M M' s v :
  hv v mod nb ≠ b → (∀ w, w ≠ v → M' !! w = M !! w) → bucket_ok n hi nb b M s →
  bucket_ok n hi nb b M' s.
Proof.
  intros Hv HM. destruct s as [| |d]; [done| |].
  - intros Hs w Hw. rewrite HM; [by apply Hs|]. congruence.
  - intros (nodes&?&?&?). exists nodes. split; [done|]. split; [done|]. by eapply chain_other.
Qed.

Lemma represents_mono n n' hi hi' m M :
  (n ≤ n')%nat → hi ≤ hi' → represents n hi m M → represents n' hi' m M.
Proof.
  intros Hn Hh [Hm He Hb Hhi Hs]. split; try done; try lia. intros b Hbr.
  destruct (Hs b Hbr) as (s&E&Ho). exists s. split; [done|]. by eapply bucket_ok_mono.
Qed.

(** A new bucket for the slot of [v]. *)
Lemma represents_put n n' hi hi' m M M' v s :
  represents n hi m M → (n ≤ n')%nat → hi ≤ hi' → (∀ w, w ≠ v → M' !! w = M !! w) →
  bucket_ok n' hi' (max m) (hv v mod max m) M' s →
  represents n' hi' (with_contents m (<[Z.to_nat (hv v mod max m) := s]> (contents m))) M'.
Proof.
  intros [Hm He Hb Hh Hs] Hn Hhi HM Hnew. split; cbn [max end_ contents with_contents];
    rewrite ?length_insert; try done; try lia.
  intros b Hbr. pose proof (Z.mod_pos_bound (hv v) (max m) (proj1 Hm)) as Hv.
  destruct (decide (hv v mod max m = b)) as [<-|Hne].
  - exists s. split; [apply list_lookup_insert_eq; revert Hv Hb; clear; generalize (hv v mod max m); lia|done].
  - destruct (Hs b Hbr) as (s0&E&Ho0). exists s0. rewrite list_lookup_insert_ne by (revert Hne Hv Hbr; clear; generalize (hv v mod max m); lia).
    split; [done|]. eapply bucket_ok_mono; [done|done|]. by eapply bucket_ok_other.
Qed.

(** ** The operations *)

Lemma bucket_at_spec n hi m M b :
  represents n hi m M → 0 ≤ b < max m →
  ∃ s, contents m !! Z.to_nat b = Some s ∧ bucket_ok n hi (max m) b M s ∧
    bucket_at m b = Done (match s with Ptr d => Some d | _ => None end).
Proof.
  intros [Hm He Hb Hh Hs] Hbr. destruct (Hs b Hbr) as (s&E&Ho). exists s.
  split; [done|]. split; [done|]. unfold bucket_at, DArray_get, load.
  rewrite (proj2 (Z.ltb_lt _ _)), decide_True, E by lia. by destruct s.
Qed.

Lemma find_bucket_spec n hi m M k (create : bool) :
  represents n hi m M → valid k →
  let b := hv (val k) mod max m in
  ∃ s, contents m !! Z.to_nat b = Some s ∧ bucket_ok n hi (max m) b M s ∧ 0 ≤ b < max m ∧
    Hashmap_find_bucket hash m n k create =
      match s with
      | Ptr _ => Done (Some b, hv (val k), m, n)
      | _ =>
        if create then
          match DArray_create n 8 DEFAULT_NUMBER_OF_BUCKETS with
          | (Some d, n) =>
            Done (Some b, hv (val k), with_contents m (<[Z.to_nat b := Ptr d]> (contents m)), n)
          | (None, n) => Done (None, hv (val k), m, n)
          end
        else Done (None, hv (val k), m, n)
      end.
Proof.
  intros Hm Hk b. pose proof (hv_range (val k)) as Hr. pose proof (rp_max _ _ _ _ Hm) as Hmax.
  assert (Hb : 0 ≤ b < max m) by (apply Z.mod_pos_bound; lia).
  destruct (bucket_at_spec n hi m M b Hm Hb) as (s&E&Ho&Ha). exists s.
  split; [done|]. split; [done|]. split; [done|].
  unfold Hashmap_find_bucket. rewrite hash_spec by done. cbn [mbind outcome_bind].
  rewrite (proj2 (Z.eqb_neq _ _)), !u32_small by lia. fold b.
  rewrite s32_small, (proj2 (Z.leb_le 0 b)), Ha by lia. cbn [mbind outcome_bind].
  destruct s as [| |d]; [done| |done]. destruct create; [|done].
  destruct (DArray_create n 8 DEFAULT_NUMBER_OF_BUCKETS) as [[d|] n']; [|done].
  unfold DArray_set. rewrite (proj2 (Z.ltb_lt _ _)) by lia.
  rewrite (rp_end _ _ _ _ Hm), (proj2 (Z.ltb_ge _ _)) by lia.
  rewrite store_slot_spec; [done|]. pose proof (rp_block _ _ _ _ Hm). lia.
Qed.

Lemma the_node_spec d nodes i nd :
  holds d nodes → nodes !! i = Some nd → the_node d (Z.of_nat i) = Done nd.
Proof. intros Hd Hi. unfold the_node. by rewrite (DArray_get_spec d nodes i nd). Qed.

Lemma find_node_spec d pre suf n nb b k :
  holds d (pre ++ suf) → (∀ nd, nd ∈ suf → node_ok n nb b nd) → valid k →
  find_node compare d (hv (val k)) k (seqZ (Z.of_nat (length pre)) (Z.of_nat (length suf))) =
    Done (match list_find (λ nd, vkey nd = val k) suf with
          | Some (i, _) => Z.of_nat (length pre + i)
          | None => -1
          end).
Proof.
  intros Hd Hok Hk. revert pre Hd. induction suf as [|nd suf IH]; intros pre Hd; [done|].
  cbn [length]. rewrite seqZ_cons by lia. cbn [find_node].
  rewrite (the_node_spec d _ _ nd Hd) by (by rewrite lookup_app_r, Nat.sub_diag).
  cbn [mbind outcome_bind]. destruct (Hok nd (list_elem_of_here _ _)) as [Hv Hh _ _].
  assert (Hnext : find_node compare d (hv (val k)) k
      (seqZ (Z.succ (Z.of_nat (length pre))) (Z.pred (Z.of_nat (S (length suf))))) =
    Done (match list_find (λ nd, vkey nd = val k) suf with
          | Some (i, _) => Z.of_nat (length pre + S i) | None => -1 end)).
  { replace (Z.succ (Z.of_nat (length pre))) with (Z.of_nat (length (pre ++ [nd])))
      by (rewrite length_app; cbn; lia).
    replace (Z.pred (Z.of_nat (S (length suf)))) with (Z.of_nat (length suf)) by lia.
    rewrite IH; [|intros nd' Hin; by apply Hok, list_elem_of_further|by rewrite <- app_assoc].
    rewrite length_app. cbn [length]. destruct (list_find _ suf) as [[i x]|]; [|done].
    do 2 f_equal. lia. }
  cbn [list_find]. destruct (decide (vkey nd = val k)) as [E|Hne].
  - rewrite Hh, E, Z.eqb_refl. unfold vkey in E.
    destruct (compare_spec (key nd) k Hv Hk) as (z&->&Hz); [congruence|]. cbn [mbind outcome_bind].
    rewrite (proj2 (Z.eqb_eq z 0)) by (by apply Hz). by rewrite Nat.add_0_r.
  - assert (Hr : match list_find (λ nd, vkey nd = val k) suf with
      | Some (i, _) => Z.of_nat (length pre + S i) | None => -1 end =
      match prod_map S id <$> list_find (λ nd, vkey nd = val k) suf with
      | Some (i, _) => Z.of_nat (length pre + i) | None => -1 end)
      by (by destruct (list_find _ suf) as [[i x]|]).
    rewrite <- Hr, <- Hnext. destruct (Z.eqb_spec (node_hash nd) (hv (val k))) as [Eh|]; [|done].
    rewrite Hh in Eh. destruct (compare_spec (key nd) k Hv Hk) as (z&->&Hz); [done|].
    cbn [mbind outcome_bind]. rewrite (proj2 (Z.eqb_neq z 0)); [done|]. intros ->. by apply Hne, Hz.
Qed.

(** Looking a key up: the node that carries it, if the map has it. *)
Lemma locate_spec n hi m M k :
  represents n hi m M → valid k →
  let b := hv (val k) mod max m in
  match M !! val k with
  | None => locate hash compare m n k = Done (None, n)
  | Some x => ∃ d nodes i nd, contents m !! Z.to_nat b = Some (Ptr d) ∧ holds d nodes ∧ max d ≤ hi ∧
      chain n (max m) b M nodes ∧ nodes !! i = Some nd ∧ vkey nd = val k ∧ data nd = x ∧
      the_bucket m b = Done d ∧
      locate hash compare m n k = Done (Some (b, Z.of_nat i, nd), n)
  end.
Proof.
  intros Hm Hk b. destruct (find_bucket_spec n hi m M k false Hm Hk) as (s&E&Hs&Hb&Hf).
  fold b in E, Hs, Hb, Hf.
  unfold locate. rewrite Hf. destruct s as [| |d]; cbn [mbind outcome_bind].
  - by destruct Hs.
  - by rewrite Hs.
  - destruct Hs as (nodes&Hd&Hhi&Hc).
    destruct (bucket_at_spec n hi m M b Hm Hb) as (s'&E'&_&Ha).
    assert (s' = Ptr d) as -> by congruence.
    unfold the_bucket. rewrite Ha. cbn [mbind outcome_bind deref]. unfold Hashmap_get_node.
    rewrite (hd_end _ _ Hd).
    pose proof (find_node_spec d [] nodes n (max m) b k Hd (ch_nodes _ _ _ _ _ Hc) Hk) as Hfind.
    cbn [length] in Hfind. change (Z.of_nat 0) with 0 in Hfind. rewrite Hfind.
    cbn [mbind outcome_bind].
    destruct (list_find (λ nd, vkey nd = val k) nodes) as [[i nd]|] eqn:El.
    + apply list_find_Some in El as (Hi&Hv&_). cbn [Nat.add].
      assert (M !! val k = Some (data nd)) as ->.
      { apply (ch_map _ _ _ _ _ Hc); [done|]. exists nd. split; [by eapply list_elem_of_lookup_2|done]. }
      rewrite (proj2 (Z.eqb_neq _ _)), (the_node_spec d nodes i nd) by (done || lia).
      cbn [mbind outcome_bind]. by exists d, nodes, i, nd.
    + apply list_find_None in El. rewrite Z.eqb_refl.
      destruct (M !! val k) as [x|] eqn:EM; [|done]. exfalso.
      apply (ch_map _ _ _ _ _ Hc) in EM as (nd&Hin&Hv&_); [|done].
      rewrite Forall_forall in El. by apply (El nd).
Qed.

Lemma Hashmap_get_spec n hi m M k :
  represents n hi m M → valid k → Hashmap_get hash compare m n k = Done (M !! val k).
Proof.
  intros Hm Hk. pose proof (locate_spec n hi m M k Hm Hk) as Hl. unfold Hashmap_get, Hashmap_getnode.
  destruct (M !! val k) as [x|].
  - destruct Hl as (d&nodes&i&nd&_&_&_&_&_&_&<-&_&->). done.
  - by rewrite Hl.
Qed.

(** Creating a node takes three allocations. *)
Lemma node_create_spec n h k x :
  (∀ n, alloc_ok n = true) → 0 ≤ h < 2 ^ 32 →
  ∃ nd, Hashmap_node_create n h k x = (Some nd, S (S (S n))) ∧ key nd = k ∧ data nd = x ∧
    node_hash nd = h ∧ node_id nd = n.
Proof.
  intros Hmem Hh. unfold Hashmap_node_create. rewrite Hmem.
  destruct (keyvalue_create_spec (S n) 1 SHA Hmem) as (kv&->&_); [done..|].
  eexists. split; [reflexivity|]. do 2 (split; [done|]). split; [|done]. cbn [node_hash].
  unfold u32, s32. rewrite Zminus_mod, Zmod_mod, <- Zminus_mod, Z.add_simpl_r. by apply Z.mod_small.
Qed.

Lemma the_bucket_spec n hi m M b d :
  represents n hi m M → 0 ≤ b < max m → contents m !! Z.to_nat b = Some (Ptr d) →
  the_bucket m b = Done d.
Proof.
  intros Hm Hb E. destruct (bucket_at_spec n hi m M b Hm Hb) as (s&E'&_&Ha).
  assert (s = Ptr d) as -> by congruence. unfold the_bucket. by rewrite Ha.
Qed.

Lemma put_bucket_spec n hi m M b d :
  represents n hi m M → 0 ≤ b < max m →
  put_bucket m b d = Done (with_contents m (<[Z.to_nat b := Ptr d]> (contents m))).
Proof.
  intros Hm Hb. unfold put_bucket. apply store_slot_spec. pose proof (rp_block _ _ _ _ Hm). lia.
Qed.

(** A new node at the end of an existing bucket. *)
Lemma push_node n hi m M k x d nodes :
  (∀ n, alloc_ok n = true) → represents n hi m M → valid k → M !! val k = None → hi + 300 < 2 ^ 31 →
  let b := hv (val k) mod max m in
  0 ≤ b < max m → contents m !! Z.to_nat b = Some (Ptr d) → holds d nodes → max d ≤ hi →
  chain n (max m) b M nodes →
  ∃ nd d' n', Hashmap_node_create n (hv (val k)) k x = (Some nd, S (S (S n))) ∧
    DArray_push d (S (S (S n))) (Ptr nd) = Done (d', 0, n') ∧
    represents n' (hi + 300) (with_contents m (<[Z.to_nat b := Ptr d']> (contents m)))
      (<[val k := x]> M).
Proof.
  intros Hmem Hm Hk HM Hhi b Hb E Hd Hdh Hc.
  assert (Hvb : hv (val k) mod max m = b) by done.
  destruct (node_create_spec n (hv (val k)) k x Hmem (hv_range _)) as (nd&En&Ek&Ex&Eh&Ei).
  destruct (DArray_push_spec d (S (S (S n))) nodes nd Hmem Hd) as (d'&n'&Ep&Hd'&Hm'&_&_&Hn'); [lia|].
  exists nd, d', n'. split; [done|]. split; [done|].
  apply (represents_put n n' hi (hi + 300) m M); [done|lia|lia| |].
  - intros w Hw. by rewrite lookup_insert_ne.
  - exists (nodes ++ [nd]). split; [done|]. split; [lia|].
    apply (chain_perm n' _ _ _ (nd :: nodes)); [apply Permutation_cons_append|].
    assert (Ev : vkey nd = val k) by (unfold vkey; by rewrite Ek).
    change (hv (val k) mod max m) with b. clearbody b. rewrite <- Ev, <- Ex.
    apply chain_insert.
    + eapply chain_mono; [|exact Hc]. lia.
    + split; [by rewrite Ek|by rewrite Eh, Ev|by rewrite Ev, Hvb|lia].
    + by rewrite Ev.
    + intros nd' Hin. pose proof (nk_id _ _ _ _ (ch_nodes _ _ _ _ _ Hc nd' Hin)). lia.
Qed.

Lemma Hashmap_set_spec n hi m M k x :
  (∀ n, alloc_ok n = true) → represents n hi m M → valid k → M !! val k = None → hi + 300 < 2 ^ 31 →
  ∃ m' n', Hashmap_set hash m n k x = Done (m', 0, n') ∧
    represents n' (hi + 300) m' (<[val k := x]> M) ∧ max m' = max m.
Proof.
  intros Hmem Hm Hk HM Hhi. destruct (find_bucket_spec n hi m M k true Hm Hk) as (s&E&Hs&Hb&Hf).
  set (b := hv (val k) mod max m) in *. unfold Hashmap_set. rewrite Hf.
  destruct s as [| |d]; [by destruct Hs| |].
  - destruct (DArray_create_spec (A := node) n 8 DEFAULT_NUMBER_OF_BUCKETS Hmem)
      as (d&->&Hd&Hmd&_); [done|]. cbn [mbind outcome_bind].
    set (m1 := with_contents m _).
    assert (Hm1 : represents (S (S n)) hi m1 M).
    { apply (represents_put n _ hi hi m M M (val k) (Ptr d)); [done|lia|lia|done|].
      exists []. split; [done|]. split; [|by apply chain_nil].
      rewrite Hmd. apply (rp_hi _ _ _ _ Hm). }
    assert (E1 : contents m1 !! Z.to_nat b = Some (Ptr d)).
    { apply list_lookup_insert_eq. by apply lookup_lt_Some in E. }
    destruct (push_node (S (S n)) hi m1 M k x d [] Hmem Hm1 Hk HM Hhi Hb E1 Hd)
      as (nd&d'&n'&En&Ep&Hr).
    { rewrite Hmd. apply (rp_hi _ _ _ _ Hm). }
    { by apply chain_nil. }
    rewrite En. rewrite (the_bucket_spec _ hi m1 M b d Hm1 Hb E1). cbn [mbind outcome_bind].
    rewrite Ep. cbn [mbind outcome_bind]. rewrite (put_bucket_spec _ hi m1 M b d' Hm1 Hb).
    cbn [mbind outcome_bind]. eexists _, n'. split; [reflexivity|]. by split.
  - destruct Hs as (nodes&Hd&Hdh&Hc). cbn [mbind outcome_bind].
    destruct (push_node n hi m M k x d nodes Hmem Hm Hk HM Hhi Hb E Hd Hdh Hc)
      as (nd&d'&n'&En&Ep&Hr).
    rewrite En, (the_bucket_spec _ hi m M b d Hm Hb E). cbn [mbind outcome_bind].
    rewrite Ep. cbn [mbind outcome_bind]. rewrite (put_bucket_spec _ hi m M b d' Hm Hb).
    cbn [mbind outcome_bind]. eexists _, n'. split; [reflexivity|]. by split.
Qed.

(** The swap with the last node. *)
Lemma insert_last_perm {A} (l : list A) (i : nat) (x y : A) :
  l !! i = Some x → <[i := y]> l ++ [x] ≡ₚ l ++ [y].
Proof.
  intros Hi. assert (i < length l)%nat by (by eapply lookup_lt_Some).
  rewrite insert_take_drop by done. rewrite <- (take_drop_middle l i x Hi) at 3.
  rewrite <- !app_assoc. f_equiv. cbn. rewrite <- !Permutation_cons_append. constructor.
Qed.

Lemma Hashmap_delete_spec n hi m M k :
  represents n hi m M → valid k →
  ∃ m' n', Hashmap_delete hash compare m n k = Done (m', M !! val k, n') ∧
    represents n' hi m' (delete (val k) M) ∧ max m' = max m ∧ (n ≤ n')%nat.
Proof.
  intros Hm Hk. pose proof (locate_spec n hi m M k Hm Hk) as Hl. cbv zeta in Hl.
  set (b := hv (val k) mod max m) in *. unfold Hashmap_delete.
  destruct (M !! val k) as [x|] eqn:EM; [|].
  2: { rewrite Hl. cbn [mbind outcome_bind]. exists m, n. split; [done|].
       by rewrite delete_id. }
  destruct Hl as (d&nodes&i&nd&E&Hd&Hdh&Hc&Hi&Ev&Ex&Hb&->). cbn [mbind outcome_bind].
  rewrite Hb. cbn [mbind outcome_bind].
  assert (Hbr : 0 ≤ b < max m) by (apply Z.mod_pos_bound; apply (rp_max _ _ _ _ Hm)).
  destruct nodes as [|ending nodes0 _] using rev_ind; [done|].
  destruct (DArray_pop_spec d n nodes0 ending Hd) as (d1&n1&->&Hd1&Hmd1&Hn1).
  cbn [mbind outcome_bind].
  assert (Hswap : ∃ d2 nodes2, (if (node_id ending =? node_id nd)%nat then Done d1
      else DArray_set d1 (Z.of_nat i) (Ptr ending)) = Done d2 ∧ holds d2 nodes2 ∧ max d2 ≤ hi ∧
      nodes0 ++ [ending] ≡ₚ nd :: nodes2).
  { pose proof (ch_ids _ _ _ _ _ Hc) as Hids. rewrite fmap_app in Hids.
    apply NoDup_app in Hids as (_&Hids&_).
    destruct (decide (i < length nodes0)%nat) as [Hlt|Hge].
    - rewrite lookup_app_l in Hi by done. rewrite (proj2 (Nat.eqb_neq _ _)).
      2: { intros Eid. apply (Hids (node_id nd)); [|rewrite <- Eid; apply list_elem_of_here].
           apply list_elem_of_fmap. exists nd. split; [done|by eapply list_elem_of_lookup_2]. }
      destruct (DArray_set_spec d1 nodes0 i ending Hd1 Hlt) as (d2&->&Hd2&Hmd2).
      exists d2, (<[i := ending]> nodes0). split; [done|]. split; [done|]. split; [lia|].
      rewrite (Permutation_cons_append (<[i := ending]> nodes0) nd).
      symmetry. by apply insert_last_perm.
    - rewrite lookup_app_r in Hi by lia. apply list_lookup_singleton_Some in Hi as [_ <-].
      rewrite Nat.eqb_refl. exists d1, nodes0. split; [done|]. split; [done|]. split; [lia|].
      symmetry. apply Permutation_cons_append. }
  destruct Hswap as (d2&nodes2&->&Hd2&Hmd2&Hperm). cbn [mbind outcome_bind].
  rewrite (put_bucket_spec n hi m M b d2 Hm Hbr). cbn [mbind outcome_bind]. rewrite Ex.
  eexists _, n1. split; [reflexivity|]. split; [|done].
  apply (represents_put n n1 hi hi m M); [done|done|lia| |].
  - intros w Hw. by rewrite lookup_delete_ne.
  - exists nodes2. split; [done|]. split; [done|]. rewrite <- Ev. apply chain_delete.
    eapply chain_perm; [exact Hperm|]. rewrite Ev. by eapply chain_mono.
Qed.

Lemma Hashmap_create_spec n len :
  (∀ n, alloc_ok n = true) → len < 2 ^ 31 →
  ∃ m n', Hashmap_create n len = Done (Some m, n') ∧
    max m = (if 0 <? len then len else DEFAULT_NUMBER_OF_BUCKETS) ∧ represents n' 100 m ∅.
Proof.
  intros Hmem Hl. unfold Hashmap_create. rewrite Hmem.
  set (nb := if 0 <? len then len else DEFAULT_NUMBER_OF_BUCKETS).
  assert (Hnb : 0 < nb < 2 ^ 31).
  { subst nb. unfold DEFAULT_NUMBER_OF_BUCKETS. destruct (Z.ltb_spec 0 len); lia. }
  destruct (DArray_create_spec (A := darray node) (S n) 8 nb Hmem Hnb) as (a&->&Ha&Hm&_&Hc).
  eexists _, _. split; [reflexivity|]. split; [done|].
  split; cbn [max end_ contents with_end]; rewrite ?Hm, ?Hc, ?length_replicate; try done; try lia.
  intros b Hb. exists Nil. split; [|by intros v _]. apply lookup_replicate. split; [done|lia].
Qed.

(** Sequences of operations. *)
Inductive hm_op := OpSet (k : K) (x : D) | OpGet (k : K) | OpDelete (k : K).
Definition op_key (o : hm_op) : K := match o with OpSet k _ | OpGet k | OpDelete k => k end.
Definition spec_op M (o : hm_op) : gmap V D * option D :=
  match o with
  | OpSet k x => (<[val k := x]> M, None)
  | OpGet k => (M, M !! val k)
  | OpDelete k => (delete (val k) M, M !! val k)
  end.
Definition impl_op m n (o : hm_op) : outcome (hashmap * nat * option D) :=
  match o with
  | OpSet k x => '(m, _, n) ← Hashmap_set hash m n k x; Done (m, n, None)
  | OpGet k => r ← Hashmap_get hash compare m n k; Done (m, n, r)
  | OpDelete k => '(m, r, n) ← Hashmap_delete hash compare m n k; Done (m, n, r)
  end.
Fixpoint hm_spec_run M (ops : list hm_op) : gmap V D * list (option D) :=
  match ops with
  | [] => (M, [])
  | o :: ops =>
    let '(M, r) := spec_op M o in let '(M, rs) := hm_spec_run M ops in (M, r :: rs)
  end.
Fixpoint hm_impl_run m n (ops : list hm_op) : outcome (hashmap * nat * list (option D)) :=
  match ops with
  | [] => Done (m, n, [])
  | o :: ops =>
    '(m, n, r) ← impl_op m n o; '(m, n, rs) ← hm_impl_run m n ops; Done (m, n, r :: rs)
  end.
(** The tools look a key up before they insert it. *)
Fixpoint fresh_sets M (ops : list hm_op) : Prop :=
  match ops with
  | [] => True
  | o :: ops =>
    match o with OpSet k _ => M !! val k = None | _ => True end ∧ fresh_sets (spec_op M o).1 ops
  end.


(** ** Traversal *)

Definition collect : list node → node → outcome (list node * Z) := λ l nd, Done (l ++ [nd], 0).

Lemma visit_nodes_collect d pre suf l :
  holds d (pre ++ suf) →
  visit_nodes collect l d (seqZ (Z.of_nat (length pre)) (Z.of_nat (length suf))) = Done (l ++ suf, 0).
Proof.
  revert pre l. induction suf as [|nd suf IH]; intros pre l Hd; [by rewrite app_nil_r|].
  cbn [length]. rewrite seqZ_cons by lia. cbn [visit_nodes].
  rewrite (the_node_spec d _ _ nd Hd) by (by rewrite lookup_app_r, Nat.sub_diag).
  cbn [mbind outcome_bind collect]. change (negb (0 =? 0)) with false. cbv iota.
  replace (Z.succ (Z.of_nat (length pre))) with (Z.of_nat (length (pre ++ [nd])))
    by (rewrite length_app; cbn; lia).
  replace (Z.pred (Z.of_nat (S (length suf)))) with (Z.of_nat (length suf)) by lia.
  rewrite IH by (by rewrite <- app_assoc). by rewrite <- app_assoc.
Qed.

(** The nodes of the buckets before [b]. *)
Definition freed_upto (nb b : Z) M (l : list node) : Prop :=
  NoDup (vkey <$> l) ∧
  ∀ v x, (∃ nd, nd ∈ l ∧ vkey nd = v ∧ data nd = x) ↔ M !! v = Some x ∧ hv v mod nb < b.

Lemma freed_upto_step n nb b M l nodes :
  0 < nb → freed_upto nb b M l → chain n nb b M nodes → freed_upto nb (b + 1) M (l ++ nodes).
Proof.
  intros Hnb [Hnd Hl] Hc. split.
  - rewrite fmap_app. apply NoDup_app. split; [done|]. split; [|apply (ch_keys _ _ _ _ _ Hc)].
    intros v (nd&->&Hin)%list_elem_of_fmap (nd'&E&Hin')%list_elem_of_fmap.
    destruct (proj1 (Hl (vkey nd) (data nd))) as [_ Hb]; [by exists nd|].
    pose proof (nk_bucket _ _ _ _ (ch_nodes _ _ _ _ _ Hc nd' Hin')) as Hb'.
    rewrite <- E in Hb'. rewrite Hb' in Hb. by apply Z.lt_irrefl in Hb.
  - intros v x. split.
    + intros (nd&[Hin|Hin]%elem_of_app&Ev&Ex).
      * destruct (proj1 (Hl v x)) as [HM Hb]; [by exists nd|]. split; [done|]. by apply Z.lt_lt_succ_r.
      * pose proof (nk_bucket _ _ _ _ (ch_nodes _ _ _ _ _ Hc nd Hin)) as Hb. rewrite Ev in Hb.
        split; [apply (ch_map _ _ _ _ _ Hc v x Hb); by exists nd|]. rewrite Hb. apply Z.lt_succ_diag_r.
    + intros [HM Hb]. apply Z.lt_succ_r, Z.le_lteq in Hb as [Hb|Hb].
      * destruct (proj2 (Hl v x) (conj HM Hb)) as (nd&Hin&E). exists nd. split; [|done].
        by apply elem_of_app; left.
      * destruct (proj1 (ch_map _ _ _ _ _ Hc v x Hb) HM) as (nd&Hin&E). exists nd. split; [|done].
        by apply elem_of_app; right.
Qed.

Lemma visit_buckets_collect n hi m M k b l :
  represents n hi m M → freed_upto (max m) b M l → 0 ≤ b → b + Z.of_nat k = max m →
  ∃ l', visit_buckets collect l m (seqZ b (Z.of_nat k)) = Done (l', 0) ∧
    freed_upto (max m) (max m) M l'.
Proof.
  intros Hm. revert b l. induction k as [|k IH]; intros b l Hl Hb0 Hb.
  { exists l. split; [done|]. by replace (max m) with b at 2 by lia. }
  rewrite seqZ_cons by lia. cbn [visit_buckets].
  replace (Z.pred (Z.of_nat (S k))) with (Z.of_nat k) by lia. rewrite <- Z.add_1_r.
  destruct (bucket_at_spec n hi m M b Hm ltac:(lia)) as (s&_&Hs&->). cbn [mbind outcome_bind].
  pose proof (rp_max _ _ _ _ Hm) as [Hpos _].
  destruct s as [| |d]; [by destruct Hs| |].
  - cbn [mbind outcome_bind]. change (negb (0 =? 0)) with false. cbv iota.
    apply IH; [|lia|lia]. rewrite <- (app_nil_r l). eapply freed_upto_step; [done|done|].
    by apply (chain_nil n).
  - destruct Hs as (nodes&Hd&_&Hc). rewrite (hd_end _ _ Hd).
    pose proof (visit_nodes_collect d [] nodes l Hd) as Hv. cbn [length] in Hv.
    change (Z.of_nat 0) with 0 in Hv. rewrite Hv. cbn [mbind outcome_bind].
    change (negb (0 =? 0)) with false. cbv iota. apply IH; [|lia|lia].
    by eapply freed_upto_step.
Qed.

(** [Hashmap_destroy] visits every bucket and frees every node of the map,
    each once: the nodes it frees are the entries of the map, none missing and
    no key twice. *)
Theorem Hashmap_destroy_frees_all n hi m M :
  represents n hi m M →
  ∃ freed, Hashmap_destroy m = Done freed ∧ NoDup (vkey <$> freed) ∧
    ∀ v x, M !! v = Some x ↔ ∃ nd, nd ∈ freed ∧ vkey nd = v ∧ data nd = x.
Proof.
  intros Hm. unfold Hashmap_destroy. rewrite (rp_end _ _ _ _ Hm).
  pose proof (rp_max _ _ _ _ Hm) as [Hpos Hmax].
  destruct (visit_buckets_collect n hi m M (Z.to_nat (max m)) 0 [] Hm) as (l&E&Hnd&Hl); [|lia|lia|].
  { split; [constructor|]. intros v x. split; [by intros (nd&?%not_elem_of_nil&_)|].
    intros [_ Hb]. pose proof (Z.mod_pos_bound (hv v) (max m) Hpos). lia. }
  rewrite Z2Nat.id in E by lia. exists l. unfold collect in E. rewrite E. split; [done|]. split; [done|].
  intros v x. rewrite Hl. split; [|by intros [? _]]. intros HM. split; [done|].
  by apply Z.mod_pos_bound.
Qed.
End spec.

(** ** On a small map: integers as keys, three buckets *)

Definition toy_hash (k : Z) : outcome Z := Done (k mod 7).
Definition toy_compare (a b : Z) : outcome Z := Done (a - b).
Definition toy_map : darray (darray (HashmapNode Z Z)) := DArr 3 3 8 300 [Nil; Nil; Nil].

Lemma toy_hash_spec k : True → toy_hash k = Done (id k mod 7).
Proof. done. Qed.
Lemma toy_range (v : Z) : 0 ≤ v mod 7 < 2 ^ 32.
Proof. pose proof (Z.mod_pos_bound v 7). lia. Qed.
Lemma toy_compare_spec (a b : Z) : True → True → id a mod 7 = id b mod 7 →
  ∃ z, toy_compare a b = Done z ∧ (z = 0 ↔ id a = id b).
Proof. intros _ _ _. exists (a - b). split; [done|]. unfold id. lia. Qed.
Lemma toy_represents : represents (λ _, True) id (λ v, v mod 7) 0 100 toy_map (∅ : gmap Z Z).
Proof.
  split; cbn; try lia. intros b Hb. exists Nil. split; [|by intros v _].
  assert (Hb3 : b = 0 ∨ b = 1 ∨ b = 2) by lia. by destruct Hb3 as [->|[->| ->]].
Qed.

Definition toy_ops : list (hm_op (K := Z) (D := Z)) :=
  [OpSet 1 10; OpSet 8 80; OpGet 8; OpDelete 1; OpGet 1; OpGet 8; OpSet 1 11; OpGet 1].

Lemma toy_answers : (hm_spec_run id (∅ : gmap Z Z) toy_ops).2 =
  [None; None; Some 80; Some 10; None; Some 80; None; Some 11].
Proof. vm_compute. reflexivity. Qed.


Definition toy_node : HashmapNode Z Z := Node 0 1 10 1 (KV 0 0 0 0 1 []).
Definition toy_map1 : darray (darray (HashmapNode Z Z)) :=
  DArr 1 1 8 300 [Ptr (DArr 1 2 8 300 [Ptr toy_node; Nil])].
Lemma toy_represents1 : represents (λ _, True) id (λ v, v mod 7) 1 100 toy_map1 ({[1 := 10]} : gmap Z Z).
Proof.
  split; cbn; try lia. intros b Hb. assert (b = 0) as -> by lia.
  exists (Ptr (DArr 1 2 8 300 [Ptr toy_node; Nil])). split; [done|].
  exists [toy_node]. split; [split; cbn; done || lia|]. split; [cbn; lia|].
  assert (Hz : ∀ v, (v mod 7) mod 1 = 0) by (intros v; apply Z.mod_1_r).
  split; [| by apply NoDup_singleton..|].
  - intros nd ->%list_elem_of_singleton. split; [done|done|done|cbn; lia].
  - intros v x _. split.
    + intros [<- <-]%lookup_singleton_Some. exists toy_node. split; [apply list_elem_of_here|done].
    + intros (nd&->%list_elem_of_singleton&<-&<-). done.
Qed.

Lemma Hashmap_destroy_frees_all_witness :
  ∃ freed, Hashmap_destroy toy_map1 = Done freed ∧ NoDup (vkey id <$> freed) ∧
    ∀ v x, ({[1 := 10]} : gmap Z Z) !! v = Some x ↔
      ∃ nd, nd ∈ freed ∧ vkey id nd = v ∧ data nd = x.
Proof.
  apply (Hashmap_destroy_frees_all (λ _, True) id (λ v, v mod 7) 1 100 toy_map1),
    toy_represents1.
Defined.
