(* ===== verification/Pack.v ===== *)
(** The packet analyser (model/c-skeleton/src/pack.c and lcthw/pack.h): it cuts
    the TCP payloads of a capture file into chunks, and counts the bytes of the
    chunks it has seen before.

    Payload bytes are [char]s, signed. Signed 64-bit arithmetic wraps, as the
    compiler's code does; [exit] is [Bug]. *)
From S2P Require Import Prelude Rabin DArray KeyValue ChunkBuf Hashmap.
#[local] Open Scope Z_scope.

Definition BUCKETS_LEN : Z := 127997.
Definition PACKET_LEN : Z := 36000.
Definition MAX_ETH_FRAME : Z := 36000.
Definition PLEN : Z := 21000.

(** ** Parameters: the loops at the start of [main] *)

Definition pack_globals0 : globals := mk_globals 1 1 6 1 1048583 32.
(** The delay after a cut. *)
Definition pack_step : Z := 32.

Definition precalculate (g : globals) : globals :=
  let Q' := Nat.iter 60 (λ q, s64 (2 * q)) (Q g) in
  let RM' := Nat.iter (chunk_num g - 1) (λ rm, Z.rem (s64 (R g * rm)) Q') (RM g) in
  let z := Nat.iter (zero_num g) (λ z, u64 (2 * z)) (zero_value g) in
  mk_globals RM' (u64 (z - 1)) (zero_num g) Q' (R g) (chunk_num g).

(** ** Cutting *)

Definition hash_turn (R Q h c : Z) : Z := u64 (u64 (R * h) + u64 c) mod u64 Q.
Definition pack_hash (key : list Z) (M : nat) (R Q : Z) : Z := foldl (hash_turn R Q) 0 (take M key).

(** Two neighbours that are equal or one apart; what follows the first [return]
    of the function is not reached. *)
Definition check_data_point (playload : list Z) (i : Z) : bool :=
  if 0 <=? i - 1 then
    let a := byte_at playload (Z.to_nat (i - 1)) in
    let b := byte_at playload (Z.to_nat i) in
    (a =? b) || (a =? b + 1) || (b =? a + 1)
  else false.

(** The entries of [part->index] below [part->end]. *)
Definition part_point : Type := list Z.
Definition part_set (point : part_point) (data : Z) : outcome part_point :=
  if PLEN <=? Z.of_nat (length point) then Bug else Done (point ++ [data]).

Section cutting.
  Context (g : globals).

(** The two lines that slide the window, with a signed [%]. *)
Definition slide (txthash cout cin : Z) : Z :=
  let t := u64 (u64 (txthash + Q g) - u64 (Z.rem (s64 (RM g * cout)) (Q g))) mod u64 (Q g) in
  u64 (u64 (t * R g) + u64 cin) mod u64 (Q g).

(** The test at a position, with the delay that is left. *)
Definition try_cut (playload : list Z) (txthash i : Z) (part : part_point) (delay_time : Z)
    : outcome (part_point * Z) :=
  if delay_time =? 0 then
    if (Z.land txthash (zero_value g) =? 0) || check_data_point playload i then
      part ← part_set part i; Done (part, pack_step)
    else Done (part, delay_time)
  else Done (part, delay_time - 1).

Fixpoint part_loop (playload : list Z) (n i : nat) (txthash : Z) (part : part_point) (delay_time : Z)
    : outcome (part_point * Z) :=
  match n with
  | O => Done (part, delay_time)
  | S n =>
    let txthash := slide txthash (byte_at playload (i - chunk_num g)) (byte_at playload i) in
    '(part, delay_time) ← try_cut playload txthash (Z.of_nat i) part delay_time;
    part_loop playload n (S i) txthash part delay_time
  end.

Definition pack_calculate_part (playload : list Z) (count_packet : Z) (part : part_point)
    (delay_time : Z) : outcome (part_point * Z) :=
  let txthash := pack_hash playload (chunk_num g) (R g) (Q g) in
  part ← part_set part count_packet;
  part ← part_set part (Z.of_nat (length playload));
  '(part, delay_time) ← try_cut playload txthash (Z.of_nat (chunk_num g) - 1) part delay_time;
  part_loop playload (length playload - chunk_num g) (chunk_num g) txthash part delay_time.
End cutting.

(** What the two tools do differently, pack.c and winn_pack.c: the number of
    buckets, the cutting of a payload, with what it keeps for the next one, and
    whether it counts the packet. *)
Class Cutter := {
  buckets : Z;
  counted : Z;
  calculate_part : globals → list Z → Z → part_point → Z → outcome (part_point * Z) }.
Definition pack_cutter : Cutter :=
  {| buckets := BUCKETS_LEN; counted := 0; calculate_part := pack_calculate_part |}.

(** ** Digests as keys *)

(** A key pointer: the buffer [res], or a place in the arena. *)
Inductive keyptr :=
| Res (bytes : list Z)
| Arena (p : pointer).

Definition deref_key (kv : keyvalue) (k : keyptr) : outcome (list Z) :=
  match k with
  | Res b => read_bytes b (Z.to_nat SHA)
  | Arena p => read_pointer kv p SHA
  end.

Definition Hashmap_mode_hash {C : Cutter} (kv : keyvalue) (k : keyptr) : outcome Z :=
  b ← deref_key kv k;
  Done (u32 (foldl (λ hash c, u64 (10 * hash + u8 c) mod buckets) 0 b)).

Fixpoint memcmp (a b : list Z) : Z :=
  match a, b with
  | x :: a, y :: b => if u8 x =? u8 y then memcmp a b else u8 x - u8 y
  | _, _ => 0
  end.
Definition Hashmap_mode_compare (kv : keyvalue) (a b : keyptr) : outcome Z :=
  a ← deref_key kv a; b ← deref_key kv b; Done (memcmp a b).

(** ** The analyser *)

Section pack.
  Context `{Allocator} {C : Cutter} (g : globals).
  (** What the digest buffer holds after the driver of /dev/crypto was asked for
      the SHA-1 of some bytes: zeros when it fails. *)
  Context (sha_hash : list Z → list Z).

Record pack := Pack {
  remain_data : chunk;
  part : part_point;
  keys : keyvalue;
  map : darray (darray (HashmapNode keyptr keyptr));
  delay_time : Z;
  count_packet : Z;
  save_len : Z;
  sum_len : Z;
  allocs : nat }.
Implicit Types x : pack.

Definition set_remain ck n x : pack :=
  Pack ck (part x) (keys x) (map x) (delay_time x) (count_packet x) (save_len x) (sum_len x) n.
Definition set_part pp d x : pack :=
  Pack (remain_data x) pp (keys x) (map x) d (s32 (count_packet x + counted)) (save_len x) (sum_len x) (allocs x).
Definition set_map kv m n x : pack :=
  Pack (remain_data x) (part x) kv m (delay_time x) (count_packet x) (save_len x) (sum_len x) n.
Definition add_save d x : pack :=
  Pack (remain_data x) (part x) (keys x) (map x) (delay_time x) (count_packet x)
    (u64 (save_len x + d)) (sum_len x) (allocs x).
Definition add_sum d x : pack :=
  Pack (remain_data x) (part x) (keys x) (map x) (delay_time x) (count_packet x) (save_len x)
    (u64 (sum_len x + d)) (allocs x).

(** The copy to hash is allocated and its pointer not tested. *)
Definition calculate_sha n (data : list Z) (begin stop : Z) : outcome (list Z * nat) :=
  let len := s32 (stop - begin + 1) in
  b ← read_range data begin len;
  if alloc_ok n || (length b =? 0)%nat then Done (sha_hash b, S n) else Oops.

(** The lookup of a digest, and its insertion when it is not found; [false] is
    the jump to [error]. [len] bytes are saved when it is found. *)
Definition note_chunk (res : list Z) (len : Z) x : outcome (pack * bool) :=
  r ← Hashmap_get (Hashmap_mode_hash (keys x)) (Hashmap_mode_compare (keys x)) (map x) (allocs x) (Res res);
  match r with
  | None =>
    '(kv, p, n) ← keyvalue_push (keys x) (allocs x) res;
    match p with
    | None => Done (set_map kv (map x) n x, false)
    | Some p =>
      '(m, _, n) ← Hashmap_set (Hashmap_mode_hash kv) (map x) n (Arena p) (Arena p);
      Done (set_map kv m n x, true)
    end
  | Some _ => Done (add_save len x, true)
  end.

(** The chunk that ends at the first cut: what remains of the stream and the
    bytes up to [pp]. *)
Definition first_chunk (playload : list Z) (pp : Z) x : outcome (pack * bool) :=
  '(ck, _, n) ← chunk_merge (remain_data x) (allocs x) (Some playload) 0 pp;
  let len := s32 (ck_end ck) in
  '(res, n) ← calculate_sha n (content ck) 0 (s64 (u64 (ck_end ck - 1)));
  note_chunk res len (set_remain (chunk_clean ck) n x).

(** A later chunk, between two cuts. *)
Definition next_chunk (playload : list Z) (before pp : Z) x : outcome (pack * bool) :=
  let len := s32 (pp - before) in
  '(res, n) ← calculate_sha (allocs x) playload (before + 1) pp;
  note_chunk res len (set_remain (remain_data x) n x).

Fixpoint next_chunks (playload : list Z) (before : Z) (pps : list Z) x : outcome (pack * bool) :=
  match pps with
  | [] => Done (x, true)
  | pp :: pps =>
    '(x, ok) ← next_chunk playload before pp x;
    if ok : bool then next_chunks playload pp pps x else Done (x, false)
  end.

(** The bytes after the last cut. *)
Definition store_rest (playload : list Z) (pp playload_len : Z) x : outcome pack :=
  if pp =? playload_len - 1 then Done x
  else
    '(ck, _) ← chunk_store (remain_data x) (Some playload) (pp + 1) (playload_len - 1);
    Done (set_remain ck (allocs x) x).

(** [res] is allocated first and its pointer not tested. *)
Definition pack_SHA (playload : list Z) x : outcome pack :=
  let playload_len := Z.of_nat (length playload) in
  if alloc_ok (allocs x) then
    let x := set_remain (remain_data x) (S (allocs x)) x in
    match part x with
    | [] | [_] => Bug
    | [_; _] =>
      '(ck, _, n) ← chunk_merge (remain_data x) (allocs x) (Some playload) 0 (playload_len - 1);
      Done (set_remain ck n x)
    | _ :: _ :: pp :: pps =>
      '(x, ok) ← first_chunk playload pp x;
      if ok : bool then
        '(x, ok) ← next_chunks playload pp pps x;
        if ok : bool then store_rest playload (List.last pps pp) playload_len x else Done x
      else Done x
    end
  else Oops.

(** The chunk at the end of the stream. *)
Definition remain_SHA x : outcome pack :=
  if alloc_ok (allocs x) then
    '(res, n) ← calculate_sha (S (allocs x)) (content (remain_data x)) 0
                  (s64 (u64 (ck_end (remain_data x) - 1)));
    let x := set_remain (chunk_clean (remain_data x)) n x in
    r ← Hashmap_get (Hashmap_mode_hash (keys x)) (Hashmap_mode_compare (keys x)) (map x) (allocs x) (Res res);
    match r with
    | None =>
      '(kv, p, n) ← keyvalue_push (keys x) (allocs x) res;
      p ← deref p;
      '(m, _, n) ← Hashmap_set (Hashmap_mode_hash kv) (map x) n (Arena p) (Arena p);
      Done (set_map kv m n x)
    | Some _ => Done x
    end
  else Oops.

(** ** The capture file *)

(** What [printPcap] does with the payload of a packet. *)
Definition take_payload (playload : list Z) x : outcome pack :=
  if Z.of_nat (chunk_num g) <=? Z.of_nat (length playload) then
    '(pp, d) ← calculate_part g playload (count_packet x) [] (delay_time x);
    x ← pack_SHA playload (set_part pp d x);
    Done (add_sum (Z.of_nat (length playload)) x)
  else Done x.

Definition frame16 (b : list Z) (i : nat) : outcome Z :=
  h ← deref (b !! i); l ← deref (b !! S i); Done (256 * u8 h + u8 l).

(** The payload of a frame, copied to [play_data]: the TCP header is looked for
    behind an IP header of 20 bytes. *)
Definition frame_payload (data : list Z) : outcome (option (list Z)) :=
  proto ← frame16 data 12;
  if proto =? 2048 then
    ipproto ← deref (data !! 23%nat);
    if u8 ipproto =? 6 then
      flags ← deref (data !! 47%nat);
      source ← frame16 data 34; dest ← frame16 data 36;
      if negb (Z.testbit (u8 flags) 1) && ((source =? 80) || (dest =? 80)) then
        ihl ← deref (data !! 14%nat); doff ← deref (data !! 46%nat); tot_len ← frame16 data 16;
        let doff := Z.shiftr (u8 doff) 4 in
        let len := tot_len - Z.land (u8 ihl) 15 * 4 - doff * 4 in
        if 0 <? len then
          b ← read_bytes (drop (Z.to_nat (34 + doff * 4)) data) (Z.to_nat len);
          if PACKET_LEN <? len then Oops else Done (Some (List.map s8 b))
        else Done None
      else Done None
    else Done None
  else Done None.

Definition printPcap (data : list Z) x : outcome pack :=
  p ← frame_payload data;
  match p with Some p => take_payload p x | None => Done x end.

Definition le32 (b : list Z) : outcome Z :=
  b0 ← deref (b !! 0%nat); b1 ← deref (b !! 1%nat); b2 ← deref (b !! 2%nat); b3 ← deref (b !! 3%nat);
  Done (u8 b0 + 2 ^ 8 * u8 b1 + 2 ^ 16 * u8 b2 + 2 ^ 24 * u8 b3).

(** The loop of [main] over the records: the frame is read into a buffer of
    [MAX_ETH_FRAME] zeros whatever its length says, and after a short read the
    buffer is freed and then used. *)
Fixpoint read_packets (fuel : nat) (file : list Z) x : outcome (option pack) :=
  match fuel with
  | O => Done None
  | S fuel =>
    if (length file <? 16)%nat then Done (Some x)
    else
      capture_len ← le32 (drop 8 file);
      let frame := take (Z.to_nat capture_len) (drop 16 file) in
      let readSize := Z.of_nat (length frame) in
      if MAX_ETH_FRAME <? readSize then Oops
      else if negb (readSize =? capture_len) then Oops
      else
        x ← printPcap (frame ++ replicate (Z.to_nat (MAX_ETH_FRAME - readSize)) 0) x;
        if readSize =? 0 then Done (Some x)
        else read_packets fuel (drop (Z.to_nat capture_len) (drop 16 file)) x
  end.

Definition main_start : outcome (option pack) :=
  let '(ck, n) := chunk_create 0 in
  match ck with
  | None => Done None
  | Some ck =>
    if alloc_ok n then
      let '(kv, n) := keyvalue_create (S n) 0 0 in
      match kv with
      | None => Done None
      | Some kv =>
        '(m, n) ← Hashmap_create n buckets;
        Done ((λ m, Pack ck [] kv m 0 0 0 0 n) <$> (m : option (darray (darray (HashmapNode keyptr keyptr)))))
      end
    else Oops
  end.

Definition main (file : list Z) : outcome (option pack) :=
  x ← main_start;
  match x with
  | None => Done None
  | Some x =>
    x ← read_packets (S (length file)) (drop 24 file) x;
    match x with Some x => x ← remain_SHA x; Done (Some x) | None => Done None end
  end.
End pack.
