(* ===== verification/PackCuts.v ===== *)
(** The cuts of the analyser: the sliding hash is the hash of each window, and
    the cuts are the first admissible positions, [pack_step] positions apart. *)
From S2P Require Import Prelude Rabin DArray KeyValue ChunkBuf Hashmap Pack.
#[local] Open Scope Z_scope.

(** ** Specification *)

(** What [precalculate] establishes; [RM] may be negative. *)
Record tool_params (g : globals) : Prop := {
  tp_Q : Q g = 2 ^ 60;
  tp_RM : eqmod (2 ^ 60) (RM g) (R g ^ (Z.of_nat (chunk_num g) - 1));
  tp_R : 0 ≤ R g;
  tp_chunk : (1 ≤ chunk_num g)%nat }.

(** The hash of the window that ends at [i], from scratch, and the test. *)
Definition window (g : globals) (p : list Z) (i : nat) : Z :=
  pack_hash (drop (i + 1 - chunk_num g) p) (chunk_num g) (R g) (Q g).
Definition admissible (g : globals) (p : list Z) (i : nat) : bool :=
  (Z.land (window g p i) (zero_value g) =? 0) || check_data_point p (Z.of_nat i).

(** [n] positions from [i], none of the next [d]; the cuts and the delay that is
    left for the next payload. *)
Fixpoint tool_cuts (g : globals) (p : list Z) (n i d : nat) : list nat * nat :=
  match n, d with
  | O, _ => ([], d)
  | S n, S d => tool_cuts g p n (S i) d
  | S n, O =>
    if admissible g p i
    then let '(l, d) := tool_cuts g p n (S i) (Z.to_nat pack_step) in (i :: l, d)
    else tool_cuts g p n (S i) 0
  end.
Definition payload_cuts (g : globals) (p : list Z) (d : nat) : list nat * nat :=
  tool_cuts g p (length p + 1 - chunk_num g) (chunk_num g - 1) d.

(** ** The hash *)

Section hash.
  Context (g : globals) (Hg : tool_params g).
#[local] Abbreviation q := (2 ^ 60).

Lemma u64_Q : u64 (Q g) = q.
Proof. by rewrite (tp_Q g Hg). Qed.

Lemma eqmod_s64 a : eqmod q (s64 a) a.
Proof.
  unfold eqmod, s64. rewrite Zminus_mod. 
  rewrite (Z.mod_mod_divide (a + 2 ^ 63) (2 ^ 64) (2 ^ 60)) by (exists (2 ^ 4); lia).
  rewrite <- Zminus_mod. f_equal. lia.
Qed.
Lemma eqmod_rem a : eqmod q (Z.rem a q) a.
Proof.
  unfold eqmod. rewrite (Z.quot_rem' a q) at 2. rewrite Z.add_comm, Z.mul_comm.
  by rewrite Z_mod_plus_full.
Qed.

Lemma hash_turn_eqmod h c : eqmod q (hash_turn (R g) (Q g) h c) (R g * h + c).
Proof. unfold hash_turn. by rewrite u64_Q, eqmod_mod, !eqmod_u64_q. Qed.
Lemma hash_turn_range h c : 0 ≤ hash_turn (R g) (Q g) h c < q.
Proof. unfold hash_turn. rewrite u64_Q. by apply Z.mod_pos_bound. Qed.

Lemma pack_hash_poly key M : pack_hash key M (R g) (Q g) = poly g 0 (take M key) mod q.
Proof.
  unfold pack_hash. set (w := take M key).
  assert (Hm : ∀ h h', eqmod q h h' → eqmod q (foldl (hash_turn (R g) (Q g)) h w) (poly g h' w)).
  { clearbody w. induction w as [|c w IH]; intros h h' E; [done|]. cbn. apply IH.
    by rewrite hash_turn_eqmod, E. }
  assert (Hr : ∀ h, 0 ≤ h < q → 0 ≤ foldl (hash_turn (R g) (Q g)) h w < q).
  { clearbody w. clear Hm. induction w as [|c w IH]; intros h Hh; [done|]. apply IH, hash_turn_range. }
  rewrite <- (Hm 0 0) by done. symmetry. apply Z.mod_small. by apply Hr.
Qed.

Lemma slide_eqmod h cout cin :
  eqmod q (slide g h cout cin) ((h - RM g * cout) * R g + cin).
Proof.
  unfold slide. cbv zeta. rewrite u64_Q, eqmod_mod, !eqmod_u64_q, eqmod_mod, !eqmod_u64_q.
  rewrite (tp_Q g Hg), eqmod_rem, eqmod_s64. by rewrite (eqmod_add_self q h).
Qed.
Lemma slide_range h cout cin : 0 ≤ slide g h cout cin < q.
Proof. unfold slide. rewrite u64_Q. by apply Z.mod_pos_bound. Qed.

Lemma slide_window c w c' :
  length w = (chunk_num g - 1)%nat →
  slide g (poly g 0 (c :: w) mod q) c c' = poly g 0 (w ++ [c']) mod q.
Proof.
  intros Hl. rewrite <- (Z.mod_small (slide _ _ _ _) q) by apply slide_range.
  change (eqmod q (slide g (poly g 0 (c :: w) mod q) c c') (poly g 0 (w ++ [c']))).
  rewrite slide_eqmod, eqmod_mod, (tp_RM g Hg), poly_snoc.
  change (poly g 0 (c :: w)) with (poly g (R g * 0 + c) w). rewrite poly_split, Hl.
  pose proof (tp_chunk g Hg).
  replace (Z.of_nat (chunk_num g - 1)) with (Z.of_nat (chunk_num g) - 1) by lia.
  apply (eq_subrelation _). ring.
Qed.

Lemma slide_next p i :
  (chunk_num g ≤ i < length p)%nat →
  slide g (window g p (i - 1)) (byte_at p (i - chunk_num g)) (byte_at p i) = window g p i.
Proof.
  intros Hi. pose proof (tp_chunk g Hg) as Hk. unfold window. rewrite !pack_hash_poly.
  change (take ?n (drop ?m p)) with (slice m n p).
  set (k := chunk_num g) in *.
  pose proof (slice_cons (i - k) (k - 1) p (byte_at p (i - k))) as Hc.
  pose proof (slice_snoc (S (i - k)) (k - 1) p (byte_at p i)) as Hs.
  replace (S (k - 1)) with k in Hc, Hs by lia.
  change (take k (drop (i - 1 + 1 - k) p)) with (slice (i - 1 + 1 - k) k p).
  change (take k (drop (i + 1 - k) p)) with (slice (i + 1 - k) k p).
  replace (i - 1 + 1 - k)%nat with (i - k)%nat by lia.
  replace (i + 1 - k)%nat with (S (i - k)) by lia.
  rewrite Hc by (apply byte_at_lookup; lia).
  rewrite Hs by (replace (S (i - k) + (k - 1))%nat with i by lia; apply byte_at_lookup; lia).
  apply slide_window. apply slice_length. lia.
Qed.
End hash.

(** ** The cuts *)

Section cuts.
  Context (g : globals) (Hg : tool_params g).

Lemma tool_cuts_bounds p n i d x :
  x ∈ (tool_cuts g p n i d).1 → (i + d ≤ x < i + n)%nat ∧ admissible g p x = true.
Proof.
  revert i d. induction n as [|n IH]; intros i d; cbn [tool_cuts]; [by intros ?%not_elem_of_nil|].
  destruct d as [|d].
  - destruct (admissible g p i) eqn:E.
    + pose proof (IH (S i) (Z.to_nat pack_step)) as IH'.
      destruct (tool_cuts g p n (S i) (Z.to_nat pack_step)) as [l d']. cbn [fst] in *.
      intros [->|Hx]%elem_of_cons; [split; [lia|done]|]. destruct (IH' Hx). split; [lia|done].
    + intros Hx%IH. split; [lia|tauto].
  - intros Hx%IH. split; [lia|tauto].
Qed.

(** Cuts are more than [pack_step] apart. *)
Lemma tool_cuts_spaced p n i d :
  StronglySorted (λ x y, x + Z.to_nat pack_step < y)%nat (tool_cuts g p n i d).1.
Proof.
  revert i d. induction n as [|n IH]; intros i d; cbn [tool_cuts]; [constructor|].
  destruct d as [|d]; [|apply IH]. destruct (admissible g p i); [|apply IH].
  pose proof (IH (S i) (Z.to_nat pack_step)) as IH'.
  pose proof (tool_cuts_bounds p n (S i) (Z.to_nat pack_step)) as Hb.
  destruct (tool_cuts g p n (S i) (Z.to_nat pack_step)) as [l d']. cbn [fst] in *.
  constructor; [done|]. apply Forall_forall. intros x Hx. specialize (Hb x Hx). lia.
Qed.

(** There are not many of them, and the delay stays in its range. *)
Lemma tool_cuts_count p n i d :
  (d ≤ 32)%nat → (33 * length (tool_cuts g p n i d).1 + d ≤ n + 32)%nat ∧ ((tool_cuts g p n i d).2 ≤ 32)%nat.
Proof.
  revert i d. induction n as [|n IH]; intros i d Hd; cbn [tool_cuts]; [cbn; lia|].
  destruct d as [|d]; [|specialize (IH (S i) d ltac:(lia)); lia].
  destruct (admissible g p i); [|specialize (IH (S i) 0%nat ltac:(lia)); lia].
  specialize (IH (S i) (Z.to_nat pack_step) ltac:(done)). change (Z.to_nat pack_step) with 32%nat in *.
  destruct (tool_cuts g p n (S i) 32) as [l d']. cbn [fst snd length] in *. lia.
Qed.

(** One position. *)
Lemma try_cut_spec p i part d :
  (d = 0%nat → admissible g p i = true → Z.of_nat (length part) < PLEN) →
  try_cut g p (window g p i) (Z.of_nat i) part (Z.of_nat d) =
    Done (match d with
          | O => if admissible g p i then (part ++ [Z.of_nat i], pack_step) else (part, 0)
          | S d => (part, Z.of_nat d)
          end).
Proof.
  intros Hp. unfold try_cut. destruct d as [|d].
  - change (Z.of_nat 0 =? 0) with true. cbv iota. unfold admissible in *.
    destruct (_ || _); [|done]. specialize (Hp eq_refl eq_refl). unfold part_set.
    by rewrite (proj2 (Z.leb_gt _ _)) by lia.
  - rewrite (proj2 (Z.eqb_neq _ _)) by lia. do 2 f_equal. lia.
Qed.

Lemma part_loop_cuts p n i part d :
  (chunk_num g ≤ i)%nat → (i + n ≤ length p)%nat →
  Z.of_nat (length part + length (tool_cuts g p n i d).1) ≤ PLEN →
  part_loop g p n i (window g p (i - 1)) part (Z.of_nat d) =
    Done (part ++ (Z.of_nat <$> (tool_cuts g p n i d).1), Z.of_nat (tool_cuts g p n i d).2).
Proof.
  revert i part d. induction n as [|n IH]; intros i part d Hi Hn Hl; [by rewrite app_nil_r|].
  cbn [part_loop tool_cuts] in *. rewrite (slide_next g Hg) by lia.
  rewrite try_cut_spec
    by (intros -> E; revert Hl; rewrite E; destruct (tool_cuts g p n (S i) _); cbn [fst length]; lia).
  cbn [mbind outcome_bind].
  replace (window g p i) with (window g p (S i - 1)) by (f_equal; lia).
  destruct d as [|d]; [|by apply IH; lia].
  destruct (admissible g p i); [|by apply (IH _ _ 0%nat); lia].
  change pack_step with (Z.of_nat (Z.to_nat pack_step)).
  destruct (tool_cuts g p n (S i) (Z.to_nat pack_step)) as [l d'] eqn:E. cbn [fst snd length] in *.
  rewrite Nat2Z.id, IH; rewrite ?E, ?length_app; cbn [fst snd length]; [by rewrite <- app_assoc|lia..].
Qed.

(** The first cut of the window that starts the payload, then the loop. *)
Lemma pack_calculate_part_cuts p cnt d :
  (chunk_num g ≤ length p)%nat → Z.of_nat (length p) < 2 ^ 16 → (d ≤ 32)%nat →
  pack_calculate_part g p cnt [] (Z.of_nat d) =
    Done (cnt :: Z.of_nat (length p) :: (Z.of_nat <$> (payload_cuts g p d).1),
          Z.of_nat (payload_cuts g p d).2).
Proof.
  intros Hk Hn Hd. pose proof (tp_chunk g Hg) as H1. unfold pack_calculate_part.
  assert (Hc : Z.of_nat (length (payload_cuts g p d).1) + 2 ≤ PLEN).
  { pose proof (tool_cuts_count p (length p + 1 - chunk_num g) (chunk_num g - 1) d Hd) as [? _].
    unfold payload_cuts, PLEN. lia. }
  change (part_set [] cnt) with (Done [cnt]). cbn [mbind outcome_bind].
  change (part_set [cnt] ?n) with (Done [cnt; n]). cbn [mbind outcome_bind].
  replace (Z.of_nat (chunk_num g) - 1) with (Z.of_nat (chunk_num g - 1)) by lia.
  replace (pack_hash p (chunk_num g) (R g) (Q g)) with (window g p (chunk_num g - 1))
    by (unfold window; by replace (chunk_num g - 1 + 1 - chunk_num g)%nat with 0%nat by lia).
  rewrite try_cut_spec by (cbn [length]; unfold PLEN; lia). cbn [mbind outcome_bind].
  revert Hc. unfold payload_cuts.
  replace (length p + 1 - chunk_num g)%nat with (S (length p - chunk_num g)) by lia.
  cbn [tool_cuts]. replace (S (chunk_num g - 1)) with (chunk_num g) by lia.
  pose proof (part_loop_cuts p (length p - chunk_num g) (chunk_num g)) as Hloop.
  destruct d as [|d]; [|by intros; apply (Hloop [cnt; Z.of_nat (length p)]); cbn [length]; lia].
  destruct (admissible g p (chunk_num g - 1)).
  - change pack_step with (Z.of_nat (Z.to_nat pack_step)). rewrite Nat2Z.id.
    specialize (Hloop ([cnt; Z.of_nat (length p)] ++ [Z.of_nat (chunk_num g - 1)]) (Z.to_nat pack_step)).
    destruct (tool_cuts g p _ _ (Z.to_nat pack_step)) as [l d']. cbn [fst snd length] in *. intros.
    rewrite Hloop by (rewrite ?length_app; cbn [length]; lia). done.
  - intros. apply (Hloop [cnt; Z.of_nat (length p)] 0%nat); cbn [length]; lia.
Qed.
End cuts.

(** ** The parameters the tool runs with *)

Lemma iter_double_s64 n q : 0 ≤ q → q * 2 ^ Z.of_nat n < 2 ^ 63 →
  Nat.iter n (λ q, s64 (2 * q)) q = q * 2 ^ Z.of_nat n.
Proof.
  induction n as [|n IH]; intros Hq Hn; simpl Nat.iter; [cbn; lia|].
  rewrite Nat2Z.inj_succ, Z.pow_succ_r in * by lia.
  assert (0 < 2 ^ Z.of_nat n) by (apply Z.pow_pos_nonneg; lia).
  rewrite IH by nia. rewrite s64_small by nia. lia.
Qed.

(** The products wrap and [%] keeps their sign: the result may be negative, but
    it is the power of [R] modulo [2^60]. *)
Lemma iter_RM_s64 n r :
  eqmod (2 ^ 60) (Nat.iter n (λ rm, Z.rem (s64 (r * rm)) (2 ^ 60)) 1) (r ^ Z.of_nat n).
Proof.
  induction n as [|n IH]; [done|]. simpl Nat.iter.
  rewrite eqmod_rem, eqmod_s64, IH. rewrite Nat2Z.inj_succ, Z.pow_succ_r by lia. done.
Qed.

Lemma precalculate_ok g :
  Q g = 1 → RM g = 1 → 0 ≤ R g → (1 ≤ chunk_num g)%nat → tool_params (precalculate g).
Proof.
  intros HQ HRM HR Hk. unfold precalculate. rewrite HQ, HRM, iter_double_s64 by done.
  change (1 * 2 ^ Z.of_nat 60) with (2 ^ 60).
  split; cbn [Q RM R chunk_num]; [done| |done|done].
  rewrite iter_RM_s64. replace (Z.of_nat (chunk_num g - 1)) with (Z.of_nat (chunk_num g) - 1) by lia. done.
Qed.

Definition tool_globals : globals := precalculate pack_globals0.
Lemma tool_globals_ok : tool_params tool_globals.
Proof. apply precalculate_ok; done || (cbn; lia). Qed.

(** ** The interface to the rest of the tool *)

(** What the tool relies on: the positions are those of a specification [cuts],
    in order and inside the payload. *)
Class CutterLaws {C : Cutter} (g : globals) (cuts : list Z → nat → list nat * nat) : Prop := {
  cl_buckets : buckets < 2 ^ 31;
  cl_chunk : (1 ≤ chunk_num g)%nat;
  cl_calculate p cnt d :
    (chunk_num g ≤ length p)%nat → Z.of_nat (length p) < 2 ^ 16 → (d ≤ 32)%nat →
    calculate_part g p cnt [] (Z.of_nat d) =
      Done (cnt :: Z.of_nat (length p) :: (Z.of_nat <$> (cuts p d).1), Z.of_nat (cuts p d).2);
  cl_sorted p d : StronglySorted (λ i j, i < j)%nat (cuts p d).1;
  cl_range p d : (chunk_num g ≤ length p)%nat → Forall (λ i, i < length p)%nat (cuts p d).1;
  cl_delay p d : (d ≤ 32)%nat → ((cuts p d).2 ≤ 32)%nat }.

Lemma pack_cutter_laws g : tool_params g → CutterLaws (C := pack_cutter) g (payload_cuts g).
Proof.
  intros Hg. pose proof (tp_chunk g Hg) as Hk. split; [done|done|..].
  - intros p cnt d. by apply pack_calculate_part_cuts.
  - intros p d. eapply StronglySorted_impl; [|apply tool_cuts_spaced]. cbn. lia.
  - intros p d Hp. apply Forall_forall. intros i [Hi _]%tool_cuts_bounds. lia.
  - intros p d Hd. by apply tool_cuts_count.
Qed.

(** ** Properties *)

(** C32. [pack_calculate_part], with the parameters [precalculate] leaves and a
    delay of at most [step] from the payload before, returns: the packet number,
    the payload's length, and the positions the specification selects (the hash
    of each window from scratch, or two neighbouring bytes at most one apart);
    the positions lie in the payload and are more than [step] bytes apart, the
    array of [PLEN] entries is not exceeded, and the delay stays at most
    [step]. *)
Theorem pack_calculate_part_correct g p cnt d :
  tool_params g → (chunk_num g ≤ length p)%nat → Z.of_nat (length p) < 2 ^ 16 → (d ≤ 32)%nat →
  let '(l, d') := payload_cuts g p d in
  pack_calculate_part g p cnt [] (Z.of_nat d) =
    Done (cnt :: Z.of_nat (length p) :: (Z.of_nat <$> l), Z.of_nat d') ∧
  StronglySorted (λ x y, x + Z.to_nat pack_step < y)%nat l ∧
  Forall (λ x, (chunk_num g - 1 + d ≤ x < length p)%nat ∧ admissible g p x = true) l ∧
  (d' ≤ 32)%nat.
Proof.
  intros Hg Hk Hn Hd. pose proof (tp_chunk g Hg) as H1.
  pose proof (pack_calculate_part_cuts g Hg p cnt d Hk Hn Hd) as E.
  unfold payload_cuts in *. set (n := (length p + 1 - chunk_num g)%nat) in *.
  set (i := (chunk_num g - 1)%nat) in *.
  pose proof (tool_cuts_spaced g p n i d) as Hs. pose proof (tool_cuts_bounds g p n i d) as Hb.
  destruct (tool_cuts_count g p n i d Hd) as [_ Hd']. destruct (tool_cuts g p n i d) as [l d'].
  split_and!; [exact E|exact Hs| |exact Hd'].
  apply Forall_forall. intros x Hx. destruct (Hb x Hx). split; [lia|done].
Qed.
(** A payload of 100 bytes. *)
Definition sample_play : list Z := (λ i, s8 (i * i * 7 + i * 3)) <$> seqZ 0 100.
Lemma pack_calculate_part_correct_witness :
  let '(l, d') := payload_cuts tool_globals sample_play 3 in
  pack_calculate_part tool_globals sample_play 8 [] (Z.of_nat 3) =
    Done (8 :: Z.of_nat (length sample_play) :: (Z.of_nat <$> l), Z.of_nat d') ∧
  StronglySorted (λ x y, x + Z.to_nat pack_step < y)%nat l ∧
  Forall (λ x, (chunk_num tool_globals - 1 + 3 ≤ x < length sample_play)%nat ∧
               admissible tool_globals sample_play x = true) l ∧
  (d' ≤ 32)%nat.
Proof.
  apply (pack_calculate_part_correct tool_globals sample_play 8 3).
  - apply tool_globals_ok.
  - apply Nat.leb_le. reflexivity.
  - reflexivity.
  - apply Nat.leb_le. reflexivity.
Defined.
