(* ===== verification/PackLedger.v ===== *)
(** The ledger of the analyser: the digests in the arena and the hash map are
    the digests of the chunks so far, and the bytes saved are those of the
    chunks that were there before. *)
From S2P Require Import Prelude Rabin DArray KeyValue ChunkBuf Hashmap HashmapSpec Pack.
#[local] Open Scope Z_scope.

(** ** Keys *)

(** The value of a key: the bytes [memcmp] compares. *)
Definition mode_hash {C : Cutter} (v : list Z) : Z :=
  u32 (foldl (λ hash c, u64 (10 * hash + u8 c) mod buckets) 0 v).
Definition key_valid (kv : keyvalue) (l : list (list Z)) (k : keyptr) : Prop :=
  match k with
  | Res b => length b = Z.to_nat SHA
  | Arena p => ∃ i e, p = (block kv, SHA * Z.of_nat i) ∧ l !! i = Some e
  end.
Definition key_val (kv : keyvalue) (k : keyptr) : list Z :=
  match deref_key kv k with Done b => u8 <$> b | _ => [] end.

Lemma u8_idemp z : u8 (u8 z) = u8 z.
Proof. apply Z.mod_mod. done. Qed.

Lemma deref_stored kv l k :
  stores kv l → kv_step kv = SHA → key_valid kv l k →
  ∃ b, deref_key kv k = Done b ∧ length b = Z.to_nat SHA ∧ key_val kv k = u8 <$> b.
Proof.
  intros Hst Hstep Hk. unfold key_val. destruct k as [b|p]; cbn in *.
  - exists b. unfold read_bytes. rewrite decide_True by lia. by rewrite take_ge by lia.
  - destruct Hk as (i&e&->&He). pose proof (read_stored kv l i e Hst He) as Hr. rewrite Hstep in Hr.
    rewrite Hr. exists e. split; [done|]. split; [|done]. rewrite <- Hstep.
    by eapply (Forall_lookup_1 _ _ _ _ (st_keys _ _ Hst)).
Qed.

Lemma foldl_hash_u8 {C : Cutter} b h :
  foldl (λ hash c, u64 (10 * hash + u8 c) mod buckets) h (u8 <$> b) =
  foldl (λ hash c, u64 (10 * hash + u8 c) mod buckets) h b.
Proof. revert h. induction b as [|c b IH]; intros h; [done|]. cbn. by rewrite u8_idemp, IH. Qed.

Lemma mode_hash_spec {C : Cutter} kv l k :
  stores kv l → kv_step kv = SHA → key_valid kv l k →
  Hashmap_mode_hash kv k = Done (mode_hash (key_val kv k)).
Proof.
  intros Hst Hstep Hk. destruct (deref_stored kv l k Hst Hstep Hk) as (b&Hd&_&->).
  unfold Hashmap_mode_hash, mode_hash. rewrite Hd. cbn [mbind outcome_bind]. by rewrite foldl_hash_u8.
Qed.
Lemma mode_hash_range {C : Cutter} v : 0 ≤ mode_hash v < 2 ^ 32.
Proof. apply u32_range. Qed.

Lemma memcmp_zero a b : length a = length b → memcmp a b = 0 ↔ u8 <$> a = u8 <$> b.
Proof.
  revert b. induction a as [|x a IH]; intros [|y b] Hl; try done. cbn [memcmp fmap list_fmap].
  destruct (Z.eqb_spec (u8 x) (u8 y)) as [E|E].
  - rewrite IH by (cbn in Hl; lia). rewrite E. split; [by intros ->|congruence].
  - split; [lia|]. intros [= ? _]. done.
Qed.

Lemma mode_compare_spec {C : Cutter} kv l a b :
  stores kv l → kv_step kv = SHA → key_valid kv l a → key_valid kv l b →
  mode_hash (key_val kv a) = mode_hash (key_val kv b) →
  ∃ z, Hashmap_mode_compare kv a b = Done z ∧ (z = 0 ↔ key_val kv a = key_val kv b).
Proof.
  intros Hst Hstep Ha Hb _. destruct (deref_stored kv l a Hst Hstep Ha) as (x&Hx&Hxl&->).
  destruct (deref_stored kv l b Hst Hstep Hb) as (y&Hy&Hyl&->).
  unfold Hashmap_mode_compare. rewrite Hx, Hy. eexists. split; [reflexivity|].
  apply memcmp_zero. lia.
Qed.

(** A push that stays in the block keeps the keys it has. *)
Lemma key_push kv kv' l e k :
  stores kv l → stores kv' (l ++ [e]) → kv_step kv = SHA → kv_step kv' = SHA → block kv' = block kv →
  key_valid kv l k → key_valid kv' (l ++ [e]) k ∧ key_val kv' k = key_val kv k.
Proof.
  intros Hst Hst' Hs Hs' Hb Hk. destruct k as [b|p]; [done|].
  destruct Hk as (i&x&->&Hx). assert (Hx' : (l ++ [e]) !! i = Some x) by by apply lookup_app_l_Some.
  split; [exists i, x; by rewrite Hb|]. unfold key_val. cbn [deref_key].
  pose proof (read_stored kv l i x Hst Hx) as Hr. pose proof (read_stored kv' _ i x Hst' Hx') as Hr'.
  rewrite Hs in Hr. rewrite Hs', Hb in Hr'. by rewrite Hr, Hr'.
Qed.

(** ** The map under a change of the arena *)

Section transfer.
  Context {K D V : Type} `{Countable V} (valid valid' : K → Prop) (val val' : K → V) (hv : V → Z).
  Context (Hk : ∀ k, valid k → valid' k ∧ val' k = val k).

Lemma chain_transfer n nb b M (nodes : list (HashmapNode K D)) :
  chain valid val hv n nb b M nodes → chain valid' val' hv n nb b M nodes.
Proof using Hk.
  intros [Hn Hks Hids Hm].
  assert (Hv : ∀ nd, nd ∈ nodes → vkey val' nd = vkey val nd)
    by (intros nd Hin; apply Hk, (nk_valid _ _ _ _ _ _ _ (Hn nd Hin))).
  split; [| |done|].
  - intros nd Hin. destruct (Hn nd Hin) as [Hva Hh Hb Hi]. rewrite <- (Hv nd Hin) in Hh, Hb.
    split; try done. by apply Hk.
  - rewrite (list_fmap_ext (vkey val') (vkey val) nodes); [done|].
    intros i nd Hi. apply Hv. by apply list_elem_of_lookup_2 in Hi.
  - intros v x E. rewrite (Hm v x E). split; intros (nd&Hin&<-&<-); exists nd; by rewrite Hv by done.
Qed.

Lemma represents_transfer n hi (m : darray (darray (HashmapNode K D))) M :
  represents valid val hv n hi m M → represents valid' val' hv n hi m M.
Proof using Hk.
  intros [Hm He Hb Hh Hs]. split; try done. intros b Hbr. destruct (Hs b Hbr) as (s&E&Ho).
  exists s. split; [done|]. destruct s as [| |d]; try done. destruct Ho as (nodes&Hd&Hmx&Hc).
  exists nodes. split; [done|]. split; [done|]. by apply chain_transfer.
Qed.
End transfer.

(** ** Bytes saved *)

Section digests.
  (** What is left of a chunk: the digest buffer, as [memcmp] sees it. *)
  Context (sha_hash : list Z → list Z).

Definition digest (c : list Z) : list Z := u8 <$> sha_hash c.

(** The lengths of the chunks whose digest is among [seen] or the ones before. *)
Fixpoint saved (seen : list (list Z)) (cs : list (list Z)) : Z :=
  match cs with
  | [] => 0
  | c :: cs => (if decide (digest c ∈ seen) then Z.of_nat (length c) else 0) + saved (digest c :: seen) cs
  end.

Lemma saved_seen seen seen' cs : seen ≡ₚ seen' → saved seen cs = saved seen' cs.
Proof.
  revert seen seen'. induction cs as [|c cs IH]; intros seen seen' Hp; [done|]. cbn.
  rewrite (IH (digest c :: seen) (digest c :: seen')) by (by rewrite Hp). f_equal.
  apply decide_ext. by rewrite Hp.
Qed.
Lemma saved_snoc seen cs c :
  saved seen (cs ++ [c]) =
    saved seen cs + (if decide (digest c ∈ seen ++ (digest <$> cs)) then Z.of_nat (length c) else 0).
Proof.
  revert seen. induction cs as [|c' cs IH]; intros seen; cbn [saved app fmap list_fmap].
  - rewrite app_nil_r. lia.
  - rewrite IH. rewrite Z.add_assoc. f_equal. apply decide_ext. rewrite !elem_of_app, !elem_of_cons. tauto.
Qed.

(** ** The ledger *)

Section ledger.
  Context `{AllocatorLaws} {C : Cutter} (g : globals).
  Context (sha_length : ∀ c, length (sha_hash c) = Z.to_nat SHA).
  Context (Hmem : ∀ n, alloc_ok n = true).
  Implicit Types x : pack.

(** How many chunks the tool has room for: capacity of the arena, and lengths of
    the buckets that stay in an [int]. *)
Definition MAX_CHUNKS : Z := 7000000.

Record ledger_of x (cs : list (list Z)) (l : list (list Z)) (M : gmap (list Z) keyptr) : Prop := {
  lg_stores : stores (keys x) l;
  lg_step : kv_step (keys x) = SHA;
  lg_capacity : capacity (keys x) = SHANUM * SHA;
  lg_rate : kv_expand_rate (keys x) = SHANUM * SHA;
  lg_map : represents (key_valid (keys x) l) (key_val (keys x)) mode_hash (allocs x)
             (100 + 300 * Z.of_nat (length l)) (map x) M;
  lg_dom : ∀ v, is_Some (M !! v) ↔ v ∈ digest <$> cs;
  lg_length : (length l ≤ length cs)%nat;
  lg_saved : save_len x = u64 (saved [] cs) }.
Definition ledger x (cs : list (list Z)) : Prop := ∃ l M, ledger_of x cs l M.

Lemma ledger_frame x x' cs :
  ledger x cs → keys x' = keys x → map x' = map x → save_len x' = save_len x →
  (allocs x ≤ allocs x')%nat → ledger x' cs.
Proof using.
  intros (l&M&[]) Ek Em Es Hn. exists l, M. split; rewrite ?Ek, ?Em, ?Es; try done.
  eapply represents_mono; [exact Hn|reflexivity|done].
Qed.

Lemma digest_res c k : k = Res (sha_hash c) → ∀ kv l, key_valid kv l k ∧ key_val kv k = digest c.
Proof.
  intros -> kv l. split; [apply sha_length|]. unfold key_val. cbn. unfold read_bytes.
  rewrite decide_True by (rewrite sha_length; lia). by rewrite take_ge by (rewrite sha_length; lia).
Qed.

(** The lookup says whether a chunk with this digest was there. *)
Lemma ledger_get x cs c :
  ledger x cs → ∃ r,
    Hashmap_get (Hashmap_mode_hash (keys x)) (Hashmap_mode_compare (keys x)) (map x) (allocs x)
      (Res (sha_hash c)) = Done r ∧ (is_Some r ↔ digest c ∈ digest <$> cs).
Proof.
  intros (l&M&Hl). destruct (digest_res c _ eq_refl (keys x) l) as [Hv Hval].
  exists (M !! digest c). split; [|apply (lg_dom _ _ _ _ Hl)]. rewrite <- Hval.
  apply (Hashmap_get_spec _ _ (key_valid (keys x) l) (key_val (keys x)) mode_hash)
    with (hi := 100 + 300 * Z.of_nat (length l)); try done.
  - intros k Hk. by eapply mode_hash_spec; [apply Hl|apply Hl|].
  - apply mode_hash_range.
  - intros a b Ha Hb. by eapply mode_compare_spec; [apply Hl|apply Hl| |].
  - apply Hl.
Qed.

(** A new digest goes to the arena and to the map. *)
Lemma ledger_add x cs l M c :
  ledger_of x cs l M → Z.of_nat (length cs) < MAX_CHUNKS → M !! digest c = None →
  ∃ kv p m n, keyvalue_push (keys x) (allocs x) (sha_hash c) = Done (kv, Some p, allocs x) ∧
    Hashmap_set (Hashmap_mode_hash kv) (map x) (allocs x) (Arena p) (Arena p) = Done (m, 0, n) ∧
    ledger_of (set_map kv m n x) (cs ++ [c]) (l ++ [sha_hash c]) (<[digest c := Arena p]> M).
Proof.
  intros [Hst Hstep Hcap Hrate Hmap Hdom Hlen Hsv] Hroom HM. unfold MAX_CHUNKS in *.
  pose proof (st_index _ _ Hst) as Hidx. rewrite Hstep in Hidx. unfold SHA, SHANUM in *.
  destruct (keyvalue_push_spec (keys x) (allocs x) l (sha_hash c) Hmem Hst)
    as (kv&n'&Hpush&Hst'&Hstep'&Hrate'&Hcase); [rewrite sha_length, Hstep; done|lia|lia|].
  rewrite decide_True in Hcase by lia. destruct Hcase as (Hblk&Hcap'&->).
  assert (Et : take (Z.to_nat (kv_step (keys x))) (sha_hash c) = sha_hash c)
    by (apply take_ge; rewrite sha_length, Hstep; done).
  rewrite Et in Hst'. rewrite Hstep in Hstep'. set (p := (block kv, index (keys x))) in *.
  assert (Hp : key_valid kv (l ++ [sha_hash c]) (Arena p)).
  { exists (length l), (sha_hash c). split; [unfold p; by rewrite Hidx|]. by apply list_lookup_middle. }
  assert (Hpv : key_val kv (Arena p) = digest c).
  { pose proof (read_stored kv _ (length l) (sha_hash c) Hst' (list_lookup_middle _ _ _ _ eq_refl)) as Hr.
    unfold key_val, p. cbn [deref_key]. rewrite Hstep' in Hr. unfold SHA. rewrite Hidx, Hr. done. }
  assert (Hm' : represents (key_valid kv (l ++ [sha_hash c])) (key_val kv) mode_hash (allocs x)
                  (100 + 300 * Z.of_nat (length l)) (map x) M).
  { eapply represents_transfer; [|exact Hmap]. intros k Hk. by eapply key_push. }
  rewrite <- Hpv in HM.
  destruct (Hashmap_set_spec (Hashmap_mode_hash kv)
              (key_valid kv (l ++ [sha_hash c])) (key_val kv) mode_hash
              (λ k Hk, mode_hash_spec kv _ k Hst' Hstep' Hk) mode_hash_range
              (allocs x) (100 + 300 * Z.of_nat (length l)) (map x) M (Arena p) (Arena p) Hmem Hm' Hp HM)
    as (m&n&Hset&Hm&_); [lia|].
  exists kv, p, m, n. split; [exact Hpush|]. split; [exact Hset|].
  rewrite Hpv in Hm, HM.
  split; cbn [keys map allocs save_len set_map]; [exact Hst'|exact Hstep'|by rewrite Hcap'|by rewrite Hrate'| | | |].
  - replace (100 + 300 * Z.of_nat (length (l ++ [sha_hash c])))
      with (100 + 300 * Z.of_nat (length l) + 300) by (rewrite length_app; cbn; lia). exact Hm.
  - intros v. rewrite fmap_app, elem_of_app, <- Hdom, list_fmap_singleton, list_elem_of_singleton, lookup_insert_is_Some'.
    split; intros [?|?]; auto.
  - rewrite !length_app. cbn. lia.
  - rewrite saved_snoc, Hsv, decide_False; [by rewrite Z.add_0_r|]. cbn [app].
    rewrite <- Hdom, HM. by intros [? [=]].
Qed.

(** [note_chunk] on a chunk and its digest. *)
Lemma note_chunk_spec x cs c len :
  ledger x cs → Z.of_nat (length cs) < MAX_CHUNKS → len = Z.of_nat (length c) →
  ∃ x', note_chunk (sha_hash c) len x = Done (x', true) ∧ ledger x' (cs ++ [c]) ∧
    remain_data x' = remain_data x ∧ part x' = part x ∧ delay_time x' = delay_time x ∧
    count_packet x' = count_packet x ∧ sum_len x' = sum_len x.
Proof.
  intros Hl Hroom ->. destruct (ledger_get x cs c Hl) as (r&Hget&Hr). unfold note_chunk.
  rewrite Hget. cbn [mbind outcome_bind]. destruct Hl as (l&M&Hl). destruct r as [k|].
  - eexists. split; [reflexivity|]. split; [|done].
    destruct Hl as [Hst Hstep Hcap Hrate Hmap Hdom Hlen Hsv].
    assert (Hin : digest c ∈ digest <$> cs) by (apply Hr; by exists k).
    exists l, M. split; cbn [keys map allocs save_len add_save]; try done.
    + intros v. rewrite fmap_app, elem_of_app, Hdom, list_fmap_singleton, list_elem_of_singleton.
      split; [by left|]. intros [?| ->]; done.
    + rewrite length_app. lia.
    + rewrite saved_snoc, decide_True, Hsv by done. unfold u64. apply Zplus_mod_idemp_l.
  - assert (HM : M !! digest c = None).
    { destruct (M !! digest c) eqn:E; [|done].
      destruct (proj2 Hr); [|done]. apply (lg_dom _ _ _ _ Hl). by rewrite E. }
    destruct (ledger_add x cs l M c Hl Hroom HM) as (kv&p&m&n&Hp&Hset&Hl').
    rewrite Hp. cbn [mbind outcome_bind]. rewrite Hset. cbn [mbind outcome_bind].
    eexists. split; [reflexivity|]. split; [by eexists _, _|done].
Qed.
End ledger.
End digests.
