(* ===== verification/PackSpec.v ===== *)
(** What the analyser computes: the payloads of the capture, put end to end, are
    cut into chunks, and the tool's counters are the bytes read and the bytes of
    the chunks that were there before. *)
From S2P Require Import Prelude Rabin DArray KeyValue ChunkBuf Hashmap HashmapSpec Pack PackCuts PackLedger.
#[local] Open Scope Z_scope.

(** ** Specification: cutting a stream of payloads *)

Record stream := Stream {
  st_chunks : list (list Z);
  st_rest : list Z;
  st_delay : nat;
  st_total : Z }.
Definition stream0 : stream := Stream [] [] 0 0.

(** The chunks that end at the cuts [l], after one that ended at [before]. *)
Fixpoint pieces (p : list Z) (before : nat) (l : list nat) : list (list Z) :=
  match l with
  | [] => []
  | x :: l => slice (S before) (x - before) p :: pieces p x l
  end.

Definition feed (cuts : list Z → nat → list nat * nat) (st : stream) (p : list Z) : stream :=
  let total := st_total st + Z.of_nat (length p) in
  match cuts p (st_delay st) with
  | ([], d) => Stream (st_chunks st) (st_rest st ++ p) d total
  | (x :: l, d) =>
    Stream (st_chunks st ++ (st_rest st ++ take (S x) p) :: pieces p x l)
      (drop (S (List.last l x)) p) d total
  end.

(** The buffer of [LEN] bytes is large enough for what the payload adds to it and
    for what it leaves there. *)
Definition fits (cuts : list Z → nat → list nat * nat) (st : stream) (p : list Z) : Prop :=
  match cuts p (st_delay st) with
  | ([], _) => Z.of_nat (length (st_rest st ++ p)) ≤ LEN
  | (x :: l, _) => Z.of_nat (length (st_rest st ++ take (S x) p)) ≤ LEN ∧
      Z.of_nat (length (drop (S (List.last l x)) p)) ≤ LEN
  end.

(** Payloads shorter than a window are passed over. *)
Definition feed_long (g : globals) (cuts : list Z → nat → list nat * nat) (st : stream) (p : list Z) : stream :=
  if decide (chunk_num g ≤ length p)%nat then feed cuts st p else st.

Lemma last_cons {A} (x d : A) l : List.last (x :: l) d = List.last l x.
Proof. revert x d. induction l as [|y l IH]; intros x d; [done|].
  change (List.last (x :: y :: l) d) with (List.last (y :: l) d). by rewrite !IH.
Qed.

Lemma pieces_concat p before l :
  StronglySorted (λ x y, x < y)%nat (before :: l) →
  concat (pieces p before l) ++ drop (S (List.last l before)) p = drop (S before) p.
Proof.
  revert before. induction l as [|x l IH]; intros before Hs; [done|].
  apply StronglySorted_inv in Hs as [Hs Hb]. apply Forall_cons in Hb as [Hb _].
  cbn [pieces concat]. rewrite <- app_assoc.
  rewrite last_cons, IH by done. unfold slice.
  replace (drop (S x) p) with (drop (x - before) (drop (S before) p)) by (rewrite drop_drop; f_equal; lia).
  apply take_drop.
Qed.

(** Nothing of the stream is lost or repeated. *)
Lemma feed_tiles {C : Cutter} g cuts st p :
  CutterLaws g cuts →
  concat (st_chunks (feed cuts st p)) ++ st_rest (feed cuts st p) = concat (st_chunks st) ++ st_rest st ++ p.
Proof.
  intros L. unfold feed. pose proof (cl_sorted p (st_delay st)) as Hs.
  destruct (cuts p (st_delay st)) as [[|x l] d]; [done|]. cbn [fst st_chunks st_rest] in *.
  rewrite concat_app. cbn [concat]. rewrite <- !app_assoc. do 2 f_equal.
  rewrite <- last_cons with (d := x), last_cons, pieces_concat by done. apply take_drop.
Qed.

(** ** The tool *)

Section tool.
  Context (sha_hash : list Z → list Z) `{AllocatorLaws} {C : Cutter} (g : globals).
  Context (cuts : list Z → nat → list nat * nat) {L : CutterLaws g cuts}.
  Context (sha_length : ∀ c, length (sha_hash c) = Z.to_nat SHA).
  Context (Hmem : ∀ n, alloc_ok n = true).
  Implicit Types x : pack.

Lemma calculate_sha_spec n data begin stop :
  0 ≤ begin ≤ stop + 1 → stop < Z.of_nat (length data) → stop - begin + 1 < 2 ^ 31 →
  calculate_sha sha_hash n data begin stop =
    Done (sha_hash (slice (Z.to_nat begin) (Z.to_nat (stop - begin + 1)) data), S n).
Proof using Hmem.
  intros Hb Hs Hl. unfold calculate_sha. rewrite s32_small, read_range_spec by lia.
  cbn [mbind outcome_bind]. by rewrite Hmem.
Qed.

(** The chunk the buffer holds. *)
Lemma sha_buffer ck l n :
  carries ck l → calculate_sha sha_hash n (content ck) 0 (s64 (u64 (ck_end ck - 1))) = Done (sha_hash l, S n).
Proof using Hmem.
  intros [He Hl Hb Hf Hc].
  assert (Es : s64 (u64 (ck_end ck - 1)) = ck_end ck - 1).
  { unfold s64, u64. rewrite Zplus_mod_idemp_l. rewrite Z.mod_small by lia. lia. }
  rewrite Es, calculate_sha_spec by lia. unfold slice. change (Z.to_nat 0) with 0%nat. rewrite drop_0.
  replace (Z.to_nat (ck_end ck - 1 - 0 + 1)) with (length l) by lia. by rewrite Hc.
Qed.

Record keeps x (st : stream) : Prop := {
  rn_ledger : ledger sha_hash x (st_chunks st);
  rn_rest : carries (remain_data x) (st_rest st);
  rn_limit : limit (remain_data x) = LEN }.
Record runs x (st : stream) : Prop := {
  rn_keeps : keeps x st;
  rn_delay : delay_time x = Z.of_nat (st_delay st);
  rn_step : (st_delay st ≤ 32)%nat;
  rn_total : sum_len x = u64 (st_total st) }.

(** The first chunk: what was kept of the stream, up to the first cut. *)
Lemma first_chunk_spec x st p pp :
  keeps x st → Z.of_nat (length (st_chunks st)) < MAX_CHUNKS → (pp < length p)%nat →
  Z.of_nat (length (st_rest st ++ take (S pp) p)) ≤ LEN →
  ∃ x', first_chunk sha_hash p (Z.of_nat pp) x = Done (x', true) ∧
    ledger sha_hash x' (st_chunks st ++ [st_rest st ++ take (S pp) p]) ∧
    carries (remain_data x') [] ∧ limit (remain_data x') = LEN ∧
    delay_time x' = delay_time x ∧ sum_len x' = sum_len x.
Proof.
  intros [Hl Hr Hlim] Hroom Hpp Hfit. unfold first_chunk. unfold LEN in *.
  assert (Hlen : length (take (S pp) p) = S pp) by (apply length_take_le; lia).
  rewrite length_app, Hlen in Hfit. pose proof (cy_end _ _ Hr) as He.
  destruct (chunk_merge_fits (remain_data x) (st_rest st) (allocs x) p 0 (Z.of_nat pp) Hr)
    as (ck&Em&Hck&Hlck); [lia..|].
  rewrite Em. cbn [mbind outcome_bind].
  replace (slice (Z.to_nat 0) (Z.to_nat (Z.of_nat pp - 0 + 1)) p) with (take (S pp) p) in Hck
    by (unfold slice; change (Z.to_nat 0) with 0%nat; rewrite drop_0; f_equal; lia).
  set (c := st_rest st ++ take (S pp) p) in *.
  assert (Hc : ck_end ck = Z.of_nat (length c)) by apply (cy_end _ _ Hck).
  assert (Hcl : Z.of_nat (length c) ≤ 30000) by (subst c; rewrite length_app, Hlen; lia).
  rewrite (sha_buffer ck c) by done. cbn [mbind outcome_bind].
  destruct (note_chunk_spec sha_hash sha_length Hmem
              (set_remain (chunk_clean ck) (S (allocs x)) x) (st_chunks st) c (s32 (ck_end ck)))
    as (x'&Hn&Hl'&Hr'&_&Hd'&_&Hs'); [eapply ledger_frame; [exact Hl|..]; cbn; done || lia|done| |].
  { rewrite s32_small; lia. }
  exists x'. rewrite Hn. split; [done|]. split; [done|]. rewrite Hr', Hd', Hs'.
  cbn [remain_data set_remain delay_time sum_len]. split; [by eapply chunk_clean_spec|].
  by rewrite <- Hlim, <- Hlck.
Qed.

(** The chunks between two cuts. *)
Lemma next_chunks_spec x cs p before l :
  ledger sha_hash x cs → Z.of_nat (length cs + length l) ≤ MAX_CHUNKS →
  StronglySorted (λ i j, i < j)%nat (before :: l) → Forall (λ i, i < length p)%nat l →
  Z.of_nat (length p) < 2 ^ 31 →
  ∃ x', next_chunks sha_hash p (Z.of_nat before) (Z.of_nat <$> l) x = Done (x', true) ∧
    ledger sha_hash x' (cs ++ pieces p before l) ∧ remain_data x' = remain_data x ∧
    delay_time x' = delay_time x ∧ sum_len x' = sum_len x.
Proof.
  revert x cs before. induction l as [|y l IH]; intros x cs before Hl Hroom Hs Hb Hp.
  { exists x. cbn. by rewrite app_nil_r. }
  apply StronglySorted_inv in Hs as [Hs Hby]. apply Forall_cons in Hby as [Hby _].
  apply Forall_cons in Hb as [Hy Hb]. cbn [length] in Hroom.
  cbn [fmap list_fmap next_chunks pieces]. unfold next_chunk.
  rewrite (s32_small (Z.of_nat y - Z.of_nat before)), calculate_sha_spec by lia. cbn [mbind outcome_bind].
  replace (slice (Z.to_nat (Z.of_nat before + 1)) _ p) with (slice (S before) (y - before) p)
    by (f_equal; lia).
  set (c := slice (S before) (y - before) p).
  destruct (note_chunk_spec sha_hash sha_length Hmem
              (set_remain (remain_data x) (S (allocs x)) x) cs c (Z.of_nat y - Z.of_nat before))
    as (x1&Hn&Hl1&Hr1&_&Hd1&_&Hs1); [eapply ledger_frame; [exact Hl|..]; cbn; done || lia|lia| |].
  { subst c. rewrite slice_length by lia. lia. }
  rewrite Hn. cbn [mbind outcome_bind].
  destruct (IH x1 (cs ++ [c]) y Hl1) as (x'&Hx&Hl'&Hr'&Hd'&Hs'); [rewrite length_app; cbn; lia|done..|].
  exists x'. split; [exact Hx|]. split; [by rewrite <- app_assoc in Hl'|].
  rewrite Hr', Hd', Hs', Hr1, Hd1, Hs1. done.
Qed.

(** The bytes after the last cut. *)
Lemma store_rest_spec x p last :
  carries (remain_data x) [] → limit (remain_data x) = LEN → (last < length p)%nat →
  Z.of_nat (length (drop (S last) p)) ≤ LEN →
  ∃ ck, store_rest p (Z.of_nat last) (Z.of_nat (length p)) x = Done (set_remain ck (allocs x) x) ∧
    carries ck (drop (S last) p) ∧ limit ck = LEN.
Proof using.
  intros Hc Hlim Hlast Hfit. rewrite length_drop in Hfit. unfold store_rest, LEN in *.
  destruct (Z.eqb_spec (Z.of_nat last) (Z.of_nat (length p) - 1)) as [E|E].
  - exists (remain_data x). split; [by destruct x|]. rewrite drop_ge by lia. done.
  - destruct (chunk_store_spec (remain_data x) [] p (Z.of_nat last + 1) (Z.of_nat (length p) - 1) Hc)
      as (ck&Es&Hck&Hl); [lia..|].
    exists ck. rewrite Es. split; [done|]. rewrite Hl. split; [|done].
    replace (Z.to_nat (Z.of_nat last + 1)) with (S last) in Hck by lia. unfold slice in Hck.
    by rewrite take_ge in Hck by (rewrite length_drop; lia).
Qed.

(** No cut: the payload is appended to what is kept. *)
Lemma append_payload x st p :
  keeps x st → (1 ≤ length p)%nat → Z.of_nat (length (st_rest st ++ p)) ≤ LEN →
  ∃ ck, chunk_merge (remain_data x) (S (allocs x)) (Some p) 0 (Z.of_nat (length p) - 1)
      = Done (ck, Z.of_nat (length p), S (allocs x)) ∧ carries ck (st_rest st ++ p) ∧ limit ck = LEN.
Proof using.
  intros [_ Hr Hlim] Hp Hfit. rewrite length_app in Hfit. unfold LEN in *.
  pose proof (cy_end _ _ Hr) as He.
  destruct (chunk_merge_fits (remain_data x) (st_rest st) (S (allocs x)) p 0 (Z.of_nat (length p) - 1) Hr)
    as (ck&Em&Hck&Hl); [lia..|].
  exists ck. replace (Z.of_nat (length p) - 1 - 0 + 1) with (Z.of_nat (length p)) in * by lia.
  split; [done|]. rewrite Hl. split; [|done]. unfold slice in Hck.
  change (Z.to_nat 0) with 0%nat in Hck. by rewrite drop_0, take_ge in Hck by lia.
Qed.

(** The work on a payload and its cuts. *)
Lemma pack_SHA_spec x st p cnt len l :
  keeps x st → (1 ≤ length p)%nat → Z.of_nat (length p) < 2 ^ 16 →
  part x = cnt :: len :: (Z.of_nat <$> l) →
  StronglySorted (λ i j, i < j)%nat l → Forall (λ i, i < length p)%nat l →
  let '(cs, rest) := match l with
    | [] => ([], st_rest st ++ p)
    | y :: l => ((st_rest st ++ take (S y) p) :: pieces p y l, drop (S (List.last l y)) p)
    end in
  match l with
  | [] => Z.of_nat (length rest) ≤ LEN
  | y :: _ => Z.of_nat (length (st_rest st ++ take (S y) p)) ≤ LEN ∧ Z.of_nat (length rest) ≤ LEN
  end →
  Z.of_nat (length (st_chunks st ++ cs)) ≤ MAX_CHUNKS →
  ∃ x', pack_SHA sha_hash p x = Done x' ∧ ledger sha_hash x' (st_chunks st ++ cs) ∧
    carries (remain_data x') rest ∧ limit (remain_data x') = LEN ∧
    delay_time x' = delay_time x ∧ sum_len x' = sum_len x.
Proof.
  intros Hx Hp1 Hp Hpart Hs Hb. pose proof (rn_ledger _ _ Hx) as Hl.
  assert (Hx1 : keeps (set_remain (remain_data x) (S (allocs x)) x) st).
  { destruct Hx as [_ Hr Hlim]. split; try done.
    eapply ledger_frame; [exact Hl|..]; cbn; done || lia. }
  destruct l as [|y l].
  - intros Hfit _. destruct (append_payload x st p Hx Hp1 Hfit) as (ck&Em&Hck&Hlck).
    unfold pack_SHA. rewrite Hmem, app_nil_r. cbn [part set_remain remain_data allocs]. rewrite Hpart. cbn [fmap list_fmap].
    rewrite Em. cbn [mbind outcome_bind]. eexists. split; [reflexivity|].
    split; [|done]. eapply ledger_frame; [exact Hl|..]; cbn; done || lia.
  - intros [Hf1 Hf2] Hroom. rewrite length_app in Hroom. cbn [length] in Hroom.
    apply Forall_cons in Hb as [Hy Hb].
    destruct (first_chunk_spec _ st p y Hx1) as (x2&E2&Hl2&Hr2&Hlim2&Hd2&Hs2); [lia|done..|].
    assert (Hpl : length (pieces p y l) = length l).
    { clear. revert y. induction l as [|z l IH]; intros y; [done|]. cbn. by rewrite IH. }
    destruct (next_chunks_spec x2 _ p y l Hl2) as (x3&E3&Hl3&Hr3&Hd3&Hs3);
      [rewrite length_app; cbn; lia|done|done|lia|].
    assert (Hlast : (List.last l y < length p)%nat).
    { clear -Hb Hy. revert y Hy. induction l as [|z l IH]; intros y Hy; [done|].
      apply Forall_cons in Hb as [Hz Hb]. rewrite last_cons. by apply IH. }
    destruct (store_rest_spec x3 p (List.last l y)) as (ck&E4&Hck&Hlck); [by rewrite Hr3..|done|done|].
    unfold pack_SHA. rewrite Hmem. cbn [part set_remain]. rewrite Hpart. cbn [fmap list_fmap].
    rewrite E2. cbn [mbind outcome_bind]. fold (Z.of_nat <$> l). rewrite E3. cbn [mbind outcome_bind].
    replace (List.last (Z.of_nat <$> l) (Z.of_nat y)) with (Z.of_nat (List.last l y))
      by (clear; revert y; induction l as [|z l IH]; intros y; [done|];
          rewrite fmap_cons, !last_cons; apply IH).
    rewrite E4. eexists. split; [reflexivity|].
    split; [|cbn [remain_data set_remain delay_time sum_len]; by rewrite Hd3, Hs3, Hd2, Hs2].
    rewrite <- app_assoc in Hl3. eapply ledger_frame; [exact Hl3|..]; cbn; done || lia.
Qed.

(** A payload of at least one window. *)
Lemma take_payload_spec x st p :
  runs x st → Z.of_nat (length p) < 2 ^ 16 → ((chunk_num g ≤ length p)%nat → fits cuts st p) →
  Z.of_nat (length (st_chunks (feed_long g cuts st p))) ≤ MAX_CHUNKS →
  ∃ x', take_payload g sha_hash p x = Done x' ∧ runs x' (feed_long g cuts st p).
Proof.
  intros Hx Hp Hfit Hroom. unfold take_payload, feed_long in *. pose proof cl_chunk as Hk1.
  destruct (decide (chunk_num g ≤ length p)%nat) as [Hk|Hk];
    [|rewrite (proj2 (Z.leb_gt _ _)) by lia; by exists x].
  specialize (Hfit Hk).
  rewrite (proj2 (Z.leb_le _ _)), (rn_delay _ _ Hx) by lia.
  pose proof (rn_step _ _ Hx) as Hd.
  rewrite (cl_calculate p (count_packet x) (st_delay st) Hk Hp Hd).
  cbn [mbind outcome_bind].
  pose proof (cl_sorted p (st_delay st)) as Hs. pose proof (cl_range p (st_delay st) Hk) as Hb.
  pose proof (cl_delay p (st_delay st) Hd) as Hd'.
  unfold feed, fits in *. destruct (cuts p (st_delay st)) as [l d'].
  cbn [fst snd] in *. set (x1 := set_part _ _ x).
  assert (Hx1 : keeps x1 st).
  { destruct (rn_keeps _ _ Hx) as [Hl Hr Hlim]. split; [|done..].
    eapply ledger_frame; [exact Hl|..]; cbn; done || lia. }
  pose proof (pack_SHA_spec x1 st p (count_packet x) (Z.of_nat (length p)) l Hx1 ltac:(lia) Hp eq_refl) as HS.
  specialize (HS Hs Hb).
  assert (Hsum : ∀ x', sum_len x' = sum_len x1 →
      sum_len (add_sum (Z.of_nat (length p)) x') = u64 (st_total st + Z.of_nat (length p))).
  { intros x' E. cbn [sum_len add_sum]. rewrite E. cbn [sum_len set_part x1]. rewrite (rn_total _ _ Hx).
    unfold u64. apply Zplus_mod_idemp_l. }
  destruct l as [|y l]; specialize (HS Hfit); specialize (HS ltac:(by rewrite ?app_nil_r));
    destruct HS as (x'&E&Hl'&Hr'&Hlim'&Hdl'&Hsum'); rewrite E; cbn [mbind outcome_bind];
    eexists; (split; [reflexivity|]);
    (split; [split|..]); cbn [st_chunks st_rest st_delay st_total remain_data add_sum delay_time];
    rewrite ?Hdl'; try done; try (by apply Hsum); rewrite ?app_nil_r in Hl';
    (eapply ledger_frame; [exact Hl'|..]; cbn; done || lia).
Qed.

(** ** The whole run *)

Lemma main_start_spec : ∃ x, main_start = Done (Some x) ∧ runs x stream0.
Proof using Hmem H0 L.
  destruct (chunk_create_spec 0 Hmem) as (ck&Eck&Hck&Hlim). unfold main_start. rewrite Eck, Hmem.
  assert (Ekv : keyvalue_create 3 0 0 = keyvalue_create 3 SHANUM SHA).
  { unfold keyvalue_create. change (0 <=? 0) with true. change (SHANUM <=? 0) with false.
    change (s32 SHA) with SHA. done. }
  destruct (keyvalue_create_spec 3 SHANUM SHA Hmem) as (kv&Ek&Hst&Hstep&Hcap&Hrate&_); [done..|].
  rewrite Ekv, Ek.
  destruct (Hashmap_create_spec (D := keyptr) (key_valid kv []) (key_val kv) mode_hash 5 buckets Hmem)
    as (m&n&Em&_&Hm); [apply cl_buckets|].
  rewrite Em. cbn [mbind outcome_bind fmap option_fmap option_map]. eexists. split; [reflexivity|].
  split; [|done|cbn; lia|done]. split; [|done|done].
  exists [], ∅. split; cbn [keys map allocs save_len]; try done.
  intros v. rewrite lookup_empty. split; [by intros []|by intros ?%not_elem_of_nil].
Qed.

(** What is left at the end is one more chunk; it is not counted as saved. *)
Lemma remain_SHA_spec x st :
  runs x st → Z.of_nat (length (st_chunks st)) < MAX_CHUNKS →
  ∃ x', remain_SHA sha_hash x = Done x' ∧ save_len x' = save_len x ∧ sum_len x' = sum_len x.
Proof.
  intros [[Hl Hr Hlim] _ _ _] Hroom. unfold remain_SHA. rewrite Hmem.
  rewrite (sha_buffer _ (st_rest st)) by done. cbn [mbind outcome_bind].
  set (x1 := set_remain _ _ x).
  assert (Hl1 : ledger sha_hash x1 (st_chunks st))
    by (eapply ledger_frame; [exact Hl|..]; cbn; done || lia).
  destruct (ledger_get sha_hash sha_length x1 (st_chunks st) (st_rest st) Hl1) as (r&Hget&Hin).
  cbn [keys map allocs x1 set_remain] in Hget |- *. rewrite Hget. cbn [mbind outcome_bind].
  destruct r as [k|]; [by eexists|]. destruct Hl1 as (l&M&Hl1).
  assert (HM : M !! digest sha_hash (st_rest st) = None).
  { destruct (M !! digest sha_hash (st_rest st)) eqn:E; [|done].
    destruct (proj2 Hin); [|done]. apply (lg_dom _ _ _ _ _ Hl1). by rewrite E. }
  destruct (ledger_add sha_hash sha_length Hmem x1 _ l M (st_rest st) Hl1 Hroom HM) as (kv&p&m&n&Hp&Hset&_).
  cbn [keys map allocs x1 set_remain] in Hp, Hset. rewrite Hp. cbn [mbind outcome_bind deref].
  rewrite Hset. by eexists.
Qed.

Fixpoint all_fit (st : stream) (ps : list (list Z)) : Prop :=
  match ps with
  | [] => True
  | p :: ps => ((chunk_num g ≤ length p)%nat → fits cuts st p) ∧ all_fit (feed_long g cuts st p) ps
  end.
End tool.
