(* ===== verification/PackMain.v ===== *)
(** The analyser on a capture file: the loop of [main] reads back the records of
    the file, and the counters it ends with are those of the specification. *)
From S2P Require Import Prelude Rabin DArray KeyValue ChunkBuf Hashmap Pack PackCuts PackLedger PackSpec.
#[local] Open Scope Z_scope.

(** ** Capture files *)

Definition le_bytes (n : Z) : list Z :=
  [n mod 2 ^ 8; n / 2 ^ 8 mod 2 ^ 8; n / 2 ^ 16 mod 2 ^ 8; n / 2 ^ 24 mod 2 ^ 8].

(** A record: time stamp, length on the wire, frame. *)
Record packet := Packet { stamp : list Z; wire_len : list Z; frame : list Z }.
Definition packet_ok (r : packet) : Prop :=
  length (stamp r) = 8%nat ∧ length (wire_len r) = 4%nat ∧ 0 < Z.of_nat (length (frame r)) ≤ MAX_ETH_FRAME.
Definition encode (r : packet) : list Z :=
  stamp r ++ le_bytes (Z.of_nat (length (frame r))) ++ wire_len r ++ frame r.
(** The frame in the buffer of the tool. *)
Definition padded (f : list Z) : list Z :=
  f ++ replicate (Z.to_nat (MAX_ETH_FRAME - Z.of_nat (length f))) 0.

Lemma le32_le_bytes n l : 0 ≤ n < 2 ^ 32 → le32 (le_bytes n ++ l) = Done n.
Proof.
  intros Hn. unfold le32, le_bytes. cbn [app lookup list_lookup deref mbind outcome_bind]. f_equal.
  unfold u8. rewrite !Zmod_mod.
  rewrite (Z.mod_small (n / 2 ^ 24)) by (split; [apply Z.div_pos; lia|apply Z.div_lt_upper_bound; lia]).
  pose proof (Z.div_mod n (2 ^ 8)) as H1. pose proof (Z.div_mod (n / 2 ^ 8) (2 ^ 8)) as H2.
  pose proof (Z.div_mod (n / 2 ^ 16) (2 ^ 8)) as H3.
  rewrite Z.div_div in H2 by done. rewrite Z.div_div in H3 by done.
  change (2 ^ 8 * 2 ^ 8) with (2 ^ 16) in H2. change (2 ^ 16 * 2 ^ 8) with (2 ^ 24) in H3. lia.
Qed.

Section main.
  Context (sha_hash : list Z → list Z) `{AllocatorLaws} {C : Cutter} (g : globals).
  Implicit Types x : pack.

Lemma encode_length r : packet_ok r → length (encode r) = (16 + length (frame r))%nat.
Proof using. intros (H1&H2&_). unfold encode. rewrite !length_app, H1, H2. cbn. lia. Qed.

Lemma read_packet fuel r file x :
  packet_ok r →
  read_packets g sha_hash (S fuel) (encode r ++ file) x =
    (x ← printPcap g sha_hash (padded (frame r)) x; read_packets g sha_hash fuel file x).
Proof using.
  intros Hr. pose proof (encode_length r Hr) as Hl. destruct Hr as (Hst&Hw&Hf).
  cbn [read_packets]. rewrite (proj2 (Nat.ltb_ge _ _)) by (rewrite length_app; lia).
  unfold MAX_ETH_FRAME in *.
  assert (E1 : drop 8 (encode r ++ file) =
    le_bytes (Z.of_nat (length (frame r))) ++ wire_len r ++ frame r ++ file).
  { unfold encode. rewrite <- !app_assoc. by rewrite drop_app_length'. }
  assert (E2 : drop 16 (encode r ++ file) = frame r ++ file).
  { unfold encode. rewrite <- !app_assoc. rewrite !(app_assoc _ _ (frame r ++ file)).
    rewrite drop_app_length'; [done|]. rewrite !length_app, Hst, Hw. done. }
  rewrite E1, E2, le32_le_bytes by lia. cbn [mbind outcome_bind].
  rewrite Nat2Z.id, take_app_length, drop_app_length.
  rewrite (proj2 (Z.ltb_ge _ _)), Z.eqb_refl by lia. cbn [negb].
  unfold padded, MAX_ETH_FRAME. destruct (printPcap _ _ _ x) as [x'| |]; [|done..].
  cbn [mbind outcome_bind]. by rewrite (proj2 (Z.eqb_neq _ _)) by lia.
Qed.

(** The records of a file are read one after the other; the rest of the file,
    shorter than a record header, ends the loop. *)
Lemma read_packets_spec rs fuel tail x :
  Forall packet_ok rs → (length tail < 16)%nat → (length rs < fuel)%nat →
  read_packets g sha_hash fuel (concat (encode <$> rs) ++ tail) x =
    (x ← ofold (λ x r, printPcap g sha_hash (padded (frame r)) x) x rs; Done (Some x)).
Proof using.
  intros Hrs Ht. revert fuel x. induction Hrs as [|r rs Hr Hrs IH]; intros fuel x Hf;
    (destruct fuel as [|fuel]; [cbn in Hf; lia|]).
  - cbn [fmap list_fmap concat app read_packets ofold]. by rewrite (proj2 (Nat.ltb_lt _ _)).
  - rewrite fmap_cons. cbn [concat]. rewrite <- app_assoc, read_packet by done. cbn [ofold].
    destruct (printPcap _ _ _ x) as [x'| |]; [|done..]. cbn [mbind outcome_bind].
    apply IH. cbn in Hf. lia.
Qed.

Lemma records_length rs : Forall packet_ok rs → (length rs ≤ length (concat (encode <$> rs)))%nat.
Proof using.
  induction 1 as [|r rs Hr Hrs IH]; [done|]. rewrite fmap_cons. cbn [concat length].
  rewrite length_app, encode_length by done. lia.
Qed.

(** A frame's payload fits the buffer it is copied to. *)
Lemma frame_payload_length data p :
  frame_payload data = Done (Some p) → Z.of_nat (length p) ≤ PACKET_LEN.
Proof using.
  unfold frame_payload. intros E.
  repeat match type of E with
  | (if ?b then _ else _) = _ => destruct b eqn:?; [|discriminate E]
  | mbind _ ?m = _ => destruct m as [?| |] eqn:?; cbn [mbind outcome_bind] in E; [|discriminate E..]
  | _ => progress cbv zeta in E
  end.
  match type of E with (if PACKET_LEN <? ?n then _ else _) = _ =>
    destruct (Z.ltb_spec PACKET_LEN n) as [|Hle]; [discriminate E|] end.
  injection E as <-.
  rewrite length_map. unfold read_bytes in *. case_decide; [|done].
  match goal with Hx : Done (take _ _) = Done _ |- _ => injection Hx as <- end.
  rewrite length_take. lia.
Qed.

(** ** The counters *)

Section counters.
  Context (sha_length : ∀ c, length (sha_hash c) = Z.to_nat SHA).
  Context (Hmem : ∀ n, alloc_ok n = true).
  Context (cuts : list Z → nat → list nat * nat) {L : CutterLaws g cuts}.

Lemma feed_grows st p : ∃ cs, st_chunks (feed_long g cuts st p) = st_chunks st ++ cs.
Proof using.
  unfold feed_long, feed. destruct (decide _); [|by exists []; rewrite app_nil_r].
  destruct (cuts p (st_delay st)) as [[|? ?] ?]; cbn [st_chunks]; [by exists []; rewrite app_nil_r|by eexists].
Qed.
Lemma feeds_grow st ps : ∃ cs, st_chunks (foldl (feed_long g cuts) st ps) = st_chunks st ++ cs.
Proof using.
  revert st. induction ps as [|p ps IH]; intros st; [by exists []; rewrite app_nil_r|].
  cbn [foldl]. destruct (IH (feed_long g cuts st p)) as (cs&->). destruct (feed_grows st p) as (cs'&->).
  eexists. by rewrite <- app_assoc.
Qed.

(** The payloads of the frames, [None] for a frame that is passed over. *)
Lemma frames_spec rs os x st :
  Forall2 (λ r o, frame_payload (padded (frame r)) = Done o) rs os →
  runs sha_hash x st → all_fit g cuts st (omap id os) →
  Z.of_nat (length (st_chunks (foldl (feed_long g cuts) st (omap id os)))) ≤ MAX_CHUNKS →
  ∃ x', ofold (λ x r, printPcap g sha_hash (padded (frame r)) x) x rs = Done x' ∧
    runs sha_hash x' (foldl (feed_long g cuts) st (omap id os)).
Proof.
  intros Hrs. revert x st. induction Hrs as [|r o rs os Hr Hrs IH]; intros x st Hx Hfit Hn; [by exists x|].
  assert (E : printPcap g sha_hash (padded (frame r)) x =
    match o with Some p => take_payload g sha_hash p x | None => Done x end)
    by (unfold printPcap; by rewrite Hr).
  cbn [ofold]. rewrite E. clear E.
  destruct o as [p|]; [|by apply IH]. cbn [omap list_omap id all_fit foldl] in *.
  destruct Hfit as [Hp Hfit]. pose proof (frame_payload_length _ _ Hr) as Hlen.
  destruct (take_payload_spec sha_hash g cuts sha_length Hmem x st p Hx) as (x1&E&Hx1);
    [unfold PACKET_LEN in Hlen; lia|done| |].
  { destruct (feeds_grow (feed_long g cuts st p) (omap id os)) as (cs&E). rewrite E, length_app in Hn. lia. }
  rewrite E. cbn [mbind outcome_bind]. by apply IH.
Qed.

Lemma feeds_tile st ps :
  let st' := foldl (feed_long g cuts) st ps in
  let long := filter (λ p, chunk_num g ≤ length p)%nat ps in
  concat (st_chunks st') ++ st_rest st' = concat (st_chunks st) ++ st_rest st ++ concat long ∧
  st_total st' = st_total st + Z.of_nat (length (concat long)).
Proof using L.
  revert st. induction ps as [|p ps IH]; intros st; cbn zeta in *; [cbn; rewrite app_nil_r; split; [done|lia]|].
  cbn [foldl]. destruct (IH (feed_long g cuts st p)) as [-> ->]. rewrite filter_cons.
  unfold feed_long. destruct (decide _) as [Hp|Hp]; [|done].
  cbn [concat]. rewrite (app_assoc (concat _)), (feed_tiles g) by done.
  rewrite <- !app_assoc. split; [done|]. rewrite length_app.
  unfold feed. destruct (cuts p (st_delay st)) as [[|? ?] ?]; cbn [st_total]; lia.
Qed.

(** The counters, for any way of cutting that obeys the laws. *)
Lemma run_counts hdr rs os tail :
  length hdr = 24%nat → (length tail < 16)%nat → Forall packet_ok rs →
  Forall2 (λ r o, frame_payload (padded (frame r)) = Done o) rs os →
  all_fit g cuts stream0 (omap id os) →
  let st := foldl (feed_long g cuts) stream0 (omap id os) in
  let long := filter (λ p, chunk_num g ≤ length p)%nat (omap id os) in
  Z.of_nat (length (st_chunks st)) < MAX_CHUNKS →
  ∃ x, main g sha_hash (hdr ++ concat (encode <$> rs) ++ tail) = Done (Some x) ∧
    concat (st_chunks st) ++ st_rest st = concat long ∧
    sum_len x = u64 (Z.of_nat (length (concat long))) ∧
    save_len x = u64 (saved sha_hash [] (st_chunks st)).
Proof.
  intros Hh Ht Hrs Hos Hfit st long Hn.
  destruct (main_start_spec sha_hash g cuts Hmem) as (x0&E0&Hx0).
  destruct (frames_spec rs os x0 stream0 Hos Hx0 Hfit) as (x1&E1&Hx1);
    [fold st; lia|]. fold st in Hx1.
  destruct (remain_SHA_spec sha_hash sha_length Hmem x1 st Hx1 Hn) as (x2&E2&Hsave&Hsum).
  destruct (feeds_tile stream0 (omap id os)) as [Htile Htotal]. fold st long in Htile, Htotal.
  exists x2. split; [|split; [exact Htile|]].
  - unfold main. rewrite E0. cbn [mbind outcome_bind]. rewrite drop_app_length' by done.
    rewrite read_packets_spec; [|done|done|].
    + rewrite E1. cbn [mbind outcome_bind]. by rewrite E2.
    + rewrite !length_app. pose proof (records_length rs Hrs). lia.
  - rewrite Hsum, Hsave, (rn_total _ _ _ Hx1), Htotal.
    split; [done|]. destruct (rn_ledger _ _ _ (rn_keeps _ _ _ Hx1)) as (l&M&Hl). apply Hl.
Qed.
End counters.
End main.

(** ** Properties *)

(** C25. On a capture file of complete frames, each of at most [MAX_ETH_FRAME]
    bytes, whose payloads leave the remainder buffer large enough and give at
    most [MAX_CHUNKS] chunks, [main] of pack.c returns. The chunks whose digests
    it took, with the bytes left at the end, are the payloads of at least a
    window, end to end; [sum_len] is their number of bytes, and [save_len] that
    of the chunks whose digest an earlier chunk had. *)
Theorem main_counts (sha_hash : list Z → list Z) `{AllocatorLaws} (g : globals) hdr rs os tail :
  (∀ c, length (sha_hash c) = Z.to_nat SHA) → (∀ n, alloc_ok n = true) → tool_params g →
  length hdr = 24%nat → (length tail < 16)%nat → Forall packet_ok rs →
  Forall2 (λ r o, frame_payload (padded (frame r)) = Done o) rs os →
  all_fit g (payload_cuts g) stream0 (omap id os) →
  let st := foldl (feed_long g (payload_cuts g)) stream0 (omap id os) in
  let long := filter (λ p, chunk_num g ≤ length p)%nat (omap id os) in
  Z.of_nat (length (st_chunks st)) < MAX_CHUNKS →
  ∃ x, main (C := pack_cutter) g sha_hash (hdr ++ concat (encode <$> rs) ++ tail) = Done (Some x) ∧
    concat (st_chunks st) ++ st_rest st = concat long ∧
    sum_len x = u64 (Z.of_nat (length (concat long))) ∧
    save_len x = u64 (saved sha_hash [] (st_chunks st)).
Proof.
  intros Hsha Hmem Hg. pose proof (pack_cutter_laws g Hg) as L.
  apply (run_counts sha_hash (C := pack_cutter) g Hsha Hmem (payload_cuts g)).
Qed.
(** Two frames with the same payload, to port 80, and one to port 443. *)
Definition sample_frame (port : Z) : list Z :=
  replicate 12 0 ++ [8; 0] ++ [69; 0; 0; 140; 0; 0; 0; 0; 0; 6; 0; 0] ++ replicate 8 0 ++
  [4; 0; 0; port] ++ replicate 8 0 ++ [80; 24] ++ replicate 6 0 ++ sample_play.
Definition sample_packet (port : Z) : packet := Packet (replicate 8 0) (replicate 4 0) (sample_frame port).
Definition sample_packets : list packet := sample_packet <$> [80; 80; 187].
Definition toy_sha (c : list Z) : list Z := take 20 (c ++ replicate 20 0).
Definition sample_payloads : list (option (list Z)) := [Some sample_play; Some sample_play; None].
Lemma toy_sha_length c : length (toy_sha c) = Z.to_nat SHA.
Proof. unfold toy_sha. rewrite length_take, length_app, length_replicate. change (Z.to_nat SHA) with 20%nat. lia. Qed.
Lemma sample_packets_ok : Forall packet_ok sample_packets.
Proof.
  assert (Hp : ∀ port, packet_ok (sample_packet port))
    by (intros port; split; [done|]; split; [done|]; split; vm_compute; congruence).
  apply Forall_fmap, Forall_forall. intros port _. apply Hp.
Qed.
Lemma sample_payloads_read :
  Forall2 (λ r o, frame_payload (padded (frame r)) = Done o) sample_packets sample_payloads.
Proof. repeat constructor; vm_compute; reflexivity. Qed.
Lemma sample_fits : all_fit tool_globals (payload_cuts tool_globals) stream0 (omap id sample_payloads).
Proof. vm_compute. repeat split; intros; discriminate. Qed.

Lemma main_counts_witness :
  let st := foldl (feed_long tool_globals (payload_cuts tool_globals)) stream0 (omap id sample_payloads) in
  let long := filter (λ p, chunk_num tool_globals ≤ length p)%nat (omap id sample_payloads) in
  ∃ x, main (C := pack_cutter) tool_globals toy_sha (replicate 24 0 ++ concat (encode <$> sample_packets) ++ []) = Done (Some x) ∧
    concat (st_chunks st) ++ st_rest st = concat long ∧
    sum_len x = u64 (Z.of_nat (length (concat long))) ∧
    save_len x = u64 (saved toy_sha [] (st_chunks st)).
Proof.
  apply (main_counts toy_sha tool_globals (replicate 24 0) sample_packets sample_payloads []).
  - apply toy_sha_length.
  - intros n. reflexivity.
  - apply tool_globals_ok.
  - reflexivity.
  - apply Nat.ltb_lt. reflexivity.
  - apply sample_packets_ok.
  - apply sample_payloads_read.
  - apply sample_fits.
  - apply Z.ltb_lt. vm_compute. reflexivity.
Defined.
(** The chunks of the sample, and the bytes saved: the fourth chunk and the one
    the last payload leaves are repeated. *)
Example sample_chunks :
  let st := foldl (feed_long tool_globals (payload_cuts tool_globals)) stream0 (omap id sample_payloads) in
  length <$> st_chunks st = [32; 34; 34; 64; 34]%nat ∧ saved toy_sha [] (st_chunks st) = 64.
Proof. vm_compute. done. Qed.

(** The loop of [main] terminates on every file: each turn consumes a record
    header, so that fuel for one turn per byte is enough. *)
Theorem read_packets_terminates `{Allocator} {C : Cutter} (g : globals) (sha_hash : list Z → list Z) file x :
  read_packets g sha_hash (S (length file)) file x ≠ Done None.
Proof.
  assert (Hgen : ∀ fuel file x, (length file < fuel)%nat → read_packets g sha_hash fuel file x ≠ Done None).
  { clear. induction fuel as [|fuel IH]; intros file x Hf; [lia|]. cbn [read_packets].
    destruct (Nat.ltb_spec (length file) 16) as [|Hl]; [done|].
    destruct (le32 (drop 8 file)) as [n| |]; cbn [mbind outcome_bind]; [|done..].
    destruct (MAX_ETH_FRAME <? _); [done|]. destruct (negb _); [done|].
    destruct (printPcap _ _ _ x) as [x'| |]; cbn [mbind outcome_bind]; [|done..].
    destruct (_ =? 0); [done|]. apply IH. rewrite !length_drop. lia. }
  apply Hgen. lia.
Qed.

(** A record whose length says more than the file holds makes the tool use
    the buffer it has just freed (or overrun it). *)
Lemma read_packets_short_record `{Allocator} {C : Cutter} (g : globals) (sha_hash : list Z → list Z) fuel file n x :
  (16 ≤ length file)%nat → le32 (drop 8 file) = Done n → Z.of_nat (length file) - 16 < n →
  read_packets g sha_hash (S fuel) file x = Oops.
Proof.
  intros Hl Hn Hlt. cbn [read_packets]. rewrite (proj2 (Nat.ltb_ge _ _)) by lia. rewrite Hn.
  cbn [mbind outcome_bind]. destruct (MAX_ETH_FRAME <? _); [done|].
  rewrite length_take, length_drop, (proj2 (Z.eqb_neq _ n)) by lia. done.
Qed.
(** The first record of the sample file, without its last byte. *)
Definition short_file : list Z := removelast (encode (sample_packet 80)).
Definition sample_pack : pack :=
  Pack (Ck 0 LEN []) [] (KV 0 0 0 SHA 0 []) (DArr 0 0 8 300 []) 0 0 0 0 0.
Lemma read_packets_short_record_witness :
  read_packets (C := pack_cutter) tool_globals toy_sha 9 short_file sample_pack = Oops.
Proof.
  apply (read_packets_short_record (C := pack_cutter) tool_globals toy_sha 8 short_file 154 sample_pack).
  - apply Nat.leb_le. reflexivity.
  - reflexivity.
  - apply Z.ltb_lt. reflexivity.
Defined.
