(* ===== verification/CharSort.v ===== *)
(** What is left of pack.c: the merge sort over the bytes of a payload and the counts
    that [store_char] prints, and the table that [data_set] fills (the search in it
    lies behind a [return]). *)
From S2P Require Import Prelude Rabin ChunkBuf Pack.
#[local] Open Scope Z_scope.

(** ** Model *)

(** An element of an array, and a store into it. *)
Definition elem (a : list Z) (i : Z) : outcome Z := if decide (0 ≤ i) then deref (a !! Z.to_nat i) else Oops.
Definition put (a : list Z) (i v : Z) : outcome (list Z) :=
  if decide (0 ≤ i < Z.of_nat (length a)) then Done (<[Z.to_nat i := v]> a) else Oops.

(** [for (k = lo; k <= hi; k++)]: [n] turns are left. *)
Fixpoint merge_loop (n : nat) (aux a : list Z) (mid hi i j k : Z) : outcome (list Z) :=
  match n with
  | O => Done a
  | S n =>
      if mid <? i then v ← elem aux j; a ← put a k v; merge_loop n aux a mid hi i (j + 1) (k + 1)
      else if hi <? j then v ← elem aux i; a ← put a k v; merge_loop n aux a mid hi (i + 1) j (k + 1)
      else
        y ← elem aux j; x ← elem aux i;
        if y <? x then a ← put a k y; merge_loop n aux a mid hi i (j + 1) (k + 1)
        else a ← put a k x; merge_loop n aux a mid hi (i + 1) j (k + 1)
  end.

(** The array [a] and the global [aux], which is as long. *)
Definition merge (aux a : list Z) (lo mid hi : Z) : outcome (list Z * list Z) :=
  b ← read_range a lo (hi - lo + 1);
  if decide (0 ≤ lo ∧ hi < Z.of_nat (length aux)) then
    let aux := write_at (Z.to_nat lo) b aux in
    a ← merge_loop (Z.to_nat (hi - lo + 1)) aux a mid hi lo (mid + 1) lo; Done (aux, a)
  else Oops.

Fixpoint sort (fuel : nat) (aux a : list Z) (lo hi : Z) : outcome (list Z * list Z) :=
  match fuel with
  | O => Bug
  | S fuel =>
      if hi <=? lo then Done (aux, a)
      else
        let mid := lo + Z.quot (hi - lo) 2 in
        '(aux, a) ← sort fuel aux a lo mid;
        '(aux, a) ← sort fuel aux a (mid + 1) hi;
        merge aux a lo mid hi
  end.

(** The pairs that are printed: a byte and its number, when the next one differs. *)
Fixpoint count_loop (l : list Z) (cmp count : Z) : list (Z * Z) :=
  match l with
  | [] => []
  | c :: l => if cmp =? c then count_loop l cmp (count + 1) else (u8 cmp, count) :: count_loop l c 1
  end.

(** [junk] is what malloc left in [aux]; no pointer is tested. *)
Definition store_char `{Allocator} (n : nat) (junk playload : list Z) : outcome (list (Z * Z)) :=
  if alloc_ok n && alloc_ok (S n) then
    '(_, a) ← sort (S (length playload)) junk playload 0 (Z.of_nat (length playload) - 1);
    cmp ← elem a 0; Done (count_loop (tail a) cmp 1)
  else Oops.

(** The two characters of a keyword, or of a number. *)
Definition keywords : list (list Z) :=
  [[57;48];[55;97];[57;97];[69;68];[69;65];[72;69];[40;46];[46;46];[69;46];[80;46];[46;69];[46;80];[81;69];
   [69;84];[79;83];[83;84];[65;99];[85;115];[13;10];[106;112];[112;110];[110;103];[103;105];[105;102];
   [104;111];[72;79];[72;80];[104;112];[87;87];[111;108];[118;101];[71;69];[80;79];[119;119];[99;100];
   [72;84];[104;116];[122;104];[90;72]].
Definition numbers : list Z :=
  [0x850b; 0x0bf0; 0xdbfe; 0x00e2; 0xccc9; 0xc1cc; 0xbfc1; 0xc9bf; 0xc3c9; 0x4514; 0x5001; 0x4500; 0x1451;
   0x0014; 0x21ff; 0x83ff; 0x68ff; 0xff00; 0x0085; 0xffff; 0x0000; 0x8950; 0x504e; 0x4945; 0xffd8; 0xffe0;
   0xffe1; 0xffd9].
(** The entries of [data] from the start on; it has 300. *)
Definition data_set (g : globals) : list Z :=
  List.map (λ k, pack_hash k 2 (R g) (Q g)) keywords ++
  List.map (λ v, hash_turn (R g) (Q g) (hash_turn (R g) (Q g) 0 (Z.shiftr v 8)) (Z.land v 255)) numbers.

(** ** The sort *)

Lemma elem_at a (i : nat) v : a !! i = Some v → elem a (Z.of_nat i) = Done v.
Proof. intros H. unfold elem. rewrite decide_True, Nat2Z.id, H by lia. done. Qed.
Lemma put_at a (i : nat) v : (i < length a)%nat → put a (Z.of_nat i) v = Done (<[i := v]> a).
Proof. intros. unfold put. rewrite decide_True, Nat2Z.id by lia. done. Qed.

Lemma slice_0 (l : list Z) i : slice i 0 l = [].
Proof. apply take_0. Qed.

(** One element is put at [k]. *)
Lemma put_step (a : list Z) k v l n :
  (k < length a)%nat →
  take (S k) (<[k := v]> a) ++ l ++ drop (S k + n) (<[k := v]> a) = take k a ++ (v :: l) ++ drop (k + S n) a.
Proof.
  intros Hk. rewrite (take_S_r _ _ v), take_insert_ge, drop_insert_lt by (rewrite ?list_lookup_insert_eq; lia || done).
  rewrite <- app_assoc. cbn. do 4 f_equal. lia.
Qed.

Lemma merge_loop_spec n : ∀ aux a M H i j k,
  (i ≤ M ≤ j)%nat → (j ≤ H ≤ length aux)%nat → n = ((M - i) + (H - j))%nat → (k + n ≤ length a)%nat →
  merge_loop n aux a (Z.of_nat M - 1) (Z.of_nat H - 1) (Z.of_nat i) (Z.of_nat j) (Z.of_nat k) =
    Done (take k a ++ list_merge Z.le (slice i (M - i) aux) (slice j (H - j) aux) ++ drop (k + n) a).
Proof.
  induction n as [|n IH]; intros aux a M H i j k Hi Hj Hn Hk; cbn [merge_loop].
  { replace (M - i)%nat with 0%nat by lia. replace (H - j)%nat with 0%nat by lia.
    rewrite !slice_0, Nat.add_0_r. cbn [list_merge app]. by rewrite take_drop. }
  assert (∀ x, (x < length aux)%nat → ∃ v, aux !! x = Some v) as Hget by (intros x Hx; by apply lookup_lt_is_Some_2).
  replace (Z.of_nat j + 1) with (Z.of_nat (S j)) by lia. replace (Z.of_nat i + 1) with (Z.of_nat (S i)) by lia.
  replace (Z.of_nat k + 1) with (Z.of_nat (S k)) by lia.
  destruct (Z.ltb_spec (Z.of_nat M - 1) (Z.of_nat i)).
  - destruct (Hget j) as [v Hv]; [lia|]. rewrite (elem_at _ _ _ Hv). cbn. rewrite put_at by lia. cbn.
    rewrite IH by (rewrite ?length_insert; lia). replace (M - i)%nat with 0%nat by lia.
    rewrite slice_0, !list_merge_nil_l. replace (H - j)%nat with (S (H - S j)) by lia.
    rewrite (slice_cons _ _ _ _ Hv). f_equal. apply put_step. lia.
  - destruct (Hget i) as [x Hx]; [lia|].
    assert (slice i (M - i) aux = x :: slice (S i) (M - S i) aux) as El.
    { replace (M - i)%nat with (S (M - S i)) by lia. by apply slice_cons. }
    rewrite El. destruct (Z.ltb_spec (Z.of_nat H - 1) (Z.of_nat j)).
    + rewrite (elem_at _ _ _ Hx). cbn. rewrite put_at by lia. cbn. rewrite IH by (rewrite ?length_insert; lia).
      replace (H - j)%nat with 0%nat by lia. rewrite slice_0, !list_merge_nil_r. f_equal. apply put_step. lia.
    + destruct (Hget j) as [y Hy]; [lia|]. rewrite (elem_at _ _ _ Hx), (elem_at _ _ _ Hy). cbn.
      assert (slice j (H - j) aux = y :: slice (S j) (H - S j) aux) as Er.
      { replace (H - j)%nat with (S (H - S j)) by lia. by apply slice_cons. }
      rewrite Er, list_merge_cons. destruct (Z.ltb_spec y x).
      * rewrite put_at by lia. cbn. rewrite IH by (rewrite ?length_insert; lia).
        rewrite decide_False by lia. rewrite El. f_equal. apply put_step. lia.
      * rewrite put_at by lia. cbn. rewrite IH by (rewrite ?length_insert; lia).
        rewrite decide_True by lia. rewrite Er. f_equal. apply put_step. lia.
Qed.

Lemma list_cut lo H (a : list Z) : (lo ≤ H ≤ length a)%nat → a = take lo a ++ slice lo (H - lo) a ++ drop H a.
Proof.
  intros HH. rewrite app_assoc. unfold slice. rewrite <- (take_drop H a) at 1. f_equal.
  rewrite take_take_drop. f_equal. lia.
Qed.

Lemma merge_spec aux lo M H (p l r q : list Z) :
  length p = lo → (lo + length l = M)%nat → (M + length r = H)%nat → (H + length q = length aux)%nat → Z.of_nat H < 2 ^ 31 →
  ∃ aux', merge aux (p ++ (l ++ r) ++ q) (Z.of_nat lo) (Z.of_nat M - 1) (Z.of_nat H - 1) =
    Done (aux', p ++ list_merge Z.le l r ++ q) ∧ length aux' = length aux.
Proof.
  intros Hp Hl Hr Hq HH. unfold merge. set (a := p ++ (l ++ r) ++ q).
  assert (length (l ++ r) = H - lo)%nat as Hlr by (rewrite length_app; lia).
  assert (read_range a (Z.of_nat lo) (Z.of_nat H - 1 - Z.of_nat lo + 1) = Done (l ++ r)) as ->.
  { replace (_ + 1) with (Z.of_nat (H - lo)) by lia. unfold read_range. rewrite decide_True by lia.
    unfold u64. rewrite Nat2Z.id, Z.mod_small, Nat2Z.id by lia. unfold a. rewrite <- Hp, drop_app_length, Hp.
    unfold read_bytes. rewrite decide_True by (rewrite length_app; lia). f_equal. by rewrite <- Hlr, take_app_length. }
  cbn. rewrite decide_True by lia. rewrite Nat2Z.id.
  assert (length (write_at lo (l ++ r) aux) = length aux) as Haux by (rewrite length_write_at; lia).
  eexists. split; [|exact Haux]. replace (Z.of_nat M - 1 + 1) with (Z.of_nat M) by lia.
  rewrite merge_loop_spec by (rewrite ?Haux; unfold a; rewrite ?length_app in *; lia). cbn. f_equal. f_equal.
  assert (∀ i n, (i + n ≤ H - lo)%nat → slice (lo + i) n (write_at lo (l ++ r) aux) = slice i n (l ++ r)) as Hs.
  { intros i n Hi. apply slice_write_at_in. lia. }
  replace M with (lo + length l)%nat at 2 by lia. rewrite <- (Nat.add_0_r lo) at 2.
  rewrite !Hs by lia. rewrite slice_app_l by lia.
  replace (slice (length l) (H - M) (l ++ r)) with r; [|by rewrite <- (Nat.add_0_r (length l)), slice_app_r; symmetry; apply take_ge; cbn; lia].
  replace (slice 0 (M - lo) l) with l by (symmetry; apply take_ge; cbn; lia).
  unfold a. rewrite <- Hp at 1. rewrite take_app_length. f_equal. f_equal.
  rewrite app_assoc. apply drop_app_length'. rewrite length_app. lia.
Qed.

Lemma sort_spec fuel : ∀ aux (p l q : list Z) lo H,
  length p = lo → (lo + length l = H)%nat → (H + length q = length aux)%nat → (length l < fuel)%nat → Z.of_nat H < 2 ^ 31 →
  ∃ aux' l', sort fuel aux (p ++ l ++ q) (Z.of_nat lo) (Z.of_nat H - 1) = Done (aux', p ++ l' ++ q) ∧
    length aux' = length aux ∧ Sorted Z.le l' ∧ l' ≡ₚ l.
Proof.
  induction fuel as [|fuel IH]; intros aux p l q lo H Hp Hl Hq Hfuel HH; [lia|]. cbn [sort].
  destruct (Z.leb_spec (Z.of_nat H - 1) (Z.of_nat lo)).
  - exists aux, l. split; [done|]. split; [done|]. split; [|done]. destruct l as [|x [|? ?]]; [constructor|repeat constructor|cbn in *; lia].
  - set (m := S ((length l - 1) / 2)). pose proof (Nat.div_lt (length l - 1) 2 ltac:(lia) ltac:(lia)).
    assert (0 < m < length l)%nat as Hm by (unfold m; lia).
    replace (Z.of_nat lo + Z.quot (Z.of_nat H - 1 - Z.of_nat lo) 2) with (Z.of_nat (lo + m) - 1).
    2: { rewrite Z.quot_div_nonneg by lia. replace (Z.of_nat H - 1 - Z.of_nat lo) with (Z.of_nat (length l - 1)) by lia.
         change 2 with (Z.of_nat 2). rewrite <- Nat2Z.inj_div. unfold m. lia. }
    assert (p ++ l ++ q = p ++ take m l ++ drop m l ++ q) as -> by by rewrite (app_assoc (take m l)), take_drop.
    assert (length (take m l) = m ∧ length (drop m l) = length l - m)%nat as [Ht Hd] by (rewrite length_take, length_drop; lia).
    destruct (IH aux p (take m l) (drop m l ++ q) lo (lo + m)%nat) as (aux1&l1&->&Ha1&Hs1&Hl1);
      [done|lia|rewrite length_app; lia|lia|lia|]. cbn [mbind outcome_bind].
    replace (Z.of_nat (lo + m) - 1 + 1) with (Z.of_nat (lo + m)) by lia.
    pose proof (Permutation_length Hl1) as Hl1'.
    destruct (IH aux1 (p ++ l1) (drop m l) q (lo + m)%nat H) as (aux2&l2&E2&Ha2&Hs2&Hl2); [rewrite length_app; lia|lia|lia|lia|lia|].
    rewrite <- app_assoc in E2. rewrite E2. cbn [mbind outcome_bind].
    pose proof (Permutation_length Hl2) as Hl2'. rewrite <- app_assoc, (app_assoc l1).
    destruct (merge_spec aux2 lo (lo + m) H p l1 l2 q) as (aux3&->&Ha3); [done|lia|lia|lia|done|].
    exists aux3, (list_merge Z.le l1 l2). split; [done|]. split; [lia|]. split.
    + apply Sorted_list_merge; [intros x y; lia|done|done].
    + by rewrite merge_Permutation, Hl1, Hl2, take_drop.
Qed.

(** ** The counts *)

Definition occurrences (c : Z) (l : list Z) : nat := length (filter (c =.) l).
Lemma occurrences_cons c x l : occurrences c (x :: l) = ((if decide (c = x) then 1 else 0) + occurrences c l)%nat.
Proof. unfold occurrences. rewrite filter_cons. by destruct (decide (c = x)). Qed.
Lemma occurrences_none c l : c ∉ l → occurrences c l = 0%nat.
Proof.
  induction l as [|x l IH]; [done|]. intros [? ?]%not_elem_of_cons. rewrite occurrences_cons, decide_False, IH; done.
Qed.

Lemma count_loop_spec l : ∀ cmp k, StronglySorted Z.le (cmp :: l) → ∃ vs v,
  StronglySorted Z.lt (vs ++ [v]) ∧ (∀ c, c ∈ vs ++ [v] ↔ c ∈ cmp :: l) ∧
  count_loop l cmp k =
    List.map (λ c, (u8 c, (if decide (c = cmp) then k - 1 else 0) + Z.of_nat (occurrences c (cmp :: l)))) vs.
Proof.
  induction l as [|c l IH]; intros cmp k Hs.
  { exists [], cmp. split; [by repeat constructor|]. done. }
  apply StronglySorted_inv in Hs as [Hs Hcmp]. cbn [count_loop]. destruct (Z.eqb_spec cmp c) as [->|Hne].
  - destruct (IH c (k + 1) Hs) as (vs&v&Hv&Hin&->). exists vs, v. split; [done|]. split.
    { intros x. rewrite Hin, !elem_of_cons. tauto. }
    apply map_ext. intros x. f_equal. rewrite (occurrences_cons x c (c :: l)). destruct (decide (x = c)); lia.
  - destruct (IH c 1 Hs) as (vs&v&Hv&Hin&->). exists (cmp :: vs), v. apply StronglySorted_inv in Hs as [_ Hc].
    apply Forall_cons in Hcmp as [Hlt Hcmp].
    assert (∀ x, x ∈ c :: l → cmp < x) as Hall.
    { intros x [->|Hx]%elem_of_cons; [lia|]. eapply Forall_forall in Hc; [|exact Hx]. cbn in Hc. lia. }
    split; [|split].
    + cbn. constructor; [done|]. apply Forall_forall. intros x Hx. by apply Hall, Hin.
    + intros x. cbn. rewrite (elem_of_cons _ x cmp), Hin, !elem_of_cons. tauto.
    + cbn [List.map]. f_equal.
      * f_equal. rewrite occurrences_cons, occurrences_none, !decide_True by (done || intros Hx%Hall; lia). lia.
      * apply map_ext_in. intros x Hx. assert (cmp < x) as Hx'.
        { apply Hall, Hin, elem_of_app. left. by apply list_elem_of_In. }
        f_equal. rewrite (occurrences_cons x cmp), !(decide_False (P := x = cmp)) by lia. destruct (decide (x = c)); lia.
Qed.

(** For a payload that is not empty, [store_char] prints the byte values that occur, the
    smallest first as signed characters, each with its number: all but the largest,
    whose count is not printed when the loop ends. *)
Theorem store_char_counts `{Allocator} n junk playload :
  alloc_ok n = true → alloc_ok (S n) = true → length junk = length playload → playload ≠ [] →
  Z.of_nat (length playload) < 2 ^ 31 →
  ∃ vs v, StronglySorted Z.lt (vs ++ [v]) ∧ (∀ c, c ∈ vs ++ [v] ↔ c ∈ playload) ∧
    store_char n junk playload = Done (List.map (λ c, (u8 c, Z.of_nat (occurrences c playload))) vs).
Proof.
  intros H1 H2 Hj Hne Hlen. unfold store_char. rewrite H1, H2. cbn [andb].
  destruct (sort_spec (S (length playload)) junk [] playload [] 0 (length playload)) as (aux&l&E&_&Hs&Hp);
    [done|lia|cbn; lia|lia|lia|]. cbn [app] in E. rewrite !app_nil_r in E. change (Z.of_nat 0) with 0 in E. rewrite E.
  destruct l as [|c l]; [by apply Permutation_nil_l in Hp|]. cbn. change (elem (c :: l) 0) with (Done c). cbn.
  destruct (count_loop_spec l c 1) as (vs&v&Hv&Hin&->); [apply Sorted_StronglySorted; [intros ???; lia|done]|].
  exists vs, v. split; [done|]. split; [intros x; by rewrite Hin, Hp|]. f_equal. apply map_ext. intros x. f_equal.
  unfold occurrences. rewrite Hp. destruct (decide (x = c)); lia.
Qed.
Lemma store_char_counts_witness : ∃ vs v, StronglySorted Z.lt (vs ++ [v]) ∧ (∀ c, c ∈ vs ++ [v] ↔ c ∈ [5; -1; 5; 3; 5]) ∧
  store_char (H := zero_allocator) 0 [0; 0; 0; 0; 0] [5; -1; 5; 3; 5] =
    Done (List.map (λ c, (u8 c, Z.of_nat (occurrences c [5; -1; 5; 3; 5]))) vs).
Proof. by apply (store_char_counts (H := zero_allocator) 0 [0; 0; 0; 0; 0] [5; -1; 5; 3; 5]). Defined.

(** Of three values the largest, met most often, is missing. *)
Example store_char_run : store_char (H := zero_allocator) 0 [0; 0; 0; 0; 0] [5; -1; 5; 3; 5] = Done [(255, 1); (3, 1)].
Proof. vm_compute. reflexivity. Qed.

(** The table fits its 300 entries, and none of them is the zero that ends it but the one
    of the number 0. *)
Lemma data_set_fits : (length (data_set (precalculate pack_globals0)) ≤ 300)%nat ∧
  length (filter (0 =.) (data_set (precalculate pack_globals0))) = 1%nat.
Proof. split; [apply Nat.leb_le|]; vm_compute; reflexivity. Qed.
