(* ===== verification/WinnPack.v ===== *)
(** The other analyser, model/c-skeleton/src/winn_pack.c: it is pack.c with
    another choice of cuts (winnowing: the position of the largest hash of every
    sixteen) and a smaller table. *)
From S2P Require Import Prelude Rabin DArray KeyValue ChunkBuf Hashmap Pack.
#[local] Open Scope Z_scope.

Definition WINDOW : Z := 16.
Definition THRESHOLD : Z := 16.
Definition winn_globals0 : globals := mk_globals 1 1 6 1 1048583 16.

(** The globals [min_index], [min_hash] and [window]. *)
Record winn := Winn { min_index : Z; min_hash : Z; win : Z }.
Definition winn0 : winn := Winn 0 0 WINDOW.
Implicit Types w : winn.

(** A position and its hash. *)
Definition see (i txthash : Z) w : winn :=
  if min_hash w <=? txthash then Winn i txthash (s32 (win w - 1))
  else Winn (min_index w) (min_hash w) (s32 (win w - 1)).

(** The window that ends with the first position. *)
Definition close_first (part : part_point) w : outcome (part_point * winn) :=
  if win w =? 0 then part ← part_set part (min_index w); Done (part, winn0) else Done (part, w).
(** A window that ends later: its position is taken when it is the first, or far
    enough from the last one taken. *)
Definition offer (part : part_point) w : outcome part_point :=
  part ← (if Z.of_nat (length part) =? 2 then part_set part (min_index w) else Done part);
  if (2 <? Z.of_nat (length part)) && (THRESHOLD <=? s64 (min_index w - List.last part 0))
  then part_set part (min_index w) else Done part.
Definition close_window (part : part_point) w : outcome (part_point * winn) :=
  if win w =? 0 then part ← offer part w; Done (part, winn0) else Done (part, w).

Section winnowing.
  Context (g : globals).

Fixpoint winn_loop (playload : list Z) (n i : nat) (txthash : Z) (part : part_point) w
    : outcome (part_point * winn) :=
  match n with
  | O => Done (part, w)
  | S n =>
    let txthash := slide g txthash (byte_at playload (i - chunk_num g)) (byte_at playload i) in
    '(part, w) ← close_window part (see (Z.of_nat i) txthash w);
    winn_loop playload n (S i) txthash part w
  end.

(** What is left of a window at the end of the payload is dropped. *)
Definition winn_calculate_part (playload : list Z) (count_packet : Z) (part : part_point) w
    : outcome (part_point * winn) :=
  let txthash := pack_hash playload (chunk_num g) (R g) (Q g) in
  part ← part_set part count_packet;
  part ← part_set part (Z.of_nat (length playload));
  '(part, w) ← close_first part (see (Z.of_nat (chunk_num g) - 1) txthash w);
  '(part, w) ← winn_loop playload (length playload - chunk_num g) (chunk_num g) txthash part w;
  if (min_index w =? 0) && (min_hash w =? 0) && (win w =? WINDOW) then Done (part, w) else Done (part, winn0).
End winnowing.

(** The globals of the winnowing are back at their start after every payload
    ([winn_state] of WinnCuts), so that the tool need not keep them. *)
Definition winn_cutter : Cutter :=
  {| buckets := 997; counted := 1;
     calculate_part g playload count_packet part delay :=
       '(part, _) ← winn_calculate_part g playload count_packet part winn0; Done (part, delay) |}.

(** ** The tool

    Its functions are those of pack.c, statement by statement, with these globals,
    buckets and cuts. *)
Definition winn_tool : globals := precalculate winn_globals0.

Section Tool.
Context `{Allocator} (sha_hash : list Z → list Z).

Definition winn_mode_hash : keyvalue → keyptr → outcome Z := Hashmap_mode_hash (C := winn_cutter).
Definition winn_calculate_sha : nat → list Z → Z → Z → outcome (list Z * nat) := calculate_sha sha_hash.
Definition winn_SHA : list Z → pack → outcome pack := pack_SHA (C := winn_cutter) sha_hash.
Definition winn_remain_SHA : pack → outcome pack := remain_SHA (C := winn_cutter) sha_hash.
Definition winn_printPcap : list Z → pack → outcome pack := printPcap (C := winn_cutter) winn_tool sha_hash.
Definition winn_main : list Z → outcome (option pack) := main (C := winn_cutter) winn_tool sha_hash.
End Tool.
