(* ===== verification/WinnCuts.v ===== *)
(** The cuts of the winnowing analyser: one position of the largest hash out of
    every sixteen, unless it is too close to the cut before. *)
From S2P Require Import Prelude Rabin DArray KeyValue ChunkBuf Hashmap Pack PackCuts WinnPack.
#[local] Open Scope Z_scope.

(** ** Specification *)

(** The last of the largest values of [h] on [i .. i + n]. *)
Definition last_max (h : nat → Z) (i n : nat) : nat :=
  foldl (λ b j, if h b <=? h j then j else b) i (seq (S i) n).
(** One candidate for each of [n] windows of sixteen positions from [i] on. *)
Fixpoint candidates (h : nat → Z) (n i : nat) : list nat :=
  match n with O => [] | S n => last_max h i 15 :: candidates h n (i + 16) end.
(** The candidates that are far enough from the last one taken. *)
Fixpoint apart (last : option nat) (l : list nat) : list nat :=
  match l with
  | [] => []
  | c :: l =>
    if match last with None => true | Some b => (b + 16 <=? c)%nat end
    then c :: apart (Some c) l else apart last l
  end.
Definition winn_cuts (g : globals) (p : list Z) : list nat :=
  apart None (candidates (window g p) ((length p + 1 - chunk_num g) / 16) (chunk_num g - 1)).

Lemma last_max_snoc h i n :
  last_max h i (S n) = if h (last_max h i n) <=? h (i + S n)%nat then (i + S n)%nat else last_max h i n.
Proof. unfold last_max. rewrite seq_S, foldl_app. cbn [foldl]. by rewrite Nat.add_succ_comm. Qed.

Lemma last_max_spec h i n :
  (i ≤ last_max h i n ≤ i + n)%nat ∧
  ∀ j, (i ≤ j ≤ i + n)%nat → h j ≤ h (last_max h i n) ∧ ((last_max h i n < j)%nat → h j < h (last_max h i n)).
Proof.
  induction n as [|n [IHr IH]].
  { unfold last_max. cbn. split; [lia|]. intros j Hj. replace j with i by lia. lia. }
  rewrite last_max_snoc. destruct (Z.leb_spec (h (last_max h i n)) (h (i + S n)%nat)) as [Hle|Hlt]; split; try lia.
  - intros j Hj. destruct (decide (j = i + S n)%nat) as [->|Hne]; [lia|].
    destruct (IH j ltac:(lia)). lia.
  - intros j Hj. destruct (decide (j = i + S n)%nat) as [->|Hne]; [lia|]. apply IH. lia.
Qed.

(** ** Distances *)

Lemma candidates_range h n i c :
  c ∈ candidates h n i → (i ≤ c < i + 16 * n)%nat.
Proof.
  revert i. induction n as [|n IH]; intros i; cbn [candidates]; [by intros ?%not_elem_of_nil|].
  pose proof (last_max_spec h i 15) as [Hr _].
  intros [->|Hc%IH]%elem_of_cons; lia.
Qed.
Lemma apart_sub last l c : c ∈ apart last l → c ∈ l.
Proof.
  revert last. induction l as [|d l IH]; intros last; cbn [apart]; [done|].
  destruct (match last with None => _ | Some _ => _ end).
  - intros [->|Hc%IH]%elem_of_cons; [by left|by right].
  - intros Hc%IH. by right.
Qed.

(** A cut, and those after it: the next one is 16 to 47 positions on, and when
    there is none fewer than 47 positions are left. *)
Fixpoint spaced (lo hi : nat) (before : nat) (l : list nat) (stop : nat) : Prop :=
  match l with
  | [] => (stop ≤ before + hi)%nat
  | c :: l => (before + lo ≤ c ≤ before + hi)%nat ∧ spaced lo hi c l stop
  end.

(** [last] is in one of the two windows before [i]. *)
Lemma apart_spaced h n i last stop :
  (last < i ≤ last + 32)%nat → (stop < i + 16 * n + 16)%nat →
  spaced 16 47 last (apart (Some last) (candidates h n i)) stop.
Proof.
  revert i last. induction n as [|n IH]; intros i last Hi Hs; cbn [candidates apart spaced]; [lia|].
  pose proof (last_max_spec h i 15) as [Hr _]. set (c := last_max h i 15) in *.
  destruct (Nat.leb_spec (last + 16) c) as [Hc|Hc]; cbn [spaced]; [split; [lia|]|]; apply IH; lia.
Qed.

Lemma spaced_sorted lo hi b l stop :
  (0 < lo)%nat → spaced lo hi b l stop → StronglySorted (λ i j, i < j)%nat (b :: l).
Proof.
  intros Hlo. revert b. induction l as [|c l IH]; intros b Hs; [by repeat constructor|].
  destruct Hs as [Hc Hs]. pose proof (IH c Hs) as Hs'. constructor; [done|].
  apply StronglySorted_inv in Hs' as [_ Hf]. constructor; [lia|].
  eapply Forall_impl; [exact Hf|]. cbn. lia.
Qed.

(** ** The loop *)

Section loop.
  Context (g : globals) (Hg : tool_params g).

(** [m] positions of a window that starts at [i] have been seen. *)
Definition seen (h : nat → Z) (i m : nat) : winn :=
  match m with
  | O => winn0
  | S m => Winn (Z.of_nat (last_max h i m)) (h (last_max h i m)) (16 - Z.of_nat (S m))
  end.

Lemma see_next h i m :
  (m < 16)%nat → (∀ j, 0 ≤ h j) → see (Z.of_nat (i + m)) (h (i + m)%nat) (seen h i m) = seen h i (S m).
Proof using.
  intros Hm Hh. destruct m as [|m]; cbn [seen]; unfold see; cbn [min_index min_hash win winn0].
  - rewrite Nat.add_0_r, (proj2 (Z.leb_le 0 _)) by apply Hh. done.
  - rewrite last_max_snoc, s32_small by lia. destruct (_ <=? _); f_equal; lia.
Qed.

Lemma part_set_more part z : Z.of_nat (length part) < PLEN → part_set part z = Done (part ++ [z]).
Proof using. intros Hl. unfold part_set. by rewrite (proj2 (Z.leb_gt _ _)). Qed.

(** The array of cuts, behind the number and the length of the packet. *)
Definition entries (a b : Z) (l : list nat) : part_point := a :: b :: (Z.of_nat <$> l).
Lemma entries_length a b l : length (entries a b l) = S (S (length l)).
Proof using. cbn. by rewrite length_fmap. Qed.
Lemma entries_snoc a b l c : entries a b l ++ [Z.of_nat c] = entries a b (l ++ [c]).
Proof using. unfold entries. by rewrite fmap_app. Qed.
Lemma entries_last a b l x : List.last (entries a b (l ++ [x])) 0 = Z.of_nat x.
Proof using. rewrite <- entries_snoc. apply List.last_last. Qed.

Lemma offer_spec a b l h i :
  Z.of_nat (last_max h i 15) < 2 ^ 17 → Forall (λ x, Z.of_nat x < 2 ^ 17) l →
  Z.of_nat (length l) + 3 ≤ PLEN →
  offer (entries a b l) (seen h i 16) = Done (entries a b (l ++ apart (last l) [last_max h i 15])).
Proof using.
  intros Hc Hl Hn. unfold offer. cbn [seen min_index]. set (c := last_max h i 15) in *.
  destruct l as [|x l _] using rev_ind.
  - cbn [last apart app]. change (Z.of_nat (length (entries a b [])) =? 2) with true. cbv iota.
    rewrite part_set_more by (rewrite entries_length; cbn [length] in *; lia). cbn [mbind outcome_bind].
    rewrite entries_snoc, (entries_last a b []), Z.sub_diag. by rewrite andb_false_r.
  - apply Forall_app in Hl as [_ [Hx _]%Forall_cons].
    rewrite !entries_length, !length_app in *. cbn [length] in *.
    rewrite (proj2 (Z.eqb_neq _ 2)) by lia. cbn [mbind outcome_bind].
    rewrite entries_length, length_app. cbn [length].
    rewrite (proj2 (Z.ltb_lt 2 _)), entries_last, s64_small by lia. cbn [andb].
    rewrite last_snoc. cbn [apart]. unfold THRESHOLD.
    destruct (Z.leb_spec 16 (Z.of_nat c - Z.of_nat x)), (Nat.leb_spec (x + 16) c); try lia.
    + rewrite part_set_more by (rewrite entries_length, length_app; cbn [length]; lia).
      by rewrite entries_snoc.
    + by rewrite app_nil_r.
Qed.

Lemma apart_app l k b : apart b (l ++ k) = apart b l ++ apart (from_option Some b (last (apart b l))) k.
Proof using.
  revert b. induction l as [|c l IH]; intros b; [done|]. cbn [app apart].
  destruct (match b with None => _ | Some _ => _ end); rewrite IH; [|done].
  cbn [app]. do 2 f_equal. rewrite last_cons. by destruct (last _).
Qed.

Lemma window_nonneg p i : 0 ≤ window g p i.
Proof using Hg. unfold window. rewrite (pack_hash_poly g Hg). by apply Z.mod_pos_bound. Qed.

Lemma apart_length b l : (length (apart b l) ≤ length l)%nat.
Proof using.
  revert b. induction l as [|c l IH]; intros b; [done|]. cbn [apart].
  destruct (match b with None => _ | Some _ => _ end); cbn [length]; [specialize (IH (Some c))|specialize (IH b)]; lia.
Qed.
(** The loop from position [i + m], [m] positions into the window at [i]. *)
Lemma winn_loop_spec p n i m a b l :
  (m < 16)%nat → (chunk_num g ≤ i + m)%nat → (i + m + n ≤ length p)%nat → Z.of_nat (length p) < 2 ^ 16 →
  Forall (λ x, Z.of_nat x < 2 ^ 17) l → Z.of_nat (length l + (m + n) / 16) + 2 ≤ PLEN →
  let k := ((m + n) / 16)%nat in
  winn_loop g p n (i + m) (window g p (i + m - 1)) (entries a b l) (seen (window g p) i m) =
    Done (entries a b (l ++ apart (last l) (candidates (window g p) k i)),
          seen (window g p) (i + 16 * k) ((m + n) mod 16)).
Proof.
  intros Hm Hi Hn Hp Hl Hroom k. subst k. revert i m l Hm Hi Hn Hl Hroom.
  induction n as [|n IH]; intros i m l Hm Hi Hn Hl Hroom.
  { cbn [winn_loop]. rewrite Nat.add_0_r, Nat.div_small, Nat.mod_small by lia. cbn [candidates apart].
    by rewrite app_nil_r, Nat.mul_0_r, Nat.add_0_r. }
  cbn [winn_loop]. rewrite (slide_next g Hg) by lia.
  rewrite see_next by (lia || intros; apply window_nonneg). unfold close_window.
  replace (m + S n)%nat with (S m + n)%nat in * by lia.
  destruct (decide (S m = 16)%nat) as [E|E].
  - replace (win _ =? 0) with true by (symmetry; apply Z.eqb_eq; cbn; lia). rewrite E in *.
    assert (Ed : ((16 + n) / 16 = S (n / 16))%nat) by (exact (Nat.div_add_l 1 16 n ltac:(lia))).
    assert (Em : ((16 + n) mod 16 = n mod 16)%nat) by (rewrite (Nat.add_comm 16 n); apply (Nat.Div0.mod_add n 1 16)).
    rewrite Ed, Em in *.
    pose proof (last_max_spec (window g p) i 15) as [Hc _].
    rewrite offer_spec by (done || lia). cbn [mbind outcome_bind candidates].
    pose proof (apart_app [last_max (window g p) i 15] (candidates (window g p) (n / 16) (i + 16)) (last l)) as Ha.
    cbn [app] in Ha. rewrite Ha, app_assoc. clear Ha. set (l' := l ++ apart (last l) [last_max (window g p) i 15]).
    replace (from_option Some (last l) _) with (last l') by (subst l'; rewrite last_app; by destruct (last (apart _ _))).
    specialize (IH (i + 16)%nat 0%nat l'). rewrite !Nat.add_0_r, !Nat.add_0_l in IH.
    replace (S (i + m)) with (i + 16)%nat by lia. replace (i + m)%nat with (i + 16 - 1)%nat at 1 by lia.
    change winn0 with (seen (window g p) (i + 16) 0). rewrite IH; [do 2 f_equal; f_equal; lia|lia..| |].
    + subst l'. apply Forall_app. split; [done|]. apply Forall_forall.
      intros x [->|Hx%not_elem_of_nil]%apart_sub%elem_of_cons; [lia|done].
    + subst l'. rewrite length_app. pose proof (apart_length (last l) [last_max (window g p) i 15]) as H1.
      cbn [length] in H1. lia.
  - replace (win _ =? 0) with false by (symmetry; apply Z.eqb_neq; cbn; lia). cbn [mbind outcome_bind].
    replace (S (i + m)) with (i + S m)%nat by lia. replace (i + m)%nat with (i + S m - 1)%nat at 1 by lia.
    apply IH; lia || done.
Qed.

(** ** A payload *)

Lemma candidates_length h n i : length (candidates h n i) = n.
Proof using. revert i. induction n as [|n IH]; intros i; [done|]. cbn. by rewrite IH. Qed.

(** The windows of a payload, and where its cuts are. *)
Definition windows (p : list Z) : nat := (length p + 1 - chunk_num g) / 16.

Lemma winn_cuts_first p :
  (1 ≤ chunk_num g ≤ length p)%nat →
  match winn_cuts g p with
  | [] => (length p < chunk_num g + 15)%nat
  | c :: l => (chunk_num g - 1 ≤ c < chunk_num g + 15)%nat ∧ spaced 16 47 c l (length p - 1)
  end.
Proof using.
  intros Hk. unfold winn_cuts. set (N := (length p + 1 - chunk_num g)%nat).
  pose proof (Nat.div_mod_eq N 16) as HN. pose proof (Nat.mod_upper_bound N 16 ltac:(lia)) as Hlt.
  destruct (N / 16)%nat as [|n]; cbn [candidates apart]; [lia|].
  pose proof (last_max_spec (window g p) (chunk_num g - 1) 15) as [Hc _]. split; [lia|].
  apply apart_spaced; lia.
Qed.

Lemma winn_cuts_windows p c :
  c ∈ winn_cuts g p → ∃ j, (j < windows p)%nat ∧
    let i := (chunk_num g - 1 + 16 * j)%nat in
    (i ≤ c < i + 16)%nat ∧ ∀ x, (i ≤ x < i + 16)%nat →
      window g p x ≤ window g p c ∧ ((c < x)%nat → window g p x < window g p c).
Proof using.
  intros Hc%apart_sub. fold (windows p) in Hc. revert Hc. generalize (chunk_num g - 1)%nat as i.
  induction (windows p) as [|n IH]; intros i; cbn [candidates]; [by intros ?%not_elem_of_nil|].
  intros [->|Hc]%elem_of_cons.
  - exists 0%nat. split; [lia|]. cbv zeta. rewrite Nat.add_0_r.
    destruct (last_max_spec (window g p) i 15) as [Hr Hm]. split; [lia|]. intros x Hx. apply Hm. lia.
  - destruct (IH _ Hc) as (j&Hj&H). exists (S j). split; [lia|].
    replace (i + 16 * S j)%nat with (i + 16 + 16 * j)%nat by lia. exact H.
Qed.

(** Both ends of [winn_calculate_part] leave the globals at their start. *)
Lemma winn_state w (part : part_point) :
  (if (min_index w =? 0) && (min_hash w =? 0) && (win w =? WINDOW) then Done (part, w) else Done (part, winn0)) =
  Done (part, winn0).
Proof using.
  destruct w as [mi mh wi]. cbn [min_index min_hash win].
  destruct (Z.eqb_spec mi 0) as [->|]; [|done]. destruct (Z.eqb_spec mh 0) as [->|]; [|done].
  by destruct (Z.eqb_spec wi WINDOW) as [->|].
Qed.

Lemma winn_calculate_part_cuts p cnt :
  (chunk_num g ≤ length p)%nat → Z.of_nat (length p) < 2 ^ 16 →
  winn_calculate_part g p cnt [] winn0 = Done (entries cnt (Z.of_nat (length p)) (winn_cuts g p), winn0).
Proof.
  intros Hk Hp. pose proof (tp_chunk g Hg) as H1. unfold winn_calculate_part.
  change (part_set [] cnt) with (Done [cnt]). cbn [mbind outcome_bind].
  change (part_set [cnt] ?n) with (Done (entries cnt n [])). cbn [mbind outcome_bind].
  set (i := (chunk_num g - 1)%nat).
  replace (Z.of_nat (chunk_num g) - 1) with (Z.of_nat (i + 0)) by lia.
  replace (pack_hash p (chunk_num g) (R g) (Q g)) with (window g p (i + 0))
    by (unfold window; by replace (i + 0 + 1 - chunk_num g)%nat with 0%nat by lia).
  change (see ?a ?b winn0) with (see a b (seen (window g p) i 0)).
  rewrite see_next by (lia || intros; apply window_nonneg). unfold close_first.
  change (win (seen _ _ 1) =? 0) with false. cbn [mbind outcome_bind].
  pose proof (winn_loop_spec p (length p - chunk_num g) i 1 cnt (Z.of_nat (length p)) []) as Hl. cbv zeta in Hl.
  replace (i + 1)%nat with (chunk_num g) in Hl by lia.
  replace (chunk_num g - 1)%nat with (i + 0)%nat in Hl by lia.
  replace (1 + (length p - chunk_num g))%nat with (length p + 1 - chunk_num g)%nat in Hl by lia.
  rewrite Hl; [|lia|lia|lia|done|constructor|].
  - cbn [mbind outcome_bind app last]. change (apart None _) with (winn_cuts g p).
    apply winn_state.
  - pose proof (Nat.Div0.mul_div_le (length p + 1 - chunk_num g) 16) as Hd.
    change (Z.of_nat (length [] + ?n)) with (Z.of_nat n). unfold PLEN. lia.
Qed.
End loop.

(** ** The interface to the rest of the tool *)

Definition winn_spec (g : globals) (p : list Z) (d : nat) : list nat * nat := (winn_cuts g p, d).

Lemma winn_cutter_laws g : tool_params g → CutterLaws (C := winn_cutter) g (winn_spec g).
Proof.
  intros Hg. pose proof (tp_chunk g Hg) as Hk. split; [done|done|..].
  - intros p cnt d Hp Hn _. cbn [calculate_part winn_cutter].
    by rewrite winn_calculate_part_cuts.
  - intros p d. cbn [fst winn_spec]. destruct (decide (chunk_num g ≤ length p)%nat) as [Hp|Hp].
    + pose proof (winn_cuts_first g p (conj Hk Hp)) as Hc. destruct (winn_cuts g p) as [|c l]; [constructor|].
      destruct Hc as [_ Hc]. eapply spaced_sorted; [|exact Hc]. lia.
    + unfold winn_cuts. rewrite Nat.div_small by lia. constructor.
  - intros p d Hp. cbn [fst winn_spec]. apply Forall_forall.
    intros c (j&Hj&Hc&_)%winn_cuts_windows. unfold windows in Hj.
    pose proof (Nat.Div0.mul_div_le (length p + 1 - chunk_num g) 16). lia.
  - intros p d Hd. exact Hd.
Qed.

(** ** Properties *)

(** [winn_calculate_part], with the parameters [precalculate] leaves, records
    the packet number, the payload's length and the winnowed positions, and
    leaves the globals of the winnowing as it found them. The first cut is in the
    first window of sixteen positions, the next ones follow at distances of 16 to
    47, and behind the last one there are at most 47 bytes; a payload without
    cuts has no complete window. Each cut is the last position of the largest
    hash of one of the windows. *)
Theorem winn_calculate_part_correct g p cnt :
  tool_params g → (chunk_num g ≤ length p)%nat → Z.of_nat (length p) < 2 ^ 16 →
  winn_calculate_part g p cnt [] winn0 = Done (entries cnt (Z.of_nat (length p)) (winn_cuts g p), winn0) ∧
  match winn_cuts g p with
  | [] => (length p < chunk_num g + 15)%nat
  | c :: l => (chunk_num g - 1 ≤ c < chunk_num g + 15)%nat ∧ spaced 16 47 c l (length p - 1)
  end ∧
  Forall (λ c, ∃ j, (j < (length p + 1 - chunk_num g) / 16)%nat ∧
    let i := (chunk_num g - 1 + 16 * j)%nat in
    (i ≤ c < i + 16)%nat ∧ ∀ x, (i ≤ x < i + 16)%nat →
      window g p x ≤ window g p c ∧ ((c < x)%nat → window g p x < window g p c)) (winn_cuts g p).
Proof.
  intros Hg Hk Hp. pose proof (tp_chunk g Hg). split; [by apply winn_calculate_part_cuts|].
  split; [apply winn_cuts_first; lia|]. apply Forall_forall. intros c. apply winn_cuts_windows.
Qed.
Lemma winn_tool_ok : tool_params winn_tool.
Proof. apply precalculate_ok; done || (cbn; lia). Qed.
Lemma winn_calculate_part_correct_witness :
  winn_calculate_part winn_tool sample_play 3 [] winn0 =
    Done (entries 3 (Z.of_nat (length sample_play)) (winn_cuts winn_tool sample_play), winn0) ∧
  match winn_cuts winn_tool sample_play with
  | [] => (length sample_play < chunk_num winn_tool + 15)%nat
  | c :: l => (chunk_num winn_tool - 1 ≤ c < chunk_num winn_tool + 15)%nat ∧ spaced 16 47 c l (length sample_play - 1)
  end ∧
  Forall (λ c, ∃ j, (j < (length sample_play + 1 - chunk_num winn_tool) / 16)%nat ∧
    let i := (chunk_num winn_tool - 1 + 16 * j)%nat in
    (i ≤ c < i + 16)%nat ∧ ∀ x, (i ≤ x < i + 16)%nat →
      window winn_tool sample_play x ≤ window winn_tool sample_play c ∧
      ((c < x)%nat → window winn_tool sample_play x < window winn_tool sample_play c)) (winn_cuts winn_tool sample_play).
Proof.
  apply (winn_calculate_part_correct winn_tool sample_play 3).
  - apply winn_tool_ok.
  - apply Nat.leb_le. reflexivity.
  - reflexivity.
Defined.
Example winn_sample_cuts : winn_cuts winn_tool sample_play = [27; 53; 70]%nat.
Proof. vm_compute. reflexivity. Qed.
