(* ===== verification/WinnMain.v ===== *)
(** The winnowing analyser on a capture file: the sizes of its chunks keep the
    buffer of the remainder and the arena of digests within their bounds, so that
    the run of [main] needs no hypothesis on where the cuts fall. *)
From S2P Require Import Prelude Rabin DArray KeyValue ChunkBuf Hashmap Pack PackCuts PackLedger PackSpec PackMain.
From S2P Require Import WinnPack WinnCuts.
#[local] Open Scope Z_scope.

(** ** Sizes *)

Abbreviation positions := (winn_spec winn_tool).
#[export] Instance winn_laws : CutterLaws (C := winn_cutter) winn_tool positions := winn_cutter_laws winn_tool winn_tool_ok.

(** The chunks have 16 to 78 bytes, and little is left over. *)
Definition sizes (st : stream) : Prop :=
  Forall (λ c, 16 ≤ length c ≤ 78)%nat (st_chunks st) ∧ (length (st_rest st) ≤ 47)%nat.

Lemma spaced_pieces p b l stop :
  spaced 16 47 b l stop → stop = (length p - 1)%nat → Forall (λ i, i < length p)%nat l →
  Forall (λ c, 16 ≤ length c ≤ 78)%nat (pieces p b l) ∧ (length (drop (S (List.last l b)) p) ≤ 47)%nat.
Proof.
  intros Hs ->. revert b Hs. induction l as [|c l IH]; intros b Hs Hr.
  - cbn in *. rewrite length_drop. split; [constructor|lia].
  - destruct Hs as [Hc Hs]. apply Forall_cons in Hr as [Hr Hrs]. destruct (IH c Hs Hrs) as [H1 H2].
    rewrite last_cons. split; [|done]. cbn [pieces]. constructor; [|done]. rewrite slice_length by lia. lia.
Qed.

Lemma feed_sizes st p :
  sizes st → (31 ≤ length p)%nat → sizes (feed positions st p) ∧ fits positions st p.
Proof.
  intros [Hc Hr] Hp. unfold feed, fits, winn_spec. cbn [st_delay].
  assert (Hk : (1 ≤ chunk_num winn_tool ≤ length p)%nat) by (change (chunk_num winn_tool) with 16%nat; lia).
  pose proof (winn_cuts_first winn_tool p Hk) as Hf. change (chunk_num winn_tool) with 16%nat in *.
  pose proof (cl_range (CutterLaws := winn_laws) p (st_delay st) ltac:(change (chunk_num winn_tool) with 16%nat; lia)) as Hrange. cbn [fst winn_spec] in Hrange.
  destruct (winn_cuts winn_tool p) as [|x l]; [lia|]. destruct Hf as [Hx Hs].
  apply Forall_cons in Hrange as [Hxp Hrange].
  destruct (spaced_pieces p x l _ Hs eq_refl Hrange) as [H1 H2].
  assert (Hl : length (st_rest st ++ take (S x) p) = (length (st_rest st) + S x)%nat)
    by (rewrite length_app, length_take_le; lia).
  unfold sizes, LEN. cbn [st_chunks st_rest]. rewrite Hl. split_and!; [|done|lia|lia].
  apply Forall_app. split; [done|]. constructor; [rewrite Hl; lia|done].
Qed.

(** Payloads are passed over or long enough to be cut. *)
Definition cut_or_short (p : list Z) : Prop := (length p < 16 ∨ 31 ≤ length p)%nat.

Lemma feeds_sizes st ps :
  sizes st → Forall cut_or_short ps →
  sizes (foldl (feed_long winn_tool positions) st ps) ∧ all_fit winn_tool positions st ps.
Proof.
  intros Hst Hps. revert st Hst. induction Hps as [|p ps Hp _ IH]; intros st Hst; [done|]. cbn [foldl all_fit].
  unfold feed_long at 2 3. change (chunk_num winn_tool) with 16%nat.
  destruct (decide (16 ≤ length p)%nat) as [Hk|Hk].
  - destruct (feed_sizes st p Hst) as [Hs Hf]; [unfold cut_or_short in Hp; lia|].
    destruct (IH _ Hs). done.
  - destruct (IH _ Hst). split; [done|]. split; [by intros|done].
Qed.

Lemma sizes_count st : sizes st → (16 * length (st_chunks st) ≤ length (concat (st_chunks st)))%nat.
Proof.
  intros [Hc _]. induction Hc as [|c cs Hc _ IH]; [done|]. cbn [concat length]. rewrite length_app. lia.
Qed.

(** ** Properties *)

Example winn_sample_chunks :
  let st := foldl (feed_long winn_tool positions) stream0 (omap id sample_payloads) in
  length <$> st_chunks st = [28; 26; 17; 57; 26; 17]%nat ∧ saved toy_sha [] (st_chunks st) = 43.
Proof. vm_compute. done. Qed.
