(* ===== verification/Tcpre.v ===== *)
(** The first prototype of the analyser (model/c-skeleton/src/tcpre.c): it reads
    lines of text, remembers 64 bytes at the positions whose hash ends with two
    zero bits, and counts the positions that are there already.

    The entries of [hash_key] and [hash_keydata] are written once, before the
    pointer to them is handed to the map; a pointer to one stands for its value.
    [stats] is written and never read, and the debugging output is left out. *)
From S2P Require Import Prelude Rabin DArray KeyValue ChunkBuf Hashmap Pack.
#[local] Open Scope Z_scope.

Definition CHUNK : nat := 64.
Definition SIZE : Z := 30000.
Definition PACKET_LEN : Z := 30000.
Definition BUCKETS_LEN : Z := 997.
Definition NUM : Z := 30000.
Definition KEYNUM : Z := BUCKETS_LEN * NUM.
Definition REMEDY : Z := 12.
Definition tcpre_globals0 : globals := mk_globals 1 1 2 1 1048583 CHUNK.

Definition hash (key : list Z) (M : nat) (R Q : Z) : Z := foldl (hash_turn R Q) 0 (take M key).

(** Two hashes: the difference is truncated to an [int]. *)
Definition Hashmap_mode_hash (data : Z) : outcome Z := Done (u32 (data mod BUCKETS_LEN)).
Definition Hashmap_mode_compare (a b : Z) : outcome Z := Done (s32 (u64 (a - b))).

Record tcpre := Tcpre {
  map : darray (darray (HashmapNode Z (list Z)));
  reindex : Z;
  recount : Z;
  hashmapnum : Z;
  sumbytes : Z;
  packet : list Z;
  allocs : nat }.
Implicit Types s : tcpre.

Definition add_key m n s : tcpre :=
  Tcpre m (s32 (reindex s + 1)) (recount s) (u64 (hashmapnum s + 1)) (sumbytes s) (packet s) n.
Definition set_map m n s : tcpre := Tcpre m (reindex s) (recount s) (hashmapnum s) (sumbytes s) (packet s) n.
Definition add_recount s : tcpre :=
  Tcpre (map s) (reindex s) (s32 (recount s + 1)) (hashmapnum s) (sumbytes s) (packet s) (allocs s).
Definition set_packet p d s : tcpre :=
  Tcpre (map s) (reindex s) (recount s) (hashmapnum s) (u64 (sumbytes s + d)) p (allocs s).

Section tcpre.
  Context `{Allocator} (g : globals).

(** The bytes from [off] on are copied to the next row of [hash_keydata], up to
    three times as many as are compared. [false] is the jump to [error]. *)
Definition remember (playload_len off txthash : Z) s : outcome (tcpre * bool) :=
  if reindex s <? KEYNUM then
    let chunk3 := Z.of_nat (chunk_num g) * 3 in
    b ← read_range (packet s) off (if playload_len <? chunk3 then playload_len else chunk3);
    let row := b ++ replicate (CHUNK * 3 + 1 - length b) 0 in
    '(m, rc, n) ← Hashmap_set Hashmap_mode_hash (map s) (allocs s) txthash row;
    if rc =? 0 then Done (add_key m n s, true) else Done (set_map m n s, false)
  else Done (s, false).

(** A position whose hash ends with zeros: the delay it causes, and whether the
    function goes on. *)
Definition meet (playload_len off txthash : Z) s : outcome (tcpre * Z * bool) :=
  r ← Hashmap_get Hashmap_mode_hash Hashmap_mode_compare (map s) (allocs s) txthash;
  match r with
  | Some data =>
    a ← read_bytes data (chunk_num g);
    b ← read_range (packet s) off (Z.of_nat (chunk_num g));
    if memcmp a b =? 0 then Done (add_recount s, Z.of_nat (chunk_num g), true) else Done (s, 0, true)
  | None => '(s, ok) ← remember playload_len off txthash s; Done (s, 0, ok)
  end.

Fixpoint hash_loop (playload_len : Z) (n i : nat) (txthash delay_time : Z) s : outcome (tcpre * Z) :=
  match n with
  | O => Done (s, 0)
  | S n =>
    let txthash := slide g txthash (byte_at (packet s) (i - chunk_num g)) (byte_at (packet s) i) in
    if delay_time =? 0 then
      if Z.land txthash (zero_value g) =? 0 then
        '(s, delay_time, ok) ← meet playload_len (Z.of_nat i - Z.of_nat (chunk_num g)) txthash s;
        if ok : bool then hash_loop playload_len n (S i) txthash delay_time s else Done (s, -1)
      else hash_loop playload_len n (S i) txthash delay_time s
    else hash_loop playload_len n (S i) txthash (delay_time - 1) s
  end.
Definition calculate_hash (playload_len : Z) s : outcome (tcpre * Z) :=
  let txthash := hash (packet s) (chunk_num g) (R g) (Q g) in
  let n := (Z.to_nat playload_len - chunk_num g)%nat in
  if Z.land txthash (zero_value g) =? 0 then
    '(s, delay_time, ok) ← meet playload_len 0 txthash s;
    if ok : bool then hash_loop playload_len n (chunk_num g) txthash delay_time s else Done (s, -1)
  else hash_loop playload_len n (chunk_num g) txthash 0 s.

(** ** Lines *)

Definition newline : Z := 10.
(** [fgets] with room for [n] characters and the end of the string. *)
Fixpoint fgets (n : nat) (file : list Z) : list Z * list Z :=
  match n, file with
  | S n, c :: file => if c =? newline then ([c], file) else let '(l, rest) := fgets n file in (c :: l, rest)
  | _, _ => ([], file)
  end.
Fixpoint strlen (l : list Z) : nat :=
  match l with [] => 0 | c :: l => if c =? 0 then 0 else S (strlen l) end.

(** A line without its last character, at the start of the packet buffer. A line
    that begins with NUL makes [len - 1] the largest [size_t]. *)
Definition take_line (source : list Z) s : outcome (tcpre * Z) :=
  let len := strlen source in
  if (len =? 0)%nat then Oops
  else
    let temp := take (len - 1) source in
    let copy_len := strlen temp in
    if Z.of_nat copy_len <? Z.of_nat (length (packet s)) then
      let s := set_packet (temp ++ [0] ++ drop (S copy_len) (packet s)) (Z.of_nat copy_len) s in
      if (chunk_num g <=? copy_len)%nat then calculate_hash (Z.of_nat copy_len) s else Done (s, 0)
    else Oops.

Fixpoint read_lines (fuel : nat) (file : list Z) s : outcome (option (tcpre * Z)) :=
  match fuel with
  | O => Done None
  | S fuel =>
    match file with
    | [] => Done (Some (s, 0))
    | _ =>
      let '(source, file) := fgets (Z.to_nat (SIZE - 1)) file in
      '(s, rc) ← take_line source s;
      if rc =? 0 then read_lines fuel file s else Done (Some (s, -1))
    end
  end.
(** The four buffers; the contents of [packet] are those [malloc] finds. *)
Definition read_file (file junk : list Z) s : outcome (option (tcpre * Z)) :=
  let n := allocs s in
  if alloc_ok n && alloc_ok (S n) && alloc_ok (S (S n)) && alloc_ok (S (S (S n))) then
    read_lines (S (length file)) file
      (Tcpre (map s) (reindex s) (recount s) (hashmapnum s) (sumbytes s) junk (S (S (S (S n)))))
  else Done (Some (s, -1)).

(** The number that is printed: what would be left of the bytes. *)
Definition result s : Z :=
  u64 (sumbytes s - u64 (s32 (recount s * (Z.of_nat (chunk_num g) - REMEDY)))).
Definition main (file junk : list Z) : outcome (option Z) :=
  '(m, n) ← Hashmap_create 0 BUCKETS_LEN;
  match m with
  | None => Done None
  | Some m =>
    r ← read_file file junk (Tcpre m 0 0 0 0 [] n);
    Done (match r with Some (s, rc) => if rc =? 0 then Some (result s) else None | None => None end)
  end.
End tcpre.
