(* ===== verification/TcpreSpec.v ===== *)
(** What the prototype counts: the positions whose hash, as the hash map tells
    hashes apart, was met before with the same bytes. *)
From S2P Require Import Prelude Rabin DArray KeyValue ChunkBuf Hashmap HashmapSpec Pack PackCuts PackLedger Tcpre.
#[local] Open Scope Z_scope.

(** ** Specification *)

(** What the map sees of a hash: the bucket, and the difference as an [int]. *)
Definition tag (h : Z) : Z * Z := (u32 h, h mod BUCKETS_LEN).
Abbreviation memory := (gmap (Z * Z) (list Z)).

(** A position with hash [h] and bytes [c]: what is remembered, and whether it
    counts. *)
Definition visit (M : memory) (h : Z) (c : list Z) : memory * bool :=
  match M !! tag h with
  | Some c' => (M, bool_decide (u8 <$> c' = u8 <$> c))
  | None => (<[tag h := c]> M, false)
  end.

(** [n] positions from [i] on, none of the next [d]; [k] are passed over after a
    repetition. *)
Section scan.
  Context (k : nat) (zero : Z) (h : nat → Z) (c : nat → list Z).
Fixpoint scan (n i d : nat) (M : memory) : memory * nat :=
  match n, d with
  | O, _ => (M, 0%nat)
  | S n, S d => scan n (S i) d M
  | S n, O =>
    if Z.land (h i) zero =? 0 then
      let '(M, hit) := visit M (h i) (c i) in
      if hit : bool then let '(M, r) := scan n (S i) k M in (M, S r) else scan n (S i) 0 M
    else scan n (S i) 0 M
  end.
End scan.

(** The bytes that are compared at the position [i]: those of the first window,
    and after it the [k] bytes {e before} the position, one byte too early. *)
Definition context (k : nat) (p : list Z) (i : nat) : list Z := slice (i - k) k p.
Definition scan_line (g : globals) (p : list Z) (M : memory) : memory * nat :=
  let k := chunk_num g in
  if decide (k ≤ length p)%nat
  then scan k (zero_value g) (window g p) (context k p) (length p + 1 - k) (k - 1) 0 M
  else (M, 0%nat).
Fixpoint scan_lines (g : globals) (ps : list (list Z)) (M : memory) : memory * nat :=
  match ps with
  | [] => (M, 0%nat)
  | p :: ps => let '(M, r) := scan_line g p M in let '(M, r') := scan_lines g ps M in (M, (r + r')%nat)
  end.

Lemma scan_ext k z h h' c c' n i d M :
  (∀ j, (i ≤ j < i + n)%nat → h j = h' j ∧ c j = c' j) → scan k z h c n i d M = scan k z h' c' n i d M.
Proof.
  revert i d M. induction n as [|n IH]; intros i d M Hj; [done|].
  assert (IH' : ∀ d M, scan k z h c n (S i) d M = scan k z h' c' n (S i) d M)
    by (intros; apply IH; intros; apply Hj; lia).
  cbn [scan]. destruct d; [|apply IH']. destruct (Hj i) as [-> ->]; [lia|]. destruct (_ =? 0); [|apply IH'].
  destruct (visit _ _ _) as [M' []]; [|apply IH']. by rewrite IH'.
Qed.

(** Every position adds at most one entry, and a repetition costs [k] positions. *)
Lemma visit_size M h c : (size M ≤ size (visit M h c).1 ≤ S (size M))%nat.
Proof.
  unfold visit. destruct (M !! tag h) eqn:E; cbn [fst]; [lia|]. rewrite map_size_insert_None by done. lia.
Qed.
Lemma scan_size k z h c n i d M :
  (size M ≤ size (scan k z h c n i d M).1 ≤ size M + n ∧ (scan k z h c n i d M).2 ≤ n)%nat.
Proof.
  revert i d M. induction n as [|n IH]; intros i d M; cbn [scan]; [cbn; lia|].
  destruct d as [|d]; [|pose proof (IH (S i) d M); lia].
  destruct (_ =? 0); [|pose proof (IH (S i) 0%nat M); lia].
  pose proof (visit_size M (h i) (c i)) as Hv. destruct (visit _ _ _) as [M' []]; cbn [fst] in Hv.
  - pose proof (IH (S i) k M') as Hi. destruct (scan k z h c n (S i) k M') as [M2 r]. cbn [fst snd] in *. lia.
  - pose proof (IH (S i) 0%nat M'). lia.
Qed.

(** ** The callbacks of the map *)

Lemma mode_hash_ok h : Hashmap_mode_hash h = Done (snd (tag h)).
Proof.
  unfold Hashmap_mode_hash, tag, BUCKETS_LEN. cbn [snd]. rewrite u32_small; [done|].
  pose proof (Z.mod_pos_bound h 997). lia.
Qed.
Definition tag_hash (t : Z * Z) : Z := u32 (snd t).
Lemma tag_hash_tag h : tag_hash (tag h) = snd (tag h).
Proof.
  unfold tag_hash, tag, BUCKETS_LEN. cbn [snd]. pose proof (Z.mod_pos_bound h 997). by apply u32_small; lia.
Qed.
Lemma mode_compare_ok a b :
  tag_hash (tag a) = tag_hash (tag b) → ∃ z, Hashmap_mode_compare a b = Done z ∧ (z = 0 ↔ tag a = tag b).
Proof.
  rewrite !tag_hash_tag. intros Hb. eexists. split; [reflexivity|]. unfold tag in *. cbn [snd] in Hb. rewrite Hb.
  assert (Hz : s32 (u64 (a - b)) = 0 ↔ u32 a = u32 b); [|rewrite Hz; split; [by intros ->|congruence]].
  unfold s32, u64, u32.
  replace ((a - b) mod 2 ^ 64 + 2 ^ 31) with (2 ^ 31 + (a - b) mod 2 ^ 64) by lia.
  rewrite <- Zplus_mod_idemp_r, (Z.mod_mod_divide (a - b) (2 ^ 64) (2 ^ 32)) by (exists (2 ^ 32); lia).
  rewrite Zminus_mod. pose proof (Z.mod_pos_bound a (2 ^ 32) eq_refl). pose proof (Z.mod_pos_bound b (2 ^ 32) eq_refl).
  set (x := a mod 2 ^ 32) in *. set (y := b mod 2 ^ 32) in *. clearbody x y. change (2 ^ 31) with 2147483648 in *.
  change (2 ^ 32) with 4294967296 in *. Z.to_euclidean_division_equations. lia.
Qed.

Lemma scan_cost k z h c n i d M :
  (d ≤ k)%nat → (S k * (scan k z h c n i d M).2 + d ≤ n + k)%nat.
Proof.
  revert i d M. induction n as [|n IH]; intros i d M Hd; cbn [scan]; [cbn; lia|].
  destruct d as [|d]; [|pose proof (IH (S i) d M ltac:(lia)); lia].
  destruct (_ =? 0); [|pose proof (IH (S i) 0%nat M ltac:(lia)); lia].
  destruct (visit _ _ _) as [M' []].
  - pose proof (IH (S i) k M' ltac:(lia)) as Hi. destruct (scan k z h c n (S i) k M') as [M2 r]. cbn [snd] in *. lia.
  - pose proof (IH (S i) 0%nat M' ltac:(lia)). lia.
Qed.
(** A line adds at most as many keys as it has bytes, and what its repetitions
    save is not more than its length. *)
Lemma scan_line_bounds g p M :
  (1 ≤ chunk_num g)%nat →
  (size (scan_line g p M).1 ≤ size M + length p ∧ chunk_num g * (scan_line g p M).2 ≤ length p)%nat.
Proof.
  intros Hk. unfold scan_line. case_decide as Hp; [|cbn; lia]. split.
  - pose proof (scan_size (chunk_num g) (zero_value g) (window g p) (context (chunk_num g) p)
      (length p + 1 - chunk_num g) (chunk_num g - 1) 0 M). lia.
  - pose proof (scan_cost (chunk_num g) (zero_value g) (window g p) (context (chunk_num g) p)
      (length p + 1 - chunk_num g) (chunk_num g - 1) 0 M ltac:(lia)) as Hc.
    destruct (scan _ _ _ _ _ _ _ M) as [M' r]. cbn [snd] in *. destruct r; lia.
Qed.
Lemma scan_lines_bounds g ps M :
  (1 ≤ chunk_num g)%nat → (chunk_num g * (scan_lines g ps M).2 ≤ length (concat ps))%nat.
Proof.
  intros Hk. revert M. induction ps as [|p ps IH]; intros M; [cbn; lia|]. cbn [scan_lines concat].
  pose proof (scan_line_bounds g p M Hk) as [_ Hl]. destruct (scan_line g p M) as [M1 r]. specialize (IH M1).
  destruct (scan_lines g ps M1) as [M2 r2]. cbn [snd] in *. rewrite length_app. lia.
Qed.

(** ** One position *)

Section tool.
  Context `{AllocatorLaws} (g : globals) (Hmem : ∀ n, alloc_ok n = true) (Hg : tool_params g).
  Implicit Types s : tcpre.
  Abbreviation k := (chunk_num g).


(** The map holds rows of [hash_keydata]; what is compared is their first [k]
    bytes. *)
Record knows s (M : memory) (r : nat) : Prop := {
  kn_map : ∃ rows : memory,
    represents (λ _, True) tag tag_hash (allocs s) (100 + 300 * Z.of_nat (size M)) (map s) rows ∧
    M = take k <$> rows ∧ map_Forall (λ _ row, k ≤ length row)%nat rows;
  kn_keys : reindex s = Z.of_nat (size M);
  kn_count : recount s = Z.of_nat r;
  kn_packet : Z.of_nat (length (packet s)) = PACKET_LEN }.

(** Room for one more key and one more repetition. *)
Definition room (M : memory) (r : nat) : Prop :=
  Z.of_nat (size M) < 7000000 ∧ Z.of_nat r < 7000000.

Lemma get_spec s M r h :
  knows s M r → ∃ o, Hashmap_get Hashmap_mode_hash Hashmap_mode_compare (map s) (allocs s) h = Done o ∧
    take k <$> o = M !! tag h ∧ (∀ row, o = Some row → (k ≤ length row)%nat).
Proof using.
  intros [(rows&Hm&->&Hl) _ _ _]. exists (rows !! tag h). split_and!.
  - apply (Hashmap_get_spec _ _ (λ _, True) tag tag_hash) with (hi := 100 + 300 * Z.of_nat (size (take k <$> rows)));
      [|intros; apply u32_range| |exact Hm|done].
    + intros h' _. by rewrite mode_hash_ok, tag_hash_tag.
    + intros a b _ _. apply mode_compare_ok.
  - by rewrite lookup_fmap.
  - intros row E. by apply (Hl (tag h)).
Qed.

Lemma remember_spec s M r off len h :
  knows s M r → room M r → M !! tag h = None → 0 ≤ off → Z.of_nat k ≤ len < 2 ^ 31 →
  off + 3 * Z.of_nat k ≤ PACKET_LEN →
  ∃ s', remember g len off h s = Done (s', true) ∧
    knows s' (<[tag h := slice (Z.to_nat off) k (packet s)]> M) r ∧
    packet s' = packet s ∧ sumbytes s' = sumbytes s.
Proof using Hmem H0.
  intros [(rows&Hm&->&Hl) Hkeys Hcount Hp] [Hr _] HM Hoff Hlen Hend. unfold PACKET_LEN in *.
  rewrite lookup_fmap, fmap_None in HM. unfold remember.
  rewrite Hkeys, (proj2 (Z.ltb_lt _ _)) by (unfold KEYNUM, BUCKETS_LEN, NUM; lia).
  set (n := if len <? Z.of_nat k * 3 then len else Z.of_nat k * 3).
  assert (Hn : Z.of_nat k ≤ n ≤ 3 * Z.of_nat k) by (subst n; destruct (Z.ltb_spec len (Z.of_nat k * 3)); lia).
  rewrite read_range_spec by lia. cbn [mbind outcome_bind]. set (b := slice _ _ _).
  assert (Hb : length b = Z.to_nat n) by (apply slice_length; lia). set (row := b ++ _).
  destruct (Hashmap_set_spec Hashmap_mode_hash (λ _, True) tag tag_hash
              (λ h _, eq_trans (mode_hash_ok h) (f_equal Done (eq_sym (tag_hash_tag h)))) (λ t, u32_range _)
              (allocs s) (100 + 300 * Z.of_nat (size (take k <$> rows))) (map s) rows h row Hmem Hm I HM)
    as (m&al&->&Hm'&_); [lia|]. cbn [mbind outcome_bind]. change (0 =? 0) with true. cbv iota.
  eexists. split; [reflexivity|]. split; [|done].
  assert (Erow : take k row = slice (Z.to_nat off) k (packet s)).
  { subst row b. unfold slice. rewrite take_app_le by (rewrite length_take, length_drop; lia). rewrite take_take. f_equal. lia. }
  assert (Es : size (<[tag h:=slice (Z.to_nat off) k (packet s)]> (take k <$> rows)) = S (size (take k <$> rows)))
    by (apply map_size_insert_None; by rewrite lookup_fmap, HM).
  split; cbn [map allocs reindex recount packet add_key]; [|rewrite Es, Hkeys, s32_small; lia|done|done].
  exists (<[tag h := row]> rows). rewrite Es. split_and!.
  - replace (100 + 300 * Z.of_nat (S (size (take k <$> rows)))) with (100 + 300 * Z.of_nat (size (take k <$> rows)) + 300) by lia.
    exact Hm'.
  - by rewrite fmap_insert, Erow.
  - apply map_Forall_insert_2; [|done]. subst row. rewrite length_app. lia.
Qed.

Lemma meet_spec s M r off len h :
  knows s M r → room M r → 0 ≤ off → Z.of_nat k ≤ len < 2 ^ 31 → off + 3 * Z.of_nat k ≤ PACKET_LEN →
  let '(M', hit) := visit M h (slice (Z.to_nat off) k (packet s)) in
  ∃ s', meet g len off h s = Done (s', if hit then Z.of_nat k else 0, true) ∧
    knows s' M' (if hit then S r else r) ∧ packet s' = packet s ∧ sumbytes s' = sumbytes s.
Proof using Hmem H0.
  intros Hs Hr Hoff Hlen Hend. destruct (get_spec s M r h Hs) as (o&Ho&HM&Hrow).
  unfold meet, visit. rewrite Ho, <- HM. cbn [mbind outcome_bind]. destruct o as [row|]; cbn [fmap option_fmap option_map] in *.
  - specialize (Hrow row eq_refl). pose proof (kn_packet _ _ _ Hs) as Hp. unfold PACKET_LEN in *.
    unfold read_bytes at 1. rewrite decide_True by done. cbn [mbind outcome_bind].
    rewrite read_range_spec by lia. cbn [mbind outcome_bind]. rewrite Nat2Z.id. set (c := slice _ _ _).
    assert (Hc : length c = k) by (apply slice_length; lia).
    pose proof (memcmp_zero (take k row) c) as Hz. rewrite length_take in Hz. specialize (Hz ltac:(lia)).
    case_bool_decide as Hd.
    + rewrite (proj2 (Z.eqb_eq _ 0)) by tauto. eexists. split; [reflexivity|]. split; [|done].
      destruct Hs as [H1 H2 H3 H4]. split; try done. cbn. destruct Hr as [_ Hr]. rewrite H3, s32_small; lia.
    + rewrite (proj2 (Z.eqb_neq _ 0)) by tauto. by eexists.
  - destruct (remember_spec s M r off len h Hs Hr) as (s'&->&Hs'); [by rewrite <- HM|done..|].
    by exists s'.
Qed.

(** ** A line *)

Lemma hash_loop_spec q n i d s M r len :
  knows s M r → packet s = q → Z.of_nat (size M + n) < 7000000 → Z.of_nat (r + n) < 7000000 →
  (1 ≤ k ≤ i)%nat → Z.of_nat (i + n + 2 * k) ≤ PACKET_LEN → Z.of_nat k ≤ len < 2 ^ 31 →
  let '(M', r') := scan k (zero_value g) (window g q) (context k q) n i d M in
  ∃ s', hash_loop g len n i (window g q (i - 1)) (Z.of_nat d) s = Done (s', 0) ∧
    knows s' M' (r + r') ∧ packet s' = q ∧ sumbytes s' = sumbytes s.
Proof using Hmem H0 Hg.
  revert i d s M r. induction n as [|n IH]; intros i d s M r Hs Eq HM Hr Hi Hend Hlen; cbn [scan hash_loop].
  { exists s. by rewrite Nat.add_0_r. }
  rewrite Eq. pose proof (kn_packet _ _ _ Hs) as Hp. rewrite Eq in Hp. unfold PACKET_LEN in *.
  rewrite (slide_next g Hg) by lia.
  assert (IH' : ∀ d s M, knows s M r → packet s = q → Z.of_nat (size M + n) < 7000000 →
    let '(M', r') := scan k (zero_value g) (window g q) (context k q) n (S i) d M in
    ∃ s', hash_loop g len n (S i) (window g q i) (Z.of_nat d) s = Done (s', 0) ∧
      knows s' M' (r + r') ∧ packet s' = q ∧ sumbytes s' = sumbytes s).
  { intros d' s' M' H1 H2 H3. specialize (IH (S i) d' s' M' r H1 H2 H3). rewrite Nat.sub_1_r in IH. apply IH; lia. }
  destruct d as [|d].
  2: { rewrite (proj2 (Z.eqb_neq _ 0)) by lia. replace (Z.of_nat (S d) - 1) with (Z.of_nat d) by lia. apply IH'; done || lia. }
  change (Z.of_nat 0 =? 0) with true. cbv iota. destruct (Z.land _ _ =? 0); [|apply (IH' 0%nat); done || lia].
  pose proof (meet_spec s M r (Z.of_nat i - Z.of_nat k) len (window g q i) Hs) as Hm.
  replace (Z.to_nat (Z.of_nat i - Z.of_nat k)) with (i - k)%nat in Hm by lia. rewrite Eq in Hm.
  fold (context k q i) in Hm. pose proof (visit_size M (window g q i) (context k q i)) as Hv.
  destruct (visit M (window g q i) (context k q i)) as [M' hit]. cbn [fst] in Hv.
  destruct Hm as (s'&->&Hs'&Eq'&Esum); [split; lia|lia|lia|unfold PACKET_LEN; lia|]. cbn [mbind outcome_bind]. destruct hit.
  - specialize (IH (S i) k s' M' (S r) Hs' ltac:(congruence)). rewrite Nat.sub_1_r in IH. cbn [Nat.pred] in IH.
    destruct (scan _ _ _ _ n (S i) k M') as [M2 r2]. destruct IH as (s2&E&H1&H2&H3); [lia..|].
    exists s2. rewrite Nat.add_succ_r. split; [exact E|]. split; [exact H1|]. split; [done|congruence].
  - specialize (IH' 0%nat s' M' Hs' ltac:(congruence) ltac:(lia)).
    destruct (scan _ _ _ _ n (S i) 0 M') as [M2 r2]. destruct IH' as (s2&E&H1&H2&H3).
    exists s2. split; [exact E|]. split; [exact H1|]. split; [done|congruence].
Qed.

(** What follows the payload in the buffer does not matter. *)
Lemma window_app p q i : (k ≤ i + 1)%nat → (i < length p)%nat → window g (p ++ q) i = window g p i.
Proof using.
  intros Hk Hi. unfold window, pack_hash.
  change (take ?n (drop ?m ?l)) with (slice m n l). by rewrite slice_app_l by lia.
Qed.
Lemma context_app p q i : (k ≤ length p)%nat → (i < length p)%nat → context k (p ++ q) i = context k p i.
Proof using. intros Hk Hi. apply slice_app_l. lia. Qed.

Lemma scan_line_app p q M :
  (1 ≤ k ≤ length p)%nat →
  scan k (zero_value g) (window g (p ++ q)) (context k (p ++ q)) (length p + 1 - k) (k - 1) 0 M = scan_line g p M.
Proof using.
  intros Hk. unfold scan_line. rewrite decide_True by lia. apply scan_ext. intros j Hj.
  split; [apply window_app; lia|apply context_app; lia].
Qed.

Lemma calculate_hash_spec p q s M r :
  knows s M r → packet s = p ++ q → Z.of_nat (size M + length p) < 7000000 → Z.of_nat (r + length p) < 7000000 →
  (1 ≤ k ≤ length p)%nat → Z.of_nat (length p + 2 * k) ≤ PACKET_LEN →
  let '(M', r') := scan_line g p M in
  ∃ s', calculate_hash g (Z.of_nat (length p)) s = Done (s', 0) ∧
    knows s' M' (r + r') ∧ packet s' = p ++ q ∧ sumbytes s' = sumbytes s.
Proof using Hmem H0 Hg.
  intros Hs Eq HM Hr Hk Hend. unfold PACKET_LEN in *. rewrite <- (scan_line_app p q) by done.
  unfold calculate_hash. rewrite Nat2Z.id, Eq.
  replace (hash (p ++ q) k (R g) (Q g)) with (window g (p ++ q) (k - 1))
    by (unfold window; by replace (k - 1 + 1 - k)%nat with 0%nat by lia).
  replace (length p + 1 - k)%nat with (S (length p - k)) by lia. cbn [scan].
  replace (S (k - 1)) with k by lia.
  assert (Hl : ∀ s M d r, knows s M r → packet s = p ++ q → Z.of_nat (size M + (length p - k)) < 7000000 →
    Z.of_nat (r + (length p - k)) < 7000000 →
    let '(M', r') := scan k (zero_value g) (window g (p ++ q)) (context k (p ++ q)) (length p - k) k d M in
    ∃ s', hash_loop g (Z.of_nat (length p)) (length p - k) k (window g (p ++ q) (k - 1)) (Z.of_nat d) s = Done (s', 0) ∧
      knows s' M' (r + r') ∧ packet s' = p ++ q ∧ sumbytes s' = sumbytes s).
  { intros. apply hash_loop_spec; unfold PACKET_LEN; done || lia. }
  destruct (Z.land _ _ =? 0); [|apply (Hl _ _ 0%nat); done || lia].
  pose proof (meet_spec s M r 0 (Z.of_nat (length p)) (window g (p ++ q) (k - 1)) Hs) as Hm.
  change (Z.to_nat 0) with 0%nat in Hm. rewrite Eq in Hm.
  assert (Ec : context k (p ++ q) (k - 1) = slice 0 k (p ++ q)) by (unfold context; f_equal; lia).
  rewrite <- Ec in Hm. pose proof (visit_size M (window g (p ++ q) (k - 1)) (context k (p ++ q) (k - 1))) as Hv.
  destruct (visit M _ _) as [M' hit]. cbn [fst] in Hv.
  destruct Hm as (s'&->&Hs'&Eq'&Esum); [split; lia|lia|lia|unfold PACKET_LEN; lia|].
  cbn [mbind outcome_bind]. destruct hit.
  - specialize (Hl s' M' k (S r) Hs' ltac:(congruence)). destruct (scan _ _ _ _ _ k k M') as [M2 r2].
    destruct Hl as (s2&E&H1&H2&H3); [lia..|]. exists s2. rewrite Nat.add_succ_r, H3. done.
  - specialize (Hl s' M' 0%nat r Hs' ltac:(congruence)). destruct (scan _ _ _ _ _ k 0 M') as [M2 r2].
    destruct Hl as (s2&E&H1&H2&H3); [lia..|]. exists s2. rewrite H3. done.
Qed.

(** ** Lines *)

Definition line_ok (p : list Z) : Prop :=
  Forall (λ c, c ≠ 0 ∧ c ≠ newline) p ∧ Z.of_nat (length p + 2 * k) ≤ PACKET_LEN.

Lemma fgets_line p file n :
  Forall (λ c, c ≠ 0 ∧ c ≠ newline) p → (length p < n)%nat → fgets n (p ++ newline :: file) = (p ++ [newline], file).
Proof using.
  intros Hp. revert n. induction Hp as [|c p [_ Hc] _ IH]; intros n Hn; (destruct n as [|n]; [cbn in Hn; lia|]); [done|].
  cbn [app fgets]. rewrite (proj2 (Z.eqb_neq c newline)) by done. by rewrite IH by (cbn in Hn; lia).
Qed.
Lemma strlen_all p : Forall (λ c, c ≠ 0) p → strlen p = length p.
Proof using. induction 1 as [|c p Hc _ IH]; [done|]. cbn. by rewrite (proj2 (Z.eqb_neq c 0)), IH. Qed.

Lemma take_line_spec p s M r :
  line_ok p → (1 ≤ k)%nat → knows s M r →
  Z.of_nat (size M + length p) < 7000000 → Z.of_nat (r + length p) < 7000000 →
  let '(M', r') := scan_line g p M in
  ∃ s', take_line g (p ++ [newline]) s = Done (s', 0) ∧ knows s' M' (r + r') ∧
    sumbytes s' = u64 (sumbytes s + Z.of_nat (length p)).
Proof using Hmem H0 Hg.
  intros [Hp Hlen] Hk Hs HM Hr. pose proof (kn_packet _ _ _ Hs) as Hpk. unfold PACKET_LEN in *.
  assert (Hp0 : Forall (λ c, c ≠ 0) p) by (eapply Forall_impl; [exact Hp|]; cbn; tauto).
  assert (El : strlen (p ++ [newline]) = S (length p)).
  { rewrite strlen_all, length_app; [cbn; lia|]. apply Forall_app. split; [done|]. by repeat constructor. }
  unfold take_line. rewrite El. cbn [Nat.eqb]. replace (S (length p) - 1)%nat with (length p) by lia.
  rewrite take_app_length, (strlen_all p) by done. rewrite (proj2 (Z.ltb_lt _ _)) by lia.
  set (s1 := set_packet _ _ s).
  assert (Hs1 : knows s1 M r).
  { destruct Hs as [H1 H2 H3 _]. split; try done. cbn [packet s1 set_packet].
    rewrite !length_app, length_drop. cbn [length]. unfold PACKET_LEN. lia. }
  unfold scan_line. destruct (Nat.leb_spec k (length p)) as [Hle|Hlt].
  - pose proof (calculate_hash_spec p _ s1 M r Hs1 eq_refl HM Hr (conj Hk Hle) ltac:(unfold PACKET_LEN; lia)) as Hc.
    unfold scan_line in Hc. rewrite decide_True in Hc |- * by done. destruct (scan _ _ _ _ _ _ _ M) as [M' r'].
    destruct Hc as (s'&E&H1&_&H2). exists s'. rewrite H2. done.
  - rewrite decide_False by lia. exists s1. by rewrite Nat.add_0_r.
Qed.

Definition file_of (ps : list (list Z)) : list Z := concat ((λ p, p ++ [newline]) <$> ps).

Lemma match_app_cons {A B} (l r : list A) c (x y : B) :
  match l ++ c :: r with [] => x | _ :: _ => y end = y.
Proof using. by destruct l. Qed.

Lemma read_lines_spec ps fuel s M r :
  Forall line_ok ps → (1 ≤ k)%nat → knows s M r → (length ps < fuel)%nat →
  Z.of_nat (size M + length (concat ps)) < 7000000 → Z.of_nat (r + length (concat ps)) < 7000000 →
  let '(M', r') := scan_lines g ps M in
  ∃ s', read_lines g fuel (file_of ps) s = Done (Some (s', 0)) ∧ knows s' M' (r + r') ∧
    u64 (sumbytes s') = u64 (sumbytes s + Z.of_nat (length (concat ps))).
Proof using Hmem H0 Hg.
  intros Hps Hk. revert fuel s M r. induction Hps as [|p ps Hp _ IH]; intros fuel s M r Hs Hf HM Hr;
    (destruct fuel as [|fuel]; [cbn in Hf; lia|]).
  { exists s. rewrite Z.add_0_r, Nat.add_0_r. done. }
  unfold file_of. rewrite fmap_cons. cbn [concat scan_lines] in *. rewrite length_app in HM, Hr. rewrite <- app_assoc.
  pose proof (take_line_spec p s M r Hp Hk Hs) as Hl. pose proof (scan_line_bounds g p M Hk) as [Hb1 Hb2].
  destruct (scan_line g p M) as [M1 r1]. cbn [fst snd] in *. destruct Hl as (s1&E1&Hs1&Hsum1); [lia..|].
  assert (Hr1 : (r1 ≤ length p)%nat) by nia.
  specialize (IH fuel s1 M1 (r + r1)%nat Hs1). destruct (scan_lines g ps M1) as [M2 r2].
  destruct IH as (s2&E2&Hs2&Hsum2); [cbn in Hf; lia|lia|lia|]. exists s2.
  destruct Hp as [Hpc Hpl]. unfold PACKET_LEN in Hpl.
  cbn [app read_lines]. rewrite match_app_cons.
  rewrite fgets_line by (done || unfold SIZE; lia). rewrite E1. cbn [mbind outcome_bind].
  change (0 =? 0) with true. cbv iota. split; [exact E2|]. rewrite Nat.add_assoc. split; [done|].
  rewrite Hsum2, Hsum1, length_app. unfold u64. rewrite Zplus_mod_idemp_l. f_equal. lia.
Qed.

Lemma file_length ps : (length ps ≤ length (file_of ps))%nat.
Proof using.
  unfold file_of. induction ps as [|p ps IH]; [done|]. rewrite fmap_cons. cbn [concat length].
  rewrite !length_app. cbn. lia.
Qed.

Lemma main_start junk :
  Z.of_nat (length junk) = PACKET_LEN →
  ∃ m n, Hashmap_create 0 BUCKETS_LEN = Done (Some m, n) ∧ ∀ n', (n ≤ n')%nat → knows (Tcpre m 0 0 0 0 junk n') ∅ 0.
Proof using Hmem H0.
  intros Hj.
  destruct (Hashmap_create_spec (D := list Z) (λ _, True) tag tag_hash 0 BUCKETS_LEN Hmem) as (m&n&Em&_&Hm); [done|].
  exists m, n. split; [done|]. intros n' Hn. split; try done. exists ∅.
  split; [by eapply represents_mono; [exact Hn|reflexivity|]|]. split; [by rewrite fmap_empty|apply map_Forall_empty].
Qed.
End tool.

(** ** Properties *)

(** C37. On a file of lines without NUL, each at most [PACKET_LEN] less two windows
    long and of less than seven million bytes together, the prototype returns, and
    prints the number of bytes less [chunk_num - REMEDY] for each repetition. A
    repetition is a position whose hash ends with zeros and is known to the map,
    which tells hashes apart by their lower 32 bits and their bucket only, and
    whose context, for every window but a line's first the bytes one place too
    early, is that of the position that entered the hash; the next [chunk_num]
    positions are passed over. Repetitions never save more than there is. *)
Theorem tcpre_main_counts `{AllocatorLaws} (g : globals) ps junk :
  (∀ n, alloc_ok n = true) → tool_params g → REMEDY ≤ Z.of_nat (chunk_num g) →
  Z.of_nat (length junk) = PACKET_LEN → Forall (line_ok g) ps → Z.of_nat (length (concat ps)) < 7000000 →
  let total := Z.of_nat (length (concat ps)) in
  let saved := Z.of_nat (scan_lines g ps ∅).2 * (Z.of_nat (chunk_num g) - REMEDY) in
  main g (file_of ps) junk = Done (Some (total - saved)) ∧ 0 ≤ saved ≤ total.
Proof.
  intros Hmem Hg Hrem Hj Hps Htotal. pose proof (tp_chunk g Hg) as Hk.
  destruct (main_start g Hmem junk Hj) as (m&n&Em&Hm).
  pose proof (read_lines_spec g Hmem Hg ps (S (length (file_of ps))) (Tcpre m 0 0 0 0 junk (S (S (S (S n))))) ∅ 0 Hps Hk
    (Hm (S (S (S (S n)))) ltac:(lia))) as Hl.
  pose proof (scan_lines_bounds g ps ∅ Hk) as Hb.
  destruct (scan_lines g ps ∅) as [M r]. cbn [snd] in *. rewrite map_size_empty in Hl.
  destruct Hl as (s&E&Hs&Hsum); [pose proof (file_length ps); lia|lia|lia|]. cbv zeta. unfold REMEDY in *.
  split; [|nia]. unfold main. rewrite Em. cbn [mbind outcome_bind]. unfold read_file. rewrite !Hmem. cbn [andb].
  cbn [map reindex recount hashmapnum sumbytes allocs]. rewrite E. cbn [mbind outcome_bind].
  change (0 =? 0) with true. cbv iota. do 2 f_equal. unfold result. rewrite (kn_count _ _ _ _ Hs). cbn [sumbytes] in Hsum.
  unfold REMEDY. rewrite s32_small by nia. rewrite Z.add_0_l, (u64_small (Z.of_nat (length _))) in Hsum by lia.
  unfold u64 in *. rewrite <- Zminus_mod_idemp_l, Hsum, Zminus_mod_idemp_r. apply Z.mod_small. nia.
Qed.
Definition tcpre_tool : globals := precalculate tcpre_globals0.
Lemma tcpre_tool_ok : tool_params tcpre_tool.
Proof. apply precalculate_ok; done || (cbn; unfold CHUNK; lia). Qed.
(** A window whose hash ends with zeros, and lines that repeat it. *)
Definition sample_window : list Z := (λ i, 97 + i * i mod 23) <$> seqZ 0 64.
Lemma short_line g p :
  chunk_num g = CHUNK → Forall (λ c, c ≠ 0 ∧ c ≠ newline) p → (length p < 100)%nat → line_ok g p.
Proof. intros Hk Hp Hl. split; [done|]. rewrite Hk. unfold CHUNK, PACKET_LEN. lia. Qed.
Definition sample_lines : list (list Z) := [sample_window; 120 :: sample_window; sample_window].
Lemma sample_lines_ok : Forall (line_ok tcpre_tool) sample_lines.
Proof.
  assert (Hw : Forall (λ c, c ≠ 0 ∧ c ≠ newline) sample_window)
    by (apply (bool_decide_unpack _); vm_compute; exact I).
  assert (Hx : Forall (λ c, c ≠ 0 ∧ c ≠ newline) (120 :: sample_window)) by by constructor.
  do 3 (constructor; [apply short_line; [reflexivity|assumption|apply Nat.ltb_lt; reflexivity]|]). constructor.
Qed.
Definition sample_junk : list Z := replicate (Z.to_nat PACKET_LEN) 0.

Lemma tcpre_main_counts_witness :
  let total := Z.of_nat (length (concat sample_lines)) in
  let saved := Z.of_nat (scan_lines tcpre_tool sample_lines ∅).2 * (Z.of_nat (chunk_num tcpre_tool) - REMEDY) in
  main (H := zero_allocator) tcpre_tool (file_of sample_lines) sample_junk = Done (Some (total - saved)) ∧ 0 ≤ saved ≤ total.
Proof.
  apply (tcpre_main_counts tcpre_tool sample_lines sample_junk).
  - intros n. reflexivity.
  - apply tcpre_tool_ok.
  - apply Z.leb_le. reflexivity.
  - unfold sample_junk. rewrite length_replicate. reflexivity.
  - apply sample_lines_ok.
  - reflexivity.
Defined.
(** The window at the start of a line is found again at the start of a line; when
    its first occurrence is inside a line, the bytes that were remembered for it
    are those one place before it, and the repetition is missed. *)
Example repeated_at_start : (scan_lines tcpre_tool [sample_window; sample_window] ∅).2 = 1%nat.
Proof. vm_compute. reflexivity. Qed.
Example repeated_window_missed : (scan_lines tcpre_tool [120 :: sample_window; sample_window] ∅).2 = 0%nat.
Proof. vm_compute. reflexivity. Qed.
(** Two hashes that differ in their upper bits can have one entry. *)
Example tags_collide : tag (5 + 997 * 2 ^ 32) = tag 5.
Proof. reflexivity. Qed.
