(* ===== verification/SendTable.v ===== *)
(** The hash table of the sending module (model/send_module/hash_table.c and
    hash_table.h): digests only, with reference counts that a timer lowers. *)
From S2P Require Import Prelude JenHash.
#[local] Open Scope Z_scope.

Definition ITEM_CITE_ADD : Z := 6.
Definition ITEM_CITE_FIND : Z := 6.

(** [struct hashinfo_item]: 48 bytes; its [c_list] is the order of the addresses
    in the bucket. *)
Record hashinfo_item := Item { refcnt : Z; len : Z; sha1 : list Z }.
Definition hash_max_count : Z := 2 * 1024 * 1024 * 1024 / 48.

(** [items] is the heap of live items, [hash_tab] the addresses in each bucket
    from the head; the last three are the counters of nf_out.c. *)
Record table := Table {
  items : gmap Z hashinfo_item;
  next_addr : Z;
  nalloc : nat;
  hash_tab : gmap Z (list Z);
  hash_count : Z;
  sum_num : Z;
  save_num : Z;
  skb_num : Z }.

Section table.
  Context `{Allocator}.
  Implicit Types t : table.

Definition set_items m t : table :=
  Table m (next_addr t) (nalloc t) (hash_tab t) (hash_count t) (sum_num t) (save_num t) (skb_num t).
Definition set_hash_tab h t : table :=
  Table (items t) (next_addr t) (nalloc t) h (hash_count t) (sum_num t) (save_num t) (skb_num t).
Definition set_hash_count c t : table :=
  Table (items t) (next_addr t) (nalloc t) (hash_tab t) c (sum_num t) (save_num t) (skb_num t).
Definition set_alloc a n t : table :=
  Table (items t) a n (hash_tab t) (hash_count t) (sum_num t) (save_num t) (skb_num t).
Definition add_nums sum save skb t : table :=
  Table (items t) (next_addr t) (nalloc t) (hash_tab t) (hash_count t)
    (s64 (sum_num t + sum)) (s64 (save_num t + save)) (s64 (skb_num t + skb)).
Definition bucket t (b : Z) : list Z := default [] (hash_tab t !! b).
Definition get_item t (a : Z) : outcome hashinfo_item := deref (items t !! a).
Definition put_item (a : Z) (i : hashinfo_item) t : table := set_items (<[a := i]> (items t)) t.
Definition bkt_of (info : list Z) : Z := snd (HASH_FCN info).

Definition _hash (b a : Z) t : table := set_hash_tab (<[b := a :: bucket t b]> (hash_tab t)) t.
Definition _unhash (b a : Z) t : table := set_hash_tab (<[b := filter (.≠ a) (bucket t b)]> (hash_tab t)) t.

Definition hash_new_item t (info value : list Z) (len_value : Z) : outcome (table * option Z) :=
  let hash_count_now := hash_count t in
  if hash_max_count <? u64 hash_count_now then Done (t, None)
  else if alloc_ok (nalloc t) then
    sha ← read_bytes info (Z.to_nat SHA1SIZE);
    let cp := next_addr t in
    let t := set_alloc (cp + 1) (S (nalloc t)) t in
    let t := put_item cp (Item ITEM_CITE_ADD (s32 len_value) sha) t in
    let t := set_hash_count (atomic_inc (hash_count t)) t in
    Done (_hash (bkt_of sha) cp t, Some cp)
  else Done (set_alloc (next_addr t) (S (nalloc t)) t, None).

Definition add_hash_info t (info value : list Z) (len_value : Z) : outcome (table * Z) :=
  '(t, cp) ← hash_new_item t info value len_value;
  Done (t, match cp with None => -1 | Some _ => 0 end).

(** The loop of [get_hash_item]: the first item of the list with the digest. *)
Fixpoint find_item t (info : list Z) (l : list Z) : outcome (option Z) :=
  match l with
  | [] => Done None
  | a :: l =>
    cp ← get_item t a;
    if decide (take (Z.to_nat SHA1SIZE) (sha1 cp) = take (Z.to_nat SHA1SIZE) info)
    then Done (Some a) else find_item t info l
  end.

Definition get_hash_item t (info : list Z) : outcome (table * option Z) :=
  r ← find_item t info (bucket t (bkt_of info));
  match r with
  | None => Done (t, None)
  | Some a =>
    cp ← get_item t a;
    Done (put_item a (Item (atomic_add ITEM_CITE_FIND (refcnt cp)) (len cp) (sha1 cp)) t, Some a)
  end.

(** [kmem_cache_free(hash_cachep, cp)] with the counter before it. *)
Definition release (a : Z) t : table :=
  let t := set_hash_count (atomic_dec (hash_count t)) t in set_items (delete a (items t)) t.

Definition hash_del_item t (a : Z) : outcome table :=
  cp ← get_item t a;
  let cp := Item (atomic_inc (refcnt cp)) (len cp) (sha1 cp) in
  let t := put_item a cp t in
  t ← (if refcnt cp =? 2 then
         let bkt := bkt_of (sha1 cp) in
         let t := _unhash bkt a t in
         if refcnt cp =? 1 then Done (release a t, true) else Done (_hash bkt a t, false)
       else Done (t, false));
  let '(t, gone) := (t : table * bool) in
  if gone then Done t
  else
    cp ← get_item t a;
    Done (put_item a (Item (atomic_dec (refcnt cp)) (len cp) (sha1 cp)) t).

Definition hash_item_expire t (a : Z) : outcome table :=
  cp ← get_item t a;
  if refcnt cp =? 1 then hash_del_item t a
  else Done (put_item a (Item (atomic_dec (refcnt cp)) (len cp) (sha1 cp)) t).

(** One item of the loops over a bucket [b]. *)
Definition flush_body (b : Z) t (a : Z) : outcome table :=
  _ ← get_item t a; Done (release a (_unhash b a t)).
Definition flush_bucket t (b : Z) : outcome table := ofold (flush_body b) t (bucket t b).
Definition hash_flush t : outcome table := ofold flush_bucket t (seqZ 0 hash_tab_size).

Definition clear_body (b : Z) t (a : Z) : outcome table :=
  cp ← get_item t a;
  if refcnt cp <=? 1 then Done (release a (_unhash b a t))
  else Done (put_item a (Item (atomic_dec (refcnt cp)) (len cp) (sha1 cp)) t).
Definition bucket_clear_item t (b : Z) : outcome table := ofold (clear_body b) t (bucket t b).

(** What [initial_hash_table_cache] leaves. *)
Definition empty_table : table := Table ∅ 0 0 ∅ 0 0 0 0.
End table.
