(* ===== verification/SendOut.v ===== *)
(** The output hook of the sending module (model/send_module/nf_out.c): a
    payload is cut into chunks, and those whose digest is known are marked to be
    replaced by it. *)
From S2P Require Import Prelude JenHash Rabin Partition SendTable.
#[local] Open Scope Z_scope.

Definition MTU : Z := 1460.
Definition IPPROTO_TCP : Z := 6.
(** The address 192.168.109.1 the hook looks for, as the bytes of the header:
    ["%pI4"] prints an address injectively. *)
Definition dsthost : list Z := [192; 168; 109; 1].

(** [struct replace_item] *)
Record replace_item := Rep { rep_start : Z; rep_end : Z; rep_sha1 : list Z }.

Section nf_out.
  Context `{Allocator}.
  Context {F : Type} `{Kfifo F} (kfifo_new : F).
  (** [tcp_v4_sha1_hash_data]: the digest, or none when it fails. *)
  Context (sha1_hash : list Z → option (list Z)).
  Context (g : globals).
  Implicit Types t : table.

(** An allocation from a cache or of the fifo. *)
Definition count_alloc t : table := set_alloc (next_addr t) (S (nalloc t)) t.

(** Whether the digest was known, with the table and [*new_len]. *)
Definition hand_hash t (src : list Z) (len_ : Z) (dst : list Z) (new_len : Z) : outcome (table * Z * bool) :=
  '(t, item) ← get_hash_item t dst;
  match item with
  | None =>
    '(t, ret) ← add_hash_info t dst src len_;
    Done (add_nums len_ 0 0 t, new_len, false)
  | Some _ =>
    let t := add_nums len_ 0 0 t in
    let t := add_nums 0 (len_ - (SHALEN + 2)) 0 t in
    Done (t, u64 (new_len - (len_ - (SHALEN + 2))), true)
  end.

(** The state of the cutting: table, [head], [*new_len]. When the digest fails
    [dst] is not freed. *)
Definition cutting : Type := table * list replace_item * Z.
Definition build_hash (src : list Z) (c : cutting) (start stop : Z) : outcome cutting :=
  let '(t, head, new_len) := c in
  let length := stop - start + 1 in
  if length <=? SHALEN + 2 then Done c
  else if alloc_ok (nalloc t) then
    let t := count_alloc t in
    match sha1_hash (slice (Z.to_nat start) (Z.to_nat length) src) with
    | None => Done (t, head, new_len)
    | Some dst =>
      '(t, new_len, found) ← hand_hash t (drop (Z.to_nat start) src) length dst new_len;
      if found : bool then
        if alloc_ok (nalloc t) then
          sha ← read_bytes dst (Z.to_nat SHALEN);
          Done (count_alloc t, head ++ [Rep start (start + length - 1) sha], new_len)
        else Bug
      else Done (t, head, new_len)
    end
  else Bug.

(** [get_partition] with the [kfifo_alloc] it starts with. *)
Definition send_partition (data : list Z) (c : cutting) : outcome cutting :=
  if Z.of_nat (chunk_num g) <? Z.of_nat (length data) then
    let '(t, head, new_len) := c in
    let fifo := if alloc_ok (nalloc t) then Some kfifo_new else None in
    get_partition g (build_hash data) fifo data (count_alloc t, head, new_len)
  else get_partition g (build_hash data) None data c.

(** The loop of [replace_skb]; its copies are commented out, [index] is where
    they would have written to. *)
Fixpoint replace_loop (index last : Z) (head : list replace_item) : outcome (Z * Z) :=
  match head with
  | [] => Done (index, last)
  | cp :: head =>
    if last <? u64 (rep_start cp) then
      let index := u64 (index + u64 (u64 (rep_start cp) - last)) in
      let index := u64 (index + SHA1SIZE) in
      replace_loop index (u64 (s32 (rep_end cp + 1))) head
    else if u64 (rep_start cp) =? last then
      replace_loop (u64 (index + SHA1SIZE)) (u64 (s32 (rep_end cp + 1))) head
    else Bug
  end.
Definition replace_skb t (head : list replace_item) (len_ old_len : Z) : outcome (table * Z) :=
  if alloc_ok (nalloc t) then
    '(index, last) ← replace_loop 0 0 head;
    let index := if negb (last =? old_len) then u64 (index + u64 (old_len - last)) else index in
    Done (count_alloc t, index)
  else Bug.

(** The hook; every packet is accepted. *)
Definition hdr8 (d : list Z) (i : nat) : outcome Z := b ← deref (d !! i); Done (u8 b).
(** The payload of a packet to the host, with [data_len]; a payload that
    [get_partition] leaves alone is not looked at. *)
Definition nf_payload (d : list Z) : outcome (option (list Z * Z)) :=
  ihl ← hdr8 d 0;
  let iphl := Z.land ihl 15 * 4 in
  protocol ← hdr8 d 9;
  if protocol =? IPPROTO_TCP then
    d0 ← hdr8 d 16; d1 ← hdr8 d 17; d2 ← hdr8 d 18; d3 ← hdr8 d 19;
    if decide ([d0; d1; d2; d3] = dsthost) then
      doff ← hdr8 d (Z.to_nat iphl + 12);
      let tcphl := Z.shiftr doff 4 * 4 in
      h ← hdr8 d 2; l ← hdr8 d 3;
      let data_len := u64 (256 * h + l - iphl - tcphl) in
      data ← (if Z.of_nat (chunk_num g) <? s32 data_len
              then read_bytes (drop (Z.to_nat (iphl + tcphl)) d) (Z.to_nat (s32 data_len)) else Done []);
      Done (Some (data, data_len))
    else Done None
  else Done None.

Definition nf_out t (d : list Z) : outcome table :=
  p ← nf_payload d;
  match p with
  | Some (data, data_len) =>
    '(t, head, new_len) ← send_partition data (t, [], data_len);
    let t := add_nums 0 0 1 t in
    if negb (length head =? 0)%nat then
      '(t, _) ← replace_skb t head new_len data_len; Done t
    else Done t
  | None => Done t
  end.
End nf_out.
