(* ===== verification/SendSpec.v ===== *)
(** The table of the sending module implements a map from digests to counts and
    lengths, and the lengths that [nf_out] computes agree. *)
From S2P Require Import Prelude JenHash Rabin Partition SendTable SendOut.
#[local] Open Scope Z_scope.

(** ** The table *)

Record tidy (t : table) : Prop := {
  td_bucket : ∀ b a, a ∈ bucket t b → ∃ it, items t !! a = Some it ∧ bkt_of (sha1 it) = b;
  td_item : ∀ a it, items t !! a = Some it →
    a ∈ bucket t (bkt_of (sha1 it)) ∧ length (sha1 it) = Z.to_nat SHA1SIZE ∧ a < next_addr t;
  td_nodup : ∀ b, NoDup (bucket t b);
  td_unique : ∀ a a' it it',
    items t !! a = Some it → items t !! a' = Some it' → sha1 it = sha1 it' → a = a';
  td_count : hash_count t = Z.of_nat (size (items t));
  td_max : hash_count t ≤ hash_max_count + 1 }.

(** The count and the length of a digest. *)
Abbreviation digests := (gmap (list Z) (Z * Z)).
Definition entry (it : hashinfo_item) : Z * Z := (refcnt it, len it).
Definition shows (t : table) (M : digests) : Prop :=
  ∀ d r, M !! d = Some r ↔ ∃ a it, items t !! a = Some it ∧ sha1 it = d ∧ entry it = r.

Section table.
  Context `{Allocator}.
  Implicit Types (t : table) (M : digests).

Lemma shows_lookup t M a it : shows t M → items t !! a = Some it → M !! sha1 it = Some (entry it).
Proof. intros HM Ha. apply HM. by exists a, it. Qed.
Lemma shows_none t M d : shows t M → (∀ a it, items t !! a = Some it → sha1 it ≠ d) → M !! d = None.
Proof.
  intros HM Hd. destruct (M !! d) as [r|] eqn:E; [|done].
  apply HM in E as (a&it&Ha&Hs&_). by destruct (Hd a it Ha).
Qed.

(** The counters and the allocator do not matter. *)
Lemma tidy_frame t t' :
  items t' = items t → hash_tab t' = hash_tab t → hash_count t' = hash_count t →
  next_addr t ≤ next_addr t' → tidy t → tidy t'.
Proof.
  intros Ei Et Ec Hn [H1 H2 H3 H4 H5 H6]. unfold bucket in *.
  split; unfold bucket; rewrite ?Ei, ?Et, ?Ec; try done.
  intros a it Ha. destruct (H2 a it Ha) as (?&?&?). split; [done|]. split; [done|]. lia.
Qed.
Lemma shows_frame t t' M : items t' = items t → shows t M → shows t' M.
Proof. intros E HM d r. rewrite E. apply HM. Qed.

(** An item may change all but its digest. *)
Lemma tidy_put t a it it' :
  tidy t → items t !! a = Some it → sha1 it' = sha1 it → tidy (put_item a it' t).
Proof.
  intros [H1 H2 H3 H4 H5 H6] Ha Es.
  assert (Hs : ∀ x y, items (put_item a it' t) !! x = Some y →
    ∃ z, items t !! x = Some z ∧ sha1 z = sha1 y).
  { intros x y. cbn. rewrite lookup_insert_Some. intros [[-> ->]|[_ Hx]]; [by exists it|by exists y]. }
  split; unfold bucket in *; cbn [put_item set_items items hash_tab hash_count next_addr] in *; try done.
  - intros b x Hx. destruct (H1 b x Hx) as (y&Hy&Hb). destruct (decide (x = a)) as [->|Hne].
    + exists it'. rewrite lookup_insert_eq. split; [done|]. rewrite Es. congruence.
    + exists y. by rewrite lookup_insert_ne.
  - intros x y Hx. destruct (Hs x y Hx) as (z&Hz&<-). by apply H2.
  - intros x y u v Hx Hy E. destruct (Hs x u Hx) as (?&?&?), (Hs y v Hy) as (?&?&?).
    eapply H4; [done..|]. congruence.
  - rewrite H5. rewrite map_size_insert_Some; [done|by exists it].
Qed.
Lemma shows_put t M a it it' :
  tidy t → shows t M → items t !! a = Some it → sha1 it' = sha1 it →
  shows (put_item a it' t) (<[sha1 it := entry it']> M).
Proof.
  intros Ht HM Ha Es d r. cbn [put_item set_items items].
  destruct (decide (sha1 it = d)) as [<-|Hd].
  - rewrite lookup_insert_eq. split.
    + intros [= <-]. exists a, it'. by rewrite lookup_insert_eq.
    + intros (x&y&Hx&Hy&<-). apply lookup_insert_Some in Hx as [[<- <-]|[Hne Hx]]; [done|].
      destruct Hne. eapply td_unique; [exact Ht|exact Ha|exact Hx|done].
  - rewrite lookup_insert_ne, (HM d r) by done. split; intros (x&y&Hx&Hy&Hr).
    + exists x, y. rewrite lookup_insert_ne; [done|]. intros ->. congruence.
    + apply lookup_insert_Some in Hx as [[<- <-]|[Hne Hx]]; [congruence|by exists x, y].
Qed.

(** An item leaves its bucket and is freed. *)
Lemma tidy_release t a it :
  tidy t → items t !! a = Some it → tidy (release a (_unhash (bkt_of (sha1 it)) a t)).
Proof.
  intros [H1 H2 H3 H4 H5 H6] Ha. destruct (H2 a it Ha) as (Hin&_).
  remember (bkt_of (sha1 it)) as b eqn:Eb.
  assert (Hbk : ∀ b', bucket (release a (_unhash b a t)) b' =
    if decide (b' = b) then filter (.≠ a) (bucket t b) else bucket t b').
  { intros b'. unfold bucket at 1.
    cbn [release set_items set_hash_count set_hash_tab _unhash hash_tab].
    case_decide as E; [by rewrite E, lookup_insert_eq|by rewrite lookup_insert_ne]. }
  assert (Hb : ∀ b' x, x ∈ bucket (release a (_unhash b a t)) b' ↔ x ∈ bucket t b' ∧ (b' = b → x ≠ a)).
  { intros b' x. rewrite Hbk. destruct (decide (b' = b)) as [->|Hne]; [|naive_solver].
    rewrite list_elem_of_filter. naive_solver. }
  split; cbn [release set_items set_hash_count set_hash_tab _unhash items hash_count next_addr] in *.
  - intros b' x [Hx Hxa]%Hb. destruct (H1 b' x Hx) as (y&Hy&Hby). exists y. split; [|done].
    rewrite lookup_delete_ne; [done|]. intros <-. apply Hxa; [|done].
    assert (y = it) as -> by congruence. by rewrite <- Hby.
  - intros x y [Hne Hx]%lookup_delete_Some. destruct (H2 x y Hx) as (?&?&?).
    split; [|done]. apply Hb. split; [done|]. intros _ ->. done.
  - intros b'. change (NoDup (bucket (release a (_unhash b a t)) b')). rewrite Hbk.
    case_decide; [by apply NoDup_filter|done].
  - intros x y u v [_ Hx]%lookup_delete_Some [_ Hy]%lookup_delete_Some. by apply H4.
  - rewrite H5, map_size_delete_Some by (by exists it). unfold atomic_dec, atomic_add.
    assert (size (items t) ≠ 0%nat) by (intros E%map_size_empty_inv; by rewrite E in Ha).
    change hash_max_count with 44739242 in H6. rewrite s32_small by lia. lia.
  - rewrite H5. unfold atomic_dec, atomic_add. change hash_max_count with 44739242 in *. rewrite s32_small by lia. lia.
Qed.
Lemma shows_release t M a it :
  tidy t → shows t M → items t !! a = Some it →
  shows (release a (_unhash (bkt_of (sha1 it)) a t)) (delete (sha1 it) M).
Proof.
  intros Ht HM Ha d r. cbn [release set_items set_hash_count set_hash_tab _unhash items].
  destruct (decide (sha1 it = d)) as [<-|Hd].
  - rewrite lookup_delete_eq. split; [done|]. intros (x&y&[Hne Hx]%lookup_delete_Some&Hy&_).
    destruct Hne. by eapply td_unique.
  - rewrite lookup_delete_ne, (HM d r) by done. split; intros (x&y&Hx&Hy&Hr).
    + exists x, y. rewrite lookup_delete_ne; [done|]. intros ->. congruence.
    + apply lookup_delete_Some in Hx as [Hne Hx]. by exists x, y.
Qed.
End table.

(** ** Lookup and insertion *)

Definition seen (M : digests) (d : list Z) : digests :=
  match M !! d with Some (r, l) => <[d := (atomic_add ITEM_CITE_FIND r, l)]> M | None => M end.

Section operations.
  Context `{Allocator}.
  Implicit Types (t : table) (M : digests).

Lemma send_find_spec t d l :
  tidy t → length d = Z.to_nat SHA1SIZE → (∀ a, a ∈ l → is_Some (items t !! a)) →
  ∃ r, find_item t d l = Done r ∧
    match r with
    | Some a => a ∈ l ∧ ∃ it, items t !! a = Some it ∧ sha1 it = d
    | None => ∀ a it, a ∈ l → items t !! a = Some it → sha1 it ≠ d
    end.
Proof.
  intros Ht Hd. induction l as [|a l IH]; intros Hl.
  { exists None. split; [done|]. by intros a it ?%not_elem_of_nil. }
  destruct (Hl a (list_elem_of_here _ _)) as [it Ha]. cbn [find_item]. unfold get_item. rewrite Ha.
  cbn [deref mbind outcome_bind]. destruct (td_item _ Ht a it Ha) as (_&Hs&_).
  rewrite !take_ge by lia. case_decide as E.
  - exists (Some a). split; [done|]. split; [apply list_elem_of_here|]. by exists it.
  - destruct IH as (r&->&Hr); [intros x Hx; apply Hl; by apply list_elem_of_further|].
    exists r. split; [done|]. destruct r as [x|].
    + destruct Hr as [Hx Hit]. split; [by apply list_elem_of_further|done].
    + intros x y [->|Hx]%elem_of_cons Hy; [congruence|by eapply Hr].
Qed.

Lemma send_get_spec t M d :
  tidy t → shows t M → length d = Z.to_nat SHA1SIZE →
  ∃ t' r, get_hash_item t d = Done (t', r) ∧ tidy t' ∧ shows t' (seen M d) ∧
    (is_Some r ↔ is_Some (M !! d)) ∧ nalloc t' = nalloc t ∧
    (sum_num t', save_num t', skb_num t') = (sum_num t, save_num t, skb_num t).
Proof.
  intros Ht HM Hd. unfold get_hash_item, seen.
  destruct (send_find_spec t d (bucket t (bkt_of d)) Ht Hd) as (r&->&Hr).
  { intros a Ha. destruct (td_bucket _ Ht _ a Ha) as (it&?&_). by exists it. }
  cbn [mbind outcome_bind]. destruct r as [a|].
  - destruct Hr as (_&it&Ha&Es). unfold get_item. rewrite Ha. cbn [deref mbind outcome_bind].
    pose proof (shows_lookup t M a it HM Ha) as El. rewrite Es in El. rewrite El. cbn [entry].
    eexists _, (Some a). split; [reflexivity|]. split; [by eapply tidy_put|].
    split; [|by split; [split; intros _; by eexists|]].
    replace d with (sha1 it). by eapply (shows_put t M a it (Item _ (len it) (sha1 it))).
  - rewrite (shows_none t M d HM).
    + exists t, None. do 3 (split; [done|]). split; [|done]. split; by intros [].
    + intros a it Ha E. destruct (td_item _ Ht a it Ha) as (Hin&_&_). rewrite E in Hin.
      by apply (Hr a it).
Qed.

(** An item at a fresh address, in the list of its bucket and counted. *)
Lemma item_added t t' M c it b :
  tidy t → shows t M → items t !! c = None → c < next_addr t' → next_addr t ≤ next_addr t' →
  bkt_of (sha1 it) = b → length (sha1 it) = Z.to_nat SHA1SIZE → M !! sha1 it = None →
  (∀ b', bucket t' b' = if decide (b' = b) then c :: bucket t b else bucket t b') →
  items t' = <[c := it]> (items t) → hash_count t' = hash_count t + 1 → hash_count t' ≤ hash_max_count + 1 →
  tidy t' ∧ shows t' (<[sha1 it := entry it]> M).
Proof.
  intros Ht HM Hfresh Hc1 Hc2 Eb Hd HMd Hbk Hit Hc Hmax. pose proof Ht as [H1 H2 H3 H4 H5 H6].
  assert (Hold : ∀ a x, items t !! a = Some x → sha1 x ≠ sha1 it).
  { intros a x Ha Ex. pose proof (shows_lookup t M a x HM Ha) as El. rewrite Ex in El. congruence. }
  split; [split|].
  - intros b' a. rewrite Hbk, Hit. case_decide as E.
    + rewrite E. intros [->|Ha]%elem_of_cons; [exists it; rewrite lookup_insert_eq; split; [reflexivity|assumption]|].
      destruct (H1 b a Ha) as (x&Hx&?). exists x. rewrite lookup_insert_ne by congruence. split; assumption.
    + intros Ha. destruct (H1 b' a Ha) as (x&Hx&?). exists x. rewrite lookup_insert_ne by congruence. split; assumption.
  - intros a x. rewrite Hit, Hbk. intros [[<- <-]|[Hne Ha]]%lookup_insert_Some.
    + rewrite decide_True by done. split; [apply list_elem_of_here|split; assumption].
    + destruct (H2 a x Ha) as (Hin&?&?). split; [|split; [done|lia]].
      case_decide as E; [|done]. rewrite E in Hin. by apply list_elem_of_further.
  - intros b'. rewrite Hbk. case_decide as E; [|done]. constructor; [|done].
    intros Ha. destruct (H1 b _ Ha) as (x&Hx&_). congruence.
  - intros x y u v. rewrite Hit.
    intros [[<- <-]|[? Hx]]%lookup_insert_Some [[<- <-]|[? Hy]]%lookup_insert_Some E; [done| | |by eapply H4].
    + by destruct (Hold y v Hy).
    + by destruct (Hold x u Hx).
  - rewrite Hit, Hc, H5, map_size_insert_None by done. lia.
  - done.
  - intros d' r. rewrite Hit. destruct (decide (sha1 it = d')) as [<-|Hne].
    + rewrite lookup_insert_eq. split.
      * intros [= <-]. exists c, it. rewrite lookup_insert_eq. split; [|split]; reflexivity.
      * intros (a&x&[[<- <-]|[Hne Ha]]%lookup_insert_Some&Ex&<-); [done|]. by destruct (Hold a x Ha).
    + rewrite lookup_insert_ne, (HM d' r) by done. split; intros (a&x&Ha&Ex&Er).
      * exists a, x. rewrite lookup_insert_ne by congruence. split; [|split]; assumption.
      * apply lookup_insert_Some in Ha as [[<- <-]|[_ Ha]]; [contradiction|exists a, x; split; [|split]; assumption].
Qed.

(** A new item for a digest that is not there; the table may be full, or the
    allocation fail. *)
Lemma send_new_spec t M d value n :
  tidy t → shows t M → length d = Z.to_nat SHA1SIZE → M !! d = None →
  ∃ t' r, hash_new_item t d value n = Done (t', r) ∧ tidy t' ∧
    shows t' (match r with Some _ => <[d := (ITEM_CITE_ADD, s32 n)]> M | None => M end) ∧
    (alloc_ok (nalloc t) = true → hash_count t ≤ hash_max_count → is_Some r) ∧
    (sum_num t', save_num t', skb_num t') = (sum_num t, save_num t, skb_num t).
Proof.
  intros Ht HM Hd HMd. pose proof Ht as [H1 H2 H3 H4 H5 H6]. unfold hash_new_item.
  assert (Hu : u64 (hash_count t) = hash_count t)
    by (apply u64_small; change hash_max_count with 44739242 in H6; lia).
  rewrite Hu. destruct (Z.ltb_spec hash_max_count (hash_count t)) as [Hlt|Hle].
  { exists t, None. do 3 (split; [done|]). split; [lia|done]. }
  destruct (alloc_ok (nalloc t)) eqn:Hok.
  2: { exists (set_alloc (next_addr t) (S (nalloc t)) t), None. split; [done|].
       split; [by eapply tidy_frame; [..|exact Ht]|]. split; [by eapply shows_frame|done]. }
  unfold read_bytes. rewrite decide_True by lia. rewrite take_ge by lia. cbn [mbind outcome_bind].
  set (it := Item ITEM_CITE_ADD (s32 n) d). eexists _, (Some (next_addr t)). split; [reflexivity|].
  assert (Hfresh : items t !! next_addr t = None).
  { destruct (items t !! next_addr t) as [x|] eqn:E; [|done]. destruct (H2 _ _ E) as (_&_&?). lia. }
  change (sha1 it) with d. remember (bkt_of d) as b eqn:Eb.
  set (t' := _hash b _ _).
  assert (Hbk : ∀ b', bucket t' b' = if decide (b' = b) then next_addr t :: bucket t b else bucket t b').
  { intros b'. unfold bucket at 1, t'.
    cbn [_hash set_items set_hash_count set_hash_tab set_alloc put_item hash_tab].
    case_decide as E; [by rewrite E, lookup_insert_eq|by rewrite lookup_insert_ne]. }
  assert (Hit : items t' = <[next_addr t := it]> (items t)) by done.
  assert (Hc : hash_count t' = hash_count t + 1).
  { unfold t'. cbn [_hash set_items set_hash_count set_hash_tab set_alloc put_item hash_count].
    unfold atomic_inc, atomic_add. change hash_max_count with 44739242 in H6. apply s32_small. lia. }
  assert (Hn : next_addr t' = next_addr t + 1) by done.
  assert (Hsum : (sum_num t', save_num t', skb_num t') = (sum_num t, save_num t, skb_num t)) by done.
  clearbody t'. split_and!; [| |by eexists|done];
    destruct (item_added t t' M (next_addr t) it b Ht HM Hfresh ltac:(lia) ltac:(lia) (eq_sym Eb) Hd HMd Hbk Hit Hc);
    done || lia.
Qed.
End operations.
