(* ===== verification/SendWalk.v ===== *)
(** The two loops of the sending module over its buckets: the timer, which lowers
    counts and drops what nobody looked up, and the flush at unload. *)
From S2P Require Import Prelude JenHash Rabin Partition SendTable SendOut SendSpec.
#[local] Open Scope Z_scope.

Section walk.
  Context `{Allocator}.
  (** What the loop does to an item: [None] frees it. *)
  Context (f : hashinfo_item → option hashinfo_item) (e : Z * Z → option (Z * Z)).
  Context (f_sha1 : ∀ it it', f it = Some it' → sha1 it' = sha1 it).
  Context (f_entry : ∀ it, entry <$> f it = e (entry it)).
  Implicit Types (t : table) (M : digests).

Definition walk_body (b : Z) t (a : Z) : outcome table :=
  cp ← get_item t a;
  Done (match f cp with None => release a (_unhash b a t) | Some cp' => put_item a cp' t end).

(** The digests of the items in [l]. *)
Definition touched t (l : list Z) (d : list Z) : Prop := ∃ a it, a ∈ l ∧ items t !! a = Some it ∧ sha1 it = d.

Lemma walk_step t M b a it :
  tidy t → shows t M → items t !! a = Some it → bkt_of (sha1 it) = b →
  ∃ t' M', walk_body b t a = Done t' ∧ tidy t' ∧ shows t' M' ∧
    M' !! sha1 it = M !! sha1 it ≫= e ∧ (∀ d, d ≠ sha1 it → M' !! d = M !! d) ∧
    (∀ a' d, a' ≠ a → (∃ it', items t' !! a' = Some it' ∧ sha1 it' = d) ↔
                      (∃ it', items t !! a' = Some it' ∧ sha1 it' = d)).
Proof.
  intros Ht HM Ha Hb. unfold walk_body, get_item. rewrite Ha. cbn [deref mbind outcome_bind].
  pose proof (shows_lookup t M a it HM Ha) as El. pose proof (f_entry it) as Ee. subst b.
  destruct (f it) as [it'|] eqn:Ef; cbn [fmap option_fmap option_map] in Ee.
  - pose proof (f_sha1 it it' Ef) as Es.
    exists (put_item a it' t), (<[sha1 it := entry it']> M). split; [done|].
    split; [by eapply tidy_put|]. split; [by eapply shows_put|].
    rewrite lookup_insert_eq, El. cbn [mbind option_bind]. split; [by rewrite <- Ee|].
    split; [intros d Hd; by rewrite lookup_insert_ne|].
    intros a' d Hne. cbn [put_item set_items items]. by rewrite lookup_insert_ne.
  - exists (release a (_unhash (bkt_of (sha1 it)) a t)), (delete (sha1 it) M). split; [done|].
    split; [by apply tidy_release|]. split; [by apply shows_release|].
    rewrite lookup_delete_eq, El. cbn [mbind option_bind]. split; [by rewrite <- Ee|].
    split; [intros d Hd; by rewrite lookup_delete_ne|].
    intros a' d Hne. cbn [release set_items set_hash_count _unhash set_hash_tab items].
    by rewrite lookup_delete_ne.
Qed.

Lemma walk_spec b l t M :
  tidy t → shows t M → NoDup l → (∀ a, a ∈ l → ∃ it, items t !! a = Some it ∧ bkt_of (sha1 it) = b) →
  ∃ t' M', ofold (walk_body b) t l = Done t' ∧ tidy t' ∧ shows t' M' ∧
    ∀ d, (touched t l d → M' !! d = M !! d ≫= e) ∧ (¬ touched t l d → M' !! d = M !! d).
Proof.
  revert t M. induction l as [|a l IH]; intros t M Ht HM Hnd Hl.
  { exists t, M. do 3 (split; [done|]). intros d. split; [|done]. by intros (a&it&?%not_elem_of_nil&_). }
  apply NoDup_cons in Hnd as [Hnl Hnd]. destruct (Hl a (list_elem_of_here _ _)) as (it&Ha&Hb).
  destruct (walk_step t M b a it Ht HM Ha Hb) as (t1&M1&E1&Ht1&HM1&He1&Ho1&Hi1).
  destruct (IH t1 M1 Ht1 HM1 Hnd) as (t2&M2&E2&Ht2&HM2&Hd2).
  { intros x Hx. destruct (Hl x) as (y&Hy&Hyb); [by apply list_elem_of_further|].
    destruct (proj2 (Hi1 x (sha1 y) ltac:(congruence))) as (z&Hz&Ez); [by exists y|].
    exists z. split; [done|]. by rewrite Ez. }
  exists t2, M2. split; [cbn [ofold]; by rewrite E1|]. split; [done|]. split; [done|].
  assert (Htl : ∀ d, touched t1 l d ↔ touched t l d).
  { intros d. unfold touched. split; intros (x&y&Hx&Hxy);
      (destruct (Hi1 x d ltac:(congruence)) as [Hf Hg]).
    - destruct Hf as (z&Hz); [by exists y|]. by exists x, z.
    - destruct Hg as (z&Hz); [by exists y|]. by exists x, z. }
  assert (Hself : ¬ touched t l (sha1 it)).
  { intros (x&y&Hx&Hy&E). assert (x = a) as -> by (by apply (td_unique t Ht x a y it)). done. }
  intros d. destruct (Hd2 d) as [Hd2a Hd2b]. rewrite Htl in Hd2a, Hd2b. split.
  - intros (x&y&[->|Hx]%elem_of_cons&Hy&<-).
    + assert (y = it) as -> by congruence. by rewrite Hd2b.
    + rewrite Hd2a by (by exists x, y). rewrite Ho1; [done|]. intros E. apply Hself. by exists x, y.
  - intros Hn. rewrite Hd2b; [apply Ho1|]; intros E.
    + subst d. apply Hn. exists a, it. split; [apply list_elem_of_here|done].
    + apply Hn. destruct E as (x&y&Hx&Hy). exists x, y. split; [by apply list_elem_of_further|done].
Qed.

(** A whole bucket. *)
Lemma walk_bucket b t M :
  tidy t → shows t M →
  ∃ t' M', ofold (walk_body b) t (bucket t b) = Done t' ∧ tidy t' ∧ shows t' M' ∧
    ∀ d, M' !! d = if decide (bkt_of d = b) then M !! d ≫= e else M !! d.
Proof.
  intros Ht HM. destruct (walk_spec b (bucket t b) t M Ht HM) as (t'&M'&E&Ht'&HM'&Hd);
    [apply Ht|apply Ht|].
  exists t', M'. do 3 (split; [done|]). intros d. destruct (Hd d) as [Hy Hn]. case_decide as Hb.
  - destruct (M !! d) as [r|] eqn:EM.
    + apply Hy. apply HM in EM as (a&it&Ha&<-&_). exists a, it. split; [|done].
      destruct (td_item _ Ht a it Ha) as (Hin&_&_). by rewrite Hb in Hin.
    + cbn [mbind option_bind]. assert (Htd : ¬ touched t (bucket t b) d).
      { intros (a&it&_&Ha&Es). pose proof (shows_lookup t M a it HM Ha). congruence. }
      by rewrite (Hn Htd).
  - apply Hn. intros (a&it&Hin&Ha&<-). destruct (td_bucket _ Ht b a Hin) as (z&Hz&?). congruence.
Qed.
End walk.

(** ** The timer and the flush *)

Definition tick_item (it : hashinfo_item) : option hashinfo_item :=
  if refcnt it <=? 1 then None else Some (Item (atomic_dec (refcnt it)) (len it) (sha1 it)).
Definition tick_entry (r : Z * Z) : option (Z * Z) :=
  if r.1 <=? 1 then None else Some (atomic_dec r.1, r.2).

Section loops.
  Context `{Allocator}.
  Implicit Types (t : table) (M : digests).

Lemma bucket_clear_item_spec t M b :
  tidy t → shows t M →
  ∃ t' M', bucket_clear_item t b = Done t' ∧ tidy t' ∧ shows t' M' ∧
    ∀ d, M' !! d = if decide (bkt_of d = b) then M !! d ≫= tick_entry else M !! d.
Proof.
  intros Ht HM.
  assert (E : bucket_clear_item t b = ofold (walk_body tick_item b) t (bucket t b)).
  { unfold bucket_clear_item. apply ofold_ext. intros s a. unfold clear_body, walk_body, tick_item.
    destruct (get_item s a) as [cp| |]; [|done..]. cbn [mbind outcome_bind]. by destruct (_ <=? 1). }
  rewrite E. apply walk_bucket; [|intros it|done..].
  - intros it it'. unfold tick_item. destruct (_ <=? 1); [done|]. by intros [= <-].
  - unfold tick_item, tick_entry. cbn [entry fst snd]. by destruct (_ <=? 1).
Qed.

Lemma flush_bucket_spec t M b :
  tidy t → shows t M →
  ∃ t' M', flush_bucket t b = Done t' ∧ tidy t' ∧ shows t' M' ∧
    ∀ d, M' !! d = if decide (bkt_of d = b) then None else M !! d.
Proof.
  intros Ht HM.
  assert (E : flush_bucket t b = ofold (walk_body (λ _, None) b) t (bucket t b)).
  { unfold flush_bucket. apply ofold_ext. intros s a. unfold flush_body, walk_body.
    by destruct (get_item s a) as [cp| |]. }
  destruct (walk_bucket (λ _, None) (λ _, None) ltac:(done) ltac:(done) b t M Ht HM)
    as (t'&M'&E'&Ht'&HM'&Hd).
  exists t', M'. rewrite E. do 3 (split; [done|]). intros d. rewrite Hd. by destruct (M !! d).
Qed.

Lemma flush_spec l t M :
  tidy t → shows t M →
  ∃ t' M', ofold flush_bucket t l = Done t' ∧ tidy t' ∧ shows t' M' ∧
    ∀ d, M' !! d = if decide (bkt_of d ∈ l) then None else M !! d.
Proof.
  revert t M. induction l as [|b l IH]; intros t M Ht HM.
  { exists t, M. do 3 (split; [done|]). intros d. by rewrite decide_False by apply not_elem_of_nil. }
  destruct (flush_bucket_spec t M b Ht HM) as (t1&M1&E1&Ht1&HM1&Hd1).
  destruct (IH t1 M1 Ht1 HM1) as (t2&M2&E2&Ht2&HM2&Hd2).
  exists t2, M2. cbn [ofold]. rewrite E1. do 3 (split; [done|]).
  intros d. rewrite Hd2, Hd1. generalize (bkt_of d) as k. intros k.
  destruct (decide (k ∈ l)) as [Hl|Hl]; [by rewrite decide_True by (by apply list_elem_of_further)|].
  destruct (decide (k = b)) as [->|Hb]; [by rewrite decide_True by apply list_elem_of_here|].
  rewrite decide_False; [done|]. by intros [?|?]%elem_of_cons.
Qed.

Lemma send_bkt_range d : 0 ≤ bkt_of d < hash_tab_size.
Proof.
  unfold bkt_of, HASH_FCN, HASH_JEN. cbn [snd].
  change (u32 (hash_tab_size - 1)) with (2 ^ 20 - 1). apply land_mask_range; [|done].
  apply jen_hashv_range.
Qed.

Lemma hash_flush_spec t M :
  tidy t → shows t M → ∃ t', hash_flush t = Done t' ∧ tidy t' ∧ items t' = ∅ ∧ hash_count t' = 0.
Proof.
  intros Ht HM. destruct (flush_spec (seqZ 0 hash_tab_size) t M Ht HM) as (t'&M'&E&Ht'&HM'&Hd).
  exists t'. split; [exact E|]. split; [done|].
  assert (Hi : items t' = ∅).
  { apply map_empty. intros a. destruct (items t' !! a) as [it|] eqn:Ea; [|done].
    pose proof (shows_lookup t' M' a it HM' Ea) as El. rewrite Hd, decide_True in El; [done|].
    apply elem_of_seqZ. pose proof (send_bkt_range (sha1 it)). lia. }
  split; [done|]. by rewrite (td_count _ Ht'), Hi, map_size_empty.
Qed.
End loops.
