(* ===== verification/SendOutSpec.v ===== *)
(** The output hook: what it does to the map of digests for each chunk of a
    packet, and that the new payload it computes fits the buffer it allocates. *)
From S2P Require Import Prelude JenHash Rabin Partition SendTable SendOut SendSpec SendWalk.
#[local] Open Scope Z_scope.

Definition range_len (r : Z * Z) : Z := snd r - fst r + 1.
Lemma range_len_eq start stop : range_len (start, stop) = stop - start + 1.
Proof. done. Qed.
Definition range_of (i : replace_item) : Z * Z := (rep_start i, rep_end i).

(** ** The replacement *)

(** Ranges in order, apart, from [k] to [len]. *)
Inductive gaps : Z → list (Z * Z) → Z → Prop :=
| gaps_nil k len : k ≤ len → gaps k [] len
| gaps_cons k start stop rs len :
    k ≤ start ≤ stop → stop < len → gaps (stop + 1) rs len → gaps k ((start, stop) :: rs) len.

Lemma gaps_weaken k k' rs len : k ≤ k' → gaps k' rs len → gaps k rs len.
Proof. intros Hk Hg. destruct Hg; constructor; done || lia. Qed.
Lemma tiles_gaps k rs len hits : tiles k rs len → hits `sublist_of` rs → gaps k hits len.
Proof.
  intros Ht. revert hits. induction Ht as [len|k stop rs len H0 H1 Ht IH]; intros hits Hs.
  - apply sublist_nil_r in Hs as ->. constructor. lia.
  - apply sublist_cons_r in Hs as [Hs|(hs&->&Hs)].
    + apply (gaps_weaken k (stop + 1)); [lia|]. by apply IH.
    + constructor; [lia|lia|]. by apply IH.
Qed.

Fixpoint sum_with (f : Z * Z → Z) (rs : list (Z * Z)) : Z :=
  match rs with [] => 0 | r :: rs => f r + sum_with f rs end.
Definition kept (rs : list (Z * Z)) : Z := sum_with (λ r, range_len r - (SHALEN + 2)) rs.

Lemma gaps_sum k rs len : gaps k rs len → sum_with range_len rs ≤ len - k ∧ k ≤ len.
Proof.
  induction 1; cbn [sum_with]; rewrite ?range_len_eq; lia. Qed.
Lemma kept_sum rs : kept rs = sum_with range_len rs - (SHALEN + 2) * Z.of_nat (length rs).
Proof. unfold kept. induction rs as [|r rs IH]; [done|]. cbn [sum_with length]. lia. Qed.
Lemma kept_app rs r : kept (rs ++ [r]) = kept rs + (range_len r - (SHALEN + 2)).
Proof. unfold kept. induction rs as [|r' rs IH]; cbn [app sum_with]; lia. Qed.
Lemma kept_bounds k rs len :
  gaps k rs len → Forall (λ r, SHALEN + 2 < range_len r) rs → 0 ≤ kept rs ≤ len - k.
Proof.
  intros Hg Hf. destruct (gaps_sum _ _ _ Hg). rewrite kept_sum in *. unfold SHALEN in *. split; [|lia].
  clear -Hf. induction Hf as [|r rs Hr Hf IH]; cbn [sum_with length]; lia.
Qed.

(** [index] advances by the gaps and by a digest per chunk. *)
Lemma replace_loop_spec head len : ∀ last index,
  gaps last (range_of <$> head) len → 0 ≤ last → 0 ≤ index → len < 2 ^ 31 →
  index + 20 * Z.of_nat (length head) + (len - last) < 2 ^ 32 →
  ∃ index' last', replace_loop index last head = Done (index', last') ∧ last ≤ last' ≤ len ∧
    0 ≤ index' < 2 ^ 32 ∧
    index' + (len - last') =
      index + (len - last) - sum_with range_len (range_of <$> head) + 20 * Z.of_nat (length head).
Proof.
  induction head as [|[start stop sha] head IH]; intros last index Hg Hl Hi Hlen Hb.
  { exists index, last. inversion Hg; subst. cbn. split; [done|]. lia. }
  cbn [length] in Hb. cbn [fmap list_fmap range_of rep_start rep_end] in *.
  inversion Hg as [|? ? ? ? ? Hs Hst Hg']; subst.
  destruct (IH (stop + 1) (index + (start - last) + 20)) as (i'&l'&E&Hl'&Hi'&Hsum);
    [done|lia|lia|lia|lia|].
  exists i', l'. split; [|split; [lia|split; [lia|]]].
  - cbn [replace_loop rep_start rep_end]. unfold SHA1SIZE. rewrite s32_small by lia.
    rewrite !(u64_small start), (u64_small (stop + 1)) by lia.
    destruct (Z.ltb_spec last start).
    + rewrite (u64_small (start - last)), (u64_small (index + (start - last))) by lia.
      rewrite u64_small by lia. done.
    + rewrite (proj2 (Z.eqb_eq _ _)), u64_small by lia. rewrite <- E. f_equal. lia.
  - rewrite Hsum. cbn [sum_with length].
    change (range_of (Rep start stop sha)) with (start, stop). rewrite range_len_eq. lia.
Qed.

Lemma replace_skb_spec `{Allocator} (t : table) (head : list replace_item) (old_len : Z) :
  (∀ n, alloc_ok n = true) → gaps 0 (range_of <$> head) old_len →
  Forall (λ i, SHALEN + 2 < range_len (range_of i)) head → old_len < 2 ^ 16 →
  let new_len := old_len - kept (range_of <$> head) in
  ∃ index, replace_skb t head new_len old_len = Done (count_alloc t, index) ∧
    index + 2 * Z.of_nat (length head) = new_len ∧ 0 ≤ index ≤ new_len.
Proof.
  intros Hmem Hg Hf Ho new_len. unfold replace_skb. rewrite Hmem.
  assert (Hf' : Forall (λ r, SHALEN + 2 < range_len r) (range_of <$> head)) by by apply Forall_fmap.
  destruct (gaps_sum _ _ _ Hg) as [Hsum Ho']. pose proof (kept_bounds _ _ _ Hg Hf') as Hkb.
  pose proof (kept_sum (range_of <$> head)) as Hk. rewrite length_fmap in Hk.
  unfold SHALEN in *.
  destruct (replace_loop_spec head old_len 0 0 Hg) as (i&l&E&Hl&Hi&Hil); [lia..|].
  rewrite E. cbn [mbind outcome_bind].
  assert (Ei : (if negb (l =? old_len) then u64 (i + u64 (old_len - l)) else i) = i + (old_len - l)).
  { destruct (Z.eqb_spec l old_len) as [->|Hne]; cbn [negb]; [lia|].
    rewrite (u64_small (old_len - l)), u64_small by lia. done. }
  rewrite Ei. eexists. split; [reflexivity|]. unfold new_len. rewrite Hk, Hil. lia.
Qed.

Definition sample_head : list replace_item :=
  [Rep 0 31 (replicate 20 1); Rep 40 79 (replicate 20 2)].

(** ** A packet *)

Section packet.
  Context `{Allocator} {F : Type} `{KfifoLaws F cap} (kfifo_new : F).
  Context (sha1_hash : list Z → option (list Z)) (g : globals).
  Context (Hmem : ∀ n, alloc_ok n = true) (Hsha : ∀ b d, sha1_hash b = Some d → length d = Z.to_nat SHA1SIZE).
  Implicit Types (t : table) (M : digests).

(** The map, the chunks replaced, and the bytes that were hashed. *)
Definition note_range (data : list Z) (s : digests * list (Z * Z) * Z) (r : Z * Z) : digests * list (Z * Z) * Z :=
  let '(M, hits, total) := s in
  if decide (SHALEN + 2 < range_len r) then
    match sha1_hash (range_bytes data r) with
    | None => s
    | Some d =>
      match M !! d with
      | Some _ => (seen M d, hits ++ [r], total + range_len r)
      | None => (<[d := (ITEM_CITE_ADD, s32 (range_len r))]> M, hits, total + range_len r)
      end
    end
  else s.
Definition note_payload (M : digests) (data : list Z) : digests * list (Z * Z) * Z :=
  if decide (chunk_num g < length data)%nat
  then foldl (note_range data) (M, [], 0) (chunks_of g kfifo_new data) else (M, [], 0).

(** The table and the list under construction follow it; [n0] is the length of
    the payload, [t0] the table at the start. *)
Record follows (t0 : table) (n0 : Z) (c : cutting) (s : digests * list (Z * Z) * Z) : Prop := {
  fo_tidy : tidy c.1.1;
  fo_shows : shows c.1.1 s.1.1;
  fo_hits : range_of <$> c.1.2 = s.1.2;
  fo_long : Forall (λ r, SHALEN + 2 < range_len r) s.1.2;
  fo_len : c.2 = u64 (n0 - kept s.1.2);
  fo_sum : sum_num c.1.1 = s64 (sum_num t0 + s.2);
  fo_save : save_num c.1.1 = s64 (save_num t0 + kept s.1.2);
  fo_skb : skb_num c.1.1 = s64 (skb_num t0) }.

Lemma s64_idemp a : s64 (s64 a) = s64 a.
Proof. transitivity (s64 (s64 a + 0)); [f_equal; lia|]. rewrite s64_add_idemp_l. f_equal. lia. Qed.

(** Sums that were wrapped at each step, wrapped once. *)
Ltac wrap_once := repeat (rewrite s64_add_idemp_l; rewrite <- ?Z.add_assoc); f_equal; lia.

Lemma get_hash_count t d t' r : get_hash_item t d = Done (t', r) → hash_count t' = hash_count t.
Proof.
  unfold get_hash_item. intros E. destruct (find_item _ _ _) as [[a|]| |]; cbn [mbind outcome_bind] in E;
    [|by injection E as <- _|done..].
  destruct (get_item t a) as [cp| |]; cbn [mbind outcome_bind] in E; [|done..].
  by injection E as <- _.
Qed.
Lemma hash_new_count t d v n t' r : hash_new_item t d v n = Done (t', r) →
  hash_count t' = hash_count t ∨ hash_count t' = atomic_inc (hash_count t).
Proof.
  unfold hash_new_item. intros E. destruct (hash_max_count <? _); [injection E as <- _; by left|].
  destruct (alloc_ok _); [|injection E as <- _; by left].
  destruct (read_bytes _ _) as [sha| |]; cbn [mbind outcome_bind] in E; [|done..].
  injection E as <- _. by right.
Qed.

Definition note (M : digests) (d : list Z) (n : Z) : digests :=
  match M !! d with Some _ => seen M d | None => <[d := (ITEM_CITE_ADD, s32 n)]> M end.

(** The bytes a chunk of [n] bytes saves. *)
Definition gain (M : digests) (d : list Z) (n : Z) : Z :=
  match M !! d with Some _ => n - (SHALEN + 2) | None => 0 end.

Lemma hand_hash_spec t M src n d new_len :
  tidy t → shows t M → length d = Z.to_nat SHA1SIZE → hash_count t ≤ hash_max_count →
  ∃ t', hand_hash t src n d new_len =
      Done (t', match M !! d with Some _ => u64 (new_len - (n - (SHALEN + 2))) | None => new_len end,
            bool_decide (is_Some (M !! d))) ∧
    tidy t' ∧ shows t' (note M d n) ∧ hash_count t' ≤ hash_count t + 1 ∧
    sum_num t' = s64 (sum_num t + n) ∧ save_num t' = s64 (save_num t + gain M d n) ∧
    skb_num t' = s64 (skb_num t).
Proof.
  intros Ht HM Hd Hroom. unfold hand_hash, note, gain.
  destruct (send_get_spec t M d Ht HM Hd) as (t2&r&Eg&Ht2&HM2&Hr&Hna&Hnums). rewrite Eg.
  cbn [mbind outcome_bind]. apply get_hash_count in Eg as Hc2. injection Hnums as Hs1 Hs2 Hs3.
  unfold seen in *. destruct (M !! d) as [[rc l]|] eqn:Hx.
  - destruct r as [a|]; [|destruct (proj2 Hr) as [? [=]]; by eexists].
    eexists. split; [reflexivity|]. cbn [add_nums sum_num save_num skb_num hash_count].
    split; [by eapply tidy_frame; [..|exact Ht2]|]. split; [by eapply shows_frame|].
    rewrite Hs1, Hs2, Hs3. split; [lia|]. repeat split; wrap_once.
  - destruct r as [a|]; [destruct (proj1 Hr) as [? [=]]; by eexists|]. unfold add_hash_info.
    destruct (send_new_spec t2 M d src n Ht2 HM2 Hd Hx) as (t3&r&En&Ht3&HM3&Hok&Hnums).
    rewrite En. apply hash_new_count in En. cbn [mbind outcome_bind]. injection Hnums as Hq1 Hq2 Hq3.
    destruct (Hok (Hmem _)) as [a ->]; [by rewrite Hc2|].
    eexists. split; [reflexivity|]. cbn [add_nums sum_num save_num skb_num hash_count].
    split; [by eapply tidy_frame; [..|exact Ht3]|]. split; [by eapply shows_frame|].
    rewrite Hq1, Hq2, Hq3, Hs1, Hs2, Hs3. split; [|by repeat split; wrap_once].
    pose proof (td_count _ Ht). change hash_max_count with 44739242 in Hroom.
    destruct En as [->| ->]; rewrite Hc2; [lia|]. unfold atomic_inc, atomic_add. rewrite s32_small; lia.
Qed.

Lemma build_hash_spec t0 n0 c s data start stop :
  follows t0 n0 c s → hash_count c.1.1 ≤ hash_max_count → 0 ≤ start →
  ∃ c', build_hash sha1_hash data c start stop = Done c' ∧
    follows t0 n0 c' (note_range data s (start, stop)) ∧
    hash_count c'.1.1 ≤ hash_count c.1.1 + 1.
Proof.
  destruct c as [[t head] new_len], s as [[M hits] total]. cbn [fst snd].
  intros [Ht HM Hh Hl Hn Hsum Hsave Hskb] Hroom Hs. cbn [fst snd] in *. unfold build_hash, note_range.
  rewrite range_len_eq. cbn zeta.
  case_decide as Hlen; [|rewrite (proj2 (Z.leb_le _ _)) by lia; eexists; split; [done|]; split; [done|cbn; lia]].
  rewrite (proj2 (Z.leb_gt _ _)), Hmem by lia.
  change (slice (Z.to_nat start) (Z.to_nat (stop - start + 1)) data) with (range_bytes data (start, stop)).
  assert (Ht1 : tidy (count_alloc t)) by (eapply tidy_frame; [..|exact Ht]; done || cbn; lia).
  assert (HM1 : shows (count_alloc t) M) by (by eapply shows_frame).
  destruct (sha1_hash _) as [d|] eqn:Ed; [|eexists; split; [done|]; split; [by split|cbn; lia]].
  pose proof (Hsha _ _ Ed) as Hd.
  destruct (hand_hash_spec (count_alloc t) M (drop (Z.to_nat start) data) (stop - start + 1) d new_len Ht1 HM1 Hd Hroom)
    as (t2&E2&Ht2&HM2&Hc2&Hsum2&Hsave2&Hskb2).
  rewrite E2. cbn [mbind outcome_bind]. clear E2. unfold note, gain in *.
  cbn [count_alloc set_alloc sum_num save_num skb_num hash_count] in *.
  destruct (M !! d) as [x|] eqn:Hx.
  - rewrite bool_decide_true by done. rewrite Hmem.
    unfold read_bytes. rewrite decide_True by (rewrite Hd; done). cbn [mbind outcome_bind].
    eexists. split; [reflexivity|]. split; [|done].
    split; cbn [fst snd count_alloc set_alloc sum_num save_num skb_num].
    + eapply tidy_frame; [..|exact Ht2]; done || cbn; lia.
    + by eapply shows_frame.
    + rewrite fmap_app, Hh, list_fmap_singleton. unfold range_of. cbn [rep_start rep_end]. do 3 f_equal. lia.
    + apply Forall_app. split; [done|]. constructor; [rewrite range_len_eq; lia|done].
    + rewrite Hn, kept_app, range_len_eq. unfold u64. rewrite Zminus_mod_idemp_l. f_equal. lia.
    + rewrite Hsum2, Hsum. wrap_once.
    + rewrite Hsave2, Hsave, kept_app, range_len_eq. wrap_once.
    + by rewrite Hskb2, Hskb, s64_idemp.
  - rewrite bool_decide_false by (by intros []). eexists. split; [reflexivity|]. split; [|done].
    split; cbn [fst snd]; try done.
    + rewrite Hsum2, Hsum. wrap_once.
    + rewrite Hsave2, Hsave. wrap_once.
    + by rewrite Hskb2, Hskb, s64_idemp.
Qed.

(** The chunks of a payload, one after the other. *)
Lemma build_ranges_spec t0 n0 data rs c s :
  follows t0 n0 c s → hash_count c.1.1 + Z.of_nat (length rs) ≤ hash_max_count →
  Forall (λ r, 0 ≤ fst r) rs →
  ∃ c', ofold (λ c r, build_hash sha1_hash data c (fst r) (snd r)) c rs = Done c' ∧
    follows t0 n0 c' (foldl (note_range data) s rs).
Proof.
  intros Hc Hroom Hrs. revert c s Hc Hroom. induction Hrs as [|[start stop] rs Hr Hrs IH]; intros c s Hc Hroom.
  { by exists c. }
  cbn [length fst snd ofold foldl] in *.
  destruct (build_hash_spec t0 n0 c s data start stop Hc) as (c1&E1&Hc1&Hn1); [lia|done|].
  rewrite E1. cbn [mbind outcome_bind]. apply IH; [done|]. lia.
Qed.

(** The chunks replaced are some of the chunks. *)
Lemma hits_sublist data rs s : ∃ hs, (foldl (note_range data) s rs).1.2 = s.1.2 ++ hs ∧ hs `sublist_of` rs.
Proof using.
  revert s. induction rs as [|r rs IH]; intros s; [exists []; by rewrite app_nil_r|]. cbn [foldl].
  destruct (IH (note_range data s r)) as (hs&->&Hhs).
  assert (E : (note_range data s r).1.2 = s.1.2 ∨ (note_range data s r).1.2 = s.1.2 ++ [r]).
  { unfold note_range. destruct s as [[M hits] total]. case_decide; [|by left].
    destruct (sha1_hash _) as [d|]; [|by left]. destruct (M !! d); [by right|by left]. }
  destruct E as [->| ->]; [exists hs; split; [done|by constructor]|].
  exists (r :: hs). rewrite <- app_assoc. split; [done|by constructor].
Qed.

Context (Hg : params_ok g) (Hf : kview kfifo_new = []).

Definition nums_ok t : Prop :=
  s64 (sum_num t) = sum_num t ∧ s64 (save_num t) = save_num t ∧ s64 (skb_num t) = skb_num t.

Lemma follows_start t t' M n :
  tidy t → shows t M → nums_ok t → items t' = items t → hash_tab t' = hash_tab t →
  hash_count t' = hash_count t → next_addr t' = next_addr t → sum_num t' = sum_num t →
  save_num t' = save_num t → skb_num t' = skb_num t →
  follows t n (t', [], u64 n) (M, [], 0).
Proof using.
  intros Ht HM (N1&N2&N3) E1 E2 E3 E4 E5 E6 E7. split; cbn [fst snd]; try done.
  - apply (tidy_frame t); [done..|by rewrite E4|done].
  - by eapply shows_frame.
  - cbn. f_equal. lia.
  - by rewrite E5, Z.add_0_r.
  - cbn. by rewrite E6, Z.add_0_r.
  - by rewrite E7.
Qed.

Lemma tiles_count k rs len : tiles k rs len → Z.of_nat (length rs) ≤ len - k.
Proof using. induction 1; cbn [length]; lia. Qed.
Lemma tiles_from k rs len : tiles k rs len → Forall (λ r, 0 ≤ fst r) rs.
Proof using. induction 1; constructor; done. Qed.

(** [get_partition] on a payload. *)
Lemma send_partition_spec t M data :
  tidy t → shows t M → nums_ok t → hash_count t + Z.of_nat (length data) ≤ hash_max_count →
  let n := Z.of_nat (length data) in
  ∃ c', send_partition kfifo_new sha1_hash g data (t, [], u64 n) = Done c' ∧
    follows t n c' (note_payload M data) ∧ gaps 0 (note_payload M data).1.2 n.
Proof.
  intros Ht HM Hn Hroom n. unfold send_partition, note_payload in *.
  destruct (decide (chunk_num g < length data)%nat) as [Hl|Hl].
  - rewrite (proj2 (Z.ltb_lt _ _)), Hmem by lia. rewrite get_partition_ranges by done.
    pose proof (chunks_of_tiles g kfifo_new data Hg ltac:(lia) Hf) as Hti.
    pose proof (tiles_count _ _ _ Hti). pose proof (tiles_from _ _ _ Hti) as H0'.
    destruct (build_ranges_spec t n data (chunks_of g kfifo_new data) (count_alloc t, [], u64 n) (M, [], 0))
      as (c'&E&Hc'); [by apply follows_start|cbn; lia|done|].
    exists c'. split; [exact E|]. split; [done|].
    destruct (hits_sublist data (chunks_of g kfifo_new data) (M, [], 0)) as (hs&->&Hhs).
    by eapply tiles_gaps.
  - rewrite (proj2 (Z.ltb_ge _ _)), get_partition_small by lia.
    exists (t, [], u64 n). split; [done|]. split; [by apply follows_start|]. constructor. lia.
Qed.

(** What the hook reads from a packet. *)
Lemma send_hdr8_range d i b : hdr8 d i = Done b → 0 ≤ b < 256.
Proof using.
  unfold hdr8. destruct (d !! i); cbn [deref mbind outcome_bind]; [|done]. intros [= <-].
  apply Z.mod_pos_bound. done.
Qed.
Lemma nf_payload_spec d data data_len :
  nf_payload g d = Done (Some (data, data_len)) →
  (chunk_num g < length data)%nat ∧ data_len = Z.of_nat (length data) ∧ data_len < 2 ^ 16 ∨ data = [].
Proof using.
  unfold nf_payload. intros E.
  repeat match type of E with
  | mbind _ (hdr8 d ?i) = _ => destruct (hdr8 d i) as [?| |] eqn:?; cbn [mbind outcome_bind] in E; [|discriminate E..]
  | (if ?b then _ else _) = _ => destruct b eqn:?; [|discriminate E]
  | _ => progress cbv zeta in E
  end.
  repeat match goal with Hx : hdr8 _ _ = Done _ |- _ => apply send_hdr8_range in Hx end.
  match type of E with mbind _ (if _ <? s32 (u64 ?n) then _ else _) = _ => set (m := n) in * end.
  assert (Hm : - 2 ^ 16 < m < 2 ^ 16).
  { subst m. change 15 with (Z.ones 4). rewrite Z.land_ones, Z.shiftr_div_pow2 by lia.
    match goal with |- _ < _ - (?x mod _) * 4 - (?y / _) * 4 < _ =>
      pose proof (Z.mod_pos_bound x (2 ^ 4)); pose proof (Z.div_pos y (2 ^ 4));
      pose proof (Z.div_lt_upper_bound y (2 ^ 4) 16) end. lia. }
  clearbody m.
  assert (Hs : s32 (u64 m) = m).
  { unfold s32, u64. destruct (Z.leb_spec 0 m).
    - rewrite (Z.mod_small m), Z.mod_small by lia. lia.
    - rewrite <- (Z_mod_plus_full m 1 (2 ^ 64)), (Z.mod_small (m + _)) by lia.
      replace (m + 1 * 2 ^ 64 + 2 ^ 31) with (m + 2 ^ 31 + 2 ^ 32 * 2 ^ 32) by lia.
      rewrite Z_mod_plus_full, Z.mod_small by lia. lia. }
  rewrite Hs in E. destruct (Z.ltb_spec (Z.of_nat (chunk_num g)) m) as [Hlt|Hge];
    cbn [mbind outcome_bind] in E; [left|by injection E as <- _; right].
  unfold read_bytes in E. case_decide as Hr; [|done]. cbn [mbind outcome_bind] in E. injection E as <- <-.
  rewrite length_take, Nat.min_l, u64_small by lia. lia.
Qed.

Lemma follows_frame t0 n c t' s :
  follows t0 n c s → items t' = items c.1.1 → hash_tab t' = hash_tab c.1.1 →
  hash_count t' = hash_count c.1.1 → next_addr t' = next_addr c.1.1 → tidy t' ∧ shows t' s.1.1.
Proof using.
  intros [Ht HM _ _ _ _ _ _] E1 E2 E3 E4. split; [|by eapply shows_frame].
  apply (tidy_frame c.1.1); [done..|by rewrite E4|done].
Qed.
Lemma note_payload_short M data : (length data ≤ chunk_num g)%nat →
  note_payload M data = (M, [], 0).
Proof using. intros. unfold note_payload. by rewrite decide_False by lia. Qed.

Lemma nf_out_payload t M data :
  tidy t → shows t M → nums_ok t → hash_count t + 2 ^ 16 ≤ hash_max_count →
  Z.of_nat (length data) < 2 ^ 16 →
  let '(M', hits, total) := note_payload M data in
  ∃ t', ('(t, head, new_len) ← send_partition kfifo_new sha1_hash g data (t, [], Z.of_nat (length data));
         let t := add_nums 0 0 1 t in
         if negb (length head =? 0)%nat then
           '(t, _) ← replace_skb t head new_len (Z.of_nat (length data)); Done t
         else Done t) = Done t' ∧
    tidy t' ∧ shows t' M' ∧ nums_ok t' ∧
    sum_num t' = s64 (sum_num t + total) ∧ save_num t' = s64 (save_num t + kept hits) ∧
    skb_num t' = s64 (skb_num t + 1).
Proof.
  intros Ht HM Hn Hroom Hlen.
  destruct (send_partition_spec t M data Ht HM Hn) as (c&E&Hc&Hgaps); [lia|].
  rewrite u64_small in E by lia. destruct c as [[t1 head] new_len].
  destruct (note_payload M data) as [[M' hits] total]. rewrite E. cbn [mbind outcome_bind fst snd] in *.
  set (t2 := add_nums 0 0 1 t1).
  assert (Hend : ∀ t', items t' = items t1 → hash_tab t' = hash_tab t1 → hash_count t' = hash_count t1 →
    next_addr t' = next_addr t1 → sum_num t' = s64 (sum_num t1 + 0) → save_num t' = s64 (save_num t1 + 0) →
    skb_num t' = s64 (skb_num t1 + 1) →
    tidy t' ∧ shows t' M' ∧ nums_ok t' ∧ sum_num t' = s64 (sum_num t + total) ∧
    save_num t' = s64 (save_num t + kept hits) ∧ skb_num t' = s64 (skb_num t + 1)).
  { intros t' E1 E2 E3 E4 E5 E6 E7. destruct (follows_frame _ _ _ t' _ Hc E1 E2 E3 E4) as [Ht' HM'].
    pose proof (fo_sum _ _ _ _ Hc) as F1. pose proof (fo_save _ _ _ _ Hc) as F2.
    pose proof (fo_skb _ _ _ _ Hc) as F3. cbn [fst snd] in *.
    split; [done|]. split; [done|]. split; [split; [|split]; rewrite ?E5, ?E6, ?E7; apply s64_idemp|].
    rewrite E5, E6, E7, F1, F2, F3. repeat split; wrap_once. }
  destruct head as [|i head].
  - cbn [length]. eexists. split; [reflexivity|]. by apply Hend.
  - cbn [length Nat.eqb negb]. pose proof (fo_hits _ _ _ _ Hc) as Fh. pose proof (fo_len _ _ _ _ Hc) as Fl.
    pose proof (fo_long _ _ _ _ Hc) as Fg. cbn [fst snd] in *. rewrite <- Fh in Fg, Hgaps, Fl.
    pose proof (kept_bounds _ _ _ Hgaps Fg). rewrite u64_small in Fl by lia.
    destruct (replace_skb_spec t2 (i :: head) (Z.of_nat (length data)) Hmem Hgaps) as (ix&Er&_);
      [exact (proj1 (Forall_fmap _ _ _) Fg)|done|].
    rewrite Fl, Er. cbn [mbind outcome_bind]. eexists. split; [reflexivity|]. by apply Hend.
Qed.
End packet.

(** [nf_out] accepts every packet and never stops the machine: on the payload
    of a packet to the host, the map of digests and the counters are those of the
    specification (chunks in order; a known digest gains [ITEM_CITE_FIND], an
    unknown one is entered; the bytes saved are the chunk less a digest and two
    bytes), and the new payload fits its buffer. *)
Lemma nf_out_spec `{Allocator} {F} `{KfifoLaws F cap} (kfifo_new : F)
    (sha1_hash : list Z → option (list Z)) (g : globals) (t : table) (M : digests) d :
  (∀ n, alloc_ok n = true) → (∀ b h, sha1_hash b = Some h → length h = Z.to_nat SHA1SIZE) →
  params_ok g → kview kfifo_new = [] →
  tidy t → shows t M → nums_ok t → hash_count t + 2 ^ 16 ≤ hash_max_count →
  match nf_payload g d with
  | Done None => nf_out kfifo_new sha1_hash g t d = Done t
  | Done (Some (data, _)) =>
    let '(M', hits, total) := note_payload kfifo_new sha1_hash g M data in
    ∃ t', nf_out kfifo_new sha1_hash g t d = Done t' ∧ tidy t' ∧ shows t' M' ∧ nums_ok t' ∧
      sum_num t' = s64 (sum_num t + total) ∧ save_num t' = s64 (save_num t + kept hits) ∧
      skb_num t' = s64 (skb_num t + 1)
  | r => nf_out kfifo_new sha1_hash g t d = (_ ← r; Oops)
  end.
Proof.
  intros Hmem Hsha Hg Hf Ht HM Hn Hroom. unfold nf_out.
  destruct (nf_payload g d) as [[[data data_len]|]| |] eqn:Ep; [|done..].
  cbn [mbind outcome_bind]. apply nf_payload_spec in Ep as [(Hl&->&Hlt)| ->].
  - by apply (nf_out_payload kfifo_new sha1_hash g Hmem Hsha Hg Hf).
  - rewrite note_payload_short by (cbn; lia). unfold send_partition.
    rewrite (proj2 (Z.ltb_ge _ _)), get_partition_small by (cbn; lia). cbn [mbind outcome_bind length].
    eexists. split; [reflexivity|]. destruct Hn as (N1&N2&N3).
    split; [by eapply tidy_frame; [..|exact Ht]|]. split; [by eapply shows_frame|].
    unfold nums_ok. cbn [add_nums sum_num save_num skb_num]. rewrite !s64_idemp. done.
Qed.
