(* ===== verification/SendRun.v ===== *)
(** The sending module as a whole: packets and timer ticks in any order, and the
    flush at unload. *)
From S2P Require Import Prelude JenHash Rabin Partition SendTable SendOut SendSpec SendWalk SendOutSpec.
#[local] Open Scope Z_scope.

Section run.
  Context `{Allocator} {F : Type} `{KfifoLaws F cap} (kfifo_new : F).
  Context (sha1_hash : list Z → option (list Z)) (g : globals).
  Implicit Types (t : table) (M : digests).

(** A packet at the hook, or the timer of a bucket. *)
Inductive event := Packet (d : list Z) | Tick (b : Z).
Definition send_step t (e : event) : outcome table :=
  match e with
  | Packet d => nf_out kfifo_new sha1_hash g t d
  | Tick b => bucket_clear_item t b
  end.

(** On the map of digests; a packet whose headers are cut short faults. *)
Definition spec_step M (e : event) (M' : digests) : Prop :=
  match e with
  | Packet d =>
    match nf_payload g d with
    | Done (Some (data, _)) => M' = (note_payload kfifo_new sha1_hash g M data).1.1
    | Done None => M' = M
    | _ => False
    end
  | Tick b => ∀ d, M' !! d = if decide (bkt_of d = b) then M !! d ≫= tick_entry else M !! d
  end.
Inductive spec_run : digests → list event → digests → Prop :=
| run_nil M : spec_run M [] M
| run_cons M e M1 es M2 : spec_step M e M1 → spec_run M1 es M2 → spec_run M (e :: es) M2.

(** Packets are as long as their headers say. *)
Definition whole (e : event) : Prop :=
  match e with Packet d => ∃ p, nf_payload g d = Done p | Tick _ => True end.

Lemma shows_size t M : tidy t → shows t M → hash_count t = Z.of_nat (size M).
Proof using.
  intros Ht HM. rewrite (td_count _ Ht). f_equal.
  set (f := λ p : Z * hashinfo_item, (sha1 p.2, entry p.2)).
  assert (Hnd : NoDup (f <$> map_to_list (items t)).*1).
  { rewrite <- list_fmap_compose. apply NoDup_fmap_2_strong; [|apply NoDup_map_to_list].
    intros [a it] [a' it'] Ha%elem_of_map_to_list Ha'%elem_of_map_to_list E. cbn in E.
    assert (a = a') as -> by (by eapply (td_unique t Ht a a' it it')). congruence. }
  assert (EM : M = list_to_map (f <$> map_to_list (items t))).
  { apply map_eq. intros d. apply option_eq. intros r. rewrite (HM d r).
    rewrite <- elem_of_list_to_map by done. rewrite list_elem_of_fmap. split.
    - intros (a&it&Ha&<-&<-). exists (a, it). split; [done|]. by apply elem_of_map_to_list.
    - intros ([a it]&E&Ha%elem_of_map_to_list). injection E as -> ->. by exists a, it. }
  rewrite EM, map_size_list_to_map by done. by rewrite length_fmap, length_map_to_list.
Qed.

Lemma note_range_size (data : list Z) (s : digests * list (Z * Z) * Z) r :
  (size (note_range sha1_hash data s r).1.1 ≤ S (size s.1.1))%nat.
Proof using.
  destruct s as [[M hits] total]. unfold note_range. case_decide; [|cbn; lia].
  destruct (sha1_hash _) as [d|]; [|cbn; lia]. destruct (M !! d) as [[rc l]|] eqn:E; cbn [fst].
  - unfold seen. rewrite E, map_size_insert_Some; [lia|by eexists].
  - rewrite map_size_insert_None; done || lia.
Qed.
Lemma note_payload_size M (data : list Z) :
  params_ok g → kview kfifo_new = [] → Z.of_nat (length data) < 2 ^ 16 →
  Z.of_nat (size (note_payload kfifo_new sha1_hash g M data).1.1) ≤ Z.of_nat (size M) + 2 ^ 16.
Proof using.
  intros Hg Hf Hl. unfold note_payload. case_decide as Hd; [|cbn; lia].
  pose proof (chunks_of_tiles g kfifo_new data Hg ltac:(lia) Hf) as Hti%tiles_count.
  assert (Hgen : ∀ rs s, (size (foldl (note_range sha1_hash data) s rs).1.1 ≤ size s.1.1 + length rs)%nat).
  { induction rs as [|r rs IH]; intros s; cbn [foldl length]; [lia|].
    pose proof (IH (note_range sha1_hash data s r)). pose proof (note_range_size data s r). lia. }
  specialize (Hgen (chunks_of g kfifo_new data) (M, [], 0)). cbn [fst] in Hgen. lia.
Qed.
Lemma tick_size M M' b :
  (∀ d, M' !! d = if decide (bkt_of d = b) then M !! d ≫= tick_entry else M !! d) → (size M' ≤ size M)%nat.
Proof using.
  intros Hd. rewrite <- !size_dom. apply subseteq_size. intros d [r Hr]%elem_of_dom.
  apply elem_of_dom. rewrite Hd in Hr. case_decide; [|by eexists].
  destruct (M !! d) as [x|]; [by eexists|done].
Qed.

Context (Hmem : ∀ n, alloc_ok n = true) (Hsha : ∀ b h, sha1_hash b = Some h → length h = Z.to_nat SHA1SIZE).
Context (Hg : params_ok g) (Hf : kview kfifo_new = []).

Lemma bucket_clear_nums t b t' : bucket_clear_item t b = Done t' → nums_ok t → nums_ok t'.
Proof using.
  intros E Hn. apply (ofold_inv (clear_body b) nums_ok t (bucket t b) t'); [|done|exact E].
  intros t1 a t2 _ H1' Ec. unfold clear_body in Ec. destruct (get_item t1 a) as [cp| |]; [|done..].
  cbn [mbind outcome_bind] in Ec. by destruct (_ <=? 1); injection Ec as <-.
Qed.

Lemma send_step_spec t M e :
  tidy t → shows t M → nums_ok t → Z.of_nat (size M) + 2 ^ 16 ≤ hash_max_count → whole e →
  ∃ t' M', send_step t e = Done t' ∧ spec_step M e M' ∧ tidy t' ∧ shows t' M' ∧ nums_ok t' ∧
    Z.of_nat (size M') ≤ Z.of_nat (size M) + 2 ^ 16.
Proof.
  intros Ht HM Hn Hroom He. rewrite <- (shows_size t M Ht HM) in Hroom |- *. destruct e as [d|b]; cbn [send_step spec_step].
  - pose proof (nf_out_spec kfifo_new sha1_hash g t M d Hmem Hsha Hg Hf Ht HM Hn Hroom) as Ho.
    destruct He as [p Hp]. rewrite Hp in Ho |- *. destruct p as [[data n]|].
    + destruct (note_payload kfifo_new sha1_hash g M data) as [[M' hits] total] eqn:En.
      destruct Ho as (t'&E&Ht'&HM'&Hn'&_). exists t', M'. split; [done|]. split; [done|].
      do 3 (split; [done|]). rewrite (shows_size t M Ht HM).
      replace M' with (note_payload kfifo_new sha1_hash g M data).1.1 by (by rewrite En).
      apply note_payload_size; [done|done|]. apply nf_payload_spec in Hp as [(_&->&?)| ->]; [done|cbn; lia].
    + exists t, M. split; [exact Ho|]. do 4 (split; [done|]). rewrite (shows_size t M Ht HM). lia.
  - destruct (bucket_clear_item_spec t M b Ht HM) as (t'&M'&E&Ht'&HM'&Hd). exists t', M'.
    split; [done|]. split; [exact Hd|]. split; [done|]. split; [done|].
    split; [by eapply bucket_clear_nums|].
    rewrite (shows_size t M Ht HM). pose proof (tick_size M M' b Hd). lia.
Qed.

(** Each packet brings at most [2^16] new digests. *)
Lemma send_run_spec es t M :
  tidy t → shows t M → nums_ok t → Forall whole es →
  Z.of_nat (size M) + 2 ^ 16 * Z.of_nat (length es) ≤ hash_max_count →
  ∃ t' M', ofold send_step t es = Done t' ∧ spec_run M es M' ∧ tidy t' ∧ shows t' M'.
Proof.
  intros Ht HM Hn Hw. revert t M Ht HM Hn. induction Hw as [|e es He Hw IH]; intros t M Ht HM Hn Hroom.
  { exists t, M. split; [done|]. split; [constructor|done]. }
  cbn [length ofold] in *.
  destruct (send_step_spec t M e Ht HM Hn) as (t1&M1&E1&Hs1&Ht1&HM1&Hn1&Hz1); [lia|done|].
  destruct (IH t1 M1 Ht1 HM1 Hn1) as (t2&M2&E2&Hs2&Ht2&HM2); [lia|].
  exists t2, M2. rewrite E1. split; [done|]. split; [by econstructor|done].
Qed.
End run.

Lemma empty_tidy : tidy empty_table.
Proof.
  split.
  - intros b a Ha. unfold bucket in Ha. cbn [hash_tab empty_table] in Ha. rewrite lookup_empty in Ha.
    by apply not_elem_of_nil in Ha.
  - intros a it Ha. cbn [items empty_table] in Ha. by rewrite lookup_empty in Ha.
  - intros b. unfold bucket. cbn [hash_tab empty_table]. rewrite lookup_empty. constructor.
  - intros a a' it it' Ha. cbn [items empty_table] in Ha. by rewrite lookup_empty in Ha.
  - reflexivity.
  - reflexivity || (vm_compute; congruence).
Qed.
Lemma empty_shows : shows empty_table ∅.
Proof. intros d r. rewrite lookup_empty. split; [done|]. by intros (a&it&Ha&_). Qed.

(** A packet to the host with the sample payload, twice, and a tick. *)
Definition sample_skb : list Z :=
  [69; 0; 0; 104; 0; 0; 0; 0; 0; 6; 0; 0; 0; 0; 0; 0; 192; 168; 109; 1] ++
  replicate 12 0 ++ [80; 24] ++ replicate 6 0 ++ sample_payload.
Definition sample_sha1 (b : list Z) : option (list Z) := Some (take 20 (b ++ replicate 20 0)).
Lemma sample_sha1_length b h : sample_sha1 b = Some h → length h = Z.to_nat SHA1SIZE.
Proof.
  intros [= <-]. change (Z.to_nat SHA1SIZE) with 20%nat. rewrite length_take, length_app. cbn [length replicate]. lia.
Qed.
Definition sample_events : list event := [Packet sample_skb; Packet sample_skb; Tick 7].
Lemma sample_whole : Forall (whole wspack_globals) sample_events.
Proof.
  assert (Hp : whole wspack_globals (Packet sample_skb)) by (eexists; vm_compute; reflexivity).
  apply Forall_cons; split; [exact Hp|]. apply Forall_cons; split; [exact Hp|]. by apply Forall_cons.
Qed.

(** A digest with count [r] that nobody looks up survives [r - 1] ticks of its
    bucket, and the next one drops it. *)
Theorem idle_digest_evicted `{Allocator} (t : table) (M : digests) d r l n :
  tidy t → shows t M → M !! d = Some (r, l) → 0 < r < 2 ^ 31 →
  ∃ t' M', ofold bucket_clear_item t (replicate n (bkt_of d)) = Done t' ∧ tidy t' ∧ shows t' M' ∧
    M' !! d = if decide (Z.of_nat n < r) then Some (r - Z.of_nat n, l) else None.
Proof.
  intros Ht HM Hd Hr.
  assert (Hgen : ∀ n t M v, tidy t → shows t M → M !! d = v → ∃ t' M',
    ofold bucket_clear_item t (replicate n (bkt_of d)) = Done t' ∧ tidy t' ∧ shows t' M' ∧
    M' !! d = Nat.iter n (λ v, v ≫= tick_entry) v).
  { clear. induction n as [|n IH]; intros t M v Ht HM Hv; [by exists t, M|]. cbn [replicate ofold].
    destruct (bucket_clear_item_spec t M (bkt_of d) Ht HM) as (t1&M1&E1&Ht1&HM1&Hd1).
    rewrite E1. cbn [mbind outcome_bind]. specialize (Hd1 d). rewrite decide_True, Hv in Hd1 by done.
    destruct (IH t1 M1 _ Ht1 HM1 Hd1) as (t2&M2&E2&Ht2&HM2&Hd2). exists t2, M2.
    split; [done|]. split; [done|]. split; [done|]. rewrite Hd2. by rewrite Nat.iter_succ_r. }
  destruct (Hgen n t M _ Ht HM Hd) as (t'&M'&E&Ht'&HM'&Hd'). exists t', M'.
  split; [done|]. split; [done|]. split; [done|]. rewrite Hd'. clear -Hr.
  induction n as [|n IH]; [rewrite decide_True by lia; cbn; do 2 f_equal; lia|].
  rewrite Nat.iter_succ, IH. case_decide as Hn; [|by rewrite decide_False by lia].
  cbn [mbind option_bind]. unfold tick_entry. cbn [fst snd]. case_decide as Hn'.
  - rewrite (proj2 (Z.leb_gt _ _)) by lia. unfold atomic_dec, atomic_add. rewrite s32_small by lia.
    do 2 f_equal. lia.
  - by rewrite (proj2 (Z.leb_le _ _)) by lia.
Qed.
#[local] Opaque bkt_of.
Definition sample_digest : list Z := replicate 20 7.
Definition sample_item : hashinfo_item := Item ITEM_CITE_ADD 40 sample_digest.
Definition sample_table : table :=
  Table {[0 := sample_item]} 1 1 {[bkt_of sample_digest := [0]]} 1 40 0 1.
Lemma sample_table_tidy : tidy sample_table.
Proof.
  assert (Hb : ∀ b, bucket sample_table b = if decide (b = bkt_of sample_digest) then [0] else []).
  { intros b. unfold bucket, sample_table. cbn [hash_tab]. case_decide as E.
    - by rewrite E, lookup_singleton_eq.
    - by rewrite lookup_singleton_ne. }
  assert (Hi : ∀ a it, items sample_table !! a = Some it → a = 0 ∧ it = sample_item)
    by (intros a it Ha; cbn [items sample_table] in Ha; by apply lookup_singleton_Some in Ha as [<- <-]).
  split.
  - intros b a Ha. rewrite Hb in Ha. case_decide as E; [|by apply not_elem_of_nil in Ha].
    apply list_elem_of_singleton in Ha as ->. exists sample_item.
    split; [apply lookup_singleton_eq|symmetry; exact E].
  - intros a it [-> ->]%Hi. rewrite Hb, decide_True by done. split; [apply list_elem_of_here|done].
  - intros b. rewrite Hb. case_decide; [apply NoDup_singleton|constructor].
  - by intros a a' it it' [-> ->]%Hi [-> ->]%Hi.
  - reflexivity.
  - vm_compute. discriminate.
Qed.
Lemma sample_table_shows : shows sample_table {[sample_digest := (ITEM_CITE_ADD, 40)]}.
Proof.
  intros d r. rewrite lookup_singleton_Some. split.
  - intros [<- <-]. exists 0, sample_item. split; [|done]. apply lookup_singleton_eq.
  - intros (a&it&Ha&<-&<-). cbn [items sample_table] in Ha. by apply lookup_singleton_Some in Ha as [<- <-].
Qed.
Lemma idle_digest_evicted_witness :
  ∃ t' M', ofold bucket_clear_item sample_table (replicate 6 (bkt_of sample_digest)) = Done t' ∧ tidy t' ∧
    shows t' M' ∧
    M' !! sample_digest = if decide (Z.of_nat 6 < ITEM_CITE_ADD) then Some (ITEM_CITE_ADD - Z.of_nat 6, 40) else None.
Proof.
  apply (idle_digest_evicted sample_table {[sample_digest := (ITEM_CITE_ADD, 40)]} sample_digest ITEM_CITE_ADD 40 6).
  - apply sample_table_tidy.
  - apply sample_table_shows.
  - apply lookup_singleton_eq.
  - done.
Defined.
