(* ===== verification/Sha1Pool.v ===== *)
(** The pool of digest contexts that the chunks are hashed with
    (model/kernel_hash/sha.c, identical in model/send_module/sha.c): a block of
    one context per CPU, counted by its users.

    A spinlock protects the count and the pointer; every section between
    [spin_lock_bh] and [spin_unlock_bh] is one definition, and the code outside
    them (allocating and freeing the block) another. *)
From S2P Require Import Prelude.
#[local] Open Scope Z_scope.

(** What [*per_cpu_ptr(pool, cpu)] points to on each CPU: NULL, or a [struct
    tcp_sha1sig_pool] whose [tfm] is there or NULL. *)
Abbreviation block := (list (option bool)).

(** [users] and [pool] are [tcp_sha1sig_users] and [tcp_sha1sig_pool]; [heap] has
    the blocks, by the number of the allocation that made them; [tfms] and
    [structs] count what a leak would lose. *)
Record sha_state := Sha {
  users : Z;
  pool : option nat;
  heap : gmap nat block;
  tfms : Z;
  structs : Z;
  count : nat }.

Section pool.
  Context `{Allocator} (possible_cpus : nat).
  Implicit Types s : sha_state.

Definition set_users u s : sha_state := Sha u (pool s) (heap s) (tfms s) (structs s) (count s).
Definition set_pool p s : sha_state := Sha (users s) p (heap s) (tfms s) (structs s) (count s).
Definition set_heap h s : sha_state := Sha (users s) (pool s) h (tfms s) (structs s) (count s).
Definition add_objects t p n s : sha_state :=
  Sha (users s) (pool s) (heap s) (tfms s + t) (structs s + p) n.

(** One CPU of [__tcp_free_sha1sig_pool]. *)
Definition free_slot s (slot : option bool) : sha_state :=
  match slot with
  | None => s
  | Some tfm => add_objects (if tfm : bool then -1 else 0) (-1) (count s) s
  end.
Definition __tcp_free_sha1sig_pool s (p : nat) : outcome sha_state :=
  b ← deref (heap s !! p);
  let s := foldl free_slot s b in Done (set_heap (delete p (heap s)) s).

(** The loop of [__tcp_alloc_sha1sig_pool] over the CPUs, [n] of them left; the
    block so far, and whether [out_free] was reached. *)
Fixpoint fill_slots s (n : nat) (b : block) : sha_state * block * bool :=
  match n with
  | O => (s, b, true)
  | S n =>
    if alloc_ok (count s) then
      let s := add_objects 0 1 (S (count s)) s in
      if alloc_ok (count s) then
        fill_slots (add_objects 1 0 (S (count s)) s) n (b ++ [Some true])
      else (add_objects 0 0 (S (count s)) s, b ++ [Some false] ++ replicate n None, false)
    else (add_objects 0 0 (S (count s)) s, b ++ replicate (S n) None, false)
  end.
Definition __tcp_alloc_sha1sig_pool s : outcome (sha_state * option nat) :=
  let p := count s in
  if alloc_ok p then
    let '(s, b, ok) := fill_slots (add_objects 0 0 (S p) s) possible_cpus [] in
    let s := set_heap (<[p := b]> (heap s)) s in
    if ok : bool then Done (s, Some p)
    else s ← __tcp_free_sha1sig_pool s p; Done (s, None)
  else Done (add_objects 0 0 (S p) s, None).

(** What the first section of [tcp_alloc_sha1sig_pool] decides. *)
Inductive entered := Alloc | Retry | Got (p : nat).
Definition alloc_enter s : sha_state * entered :=
  if users s =? 0 then (set_users (u64 (users s + 1)) s, Alloc)
  else match pool s with
       | None => (set_users (u64 (u64 (users s + 1) - 1)) s, Retry)
       | Some p => (set_users (u64 (users s + 1)) s, Got p)
       end.
(** The second section, with what [__tcp_alloc_sha1sig_pool] returned; the block
    of a loser is freed after the lock is released. *)
Definition alloc_commit s (p : option nat) : outcome (sha_state * option nat) :=
  match p with
  | None => Done (set_users (u64 (users s - 1)) s, None)
  | Some p =>
    match pool s with
    | Some q => s ← __tcp_free_sha1sig_pool s p; Done (s, Some q)
    | None => Done (set_pool (Some p) s, Some p)
    end
  end.

Definition __tcp_get_sha1sig_pool s : sha_state * option nat :=
  match pool s with
  | Some p => (set_users (u64 (users s + 1)) s, Some p)
  | None => (s, None)
  end.

(** The section of [tcp_free_sha1sig_pool]: the block to free, if any. *)
Definition free_enter s : sha_state * option nat :=
  let u := u64 (users s - 1) in
  if u =? 0 then (set_pool None (set_users u s), pool s) else (set_users u s, None).
Definition tcp_free_sha1sig_pool s : outcome sha_state :=
  let '(s, p) := free_enter s in
  match p with None => Done s | Some p => __tcp_free_sha1sig_pool s p end.

(** Without another thread the loop is entered once. *)
Definition tcp_alloc_sha1sig_pool s : outcome (option (sha_state * option nat)) :=
  match alloc_enter s with
  | (s, Alloc) =>
    '(s, p) ← __tcp_alloc_sha1sig_pool s;
    r ← alloc_commit s p; Done (Some r)
  | (s, Got p) => Done (Some (s, Some p))
  | (_, Retry) => Done None
  end.

(** The kernel's digest: the calls [crypto_hash_init], [crypto_hash_update] and
    [crypto_hash_final] return 0 or an error, the last one with a digest. *)
Context (crypto_init : bool) (crypto_update : list Z → bool) (crypto_final : list Z → option (list Z)).

Definition tcp_sha1_hash_data (src : list Z) : Z := if crypto_update src then 0 else -1.

(** The return value and the 20 bytes at [sha1_hash]. *)
Definition tcp_v4_sha1_hash_data s (src : list Z) : outcome (sha_state * Z * list Z) :=
  let fail := replicate 20 0 in
  match __tcp_get_sha1sig_pool s with
  | (s, None) => Done (s, 1, fail)
  | (s, Some p) =>
    _ ← deref (heap s !! p);
    let r := if crypto_init then
               if tcp_sha1_hash_data src =? 0 then
                 match crypto_final src with Some d => (0, d) | None => (1, fail) end
               else (1, fail)
             else (1, fail) in
    s ← tcp_free_sha1sig_pool s;
    Done (s, fst r, snd r)
  end.
End pool.
