(* ===== verification/Sha1PoolSpec.v ===== *)
(** The pool of digest contexts under concurrency: nobody uses a block that was
    freed, and when all users are gone nothing is left. *)
From S2P Require Import Prelude Sha1Pool.
#[local] Open Scope Z_scope.

Lemma filter_same {A} (P : A → Prop) `{∀ x, Decision (P x)} n x :
  filter P (replicate n x) = if decide (P x) then replicate n x else [].
Proof.
  induction n as [|n IH]; [by case_decide|]. cbn [replicate]. rewrite filter_cons, IH. by case_decide.
Qed.

(** ** One thread *)

Section ops.
  Context `{Allocator} (cpus : nat).
  Implicit Types s : sha_state.

(** A complete block. *)
Definition full : block := replicate cpus (Some true).

Lemma free_slots s b :
  foldl free_slot s b =
    Sha (users s) (pool s) (heap s) (tfms s - Z.of_nat (length (filter (λ x, x = Some true) b)))
      (structs s - Z.of_nat (length (filter (λ x, x ≠ None) b))) (count s).
Proof.
  revert s. induction b as [|[tfm|] b IH]; intros [u p h t n c]; cbn [foldl].
  - cbn. f_equal; lia.
  - rewrite IH, !filter_cons. cbn [users pool heap tfms structs count add_objects free_slot].
    rewrite (decide_True (P := Some tfm ≠ None)) by done. destruct tfm.
    + rewrite decide_True by done. cbn [length]. f_equal; lia.
    + rewrite decide_False by done. cbn [length]. f_equal; lia.
  - rewrite IH, !filter_cons, !decide_False by (done || by intros []). done.
Qed.

Lemma free_block s p :
  heap s !! p = Some full →
  __tcp_free_sha1sig_pool s p =
    Done (Sha (users s) (pool s) (delete p (heap s)) (tfms s - Z.of_nat cpus) (structs s - Z.of_nat cpus) (count s)).
Proof.
  intros Hp. unfold __tcp_free_sha1sig_pool. rewrite Hp. cbn [deref mbind outcome_bind].
  rewrite free_slots. unfold full, set_heap. cbn [users pool heap tfms structs count].
  rewrite !filter_same, !decide_True by done. by rewrite length_replicate.
Qed.

(** A failed allocation leaves nothing behind; one that does not fail makes a
    complete block. *)
Lemma fill_slots_spec s n b :
  let '(s', b', ok) := fill_slots s n b in
  users s' = users s ∧ pool s' = pool s ∧ heap s' = heap s ∧ (count s ≤ count s')%nat ∧
  ∃ c, b' = b ++ c ∧ tfms s' = tfms s + Z.of_nat (length (filter (λ x, x = Some true) c)) ∧
    structs s' = structs s + Z.of_nat (length (filter (λ x, x ≠ None) c)) ∧
    (ok = true → c = replicate n (Some true)).
Proof.
  revert s b. induction n as [|n IH]; intros s b; cbn [fill_slots].
  { do 3 (split; [done|]). split; [lia|]. exists []. rewrite app_nil_r. cbn. repeat split; lia. }
  destruct (alloc_ok (count s)).
  - destruct (alloc_ok _).
    + specialize (IH (add_objects 1 0 (S (count (add_objects 0 1 (S (count s)) s))) (add_objects 0 1 (S (count s)) s)) (b ++ [Some true])).
      destruct (fill_slots _ n _) as [[s' b'] ok]. cbn [users pool heap tfms structs count add_objects] in *.
      destruct IH as (E1&E2&E3&E4&c&->&E5&E6&E7). do 3 (split; [done|]). split; [lia|].
      exists (Some true :: c). rewrite <- app_assoc. split; [done|].
      rewrite !filter_cons, !decide_True by done. cbn [length]. split; [lia|]. split; [lia|].
      intros Hok. by rewrite (E7 Hok).
    + cbn [users pool heap tfms structs count add_objects]. do 3 (split; [done|]). split; [lia|].
      exists ([Some false] ++ replicate n None). split; [done|]. cbn [app].
      rewrite !filter_cons, (decide_False (P := Some false = Some true)), decide_True by done.
      rewrite !filter_same, (decide_False (P := None = Some true)), (decide_False (P := None ≠ None)) by (done || by intros []). cbn. repeat split; lia || done.
  - cbn [users pool heap tfms structs count add_objects]. do 3 (split; [done|]). split; [lia|].
    exists (replicate (S n) None). split; [done|]. rewrite !filter_same, (decide_False (P := None = Some true)), (decide_False (P := None ≠ None)) by (done || by intros []). cbn. repeat split; lia || done.
Qed.

Lemma alloc_block s :
  heap s !! count s = None →
  ∃ s' r, __tcp_alloc_sha1sig_pool cpus s = Done (s', r) ∧
    users s' = users s ∧ pool s' = pool s ∧ (count s < count s')%nat ∧
    match r with
    | None => heap s' = heap s ∧ tfms s' = tfms s ∧ structs s' = structs s
    | Some p => p = count s ∧ heap s' = <[p := full]> (heap s) ∧
        tfms s' = tfms s + Z.of_nat cpus ∧ structs s' = structs s + Z.of_nat cpus
    end.
Proof.
  intros Hfresh. unfold __tcp_alloc_sha1sig_pool. destruct (alloc_ok (count s)).
  2: { eexists _, None. split; [reflexivity|]. cbn. repeat split; lia. }
  pose proof (fill_slots_spec (add_objects 0 0 (S (count s)) s) cpus []) as Hf.
  destruct (fill_slots _ cpus []) as [[s1 b] ok]. cbn [users pool heap tfms structs count add_objects app] in Hf.
  destruct Hf as (E1&E2&E3&E4&c&->&E5&E6&E7). destruct ok.
  - rewrite (E7 eq_refl) in *. eexists _, (Some (count s)). split; [reflexivity|].
    cbn [users pool heap tfms structs count set_heap app]. rewrite E3. do 2 (split; [done|]). split; [lia|].
    split; [done|]. split; [done|].
    rewrite !filter_same, !decide_True, length_replicate in * by done. lia.
  - unfold __tcp_free_sha1sig_pool. cbn [heap set_heap app]. rewrite E3, lookup_insert_eq.
    cbn [deref mbind outcome_bind]. rewrite free_slots. eexists _, None. split; [reflexivity|].
    cbn [users pool heap tfms structs count set_heap]. do 2 (split; [done|]). split; [lia|].
    rewrite delete_insert_id by done. split; [done|]. lia.
Qed.
End ops.

(** ** Threads *)

(** What a thread is doing: between the two sections of [tcp_alloc_sha1sig_pool],
    before and after the block is built; a user; or about to free a block. *)
Inductive phase := Idle | Allocating | Built (r : option nat) | Holding (p : nat) | Freeing (p : nat).

Section threads.
  Context `{Allocator} (cpus : nat).
  Implicit Types s : sha_state.

Inductive pool_step : sha_state * list phase → sha_state * list phase → Prop :=
| step_enter s l k :
    pool_step (s, l ++ Idle :: k)
      ((alloc_enter s).1,
       l ++ (match (alloc_enter s).2 with Alloc => Allocating | Retry => Idle | Got p => Holding p end) :: k)
| step_build s l k s' r :
    __tcp_alloc_sha1sig_pool cpus s = Done (s', r) →
    pool_step (s, l ++ Allocating :: k) (s', l ++ Built r :: k)
| step_commit s l k r s' r' :
    alloc_commit s r = Done (s', r') →
    pool_step (s, l ++ Built r :: k)
      (s', l ++ (match r' with Some p => Holding p | None => Idle end) :: k)
| step_get s l k :
    pool_step (s, l ++ Idle :: k)
      ((__tcp_get_sha1sig_pool s).1,
       l ++ (match (__tcp_get_sha1sig_pool s).2 with Some p => Holding p | None => Idle end) :: k)
| step_free s l k p :
    pool_step (s, l ++ Holding p :: k)
      ((free_enter s).1, l ++ (match (free_enter s).2 with Some q => Freeing q | None => Idle end) :: k)
| step_release s l k p s' :
    __tcp_free_sha1sig_pool s p = Done s' →
    pool_step (s, l ++ Freeing p :: k) (s', l ++ Idle :: k).

Definition pool0 : sha_state := Sha 0 None ∅ 0 0 0.
Inductive pool_reached (n : nat) : sha_state * list phase → Prop :=
| reached_start : pool_reached n (pool0, replicate n Idle)
| reached_step x y : pool_reached n x → pool_step x y → pool_reached n y.

(** Who counts as a user, who is allocating, and which blocks threads own. *)
Definition is_user (ph : phase) : Z := match ph with Idle | Freeing _ => 0 | _ => 1 end.
Definition is_busy (ph : phase) : Z := match ph with Allocating | Built _ => 1 | _ => 0 end.
Definition owns (ph : phase) : list nat :=
  match ph with Built (Some p) | Freeing p => [p] | _ => [] end.
Fixpoint total (f : phase → Z) (ts : list phase) : Z :=
  match ts with [] => 0 | ph :: ts => f ph + total f ts end.
Definition owned (s : sha_state) (ts : list phase) : list nat := option_list (pool s) ++ concat (owns <$> ts).

Record pool_ok (x : sha_state * list phase) : Prop := {
  po_users : users x.1 = total is_user x.2;
  po_small : Z.of_nat (length x.2) < 2 ^ 63;
  po_busy : total is_busy x.2 ≤ 1;
  po_alone : 0 < total is_busy x.2 → pool x.1 = None ∧ total is_user x.2 = 1;
  po_holding : ∀ p, Holding p ∈ x.2 → pool x.1 = Some p;
  po_pool : pool x.1 ≠ None → 0 < total is_user x.2;
  po_owned : NoDup (owned x.1 x.2);
  po_heap : ∀ p, p ∈ owned x.1 x.2 ↔ is_Some (heap x.1 !! p);
  po_full : ∀ p b, heap x.1 !! p = Some b → b = full cpus ∧ (p < count x.1)%nat;
  po_tfms : tfms x.1 = Z.of_nat cpus * Z.of_nat (size (heap x.1));
  po_structs : structs x.1 = Z.of_nat cpus * Z.of_nat (size (heap x.1)) }.

Lemma total_mid f l ph k : total f (l ++ ph :: k) = f ph + total f (l ++ k).
Proof using. induction l as [|x l IH]; cbn [app total]; lia. Qed.
Lemma user_range ts : 0 ≤ total is_busy ts ≤ total is_user ts ∧ total is_user ts ≤ Z.of_nat (length ts).
Proof using. induction ts as [|ph ts IH]; cbn [total length]; [lia|]. destruct ph; cbn [is_busy is_user]; lia. Qed.
Lemma owned_mid s l ph k : owned s (l ++ ph :: k) ≡ₚ owns ph ++ owned s (l ++ k).
Proof using.
  unfold owned. rewrite !fmap_app, fmap_cons, !concat_app. cbn [concat].
  solve_Permutation.
Qed.

Lemma holding_user p ts : Holding p ∈ ts → 0 < total is_user ts.
Proof using.
  induction ts as [|ph ts IH]; [by intros ?%not_elem_of_nil|].
  pose proof (user_range ts). intros [<-|Hin]%elem_of_cons; cbn [total is_user]; [lia|].
  specialize (IH Hin). destruct ph; cbn [is_user]; lia.
Qed.
Lemma holding_mid p l ph k : Holding p ∈ l ++ ph :: k ↔ ph = Holding p ∨ Holding p ∈ l ++ k.
Proof using. rewrite !elem_of_app, elem_of_cons. naive_solver. Qed.

Section one.
  Context (s : sha_state) (l k : list phase) (old : phase) (Hok : pool_ok (s, l ++ old :: k)).

(** The next state, when the heap stays as it is. *)
Lemma ok_same_heap s' ph :
  heap s' = heap s → tfms s' = tfms s → structs s' = structs s → count s' = count s →
  owned s' (l ++ ph :: k) ≡ₚ owned s (l ++ old :: k) →
  users s' = users s - is_user old + is_user ph →
  (is_busy old + total is_busy (l ++ k)) - is_busy old + is_busy ph ≤ 1 →
  (0 < is_busy ph + total is_busy (l ++ k) → pool s' = None ∧ is_user ph + total is_user (l ++ k) = 1) →
  (∀ p, ph = Holding p ∨ Holding p ∈ l ++ k → pool s' = Some p) →
  (pool s' ≠ None → 0 < is_user ph + total is_user (l ++ k)) →
  pool_ok (s', l ++ ph :: k).
Proof using Hok.
  intros Eh Et Es Ec Ho Hu Hb Ha Hh Hp. destruct Hok as [O1 O2 O3 O4 O5 O6 O7 O8 O9 O10 O11].
  cbn [fst snd] in *. rewrite !total_mid in *.
  split; cbn [fst snd]; rewrite ?total_mid, ?Eh, ?Et, ?Es, ?Ec; try done; try lia.
  - rewrite length_app in *. cbn [length] in *. lia.
  - intros p. rewrite holding_mid. apply Hh.
  - by rewrite Ho.
  - intros p. by rewrite Ho.
Qed.
End one.

(** What the invariant says of a thread that is idle or a user. *)
Ltac open_ok Hok :=
  pose proof Hok as [O1 O2 O3 O4 O5 O6 O7 O8 O9 O10 O11]; cbn [fst snd] in *;
  rewrite !total_mid in *; cbn [is_user is_busy] in *;
  match goal with O2 : Z.of_nat (length (?l ++ _ :: ?k)) < _ |- _ =>
    pose proof (user_range (l ++ k)) as [Hr1 Hr2]; rewrite length_app in O2, Hr2; cbn [length] in O2
  end.
Ltac same_heap Hok :=
  eapply (ok_same_heap _ _ _ _ Hok);
  cbn [heap tfms structs count users pool set_users set_pool is_user is_busy];
  [done|done|done|done|rewrite !owned_mid|..].

Lemma step_enter_ok s l k :
  pool_ok (s, l ++ Idle :: k) →
  pool_ok ((alloc_enter s).1,
    l ++ (match (alloc_enter s).2 with Alloc => Allocating | Retry => Idle | Got p => Holding p end) :: k).
Proof using.
  intros Hok. open_ok Hok. unfold alloc_enter. destruct (Z.eqb_spec (users s) 0) as [Hz|Hz]; cbn [fst snd].
  - rewrite Hz. change (u64 (0 + 1)) with 1.
    assert (Hn : pool s = None) by (destruct (pool s); [specialize (O6 ltac:(done)); lia|done]).
    same_heap Hok; [done|lia|lia| | |done].
    + intros _. split; [done|lia].
    + intros p [|Hp]; [done|]. apply holding_user in Hp. lia.
  - destruct (pool s) as [p|] eqn:Ep; cbn [fst snd].
    + rewrite u64_small by lia. same_heap Hok; rewrite ?Ep; [done|lia|lia| | |lia].
      * intros Hb. destruct O4 as [? _]; [lia|done].
      * intros q [[= ->]|Hq]; [done|]. apply O5, holding_mid. by right.
    + rewrite (u64_small (users s + 1)), u64_small by lia. same_heap Hok; rewrite ?Ep; [done|lia|lia| | |done].
      * intros Hb. destruct O4 as [_ ?]; [lia|]. split; [done|lia].
      * intros q [|Hq]; [done|]. apply O5, holding_mid. by right.
Qed.

Lemma step_get_ok s l k :
  pool_ok (s, l ++ Idle :: k) →
  pool_ok ((__tcp_get_sha1sig_pool s).1,
    l ++ (match (__tcp_get_sha1sig_pool s).2 with Some p => Holding p | None => Idle end) :: k).
Proof using.
  intros Hok. open_ok Hok. unfold __tcp_get_sha1sig_pool. destruct (pool s) as [p|] eqn:Ep; cbn [fst snd]; [|done].
  specialize (O6 ltac:(done)). rewrite u64_small by lia. same_heap Hok; rewrite ?Ep; [done|lia|lia| | |lia].
  - intros Hb. destruct O4 as [? _]; [lia|done].
  - intros q [[= ->]|Hq]; [done|]. apply O5, holding_mid. by right.
Qed.

Lemma step_free_ok s l k p :
  pool_ok (s, l ++ Holding p :: k) →
  pool_ok ((free_enter s).1, l ++ (match (free_enter s).2 with Some q => Freeing q | None => Idle end) :: k).
Proof using.
  intros Hok. open_ok Hok. assert (Ep : pool s = Some p) by (apply O5, holding_mid; by left).
  unfold free_enter. rewrite u64_small by lia.
  destruct (Z.eqb_spec (users s - 1) 0) as [Hz|Hz]; cbn [fst snd]; rewrite ?Ep.
  - same_heap Hok; [|lia|lia| | |done].
    + cbn [owns]. unfold owned. cbn [pool set_pool set_users]. rewrite Ep. cbn. done.
    + intros Hb. split; [done|]. lia.
    + intros q [|Hq]; [done|]. apply holding_user in Hq. lia.
  - same_heap Hok; rewrite ?Ep; [done|lia|lia| | |lia].
    + intros Hb. destruct O4 as [? _]; [lia|congruence].
    + intros q [|Hq]; [done|]. rewrite <- Ep. apply O5, holding_mid. by right.
Qed.

Lemma owned_same s s' ts : pool s' = pool s → owned s' ts = owned s ts.
Proof using. unfold owned. by intros ->. Qed.

Lemma step_build_ok s l k s' r :
  pool_ok (s, l ++ Allocating :: k) → __tcp_alloc_sha1sig_pool cpus s = Done (s', r) →
  pool_ok (s', l ++ Built r :: k).
Proof using.
  intros Hok E. open_ok Hok.
  assert (Hfresh : heap s !! count s = None).
  { destruct (heap s !! count s) as [b|] eqn:Eb; [|done]. apply O9 in Eb as [_ ?]. lia. }
  destruct (alloc_block cpus s Hfresh) as (s1&r1&E1&Hu&Hp&Hc&Hr). rewrite E in E1. injection E1 as <- <-.
  destruct O4 as [Hnone Halone]; [lia|].
  split; cbn [fst snd]; rewrite ?total_mid, ?Hu, ?Hp; cbn [is_user is_busy]; try done; try lia.
  - rewrite length_app. cbn [length]. lia.
  - intros q. rewrite holding_mid. intros [|Hq]; [done|]. apply O5, holding_mid. by right.
  - rewrite owned_mid, (owned_same s s') by done. rewrite owned_mid in O7. destruct r as [p|]; [|done].
    destruct Hr as (->&_). cbn [owns app] in *. constructor; [|done]. intros Hin.
    assert (Hd : count s ∈ owned s (l ++ Allocating :: k)) by (rewrite owned_mid; done).
    apply O8 in Hd as [b Hb]. congruence.
  - intros q. rewrite owned_mid, (owned_same s s') by done. specialize (O8 q). rewrite owned_mid in O8.
    destruct r as [p|]; [|destruct Hr as (->&_); done]. destruct Hr as (->&->&_). cbn [owns app] in *.
    rewrite elem_of_cons, lookup_insert_is_Some', O8. naive_solver.
  - intros q b. destruct r as [p|].
    + destruct Hr as (->&->&_). intros [[<- <-]|[_ Hq]]%lookup_insert_Some; [done|].
      destruct (O9 q b Hq). split; [done|lia].
    + destruct Hr as (->&_). intros Hq. destruct (O9 q b Hq). split; [done|lia].
  - destruct r as [p|]; [|by destruct Hr as (->&->&_)]. destruct Hr as (->&->&->&_).
    rewrite map_size_insert_None by done. lia.
  - destruct r as [p|]; [|by destruct Hr as (->&_&->)]. destruct Hr as (->&->&_&->).
    rewrite map_size_insert_None by done. lia.
Qed.

Lemma step_commit_ok s l k r s' r' :
  pool_ok (s, l ++ Built r :: k) → alloc_commit s r = Done (s', r') →
  pool_ok (s', l ++ (match r' with Some p => Holding p | None => Idle end) :: k).
Proof using.
  intros Hok E. open_ok Hok. destruct O4 as [Hnone Halone]; [lia|]. unfold alloc_commit in E.
  rewrite Hnone in E. destruct r as [p|]; injection E as <- <-.
  - same_heap Hok; [|lia|lia| | |lia].
    + cbn [owns]. unfold owned. cbn [pool set_pool]. rewrite Hnone. done.
    + lia.
    + intros q [[= ->]|Hq]; [done|]. apply holding_user in Hq. lia.
  - rewrite u64_small by lia. same_heap Hok; rewrite ?Hnone; [done|lia|lia| | |done].
    + lia.
    + intros q [|Hq]; [done|]. apply holding_user in Hq. lia.
Qed.

Lemma step_release_ok s l k p :
  pool_ok (s, l ++ Freeing p :: k) →
  ∃ s', __tcp_free_sha1sig_pool s p = Done s' ∧ pool_ok (s', l ++ Idle :: k).
Proof using.
  intros Hok. open_ok Hok.
  assert (Hin : p ∈ owned s (l ++ Freeing p :: k)) by (rewrite owned_mid; apply list_elem_of_here).
  apply O8 in Hin as [b Hb]. destruct (O9 p b Hb) as [-> _]. rewrite (free_block cpus s p Hb).
  eexists. split; [reflexivity|].
  assert (Hsz : Z.of_nat (size (delete p (heap s))) = Z.of_nat (size (heap s)) - 1).
  { rewrite map_size_delete_Some by (by eexists).
    assert (size (heap s) ≠ 0%nat) by (intros E%map_size_empty_inv; by rewrite E in Hb). lia. }
  split; cbn [fst snd users pool heap tfms structs count];
    rewrite ?total_mid, ?Hsz; cbn [is_user is_busy]; try done; try lia.
  - rewrite length_app. cbn [length]. lia.
  - intros q. rewrite holding_mid. intros [|Hq]; [done|]. apply O5, holding_mid. by right.
  - rewrite owned_mid in O7 |- *. cbn [owns app] in *. by apply NoDup_cons in O7 as [_ O7].
  - intros q. specialize (O8 q). rewrite owned_mid in O7, O8 |- *. cbn [owns app] in *.
    apply NoDup_cons in O7 as [Hnp _]. rewrite elem_of_cons in O8. rewrite lookup_delete_is_Some.
    change (owned (Sha (users s) (pool s) _ _ _ _) (l ++ k)) with (owned s (l ++ k)). split.
    + intros Hq. split; [by intros ->|]. apply O8. by right.
    + intros [Hne Hq]. apply O8 in Hq as [->|]; done.
  - intros q b [_ Hq]%lookup_delete_Some. by apply O9.
Qed.

Lemma pool0_ok n : Z.of_nat n < 2 ^ 63 → pool_ok (pool0, replicate n Idle).
Proof using.
  intros Hn. assert (Ht : ∀ f, f Idle = 0 → total f (replicate n Idle) = 0)
    by (intros f Hf; clear Hn; induction n as [|n IH]; cbn [replicate total]; lia).
  assert (Ho : owned pool0 (replicate n Idle) = []).
  { unfold owned, pool0. cbn [pool option_list app]. clear. induction n; [done|]. cbn. done. }
  split; cbn [fst snd]; rewrite ?Ht, ?Ho by done; try done; cbn [users pool heap pool0].
  - by rewrite length_replicate.
  - intros p Hp. by apply elem_of_replicate_inv in Hp.
  - constructor.
  - intros p. rewrite lookup_empty. split; [by intros ?%not_elem_of_nil|by intros []].
  - cbn. rewrite map_size_empty. lia.
  - cbn. rewrite map_size_empty. lia.
Qed.

Lemma pool_reached_ok n x : Z.of_nat n < 2 ^ 63 → pool_reached n x → pool_ok x.
Proof using.
  intros Hn. induction 1 as [|x y Hx IH Hs]; [by apply pool0_ok|]. destruct Hs.
  - by apply step_enter_ok.
  - by eapply step_build_ok.
  - by eapply step_commit_ok.
  - by apply step_get_ok.
  - by eapply step_free_ok.
  - destruct (step_release_ok s l k p IH) as (s1&E&Hok). congruence.
Qed.
End threads.

(** C34. Threads that allocate, get and free the pool, in any order: a block that
    a thread uses is the pool and is complete, a block about to be freed can be
    freed (no block is freed twice or used after it was freed), and once every
    thread is idle no block, no context and no user is left. *)
Theorem sha1_pool_safe `{Allocator} cpus n (s : sha_state) ts :
  Z.of_nat n < 2 ^ 63 → pool_reached cpus n (s, ts) →
  (∀ p, Holding p ∈ ts → pool s = Some p ∧ heap s !! p = Some (full cpus)) ∧
  (∀ p, Freeing p ∈ ts → ∃ s', __tcp_free_sha1sig_pool s p = Done s') ∧
  (Forall (λ ph, ph = Idle) ts → users s = 0 ∧ pool s = None ∧ heap s = ∅ ∧ tfms s = 0 ∧ structs s = 0).
Proof.
  intros Hn Hr. apply pool_reached_ok in Hr as Hok; [|done]. pose proof Hok as [O1 O2 O3 O4 O5 O6 O7 O8 O9 O10 O11].
  cbn [fst snd] in *. split; [|split].
  - intros p Hp. apply O5 in Hp as Ep. split; [done|].
    assert (Hin : p ∈ owned s ts) by (unfold owned; rewrite Ep; apply list_elem_of_here).
    apply O8 in Hin as [b Hb]. by destruct (O9 p b Hb) as [-> _].
  - intros p (l&k&->)%list_elem_of_split. destruct (step_release_ok cpus s l k p Hok) as (s'&E&_). by exists s'.
  - intros Hidle. assert (Hz : total is_user ts = 0 ∧ concat (owns <$> ts) = [])
      by (clear -Hidle; induction Hidle as [|ph ts -> _ [IH1 IH2]]; [done|]; cbn; by rewrite IH1).
    destruct Hz as [Hz Ho]. assert (Ep : pool s = None) by (destruct (pool s); [specialize (O6 ltac:(done)); lia|done]).
    assert (Eh : heap s = ∅).
    { apply map_empty. intros p. destruct (heap s !! p) eqn:E; [|done].
      assert (Hp : p ∈ owned s ts) by (apply O8; by eexists). unfold owned in Hp. rewrite Ep, Ho in Hp.
      by apply not_elem_of_nil in Hp. }
    rewrite O10, O11, Eh, map_size_empty. split_and!; done || lia.
Qed.
(** Two threads that use the pool the first one allocated. *)
Definition two_users : sha_state * list phase :=
  (Sha 2 (Some 0%nat) {[0%nat := full 2]} 2 2 5, [Holding 0; Holding 0]).
Lemma two_users_reached : pool_reached 2 2 two_users.
Proof.
  pose proof (reached_start 2 2) as R.
  eapply reached_step in R; [|apply (step_enter 2 _ [] [Idle])].
  eapply reached_step in R; [|apply (step_build 2 _ [] [Idle]); reflexivity].
  eapply reached_step in R; [|apply (step_commit 2 _ [] [Idle]); reflexivity].
  eapply reached_step in R; [|apply (step_get 2 _ [Holding 0] [])].
  exact R.
Qed.
Lemma sha1_pool_safe_witness :
  (∀ p, Holding p ∈ two_users.2 → pool two_users.1 = Some p ∧ heap two_users.1 !! p = Some (full 2)) ∧
  (∀ p, Freeing p ∈ two_users.2 → ∃ s', __tcp_free_sha1sig_pool two_users.1 p = Done s') ∧
  (Forall (λ ph, ph = Idle) two_users.2 →
    users two_users.1 = 0 ∧ pool two_users.1 = None ∧ heap two_users.1 = ∅ ∧
    tfms two_users.1 = 0 ∧ structs two_users.1 = 0).
Proof.
  apply (sha1_pool_safe 2 2 two_users.1 two_users.2).
  - reflexivity.
  - apply two_users_reached.
Defined.

(** ** The first allocation and the last free *)

Section first.
  Context `{Allocator} (cpus : nat).

Definition pool_made : bool :=
  match __tcp_alloc_sha1sig_pool cpus (set_users 1 pool0) with Done (_, Some _) => true | _ => false end.
Definition pool_full (s : sha_state) : Prop :=
  ∃ p, users s = 1 ∧ pool s = Some p ∧ heap s = {[p := full cpus]} ∧ tfms s = Z.of_nat cpus ∧ structs s = Z.of_nat cpus.
Definition pool_none (u : Z) (s : sha_state) : Prop :=
  users s = u ∧ pool s = None ∧ heap s = ∅ ∧ tfms s = 0 ∧ structs s = 0.

Lemma alloc_first :
  ∃ s r, tcp_alloc_sha1sig_pool cpus pool0 = Done (Some (s, r)) ∧
    if pool_made then pool_full s ∧ is_Some r else pool_none 0 s ∧ r = None.
Proof.
  unfold tcp_alloc_sha1sig_pool, pool_made. change (alloc_enter pool0) with (set_users 1 pool0, Alloc).
  destruct (alloc_block cpus (set_users 1 pool0)) as (s&r&E&Hu&Hp&_&Hr); [done|].
  rewrite E. cbn [mbind outcome_bind]. cbn in Hu, Hp. unfold alloc_commit.
  destruct r as [p|]; rewrite ?Hp, ?Hu; cbn [mbind outcome_bind]; eexists _, _; (split; [reflexivity|]).
  - destruct Hr as (_&Hh&Ht&Hc). split; [|by eexists]. exists p. cbn. rewrite Hh. split_and!; by rewrite ?Ht, ?Hc.
  - destruct Hr as (Hh&Ht&Hc). by split_and!.
Qed.
Lemma free_none s :
  pool_none 0 s → ∃ s', tcp_free_sha1sig_pool s = Done s' ∧ pool_none (2 ^ 64 - 1) s'.
Proof.
  intros (Hu&Hp&Hn). unfold tcp_free_sha1sig_pool, free_enter. rewrite Hu.
  change (u64 (0 - 1)) with (2 ^ 64 - 1). change (2 ^ 64 - 1 =? 0) with false. by eexists.
Qed.
Lemma free_full s : pool_full s → ∃ s', tcp_free_sha1sig_pool s = Done s' ∧ pool_none 0 s'.
Proof.
  intros (p&Hu&Hp&Hh&Ht&Hc). unfold tcp_free_sha1sig_pool, free_enter. rewrite Hu, Hp.
  change (u64 (1 - 1)) with 0. change (0 =? 0) with true. cbv iota.
  rewrite (free_block cpus) by (cbn; by rewrite Hh, lookup_singleton_eq).
  eexists. split; [reflexivity|]. unfold pool_none. cbn. rewrite Hh, Ht, Hc.
  rewrite delete_singleton_eq. split_and!; lia || done.
Qed.
End first.

(** Hashing while the pool is there: the count is what it was, and the result is
    the kernel's digest, or 1 and zeros. *)
Lemma tcp_v4_sha1_hash_data_spec `{Allocator} init update final s p src :
  pool s = Some p → is_Some (heap s !! p) → 1 ≤ users s < 2 ^ 63 →
  tcp_v4_sha1_hash_data init update final s src =
    match (if init && update src then final src else None) with
    | Some d => Done (s, 0, d)
    | None => Done (s, 1, replicate 20 0)
    end.
Proof.
  intros Hp [b Hb] Hu. unfold tcp_v4_sha1_hash_data, __tcp_get_sha1sig_pool. rewrite Hp.
  cbn [heap set_users]. rewrite Hb. cbn [deref mbind outcome_bind].
  unfold tcp_free_sha1sig_pool, free_enter. cbn [users set_users].
  rewrite (u64_small (users s + 1)), u64_small by lia. rewrite (proj2 (Z.eqb_neq (users s + 1 - 1) 0)) by lia.
  cbn [mbind outcome_bind]. destruct s as [u q h t c n]. cbn [users pool heap tfms structs count set_users] in *.
  replace (u + 1 - 1) with u by lia. unfold tcp_sha1_hash_data.
  destruct init, (update src); cbn [andb]; try done. change (0 =? 0) with true. cbv iota.
  by destruct (final src).
Qed.
