(* ===== verification/ModInit.v ===== *)
(** Loading and unloading the module (model/kernel_hash/main.c, alloc_file.c,
    slab_cache.c, bitmap.c and the first and last functions of hash_table.c):
    what is acquired, in which order, and what the error labels give back. *)
From S2P Require Import Prelude JenHash Bitmap Sha1Pool.
#[local] Open Scope Z_scope.

(** A pointer variable of the module: NULL, allocated, allocated and its
    contents set up, or freed and left as it is. *)
Inductive ptr := PNull | PRaw | PLive | PFreed.
(** [reserve_file] of a CPU: NULL, an error pointer, open, or put back. *)
Inductive fileptr := FNull | FErr | FOpen | FPut.

(** The calls that return a pointer, and can fail. *)
Inductive call :=
| CSkbWq | CFile (cpu : nat) | CSlab (i : nat) | CBitmap (cpu : nat)
| CWriteWq | CTab | CClear | CCachep.

(** The caches of slab_cache.c, in the order of [alloc_slab]. *)
Definition slab_names : list nat := seq 0 8.

Record kmod := Kmod {
  skb_wq : ptr;
  reserve_file : list fileptr;
  slabs : list ptr;
  bitmaps : list ptr;
  writeread_wq : ptr;
  hash_tab : ptr;
  bucket_clear : ptr;
  hash_cachep : ptr;
  timers : bool;
  nf_out_ops : bool;
  nf_in_ops : bool;
  jprobe : bool;
  kprobe_in_reged : bool;
  used_mem : Z;
  sha : sha_state }.

(** A loop that stops at the first failure, and one CPU or cache of a loop that
    visits all of them. *)
Fixpoint fill {A} (ok : nat → bool) (good bad : A) (s : list A) (l : list nat) : list A * bool :=
  match l with
  | [] => (s, true)
  | i :: l => if ok i then fill ok good bad (<[i := good]> s) l else (<[i := bad]> s, false)
  end.
Definition at_index {A} (g : A → outcome A) (s : list A) (i : nat) : outcome (list A) :=
  p ← deref (s !! i); p ← g p; Done (<[i := p]> s).

(** [ret_out], [ret_in] and [ret_probe] are what the three registrations
    return. *)
Section init.
  Context `{Allocator} (ok : call → bool) (ret_out ret_in ret_probe : Z) (cpus : nat).
  Implicit Types m : kmod.

Definition set_skb_wq p m : kmod :=
  Kmod p (reserve_file m) (slabs m) (bitmaps m) (writeread_wq m) (hash_tab m) (bucket_clear m) (hash_cachep m)
    (timers m) (nf_out_ops m) (nf_in_ops m) (jprobe m) (kprobe_in_reged m) (used_mem m) (sha m).
Definition set_files f m : kmod :=
  Kmod (skb_wq m) f (slabs m) (bitmaps m) (writeread_wq m) (hash_tab m) (bucket_clear m) (hash_cachep m)
    (timers m) (nf_out_ops m) (nf_in_ops m) (jprobe m) (kprobe_in_reged m) (used_mem m) (sha m).
Definition set_slabs l m : kmod :=
  Kmod (skb_wq m) (reserve_file m) l (bitmaps m) (writeread_wq m) (hash_tab m) (bucket_clear m) (hash_cachep m)
    (timers m) (nf_out_ops m) (nf_in_ops m) (jprobe m) (kprobe_in_reged m) (used_mem m) (sha m).
Definition set_bitmaps l u m : kmod :=
  Kmod (skb_wq m) (reserve_file m) (slabs m) l (writeread_wq m) (hash_tab m) (bucket_clear m) (hash_cachep m)
    (timers m) (nf_out_ops m) (nf_in_ops m) (jprobe m) (kprobe_in_reged m) u (sha m).
(** Work queue, table, timers and cache of hash_table.c. *)
Definition set_table w t b c r u m : kmod :=
  Kmod (skb_wq m) (reserve_file m) (slabs m) (bitmaps m) w t b c r
    (nf_out_ops m) (nf_in_ops m) (jprobe m) (kprobe_in_reged m) u (sha m).
Definition set_hooks o i m : kmod :=
  Kmod (skb_wq m) (reserve_file m) (slabs m) (bitmaps m) (writeread_wq m) (hash_tab m) (bucket_clear m) (hash_cachep m)
    (timers m) o i (jprobe m) (kprobe_in_reged m) (used_mem m) (sha m).
Definition set_probe p r m : kmod :=
  Kmod (skb_wq m) (reserve_file m) (slabs m) (bitmaps m) (writeread_wq m) (hash_tab m) (bucket_clear m) (hash_cachep m)
    (timers m) (nf_out_ops m) (nf_in_ops m) p r (used_mem m) (sha m).
Definition set_sha s m : kmod :=
  Kmod (skb_wq m) (reserve_file m) (slabs m) (bitmaps m) (writeread_wq m) (hash_tab m) (bucket_clear m) (hash_cachep m)
    (timers m) (nf_out_ops m) (nf_in_ops m) (jprobe m) (kprobe_in_reged m) (used_mem m) s.

Definition ENOMEM : Z := -12.
Definition ENODEV : Z := -19.

Definition init_some_parameters m : kmod * Z :=
  if ok CSkbWq then (set_skb_wq PLive m, 0) else (set_skb_wq PNull m, -1).

Definition alloc_percpu_file m : kmod * Z :=
  let '(f, opened) := fill (λ cpu, ok (CFile cpu)) FOpen FErr (reserve_file m) (seq 0 cpus) in
  (set_files f m, if opened then 0 else ENODEV).
(** [fput] of NULL, or of a file that was put back, faults. *)
Definition put_file (f : fileptr) : outcome fileptr :=
  match f with FErr => Done FErr | FOpen => Done FPut | FNull | FPut => Oops end.
Definition free_percpu_file m : outcome kmod :=
  f ← ofold (at_index put_file) (reserve_file m) (seq 0 cpus); Done (set_files f m).

Definition alloc_slab m : kmod * Z :=
  let '(s, made) := fill (λ i, ok (CSlab i)) PLive PNull (slabs m) slab_names in
  (set_slabs s m, if made then 0 else ENOMEM).
(** [if (p) kmem_cache_destroy(p)], [if (p) vfree(p)]. *)
Definition free_ptr (p : ptr) : outcome ptr :=
  match p with PNull => Done PNull | PRaw | PLive => Done PFreed | PFreed => Oops end.
Definition free_slab m : outcome kmod := s ← ofold (at_index free_ptr) (slabs m) slab_names; Done (set_slabs s m).

Fixpoint alloc_bitmaps (s : list ptr) (u : Z) (l : list nat) : list ptr * Z * Z :=
  match l with
  | [] => (s, u, 0)
  | cpu :: l =>
    if ok (CBitmap cpu) then alloc_bitmaps (<[cpu := PLive]> s) (u64 (u + bitmap_size)) l
    else (<[cpu := PNull]> s, u, ENOMEM)
  end.
Definition alloc_bitmap m : kmod * Z :=
  let '(s, u, err) := alloc_bitmaps (bitmaps m) (used_mem m) (seq 0 cpus) in (set_bitmaps s u m, err).
Definition free_bitmap m : outcome kmod :=
  s ← ofold (at_index free_ptr) (bitmaps m) (seq 0 cpus); Done (set_bitmaps s (used_mem m) m).

(** [sizeof(struct list_head)] and [sizeof(struct timer_list)]. *)
Context (sizeof_list_head sizeof_timer_list : Z).

Definition initial_hash_table_cache m : kmod * Z :=
  if ok CWriteWq then
    if ok CTab then
      let u := u64 (used_mem m + hash_tab_size * sizeof_list_head) in
      if ok CClear then
        let u := u64 (u + hash_tab_size * sizeof_timer_list) in
        if ok CCachep then (set_table PLive PLive PLive PLive true u m, 0)
        else (set_table PLive PFreed PRaw PNull (timers m) u m, ENOMEM)
      else (set_table PLive PRaw PNull (hash_cachep m) (timers m) u m, ENOMEM)
    else (set_table PLive PNull (bucket_clear m) (hash_cachep m) (timers m) (used_mem m) m, ENOMEM)
  else (set_table PNull (hash_tab m) (bucket_clear m) (hash_cachep m) (timers m) (used_mem m) m, -1).
(** [hash_flush] walks the lists of the table: it has to be there and set up. *)
Definition release_hash_table_cache m : outcome kmod :=
  match hash_tab m, writeread_wq m, hash_cachep m with
  | PLive, PLive, PLive =>
    Done (set_table PFreed PFreed (bucket_clear m) PFreed false (used_mem m) m)
  | _, _, _ => Oops
  end.

(** A hook that is not registered has no list to leave. *)
Definition register_out m : kmod * Z := (if ret_out <? 0 then m else set_hooks true (nf_in_ops m) m, ret_out).
Definition register_in m : kmod * Z := (if ret_in <? 0 then m else set_hooks (nf_out_ops m) true m, ret_in).
Definition unregister_out m : outcome kmod :=
  if nf_out_ops m then Done (set_hooks false (nf_in_ops m) m) else Oops.
Definition unregister_in m : outcome kmod :=
  if nf_in_ops m then Done (set_hooks (nf_out_ops m) false m) else Oops.
Definition register_jprobe m : kmod * Z := (if ret_probe <? 0 then m else set_probe true true m, ret_probe).
(** Nobody else uses the pool yet, so the allocation does not wait. *)
Definition alloc_pool m : outcome (kmod * bool) :=
  r ← tcp_alloc_sha1sig_pool cpus (sha m);
  match r with
  | Some (s, p) => Done (set_sha s m, match p with Some _ => true | None => false end)
  | None => Oops
  end.
Definition free_pool m : outcome kmod := s ← tcp_free_sha1sig_pool (sha m); Done (set_sha s m).

(** The labels of [minit], each falling through to the next. *)
Definition err_alloc_file m : outcome kmod := free_percpu_file m.
Definition err_alloc_slab m : outcome kmod := m ← free_slab m; err_alloc_file m.
Definition err_bitmap m : outcome kmod := m ← free_bitmap m; err_alloc_slab m.
Definition err_hash_table_cache m : outcome kmod := m ← release_hash_table_cache m; err_bitmap m.
Definition err_nf_reg_out m : outcome kmod := m ← unregister_out m; err_hash_table_cache m.
Definition err_nf_reg_in m : outcome kmod := m ← unregister_in m; err_nf_reg_out m.
Definition err_sha1siq_pool m : outcome kmod := m ← free_pool m; err_nf_reg_in m.

(** [if (0 > (err = f())) goto label;] *)
Definition attempt (r : kmod * Z) (label : kmod → outcome kmod) (next : kmod → Z → outcome (kmod * Z))
    : outcome (kmod * Z) :=
  let '(m, err) := r in
  if err <? 0 then m ← label m; Done (m, err) else next m err.

(** [minit] from line 89 on, and the whole of it. *)
Definition minit_hooks m : outcome (kmod * Z) :=
  attempt (register_out m) err_nf_reg_out (λ m _,
  attempt (register_in m) err_nf_reg_in (λ m err,
  '(m, there) ← alloc_pool m;
  if negb there then m ← err_sha1siq_pool m; Done (m, err)
  else attempt (register_jprobe m) Done (λ m err, Done (m, err)))).
Definition minit m : outcome (kmod * Z) :=
  attempt (init_some_parameters m) Done (λ m _,
  attempt (alloc_percpu_file m) err_alloc_file (λ m _,
  attempt (alloc_slab m) err_alloc_slab (λ m _,
  attempt (alloc_bitmap m) err_bitmap (λ m _,
  attempt (initial_hash_table_cache m) err_hash_table_cache (λ m _, minit_hooks m))))).

(** [destroy] of a work queue. *)
Definition destroy_skb_wq m : outcome kmod :=
  match skb_wq m with PLive => Done (set_skb_wq PFreed m) | _ => Oops end.
Definition mexit m : outcome kmod :=
  m ← unregister_in m;
  m ← unregister_out m;
  let m := if kprobe_in_reged m then set_probe false (kprobe_in_reged m) m else m in
  m ← destroy_skb_wq m;
  m ← release_hash_table_cache m;
  m ← free_percpu_file m;
  m ← free_slab m;
  m ← free_bitmap m;
  free_pool m.

(** The variables when the module is mapped. *)
Definition kmod0 : kmod :=
  Kmod PNull (replicate cpus FNull) (replicate 8 PNull) (replicate cpus PNull) PNull PNull PNull PNull
    false false false false false 0 (Sha 0 None ∅ 0 0 0).
End init.
