(* ===== verification/ModInitSpec.v ===== *)
(** What loading the module holds and what unloading it gives back, for every
    call that can fail first (model/kernel_hash/main.c). *)
From S2P Require Import Prelude JenHash Bitmap Sha1Pool Sha1PoolSpec ModInit.
#[local] Open Scope Z_scope.

#[local] Ltac ksimpl :=
  cbn [skb_wq reserve_file slabs bitmaps writeread_wq hash_tab bucket_clear hash_cachep timers nf_out_ops nf_in_ops
       jprobe kprobe_in_reged used_mem sha set_skb_wq set_files set_slabs set_bitmaps set_table set_hooks set_probe
       set_sha mbind outcome_bind fst snd].

(** ** Loops over the CPUs *)

Lemma fill_from {A} ok (good bad d : A) k n :
  fill ok good bad (replicate k good ++ replicate n d) (seq k n) =
    match find (λ i, negb (ok i)) (seq k n) with
    | None => (replicate (k + n) good, true)
    | Some i => (replicate i good ++ bad :: replicate (k + n - i - 1) d, false)
    end.
Proof.
  revert k. induction n as [|n IH]; intros k; cbn [fill seq find].
  { by rewrite app_nil_r, Nat.add_0_r. }
  assert (E : ∀ x : A, <[k:=x]> (replicate k good ++ replicate (S n) d) = replicate k good ++ x :: replicate n d).
  { intros x. rewrite insert_app_r_alt by (by rewrite length_replicate). by rewrite length_replicate, Nat.sub_diag. }
  destruct (ok k); cbn [negb]; rewrite E.
  - specialize (IH (S k)). rewrite replicate_S_end, <- app_assoc in IH. cbn [app] in IH.
    rewrite IH. by rewrite Nat.add_succ_r.
  - by replace (k + S n - k - 1)%nat with n by lia.
Qed.
Lemma fill_all {A} ok (good bad d : A) n :
  fill ok good bad (replicate n d) (seq 0 n) =
    match find (λ i, negb (ok i)) (seq 0 n) with
    | None => (replicate n good, true)
    | Some i => (replicate i good ++ bad :: replicate (n - i - 1) d, false)
    end.
Proof. exact (fill_from ok good bad d 0 n). Qed.

Lemma at_index_here {A} (g : A → outcome A) pre x s :
  at_index g (pre ++ x :: s) (length pre) = (y ← g x; Done (pre ++ y :: s)).
Proof.
  unfold at_index. rewrite list_lookup_middle by done. cbn [deref mbind outcome_bind].
  destruct (g x); try done. cbn [mbind outcome_bind]. rewrite insert_app_r_alt by done. by rewrite Nat.sub_diag.
Qed.
Lemma each_from {A} (g : A → outcome A) pre s s' :
  Forall2 (λ x y, g x = Done y) s s' →
  ofold (at_index g) (pre ++ s) (seq (length pre) (length s)) = Done (pre ++ s').
Proof.
  intros Hs. revert pre. induction Hs as [|x y s s' Hx _ IH]; intros pre; [done|].
  cbn [ofold seq length]. rewrite at_index_here, Hx. cbn [mbind outcome_bind].
  specialize (IH (pre ++ [y])). rewrite <- !app_assoc, length_app, Nat.add_1_r in IH. exact IH.
Qed.
Lemma each {A} (g : A → outcome A) n s s' :
  Forall2 (λ x y, g x = Done y) s s' → length s = n → ofold (at_index g) s (seq 0 n) = Done s'.
Proof. intros Hs <-. exact (each_from g [] s s' Hs). Qed.
Lemma each_oops {A} (g : A → outcome A) n s s' x k :
  Forall2 (λ x y, g x = Done y) s s' → g x = Oops → n = length (s ++ x :: k) →
  ofold (at_index g) (s ++ x :: k) (seq 0 n) = Oops.
Proof.
  intros Hs Hx ->. assert (H : ∀ pre, ofold (at_index g) (pre ++ s ++ x :: k) (seq (length pre) (length (s ++ x :: k))) = Oops).
  { induction Hs as [|a b s s' Ha _ IH]; intros pre; cbn [app ofold seq length].
    - by rewrite at_index_here, Hx.
    - rewrite at_index_here, Ha. cbn [mbind outcome_bind]. specialize (IH (pre ++ [b])).
      rewrite <- app_assoc, length_app, Nat.add_1_r in IH. exact IH. }
  exact (H []).
Qed.

(** No pointer of [s] has been freed, or none of them is still held. *)
Definition fresh (s : list ptr) : Prop := Forall (λ p, p ≠ PFreed) s.
Definition given (s : list ptr) : Prop := Forall (λ p, p = PNull ∨ p = PFreed) s.

Lemma free_each n s :
  fresh s → length s = n → ∃ s', ofold (at_index free_ptr) s (seq 0 n) = Done s' ∧ given s'.
Proof.
  intros Hs Hn. assert (H : ∃ s', Forall2 (λ x y, free_ptr x = Done y) s s' ∧ given s').
  { clear Hn. induction Hs as [|p s Hp _ (s'&F&G)]; [by exists []; split; constructor|].
    exists (match p with PNull => PNull | _ => PFreed end :: s').
    split; [constructor; [by destruct p|done]|constructor; [destruct p; (by left) || (by right)|done]]. }
  destruct H as (s'&F&G). exists s'. split; [|done]. by eapply each.
Qed.
Lemma fresh_fill i n : fresh (replicate i PLive ++ PNull :: replicate n PNull).
Proof.
  apply Forall_app. split; [by apply Forall_replicate|]. constructor; [done|]. by apply Forall_replicate.
Qed.
Lemma fresh_replicate p n : p ≠ PFreed → fresh (replicate n p).
Proof. intros Hp. by apply Forall_replicate. Qed.

Lemma found_range {ok : nat → bool} {n i} : find (λ i, negb (ok i)) (seq 0 n) = Some i → (i < n)%nat.
Proof. intros [Hi%list_elem_of_In%elem_of_seq _]%find_some. lia. Qed.

Lemma fill_length {ok : nat → bool} {n i} :
  find (λ i, negb (ok i)) (seq 0 n) = Some i →
  length (replicate i PLive ++ PNull :: replicate (n - i - 1) PNull) = n.
Proof. intros Hi%found_range. rewrite length_app. cbn. rewrite !length_replicate. lia. Qed.

(** ** Loading *)

Section load.
  Context `{Allocator} (ok : call → bool) (ret_out ret_in ret_probe : Z) (cpus : nat) (list_head timer : Z).
  Implicit Types m : kmod.

(** The first thing that goes wrong. *)
Inductive failure := FSkbWq | FFile (cpu : nat) | FSlab | FBitmap | FTable | FOut | FIn | FPool | FProbe.
Definition first_bad (c : nat → call) (n : nat) : option nat := find (λ i, negb (ok (c i))) (seq 0 n).
Definition table_made : bool := ok CWriteWq && ok CTab && ok CClear && ok CCachep.
Definition hook_failure : option failure :=
  if ret_out <? 0 then Some FOut else if ret_in <? 0 then Some FIn else
  if negb (pool_made cpus) then Some FPool else if ret_probe <? 0 then Some FProbe else None.
Definition first_failure : option failure :=
  if negb (ok CSkbWq) then Some FSkbWq else
  match first_bad CFile cpus with
  | Some cpu => Some (FFile cpu)
  | None =>
    if first_bad CSlab 8 is Some _ then Some FSlab else
    if first_bad CBitmap cpus is Some _ then Some FBitmap else
    if negb table_made then Some FTable else hook_failure
  end.

(** Everything is there; or nothing is, the queue of packets, the array of timers
    and the probe apart. *)
Record loaded m : Prop := {
  l_skb_wq : skb_wq m = PLive;
  l_files : reserve_file m = replicate cpus FOpen;
  l_slabs : slabs m = replicate 8 PLive;
  l_bitmaps : bitmaps m = replicate cpus PLive;
  l_table : writeread_wq m = PLive ∧ hash_tab m = PLive ∧ bucket_clear m = PLive ∧ hash_cachep m = PLive ∧ timers m = true;
  l_hooks : nf_out_ops m = true ∧ nf_in_ops m = true;
  l_sha : ∃ p, users (sha m) = 1 ∧ pool (sha m) = Some p ∧ heap (sha m) = {[p := full cpus]} ∧
    tfms (sha m) = Z.of_nat cpus ∧ structs (sha m) = Z.of_nat cpus }.
Record unloaded m : Prop := {
  u_files : FOpen ∉ reserve_file m;
  u_slabs : given (slabs m);
  u_bitmaps : given (bitmaps m);
  u_table : given [writeread_wq m; hash_tab m; hash_cachep m] ∧ timers m = false;
  u_hooks : nf_out_ops m = false ∧ nf_in_ops m = false;
  u_sha : pool (sha m) = None ∧ heap (sha m) = ∅ ∧ tfms (sha m) = 0 ∧ structs (sha m) = 0 }.

(** The last steps of every way out: caches of any state, then files. *)
Lemma files_given : ∃ f, (∀ m, reserve_file m = replicate cpus FOpen → free_percpu_file cpus m = Done (set_files f m)) ∧ FOpen ∉ f.
Proof.
  exists (replicate cpus FPut). split.
  - intros m Hf. unfold free_percpu_file. rewrite Hf, (each _ _ _ (replicate cpus FPut)); [done| |by rewrite length_replicate].
    clear. induction cpus; cbn; by constructor.
  - by intros [? _]%elem_of_replicate.
Qed.
Lemma slabs_given m :
  fresh (slabs m) → length (slabs m) = 8%nat → reserve_file m = replicate cpus FOpen →
  ∃ f s, err_alloc_slab cpus m = Done (set_files f (set_slabs s m)) ∧ (FOpen ∉ f) ∧ given s.
Proof.
  intros Hs Hn Hf. destruct files_given as (f&Ef&Gf). destruct (free_each 8 (slabs m) Hs Hn) as (s&Es&Gs).
  exists f, s. split; [|done]. unfold err_alloc_slab, free_slab, slab_names. rewrite Es. cbn [mbind outcome_bind].
  by apply Ef.
Qed.
Lemma bitmaps_given m :
  fresh (bitmaps m) → length (bitmaps m) = cpus → slabs m = replicate 8 PLive → reserve_file m = replicate cpus FOpen →
  ∃ f s b, err_bitmap cpus m = Done (set_files f (set_slabs s (set_bitmaps b (used_mem m) m))) ∧
    (FOpen ∉ f) ∧ given s ∧ given b.
Proof.
  intros Hb Hn Hs Hf. destruct (free_each cpus (bitmaps m) Hb Hn) as (b&Eb&Gb).
  destruct (slabs_given (set_bitmaps b (used_mem m) m)) as (f&s&Ef&Gf&Gs).
  1-3: cbn; rewrite ?Hs; first [done|by apply fresh_replicate].
  exists f, s, b. split; [|done]. unfold err_bitmap, free_bitmap. rewrite Eb. cbn [mbind outcome_bind]. exact Ef.
Qed.

(** A module with everything up to the table, with or without its hooks. *)
Definition with_table (u : Z) (o i : bool) (p : bool) (sh : sha_state) : kmod :=
  Kmod PLive (replicate cpus FOpen) (replicate 8 PLive) (replicate cpus PLive) PLive PLive PLive PLive
    true o i p p u sh.
Lemma table_given u p sh :
  ∃ m, err_hash_table_cache cpus (with_table u false false p sh) = Done m ∧ skb_wq m = PLive ∧ bucket_clear m = PLive ∧
    jprobe m = p ∧ sha m = sh ∧ nf_out_ops m = false ∧ nf_in_ops m = false ∧
    (pool sh = None ∧ heap sh = ∅ ∧ tfms sh = 0 ∧ structs sh = 0 → unloaded m).
Proof.
  unfold err_hash_table_cache, release_hash_table_cache, with_table. cbn [hash_tab writeread_wq hash_cachep mbind outcome_bind].
  destruct (bitmaps_given (set_table PFreed PFreed PLive PFreed false u (with_table u false false p sh))) as (f&s&b&E&Gf&Gs&Gb).
  1-4: cbn; first [done|by apply fresh_replicate|by apply length_replicate].
  eexists. split; [exact E|]. cbn. do 6 (split; [done|]). intros Hsh. split; cbn; try done.
  split; [|done]. repeat constructor; by right.
Qed.

(** ** Up to the table *)

Lemma alloc_bitmaps_fill s u l :
  ∃ u', alloc_bitmaps ok s u l =
    let '(s', made) := fill (λ i, ok (CBitmap i)) PLive PNull s l in (s', u', if made : bool then 0 else ENOMEM).
Proof.
  revert s u. induction l as [|i l IH]; intros s u; cbn [alloc_bitmaps fill]; [by exists u|].
  destruct (ok (CBitmap i)); [apply IH|by exists u].
Qed.
Lemma bitmaps_stage m :
  bitmaps m = replicate cpus PNull →
  ∃ u, alloc_bitmap ok cpus m = match first_bad CBitmap cpus with
    | None => (set_bitmaps (replicate cpus PLive) u m, 0)
    | Some i => (set_bitmaps (replicate i PLive ++ PNull :: replicate (cpus - i - 1) PNull) u m, ENOMEM)
    end.
Proof.
  intros Hb. unfold alloc_bitmap. destruct (alloc_bitmaps_fill (bitmaps m) (used_mem m) (seq 0 cpus)) as (u&->).
  exists u. rewrite Hb, fill_all. unfold first_bad. by destruct (find _ _).
Qed.
Lemma slabs_stage m :
  slabs m = replicate 8 PNull →
  alloc_slab ok m = match first_bad CSlab 8 with
    | None => (set_slabs (replicate 8 PLive) m, 0)
    | Some i => (set_slabs (replicate i PLive ++ PNull :: replicate (8 - i - 1) PNull) m, ENOMEM)
    end.
Proof.
  intros Hs. unfold alloc_slab, slab_names. rewrite Hs, fill_all. unfold first_bad. by destruct (find _ _).
Qed.
Lemma files_stage m :
  reserve_file m = replicate cpus FNull →
  alloc_percpu_file ok cpus m = match first_bad CFile cpus with
    | None => (set_files (replicate cpus FOpen) m, 0)
    | Some i => (set_files (replicate i FOpen ++ FErr :: replicate (cpus - i - 1) FNull) m, ENODEV)
    end.
Proof.
  intros Hf. unfold alloc_percpu_file. rewrite Hf, fill_all. unfold first_bad. by destruct (find _ _).
Qed.

(** [free_percpu_file] gets past the CPU whose file did not open only when there
    is none behind it. *)
Lemma files_label i m :
  (i < cpus)%nat →
  reserve_file m = replicate i FOpen ++ FErr :: replicate (cpus - i - 1) FNull →
  err_alloc_file cpus m =
    if decide (S i = cpus) then Done (set_files (replicate i FPut ++ [FErr]) m) else Oops.
Proof.
  intros Hi Hf. unfold err_alloc_file, free_percpu_file. rewrite Hf.
  assert (F : Forall2 (λ x y, put_file x = Done y) (replicate i FOpen ++ [FErr]) (replicate i FPut ++ [FErr])).
  { apply Forall2_app; [|by repeat constructor]. clear. induction i; cbn; by constructor. }
  case_decide as Hd.
  - subst cpus. replace (S i - i - 1)%nat with 0%nat by lia. rewrite (each _ _ _ _ F); [done|].
    rewrite length_app, length_replicate. cbn. lia.
  - replace (cpus - i - 1)%nat with (S (cpus - i - 2)) by lia. cbn [replicate].
    change (FErr :: FNull :: ?k) with ([FErr] ++ FNull :: k). rewrite app_assoc.
    rewrite (each_oops _ _ _ _ _ _ F); [done|done|].
    rewrite !length_app, length_replicate. cbn. rewrite length_replicate. lia.
Qed.

(** ** The table, the hooks and the pool *)

Lemma table_stage m :
  hash_tab m = PNull →
  ∃ m' u, initial_hash_table_cache ok list_head timer m =
      (m', if table_made then 0 else if ok CWriteWq then ENOMEM else -1) ∧
    if table_made then m' = set_table PLive PLive PLive PLive true u m
    else err_hash_table_cache cpus m' = Oops.
Proof.
  intros Ht. unfold initial_hash_table_cache, table_made.
  destruct (ok CWriteWq); [destruct (ok CTab); [destruct (ok CClear); [destruct (ok CCachep)|]|]|];
    eexists _, _; (split; [reflexivity|]); cbn [andb]; try reflexivity.
  unfold err_hash_table_cache, release_hash_table_cache. cbn [hash_tab set_table]. by rewrite Ht.
  Unshelve. all: exact 0.
Qed.

Lemma pool_stage m :
  sha m = pool0 →
  ∃ s, alloc_pool cpus m = Done (set_sha s m, pool_made cpus) ∧ if pool_made cpus then pool_full cpus s else pool_none 0 s.
Proof.
  intros Hs. unfold alloc_pool. rewrite Hs. destruct (alloc_first cpus) as (s&r&->&Hr). cbn [mbind outcome_bind].
  exists s. by destruct (pool_made cpus), r; try destruct Hr.
Qed.

(** ** Unloading *)

Lemma mexit_spec u s :
  pool_full cpus s →
  ∃ m, mexit cpus (with_table u true true true s) = Done m ∧ unloaded m ∧
    skb_wq m = PFreed ∧ jprobe m = false ∧ bucket_clear m = PLive ∧ users (sha m) = 0.
Proof.
  intros Hs. unfold mexit, with_table, unregister_in, unregister_out, destroy_skb_wq, release_hash_table_cache. ksimpl.
  destruct files_given as (f&Ef&Gf). rewrite Ef by done. ksimpl.
  destruct (free_each 8 (replicate 8 PLive)) as (sl&Esl&Gsl); [by apply fresh_replicate|done|].
  unfold free_slab, slab_names. ksimpl. rewrite Esl. ksimpl.
  destruct (free_each cpus (replicate cpus PLive)) as (b&Eb&Gb); [by apply fresh_replicate|by apply length_replicate|].
  unfold free_bitmap. ksimpl. rewrite Eb. ksimpl.
  destruct (free_full cpus s Hs) as (s'&E&Hu&Hn). unfold free_pool. ksimpl. rewrite E. eexists. split; [reflexivity|]. ksimpl.
  split; [|done]. split; ksimpl; try done. split; [|done]. repeat constructor; by right.
Qed.

(** ** The whole of [minit] *)

Definition minit0 : outcome (kmod * Z) := minit ok ret_out ret_in ret_probe cpus list_head timer (kmod0 cpus).

(** What [minit] does from the registration of the first hook on. *)
Lemma hooks_stage u :
  minit_hooks ret_out ret_in ret_probe cpus (with_table u false false false pool0) =
    if (ret_out <? 0) || (ret_in <? 0) then Oops else
    '(m, there) ← alloc_pool cpus (with_table u true true false pool0);
    if negb there then m ← err_sha1siq_pool cpus m; Done (m, ret_in)
    else attempt (register_jprobe ret_probe m) Done (λ m err, Done (m, err)).
Proof.
  unfold minit_hooks, register_out, register_in, attempt, with_table.
  destruct (ret_out <? 0) eqn:Eo; [done|]. ksimpl. destruct (ret_in <? 0) eqn:Ei; [done|]. done.
Qed.
Lemma pool_label u s :
  pool_none 0 s →
  ∃ m, err_sha1siq_pool cpus (with_table u true true false s) = Done m ∧ unloaded m ∧ skb_wq m = PLive ∧
    bucket_clear m = PLive ∧ users (sha m) = 2 ^ 64 - 1.
Proof.
  intros Hs. unfold err_sha1siq_pool, free_pool. cbn [sha with_table]. destruct (free_none s Hs) as (s'&->&Hu&Hn).
  unfold with_table, err_nf_reg_in, err_nf_reg_out, unregister_in, unregister_out. ksimpl.
  destruct (table_given u false s') as (m&Em&Ew&Ec&Ep&Es&Eo&Ei&Hm). exists m.
  split; [exact Em|]. split; [by apply Hm|]. by rewrite Es.
Qed.
Lemma loaded_full u p s : pool_full cpus s → loaded (with_table u true true p s).
Proof. done. Qed.

Lemma hooks_by_failure u :
  let r := minit_hooks ret_out ret_in ret_probe cpus (with_table u false false false pool0) in
  match hook_failure with
  | None => ∃ m m', r = Done (m, ret_probe) ∧ loaded m ∧ jprobe m = true ∧
      mexit cpus m = Done m' ∧ unloaded m' ∧ skb_wq m' = PFreed ∧ jprobe m' = false ∧ bucket_clear m' = PLive
  | Some FPool => 0 ≤ ret_in ∧ ∃ m, r = Done (m, ret_in) ∧ unloaded m ∧ skb_wq m = PLive ∧
      users (sha m) = 2 ^ 64 - 1 ∧ mexit cpus m = Oops
  | Some FProbe => ret_probe < 0 ∧ ∃ m, r = Done (m, ret_probe) ∧ loaded m ∧ jprobe m = false
  | _ => r = Oops
  end.
Proof.
  cbv zeta. rewrite hooks_stage. unfold hook_failure.
  destruct (ret_out <? 0); [done|]. destruct (Z.ltb_spec ret_in 0); [done|]. cbn [orb].
  edestruct (pool_stage (with_table u true true false pool0)) as (s&->&Hs); [done|]. ksimpl.
  destruct (pool_made cpus); cbn [negb].
  - unfold register_jprobe, attempt. destruct (Z.ltb_spec ret_probe 0).
    + split; [done|]. by eexists.
    + destruct (mexit_spec u s Hs) as (m'&E&Hu&Hw&Hp&Hc&_).
      exists (with_table u true true true s), m'. by split_and!.
  - destruct (pool_label u s Hs) as (m&E&Hu&Hw&_&Hn). split; [done|]. exists m.
    change (set_sha s (with_table u true true false pool0)) with (with_table u true true false s). rewrite E.
    split; [done|]. split_and!; try done. unfold mexit, unregister_in. by rewrite (proj2 (u_hooks _ Hu)).
Qed.
(** The five ways [minit] can end before the hooks, or the state in which it
    reaches them. *)
Lemma minit_before :
  match first_failure with
  | Some FSkbWq => minit0 = Done (kmod0 cpus, -1)
  | Some (FFile cpu) =>
    if decide (S cpu = cpus) then ∃ m, minit0 = Done (m, ENODEV) ∧ unloaded m ∧ skb_wq m = PLive else minit0 = Oops
  | Some FSlab | Some FBitmap => ∃ m, minit0 = Done (m, ENOMEM) ∧ unloaded m ∧ skb_wq m = PLive
  | Some FTable => minit0 = Oops
  | f => f = hook_failure ∧ ∃ u, minit0 = minit_hooks ret_out ret_in ret_probe cpus (with_table u false false false pool0)
  end.
Proof.
  unfold first_failure, minit0, minit, init_some_parameters.
  destruct (ok CSkbWq); [|done]. cbn [negb attempt Z.ltb Z.compare].
  rewrite files_stage by done. destruct (first_bad CFile cpus) as [i|] eqn:Hf.
  { cbn [attempt ENODEV Z.ltb Z.compare]. apply found_range in Hf.
    rewrite (files_label i) by done. case_decide; [|done]. eexists. split; [reflexivity|].
    split; [|done]. split; ksimpl; try done; [|by apply Forall_replicate; left..|repeat constructor].
    intros [[? _]%elem_of_replicate|?%list_elem_of_singleton]%elem_of_app; done. }
  cbn [attempt Z.ltb Z.compare]. rewrite slabs_stage by done. destruct (first_bad CSlab 8) as [i|] eqn:Hs.
  { cbn [attempt ENOMEM Z.ltb Z.compare].
    destruct (slabs_given (set_slabs (replicate i PLive ++ PNull :: replicate (8 - i - 1) PNull)
      (set_files (replicate cpus FOpen) (set_skb_wq PLive (kmod0 cpus))))) as (f&s&->&Gf&Gs);
      [apply fresh_fill|by apply (fill_length Hs)|done|].
    eexists. split; [reflexivity|]. split; [|done]. split; ksimpl; try done; [by apply Forall_replicate; left|].
    by repeat constructor. }
  cbn [attempt Z.ltb Z.compare].
  edestruct bitmaps_stage as (u&->); [reflexivity|]. destruct (first_bad CBitmap cpus) as [i|] eqn:Hb.
  { cbn [attempt ENOMEM Z.ltb Z.compare]. edestruct (bitmaps_given (set_bitmaps (replicate i PLive ++ PNull :: replicate (cpus - i - 1) PNull) u
      (set_slabs (replicate 8 PLive) (set_files (replicate cpus FOpen) (set_skb_wq PLive (kmod0 cpus)))))) as (f&s&b&->&Gf&Gs&Gb);
      [apply fresh_fill|by apply (fill_length Hb)|done|done|].
    eexists. split; [reflexivity|]. split; [|done]. split; ksimpl; try done. by repeat constructor. }
  cbn [attempt Z.ltb Z.compare]. edestruct table_stage as (m'&u'&->&Hm); [reflexivity|].
  destruct table_made; cbn [negb].
  - subst m'. cbn [attempt Z.ltb Z.compare].
    unfold hook_failure. destruct (ret_out <? 0), (ret_in <? 0), (pool_made cpus), (ret_probe <? 0); (split; [done|by exists u']).
  - assert (Hn : ((if ok CWriteWq then ENOMEM else -1) <? 0) = true) by by destruct (ok CWriteWq).
    unfold attempt. by rewrite Hn, Hm.
Qed.

(** C35. What [minit] returns and what it leaves behind, by the first call that
    fails. With every call successful all of it is there, and [mexit] gives it
    back, the array of the timers apart. A cache or a bitmap that cannot be made
    gives everything back but the queue of packets; so does a missing digest
    pool, but [minit] then returns success: the module stays loaded, its count of
    pool users is below zero, and unloading it faults. A file that does not open
    is survived on the last CPU only. When the table cannot be made or a hook is
    refused the error path itself faults, and a refused probe leaves the hooks of
    a module that is about to vanish in place. *)
Theorem minit_by_first_failure :
  match first_failure with
  | None => ∃ m m', minit0 = Done (m, ret_probe) ∧ loaded m ∧ jprobe m = true ∧
      mexit cpus m = Done m' ∧ unloaded m' ∧ skb_wq m' = PFreed ∧ jprobe m' = false ∧ bucket_clear m' = PLive
  | Some FSkbWq => minit0 = Done (kmod0 cpus, -1)
  | Some (FFile cpu) =>
    if decide (S cpu = cpus) then ∃ m, minit0 = Done (m, ENODEV) ∧ unloaded m ∧ skb_wq m = PLive else minit0 = Oops
  | Some FSlab | Some FBitmap => ∃ m, minit0 = Done (m, ENOMEM) ∧ unloaded m ∧ skb_wq m = PLive
  | Some FTable | Some FOut | Some FIn => minit0 = Oops
  | Some FPool => 0 ≤ ret_in ∧ ∃ m, minit0 = Done (m, ret_in) ∧ unloaded m ∧ skb_wq m = PLive ∧
      users (sha m) = 2 ^ 64 - 1 ∧ mexit cpus m = Oops
  | Some FProbe => ret_probe < 0 ∧ ∃ m, minit0 = Done (m, ret_probe) ∧ loaded m ∧ jprobe m = false
  end.
Proof.
  pose proof minit_before as Hb.
  destruct first_failure as [[]|]; try exact Hb; destruct Hb as (Hf&u&->);
    pose proof (hooks_by_failure u) as Hh; rewrite <- Hf in Hh; exact Hh.
Qed.
End load.
