(* ===== verification/SendInit.v ===== *)
(** Loading and unloading the sending module (model/send_module/main.c,
    slab_cache.c and the first and last functions of hash_table.c): what is
    acquired, in which order, and what the error labels give back. *)
From S2P Require Import Prelude JenHash Sha1Pool Sha1PoolSpec ModInit ModInitSpec.
#[local] Open Scope Z_scope.

(** [sha_data], [replace_data] and [mtu_data]. *)
Definition send_slab_names : list nat := seq 0 3.

Record smod := Smod {
  s_slabs : list ptr;
  s_hash_tab : ptr;
  s_bucket_clear : ptr;
  s_hash_cachep : ptr;
  s_timers : bool;
  s_nf_out : bool;
  s_used_mem : Z;
  s_sha : sha_state }.
Definition smod0 : smod := Smod (replicate 3 PNull) PNull PNull PNull false false 0 pool0.

Section init.
  Context `{Allocator} (ok : call → bool) (ret_out : Z) (cpus : nat).
  Context (sizeof_list_head sizeof_timer_list : Z).
  Implicit Types m : smod.

Definition put_slabs l m : smod :=
  Smod l (s_hash_tab m) (s_bucket_clear m) (s_hash_cachep m) (s_timers m) (s_nf_out m) (s_used_mem m) (s_sha m).
Definition put_table t b c r u m : smod := Smod (s_slabs m) t b c r (s_nf_out m) u (s_sha m).
Definition put_out o m : smod :=
  Smod (s_slabs m) (s_hash_tab m) (s_bucket_clear m) (s_hash_cachep m) (s_timers m) o (s_used_mem m) (s_sha m).
Definition put_sha s m : smod :=
  Smod (s_slabs m) (s_hash_tab m) (s_bucket_clear m) (s_hash_cachep m) (s_timers m) (s_nf_out m) (s_used_mem m) s.

Definition send_alloc_slab m : smod * Z :=
  let '(s, made) := fill (λ i, ok (CSlab i)) PLive PNull (s_slabs m) send_slab_names in
  (put_slabs s m, if made then 0 else ENOMEM).
Definition send_free_slab m : outcome smod :=
  s ← ofold (at_index free_ptr) (s_slabs m) send_slab_names; Done (put_slabs s m).

Definition send_initial_hash_table_cache m : smod * Z :=
  if ok CTab then
    let u := u64 (s_used_mem m + hash_tab_size * sizeof_list_head) in
    if ok CClear then
      let u := u64 (u + hash_tab_size * sizeof_timer_list) in
      if ok CCachep then (put_table PLive PLive PLive true u m, 0)
      else (put_table PFreed PRaw PNull (s_timers m) u m, ENOMEM)
    else (put_table PRaw PNull (s_hash_cachep m) (s_timers m) u m, ENOMEM)
  else (put_table PNull (s_bucket_clear m) (s_hash_cachep m) (s_timers m) (s_used_mem m) m, ENOMEM).
Definition send_release_hash_table_cache m : outcome smod :=
  match s_hash_tab m, s_hash_cachep m with
  | PLive, PLive => Done (put_table PFreed (s_bucket_clear m) PFreed false (s_used_mem m) m)
  | _, _ => Oops
  end.

Definition send_register_out m : smod * Z := (if ret_out <? 0 then m else put_out true m, ret_out).
Definition send_unregister_out m : outcome smod := if s_nf_out m then Done (put_out false m) else Oops.
Definition send_alloc_pool m : outcome (smod * bool) :=
  r ← tcp_alloc_sha1sig_pool cpus (s_sha m);
  match r with
  | Some (s, p) => Done (put_sha s m, match p with Some _ => true | None => false end)
  | None => Oops
  end.
Definition send_free_pool m : outcome smod := s ← tcp_free_sha1sig_pool (s_sha m); Done (put_sha s m).

(** The labels of [minit], each falling through to the next. *)
Definition send_err_alloc_slab m : outcome smod := send_free_slab m.
Definition send_err_hash_table_cache m : outcome smod := m ← send_release_hash_table_cache m; send_err_alloc_slab m.
Definition send_err_nf_reg_out m : outcome smod := m ← send_unregister_out m; send_err_hash_table_cache m.
Definition send_err_sha1siq_pool m : outcome smod := m ← send_free_pool m; send_err_nf_reg_out m.

Definition send_attempt (r : smod * Z) (label : smod → outcome smod) (next : smod → Z → outcome (smod * Z))
    : outcome (smod * Z) :=
  let '(m, err) := r in
  if err <? 0 then m ← label m; Done (m, err) else next m err.

Definition send_minit m : outcome (smod * Z) :=
  send_attempt (send_alloc_slab m) send_err_alloc_slab (λ m _,
  send_attempt (send_initial_hash_table_cache m) send_err_hash_table_cache (λ m _,
  send_attempt (send_register_out m) send_err_nf_reg_out (λ m err,
  '(m, there) ← send_alloc_pool m;
  if negb there then m ← send_err_sha1siq_pool m; Done (m, err) else Done (m, err)))).

Definition send_mexit m : outcome smod :=
  m ← send_unregister_out m;
  m ← send_release_hash_table_cache m;
  m ← send_free_slab m;
  send_free_pool m.
End init.

(** ** Specification *)

Section load.
  Context `{Allocator} (ok : call → bool) (ret_out : Z) (cpus : nat) (list_head timer : Z).
  Implicit Types m : smod.

Inductive send_failure := SSlab | STable | SOut | SPool.
Definition send_first_failure : option send_failure :=
  if first_bad ok CSlab 3 is Some _ then Some SSlab else
  if negb (ok CTab && ok CClear && ok CCachep) then Some STable else
  if ret_out <? 0 then Some SOut else if negb (pool_made cpus) then Some SPool else None.

Record send_loaded m : Prop := {
  sl_slabs : s_slabs m = replicate 3 PLive;
  sl_table : s_hash_tab m = PLive ∧ s_bucket_clear m = PLive ∧ s_hash_cachep m = PLive ∧ s_timers m = true;
  sl_hook : s_nf_out m = true;
  sl_sha : pool_full cpus (s_sha m) }.
(** Nothing is held, the array of timers apart; the pool has [u] users. *)
Record send_unloaded (u : Z) m : Prop := {
  su_slabs : given (s_slabs m);
  su_table : given [s_hash_tab m; s_hash_cachep m] ∧ s_timers m = false;
  su_hook : s_nf_out m = false;
  su_sha : pool_none u (s_sha m) }.

Definition with_send_table (u : Z) (o : bool) (sh : sha_state) : smod :=
  Smod (replicate 3 PLive) PLive PLive PLive true o u sh.

Lemma send_slabs_given m :
  fresh (s_slabs m) → length (s_slabs m) = 3%nat →
  ∃ s, send_free_slab m = Done (put_slabs s m) ∧ given s.
Proof.
  intros Hs Hn. destruct (free_each 3 (s_slabs m) Hs Hn) as (s&Es&Gs). exists s. split; [|done].
  unfold send_free_slab, send_slab_names. by rewrite Es.
Qed.
Lemma send_table_given u sh :
  ∃ s, send_err_hash_table_cache (with_send_table u false sh) =
    Done (put_slabs s (put_table PFreed PLive PFreed false u (with_send_table u false sh))) ∧ given s.
Proof.
  unfold send_err_hash_table_cache, send_release_hash_table_cache.
  apply (send_slabs_given (put_table PFreed PLive PFreed false u (with_send_table u false sh))); [|done].
  by apply fresh_replicate.
Qed.

(** [send_minit] up to the hook. *)
Lemma send_before :
  let r := send_minit ok ret_out cpus list_head timer smod0 in
  match (if first_bad ok CSlab 3 is Some _ then Some SSlab
         else if negb (ok CTab && ok CClear && ok CCachep) then Some STable else None) with
  | Some SSlab => ∃ m, r = Done (m, ENOMEM) ∧ send_unloaded 0 m
  | Some _ => r = Oops
  | None => ∃ u, r = send_attempt (send_register_out ret_out (with_send_table u false pool0)) send_err_nf_reg_out
      (λ m err, '(m, there) ← send_alloc_pool cpus m;
        if negb there then m ← send_err_sha1siq_pool m; Done (m, err) else Done (m, err))
  end.
Proof.
  cbv zeta. unfold send_minit, send_alloc_slab, send_slab_names, first_bad.
  change (s_slabs smod0) with (replicate 3 PNull). rewrite fill_all. destruct (find _ _) as [i|] eqn:Hi.
  { cbn [send_attempt ENOMEM Z.ltb Z.compare].
    destruct (send_slabs_given (put_slabs (replicate i PLive ++ PNull :: replicate (3 - i - 1) PNull) smod0))
      as (s&Es&Gs); [apply fresh_fill|by apply (fill_length Hi)|].
    unfold send_err_alloc_slab. rewrite Es. eexists. split; [reflexivity|].
    split; [exact Gs|split; [repeat constructor; by left|done]|done|done]. }
  cbn [send_attempt Z.ltb Z.compare]. unfold send_initial_hash_table_cache.
  destruct (ok CTab); [destruct (ok CClear); [destruct (ok CCachep)|]|]; cbn [andb negb]; try reflexivity.
  by eexists.
Qed.
Lemma send_pool_label u sh :
  pool_none 0 sh →
  ∃ m, send_err_sha1siq_pool (with_send_table u true sh) = Done m ∧ send_unloaded (2 ^ 64 - 1) m.
Proof.
  intros Hs. unfold send_err_sha1siq_pool, send_free_pool. cbn [s_sha with_send_table].
  destruct (free_none sh Hs) as (s'&->&Hn). cbn [mbind outcome_bind].
  unfold send_err_nf_reg_out. cbn [send_unregister_out s_nf_out put_sha with_send_table mbind outcome_bind].
  destruct (send_table_given u s') as (sl&E&Gs). eexists. split; [exact E|].
  split; [exact Gs|split; [repeat constructor; by right|done]|done|exact Hn].
Qed.
Lemma send_mexit_spec u sh :
  pool_full cpus sh → ∃ m, send_mexit (with_send_table u true sh) = Done m ∧ send_unloaded 0 m ∧ s_bucket_clear m = PLive.
Proof.
  intros Hs. unfold send_mexit, send_release_hash_table_cache.
  cbn [send_unregister_out s_nf_out s_hash_tab s_hash_cachep put_out with_send_table mbind outcome_bind].
  edestruct send_slabs_given as (sl&->&Gs); [by apply (fresh_replicate PLive 3)|done|]. cbn [mbind outcome_bind].
  unfold send_free_pool. cbn [s_sha put_slabs put_table put_out with_send_table].
  destruct (free_full cpus sh Hs) as (s'&->&Hn). eexists. split; [reflexivity|]. split; [|done].
  split; [exact Gs|split; [repeat constructor; by right|done]|done|exact Hn].
Qed.

(** ** Properties *)

(** What [minit] of the sending module returns and leaves behind, by the first
    call that fails, and that [mexit] gives everything back but the array of the
    timers. A cache that cannot be made is harmless; a table that cannot be made,
    or a refused hook, makes the error path itself fault; when the digest pool is
    missing everything is given back and [minit] returns what the registration of
    the hook returned, which is not an error: the module stays loaded, with a
    count of users below zero, and unloading it faults. *)
Theorem send_minit_by_first_failure :
  let r := send_minit ok ret_out cpus list_head timer smod0 in
  match send_first_failure with
  | None => ∃ m m', r = Done (m, ret_out) ∧ send_loaded m ∧
      send_mexit m = Done m' ∧ send_unloaded 0 m' ∧ s_bucket_clear m' = PLive
  | Some SSlab => ∃ m, r = Done (m, ENOMEM) ∧ send_unloaded 0 m
  | Some STable | Some SOut => r = Oops
  | Some SPool => 0 ≤ ret_out ∧ ∃ m, r = Done (m, ret_out) ∧ send_unloaded (2 ^ 64 - 1) m ∧ send_mexit m = Oops
  end.
Proof.
  pose proof send_before as Hb. cbv zeta in *. unfold send_first_failure.
  destruct (first_bad ok CSlab 3); [exact Hb|]. destruct (negb (ok CTab && _ && _)); [exact Hb|].
  destruct Hb as (u&->). unfold send_attempt, send_register_out.
  destruct (Z.ltb_spec ret_out 0); [done|].
  change (put_out true (with_send_table u false pool0)) with (with_send_table u true pool0).
  unfold send_alloc_pool. cbn [s_sha with_send_table].
  destruct (alloc_first cpus) as (sh&r&->&Hr). cbn [mbind outcome_bind].
  change (put_sha sh ?m) with (with_send_table u true sh).
  destruct (pool_made cpus); cbn [negb].
  - destruct Hr as [Hsh [p ->]]. destruct (send_mexit_spec u sh Hsh) as (m'&Em&Hm&Hc).
    exists (with_send_table u true sh), m'. by split_and!.
  - destruct Hr as [Hsh ->]. destruct (send_pool_label u sh Hsh) as (m&E&Hm). split; [done|]. exists m.
    cbn [negb]. rewrite E. split_and!; [done|done|]. unfold send_mexit, send_unregister_out. by rewrite (su_hook _ _ Hm).
Qed.
End load.
