(* ===== verification/StoreTypes.v ===== *)
(** * Every variable of the store keeps to its type

    The fields of an item, the counters and the variables of a CPU stay in the
    ranges of their C types, and the fields that encode a choice in the values
    hash_table.h lists. This holds of every step, from any typed state: it needs
    nothing of the invariant of StoreInv, only the wrap-around of the code. *)
From S2P Require Import Prelude JenHash Rabin Bitmap Store HashTable Aging NfIn StoreInv System.
From S2P Require Import StoreSpec.
#[local] Open Scope Z_scope.

Create HintDb typed.

Definition in_s32 (z : Z) : Prop := - 2 ^ 31 ≤ z < 2 ^ 31.
Definition in_s64 (z : Z) : Prop := - 2 ^ 63 ≤ z < 2 ^ 63.
Definition in_u64 (z : Z) : Prop := 0 ≤ z < 2 ^ 64.

Lemma in_s32_s32 z : in_s32 (s32 z).
Proof. apply s32_range. Qed.
Lemma in_s32_atomic d z : in_s32 (atomic_add d z).
Proof. apply s32_range. Qed.
Lemma in_s64_s64 z : in_s64 (s64 z).
Proof. unfold in_s64, s64. pose proof (Z.mod_pos_bound (z + 2 ^ 63) (2 ^ 64)). lia. Qed.
Lemma in_u64_u64 z : in_u64 (u64 z).
Proof. apply u64_range. Qed.
#[export] Hint Resolve in_s32_s32 in_s32_atomic in_s64_s64 in_u64_u64 : typed.

Section types.
Context `{Allocator} `{VFS} `{StoreParamsLaws} `{BitSearch}.
Implicit Types (s : store) (pc : percpu) (cp : hashinfo_item).

(** [atomic_t refcnt, share_ref; int len], and the values of the other fields:
  [mem_style] is -1 or a size class, [cpuid] a CPU, -1 or -2, [start] a unit of
  the bitmap, [flag_cache] a state, [flag_mem] and [store_flag] flags. *)
Record item_typed cp : Prop := {
ty_refcnt : in_s32 (refcnt cp);
ty_share : in_s32 (share_ref cp);
ty_len : in_s32 (len cp);
ty_style : -1 ≤ mem_style cp ≤ 3;
ty_cpuid : -2 ≤ cpuid cp < num_online_cpus;
ty_start : 0 ≤ start cp ≤ bitmap_size;
ty_cache : 0 ≤ flag_cache cp ≤ 4;
ty_mem : 0 ≤ flag_mem cp ≤ 1;
ty_store : 0 ≤ store_flag cp ≤ 2 }.

(** [unsigned long bitmap_index; loff_t loff_file], and the bits of the bitmap. *)
Record cpu_typed pc : Prop := {
ty_index : in_u64 (bitmap_index pc);
ty_loff : in_s64 (loff_file pc);
ty_bits : ∀ i, i ∈ bitmap pc → 0 ≤ i < 8 * bitmap_size }.

(** [atomic_t hash_count], and counters of 64 bits. *)
Record store_typed s : Prop := {
ty_items : ∀ a cp, items s !! a = Some cp → item_typed cp;
ty_count : in_s32 (hash_count s);
ty_ctr : ∀ k, in_s64 (ctr s k);
ty_cpus : ∀ c pc, cpus s !! c = Some pc → cpu_typed pc }.

(** ** Items *)

Lemma typed_get s a cp : store_typed s → get_item s a = Done cp → item_typed cp.
Proof. intros Hs. unfold get_item. intros. osimpl. by eapply ty_items. Qed.

Lemma typed_put s a cp : store_typed s → item_typed cp → store_typed (put_item a cp s).
Proof.
intros [Hi Hc Hk Hp] Hcp. split; try done. simpl. intros x y.
rewrite lookup_insert_Some. intros [[<- <-]|[_ Hx]]; [done|by eapply Hi].
Qed.

Lemma typed_refcnt cp v : item_typed cp → in_s32 v → item_typed (set_refcnt v cp).
Proof. by intros []; split. Qed.
Lemma typed_share cp v : item_typed cp → in_s32 v → item_typed (set_share_ref v cp).
Proof. by intros []; split. Qed.
Lemma typed_data cp d : item_typed cp → item_typed (set_data d cp).
Proof. by intros []; split. Qed.
Lemma typed_style cp v : item_typed cp → -1 ≤ v ≤ 3 → item_typed (set_mem_style v cp).
Proof. by intros []; split. Qed.
Lemma typed_cpuid cp v : item_typed cp → -2 ≤ v < num_online_cpus → item_typed (set_cpuid v cp).
Proof. by intros []; split. Qed.
Lemma typed_start cp v : item_typed cp → 0 ≤ v ≤ bitmap_size → item_typed (set_start v cp).
Proof. by intros []; split. Qed.
Lemma typed_cache cp v : item_typed cp → 0 ≤ v ≤ 4 → item_typed (set_flag_cache v cp).
Proof. by intros []; split. Qed.
Lemma typed_mem cp v : item_typed cp → 0 ≤ v ≤ 1 → item_typed (set_flag_mem v cp).
Proof. by intros []; split. Qed.
Lemma typed_store_flag cp v : item_typed cp → 0 ≤ v ≤ 2 → item_typed (set_store_flag v cp).
Proof. by intros []; split. Qed.

(** ** The other fields of the store *)

Lemma typed_ctr_add s k d : store_typed s → store_typed (ctr_add k d s).
Proof.
intros [Hi Hc Hk Hp]. split; try done. intros k'. rewrite ctr_ctr_add.
case_decide; [apply in_s64_s64|done].
Qed.
Lemma typed_count_alloc s : store_typed s → store_typed (count_alloc s).
Proof. by intros []; split. Qed.
Lemma typed_next s v : store_typed s → store_typed (set_next_addr v s).
Proof. by intros []; split. Qed.
Lemma typed_tab s t : store_typed s → store_typed (set_hash_tab t s).
Proof. by intros []; split. Qed.
Lemma typed_works s w : store_typed s → store_typed (set_works w s).
Proof. by intros []; split. Qed.
Lemma typed_count s v : store_typed s → in_s32 v → store_typed (set_hash_count v s).
Proof. by intros []; split. Qed.
Lemma typed_delete s a : store_typed s → store_typed (set_items (delete a (items s)) s).
Proof.
intros [Hi Hc Hk Hp]. split; try done. simpl. intros x y [_ Hx]%lookup_delete_Some. by eapply Hi.
Qed.
Lemma typed_put_percpu s c pc : store_typed s → cpu_typed pc → store_typed (put_percpu c pc s).
Proof.
intros [Hi Hc Hk Hp] Hpc. split; try done. simpl. intros x y.
rewrite lookup_insert_Some. intros [[<- <-]|[_ Hx]]; [done|by eapply Hp].
Qed.
Lemma typed_percpu_of s c pc : store_typed s → percpu_of s c = Done pc → cpu_typed pc.
Proof. intros Hs. unfold percpu_of. intros. osimpl. by eapply ty_cpus. Qed.

Hint Resolve typed_put typed_refcnt typed_share typed_data typed_style typed_cpuid typed_start
typed_cache typed_mem typed_store_flag typed_ctr_add typed_count_alloc typed_next typed_tab
typed_works typed_count typed_delete typed_put_percpu : typed.
Hint Extern 2 (_ ≤ _ ≤ _) => lia : typed.
Hint Extern 2 (_ ≤ _ < _) => lia : typed.

(** What has been read is typed. *)
Ltac typed_reads :=
repeat match goal with
| E : get_item ?s ?a = Done ?cp |- _ =>
    lazymatch goal with
    | T : item_typed cp |- _ => fail
    | _ => assert (item_typed cp) by (eapply typed_get; [|exact E]; eauto 12 with typed)
    end
| E : percpu_of ?s ?c = Done ?pc |- _ =>
    lazymatch goal with
    | T : cpu_typed pc |- _ => fail
    | _ => assert (cpu_typed pc) by (eapply typed_percpu_of; [|exact E]; eauto 12 with typed)
    end
end.
Ltac typed := osimpl; typed_reads; eauto 12 with typed.

(** ** Operations *)

Lemma typed_place a r style k n s' :
store_typed (snd r) → -1 ≤ style ≤ 3 → place_data a r style k n = Done s' → store_typed s'.
Proof. intros Hr Hst. destruct r as [[b|] s1]; [|done]. simpl in *. intros. typed. Qed.

Lemma typed_alloc_data s a n s' :
store_typed s → alloc_data_memory s a n = Done s' → store_typed s'.
Proof.
intros Hs. unfold alloc_data_memory. intros H'. osimpl.
repeat case_match; simplify_eq; try done;
  (apply typed_place in H'; [done|by apply typed_count_alloc|lia]).
Qed.

Lemma typed_free_data s a s' : store_typed s → free_data_memory s a = Done s' → store_typed s'.
Proof.
intros Hs. unfold free_data_memory, drop_data. intros. osimpl.
repeat case_match; simplify_eq; typed.
Qed.

Lemma typed_copy_data s a src s' : store_typed s → copy_data s a src = Done s' → store_typed s'.
Proof. intros Hs. unfold copy_data. intros. typed. Qed.

Lemma typed_item0 n : item_typed (item0 n).
Proof.
pose proof num_online_cpus_pos. pose proof bitmap_size_range.
split; simpl; try lia; unfold in_s32; try lia. apply s32_range.
Qed.
Hint Resolve typed_item0 : typed.

Lemma typed_new_item s info value n s' r :
store_typed s → hash_new_item s info value n = Done (s', r) → store_typed s'.
Proof.
intros Hs. unfold hash_new_item. destruct (_ <? _); [by intros [= <- <-]|].
destruct (alloc_ok _); [|intros [= <- <-]; by apply typed_count_alloc].
intros E. osimpl.
assert (store_typed a) as Ha.
{ eapply typed_alloc_data; [|eassumption]. typed. }
assert (store_typed a1) as Ha1 by (by eapply typed_copy_data).
pose proof (typed_get _ _ _ Ha1 Heqo2) as [].
apply typed_tab, typed_count; [|apply in_s32_atomic].
apply typed_put; [done|]. pose proof num_online_cpus_pos.
split; simpl; unfold in_s32, ITEM_CITE_ADD; try lia; done.
Qed.

Lemma typed_hit cp : item_typed cp → item_typed (hit cp).
Proof. intros. unfold hit. repeat case_match; typed. Qed.
Hint Resolve typed_hit : typed.

Lemma typed_devote s k n : store_typed s → store_typed (devote k n s).
Proof. intros. unfold devote. repeat case_match; typed. Qed.
Hint Resolve typed_devote : typed.

Lemma typed_get_hash_item s info s' r :
store_typed s → get_hash_item s info = Done (s', r) → store_typed s'.
Proof.
intros Hs. unfold get_hash_item. intros. osimpl. case_match; osimpl; simplify_eq; typed.
Qed.

Lemma typed_hand_hash s h src n dst s' h' :
store_typed s → hand_hash s h src n dst = Done (s', h') → store_typed s'.
Proof.
intros Hs. unfold hand_hash, add_hash_info. intros E. osimpl.
destruct a as [s1 item]. pose proof (typed_get_hash_item _ _ _ _ Hs Heqo) as H1s.
destruct item as [a|].
- osimpl. case_match; [simplify_eq; typed|]. unfold request_read in *.
  repeat case_match; osimpl; simplify_eq; typed.
- osimpl. destruct a0 as [s3 cp]. simplify_eq. apply typed_ctr_add. by eapply typed_new_item.
Qed.

Lemma typed_fetch s cpu a s' : store_typed s → fetch_item s cpu a = Done s' → store_typed s'.
Proof.
intros Hs. unfold fetch_item, read_buffer, zalloc. intros E. osimpl.
pose proof (typed_alloc_data _ _ _ _ Hs Heqo0) as H1s.
repeat case_match; osimpl; simplify_eq; try done.
all: match goal with E : copy_data _ _ _ = Done ?s1 |- _ =>
       assert (store_typed s1) by (eapply typed_copy_data; [|exact E]; typed) end; typed.
Qed.

Lemma typed_read_item cpu s a s' : store_typed s → read_item cpu s a = Done s' → store_typed s'.
Proof.
intros Hs. unfold read_item. intros E. osimpl.
assert (store_typed a1).
{ case_match; [by eapply typed_fetch|by simplify_eq]. }
typed.
Qed.

(** ** The timer *)

Lemma typed_evict b s a s' : store_typed s → evict b s a = Done s' → store_typed s'.
Proof.
intros Hs. unfold evict. intros E. osimpl.
assert (store_typed (set_hash_count (atomic_dec (hash_count s)) (list_del b a s))) as H1s
  by (apply typed_count; [by apply typed_tab|apply in_s32_atomic]).
case_match; osimpl; [|done]. apply typed_ctr_add. by eapply typed_free_data.
Qed.

Lemma typed_clear_bit m i m' :
(∀ j, j ∈ m → 0 ≤ j < 8 * bitmap_size) → clear_bit m i = Done m' →
∀ j, j ∈ m' → 0 ≤ j < 8 * bitmap_size.
Proof. intros Hm. unfold clear_bit. case_decide; [|done]. intros [= <-]. set_solver. Qed.

Lemma typed_set_bit m i m' :
(∀ j, j ∈ m → 0 ≤ j < 8 * bitmap_size) → set_bit m i = Done m' →
∀ j, j ∈ m' → 0 ≤ j < 8 * bitmap_size.
Proof.
intros Hm. unfold set_bit. case_decide as Hi; [|done]. intros [= <-] j.
rewrite elem_of_union, elem_of_singleton. intros [->|Hj]; [exact Hi|by apply Hm].
Qed.

Lemma typed_clear_bits s cp s' : store_typed s → clear_bits s cp = Done s' → store_typed s'.
Proof.
intros Hs. unfold clear_bits. intros E. osimpl. typed_reads. apply typed_put_percpu; [done|].
match goal with T : cpu_typed _ |- _ => destruct T as [T1 T2 T3] end.
split; [done|done|]. simpl.
refine (ofold_inv _ (λ m, ∀ j, j ∈ m → 0 ≤ j < 8 * bitmap_size) _ _ _ _ T3 Heqo0).
intros m i m' _. apply typed_clear_bit.
Qed.

Lemma typed_expire b s a s' : store_typed s → expire_item b s a = Done s' → store_typed s'.
Proof.
intros Hs. unfold expire_item. intros E. osimpl.
pose proof (typed_evict _ _ _ _ Hs Heqo) as H1s.
match goal with E : (if has_place _ then _ else _) = Done ?s1 |- _ =>
  assert (store_typed s1) as H2s by (case_match; [by eapply typed_clear_bits|by simplify_eq]) end.
apply typed_delete. destruct (_ =? 1); [by apply typed_ctr_add|done].
Qed.

Lemma typed_age s a flag s' flag' :
store_typed s → age_item s a flag = Done (s', flag') → store_typed s'.
Proof.
intros Hs. unfold age_item, to_vip, to_disk_candidate, back_to_vip. intros E. osimpl. typed_reads.
repeat (case_match; simplify_eq/=); typed.
Qed.

Lemma typed_clear_bucket s b s' : store_typed s → bucket_clear_item s b = Done s' → store_typed s'.
Proof.
intros Hs. unfold bucket_clear_item. intros E. osimpl. destruct a as [s1 flag].
assert (store_typed s1) as H1s.
{ refine (ofold_inv _ (λ sf : store * bool, store_typed (fst sf)) _ _ _ _ _ Heqo); [|done].
  intros [s2 f2] a [s3 f3] _ H2s E3. unfold clear_body in E3. osimpl.
  case_match; osimpl; simplify_eq/=; [by eapply typed_expire|by eapply typed_age]. }
case_match; simplify_eq; [by apply typed_works|done].
Qed.

(** ** The writer *)

Lemma typed_mark s b s' n : store_typed s → wr_mark s b = Done (s', n) → store_typed s'.
Proof.
intros Hs E. unfold wr_mark in E.
refine (ofold_inv _ (λ sz : store * Z, store_typed (fst sz)) _ _ _ _ _ E); [|done].
intros [s2 n2] a [s3 n3] _ H2s E3. unfold mark_body in E3. pose proof num_online_cpus_pos.
osimpl. repeat (case_match; osimpl; simplify_eq/=); typed.
Qed.

Lemma typed_take_place s cpu n s' i :
store_typed s → take_place s cpu n = Done (s', i) → store_typed s' ∧ 0 ≤ i ≤ bitmap_size.
Proof.
intros Hs. unfold take_place. intros E. osimpl. case_match eqn:Ei; osimpl; [done|]. simplify_eq.
typed_reads. apply Z.ltb_ge in Ei. split; [|split; [apply u64_range|done]].
apply typed_put_percpu; [done|].
match goal with T : cpu_typed _ |- _ => destruct T as [T1 T2 T3] end.
split; [apply in_u64_u64|done|]. simpl.
refine (ofold_inv _ (λ m, ∀ j, j ∈ m → 0 ≤ j < 8 * bitmap_size) _ _ _ _ T3 Heqo0).
intros m j m' _. apply typed_set_bit.
Qed.

Lemma typed_copy s cpu b n s' c :
0 ≤ cpu < num_online_cpus → store_typed s → wr_copy s cpu b n = Done (s', c) → store_typed s'.
Proof.
intros Hcpu Hs. unfold wr_copy, zalloc. intros E. case_match; [|done].
refine (ofold_inv _ (λ sc : store * copying, store_typed (fst sc)) _ _ _ _ _ E);
  [|by apply typed_count_alloc].
intros [s2 c2] a [s3 c3] _ H2s E3. unfold copy_body in E3. pose proof num_online_cpus_pos.
osimpl. case_match; simplify_eq/=; [typed|]. case_match; simplify_eq/=; [|typed].
osimpl. destruct a1 as [s4 i]. destruct (typed_take_place _ _ _ _ _ H2s Heqo0) as [H4s Hi].
osimpl. simplify_eq. typed.
Qed.

Lemma typed_prepare s cpu b s' c :
0 ≤ cpu < num_online_cpus → store_typed s → wr_prepare s cpu b = Done (s', c) → store_typed s'.
Proof.
intros Hcpu Hs. unfold wr_prepare. intros E. osimpl. destruct a as [s1 n].
pose proof (typed_mark _ _ _ _ Hs Heqo) as H1s.
case_match; [by simplify_eq|]. osimpl. destruct a as [s2 c2]. simplify_eq. by eapply typed_copy.
Qed.

Lemma typed_write s cpu buf n m s' : store_typed s → wr_write s cpu buf n m = Done s' → store_typed s'.
Proof.
intros Hs. unfold wr_write. intros E. osimpl. typed_reads. repeat case_match; simplify_eq.
apply typed_ctr_add, typed_put_percpu; [done|].
match goal with T : cpu_typed _ |- _ => destruct T as [T1 T2 T3] end.
split; [done|apply in_s64_s64|done].
Qed.

Lemma typed_finish s b s' : store_typed s → wr_finish s b = Done s' → store_typed s'.
Proof.
intros Hs E. unfold wr_finish in E. refine (ofold_inv _ store_typed _ _ _ _ Hs E).
intros s2 a s3 _ H2s E3. unfold finish_body in E3. osimpl. case_match; [|by simplify_eq].
eapply typed_free_data; [|exact E3]. typed.
Qed.

(** ** Any run *)

Lemma run_op_typed x o x' :
store_typed (st x) → run_op x o = Done x' → store_typed (st x').
Proof.
intros Hs E. destruct o; simpl in E; osimpl.
- destruct a as [s1 h1]. simplify_eq. by eapply typed_hand_hash.
- simpl. by eapply typed_read_item.
- simpl. by eapply typed_clear_bucket.
- destruct a as [s1 c1]. simplify_eq. simpl. eapply typed_prepare; [|by apply typed_works|eassumption].
  apply home_range.
- case_match; osimpl; simplify_eq; [by eapply typed_write|done].
- case_match; osimpl; simplify_eq; [done|by eapply typed_finish].
Qed.

Lemma initial_typed x :
initial x → (∀ c pc, cpus (st x) !! c = Some pc → 0 ≤ c < num_online_cpus) → store_typed (st x).
Proof.
intros Hi Hc. pose proof bitmap_size_range. split.
- intros a cp. by rewrite (init_items x Hi).
- rewrite (init_count x Hi). unfold in_s32. lia.
- intros k. rewrite (init_ctr x Hi). unfold in_s64. lia.
- intros c pc Hpc. destruct (init_cpus x Hi c (Hc c pc Hpc)) as (pc'&Hpc'&Hb&Hx&Hl).
  rewrite Hpc in Hpc'. injection Hpc' as <-. split; rewrite ?Hb, ?Hx, ?Hl.
  + unfold in_u64. lia.
  + unfold in_s64. lia.
  + set_solver.
Qed.

End types.

#[local] Existing Instance demo_params.
#[local] Existing Instance demo_params_laws.

Definition demo_steps : list op := [Packet demo_digest demo_chunk 40; Tick demo_bucket].

