(* ===== verification/Sock.v ===== *)
(** * Reading lines, writing everything and relaying (tcp_netlink, client/lib)

    readline.c, [writen] and [Writen] of lx_sock.c, [Read] and [Write] of
    wrapstdio.c, and the loop of str_cli.c.

    The kernel side of a descriptor is a script: the list of what the next calls
    of read(), write() or select() meet. Any finite behaviour is a script: data
    may arrive in pieces of any size, a call may be interrupted, fail, or take
    less than it is given. At the end of a script a read finds the end of the
    file and a write takes everything. *)
From S2P Require Import Prelude.

(** ** System calls *)

Definition MAXLINE : nat := 64 * 64.

(** What a call of read() meets; [Data []] is an end of file. *)
Inductive arrival :=
| Data (l : list Z)
| Interrupt
| Failure.

(** What read() returns: a count with the bytes, or -1 with errno. *)
Inductive sysret :=
| Got (l : list Z)
| EINTR
| ERRNO.

Definition sys_read (n : nat) (env : list arrival) : sysret * list arrival :=
  match env with
  | [] => (Got [], [])
  | Data l :: env =>
      if decide (length l ≤ n) then (Got l, env) else (Got (take n l), Data (drop n l) :: env)
  | Interrupt :: env => (EINTR, env)
  | Failure :: env => (ERRNO, env)
  end.

(** What a call of write() meets: it takes at most [k] bytes, is interrupted,
    or fails. *)
Inductive departure :=
| Took (k : nat)
| WInterrupt
| WFailure.

(** ** readline.c *)

(** The three static variables: [read_ptr] is an index into [read_buf], and NULL
    before the first read. *)
Record reader := Reader {
  read_cnt : Z;
  read_ptr : option nat;
  read_buf : list Z }.

Definition reader0 : reader := Reader 0 None (replicate MAXLINE 0%Z).

(** The return values 1 (with the character), 0 and -1 of [my_read]. *)
Inductive readrc :=
| Char (c : Z)
| Eof
| Error.

(** [again:], the loop on EINTR. *)
Fixpoint again (env : list arrival) : sysret * list arrival :=
  match env with
  | Interrupt :: env => again env
  | _ => sys_read MAXLINE env
  end.

Definition take_char (r : reader) (env : list arrival) : outcome (readrc * reader * list arrival) :=
  p ← deref (read_ptr r);
  c ← deref (read_buf r !! p);
  Done (Char c, Reader (read_cnt r - 1) (Some (S p)) (read_buf r), env).

Definition my_read (r : reader) (env : list arrival) : outcome (readrc * reader * list arrival) :=
  if (read_cnt r <=? 0)%Z then
    match again env with
    | (Got [], env) => Done (Eof, Reader 0 (read_ptr r) (read_buf r), env)
    | (Got l, env) =>
        take_char (Reader (Z.of_nat (length l)) (Some 0) (l ++ drop (length l) (read_buf r))) env
    | (_, env) => Done (Error, Reader (-1) (read_ptr r) (read_buf r), env)
    end
  else take_char r env.

(** A store through the caller's pointer. *)
Definition poke (dst : list Z) (i : nat) (c : Z) : outcome (list Z) :=
  if decide (i < length dst) then Done (<[i := c]> dst) else Oops.

Definition newline : Z := 10.

(** The loop of [readline] with [k] turns left; [n - 1] bytes are stored. *)
Fixpoint readline_loop (k n : nat) (dst : list Z) (r : reader) (env : list arrival)
    : outcome (Z * list Z * reader * list arrival) :=
  match k with
  | 0 => dst ← poke dst (n - 1) 0; Done (Z.of_nat n, dst, r, env)
  | S k =>
      x ← my_read r env;
      let '(rc, r, env) := x in
      match rc with
      | Char c =>
          dst ← poke dst (n - 1) c;
          if decide (c = newline)
          then dst ← poke dst n 0; Done (Z.of_nat n, dst, r, env)
          else readline_loop k (S n) dst r env
      | Eof => dst ← poke dst (n - 1) 0; Done (Z.of_nat n - 1, dst, r, env)%Z
      | Error => Done ((-1)%Z, dst, r, env)
      end
  end.

Definition readline (dst : list Z) (maxlen : nat) (r : reader) (env : list arrival)
    : outcome (Z * list Z * reader * list arrival) :=
  readline_loop (maxlen - 1) 1 dst r env.

(** [readlinebuf]: the count, and the pointer when it is stored. *)
Definition readlinebuf (r : reader) (vptr : option nat) : Z * option nat :=
  (read_cnt r, if decide (read_cnt r = 0%Z) then vptr else read_ptr r).

(** [Readline] ends the process on an error. *)
Definition Readline (dst : list Z) (maxlen : nat) (r : reader) (env : list arrival)
    : outcome (Z * list Z * reader * list arrival) :=
  x ← readline dst maxlen r env;
  let '(n, _, _, _) := x in if (n <? 0)%Z then Bug else Done x.

(** ** writen *)

(** [ptr] is what is left to write, [sent] what the peer gets. *)
Fixpoint writen_loop (n : nat) (sent ptr : list Z) (env : list departure)
    : Z * list Z * list departure :=
  match ptr with
  | [] => (Z.of_nat n, sent, env)
  | _ =>
    match env with
    | [] => (Z.of_nat n, sent ++ ptr, [])
    | Took k :: env =>
        if decide (k = 0) then ((-1)%Z, sent, env)
        else writen_loop n (sent ++ take k ptr) (drop k ptr) env
    | WInterrupt :: env => writen_loop n sent ptr env
    | WFailure :: env => ((-1)%Z, sent, env)
    end
  end.

Definition writen (ptr : list Z) (env : list departure) : Z * list Z * list departure :=
  writen_loop (length ptr) [] ptr env.

(** ** str_cli *)

(** One turn of the loop: what select() says is readable, what the reads meet,
    and how the writes to the terminal and to the socket go. *)
Inductive turn :=
| SelectFails
| Ready (sock input : option sysret) (term : departure) (net : list departure).

Record cli := Cli {
  stdineof : bool;
  rset_fp : bool;          (** the bit of [fp] in [rset] *)
  out : list Z;            (** written to the terminal *)
  sent : list Z;           (** written to the socket *)
  fin : nat }.             (** calls of [Shutdown] *)

Definition cli0 : cli := Cli false false [] [] 0.

(** [Returned]: the function returns; [Exited]: the process ends; [Running]: it
    waits in select(). *)
Inductive cli_result :=
| Running (s : cli)
| Returned (s : cli)
| Exited (s : cli).

(** Select: a bit that is not in the set is not reported. *)
Definition select_ready {A} (bit : bool) (o : option A) : option A := if bit then o else None.

Definition FD_ISSET {A} (o : option A) : bool := match o with Some _ => true | None => false end.

(** [Write]: everything or the process ends. *)
Definition Write (out buf : list Z) (d : departure) : bool * list Z :=
  match d with
  | Took k => (bool_decide (length buf ≤ k), out ++ take k buf)
  | _ => (false, out)
  end.

(** [Writen]. *)
Definition Writen (sent buf : list Z) (net : list departure) : bool * list Z :=
  let '(n, w, _) := writen buf net in (bool_decide (n = Z.of_nat (length buf)), sent ++ w).

(** [if (FD_ISSET(fileno(fp), &rset)) ...], the second half of a turn. *)
Definition input_part (s : cli) (input : option sysret) (net : list departure) : cli_result :=
  match input with
  | None => Running s
  | Some (Got l) =>
      let buf := take MAXLINE l in
      if decide (buf = []) then Running (Cli true false (out s) (sent s) (S (fin s)))
      else let '(ok, w) := Writen (sent s) buf net in
           let s := Cli (stdineof s) (rset_fp s) (out s) w (fin s) in
           if ok then Running s else Exited s
  | Some _ => Exited s
  end.

Definition cli_turn (s : cli) (t : turn) : cli_result :=
  let s := Cli (stdineof s) (if stdineof s then rset_fp s else true) (out s) (sent s) (fin s) in
  match t with
  | SelectFails => Exited s
  | Ready sock input term net =>
      let input := select_ready (rset_fp s) input in
      let s := Cli (stdineof s) (FD_ISSET input) (out s) (sent s) (fin s) in
      match sock with
      | None => input_part s input net
      | Some (Got l) =>
          let buf := take MAXLINE l in
          if decide (buf = []) then if stdineof s then Returned s else Exited s
          else let '(ok, w) := Write (out s) buf term in
               let s := Cli (stdineof s) (rset_fp s) w (sent s) (fin s) in
               if ok then input_part s input net else Exited s
      | Some _ => Exited s
      end
  end.

Fixpoint str_cli (s : cli) (ts : list turn) : cli_result :=
  match ts with
  | [] => Running s
  | t :: ts => match cli_turn s t with Running s => str_cli s ts | r => r end
  end.
