(* ===== verification/SockSpec.v ===== *)
(** * What the stream helpers promise (tcp_netlink, client/lib)

    The reader is described by what its descriptor still has to give: the bytes
    that are buffered or will arrive before the next end of file or error, how
    they end, and what follows. Nothing else of the script shows through
    [readline]: not how the bytes were cut into pieces, nor the interruptions. *)
From S2P Require Import Prelude Sock.

(** ** What a descriptor still has to give *)

Fixpoint stream (env : list arrival) : list Z :=
  match env with
  | Data [] :: _ | Failure :: _ | [] => []
  | Data l :: env => l ++ stream env
  | Interrupt :: env => stream env
  end.

(** How that ends: with an error, or with an end of file. *)
Fixpoint fails (env : list arrival) : bool :=
  match env with
  | Data [] :: _ | [] => false
  | Failure :: _ => true
  | (Data _ | Interrupt) :: env => fails env
  end.

(** What comes after the end. *)
Fixpoint after (env : list arrival) : list arrival :=
  match env with
  | Data [] :: env | Failure :: env => env
  | [] => []
  | (Data _ | Interrupt) :: env => after env
  end.

Definition buffered (r : reader) : list Z :=
  match read_ptr r with
  | Some p => slice p (Z.to_nat (read_cnt r)) (read_buf r)
  | None => []
  end.

Definition pending (r : reader) (env : list arrival) : list Z := buffered r ++ stream env.

(** The static variables between two calls. *)
Record reader_ok (r : reader) : Prop := {
  ok_buf : length (read_buf r) = MAXLINE;
  ok_cnt : (-1 ≤ read_cnt r)%Z;
  ok_ptr : (0 < read_cnt r)%Z →
    ∃ p, read_ptr r = Some p ∧ (Z.of_nat p + read_cnt r ≤ Z.of_nat MAXLINE)%Z }.

Lemma MAXLINE_pos : 0 < MAXLINE.
Proof. unfold MAXLINE. lia. Qed.
#[local] Opaque MAXLINE.

Lemma reader0_ok : reader_ok reader0.
Proof. split; simpl; [by rewrite length_replicate|lia|lia]. Qed.

Lemma buffered_nil r : (read_cnt r ≤ 0)%Z → buffered r = [].
Proof.
  intros H. unfold buffered. destruct (read_ptr r); [|done].
  unfold slice. replace (Z.to_nat (read_cnt r)) with 0 by lia. apply firstn_O.
Qed.

(** [again] is the loop of the code: a read, and once more when interrupted. *)
Lemma again_unfold env :
  again env = match sys_read MAXLINE env with (EINTR, env) => again env | x => x end.
Proof.
  destruct env as [|[l| |] env]; simpl; [done| |done|done].
  by destruct (decide _).
Qed.

Lemma again_spec env :
  (∃ l env', again env = (Got l, env') ∧ l ≠ [] ∧ length l ≤ MAXLINE ∧
     stream env = l ++ stream env' ∧ fails env' = fails env ∧ after env' = after env) ∨
  (stream env = [] ∧ again env = (if fails env then ERRNO else Got [], after env)).
Proof.
  pose proof MAXLINE_pos as HM.
  induction env as [|[l| |] env IH]; simpl; [by right| |exact IH|by right].
  destruct (decide _) as [?|Hl]; [destruct l as [|c l]; [by right|left; by exists (c :: l), env]|].
  destruct l as [|c l]; [simpl in Hl; lia|]. left.
    destruct MAXLINE as [|m]; [lia|]. simpl. simpl in Hl.
    exists (c :: take m l), (Data (drop m l) :: env). split_and!; [done|done| | | |].
    + simpl. rewrite length_take. lia.
    + simpl. f_equal. destruct (drop m l) eqn:E.
      * apply (f_equal length) in E. rewrite length_drop in E. simpl in E. lia.
      * rewrite <- E, app_assoc. by rewrite take_drop.
    + destruct (drop m l) eqn:E; [|done].
      apply (f_equal length) in E. rewrite length_drop in E. simpl in E. lia.
    + destruct (drop m l) eqn:E; [|done].
      apply (f_equal length) in E. rewrite length_drop in E. simpl in E. lia.
Qed.

(** ** One character *)

Lemma take_char_spec r env :
  reader_ok r → (0 < read_cnt r)%Z →
  ∃ c r', take_char r env = Done (Char c, r', env) ∧ reader_ok r' ∧
    buffered r = c :: buffered r'.
Proof.
  intros [Hb Hc Hp] Hpos. destruct (Hp Hpos) as (p&Ep&Hle).
  destruct (lookup_lt_is_Some_2 (read_buf r) p) as [c Hl]; [lia|].
  exists c. eexists. unfold take_char. rewrite Ep. simpl. rewrite Hl. simpl.
  split; [done|]. split.
  - split; simpl; [done|lia|]. intros. eexists; split; [done|lia].
  - unfold buffered. rewrite Ep. simpl.
    replace (Z.to_nat (read_cnt r)) with (S (Z.to_nat (read_cnt r - 1))) by lia.
    by apply slice_cons.
Qed.

(** [my_read] takes the next pending byte; at the end it says how the stream
    ended, and moves on to what follows. *)
Lemma my_read_spec r env :
  reader_ok r →
  match pending r env with
  | c :: rest => ∃ r' env', my_read r env = Done (Char c, r', env') ∧ reader_ok r' ∧
      pending r' env' = rest ∧ fails env' = fails env ∧ after env' = after env
  | [] => ∃ r', my_read r env = Done (if fails env then Error else Eof, r', after env) ∧
      reader_ok r' ∧ buffered r' = []
  end.
Proof.
  intros Hr. unfold my_read, pending. destruct (Z.leb_spec (read_cnt r) 0) as [Hle|Hpos].
  - rewrite (buffered_nil r) by lia. simpl.
    destruct (again_spec env) as [(l&env'&->&Hne&Hlen&->&Hf&Ha)|[-> ->]].
    + destruct l as [|c l]; [done|].
      set (r1 := Reader _ _ _).
      assert (Hr1 : reader_ok r1).
      { destruct Hr as [Hb ??]. split; simpl; [|lia|intros _; exists 0; simpl in *; split; [done|lia]].
        rewrite length_app, length_drop. simpl in *. lia. }
      destruct (take_char_spec r1 env' Hr1) as (c'&r'&E&Hr'&Hbuf); [simpl; lia|].
      rewrite E.
      assert (buffered r1 = c :: l) as Hb1.
      { unfold buffered, r1. simpl read_ptr. simpl read_cnt. simpl read_buf.
        rewrite Nat2Z.id. unfold slice. rewrite drop_0. exact (take_app_length (c :: l) _). }
      rewrite Hb1 in Hbuf. injection Hbuf as <- Hbuf. simpl.
      exists r', env'. by rewrite <- Hbuf.
    + destruct (fails env).
      * eexists. split; [done|]. split; [|by apply buffered_nil].
        destruct Hr as [Hb ??]. split; simpl; [done|lia|lia].
      * eexists. split; [done|]. split; [|by apply buffered_nil].
        destruct Hr as [Hb ??]. split; simpl; [done|lia|lia].
  - destruct (take_char_spec r env Hr Hpos) as (c&r'&E&Hr'&->). simpl.
    exists r', env. by rewrite E.
Qed.

(** ** One line *)

(** The bytes up to the first newline, included. *)
Fixpoint to_newline (l : list Z) : list Z :=
  match l with
  | [] => []
  | c :: l => if decide (c = newline) then [c] else c :: to_newline l
  end.

(** What [readline] leaves in a buffer that held [dst]. *)
Definition c_string (l dst : list Z) : list Z := l ++ 0%Z :: drop (S (length l)) dst.

(** The bytes of one call with room for [m] of them. *)
Definition line (m : nat) (l : list Z) : list Z := to_newline (take m l).

(** Whether a call stops for having found a newline or filled the buffer. *)
Definition complete (m : nat) (l : list Z) : Prop :=
  newline ∈ line m l ∨ length (line m l) = m.
#[local] Instance complete_dec m l : Decision (complete m l).
Proof. unfold complete. solve_decision. Defined.
#[local] Arguments complete_dec : simpl never.
#[local] Arguments decide : simpl never.

(** What a call returns: a full buffer without a newline counts one too many. *)
Definition line_count (m : nat) (l : list Z) : nat :=
  if decide (newline ∈ line m l) then length (line m l) else S m.

Lemma poke_snoc l c dst :
  length l < length dst →
  poke (l ++ drop (length l) dst) (length l) c = Done ((l ++ [c]) ++ drop (S (length l)) dst).
Proof.
  intros H. unfold poke. rewrite decide_True.
  - f_equal. rewrite <- (Nat.add_0_r (length l)) at 1. rewrite insert_app_r.
    destruct (drop (length l) dst) as [|x k] eqn:E.
    + apply (f_equal length) in E. rewrite length_drop in E. simpl in E. lia.
    + simpl. rewrite <- app_assoc. simpl. f_equal. f_equal.
      replace (S (length l)) with (length l + 1) by lia.
      by rewrite <- drop_drop, E.
  - rewrite length_app, length_drop. lia.
Qed.

(** The loop of [readline]: [l] is stored already, [k] turns are left. *)
Lemma readline_loop_spec k l dst r env :
  reader_ok r → length l + k < length dst →
  ∃ ret dst' r' env',
    readline_loop k (S (length l)) (l ++ drop (length l) dst) r env = Done (ret, dst', r', env') ∧
    reader_ok r' ∧
    (if decide (complete k (pending r env)) then
       ret = Z.of_nat (length l + line_count k (pending r env)) ∧
       dst' = c_string (l ++ line k (pending r env)) dst ∧
       pending r' env' = drop (length (line k (pending r env))) (pending r env) ∧
       fails env' = fails env ∧ after env' = after env
     else
       buffered r' = [] ∧ env' = after env ∧
       if fails env
       then ret = (-1)%Z ∧
            dst' = (l ++ pending r env) ++ drop (length (l ++ pending r env)) dst
       else ret = Z.of_nat (length (l ++ pending r env)) ∧
            dst' = c_string (l ++ pending r env) dst).
Proof.
  revert l r env. induction k as [|k IH]; intros l r env Hr Hlen.
  - assert (line 0 (pending r env) = []) as El by done.
    simpl. rewrite Nat.sub_0_r, poke_snoc by lia. simpl.
    do 4 eexists. split; [done|]. split; [done|].
    destruct (decide (complete 0 (pending r env))) as [_|Hn]; [|destruct Hn; right; by rewrite El].
    unfold line_count.
    rewrite El, decide_False by apply not_elem_of_nil.
    unfold c_string. rewrite app_nil_r, <- app_assoc, drop_0. simpl.
    split_and!; [f_equal; lia|done..].
  - simpl. pose proof (my_read_spec r env Hr) as H.
    destruct (pending r env) as [|c rest] eqn:Ep.
    + destruct H as (r'&->&Hr'&Hb). simpl.
      destruct (decide (complete (S k) [])) as [[Hn|Hn]|_];
        [by apply not_elem_of_nil in Hn|done|].
      rewrite app_nil_r. destruct (fails env); simpl.
      * do 4 eexists. split; [done|]. done.
      * rewrite Nat.sub_0_r, poke_snoc by lia. simpl.
        do 4 eexists. split; [done|]. split; [done|]. split_and!; [done..|lia|].
        unfold c_string. by rewrite <- app_assoc.
    + destruct H as (r'&env'&->&Hr'&Hrest&Hf&Ha). simpl.
      rewrite Nat.sub_0_r, poke_snoc by lia. simpl.
      destruct (decide (c = newline)) as [->|Hc].
      * replace (S (length l)) with (length (l ++ [newline])) by (rewrite length_app; simpl; lia).
        rewrite poke_snoc by (rewrite length_app; simpl; lia). simpl.
        assert (line (S k) (newline :: rest) = [newline]) as El by done.
        do 4 eexists. split; [done|]. split; [done|].
        destruct (decide (complete (S k) (newline :: rest))) as [_|Hn]; [|destruct Hn; left; rewrite El; apply elem_of_cons; by left].
        unfold line_count. rewrite El, decide_True by (apply elem_of_cons; by left).
        rewrite length_app. simpl. split_and!; [f_equal; lia| |by rewrite drop_0|done|done].
        unfold c_string. rewrite <- app_assoc, length_app. simpl.
        by rewrite Nat.add_1_r.
      * assert (line (S k) (c :: rest) = c :: line k rest) as El.
        { unfold line. simpl. by rewrite decide_False. }
        destruct (IH (l ++ [c]) r' env' Hr') as (ret&dst'&r2&env2&E&Hr2&Hcase).
        { rewrite length_app. simpl. lia. }
        rewrite length_app in E. simpl in E. rewrite Nat.add_1_r in E.
        rewrite E, Hrest in *. do 4 eexists. split; [done|]. split; [done|].
        assert (complete (S k) (c :: rest) ↔ complete k rest) as Hcomp.
        { unfold complete. rewrite El. rewrite elem_of_cons. simpl. naive_solver. }
        destruct (decide (complete k rest)) as [Hd|Hd].
        -- destruct (decide (complete (S k) (c :: rest))) as [_|]; [|tauto]. destruct Hcase as (->&->&Hp&Hf2&Ha2).
           unfold line_count. rewrite El. rewrite <- app_assoc. simpl.
           split_and!; [|done|done|congruence|congruence].
           f_equal. rewrite length_app. simpl.
           destruct (decide (newline ∈ line k rest)).
           ++ rewrite decide_True by (by right). lia.
           ++ rewrite decide_False; [lia|]. rewrite elem_of_cons. naive_solver.
        -- destruct (decide (complete (S k) (c :: rest))) as [|_]; [tauto|]. 
           assert ((l ++ [c]) ++ rest = l ++ c :: rest) as Eapp by (by rewrite <- app_assoc).
           by rewrite Hf, Ha, Eapp in Hcase.
Qed.

(** What one call does: the result, the buffer, and what is left. *)
Definition reads_line (dst : list Z) (maxlen : nat) (r : reader) (env : list arrival)
    (ret : Z) (dst' : list Z) (r' : reader) (env' : list arrival) : Prop :=
  let m := maxlen - 1 in
  let l := pending r env in
  if decide (complete m l) then
    ret = Z.of_nat (line_count m l) ∧ dst' = c_string (line m l) dst ∧
    pending r' env' = drop (length (line m l)) l ∧
    fails env' = fails env ∧ after env' = after env
  else
    buffered r' = [] ∧ env' = after env ∧
    if fails env then ret = (-1)%Z ∧ dst' = l ++ drop (length l) dst
    else ret = Z.of_nat (length l) ∧ dst' = c_string l dst.

(** C30. [readline] on a buffer of at least [maxlen] bytes never stores outside of
    it, and terminates with: the next line of the stream with its newline, or the
    first [maxlen - 1] bytes of it when it is longer, or what is left before the
    end of file, each followed by a NUL; the rest of the stream is left for the
    next call, however the bytes arrive. A count is returned, which is one more
    than the bytes stored when the buffer was filled. On an error the result is -1
    and the bytes read before it are lost. *)
Theorem readline_reads_line dst maxlen r env :
  reader_ok r → 0 < length dst → maxlen ≤ length dst →
  ∃ ret dst' r' env',
    readline dst maxlen r env = Done (ret, dst', r', env') ∧ reader_ok r' ∧
    reads_line dst maxlen r env ret dst' r' env'.
Proof.
  intros Hr H0 Hlen. apply (readline_loop_spec (maxlen - 1) [] dst r env Hr). simpl. lia.
Qed.

(** Six bytes in three pieces, with an interruption, and then an error. *)
Definition arrivals : list arrival :=
  [Data [104; 105]; Interrupt; Data [10; 97; 98]; Failure]%Z.

Lemma readline_reads_line_witness :
  ∃ r' env',
    readline [7; 7; 7; 7; 7]%Z 5 reader0 arrivals = Done (3, [104; 105; 10; 0; 7], r', env')%Z ∧
    pending r' env' = [97; 98]%Z.
Proof.
  destruct (readline_reads_line [7; 7; 7; 7; 7]%Z 5 reader0 arrivals reader0_ok)
    as (ret&dst&r'&env'&->&_&H); [simpl; lia|simpl; lia|].
  assert (pending reader0 arrivals = [104; 105; 10; 97; 98]%Z) as Ep by reflexivity.
  unfold reads_line in H. rewrite Ep in H.
  destruct H as (->&->&Hp&_). exists r', env'. rewrite Hp. split; reflexivity.
Defined.

(** After an error the count is negative, so that [readlinebuf] reports -1 bytes
    at a pointer of before. *)
Example readlinebuf_after_error :
  ∃ r env', readline [0; 0; 0]%Z 3 reader0 [Data [65]; Failure]%Z
              = Done (-1, [65; 0; 0], r, env')%Z ∧
            readlinebuf r None = ((-1)%Z, Some 1).
Proof. eexists _, _. split; reflexivity. Qed.

(** ** writen *)

(** The peer gets a prefix of the buffer; all of it exactly when the count is
    returned, which is -1 otherwise. *)
Lemma writen_loop_spec n done ptr env :
  ∃ w ret env', writen_loop n done ptr env = (ret, done ++ w, env') ∧ w `prefix_of` ptr ∧
    (ret = Z.of_nat n ∧ w = ptr ∨ ret = (-1)%Z ∧ w ≠ ptr).
Proof.
  revert done ptr. induction env as [|[k| |] env IH]; intros done ptr;
    (destruct ptr as [|c ptr]; [exists []; rewrite app_nil_r; eauto 10 using prefix_nil|]); simpl.
  - exists (c :: ptr). eauto 10.
  - destruct (decide (k = 0)) as [->|Hk].
    + exists []. rewrite app_nil_r. eauto 10 using prefix_nil.
    + destruct (IH (done ++ take k (c :: ptr)) (drop k (c :: ptr))) as (w&ret&env'&->&[w' Hw]&Hr).
      rewrite <- app_assoc. exists (take k (c :: ptr) ++ w), ret, env'. split; [done|].
      assert (c :: ptr = take k (c :: ptr) ++ drop k (c :: ptr)) as E by (by rewrite take_drop).
      split.
      * rewrite E at 2. rewrite Hw, app_assoc. by eexists.
      * destruct Hr as [[-> ->]|[-> Hne]]; [left; by rewrite take_drop|right].
        split; [done|]. intros H. rewrite E in H at 2. by apply app_inv_head in H.
  - apply IH.
  - exists []. rewrite app_nil_r. eauto 10 using prefix_nil.
Qed.

Lemma writen_spec ptr env :
  ∃ w ret env', writen ptr env = (ret, w, env') ∧ w `prefix_of` ptr ∧
    (ret = Z.of_nat (length ptr) ∧ w = ptr ∨ ret = (-1)%Z ∧ w ≠ ptr).
Proof. exact (writen_loop_spec (length ptr) [] ptr env). Qed.

(** ** The relay *)

(** What the turns bring from the terminal, until its end of file, and from the
    server. *)
Definition turn_input (t : turn) : option sysret :=
  match t with Ready _ i _ _ => i | SelectFails => None end.
Definition turn_sock (t : turn) : option sysret :=
  match t with Ready s _ _ _ => s | SelectFails => None end.

Definition got (o : option sysret) : list Z :=
  match o with Some (Got l) => take MAXLINE l | _ => [] end.

Definition at_eof (o : option sysret) : bool :=
  match o with Some (Got l) => bool_decide (take MAXLINE l = []) | _ => false end.

Fixpoint typed (ts : list turn) : list Z :=
  match ts with
  | [] => []
  | t :: ts => if at_eof (turn_input t) then [] else got (turn_input t) ++ typed ts
  end.

Definition received (ts : list turn) : list Z := ts ≫= λ t, got (turn_sock t).

Definition input_ended (ts : list turn) : bool := existsb (λ t, at_eof (turn_input t)) ts.

(** The state after turns [ts] that all went well: everything typed was sent, in
    order, everything received was shown, and the connection was half closed once
    when, and only when, the input had ended. *)
Record relayed (ts : list turn) (s : cli) : Prop := {
  r_sent : sent s = typed ts;
  r_out : out s = received ts;
  r_eof : stdineof s = input_ended ts;
  r_fin : fin s = if input_ended ts then 1 else 0;
  r_rset : stdineof s = true → rset_fp s = false }.

Lemma typed_app ts us :
  typed (ts ++ us) = typed ts ++ (if input_ended ts then [] else typed us).
Proof.
  induction ts as [|t ts IH]; simpl; [done|].
  destruct (at_eof (turn_input t)); simpl; [done|]. by rewrite IH, app_assoc.
Qed.

Lemma input_ended_app ts us : input_ended (ts ++ us) = input_ended ts || input_ended us.
Proof. apply existsb_app. Qed.

Lemma received_app ts us : received (ts ++ us) = received ts ++ received us.
Proof. apply bind_app. Qed.

(** What an exit leaves: prefixes of what was to be sent and shown. *)
Record cut_short (before : list turn) (t : turn) (s : cli) : Prop := {
  c_sent : sent s `prefix_of` typed (before ++ [t]);
  c_out : out s `prefix_of` received (before ++ [t]);
  c_fin : fin s = if input_ended before then 1 else 0 }.

Lemma cut_short_before before t s :
  sent s = typed before → out s = received before →
  fin s = (if input_ended before then 1 else 0) → cut_short before t s.
Proof.
  intros Hs Ho Hf. split; [|rewrite Ho, received_app|done].
  - rewrite Hs, typed_app. by apply prefix_app_r.
  - by apply prefix_app_r.
Qed.

Lemma Writen_spec done buf net :
  ∃ ok w, Writen done buf net = (ok, done ++ w) ∧ w `prefix_of` buf ∧ (ok = true → w = buf).
Proof.
  unfold Writen. destruct (writen_spec buf net) as (w&ret&env'&->&Hp&Hr).
  eexists _, w. split; [done|]. split; [done|]. intros H.
  apply bool_decide_eq_true in H. destruct Hr as [[_ ?]|[-> _]]; [done|lia].
Qed.

(** What a turn must do after turns [before] that went well. *)
Definition turn_ok (before : list turn) (t : turn) (res : cli_result) : Prop :=
  match res with
  | Running s => relayed (before ++ [t]) s
  | Returned s => relayed before s ∧ input_ended before = true ∧ at_eof (turn_sock t) = true
  | Exited s => cut_short before t s
  end.

(** The second half of a turn, from a state [s] in which the first half is done. *)
Lemma input_part_spec before t s net :
  sent s = typed before → out s = received (before ++ [t]) →
  stdineof s = input_ended before → fin s = (if input_ended before then 1 else 0) →
  let o := select_ready (negb (input_ended before)) (turn_input t) in
  rset_fp s = FD_ISSET o →
  turn_ok before t (input_part s o net).
Proof.
  intros Hs Ho He Hf o Hr. unfold turn_ok, o in *. clear o.
  destruct (input_ended before) eqn:Eb; simpl in *.
  - split; rewrite ?typed_app, ?input_ended_app, ?Eb, ?app_nil_r; auto.
  - destruct (turn_input t) as [[l| |]|] eqn:Et; simpl in *.
    + destruct (decide (take MAXLINE l = [])) as [Hl|Hl].
      * assert (at_eof (turn_input t) = true) as Ha by (rewrite Et; by apply bool_decide_eq_true).
        split; simpl; rewrite ?typed_app, ?input_ended_app, ?Eb; simpl; rewrite ?Ha, ?app_nil_r, ?Hf; auto.
      * assert (at_eof (turn_input t) = false) as Ha by (rewrite Et; by apply bool_decide_eq_false).
        destruct (Writen_spec (sent s) (take MAXLINE l) net) as (ok&w&->&Hp&Hok).
        assert (typed (before ++ [t]) = sent s ++ take MAXLINE l) as Ety.
        { rewrite typed_app, Eb. simpl. rewrite Ha, Et. simpl. by rewrite app_nil_r, Hs. }
        destruct ok.
        -- rewrite (Hok eq_refl).
           split; simpl; rewrite ?Ety, ?input_ended_app, ?Eb; simpl; rewrite ?Ha; simpl; auto. congruence.
        -- split; simpl; rewrite ?Ety, ?Ho, ?Hf, ?Eb; [by apply prefix_app|done|done].
    + split; rewrite ?Ho, ?Hf, ?Eb; [|done|done]. rewrite Hs, typed_app. by apply prefix_app_r.
    + split; rewrite ?Ho, ?Hf, ?Eb; [|done|done]. rewrite Hs, typed_app. by apply prefix_app_r.
    + assert (at_eof (turn_input t) = false) as Ha by (by rewrite Et).
      split; rewrite ?typed_app, ?input_ended_app, ?Eb; simpl; rewrite ?Ha; simpl;
        rewrite ?Et, ?app_nil_r; auto.
Qed.

(** One turn, when those before went well. *)
Lemma cli_turn_spec before s t :
  relayed before s → turn_ok before t (cli_turn s t).
Proof.
  intros [Hs Ho He Hf Hr]. unfold cli_turn.
  set (s0 := Cli _ _ _ _ _).
  destruct t as [|so i term net]; [by apply cut_short_before|].
  assert (rset_fp s0 = negb (input_ended before)) as Ers.
  { unfold s0. simpl. rewrite He in *. destruct (input_ended before); [by apply Hr|done]. }
  rewrite Ers. simpl stdineof. simpl out. simpl sent. simpl fin.
  set (o := select_ready _ i).
  destruct so as [[l| |]|].
  - destruct (decide (take MAXLINE l = [])) as [Hl|Hl].
    + rewrite He. destruct (input_ended before) eqn:Eb.
      * split; [|split; [done|by apply bool_decide_eq_true]]. split; simpl; rewrite ?Eb; auto.
      * apply cut_short_before; simpl; rewrite ?Eb; auto.
    + unfold Write. destruct term as [k| |].
      * destruct (bool_decide_reflect (length (take MAXLINE l) ≤ k)) as [Hk|Hk].
        -- cbv iota zeta. apply (input_part_spec before (Ready (Some (Got l)) i (Took k) net)); simpl; auto.
           rewrite received_app, Ho, (take_ge (take MAXLINE l) k) by done. simpl. by rewrite app_nil_r.
        -- split; simpl; [rewrite Hs, typed_app; by apply prefix_app_r| |done].
           rewrite received_app, Ho. apply prefix_app. simpl. rewrite app_nil_r. apply prefix_take.
      * by apply cut_short_before.
      * by apply cut_short_before.
  - by apply cut_short_before.
  - by apply cut_short_before.
  - apply (input_part_spec before (Ready None i term net)); simpl; auto.
    rewrite received_app, Ho. simpl. by rewrite app_nil_r.
Qed.

Lemma str_cli_from before s ts :
  relayed before s →
  match str_cli s ts with
  | Running s' => relayed (before ++ ts) s'
  | Returned s' => ∃ seen t rest, ts = seen ++ t :: rest ∧ relayed (before ++ seen) s' ∧
      input_ended (before ++ seen) = true ∧ at_eof (turn_sock t) = true
  | Exited s' => ∃ seen t rest, ts = seen ++ t :: rest ∧ cut_short (before ++ seen) t s'
  end.
Proof.
  revert before s. induction ts as [|t ts IH]; intros before s Hr; simpl; [by rewrite app_nil_r|].
  pose proof (cli_turn_spec before s t Hr) as Ht. unfold turn_ok in Ht. destruct (cli_turn s t) as [s1|s1|s1].
  - specialize (IH (before ++ [t]) s1 Ht). destruct (str_cli s1 ts).
    + by rewrite <- app_assoc in IH.
    + destruct IH as (seen&t'&rest&->&H). exists (t :: seen), t', rest.
      by rewrite <- app_assoc in H.
    + destruct IH as (seen&t'&rest&->&H). exists (t :: seen), t', rest.
      by rewrite <- app_assoc in H.
  - exists [], t, ts. by rewrite app_nil_r.
  - exists [], t, ts. by rewrite app_nil_r.
Qed.

(** C31. The relay: as long as [str_cli] waits, and when it returns, everything typed
    before the end of the input was sent, in order and once, everything the server
    sent was shown, and the connection was half closed once if the input had ended.
    It returns only when the server closes after that. When the process ends
    instead (a call fails, a write to the terminal is short, or the server closes
    too early), what was sent and what was shown are prefixes of that. *)
Theorem str_cli_relays ts :
  match str_cli cli0 ts with
  | Running s => relayed ts s
  | Returned s => ∃ seen t rest, ts = seen ++ t :: rest ∧ relayed seen s ∧
      input_ended seen = true ∧ at_eof (turn_sock t) = true
  | Exited s => ∃ seen t rest, ts = seen ++ t :: rest ∧ cut_short seen t s
  end.
Proof. apply (str_cli_from [] cli0 ts). by split. Qed.

(** Typed text in two turns, its end together with the first half of an answer,
    and the end of the answer; the second write to the socket is short. *)
Definition session : list turn :=
  [Ready None (Some (Got [1; 2])) (Took 9) [Took 1];
   Ready None (Some (Got [3])) (Took 9) [WInterrupt; Took 5];
   Ready (Some (Got [8])) (Some (Got [])) (Took 9) [];
   Ready (Some (Got [9])) (Some (Got [4])) (Took 9) [];
   Ready (Some (Got [])) None (Took 9) []]%Z.

Example session_relayed : str_cli cli0 session = Returned (Cli true false [8; 9] [1; 2; 3] 1)%Z.
Proof. vm_compute. reflexivity. Qed.

(** The server closes while a line is waiting to be sent: the line is lost. *)
Example early_close :
  str_cli cli0 [Ready (Some (Got [])) (Some (Got [1]%Z)) (Took 9) []]
  = Exited (Cli false true [] [] 0).
Proof. vm_compute. reflexivity. Qed.
