(* ===== verification/ListH.v ===== *)
(** * The doubly linked lists of tcp_netlink (client/lib/list.h)

    The memory holds the [next] and [prev] of every [struct list_head]; the
    operations read and write single fields, in the order of the source, so that
    nodes may coincide (an empty ring points at itself, a neighbour may be the
    head). An access to an address that holds no node (NULL, the two poison
    values) is a fault. *)
From S2P Require Import Prelude.

(** ** Memory *)

Notation addr := Z (only parsing).

Record node := Node { next : addr; prev : addr }.
#[export] Instance node_eq_dec : EqDecision node.
Proof. solve_decision. Defined.

Notation heap := (gmap Z node) (only parsing).

Definition LIST_POISON1 : addr := 0x00100100.
Definition LIST_POISON2 : addr := 0x00200200.

Definition get_next (h : heap) (p : addr) : outcome addr := n ← deref (h !! p); Done (next n).
Definition get_prev (h : heap) (p : addr) : outcome addr := n ← deref (h !! p); Done (prev n).
Definition set_next (h : heap) (p q : addr) : outcome heap :=
  n ← deref (h !! p); Done (<[p := Node q (prev n)]> h).
Definition set_prev (h : heap) (p q : addr) : outcome heap :=
  n ← deref (h !! p); Done (<[p := Node (next n) q]> h).

(** ** Operations *)

Definition INIT_LIST_HEAD (h : heap) (ptr : addr) : outcome heap :=
  h ← set_next h ptr ptr; set_prev h ptr ptr.

Definition __list_add (h : heap) (new prv nxt : addr) : outcome heap :=
  h ← set_prev h nxt new;
  h ← set_next h new nxt;
  h ← set_prev h new prv;
  set_next h prv new.

Definition list_add (h : heap) (new head : addr) : outcome heap :=
  n ← get_next h head; __list_add h new head n.

Definition list_add_tail (h : heap) (new head : addr) : outcome heap :=
  p ← get_prev h head; __list_add h new p head.

Definition __list_del (h : heap) (prv nxt : addr) : outcome heap :=
  h ← set_prev h nxt prv; set_next h prv nxt.

Definition unlink (h : heap) (entry : addr) : outcome heap :=
  p ← get_prev h entry; n ← get_next h entry; __list_del h p n.

Definition list_del (h : heap) (entry : addr) : outcome heap :=
  h ← unlink h entry;
  h ← set_next h entry LIST_POISON1;
  set_prev h entry LIST_POISON2.

Definition list_del_init (h : heap) (entry : addr) : outcome heap :=
  h ← unlink h entry; INIT_LIST_HEAD h entry.

Definition list_move (h : heap) (list head : addr) : outcome heap :=
  h ← unlink h list; list_add h list head.

Definition list_move_tail (h : heap) (list head : addr) : outcome heap :=
  h ← unlink h list; list_add_tail h list head.

Definition list_empty (h : heap) (head : addr) : outcome bool :=
  n ← get_next h head; Done (bool_decide (n = head)).

Definition __list_splice (h : heap) (list head : addr) : outcome heap :=
  first ← get_next h list;
  last ← get_prev h list;
  at_ ← get_next h head;
  h ← set_prev h first head;
  h ← set_next h head first;
  h ← set_next h last at_;
  set_prev h at_ last.

Definition list_splice (h : heap) (list head : addr) : outcome heap :=
  e ← list_empty h list;
  if (e : bool) then Done h else __list_splice h list head.

Definition list_splice_init (h : heap) (list head : addr) : outcome heap :=
  e ← list_empty h list;
  if (e : bool) then Done h
  else h ← __list_splice h list head; INIT_LIST_HEAD h list.

(** [list_for_each]: the nodes the body is run on; [fuel] bounds the turns. *)
Fixpoint walk (fuel : nat) (h : heap) (pos head : addr) : outcome (list addr) :=
  match fuel with
  | 0 => Bug
  | S fuel =>
      if decide (pos = head) then Done []
      else n ← get_next h pos; l ← walk fuel h n head; Done (pos :: l)
  end.

Definition list_for_each (fuel : nat) (h : heap) (head : addr) : outcome (list addr) :=
  pos ← get_next h head; walk fuel h pos head.

(** [list_for_each_safe]: the next node is read before the body runs. *)
Fixpoint walk_safe {S} (body : S → heap → addr → outcome (S * heap)) (fuel : nat)
    (s : S) (h : heap) (pos n head : addr) : outcome (S * heap) :=
  match fuel with
  | 0 => Bug
  | Datatypes.S fuel =>
      if decide (pos = head) then Done (s, h)
      else x ← body s h pos;
           let '(s, h) := x in
           n' ← get_next h n;
           walk_safe body fuel s h n n' head
  end.

Definition list_for_each_safe {S} (body : S → heap → addr → outcome (S * heap)) (fuel : nat)
    (s : S) (h : heap) (head : addr) : outcome (S * heap) :=
  pos ← get_next h head;
  n ← get_next h pos;
  walk_safe body fuel s h pos n head.

(** ** Rings *)

(** [b] comes after [a]. *)
Definition linked (h : heap) (a b : addr) : Prop :=
  (∃ n, h !! a = Some n ∧ next n = b) ∧ (∃ n, h !! b = Some n ∧ prev n = a).

(** Consecutive nodes of a path are linked. *)
Fixpoint path (h : heap) (l : list addr) : Prop :=
  match l with
  | a :: (b :: _) as l' => linked h a b ∧ path h l'
  | _ => True
  end.

(** The ring of [head] has the nodes [xs], in order. *)
Definition ring (h : heap) (head : addr) (xs : list addr) : Prop :=
  NoDup (head :: xs) ∧ path h (head :: xs ++ [head]).
