(* ===== verification/ListHSpec.v ===== *)
(** * Rings refine lists (tcp_netlink, client/lib/list.h)

    A heap represents a map from heads to lists when every head is on a ring of
    the nodes of its list and the rings are apart. Every operation acts on the
    represented lists as its comment says. *)
From S2P Require Import Prelude ListH.

(** ** The fields as functions *)

Definition nx (h : gmap Z node) (p : Z) : option Z := next <$> h !! p.
Definition pv (h : gmap Z node) (p : Z) : option Z := prev <$> h !! p.

(** The node [p] is the same in both heaps. *)
Definition same (h h' : gmap Z node) (p : Z) : Prop := nx h' p = nx h p ∧ pv h' p = pv h p.

Lemma linked_fields h a b : linked h a b ↔ nx h a = Some b ∧ pv h b = Some a.
Proof.
  unfold linked, nx, pv. split.
  - intros [(n&->&<-) (n'&->&<-)]. done.
  - intros [H1 H2]. apply fmap_Some in H1 as (n&?&->). apply fmap_Some in H2 as (n'&?&->).
    split; eexists; split; eauto.
Qed.

Lemma get_next_spec h p q : nx h p = Some q → get_next h p = Done q.
Proof. unfold nx, get_next. intros H. apply fmap_Some in H as (n&->&->). done. Qed.
Lemma get_prev_spec h p q : pv h p = Some q → get_prev h p = Done q.
Proof. unfold pv, get_prev. intros H. apply fmap_Some in H as (n&->&->). done. Qed.

(** [h'] is [h] with the fields [next] and [prev] changed by the functions. *)
Definition updated (A : gset Z) (h h' : gmap Z node) (fn fp : Z → option Z → option Z) : Prop :=
  dom h' = A ∧ (∀ x, nx h' x = fn x (nx h x)) ∧ (∀ x, pv h' x = fp x (pv h x)).

(** The change of one field at [p] to [q]. *)
Definition at_ (p q x : Z) (old : option Z) : option Z := if decide (x = p) then Some q else old.
Definition keep (x : Z) (old : option Z) : option Z := old.

Lemma set_next_spec A h p q :
  dom h = A → p ∈ A → ∃ h', set_next h p q = Done h' ∧ updated A h h' (at_ p q) keep.
Proof.
  intros <- [n Hn]%elem_of_dom. unfold set_next. rewrite Hn. simpl. eexists. split; [done|].
  split; [rewrite dom_insert_lookup_L; eauto|].
  unfold nx, pv, at_, keep. split; intros x.
  - destruct (decide _) as [->|]; [by rewrite lookup_insert_eq|by rewrite lookup_insert_ne].
  - destruct (decide (x = p)) as [->|]; [by rewrite lookup_insert_eq, Hn|by rewrite lookup_insert_ne].
Qed.

Lemma set_prev_spec A h p q :
  dom h = A → p ∈ A → ∃ h', set_prev h p q = Done h' ∧ updated A h h' keep (at_ p q).
Proof.
  intros <- [n Hn]%elem_of_dom. unfold set_prev. rewrite Hn. simpl. eexists. split; [done|].
  split; [rewrite dom_insert_lookup_L; eauto|].
  unfold nx, pv, at_, keep. split; intros x.
  - destruct (decide (x = p)) as [->|]; [by rewrite lookup_insert_eq, Hn|by rewrite lookup_insert_ne].
  - destruct (decide _) as [->|]; [by rewrite lookup_insert_eq|by rewrite lookup_insert_ne].
Qed.

(** Run the next assignment. *)
Ltac set_step :=
  match goal with
  | |- context [set_next ?h ?p ?q] =>
      let h' := fresh "h" in let D := fresh "D" in let N := fresh "N" in let P := fresh "P" in
      destruct (set_next_spec _ h p q ltac:(eassumption) ltac:(assumption)) as (h'&->&D&N&P)
  | |- context [set_prev ?h ?p ?q] =>
      let h' := fresh "h" in let D := fresh "D" in let N := fresh "N" in let P := fresh "P" in
      destruct (set_prev_spec _ h p q ltac:(eassumption) ltac:(assumption)) as (h'&->&D&N&P)
  end; simpl.

(** The fields after a sequence of assignments. *)
Ltac set_done :=
  eexists; split; [reflexivity|]; split; [assumption|];
  split; intros x;
  repeat match goal with N : ∀ x, nx ?h x = _ |- context [nx ?h _] => rewrite N end;
  repeat match goal with P : ∀ x, pv ?h x = _ |- context [pv ?h _] => rewrite P end;
  reflexivity.

Section fields.
Context (A : gset Z).

Lemma INIT_LIST_HEAD_spec h p :
  dom h = A → p ∈ A →
  ∃ h', INIT_LIST_HEAD h p = Done h' ∧ updated A h h' (at_ p p) (at_ p p).
Proof. intros HA Hp. unfold INIT_LIST_HEAD. set_step. set_step. set_done. Qed.

Lemma __list_add_spec h new p n :
  dom h = A → new ∈ A → p ∈ A → n ∈ A →
  ∃ h', __list_add h new p n = Done h' ∧
    updated A h h' (λ x o, at_ p new x (at_ new n x o)) (λ x o, at_ new p x (at_ n new x o)).
Proof. intros HA Hnew Hp Hn. unfold __list_add. do 4 set_step. set_done. Qed.

Lemma unlink_spec h e p n :
  dom h = A → p ∈ A → n ∈ A → pv h e = Some p → nx h e = Some n →
  ∃ h', unlink h e = Done h' ∧ updated A h h' (at_ p n) (at_ n p).
Proof.
  intros HA Hp Hn Ep En. unfold unlink.
  rewrite (get_prev_spec h e p Ep), (get_next_spec h e n En). simpl.
  unfold __list_del. do 2 set_step. set_done.
Qed.

Lemma __list_splice_spec h list head first last n :
  dom h = A → first ∈ A → last ∈ A → head ∈ A → n ∈ A →
  nx h list = Some first → pv h list = Some last → nx h head = Some n →
  ∃ h', __list_splice h list head = Done h' ∧
    updated A h h' (λ x o, at_ last n x (at_ head first x o))
                   (λ x o, at_ n last x (at_ first head x o)).
Proof.
  intros HA Hf Hl Hh Hn E1 E2 E3. unfold __list_splice.
  rewrite (get_next_spec h list first E1), (get_prev_spec h list last E2),
    (get_next_spec h head n E3). simpl.
  do 4 set_step. set_done.
Qed.
End fields.

(** ** Paths *)

Lemma path_app h l x r : path h (l ++ x :: r) ↔ path h (l ++ [x]) ∧ path h (x :: r).
Proof.
  induction l as [|a l IH]; [simpl; tauto|].
  destruct l as [|b l]; simpl in *; tauto.
Qed.

Lemma path_linked h l a b r : path h (l ++ a :: b :: r) → linked h a b.
Proof. intros [_ [H _]]%path_app. done. Qed.

Lemma path_glue h l a b r :
  path h (l ++ [a]) → linked h a b → path h (b :: r) → path h (l ++ a :: b :: r).
Proof. intros. apply path_app. done. Qed.

(** A path depends on [next] of all its nodes but the last, and on [prev] of all
    but the first. *)
Lemma path_frame h h' l a :
  path h (l ++ [a]) →
  (∀ x, x ∈ l → nx h' x = nx h x) → (∀ x, x ∈ tail (l ++ [a]) → pv h' x = pv h x) →
  path h' (l ++ [a]).
Proof.
  induction l as [|b l IH]; [done|]. intros H Hn Hp.
  assert (∃ c r, l ++ [a] = c :: r) as (c&r&E).
  { destruct l as [|c l]; [by exists a, []|by exists c, (l ++ [a])]. }
  simpl in *. rewrite E in *. simpl in *. destruct H as [Hl Hr]. split.
  - apply linked_fields. apply linked_fields in Hl as [<- <-].
    split; [apply Hn; by left|apply Hp; by left].
  - apply IH; [done|intros x Hx; apply Hn; by right|intros x Hx; apply Hp; by right].
Qed.

Lemma last_of (a : Z) xs : ∃ l p, a :: xs = l ++ [p].
Proof.
  destruct (exists_last (l := a :: xs)) as (l&p&E); [done|]. eauto.
Qed.

Lemma first_of (xs : list Z) a : ∃ n r, xs ++ [a] = n :: r.
Proof. destruct xs as [|n xs]; simpl; eauto. Qed.

(** The path of a ring that has [e], cut at [e]: [p] is before it, [n] after. *)
Lemma ring_split h head xs e ys :
  ring h head (xs ++ e :: ys) →
  ∃ l p n r, head :: xs = l ++ [p] ∧ ys ++ [head] = n :: r ∧
    pv h e = Some p ∧ nx h e = Some n ∧
    path h (l ++ [p]) ∧ path h (ys ++ [head]).
Proof.
  intros [_ Hp].
  destruct (last_of head xs) as (l&p&El), (first_of ys head) as (n&r&Er).
  exists l, p, n, r. split; [done|]. split; [done|].
  replace (head :: (xs ++ e :: ys) ++ [head]) with ((head :: xs) ++ e :: ys ++ [head]) in Hp
    by (simpl; by rewrite <- app_assoc).
  rewrite El, Er, <- app_assoc in Hp. simpl in Hp.
  pose proof (path_linked _ _ _ _ _ Hp) as Hpe. apply linked_fields in Hpe as [_ Hpe].
  apply path_app in Hp as [Hl (Hp&Hen&Hr)]. apply linked_fields in Hen as [Hen _].
  by rewrite Er.
Qed.

(** The same, between two neighbours: after [xs] comes [ys]. *)
Lemma ring_gap h head xs ys :
  ring h head (xs ++ ys) →
  ∃ l p n r, head :: xs = l ++ [p] ∧ ys ++ [head] = n :: r ∧
    nx h p = Some n ∧ pv h n = Some p ∧
    path h (l ++ [p]) ∧ path h (ys ++ [head]).
Proof.
  intros [_ Hp].
  destruct (last_of head xs) as (l&p&El), (first_of ys head) as (n&r&Er).
  exists l, p, n, r. split; [done|]. split; [done|].
  replace (head :: (xs ++ ys) ++ [head]) with ((head :: xs) ++ ys ++ [head]) in Hp
    by (simpl; by rewrite <- app_assoc).
  rewrite El, Er, <- app_assoc in Hp. simpl in Hp.
  apply path_app in Hp as [Hl [Hpn Hr]]. apply linked_fields in Hpn as [??].
  by rewrite Er.
Qed.

(** The two pieces in a heap where only [next] of [p] and [prev] of [n] differ. *)
Lemma pieces_frame h h' head xs ys l p n r :
  NoDup (head :: xs ++ ys) → head :: xs = l ++ [p] → ys ++ [head] = n :: r →
  path h (l ++ [p]) → path h (ys ++ [head]) →
  (∀ x, x ∈ head :: xs ++ ys → x ≠ p → nx h' x = nx h x) →
  (∀ x, x ∈ head :: xs ++ ys → x ≠ n → pv h' x = pv h x) →
  path h' (l ++ [p]) ∧ path h' (ys ++ [head]).
Proof.
  intros Hnd El Er H1 H2 HN HP.
  rewrite app_comm_cons in Hnd. apply NoDup_app in Hnd as (Hnd1&Hd&Hnd2).
  assert (p ∈ head :: xs) as Hp by (rewrite El; set_solver).
  assert (n ∈ ys ++ [head]) as Hn by (rewrite Er; set_solver).
  assert (∀ x, x ∈ l → x ≠ p) as Hlp.
  { intros x Hx ->. rewrite El in Hnd1. apply NoDup_app in Hnd1 as (_&Hd1&_).
    apply (Hd1 p Hx). set_solver. }
  assert (∀ x, x ∈ xs → x ≠ n) as Hxn.
  { intros x Hx ->. apply elem_of_app in Hn as [Hn|Hn%list_elem_of_singleton].
    - apply (Hd n); [by right|done].
    - subst n. by apply NoDup_cons in Hnd1 as [? _]. }
  assert (NoDup (ys ++ [head])) as Hnd3.
  { apply NoDup_app. split_and!; [done| |apply NoDup_singleton].
    intros x Hx ->%list_elem_of_singleton. apply (Hd head); [by left|done]. }
  assert (∀ x, x ∈ r → x ≠ n) as Hrn.
  { intros x Hx ->. rewrite Er in Hnd3. by apply NoDup_cons in Hnd3 as [? _]. }
  split; apply (path_frame h); try done; intros x Hx.
  - apply HN; [|by apply Hlp]. assert (x ∈ head :: xs) by (rewrite El; set_solver). set_solver.
  - rewrite <- El in Hx. simpl in Hx. apply HP; [set_solver|by apply Hxn].
  - apply HN; [set_solver|]. intros ->. by apply (Hd p).
  - assert (x ∈ ys ++ [head]) as Hx' by (rewrite Er in *; by right).
    rewrite Er in Hx. simpl in Hx. apply HP; [set_solver|by apply Hrn].
Qed.

(** Two pieces of paths, joined to a ring. *)
Lemma ring_join h' head xs ys l p n r :
  NoDup (head :: xs ++ ys) → head :: xs = l ++ [p] → ys ++ [head] = n :: r →
  path h' (l ++ [p]) → nx h' p = Some n → pv h' n = Some p → path h' (ys ++ [head]) →
  ring h' head (xs ++ ys).
Proof.
  intros Hnd El Er H1 Hn Hp H2. split; [done|].
  replace (head :: (xs ++ ys) ++ [head]) with ((head :: xs) ++ ys ++ [head])
    by (simpl; by rewrite <- app_assoc).
  rewrite El, Er, <- app_assoc. rewrite Er in H2. simpl.
  apply path_glue; [done|by apply linked_fields|done].
Qed.

Lemma at_eq p q o : at_ p q p o = Some q.
Proof. unfold at_. by rewrite decide_True. Qed.
Lemma at_ne p q x o : x ≠ p → at_ p q x o = o.
Proof. intros. unfold at_. by rewrite decide_False. Qed.

Lemma ring_unlink A h h' head xs e ys p n :
  ring h head (xs ++ e :: ys) → pv h e = Some p → nx h e = Some n →
  updated A h h' (at_ p n) (at_ n p) → ring h' head (xs ++ ys).
Proof.
  intros Hr Ep En (_&HN&HP).
  destruct (ring_split _ _ _ _ _ Hr) as (l&p'&n'&r&El&Er&Ep'&En'&H1&H2).
  rewrite Ep in Ep'. rewrite En in En'. injection Ep' as <-. injection En' as <-.
  assert (NoDup (head :: xs ++ ys)) as Hnd.
  { destruct Hr as [Hnd _]. rewrite app_comm_cons in Hnd |- *.
    apply NoDup_app in Hnd as (?&Hd&[_ ?]%NoDup_cons).
    apply NoDup_app. split_and!; [done| |done]. intros x Hx Hy. apply (Hd x Hx). by right. }
  destruct (pieces_frame h h' head xs ys l p n r) as [H1' H2']; try done.
  - intros x _ Hx. by rewrite HN, at_ne.
  - intros x _ Hx. by rewrite HP, at_ne.
  - apply (ring_join h' head xs ys l p n r); [done..|by rewrite HN, at_eq|by rewrite HP, at_eq|done].
Qed.

(** Insertion between [xs] and [ys]. *)
Lemma ring_insert A h h' head xs ys new p n :
  ring h head (xs ++ ys) → new ∉ head :: xs ++ ys →
  last (head :: xs) = Some p → list.head (ys ++ [head]) = Some n →
  updated A h h' (λ x o, at_ p new x (at_ new n x o)) (λ x o, at_ new p x (at_ n new x o)) →
  ring h' head (xs ++ new :: ys).
Proof.
  intros Hr Hnew Hp Hn (_&HN&HP).
  destruct (ring_gap _ _ _ _ Hr) as (l&p'&n'&r&El&Er&_&_&H1&H2).
  rewrite El, last_snoc in Hp. injection Hp as ->. rewrite Er in Hn. injection Hn as ->.
  destruct Hr as [Hnd _].
  assert (p ∈ head :: xs) as Hp by (rewrite El; set_solver).
  assert (n ∈ ys ++ [head]) as Hn by (rewrite Er; set_solver).
  assert (new ≠ p ∧ new ≠ n) as [Hnp Hnn] by (split; intros ->; set_solver).
  destruct (pieces_frame h h' head xs ys l p n r) as [H1' H2']; try done.
  - intros x Hx Hxp. rewrite HN, !at_ne; [done|by intros ->|exact Hxp].
  - intros x Hx Hxn. rewrite HP, !at_ne; [done|exact Hxn|by intros ->].
  - split.
    + rewrite app_comm_cons in Hnd, Hnew |- *. apply NoDup_app in Hnd as (?&Hd&?).
      apply NoDup_app. rewrite (NoDup_cons new). split_and!; [done| |set_solver|done].
      intros x Hx [->|Hy]%elem_of_cons; [set_solver|by apply (Hd x)].
    + replace (head :: (xs ++ new :: ys) ++ [head]) with ((head :: xs) ++ new :: ys ++ [head])
        by (simpl; by rewrite <- app_assoc).
      rewrite El, Er, <- app_assoc. rewrite Er in H2'. simpl.
      apply path_glue; [done| |split; [|done]]; apply linked_fields.
      * rewrite HN, HP, !at_eq. done.
      * rewrite HN, HP, (at_ne p) by done. rewrite at_eq, at_ne by done. by rewrite at_eq.
Qed.

Lemma path_tail h a l : path h (a :: l) → path h l.
Proof. destruct l as [|b l]; [done|]. by intros [_ H]. Qed.

(** [xs] taken from the ring of [list] and put at the front of that of [head]. *)
Lemma ring_splice A h h' list head xs ys first last_ n :
  ring h list xs → ring h head ys → (∀ x, x ∈ list :: xs → x ∉ head :: ys) →
  list.head xs = Some first → last xs = Some last_ → list.head (ys ++ [head]) = Some n →
  updated A h h' (λ x o, at_ last_ n x (at_ head first x o))
                 (λ x o, at_ n last_ x (at_ first head x o)) →
  ring h' head (xs ++ ys).
Proof.
  intros [Hnx Hx] Hy Hd Hf Hl Hn (_&HN&HP).
  destruct (ring_gap h head [] ys Hy) as (l0&p0&n'&r&_&Er&_&_&_&H2).
  rewrite Er in Hn. injection Hn as ->. destruct Hy as [Hny _].
  apply last_Some in Hl as [lx ->].
  destruct (lx ++ [last_]) as [|f rx] eqn:Ex; [done|]. injection Hf as ->.
  apply NoDup_cons in Hnx as [_ Hnx].
  assert (path h (lx ++ [last_])) as Hpx.
  { rewrite Ex. apply path_tail in Hx. rewrite <- Ex, <- app_assoc in Hx. simpl in Hx.
    apply path_app in Hx as [Hx _]. by rewrite Ex in Hx. }
  assert (last_ ∈ first :: rx) as Hlast by (rewrite <- Ex; set_solver).
  assert (n ∈ head :: ys) as Hn by (assert (n ∈ ys ++ [head]); [rewrite Er|]; set_solver).
  assert (∀ x, x ∈ first :: rx → x ∉ head :: ys) as Hd' by (intros ? ?; apply Hd; by right).
  assert (path h' (lx ++ [last_])) as Hpx'.
  { apply (path_frame h); [done| |]; intros x Hin.
    - rewrite HN, !at_ne; [done| |].
      + intros ->. apply (Hd' head); [rewrite <- Ex; set_solver|by left].
      + intros ->. rewrite <- Ex in Hnx. apply NoDup_app in Hnx as (_&Hnl&_).
        apply (Hnl last_ Hin). set_solver.
    - rewrite Ex in Hin. simpl in Hin. rewrite HP, !at_ne; [done| |].
      + intros ->. by apply NoDup_cons in Hnx as [? _].
      + intros ->. apply (Hd' n); [by right|done]. }
  destruct (pieces_frame h h' head [] ys [] head n r) as [_ Hpy]; try done.
  { intros x Hin Hne. rewrite HN, !at_ne; [done..|]. intros ->. by apply (Hd' last_). }
  { intros x Hin Hne. rewrite HP, !at_ne; [done| |done]. intros ->. apply (Hd' first); [by left|done]. }
  split.
  - apply NoDup_cons in Hny as [??]. apply NoDup_cons. rewrite elem_of_app. split.
    + intros [?|?]; [|done]. apply (Hd' head); [done|by left].
    + apply NoDup_app. split_and!; [done| |done]. intros x Hin Hin'.
      apply (Hd' x Hin). by right.
  - replace (head :: ((first :: rx) ++ ys) ++ [head])
      with ((head :: lx) ++ last_ :: ys ++ [head]).
    2:{ rewrite <- Ex. simpl. by rewrite <- !app_assoc. }
    rewrite Er. apply path_glue.
    + simpl. rewrite Ex in *. split; [|done]. apply linked_fields.
      rewrite HN, HP. split.
      * rewrite at_ne; [apply at_eq|]. intros ->. apply (Hd' last_); [done|by left].
      * rewrite at_ne; [apply at_eq|]. intros ->. apply (Hd' n); [by left|done].
    + apply linked_fields. by rewrite HN, HP, !at_eq.
    + by rewrite Er in Hpy.
Qed.

Lemma ring_init A h h' p : updated A h h' (at_ p p) (at_ p p) → ring h' p [].
Proof.
  intros (_&HN&HP). split; [apply NoDup_singleton|]. split; [|done].
  apply linked_fields. by rewrite HN, HP, !at_eq.
Qed.

Lemma ring_frame h h' g zs :
  ring h g zs → (∀ x, x ∈ g :: zs → same h h' x) → ring h' g zs.
Proof.
  intros [Hnd Hp] Hs. split; [done|]. rewrite app_comm_cons in Hp |- *.
  apply (path_frame h); [done| |].
  - intros x Hx. by apply Hs.
  - intros x Hx. simpl in Hx. apply Hs. set_solver.
Qed.

(** ** Heaps and maps of lists *)

Record repr (A : gset Z) (h : gmap Z node) (m : gmap Z (list Z)) : Prop := {
  repr_dom : dom h = A;
  repr_ring g zs : m !! g = Some zs → ring h g zs;
  repr_apart g zs g' zs' : m !! g = Some zs → m !! g' = Some zs' → g ≠ g' →
    ∀ x, x ∈ g :: zs → x ∉ g' :: zs' }.

(** On no ring. *)
Definition free (m : gmap Z (list Z)) (p : Z) : Prop :=
  ∀ g zs, m !! g = Some zs → p ∉ g :: zs.

(** A step that only touches nodes of one ring and free nodes, and gives the ring
    a new list of them. *)
Lemma repr_insert A h h' m g zs (T : list Z) :
  repr A h m → dom h' = A → ring h' g zs →
  (∀ x, x ∈ g :: zs → x ∈ T) → (∀ x, x ∉ T → same h h' x) →
  (∀ g' zs', m !! g' = Some zs' → g' ≠ g → ∀ x, x ∈ g' :: zs' → x ∉ T) →
  repr A h' (<[g := zs]> m).
Proof.
  intros Hr HA Hring HT Hs Hd. split; [done| |].
  - intros g' zs'. rewrite lookup_insert_Some. intros [[<- <-]|[Hne Hg']]; [done|].
    apply (ring_frame h); [by apply (repr_ring A h m)|]. intros x Hx. apply Hs.
    by apply (Hd g' zs').
  - intros g1 zs1 g2 zs2. rewrite !lookup_insert_Some.
    intros [[<- <-]|[Hn1 H1]] [[<- <-]|[Hn2 H2]] Hne x Hx Hx'; [done| | |].
    + apply (Hd g2 zs2 H2 ltac:(done) x Hx'). by apply HT.
    + apply (Hd g1 zs1 H1 ltac:(done) x Hx). by apply HT.
    + by apply (repr_apart A h m Hr g1 zs1 g2 zs2 H1 H2 Hne x).
Qed.

Lemma path_alive h l a x : path h (l ++ [a]) → x ∈ l → is_Some (nx h x).
Proof.
  intros Hp (l1&l2&->)%list_elem_of_split. rewrite <- app_assoc in Hp. simpl in Hp.
  apply path_app in Hp as [_ Hp].
  destruct (first_of l2 a) as (n&r&E). rewrite E in Hp. destruct Hp as [Hl _].
  apply linked_fields in Hl as [-> _]. done.
Qed.

Lemma ring_alive h g zs x : ring h g zs → x ∈ g :: zs → x ∈ dom h.
Proof.
  intros [_ Hp] Hx. rewrite app_comm_cons in Hp.
  destruct (path_alive h _ g x Hp Hx) as [y Hy]. unfold nx in Hy.
  apply fmap_Some in Hy as (nd&Hnd&_). apply elem_of_dom. by exists nd.
Qed.

Section steps.
Context (A : gset Z).

Lemma repr_alive h m g zs x : repr A h m → m !! g = Some zs → x ∈ g :: zs → x ∈ A.
Proof.
  intros Hr Hg Hx. rewrite <- (repr_dom A h m Hr).
  by apply (ring_alive h g zs); [apply (repr_ring A h m Hr)|].
Qed.

Lemma unlink_repr h m g xs e ys :
  repr A h m → m !! g = Some (xs ++ e :: ys) →
  ∃ h', unlink h e = Done h' ∧ repr A h' (<[g := xs ++ ys]> m) ∧
    free (<[g := xs ++ ys]> m) e ∧ e ∈ A.
Proof.
  intros Hr Hg. pose proof (repr_ring A h m Hr _ _ Hg) as Hring.
  destruct (ring_split _ _ _ _ _ Hring) as (l&p&n&r&El&Er&Ep&En&_&_).
  assert (p ∈ g :: xs) as Hp by (rewrite El; set_solver).
  assert (n ∈ ys ++ [g]) as Hn by (rewrite Er; set_solver).
  assert (∀ x, x ∈ g :: xs ++ e :: ys → x ∈ A) as HA by (intros x; by apply (repr_alive h m)).
  destruct (unlink_spec A h e p n (repr_dom A h m Hr)) as (h'&E&Hu);
    [apply HA; set_solver|apply HA; set_solver|done|done|].
  exists h'. split; [done|].
  pose proof Hu as (HA'&HN&HP). split; [|split; [|apply HA; set_solver]].
  - apply (repr_insert A h h' m g (xs ++ ys) (g :: xs ++ e :: ys)); try done.
    + by apply (ring_unlink A h h' g xs e ys p n).
    + set_solver.
    + intros x Hx. split; [rewrite HN|rewrite HP]; apply at_ne; intros ->; set_solver.
    + intros g' zs' Hg' Hne x Hx. by apply (repr_apart A h m Hr g' zs' g).
  - intros g' zs'. rewrite lookup_insert_Some. intros [[<- <-]|[Hne Hg']].
    + destruct Hring as [Hnd _]. rewrite app_comm_cons in Hnd |- *.
      apply NoDup_app in Hnd as (_&Hd&[He _]%NoDup_cons). rewrite elem_of_app.
      intros [Hx|Hx]; [|done]. by apply (Hd e Hx); left.
    + intros Hx. apply (repr_apart A h m Hr g' zs' g _ Hg' Hg ltac:(done) e Hx). set_solver.
Qed.

Lemma init_repr h m p :
  repr A h m → free m p → p ∈ A →
  ∃ h', INIT_LIST_HEAD h p = Done h' ∧ repr A h' (<[p := []]> m).
Proof.
  intros Hr Hf Hp. destruct (INIT_LIST_HEAD_spec A h p (repr_dom A h m Hr) Hp) as (h'&E&Hu).
  exists h'. split; [done|]. pose proof Hu as (HA'&HN&HP).
  apply (repr_insert A h h' m p [] [p]); try done.
  - by apply (ring_init A h h').
  - intros x Hx. split; [rewrite HN|rewrite HP]; apply at_ne; set_solver.
  - intros g' zs' Hg' Hne x Hx ->%list_elem_of_singleton. by apply (Hf g' zs').
Qed.

Lemma poison_repr h m p :
  repr A h m → free m p → p ∈ A →
  ∃ h', (h ← set_next h p LIST_POISON1; set_prev h p LIST_POISON2) = Done h' ∧ repr A h' m.
Proof.
  intros Hr Hf Hp. pose proof (repr_dom A h m Hr) as HA. set_step. set_step.
  eexists. split; [done|].
  assert (∀ x, x ≠ p → same h h1 x) as Hs.
  { intros x Hx. split; [rewrite N0, N|rewrite P0, P]; unfold keep; by rewrite ?at_ne. }
  split; [done| |apply (repr_apart A h m Hr)].
  intros g zs Hg. apply (ring_frame h); [by apply (repr_ring A h m)|].
  intros x Hx. apply Hs. intros ->. by apply (Hf g zs).
Qed.

Lemma add_repr h m g xs ys new p n :
  repr A h m → m !! g = Some (xs ++ ys) → free m new → new ∈ A →
  last (g :: xs) = Some p → head (ys ++ [g]) = Some n →
  ∃ h', __list_add h new p n = Done h' ∧ repr A h' (<[g := xs ++ new :: ys]> m).
Proof.
  intros Hr Hg Hf Hnew Hp Hn.
  assert (p ∈ g :: xs) as Hp' by (apply last_Some in Hp as [? ->]; set_solver).
  assert (n ∈ ys ++ [g]) as Hn' by (apply head_Some in Hn as [? ->]; set_solver).
  assert (∀ x, x ∈ g :: xs ++ ys → x ∈ A) as HA by (intros x; by apply (repr_alive h m)).
  destruct (__list_add_spec A h new p n (repr_dom A h m Hr) Hnew) as (h'&E&Hu);
    [apply HA; set_solver|apply HA; set_solver|].
  exists h'. split; [done|]. pose proof Hu as (HA'&HN&HP).
  apply (repr_insert A h h' m g _ (new :: g :: xs ++ ys)); try done.
  - apply (ring_insert A h h' g xs ys new p n); try done;
      [by apply (repr_ring A h m)|by apply Hf].
  - set_solver.
  - intros x Hx. assert (x ≠ new ∧ x ≠ p ∧ x ≠ n) as (?&?&?)
      by (split_and!; intros ->; set_solver).
    split; [rewrite HN|rewrite HP]; by rewrite !at_ne.
  - intros g' zs' Hg' Hne x Hx [->|Hx']%elem_of_cons; [by apply (Hf g' zs')|].
    by apply (repr_apart A h m Hr g' zs' g _ Hg' Hg Hne x).
Qed.

Lemma list_add_repr h m g zs new :
  repr A h m → m !! g = Some zs → free m new → new ∈ A →
  ∃ h', list_add h new g = Done h' ∧ repr A h' (<[g := new :: zs]> m).
Proof.
  intros Hr Hg Hf Hnew. pose proof (repr_ring A h m Hr _ _ Hg) as Hring.
  destruct (ring_gap h g [] zs Hring) as (l&p&n&r&El&Er&Hn&_).
  assert (p = g) as -> by (destruct l as [|? []]; naive_solver).
  unfold list_add. rewrite (get_next_spec h g n Hn). simpl.
  apply (add_repr h m g [] zs new g n); try done. by rewrite Er.
Qed.

Lemma list_add_tail_repr h m g zs new :
  repr A h m → m !! g = Some zs → free m new → new ∈ A →
  ∃ h', list_add_tail h new g = Done h' ∧ repr A h' (<[g := zs ++ [new]]> m).
Proof.
  intros Hr Hg Hf Hnew. rewrite <- (app_nil_r zs) in Hg.
  pose proof (repr_ring A h m Hr _ _ Hg) as Hring.
  destruct (ring_gap h g zs [] Hring) as (l&p&n&r&El&Er&_&Hp&_).
  injection Er as <- <-.
  unfold list_add_tail. rewrite (get_prev_spec h g p Hp). simpl.
  apply (add_repr h m g zs [] new p g); try done. by rewrite El, last_snoc.
Qed.
End steps.

(** ** Reading *)

Lemma list_empty_ring h g zs :
  ring h g zs → list_empty h g = Done (bool_decide (zs = [])).
Proof.
  intros Hr. destruct (ring_gap h g [] zs Hr) as (l&p&n&r&El&Er&Hn&_).
  assert (p = g) as -> by (destruct l as [|? []]; naive_solver).
  unfold list_empty. rewrite (get_next_spec h g n Hn). simpl. f_equal.
  destruct Hr as [[Hg _]%NoDup_cons _].
  destruct zs as [|z zs]; injection Er as <- _; apply bool_decide_ext; [done|].
  split; [intros ->; destruct Hg; by left|done].
Qed.

Lemma walk_path h g zs fuel :
  g ∉ zs → path h (zs ++ [g]) → length zs < fuel →
  ∀ pos, head (zs ++ [g]) = Some pos → walk fuel h pos g = Done zs.
Proof.
  revert fuel. induction zs as [|z zs IH]; intros fuel Hg Hp Hf pos [= <-];
    (destruct fuel as [|fuel]; [simpl in Hf; lia|]); simpl.
  - by rewrite decide_True.
  - rewrite decide_False by (intros ->; set_solver).
    simpl in Hp. destruct (first_of zs g) as (n&r&E).
    assert (nx h z = Some n) as Hn.
    { rewrite E in Hp. destruct Hp as [Hl _]. by apply linked_fields in Hl as [? _]. }
    rewrite (get_next_spec h z n Hn). simpl.
    rewrite (IH fuel); [done|set_solver|by apply path_tail in Hp|simpl in Hf; lia|by rewrite E].
Qed.

(** [list_for_each] meets the nodes of the list, in order, and stops. *)
Lemma list_for_each_ring h g zs fuel :
  ring h g zs → length zs < fuel → list_for_each fuel h g = Done zs.
Proof.
  intros Hr Hf. destruct (ring_gap h g [] zs Hr) as (l&p&n&r&El&Er&Hn&_&_&Hp).
  assert (p = g) as -> by (destruct l as [|? []]; naive_solver).
  unfold list_for_each. rewrite (get_next_spec h g n Hn). simpl.
  destruct Hr as [[Hg _]%NoDup_cons _]. apply walk_path; [done..|by rewrite Er].
Qed.

(** ** Moving a whole list *)

Lemma splice_repr A h m list head xs ys :
  repr A h m → m !! list = Some xs → m !! head = Some ys → list ≠ head → xs ≠ [] →
  ∃ h', __list_splice h list head = Done h' ∧
    repr A h' (<[head := xs ++ ys]> (delete list m)) ∧
    free (<[head := xs ++ ys]> (delete list m)) list.
Proof.
  intros Hr Hl Hh Hne Hxs.
  pose proof (repr_ring A h m Hr _ _ Hl) as Rl. pose proof (repr_ring A h m Hr _ _ Hh) as Rh.
  destruct (ring_gap h list [] xs Rl) as (l1&p1&first&r1&El1&Er1&Hf&_).
  assert (p1 = list) as -> by (destruct l1 as [|? []]; naive_solver).
  rewrite <- (app_nil_r xs) in Rl.
  destruct (ring_gap h list xs [] Rl) as (l2&last_&n2&r2&El2&Er2&_&Hla&_).
  injection Er2 as <- <-. rewrite app_nil_r in Rl.
  destruct (ring_gap h head [] ys Rh) as (l3&p3&n&r3&El3&Er3&Hn&_).
  assert (p3 = head) as -> by (destruct l3 as [|? []]; naive_solver).
  assert (hd_error xs = Some first) as Hfirst.
  { destruct xs; [done|]. by injection Er1 as <- _. }
  assert (last xs = Some last_) as Hlast.
  { destruct l2 as [|? l2]; [by destruct xs|]. injection El2 as <- ->. by rewrite last_snoc. }
  assert (first ∈ xs) as Hf' by (destruct xs; [done|]; injection Hfirst as ->; by left).
  assert (last_ ∈ xs) as Hl' by (apply last_Some in Hlast as [? ->]; set_solver).
  assert (n ∈ head :: ys) as Hn' by (assert (n ∈ ys ++ [head]); [rewrite Er3|]; set_solver).
  assert (∀ x, x ∈ list :: xs → x ∈ A) as HAl by (intros x; by apply (repr_alive A h m)).
  assert (∀ x, x ∈ head :: ys → x ∈ A) as HAh by (intros x; by apply (repr_alive A h m)).
  destruct (__list_splice_spec A h list head first last_ n (repr_dom A h m Hr))
    as (h'&E&Hu); [apply HAl; by right|apply HAl; by right|apply HAh; by left|by apply HAh|done..|].
  exists h'. split; [done|]. pose proof Hu as (HA'&HN&HP).
  assert (∀ x, x ∈ list :: xs → x ∉ head :: ys) as Hd
    by by apply (repr_apart A h m Hr list xs head ys).
  split.
  - apply (repr_insert A h h' (delete list m) head _ (list :: xs ++ head :: ys)); try done.
    + split; [by apply (repr_dom A h m)| |].
      * intros g zs [_ Hg]%lookup_delete_Some. by apply (repr_ring A h m).
      * intros g zs g' zs' [_ Hg]%lookup_delete_Some [_ Hg']%lookup_delete_Some.
        by apply (repr_apart A h m Hr).
    + apply (ring_splice A h h' list head xs ys first last_ n); try done. by rewrite Er3.
    + set_solver.
    + intros x Hx. assert (x ≠ last_ ∧ x ≠ head ∧ x ≠ first ∧ x ≠ n) as (?&?&?&?)
        by (split_and!; intros ->; set_solver).
      split; [rewrite HN|rewrite HP]; by rewrite !at_ne.
    + intros g' zs' [Hgl Hg']%lookup_delete_Some Hne' x Hx Hx'.
      rewrite app_comm_cons in Hx'. apply elem_of_app in Hx' as [Hx'|Hx'].
      * by apply (repr_apart A h m Hr g' zs' list xs Hg' Hl ltac:(done) x).
      * by apply (repr_apart A h m Hr g' zs' head ys Hg' Hh ltac:(done) x).
  - intros g zs. rewrite lookup_insert_Some. intros [[<- <-]|[Hg1 [Hg2 Hg]%lookup_delete_Some]] Hx.
    + rewrite app_comm_cons in Hx.
      assert (list ∉ head :: ys) by (apply Hd; by left).
      destruct Rl as [[Hnl _]%NoDup_cons _]. set_solver.
    + apply (repr_apart A h m Hr list xs g zs Hl Hg ltac:(done) list); [by left|done].
Qed.

(** ** The interface refines lists *)

(** The calls that change a list. *)
Inductive call :=
| Init (p : Z)
| Add (new head : Z)
| AddTail (new head : Z)
| Del (entry : Z)
| DelInit (entry : Z)
| Move (entry head : Z)
| MoveTail (entry head : Z)
| Splice (list head : Z)
| SpliceInit (list head : Z).

Definition run (h : gmap Z node) (c : call) : outcome (gmap Z node) :=
  match c with
  | Init p => INIT_LIST_HEAD h p
  | Add new head => list_add h new head
  | AddTail new head => list_add_tail h new head
  | Del e => list_del h e
  | DelInit e => list_del_init h e
  | Move e head => list_move h e head
  | MoveTail e head => list_move_tail h e head
  | Splice list head => list_splice h list head
  | SpliceInit list head => list_splice_init h list head
  end.

Inductive query :=
| Empty (head : Z)
| Each (head : Z).

(** What the calls do to the lists, as their comments say, and when they may be
    used: a new entry is on no list, an entry that is removed is on one. *)
Inductive lists_step (A : gset Z) (m : gmap Z (list Z)) : call → gmap Z (list Z) → Prop :=
| l_init p : free m p → p ∈ A → lists_step A m (Init p) (<[p := []]> m)
| l_add new g zs : m !! g = Some zs → free m new → new ∈ A →
    lists_step A m (Add new g) (<[g := new :: zs]> m)
| l_add_tail new g zs : m !! g = Some zs → free m new → new ∈ A →
    lists_step A m (AddTail new g) (<[g := zs ++ [new]]> m)
| l_del g xs e ys : m !! g = Some (xs ++ e :: ys) →
    lists_step A m (Del e) (<[g := xs ++ ys]> m)
| l_del_init g xs e ys : m !! g = Some (xs ++ e :: ys) →
    lists_step A m (DelInit e) (<[e := []]> (<[g := xs ++ ys]> m))
| l_move g xs e ys g' zs : m !! g = Some (xs ++ e :: ys) →
    <[g := xs ++ ys]> m !! g' = Some zs →
    lists_step A m (Move e g') (<[g' := e :: zs]> (<[g := xs ++ ys]> m))
| l_move_tail g xs e ys g' zs : m !! g = Some (xs ++ e :: ys) →
    <[g := xs ++ ys]> m !! g' = Some zs →
    lists_step A m (MoveTail e g') (<[g' := zs ++ [e]]> (<[g := xs ++ ys]> m))
| l_splice_empty list g ys : m !! list = Some [] → m !! g = Some ys →
    lists_step A m (Splice list g) m
| l_splice list g xs ys : m !! list = Some xs → m !! g = Some ys → list ≠ g → xs ≠ [] →
    lists_step A m (Splice list g) (<[g := xs ++ ys]> (delete list m))
| l_splice_init list g xs ys : m !! list = Some xs → m !! g = Some ys → list ≠ g →
    lists_step A m (SpliceInit list g) (<[list := []]> (<[g := xs ++ ys]> m)).

Lemma run_refines A h m c m' :
  repr A h m → lists_step A m c m' → ∃ h', run h c = Done h' ∧ repr A h' m'.
Proof.
  intros Hr Hs. destruct Hs as [p Hf Hp|new g zs Hg Hf Hn|new g zs Hg Hf Hn|g xs e ys Hg|g xs e ys Hg
    |g xs e ys g' zs Hg Hg'|g xs e ys g' zs Hg Hg'|l g ys Hl Hg|l g xs ys Hl Hg Hne Hxs|l g xs ys Hl Hg Hne];
    simpl.
  - by apply init_repr.
  - by apply list_add_repr.
  - by apply list_add_tail_repr.
  - destruct (unlink_repr A h m g xs e ys Hr Hg) as (h1&E&Hr1&Hf&He).
    unfold list_del. rewrite E. simpl. by apply poison_repr.
  - destruct (unlink_repr A h m g xs e ys Hr Hg) as (h1&E&Hr1&Hf&He).
    unfold list_del_init. rewrite E. simpl. by apply init_repr.
  - destruct (unlink_repr A h m g xs e ys Hr Hg) as (h1&E&Hr1&Hf&He).
    unfold list_move. rewrite E. simpl. by apply list_add_repr.
  - destruct (unlink_repr A h m g xs e ys Hr Hg) as (h1&E&Hr1&Hf&He).
    unfold list_move_tail. rewrite E. simpl. by apply list_add_tail_repr.
  - unfold list_splice. rewrite (list_empty_ring h l [] (repr_ring A h m Hr _ _ Hl)). by exists h.
  - unfold list_splice. rewrite (list_empty_ring h l xs (repr_ring A h m Hr _ _ Hl)).
    rewrite bool_decide_eq_false_2 by done. simpl.
    destruct (splice_repr A h m l g xs ys Hr Hl Hg Hne Hxs) as (h1&E&Hr1&_). by exists h1.
  - unfold list_splice_init. rewrite (list_empty_ring h l xs (repr_ring A h m Hr _ _ Hl)). simpl.
    destruct xs as [|x xs].
    + exists h. split; [done|]. simpl. by rewrite (insert_id m g), (insert_id m l).
    + rewrite bool_decide_eq_false_2 by done.
      destruct (splice_repr A h m l g (x :: xs) ys Hr Hl Hg Hne ltac:(done)) as (h1&E&Hr1&Hf).
      rewrite E. simpl.
      destruct (init_repr A h1 _ l Hr1 Hf) as (h2&E2&Hr2).
      { apply (repr_alive A h m l _ l Hr Hl). by left. }
      exists h2. split; [done|].
      by rewrite <- delete_insert_ne, insert_delete_eq in Hr2.
Qed.

Inductive lists_run (A : gset Z) : gmap Z (list Z) → list call → gmap Z (list Z) → Prop :=
| run_nil m : lists_run A m [] m
| run_cons m c m1 cs m2 :
    lists_step A m c m1 → lists_run A m1 cs m2 → lists_run A m (c :: cs) m2.

Lemma run_all_refines A m cs m' :
  lists_run A m cs m' → ∀ h, repr A h m → ∃ h', ofold run h cs = Done h' ∧ repr A h' m'.
Proof.
  induction 1 as [m|m c m1 cs m2 Hs _ IH]; intros h Hr; [by exists h|].
  destruct (run_refines A h m c m1 Hr Hs) as (h1&E&Hr1). simpl. rewrite E. simpl. by apply IH.
Qed.

(** Memory in which no list has been set up. *)
Lemma repr_empty h : repr (dom h) h ∅.
Proof. by split. Qed.

(** C27. The lists of list.h are lists: from any heap that represents a map of lists,
    a sequence of calls that obeys the rules of the interface runs without a
    fault, and leaves a heap that represents what the sequence does to the lists.
    There, [list_empty] answers whether a list is empty, and [list_for_each] meets
    its entries in order and stops. *)
Theorem list_refines A h m cs m' :
  repr A h m → lists_run A m cs m' →
  ∃ h', ofold run h cs = Done h' ∧ repr A h' m' ∧
    ∀ g zs, m' !! g = Some zs →
      list_empty h' g = Done (bool_decide (zs = [])) ∧
      ∀ fuel, length zs < fuel → list_for_each fuel h' g = Done zs.
Proof.
  intros Hr Hs. destruct (run_all_refines A m cs m' Hs h Hr) as (h'&E&Hr').
  exists h'. split; [done|]. split; [done|]. intros g zs Hg.
  pose proof (repr_ring A h' m' Hr' g zs Hg). split; [by apply list_empty_ring|].
  intros. by apply list_for_each_ring.
Qed.

(** Two heads, 1 and 2, and two entries, 3 and 4, in memory that is all zeros. *)
Definition zeroed : gmap Z node := list_to_map ((λ p, (p, Node 0 0)) <$> [1; 2; 3; 4]%Z).

Ltac is_free := let g := fresh in let zs := fresh in let H := fresh in
  intros g zs H; repeat (apply lookup_insert_Some in H as [[<- <-]|[_ H]]; [set_solver|]);
  done.
Ltac is_node := apply elem_of_dom; vm_compute; by eexists.

Lemma list_refines_witness :
  ∃ h', ofold run zeroed [Init 1; Init 2; Add 3 1; AddTail 4 1; Move 4 2; SpliceInit 1 2]%Z = Done h'
    ∧ list_for_each 3 h' 2%Z = Done [3; 4]%Z ∧ list_empty h' 1%Z = Done true.
Proof.
  destruct (list_refines (dom zeroed) zeroed ∅
    [Init 1; Init 2; Add 3 1; AddTail 4 1; Move 4 2; SpliceInit 1 2]%Z
    (<[1 := []]> (<[2 := [3; 4]]> (<[2 := [4]]> (<[1 := [3]]> (<[1 := [3; 4]]> (<[1 := [3]]>
      (<[2 := []]> (<[1 := []]> ∅))))))))%Z) as (h'&E&_&H).
  - apply repr_empty.
  - apply (run_cons _ _ _ (<[1 := []]> ∅)%Z); [apply l_init; [is_free|is_node]|].
    eapply run_cons; [apply l_init; [is_free|is_node]|].
    eapply run_cons; [apply (l_add _ _ 3%Z 1%Z []); [done|is_free|is_node]|].
    eapply run_cons; [apply (l_add_tail _ _ 4%Z 1%Z [3%Z]); [done|is_free|is_node]|].
    eapply run_cons; [apply (l_move _ _ 1%Z [3%Z] 4%Z [] 2%Z []); done|].
    eapply run_cons; [apply (l_splice_init _ _ 1%Z 2%Z [3%Z] [4%Z]); done|].
    apply run_nil.
  - exists h'. split; [exact E|].
    destruct (H 2%Z [3; 4]%Z) as [_ H2]; [reflexivity|].
    destruct (H 1%Z []) as [H1 _]; [reflexivity|].
    split; [apply H2; simpl; lia|exact H1].
Defined.

(** ** Removing while walking, and removing twice *)

Definition del_body (seen : list Z) (h : gmap Z node) (pos : Z) : outcome (list Z * gmap Z node) :=
  h ← list_del h pos; Done (seen ++ [pos], h).

Lemma ring_next h g zs : ring h g zs → nx h g = head (zs ++ [g]).
Proof.
  intros Hr. destruct (ring_gap h g [] zs Hr) as (l&p&n&r&El&Er&Hn&_).
  assert (p = g) as -> by (destruct l as [|? []]; naive_solver). by rewrite Er.
Qed.

Lemma ring_next_first h g z zs : ring h g (z :: zs) → nx h z = head (zs ++ [g]).
Proof.
  intros Hr. destruct (ring_split h g [] z zs Hr) as (l&p&n&r&_&Er&_&Hn&_). by rewrite Er.
Qed.

(** The loop that frees every entry of a list: [list_for_each_safe] with [list_del]
    meets all of them, in order, and leaves the list empty. *)
Lemma drain_spec A fuel h m g zs :
  repr A h m → m !! g = Some zs → length zs < fuel →
  ∃ h', list_for_each_safe del_body fuel [] h g = Done (zs, h') ∧ repr A h' (<[g := []]> m).
Proof.
  intros Hr Hg Hf. unfold list_for_each_safe.
  assert (∀ zs h m seen fuel pos n, repr A h m → m !! g = Some zs → length zs < fuel →
    nx h g = Some pos → nx h pos = Some n →
    ∃ h', walk_safe del_body fuel seen h pos n g = Done (seen ++ zs, h') ∧
      repr A h' (<[g := []]> m)) as Hloop.
  { clear. induction zs as [|z zs IH]; intros h m seen fuel pos n Hr Hg Hf Hpos Hn;
      (destruct fuel as [|fuel]; [simpl in Hf; lia|]);
      pose proof (repr_ring A h m Hr _ _ Hg) as Hring; rewrite (ring_next h g _ Hring) in Hpos;
      injection Hpos as <-; simpl.
    - rewrite decide_True by done. exists h. by rewrite app_nil_r, insert_id.
    - rewrite decide_False by (intros ->; destruct Hring as [[Hz _]%NoDup_cons _]; set_solver).
      rewrite (ring_next_first h g z zs Hring) in Hn.
      destruct (run_refines A h m (Del z) (<[g := zs]> m) Hr) as (h1&E&Hr1);
        [by apply (l_del A m g [] z zs)|].
      change (list_del h z = Done h1) in E.
      assert (del_body seen h z = Done (seen ++ [z], h1)) as -> by (unfold del_body; by rewrite E).
      simpl.
      assert (<[g := zs]> m !! g = Some zs) as Hg1 by apply lookup_insert_eq.
      pose proof (repr_ring A h1 _ Hr1 _ _ Hg1) as Hring1.
      assert (∃ n', nx h1 n = Some n') as [n' Hn'].
      { destruct zs as [|z' zs]; simpl in Hn; injection Hn as <-.
        - rewrite (ring_next h1 g [] Hring1). by eexists.
        - rewrite (ring_next_first h1 g z' zs Hring1). destruct (zs ++ [g]) eqn:E'; [|by eexists].
          by destruct zs. }
      rewrite (get_next_spec h1 n n' Hn'). simpl.
      destruct (IH h1 (<[g := zs]> m) (seen ++ [z]) fuel n n' Hr1 Hg1) as (h2&E2&Hr2);
        [simpl in Hf; lia|by rewrite (ring_next h1 g zs Hring1)|done|].
      exists h2. rewrite E2, <- app_assoc. by rewrite insert_insert_eq in Hr2. }
  pose proof (repr_ring A h m Hr _ _ Hg) as Hring.
  assert (∃ pos, nx h g = Some pos ∧ ∃ n, nx h pos = Some n) as (pos&Hpos&n&Hn).
  { rewrite (ring_next h g zs Hring). destruct zs as [|z zs].
    - exists g. split; [done|]. by rewrite (ring_next h g [] Hring); eexists.
    - exists z. split; [done|]. rewrite (ring_next_first h g z zs Hring).
      destruct (first_of zs g) as (n&r&->). by eexists. }
  rewrite (get_next_spec h g pos Hpos). simpl. rewrite (get_next_spec h pos n Hn). simpl.
  by apply (Hloop zs h m [] fuel pos n).
Qed.

(** An entry cannot be removed twice: the poison left in it faults. *)
Lemma list_del_poisons A h m g xs e ys :
  repr A h m → m !! g = Some (xs ++ e :: ys) →
  ∃ h', list_del h e = Done h' ∧ dom h' = A ∧
    nx h' e = Some LIST_POISON1 ∧ pv h' e = Some LIST_POISON2.
Proof.
  intros Hr Hg. destruct (unlink_repr A h m g xs e ys Hr Hg) as (h1&E&Hr1&_&He).
  unfold list_del. rewrite E. simpl.
  pose proof (repr_dom A h1 _ Hr1) as HA. set_step. set_step.
  eexists. split; [done|]. split; [done|].
  rewrite N0, P0. unfold keep. by rewrite N, !at_eq.
Qed.

Lemma list_del_twice A h m g xs e ys :
  repr A h m → m !! g = Some (xs ++ e :: ys) → LIST_POISON1 ∉ A →
  (h ← list_del h e; list_del h e) = Oops.
Proof.
  intros Hr Hg HP. destruct (list_del_poisons A h m g xs e ys Hr Hg) as (h1&->&HA&En&Ep).
  simpl. unfold list_del, unlink. rewrite (get_prev_spec h1 e _ Ep), (get_next_spec h1 e _ En). simpl.
  unfold __list_del, set_prev. destruct (h1 !! LIST_POISON1) eqn:El; [|done].
  destruct HP. rewrite <- HA. apply elem_of_dom. by eexists.
Qed.
