(* ===== verification/Netlink.v ===== *)
(** * The netlink samples (tcp_netlink)

    [Receiver]: receive/kernel/lx_kernel.c, which answers a ping of a user program
    and sends it a message every ten seconds. [Sender]: send/kernel/send_kernel.c.
    [Client]: receive/client/lib/lx_netlink.c (send/server has a copy of it that
    pings with another type) and [ping_pong_kernel] of client/src/main.c.

    What the kernel's calls answer is an argument of each step: whether
    nlmsg_new() finds memory and whether nlmsg_unicast() delivers. *)
From S2P Require Import Prelude.

Definition PING_PONG_TYPE : Z := 0x10 + 3.
Definition MD5_TYPE : Z := 0x10 + 4.
Definition NLMSG_DONE : Z := 3.

(** "get your pid", and the message of the timer, without their NUL, as
    [strncpy] with [strlen] copies them. *)
Definition get_your_pid : list Z :=
  [103; 101; 116; 32; 121; 111; 117; 114; 32; 112; 105; 100]%Z.
Definition every_10s : list Z :=
  [115; 101; 110; 100; 32; 121; 111; 117; 114; 32; 109; 101; 115; 115; 97; 103; 101; 32;
   101; 118; 101; 114; 121; 32; 49; 48; 115; 46]%Z.

Inductive sock := NoSock | LiveSock | ReleasedSock.

(** The module: [nl_sk] and [pid], whether the timer is armed, whether the code is
    in memory, and the messages delivered, with the process they went to. *)
Record kernel := Kernel {
  nl_sk : sock;
  pid : Z;
  timer : bool;
  code : bool;
  outbox : list (Z * list Z) }.

Definition kernel0 : kernel := Kernel NoSock 1 false false [].

(** nlmsg_unicast() on a socket that is not there faults. *)
Definition nlmsg_unicast (k : kernel) (to : Z) (msg : list Z) (delivered : bool) : outcome kernel :=
  match nl_sk k with
  | LiveSock =>
      Done (Kernel (nl_sk k) (pid k) (timer k) (code k)
              (if delivered then outbox k ++ [(to, msg)] else outbox k))
  | _ => Oops
  end.

Definition set_timer (b : bool) (k : kernel) : kernel := Kernel (nl_sk k) (pid k) b (code k) (outbox k).
Definition set_pid (p : Z) (k : kernel) : kernel := Kernel (nl_sk k) p (timer k) (code k) (outbox k).
Definition set_sock (s : sock) (k : kernel) : kernel := Kernel s (pid k) (timer k) (code k) (outbox k).
Definition set_code (b : bool) (k : kernel) : kernel := Kernel (nl_sk k) (pid k) (timer k) b (outbox k).

(** ** receive/kernel *)

Module Receiver.

Definition send_message (k : kernel) (allocated delivered : bool) : outcome kernel :=
  if (pid k =? 1)%Z then Done (set_timer true k)
  else if allocated
       then k ← nlmsg_unicast k (pid k) every_10s delivered; Done (set_timer true k)
       else Done k.

Definition nl_data_ready (k : kernel) (type nlmsg_pid : Z) (allocated delivered : bool)
    : outcome kernel :=
  if decide (type ≠ PING_PONG_TYPE) then Done k
  else let k := set_pid (s32 nlmsg_pid) k in
       if allocated then nlmsg_unicast k (pid k) get_your_pid delivered else Done k.

(** [netlink_init], with whether the socket could be created. *)
Definition netlink_init (k : kernel) (created : bool) : Z * kernel :=
  if created then (0%Z, set_sock LiveSock k) else ((-1)%Z, set_sock NoSock k).

Definition my_module_init (k : kernel) (created : bool) : Z * kernel :=
  let '(res, k) := netlink_init k created in (res, set_timer true k).

(** [insmod]: the module's data is fresh, and a module whose init fails is
    removed from memory. *)
Definition insmod (k : kernel) (created : bool) : kernel :=
  let '(res, k) := my_module_init (Kernel NoSock 1 (timer k) true (outbox k)) created in
  if (res =? 0)%Z then k else set_code false k.

(** The two calls of [my_module_exit]; the timer may fire between them. *)
Definition exit_sock (k : kernel) : outcome kernel :=
  match nl_sk k with LiveSock => Done (set_sock ReleasedSock k) | _ => Oops end.
Definition exit_timer (k : kernel) : kernel := set_code false (set_timer false k).
Definition my_module_exit (k : kernel) : outcome kernel :=
  k ← exit_sock k; Done (exit_timer k).

Inductive event :=
| Insmod (created : bool)
| Message (type nlmsg_pid : Z) (allocated delivered : bool)
| Tick (allocated delivered : bool)
| ExitSock
| ExitTimer.

(** The timer calls the function even when its module is gone: a fault. *)
Definition nl_step (k : kernel) (e : event) : outcome kernel :=
  match e with
  | Insmod created => Done (if code k then k else insmod k created)
  | Message t p a d =>
      match nl_sk k with
      | LiveSock => nl_data_ready k t p a d
      | _ => Done k
      end
  | Tick a d =>
      if timer k then if code k then send_message (set_timer false k) a d else Oops else Done k
  | ExitSock => if code k then exit_sock k else Done k
  | ExitTimer => match nl_sk k with ReleasedSock => Done (exit_timer k) | _ => Done k end
  end.

End Receiver.

(** ** send/kernel *)

Module Sender.

(** A failed allocation is reported, and the NULL pointer is used. *)
Definition send_nl_data_ready (k : kernel) (type nlmsg_pid : Z) (allocated delivered : bool)
    : outcome kernel :=
  if decide (type = PING_PONG_TYPE) then
    let k := set_pid (s32 nlmsg_pid) k in
    if allocated then nlmsg_unicast k (pid k) get_your_pid delivered else Oops
  else Done k.

End Sender.

(** ** The user programs *)

Module Client.

(** The types the two programs ping with. *)
Definition MY_MSG_TYPE : Z := 0x10 + 2.
Definition server_type : Z := MD5_TYPE.

Inductive callback := ping_cb | data_cb.

(** [nls]: whether the socket is still allocated. *)
Record client := Client {
  nls : bool;
  insmod_flag : Z;
  cb : callback;
  buffer_libnl_libevent : list Z }.

Definition client0 : client := Client true 0 ping_cb (replicate 64 0%Z).

(** A message as it lies in memory: its type, and the bytes from the payload on. *)
Definition message : Type := Z * list Z.

(** The C string at the start of a piece of memory, if it ends there. *)
Fixpoint c_str (mem : list Z) : option (list Z) :=
  match mem with
  | [] => None
  | c :: mem => if decide (c = 0%Z) then Some [] else s ← c_str mem; Some (c :: s)
  end.

Definition ping_from_kernel (c : client) (msg : message) : outcome client :=
  if decide (Z.land (fst msg) 0xff ≠ NLMSG_DONE) then Done c
  else s ← deref (c_str (snd msg));
       Done (Client (nls c) (if decide (s = get_your_pid) then 1 else 0) (cb c)
               (buffer_libnl_libevent c)).

(** [strcpy] into the 64 bytes. *)
Definition data_from_kernel (c : client) (msg : message) : outcome client :=
  if decide (Z.land (fst msg) 0xff ≠ NLMSG_DONE) then Done c
  else s ← deref (c_str (snd msg));
       if decide (S (length s) ≤ length (buffer_libnl_libevent c))
       then Done (Client (nls c) (insmod_flag c) (cb c)
                    (s ++ 0%Z :: drop (S (length s)) (buffer_libnl_libevent c)))
       else Oops.

Definition callback_of (c : client) : client → message → outcome client :=
  match cb c with ping_cb => ping_from_kernel | data_cb => data_from_kernel end.

Definition EXIT_FAILURE : Z := 1.

(** [nl_close] and [nl_socket_free]; on a freed socket, and likewise any other
    call, a fault. *)
Definition free_netlink_resource (c : client) : outcome client :=
  if nls c then Done (Client false (insmod_flag c) (cb c) (buffer_libnl_libevent c)) else Oops.

(** [ret < 0]: the socket is closed and freed, and the caller is told. *)
Definition send_to_kernel (c : client) (ret : Z) : outcome (Z * client) :=
  if nls c then
    if (ret <? 0)%Z then c ← free_netlink_resource c; Done (EXIT_FAILURE, c) else Done (ret, c)
  else Oops.

(** What nl_recvmsgs_default() does: fails, or gives the messages that have come
    to the callback. *)
Inductive receipt :=
| RecvFails
| Messages (ms : list message).

Definition rece_from_kernel (c : client) (r : receipt) : outcome (Z * client) :=
  if nls c then
    match r with
    | RecvFails => c ← free_netlink_resource c; Done (EXIT_FAILURE, c)
    | Messages ms => c ← ofold (callback_of c) c ms; Done (0%Z, c)
    end
  else Oops.

(** One ping: what nl_send_simple() returns, and what is received; [None]: nothing
    ever comes, and the receive does not return. *)
Record ping := Ping { sent : Z; got : option receipt }.

Inductive verdict := Answer (res : Z) | Waits.

(** [check_netlink_status] with [n] attempts left; [Answer 1] at the end. *)
Fixpoint check_loop (n : nat) (c : client) (atts : list ping) : outcome (verdict * client) :=
  match n, atts with
  | S n, a :: atts =>
      x ← send_to_kernel c (sent a);
      let c := snd x in
      if nls c then
        match got a with
        | None => Done (Waits, c)
        | Some r =>
            y ← rece_from_kernel c r;
            let c := snd y in
            if (insmod_flag c =? 1)%Z
            then if nls c
                 then Done (Answer 0, Client (nls c) (insmod_flag c) data_cb (buffer_libnl_libevent c))
                 else Oops
            else check_loop n c atts
        end
      else Oops
  | _, _ => Done (Answer 1, c)
  end.

Definition check_netlink_status (c : client) (atts : list ping) : outcome (verdict * client) :=
  check_loop 3 c atts.

(** [ping_pong_kernel], once the socket is connected. *)
Definition ping_pong_kernel (c : client) (atts : list ping) : outcome (verdict * client) :=
  x ← check_netlink_status c atts;
  match fst x with
  | Answer r =>
      if (r =? 0)%Z then Done x else c ← free_netlink_resource (snd x); Done (fst x, c)
  | Waits => Done x
  end.

End Client.
