(* ===== verification/NetlinkSpec.v ===== *)
(** * What the netlink samples do (tcp_netlink)

    The receiving module is sound when loading succeeds and unloading is not
    disturbed, and faults otherwise. The user programs ping with types the modules
    do not answer. *)
From S2P Require Import Prelude Netlink.

(** ** The module *)

Module ReceiverSpec.
Import Receiver.

(** Events in an order in which nothing goes wrong: loading succeeds, and no timer
    fires inside [my_module_exit]. *)
Inductive calm : list event → Prop :=
| calm_nil : calm []
| calm_insmod es : calm es → calm (Insmod true :: es)
| calm_message t p a d es : calm es → calm (Message t p a d :: es)
| calm_tick a d es : calm es → calm (Tick a d :: es)
| calm_exit es : calm es → calm (ExitSock :: ExitTimer :: es).

(** A timer whose message could not be allocated. *)
Definition lost_tick (e : event) : bool := match e with Tick false _ => true | _ => false end.

(** In memory with its socket, and its timer unless a tick was lost; or gone with
    its timer. *)
Record kernel_ok (lost : bool) (k : kernel) : Prop := {
  k_loaded : code k = true → nl_sk k = LiveSock;
  k_gone : code k = false → nl_sk k ≠ LiveSock ∧ timer k = false;
  k_timer : lost = false → code k = true → timer k = true }.

Lemma nl_data_ready_ok k t p a d :
  nl_sk k = LiveSock →
  ∃ k', nl_data_ready k t p a d = Done k' ∧ nl_sk k' = LiveSock ∧ code k' = code k ∧ timer k' = timer k.
Proof.
  intros H. unfold nl_data_ready. destruct (decide _); [by exists k|].
  destruct a; [|by eexists]. unfold nlmsg_unicast. simpl. rewrite H. by eexists.
Qed.

Lemma send_message_ok k a d :
  nl_sk k = LiveSock →
  ∃ k', send_message k a d = Done k' ∧ nl_sk k' = LiveSock ∧ code k' = code k ∧
    (a = true → timer k' = true).
Proof.
  intros H. unfold send_message. destruct (pid k =? 1)%Z; [by eexists|].
  destruct a; [|by eexists]. unfold nlmsg_unicast. rewrite H. by eexists.
Qed.

Lemma calm_run es : calm es → ∀ lost k, kernel_ok lost k →
  ∃ k', ofold nl_step k es = Done k' ∧ kernel_ok (lost || existsb lost_tick es) k'.
Proof.
  induction 1 as [|es _ IH|t p a d es _ IH|a d es _ IH|es _ IH]; intros lost k [Hc Hn Ht]; simpl.
  - exists k. by rewrite orb_false_r.
  - apply IH. destruct (code k) eqn:E; by split; rewrite ?E.
  - destruct (nl_sk k) eqn:Es; [apply IH; split; by rewrite ?Es| |apply IH; split; by rewrite ?Es].
    destruct (nl_data_ready_ok k t p a d Es) as (k1&->&H1&H2&H3). simpl. apply IH.
    split; rewrite ?H1, ?H2, ?H3; [done| |done]. intros Hf. by destruct (Hn Hf).
  - rewrite orb_assoc. destruct (timer k) eqn:Et.
    + assert (code k = true) as Ec by (destruct (code k); [done|]; by destruct Hn).
      rewrite Ec. destruct (send_message_ok (set_timer false k) a d) as (k1&->&H1&H2&H3); [by apply Hc|].
      simpl. simpl in H2. apply IH. split; rewrite ?H1, ?H2; [done|congruence|].
      intros [_ Hl]%orb_false_iff _. apply H3. by destruct a.
    + apply IH. split; rewrite ?Et; [done|done|]. intros [Hl _]%orb_false_iff. by apply Ht.
  - destruct (code k) eqn:Ec; simpl.
    + unfold exit_sock. rewrite Hc by done. simpl. apply IH. by split.
    + destruct (Hn eq_refl) as [Hs Ht']. destruct (nl_sk k) eqn:Es; [|done|]; apply IH.
      * split; rewrite ?Es, ?Ec; [done|done|]. intros _. done.
      * by split; simpl; rewrite ?Es.
Qed.



(** A module whose socket cannot be created leaves its timer behind. *)
Example failed_load_faults : ofold nl_step kernel0 [Insmod false; Tick true true] = Oops.
Proof. reflexivity. Qed.

(** The timer uses the socket that the exit has released. *)
Example exit_race_faults :
  ofold nl_step kernel0 [Insmod true; Message PING_PONG_TYPE 7 true true; ExitSock; Tick true true]
  = Oops.
Proof. reflexivity. Qed.

(** After one tick without memory there is no further message of the timer. *)
Lemma lost_tick_stops k d es :
  timer k = true → code k = true → pid k ≠ 1%Z →
  Forall (λ e, match e with Tick _ _ => True | _ => False end) es →
  ofold nl_step k (Tick false d :: es) = Done (set_timer false k).
Proof.
  intros Ht Hc Hp Hes. simpl. rewrite Ht, Hc. unfold send_message. simpl.
  rewrite (proj2 (Z.eqb_neq _ _) Hp). simpl.
  induction Hes as [|e es He _ IH]; [done|]. destruct e; try done.
Qed.

End ReceiverSpec.

(** ** The handshake *)

Module HandshakeSpec.
Import Client.

(** The two modules' handlers, for what they have in common. *)
Definition answers (handler : kernel → Z → Z → bool → bool → outcome kernel) : Prop :=
  ∀ k t p a d,
    (t ≠ PING_PONG_TYPE → handler k t p a d = Done k) ∧
    (nl_sk k = LiveSock → handler k PING_PONG_TYPE p true true
       = Done (Kernel LiveSock (s32 p) (timer k) (code k) (outbox k ++ [(s32 p, get_your_pid)]))).

Lemma Receiver_answers : answers Receiver.nl_data_ready.
Proof.
  intros k t p a d. unfold Receiver.nl_data_ready. split; intros H.
  - by rewrite decide_True.
  - simpl. unfold nlmsg_unicast. simpl. by rewrite H.
Qed.

Lemma Sender_answers : answers Sender.send_nl_data_ready.
Proof.
  intros k t p a d. unfold Sender.send_nl_data_ready. split; intros H.
  - by rewrite decide_False.
  - simpl. unfold nlmsg_unicast. simpl. by rewrite H.
Qed.

Lemma shipped_types : MY_MSG_TYPE ≠ PING_PONG_TYPE ∧ server_type ≠ PING_PONG_TYPE.
Proof. by split. Qed.

(** As long as only the shipped programs ping it, the module knows nobody. *)
Lemma unanswered es : ∀ k,
  Forall (λ e, match e with Receiver.Message t _ _ _ => t = MY_MSG_TYPE ∨ t = server_type | _ => True end) es →
  pid k = 1%Z → outbox k = [] →
  ∀ k', ofold Receiver.nl_step k es = Done k' → pid k' = 1%Z ∧ outbox k' = [].
Proof.
  induction es as [|e es IH]; intros k Hes Hp Ho k' E; [by injection E as <-|].
  apply Forall_cons in Hes as [He Hes]. simpl in E.
  destruct (Receiver.nl_step k e) as [k1| |] eqn:E1; try discriminate E.
  apply (IH k1 Hes); [| |done]; destruct e as [c|t p a d|a d| |]; simpl in E1.
  1,6: destruct (code k), c; by injection E1 as <-.
  1,5: destruct (nl_sk k); try (by injection E1 as <-);
       rewrite (proj1 (Receiver_answers k t p a d)) in E1;
         [by injection E1 as <-|destruct He as [-> | ->]; apply shipped_types].
  1,4: destruct (timer k), (code k); try (by injection E1 as <-); try discriminate E1;
       unfold Receiver.send_message in E1; simpl in E1; rewrite Hp in E1; by injection E1 as <-.
  1,3: destruct (code k); [unfold Receiver.exit_sock in E1; destruct (nl_sk k)|]; by simplify_eq.
  1,2: destruct (nl_sk k); by injection E1 as <-.
Qed.

(** The bytes after a message decide whether it is understood: it carries no NUL. *)
Lemma c_str_app s after :
  Forall (λ c, c ≠ 0%Z) s → c_str (s ++ after) = (t ← c_str after; Some (s ++ t)).
Proof.
  induction 1 as [|c s Hc _ IH]; simpl; [by destruct (c_str after)|].
  rewrite decide_False by done. rewrite IH. by destruct (c_str after).
Qed.

Lemma ping_from_kernel_answer c after t :
  c_str after = Some t →
  ping_from_kernel c (NLMSG_DONE, get_your_pid ++ after)
  = Done (Client (nls c) (if decide (t = []) then 1 else 0) (cb c) (buffer_libnl_libevent c))%Z.
Proof.
  intros Ht. unfold ping_from_kernel. rewrite decide_False by (intros H; by apply H).
  cbn [snd]. rewrite c_str_app by (repeat constructor; discriminate). rewrite Ht.
  cbn [mbind option_bind deref outcome_bind]. f_equal. f_equal.
  apply decide_ext. split; [|intros ->; by rewrite app_nil_r].
  intros H. apply (app_inv_head get_your_pid). by rewrite H, app_nil_r.
Qed.

#[local] Opaque get_your_pid.

Lemma send_to_kernel_ok c n : nls c = true → (0 ≤ n)%Z → send_to_kernel c n = Done (n, c).
Proof. intros Hn H0. unfold send_to_kernel. by rewrite Hn, (proj2 (Z.ltb_ge _ _) H0). Qed.

(** Whoever pings the module among ticks of its timer, loads and unloads: the
    programs of the repository, that is. *)
Definition shipped (e : Receiver.event) : Prop :=
  match e with Receiver.Message t _ _ _ => t = MY_MSG_TYPE ∨ t = server_type | _ => True end.



(** With the type the module expects, one ping is enough, and the answer is
    recognised exactly when the memory behind it, which the module does not send,
    starts with a NUL. *)
Lemma ping_answered k p c n after t atts :
  nl_sk k = LiveSock → nls c = true → (0 ≤ n)%Z → cb c = ping_cb → c_str after = Some t →
  (∃ k', Receiver.nl_data_ready k PING_PONG_TYPE p true true = Done k' ∧
     outbox k' = outbox k ++ [(s32 p, get_your_pid)]) ∧
  let c' := Client true (if decide (t = []) then 1 else 0) ping_cb (buffer_libnl_libevent c) in
  rece_from_kernel c (Messages [(NLMSG_DONE, get_your_pid ++ after)]) = Done (0%Z, c') ∧
  (t = [] → ping_pong_kernel c
              (Ping n (Some (Messages [(NLMSG_DONE, get_your_pid ++ after)])) :: atts)
            = Done (Answer 0, Client true 1 data_cb (buffer_libnl_libevent c))).
Proof.
  intros Hs Hn H0 Hcb Ht. split.
  { eexists. split; [by apply (proj2 (Receiver_answers k PING_PONG_TYPE p true true))|done]. }
  intros c'.
  assert (rece_from_kernel c (Messages [(NLMSG_DONE, get_your_pid ++ after)]) = Done (0%Z, c')) as Er.
  { unfold rece_from_kernel. rewrite Hn. unfold ofold, callback_of. rewrite Hcb.
    rewrite (ping_from_kernel_answer c after t Ht). simpl. by rewrite Hn, Hcb. }
  split; [done|]. intros ->. unfold ping_pong_kernel, check_netlink_status. cbn [check_loop sent].
  rewrite send_to_kernel_ok by done. cbn [mbind outcome_bind snd got]. rewrite Hn, Er. done.
Qed.

(** A call that fails frees the socket, and nobody looks at what it returns: the
    next use of the socket faults. *)
Lemma failed_call_faults c n r atts :
  nls c = true → insmod_flag c = 0%Z → (n < 0)%Z ∨ r = Some RecvFails →
  atts ≠ [] → ping_pong_kernel c (Ping n r :: atts) = Oops.
Proof.
  intros Hn Hf Hbad Hatts. unfold ping_pong_kernel, check_netlink_status. cbn [check_loop sent got].
  destruct (Z.ltb_spec n 0) as [H0|H0].
  - assert (send_to_kernel c n
      = Done (EXIT_FAILURE, Client false (insmod_flag c) (cb c) (buffer_libnl_libevent c))) as ->.
    { unfold send_to_kernel, free_netlink_resource. by rewrite Hn, (proj2 (Z.ltb_lt _ _) H0). }
    done.
  - destruct Hbad as [Hbad| ->]; [lia|]. rewrite send_to_kernel_ok by done.
    cbn [mbind outcome_bind snd]. rewrite Hn.
    assert (rece_from_kernel c RecvFails
      = Done (EXIT_FAILURE, Client false (insmod_flag c) (cb c) (buffer_libnl_libevent c))) as ->.
    { unfold rece_from_kernel, free_netlink_resource. by rewrite Hn. }
    simpl. rewrite Hf. simpl. by destruct atts.
Qed.

End HandshakeSpec.
