(* ===== verification/TcpBuild.v ===== *)
(** * A module that sends one packet of its own (build_receive_tcp/build_tcp)

    main.c builds an Ethernet frame with a TCP segment of 16 bytes, and asks a
    small cache, or else the neighbour table of the kernel, for the address of the
    gateway; csum.c computes the checksums. The kernel's checksum functions are
    parameters, and so is what its calls answer. *)
From S2P Require Import Prelude.

(** ** The cache of hardware addresses *)

Section cache.
(** Ticks per second, and the time: 64-bit unsigned integers. *)
Context (HZ : Z).

Record mac_ip := MacIp { ip : Z; mac : list Z; expires : Z }.

Definition MAC_IP_TAB_SIZE : nat := 2.
Definition mac_ip_table0 : list mac_ip :=
  replicate MAC_IP_TAB_SIZE (MacIp 0 (replicate 6 0%Z) 0).

Definition xmit_itv : Z := u64 (120 * HZ).

Fixpoint lookup_table (jiffies a : Z) (t : list mac_ip) : option mac_ip :=
  match t with
  | [] => None
  | e :: t =>
      if (a =? ip e)%Z && (jiffies <? expires e)%Z then Some e else lookup_table jiffies a t
  end.

Fixpoint addup_table (jiffies a : Z) (m : list Z) (t : list mac_ip) : list mac_ip :=
  match t with
  | [] => []
  | e :: t =>
      let e := if (expires e <? jiffies)%Z then MacIp 0 (mac e) (expires e) else e in
      if (ip e =? 0)%Z then MacIp a m (u64 (jiffies + xmit_itv)) :: t
      else e :: addup_table jiffies a m t
  end.

(** What the kernel answers: whether there is a route, and the entry of the
    neighbour table, with whether it is valid. *)
Record answer := Answer { routed : bool; nb_entry : option (bool * list Z) }.

(** The result, and the address copied to [dest]. *)
Definition get_mac (jiffies a : Z) (k : answer) (t : list mac_ip) : Z * option (list Z) * list mac_ip :=
  match lookup_table jiffies a t with
  | Some e => (1%Z, Some (mac e), t)
  | None =>
      if negb (routed k) then ((-2)%Z, None, t)
      else match nb_entry k with
           | Some (true, ha) => (1%Z, Some ha, addup_table jiffies a ha t)
           | _ => ((-3)%Z, None, t)
           end
  end.

Record request := Request { at_jiffies : Z; wanted : Z; kernel_says : answer }.

(** The calls of [get_mac], one after the other: their results, and the cache. *)
Fixpoint get_macs (rs : list request) (t : list mac_ip) : list (Z * option (list Z)) * list mac_ip :=
  match rs with
  | [] => ([], t)
  | r :: rs =>
      let '(x, t) := get_mac (at_jiffies r) (wanted r) (kernel_says r) t in
      let '(xs, t) := get_macs rs t in (x :: xs, t)
  end.
End cache.

(** ** Socket buffers *)

(** The memory of a buffer, [head] to [end]; the pointers are offsets in it. *)
Record sk_buff := SkBuff {
  mem : list Z;
  data : nat;
  tail : nat;
  network_header : nat;
  transport_header : nat;
  mac_header : nat;
  csum : Z;
  protocol : Z }.

Definition skb_len (s : sk_buff) : nat := tail s - data s.
Definition skb_tailroom (s : sk_buff) : nat := length (mem s) - tail s.

Definition set_mem (s : sk_buff) (m : list Z) : sk_buff :=
  SkBuff m (data s) (tail s) (network_header s) (transport_header s) (mac_header s) (csum s) (protocol s).
Definition set_data (s : sk_buff) (d t : nat) : sk_buff :=
  SkBuff (mem s) d t (network_header s) (transport_header s) (mac_header s) (csum s) (protocol s).
Definition skb_reset_network_header (s : sk_buff) : sk_buff :=
  SkBuff (mem s) (data s) (tail s) (data s) (transport_header s) (mac_header s) (csum s) (protocol s).
Definition skb_reset_transport_header (s : sk_buff) : sk_buff :=
  SkBuff (mem s) (data s) (tail s) (network_header s) (data s) (mac_header s) (csum s) (protocol s).
Definition skb_reset_mac_header (s : sk_buff) : sk_buff :=
  SkBuff (mem s) (data s) (tail s) (network_header s) (transport_header s) (data s) (csum s) (protocol s).
Definition set_csum (s : sk_buff) (c : Z) : sk_buff :=
  SkBuff (mem s) (data s) (tail s) (network_header s) (transport_header s) (mac_header s) c (protocol s).
Definition set_protocol (s : sk_buff) (p : Z) : sk_buff :=
  SkBuff (mem s) (data s) (tail s) (network_header s) (transport_header s) (mac_header s) (csum s) p.

(** skb_push() stops the machine when there is no room in front. *)
Definition skb_push (s : sk_buff) (n : nat) : outcome sk_buff :=
  if n <=? data s then Done (set_data s (data s - n) (tail s)) else Bug.
Definition skb_reserve (s : sk_buff) (n : nat) : sk_buff := set_data s (data s + n) (tail s + n).

(** A store of bytes at an offset. *)
Definition put_bytes (s : sk_buff) (off : nat) (bytes : list Z) : outcome sk_buff :=
  if off + length bytes <=? length (mem s)
  then Done (set_mem s (take off (mem s) ++ bytes ++ drop (off + length bytes) (mem s)))
  else Oops.

(** [htons], [htonl] and a store: the bytes in network order. *)
Definition be16 (z : Z) : list Z := [u8 (Z.shiftr z 8); u8 z].
Definition be32 (z : Z) : list Z := [u8 (Z.shiftr z 24); u8 (Z.shiftr z 16); u8 (Z.shiftr z 8); u8 z].
Definition ntohs (s : sk_buff) (off : nat) : Z :=
  (256 * nth off (mem s) 0 + nth (S off) (mem s) 0)%Z.

(** ** The packet *)

Definition ALIGN4 (n : nat) : nat := (n + 3) / 4 * 4.
Definition MD5LEN : nat := 16.
Definition ETH_HLEN : nat := 14.
Definition sizeof_iphdr : nat := 20.
Definition sizeof_tcphdr : nat := 20.
Definition SOURCE : Z := 6880.
Definition DEST : Z := 6880.
Definition GATE_IP : list Z := [139; 209; 90; 1]%Z.
Definition SOU_IP : list Z := [139; 209; 90; 213]%Z.
Definition DST_IP : list Z := [119; 184; 176; 146]%Z.
Definition RT_TOS (tos : Z) : Z := Z.land tos 30.
Definition IP_DF : Z := 0x4000.
Definition IPPROTO_TCP : Z := 6.
Definition TCPCB_FLAG_FIN : Z := 1.
Definition ETH_P_IP : Z := 0x0800.

Definition packet_size : nat :=
  ALIGN4 ETH_HLEN + ALIGN4 sizeof_iphdr + ALIGN4 sizeof_tcphdr + ALIGN4 MD5LEN.

(** [alloc_skb]: a block of at least the size asked for, or nothing. *)
Definition alloc_set_skb (block : option (list Z)) : option sk_buff :=
  m ← block; Some (skb_reserve (SkBuff m 0 0 0 0 0 0 0) packet_size).

Definition md5_result : list Z := [1; 2; 3; 4; 5; 6; 7; 8; 9; 10; 11; 12; 13; 14; 15; 16]%Z.

Definition copy_md5sum (s : sk_buff) : outcome (Z * sk_buff) :=
  if skb_tailroom s <? MD5LEN then Done ((-1)%Z, s)
  else s ← skb_push s MD5LEN; s ← put_bytes s (data s) md5_result; Done (0%Z, s).

Definition build_tcphdr (s : sk_buff) : outcome (Z * sk_buff) :=
  s ← skb_push s (ALIGN4 sizeof_tcphdr);
  let s := skb_reset_transport_header s in
  let th := transport_header s in
  s ← put_bytes s th (be16 SOURCE);
  s ← put_bytes s (th + 2) (be16 DEST);
  s ← put_bytes s (th + 4) (be32 123);
  s ← put_bytes s (th + 8) [0; 0; 0; 0]%Z;
  s ← put_bytes s (th + 12) (be16 (Z.lor (Z.shiftl (Z.shiftr 20 2) 12) TCPCB_FLAG_FIN));
  s ← put_bytes s (th + 14) (be16 560);
  s ← put_bytes s (th + 16) [0; 0]%Z;
  s ← put_bytes s (th + 18) [0; 0]%Z;
  Done (0%Z, s).

Definition build_iphdr (s : sk_buff) : outcome (Z * sk_buff) :=
  s ← skb_push s sizeof_iphdr;
  let s := skb_reset_network_header s in
  let iph := network_header s in
  s ← put_bytes s iph (be16 (Z.lor (Z.lor (Z.shiftl 4 12) (Z.shiftl 5 8)) (Z.land (RT_TOS 20) 255)));
  s ← put_bytes s (iph + 2) (be16 (Z.of_nat (skb_len s)));
  s ← put_bytes s (iph + 6) (be16 IP_DF);
  s ← put_bytes s (iph + 8) [64]%Z;
  s ← put_bytes s (iph + 9) [IPPROTO_TCP];
  s ← put_bytes s (iph + 12) SOU_IP;
  s ← put_bytes s (iph + 16) DST_IP;
  Done (0%Z, s).

Section checksums.
(** The kernel's functions: of the bytes of a header; of a range of bytes, to be
    folded later; of the addresses, the length, the protocol and that sum. *)
Context (ip_fast_csum : list Z → Z) (skb_checksum : list Z → Z)
        (csum_tcpudp_magic : list Z → list Z → Z → Z → Z → Z).

Definition ihl (s : sk_buff) : Z := Z.land (nth (network_header s) (mem s) 0%Z) 15.

(** [skbcsum], with [ip_summed] CHECKSUM_NONE as [minit] sets it. *)
Definition skbcsum (s : sk_buff) : outcome sk_buff :=
  let iph := network_header s in
  let iphl := Z.to_nat (Z.shiftl (ihl s) 2) in
  let tcph := iph + iphl in
  s ← put_bytes s (iph + 10) [0; 0]%Z;
  s ← put_bytes s (iph + 10) (be16 (ip_fast_csum (slice iph (Z.to_nat (ihl s) * 4) (mem s))));
  s ← put_bytes s (tcph + 16) [0; 0]%Z;
  let tcplen := (ntohs s (iph + 2) - Z.shiftl (ihl s) 2)%Z in
  let s := set_csum s (skb_checksum (slice (data s + iphl) (Z.to_nat tcplen) (mem s))) in
  put_bytes s (tcph + 16)
    (be16 (csum_tcpudp_magic (slice (iph + 12) 4 (mem s)) (slice (iph + 16) 4 (mem s))
             tcplen IPPROTO_TCP (csum s))).

(** What becomes of the buffer. *)
Inductive fate := NotAllocated | FreedSkb | LeakedSkb | SentFrame (frame : list Z).

Context (HZ : Z).

(** What the kernel answers to one load of the module. *)
Record world := World {
  block : option (list Z);
  device : option (list Z);      (** the address of eth0 *)
  now : Z;
  neighbour : answer;
  xmit : Z }.

(** The gateway as [in_aton] gives it: the bytes of a little-endian integer. *)
Definition gate_addr : Z :=
  foldr (λ b acc, b + 256 * acc)%Z 0%Z GATE_IP.

(** The result, the buffer, and whether it was freed. *)
Definition build_ethhdr (w : world) (s : sk_buff) (t : list mac_ip)
    : outcome (Z * sk_buff * bool * list mac_ip) :=
  match device w with
  | None => Done ((-3)%Z, s, false, t)
  | Some dev_addr =>
      let s := set_protocol s ETH_P_IP in
      s ← skb_push s ETH_HLEN;
      let s := skb_reset_mac_header s in
      s ← put_bytes s (data s + 6) dev_addr;
      match get_mac HZ (now w) gate_addr (neighbour w) t with
      | (err, Some m, t) => s ← put_bytes s (data s) m; Done (0%Z, s, false, t)
      | (err, None, t) => Done (err, s, true, t)
      end
  end.

Definition minit (w : world) (t : list mac_ip) : outcome (Z * fate * list mac_ip) :=
  match alloc_set_skb (block w) with
  | None => Done ((-1)%Z, NotAllocated, t)
  | Some s =>
      x ← copy_md5sum s;
      if negb (fst x =? 0)%Z then Done (fst x, FreedSkb, t) else
      x ← build_tcphdr (snd x);
      if negb (fst x =? 0)%Z then Done (fst x, FreedSkb, t) else
      x ← build_iphdr (snd x);
      if negb (fst x =? 0)%Z then Done (fst x, FreedSkb, t) else
      s ← skbcsum (snd x);
      y ← build_ethhdr w s t;
      let '(err, s, freed, t) := y in
      if negb (err =? 0)%Z
      then Done (err, if (freed : bool) then FreedSkb else LeakedSkb, t)
      else Done (xmit w, SentFrame (slice (data s) (skb_len s) (mem s)), t)
  end.
End checksums.

(** ** receive_tcp/main.c *)

Inductive verdict := NF_DROP | NF_ACCEPT.

(** A 16-bit field in network order. *)
Definition get16 (p : list Z) (off : nat) : outcome Z :=
  a ← deref (p !! off); b ← deref (p !! S off); Done (256 * a + b)%Z.

(** The hook, on the bytes from the IP header on: the verdict, and the bytes it
    prints. The length is computed as an [int] and kept as a [size_t]. *)
Definition nf_in (p : list Z) : outcome (verdict * list Z) :=
  proto ← deref (p !! 9);
  if decide (proto = IPPROTO_TCP) then
    b ← deref (p !! 0);
    let tcph := Z.to_nat (Z.shiftl (Z.land b 15) 2) in
    sport ← get16 p tcph;
    dport ← get16 p (tcph + 2);
    if (sport =? 6880)%Z && (dport =? 6880)%Z then
      d ← deref (p !! (tcph + 12));
      let doff := Z.shiftr d 4 in
      let tcp_payload := tcph + Z.to_nat (Z.shiftl doff 2) in
      tot_len ← get16 p 2;
      let tcp_payload_len := u64 (tot_len - Z.shiftl (Z.land b 15) 2 - Z.shiftl doff 2) in
      if (tcp_payload_len =? 16)%Z
      then bytes ← read_bytes (drop tcp_payload p) 16; Done (NF_DROP, map s8 bytes)
      else Done (NF_DROP, [])
    else Done (NF_ACCEPT, [])
  else Done (NF_ACCEPT, []).
