(* ===== verification/TcpBuildSpec.v ===== *)
(** * What the packet builder sends, and whom it believes (build_receive_tcp) *)
From S2P Require Import Prelude TcpBuild.

(** ** The cache *)

Section cache.
Context (HZ : Z).

(** Every entry that was ever filled says what the kernel said at some call, and
    until when it may be believed. *)
Definition entry_ok (hist : list request) (e : mac_ip) : Prop :=
  expires e = 0%Z ∨
  ∃ j r, hist !! j = Some r ∧ wanted r = ip e ∧
    nb_entry (kernel_says r) = Some (true, mac e) ∧
    expires e = u64 (at_jiffies r + xmit_itv HZ).

Lemma lookup_table_spec j a t e :
  lookup_table j a t = Some e → e ∈ t ∧ ip e = a ∧ (j < expires e)%Z.
Proof.
  induction t as [|e' t IH]; simpl; [done|].
  destruct (Z.eqb_spec a (ip e')) as [->|]; simpl.
  - destruct (Z.ltb_spec j (expires e')).
    + intros [= ->]. split; [by left|done].
    + intros (?&?&?)%IH. split; [by right|done].
  - intros (?&?&?)%IH. split; [by right|done].
Qed.

(** [addup_table] leaves an entry as it is, or replaces it by the new one. *)
Lemma addup_table_entry j a m t e :
  e ∈ addup_table HZ j a m t → e ∈ t ∨ e = MacIp a m (u64 (j + xmit_itv HZ)).
Proof.
  induction t as [|e' t IH]; simpl; [by left|].
  destruct (expires e' <? j)%Z; simpl.
  - intros [->|?]%elem_of_cons; [by right|left; by right].
  - destruct (ip e' =? 0)%Z.
    + intros [->|?]%elem_of_cons; [by right|left; by right].
    + intros [->|[?| ->]%IH]%elem_of_cons; [left; by left|left; by right|by right].
Qed.

Lemma get_mac_spec hist r t x m t' :
  Forall (entry_ok hist) t → (0 ≤ at_jiffies r)%Z →
  get_mac HZ (at_jiffies r) (wanted r) (kernel_says r) t = (x, m, t') →
  Forall (entry_ok (hist ++ [r])) t' ∧
  ∀ ha, m = Some ha → nb_entry (kernel_says r) = Some (true, ha) ∨
    ∃ j r', hist !! j = Some r' ∧ wanted r' = wanted r ∧
      nb_entry (kernel_says r') = Some (true, ha) ∧
      (at_jiffies r < u64 (at_jiffies r' + xmit_itv HZ))%Z.
Proof.
  intros Ht Hj. unfold get_mac.
  assert (∀ e, entry_ok hist e → entry_ok (hist ++ [r]) e) as Hmono.
  { intros e [?|(j&r'&Hr'&H)]; [by left|right]. exists j, r'.
    split; [by apply lookup_app_l_Some|done]. }
  assert (Forall (entry_ok (hist ++ [r])) t) as Ht' by (by eapply Forall_impl).
  destruct (lookup_table _ _ _) as [e|] eqn:El.
  - intros [= <- <- <-]. split; [done|]. intros ha [= <-]. right.
    apply lookup_table_spec in El as (Hin&Hip&Hlt).
    rewrite Forall_forall in Ht. destruct (Ht e Hin) as [?|(j&r'&Hr'&Hw&Hn&He)]; [lia|].
    exists j, r'. rewrite <- He. by rewrite Hw.
  - destruct (routed _); simpl; [|by intros [= <- <- <-]].
    destruct (nb_entry (kernel_says r)) as [[[] ha]|] eqn:En; [|by intros [= <- <- <-]..].
    intros [= <- <- <-]. split; [|intros ha' [= ->]; by left].
    rewrite Forall_forall in Ht' |- *. intros e [He| ->]%addup_table_entry; [by apply Ht'|].
    right. exists (length hist), r. rewrite list_lookup_middle by done. by rewrite En.
Qed.

Lemma get_macs_from hist rs t i x ha r :
  Forall (entry_ok hist) t → Forall (λ r, 0 ≤ at_jiffies r)%Z rs →
  fst (get_macs HZ rs t) !! i = Some (x, Some ha) → rs !! i = Some r →
  nb_entry (kernel_says r) = Some (true, ha) ∨
  ∃ j r', j < length hist + i ∧ (hist ++ rs) !! j = Some r' ∧ wanted r' = wanted r ∧
    nb_entry (kernel_says r') = Some (true, ha) ∧
    (at_jiffies r < u64 (at_jiffies r' + xmit_itv HZ))%Z.
Proof.
  revert hist t i. induction rs as [|r0 rs IH]; intros hist t i Ht Hpos; [done|]. simpl.
  apply Forall_cons in Hpos as [H0 Hpos].
  destruct (get_mac _ _ _ _ _) as [[x0 m0] t0] eqn:E.
  destruct (get_mac_spec hist r0 t x0 m0 t0 Ht H0 E) as [Ht0 Hm].
  destruct (get_macs HZ rs t0) as [xs t1] eqn:Es. simpl.
  destruct i as [|i]; simpl.
  - intros [= -> ->] [= ->]. destruct (Hm ha eq_refl) as [?|(j&r'&Hr'&H)]; [by left|right].
    exists j, r'. split; [apply lookup_lt_Some in Hr'; lia|].
    split; [by apply lookup_app_l_Some|done].
  - intros Hx Hr. specialize (IH (hist ++ [r0]) t0 i Ht0 Hpos). rewrite Es in IH.
    destruct (IH Hx Hr) as [?|(j&r'&Hj&Hr'&H)]; [by left|right].
    exists j, r'. rewrite <- app_assoc in Hr'. rewrite length_app in Hj. simpl in Hj.
    split; [lia|done].
Qed.
End cache.

(** Whatever address [get_mac] copies is one that the kernel's neighbour table
    gave, as valid, for the address asked for: in this call, or in an earlier one
    less than 120 seconds ago. The bound is that the clock does not wrap. *)
Theorem get_mac_fresh HZ rs i x ha r :
  (0 ≤ HZ)%Z → Forall (λ r, 0 ≤ at_jiffies r ∧ at_jiffies r + 120 * HZ < 2 ^ 64)%Z rs →
  fst (get_macs HZ rs mac_ip_table0) !! i = Some (x, Some ha) → rs !! i = Some r →
  ∃ j r', j ≤ i ∧ rs !! j = Some r' ∧ wanted r' = wanted r ∧
    nb_entry (kernel_says r') = Some (true, ha) ∧
    (j = i ∨ (at_jiffies r < at_jiffies r' + 120 * HZ)%Z).
Proof.
  intros HHZ Hrs Hx Hr.
  destruct (get_macs_from HZ [] rs mac_ip_table0 i x ha r) as [Hn|(j&r'&Hj&Hr'&Hw&Hn&Hlt)];
    [|by eapply Forall_impl; [exact Hrs|intros ? []]|done|done| |].
  - repeat constructor.
  - exists i, r. auto 10.
  - simpl in Hj, Hr'. exists j, r'. split; [lia|]. split; [done|]. split; [done|]. split; [done|].
    right. rewrite Forall_forall in Hrs. destruct (Hrs r') as [??]; [by eapply list_elem_of_lookup_2|].
    unfold xmit_itv in Hlt. rewrite (u64_small (120 * HZ)) in Hlt by lia.
    by rewrite u64_small in Hlt by lia.
Qed.

(** An address learnt at tick 10, asked for again at 50, and at 200. *)
Lemma get_mac_fresh_witness :
  let learnt := Answer true (Some (true, [1; 2; 3; 4; 5; 6]%Z)) in
  let silent := Answer true None in
  let rs := [Request 10 7 learnt; Request 50 7 silent; Request 200 7 silent]%Z in
  fst (get_macs 1 rs mac_ip_table0)
  = [(1, Some [1; 2; 3; 4; 5; 6]); (1, Some [1; 2; 3; 4; 5; 6]); (-3, None)]%Z ∧
  ∃ j r', j ≤ 1 ∧ rs !! j = Some r' ∧ wanted r' = 7%Z ∧
    nb_entry (kernel_says r') = Some (true, [1; 2; 3; 4; 5; 6]%Z) ∧
    (j = 1 ∨ (50 < at_jiffies r' + 120 * 1)%Z).
Proof.
  split; [reflexivity|].
  apply (get_mac_fresh 1 [Request 10 7 (Answer true (Some (true, [1; 2; 3; 4; 5; 6])));
    Request 50 7 (Answer true None); Request 200 7 (Answer true None)]%Z 1 1%Z [1; 2; 3; 4; 5; 6]%Z
    (Request 50 7 (Answer true None))%Z); [lia| |reflexivity|reflexivity].
  repeat constructor; simpl; lia.
Defined.

(** ** The packet *)

(** The sum of the 16-bit words of a block in network order, which a receiver
    compares with 0 modulo 2^16 - 1. *)
Fixpoint words (l : list Z) : Z :=
  match l with
  | a :: b :: l => (256 * a + b + words l)%Z
  | [a] => (256 * a)%Z
  | [] => 0%Z
  end.

Lemma words_be16 z l : (0 ≤ z < 65536)%Z → words (be16 z ++ l) = (z + words l)%Z.
Proof.
  intros Hz. unfold be16, u8. simpl. rewrite Z.shiftr_div_pow2 by lia.
  rewrite (Z.mod_small (z / 2 ^ 8)) by (split; [apply Z.div_pos|apply Z.div_lt_upper_bound]; lia).
  pose proof (Z.div_mod z (2 ^ 8)). lia.
Qed.

Lemma slice_middle {A} i n (a b c : list A) :
  length a = i → length b = n → slice i n (a ++ b ++ c) = b.
Proof. intros <- <-. unfold slice. by rewrite drop_app_length, take_app_length. Qed.

Section packet.
Context (ip_fast_csum : list Z → Z) (skb_checksum : list Z → Z)
        (csum_tcpudp_magic : list Z → list Z → Z → Z → Z → Z).

(** The kernel's functions complete a sum to 0, or give it. *)
Record csum_laws : Prop := {
  ip_csum l : (0 ≤ ip_fast_csum l < 65536)%Z ∧ eqmod 65535 (words l + ip_fast_csum l) 0;
  skb_csum l : eqmod 65535 (skb_checksum l) (words l);
  tcp_csum s d len proto c : (0 ≤ csum_tcpudp_magic s d len proto c < 65536)%Z ∧
    eqmod 65535 (words s + words d + len + proto + c + csum_tcpudp_magic s d len proto c) 0 }.

(** The frame [minit] sends: what the headers say, the checksums, and the bytes
    it does not write. *)
Definition ip_header (id : list Z) (ck : Z) : list Z :=
  [69; 20; 0; 56]%Z ++ id ++ [64; 0; 64; 6]%Z ++ be16 ck ++ SOU_IP ++ DST_IP.
Definition tcp_header (ck : Z) : list Z :=
  [26; 224; 26; 224; 0; 0; 0; 123; 0; 0; 0; 0; 80; 1; 2; 48]%Z ++ be16 ck ++ [0; 0]%Z.

(** The block before [build_ethhdr], with 72 bytes of headroom. *)
Definition built (m : list Z) : sk_buff :=
  let id := slice 20 2 m in
  let ick := ip_fast_csum (ip_header id 0) in
  let c := skb_checksum (tcp_header 0 ++ md5_result) in
  let tck := csum_tcpudp_magic SOU_IP DST_IP 36 6 c in
  SkBuff (take 16 m ++ ip_header id ick ++ tcp_header tck ++ md5_result ++ drop 72 m)
    16 72 16 36 0 c 0.

(** Name the first bytes of the block. *)
Ltac name_bytes m Hm :=
  do 88 (destruct m as [|? m]; [exfalso; clear - Hm; simpl in Hm; lia|]); clear Hm.

Lemma built_spec m s :
  88 ≤ length m → alloc_set_skb (Some m) = Some s →
  (x ← copy_md5sum s; x ← build_tcphdr (snd x); x ← build_iphdr (snd x);
   skbcsum ip_fast_csum skb_checksum csum_tcpudp_magic (snd x)) = Done (built m).
Proof.
  intros Hm [= <-]. name_bytes m Hm. vm_compute. reflexivity.
Qed.

Lemma minit_built HZ w t m :
  block w = Some m → 88 ≤ length m →
  minit ip_fast_csum skb_checksum csum_tcpudp_magic HZ w t =
  (y ← build_ethhdr HZ w (built m) t;
   let '(err, s, freed, t) := y in
   if negb (err =? 0)%Z
   then Done (err, if (freed : bool) then FreedSkb else LeakedSkb, t)
   else Done (xmit w, SentFrame (slice (data s) (skb_len s) (mem s)), t)).
Proof.
  intros Hb Hm. unfold minit. rewrite Hb. simpl alloc_set_skb.
  set (s := skb_reserve _ _).
  pose proof (built_spec m s Hm eq_refl) as E.
  assert (∀ x, copy_md5sum s = Done x → fst x = 0%Z) as H1.
  { unfold copy_md5sum. intros x. destruct (skb_tailroom s <? MD5LEN) eqn:El.
    - apply Nat.ltb_lt in El. unfold s, skb_tailroom, MD5LEN in El. simpl in El.
      change packet_size with 72 in El. lia.
    - intros H. osimpl. done. }
  assert (∀ s x, build_tcphdr s = Done x → fst x = 0%Z) as H2.
  { unfold build_tcphdr. intros s' x H. osimpl. done. }
  assert (∀ s x, build_iphdr s = Done x → fst x = 0%Z) as H3.
  { unfold build_iphdr. intros s' x H. osimpl. done. }
  destruct (copy_md5sum s) as [x1| |] eqn:E1; try discriminate E.
  rewrite ?E1. cbn [mbind outcome_bind] in E |- *. rewrite (H1 x1 eq_refl). cbn [Z.eqb negb].
  destruct (build_tcphdr (snd x1)) as [x2| |] eqn:E2; try discriminate E.
  rewrite ?E2. cbn [mbind outcome_bind] in E |- *. rewrite (H2 _ x2 E2). cbn [Z.eqb negb].
  destruct (build_iphdr (snd x2)) as [x3| |] eqn:E3; try discriminate E.
  rewrite ?E3. cbn [mbind outcome_bind] in E |- *. rewrite (H3 _ x3 E3). cbn [Z.eqb negb].
  by rewrite E.
Qed.

(** The frame: two bytes of the Ethernet header and the identification of the IP
    header are those of the block. *)
Definition frame (dst src et id : list Z) (ick tck : Z) : list Z :=
  dst ++ src ++ et ++ ip_header id ick ++ tcp_header tck ++ md5_result.

(** The checks of a receiver. *)
Definition ip_valid (id : list Z) (ick : Z) : Prop := eqmod 65535 (words (ip_header id ick)) 0.
Definition tcp_valid (tck : Z) : Prop :=
  eqmod 65535 (words (SOU_IP ++ DST_IP) + 36 + IPPROTO_TCP + words (tcp_header tck ++ md5_result)) 0.

Lemma ip_header_words id ck : length id = 2 → (0 ≤ ck < 65536)%Z →
  words (ip_header id ck) = (words (ip_header id 0) + ck)%Z.
Proof.
  intros Hid Hck. destruct id as [|a [|b []]]; try done. unfold ip_header.
  change ([69; 20; 0; 56]%Z ++ [a; b] ++ [64; 0; 64; 6]%Z ++ be16 ck ++ SOU_IP ++ DST_IP)
    with ([69; 20; 0; 56; a; b; 64; 0; 64; 6]%Z ++ be16 ck ++ SOU_IP ++ DST_IP).
  change ([69; 20; 0; 56]%Z ++ [a; b] ++ [64; 0; 64; 6]%Z ++ be16 0 ++ SOU_IP ++ DST_IP)
    with ([69; 20; 0; 56; a; b; 64; 0; 64; 6]%Z ++ be16 0 ++ SOU_IP ++ DST_IP).
  cbn [app words]. rewrite !words_be16 by lia. lia.
Qed.

Lemma tcp_header_words ck l : (0 ≤ ck < 65536)%Z →
  words (tcp_header ck ++ l) = (words (tcp_header 0 ++ l) + ck)%Z.
Proof.
  intros Hck. unfold tcp_header. rewrite <- !app_assoc. cbn [app words].
  rewrite !words_be16 by lia. lia.
Qed.

Lemma built_valid (L : csum_laws) m :
  88 ≤ length m →
  ∃ ick tck, ip_valid (slice 20 2 m) ick ∧ tcp_valid tck ∧
    mem (built m) = take 16 m ++ ip_header (slice 20 2 m) ick ++ tcp_header tck ++ md5_result ++ drop 72 m.
Proof.
  intros Hm. eexists _, _. split; [|split; [|reflexivity]].
  - destruct (ip_csum L (ip_header (slice 20 2 m) 0)) as [Hr He].
    unfold ip_valid. rewrite ip_header_words; [done|apply slice_length; lia|done].
  - destruct (tcp_csum L SOU_IP DST_IP 36 6 (skb_checksum (tcp_header 0 ++ md5_result))) as [Hr He].
    unfold tcp_valid. rewrite tcp_header_words by done.
    pose proof (skb_csum L (tcp_header 0 ++ md5_result)) as Hc.
    etransitivity; [|exact He].
    set (r := csum_tcpudp_magic _ _ _ _ _) in *. set (c := skb_checksum _) in *.
    set (W := words (tcp_header 0 ++ md5_result)) in *. change (words (SOU_IP ++ DST_IP)) with (words SOU_IP + words DST_IP)%Z.
    unfold IPPROTO_TCP. rewrite Hc.
    replace (words SOU_IP + words DST_IP + 36 + 6 + (W + r))%Z
      with (words SOU_IP + words DST_IP + 36 + 6 + W + r)%Z by lia. done.
Qed.

Lemma build_ethhdr_spec HZ w t m src dst t' x :
  88 ≤ length m → device w = Some src → length src = 6 →
  get_mac HZ (now w) gate_addr (neighbour w) t = (x, Some dst, t') → length dst = 6 →
  ∃ s, build_ethhdr HZ w (built m) t = Done (0%Z, s, false, t') ∧
    slice (data s) (skb_len s) (mem s)
    = dst ++ src ++ slice 14 2 m ++ slice 16 56 (mem (built m)).
Proof.
  intros Hm Hd Hs Hg Hl. unfold build_ethhdr. rewrite Hd, Hg.
  destruct src as [|s0 [|s1 [|s2 [|s3 [|s4 [|s5 []]]]]]]; try done.
  destruct dst as [|d0 [|d1 [|d2 [|d3 [|d4 [|d5 []]]]]]]; try done.
  clear Hg Hd Hs Hl. name_bytes m Hm. eexists. split; vm_compute; reflexivity.
Qed.
End packet.

(** The hook takes the payload out of the packet, whatever the bytes that the
    builder leaves unwritten. *)
Lemma nf_in_frame dst src et id ick tck :
  length dst = 6 → length src = 6 → length et = 2 → length id = 2 →
  nf_in (drop ETH_HLEN (frame dst src et id ick tck)) = Done (NF_DROP, md5_result).
Proof.
  intros Hd Hs He Hi. unfold frame.
  replace (dst ++ src ++ et ++ ip_header id ick ++ tcp_header tck ++ md5_result)
    with ((dst ++ src ++ et) ++ ip_header id ick ++ tcp_header tck ++ md5_result)
    by (by rewrite <- !app_assoc).
  rewrite drop_app_length' by (rewrite !length_app; unfold ETH_HLEN; lia).
  destruct id as [|i0 [|i1 []]]; try done.
Qed.

(** C38. When memory, the device and the address of the gateway are there, [minit] sends
    one frame: the address that [get_mac] gave, that of the device, an IP header and
    a TCP header with the constants of the source, and the payload. Both checksums
    are right, and the hook of receive_tcp takes the payload out of the packet and
    drops it. Two bytes of the frame, where the type of the payload belongs, and the
    identification are left as they were in the memory of the block. *)
Theorem minit_sends_and_nf_in_receives
    ip_fast_csum skb_checksum csum_tcpudp_magic HZ w t m src dst t' x :
  csum_laws ip_fast_csum skb_checksum csum_tcpudp_magic →
  block w = Some m → 88 ≤ length m → device w = Some src → length src = 6 →
  get_mac HZ (now w) gate_addr (neighbour w) t = (x, Some dst, t') → length dst = 6 →
  ∃ ick tck,
    let f := frame dst src (slice 14 2 m) (slice 20 2 m) ick tck in
    minit ip_fast_csum skb_checksum csum_tcpudp_magic HZ w t = Done (xmit w, SentFrame f, t') ∧
    ip_valid (slice 20 2 m) ick ∧ tcp_valid tck ∧
    nf_in (drop ETH_HLEN f) = Done (NF_DROP, md5_result).
Proof.
  intros L Hb Hm Hd Hs Hg Hl.
  destruct (built_valid ip_fast_csum skb_checksum csum_tcpudp_magic L m Hm) as (ick&tck&Hi&Ht&Emem).
  exists ick, tck. split; [|split; [done|split; [done|]]].
  2:{ apply nf_in_frame; try done; apply slice_length; lia. }
  rewrite (minit_built _ _ _ HZ w t m Hb Hm).
  destruct (build_ethhdr_spec ip_fast_csum skb_checksum csum_tcpudp_magic HZ w t m src dst t' x Hm Hd Hs Hg Hl)
    as (s&->&Es).
  cbn [mbind outcome_bind Z.eqb negb]. rewrite Es, Emem. unfold frame.
  replace (take 16 m ++ ip_header (slice 20 2 m) ick ++ tcp_header tck ++ md5_result ++ drop 72 m)
    with (take 16 m ++ (ip_header (slice 20 2 m) ick ++ tcp_header tck ++ md5_result) ++ drop 72 m)
    by (by rewrite <- !app_assoc).
  rewrite slice_middle; [done|rewrite length_take; lia|].
  unfold ip_header. rewrite !length_app, slice_length by lia. done.
Qed.

(** Functions that satisfy the laws: ones' complements of plain sums. *)
Definition ip_sum (l : list Z) : Z := (- words l) mod 65535.
Definition tcp_sum (s d : list Z) (len proto c : Z) : Z :=
  (- (words s + words d + len + proto + c)) mod 65535.

Lemma neg_mod_range z : (0 ≤ (- z) mod 65535 < 65536)%Z.
Proof. pose proof (Z.mod_pos_bound (- z) 65535). lia. Qed.

Lemma neg_mod_cancel z : eqmod 65535 (z + (- z) mod 65535) 0.
Proof. unfold eqmod. rewrite Zplus_mod_idemp_r. by rewrite Z.add_opp_diag_r. Qed.

Lemma sums_laws : csum_laws ip_sum words tcp_sum.
Proof.
  split.
  - intros l. split; [apply neg_mod_range|apply neg_mod_cancel].
  - reflexivity.
  - intros s d len proto c. split; [apply neg_mod_range|apply neg_mod_cancel].
Qed.

Definition eth0 : list Z := [0; 12; 41; 1; 2; 3]%Z.
Definition gate : list Z := [0; 22; 49; 9; 8; 7]%Z.
Definition world0 : world :=
  World (Some (replicate 128 170%Z)) (Some eth0) 1000 (Answer true (Some (true, gate))) 0.

Lemma minit_sends_and_nf_in_receives_witness :
  ∃ ick tck t',
    let f := frame gate eth0 [170; 170]%Z [170; 170]%Z ick tck in
    minit ip_sum words tcp_sum 100 world0 mac_ip_table0 = Done (0%Z, SentFrame f, t') ∧
    ip_valid [170; 170]%Z ick ∧ tcp_valid tck ∧
    nf_in (drop ETH_HLEN f) = Done (NF_DROP, md5_result).
Proof.
  destruct (minit_sends_and_nf_in_receives ip_sum words tcp_sum 100 world0 mac_ip_table0
    (replicate 128 170%Z) eth0 gate (addup_table 100 1000 gate_addr gate mac_ip_table0) 1 sums_laws)
    as (ick&tck&H1&H2&H3&H4).
  - reflexivity.
  - rewrite length_replicate. lia.
  - reflexivity.
  - reflexivity.
  - reflexivity.
  - reflexivity.
  - exists ick, tck, (addup_table 100 1000 gate_addr gate mac_ip_table0).
    split; [exact H1|]. split; [exact H2|]. split; [exact H3|exact H4].
Defined.

(** The other branches. The test of [copy_md5sum] is for room behind the data,
    though it stores in front; and the buffer is not freed when the device is
    missing. *)
Lemma minit_fails fi sc tm HZ w t :
  match block w with
  | None => minit fi sc tm HZ w t = Done ((-1)%Z, NotAllocated, t)
  | Some m =>
      (72 ≤ length m < 88 → minit fi sc tm HZ w t = Done ((-1)%Z, FreedSkb, t)) ∧
      (88 ≤ length m →
       (device w = None → minit fi sc tm HZ w t = Done ((-3)%Z, LeakedSkb, t)) ∧
       (∀ src x t', device w = Some src → length src = 6 → x ≠ 0%Z →
          get_mac HZ (now w) gate_addr (neighbour w) t = (x, None, t') →
          minit fi sc tm HZ w t = Done (x, FreedSkb, t')))
  end.
Proof.
  destruct (block w) as [m|] eqn:Hb; [|by unfold minit; rewrite Hb].
  split; [|intros Hm; split].
  - intros Hm. unfold minit. rewrite Hb. cbn [alloc_set_skb mbind option_bind].
    unfold copy_md5sum, skb_tailroom, MD5LEN. cbn [mem tail skb_reserve set_data].
    change packet_size with 72.
    destruct (Nat.ltb_spec (length m - (0 + 72)) 16) as [_|]; [done|lia].
  - intros Hd. rewrite (minit_built _ _ _ HZ w t m Hb Hm). unfold build_ethhdr. by rewrite Hd.
  - intros src x t' Hd Hs Hx Hg. rewrite (minit_built _ _ _ HZ w t m Hb Hm).
    unfold build_ethhdr. rewrite Hd, Hg.
    assert (skb_push (set_protocol (built fi sc tm m) ETH_P_IP) ETH_HLEN
      = Done (set_data (set_protocol (built fi sc tm m) ETH_P_IP) 2 72)) as -> by done.
    cbn [mbind outcome_bind]. unfold put_bytes.
    assert (length (mem (built fi sc tm m)) = length m) as Hlen.
    { unfold built. cbn [mem]. unfold ip_header, tcp_header.
      rewrite !length_app, slice_length, length_take, length_drop, Nat.min_l by lia.
      simpl length. lia. }
    change (mem (skb_reset_mac_header _)) with (mem (built fi sc tm m)).
    rewrite Hlen, Hs. destruct (Nat.leb_spec (data (skb_reset_mac_header
      (set_data (set_protocol (built fi sc tm m) ETH_P_IP) 2 72)) + 6 + 6) (length m)) as [_|Hl].
    + cbn [mbind outcome_bind]. by rewrite (proj2 (Z.eqb_neq _ _) Hx).
    + simpl in Hl. lia.
Qed.
