(* ===== verification/Bstr.v ===== *)
(** * The byte strings of the analyser's library (model/c-skeleton/src/lcthw/bstrlib.c)

    The memory holds blocks of bytes and the headers [struct tagbstring]; a header
    may point into a block that another header owns, so the operations that copy
    read and write the store in the order of the source. An access outside a block,
    or to one that was freed, is a fault. [int] arithmetic wraps; a C string that is
    an argument lies in memory of its own. *)
From S2P Require Import Prelude.
#[local] Open Scope Z_scope.

(** ** Memory *)

(** A pointer: the block it points into, and where. *)
Record ptr := Ptr { blk : nat; off : Z }.
#[export] Instance ptr_eq_dec : EqDecision ptr.
Proof. solve_decision. Defined.

Record tagbstring := Tag { mlen : Z; slen : Z; data : option ptr }.
#[export] Instance tagbstring_eq_dec : EqDecision tagbstring.
Proof. solve_decision. Defined.

(** [fresh] counts the allocations, the failed ones too: the addresses of blocks
    and of headers are taken from it. *)
Record heap := Heap {
  blocks : gmap nat (list Z);
  strs : gmap nat tagbstring;
  fresh : nat }.

(** [bstring], a pointer to a header or NULL; a NUL-terminated string or a block,
    without the NUL. *)
Abbreviation bstring := (option nat) (only parsing).
Abbreviation cstr := (option (list Z)) (only parsing).

Definition BSTR_ERR : Z := -1.
Definition BSTR_OK : Z := 0.
Definition SHRT_MIN : Z := -32768.
Definition INT_MAX : Z := 2 ^ 31 - 1.

(** Computations on the memory. *)
Definition M (A : Type) : Type := heap → outcome (A * heap).
#[export] Instance M_ret : MRet M := λ A a h, Done (a, h).
#[export] Instance M_bind : MBind M := λ A B f m h,
  match m h with Done (a, h') => f a h' | Bug => Bug | Oops => Oops end.

Definition fault {A} : M A := λ _, Oops.
Definition lift {A} (o : outcome A) : M A :=
  λ h, match o with Done a => Done (a, h) | Bug => Bug | Oops => Oops end.

(** Headers. *)
Definition hdr (a : nat) : M tagbstring := λ h, lift (deref (strs h !! a)) h.
Definition set_hdr (a : nat) (t : tagbstring) : M () := λ h,
  match strs h !! a with
  | Some _ => Done (tt, Heap (blocks h) (<[a := t]> (strs h)) (fresh h))
  | None => Oops
  end.
Definition set_slen (a : nat) (n : Z) : M () := t ← hdr a; set_hdr a (Tag (mlen t) n (data t)).
Definition get_data (a : nat) : M ptr := t ← hdr a; lift (deref (data t)).

(** Bytes. *)
Definition block (k : nat) : M (list Z) := λ h, lift (deref (blocks h !! k)) h.
Definition in_range (o n : Z) (b : list Z) : Prop := 0 ≤ n ∧ 0 ≤ o ∧ o + n ≤ Z.of_nat (length b).
#[export] Instance in_range_dec o n b : Decision (in_range o n b).
Proof. unfold in_range. apply _. Defined.

Definition read (p : ptr) (i n : Z) : M (list Z) :=
  b ← block (blk p);
  if decide (in_range (off p + i) n b)
  then mret (slice (Z.to_nat (off p + i)) (Z.to_nat n) b) else fault.
Definition write (p : ptr) (i : Z) (l : list Z) : M () := λ h,
  match blocks h !! blk p with
  | Some b =>
      if decide (in_range (off p + i) (Z.of_nat (length l)) b)
      then Done (tt, Heap (<[blk p := write_at (Z.to_nat (off p + i)) l b]> (blocks h))
                          (strs h) (fresh h))
      else Oops
  | None => Oops
  end.
Definition store (p : ptr) (i c : Z) : M () := write p i [c].
Definition memmove (d : ptr) (di : Z) (s : ptr) (si n : Z) : M () :=
  l ← read s si n; write d di l.
(** The regions of [memcpy] must not overlap. *)
Definition memcpy (d : ptr) (di : Z) (s : ptr) (si n : Z) : M () :=
  if decide (blk d = blk s ∧ Z.abs (off d + di - (off s + si)) < n)
  then fault else memmove d di s si n.
Definition memset (d : ptr) (di c n : Z) : M () := write d di (replicate (Z.to_nat n) c).
Definition bBlockCopy (d : ptr) (di : Z) (s : ptr) (si n : Z) : M () :=
  if 0 <? n then memmove d di s si n else mret tt.

(** [bytes t]: what lies between [t->data] and the end of its block. *)
Definition bytes (t : tagbstring) : M (list Z) :=
  p ← lift (deref (data t)); b ← block (blk p);
  if decide (in_range (off p) 0 b) then mret (drop (Z.to_nat (off p)) b) else fault.
Definition at_ (l : list Z) (i : Z) : outcome Z :=
  if decide (0 ≤ i) then deref (l !! Z.to_nat i) else Oops.

Section Alloc.
Context `{Allocator}.

(** [bstr__alloc], [bstr__free], [bstr__realloc]: an allocation of a negative
    number of bytes, a huge [size_t], fails; a block that grows moves. *)
Definition alloc (size : Z) : M (option ptr) := λ h,
  if decide (0 ≤ size ∧ alloc_ok (fresh h) = true)
  then Done (Some (Ptr (fresh h) 0),
             Heap (<[fresh h := junk (fresh h) (Z.to_nat size)]> (blocks h))
                  (strs h) (S (fresh h)))
  else Done (None, Heap (blocks h) (strs h) (S (fresh h))).

Definition free (p : ptr) : M () := λ h,
  if decide (off p = 0 ∧ is_Some (blocks h !! blk p))
  then Done (tt, Heap (delete (blk p) (blocks h)) (strs h) (fresh h)) else Oops.

Definition realloc (p : ptr) (size : Z) : M (option ptr) := λ h,
  match blocks h !! blk p with
  | Some b =>
      if decide (off p = 0)
      then if decide (0 ≤ size ∧ alloc_ok (fresh h) = true)
           then let new := junk (fresh h) (Z.to_nat size) in
                Done (Some (Ptr (fresh h) 0),
                      Heap (<[fresh h := take (Z.to_nat size) (b ++ drop (length b) new)]>
                              (delete (blk p) (blocks h)))
                           (strs h) (S (fresh h)))
           else Done (None, Heap (blocks h) (strs h) (S (fresh h)))
      else Oops
  | None => Oops
  end.

(** [malloc (sizeof (struct tagbstring))], with the fields the caller then sets. *)
Definition alloc_hdr (t : tagbstring) : M (option nat) := λ h,
  if alloc_ok (fresh h)
  then Done (Some (fresh h), Heap (blocks h) (<[fresh h := t]> (strs h)) (S (fresh h)))
  else Done (None, Heap (blocks h) (strs h) (S (fresh h))).
Definition free_hdr (a : nat) : M () := λ h,
  match strs h !! a with
  | Some _ => Done (tt, Heap (blocks h) (delete a (strs h)) (fresh h))
  | None => Oops
  end.

(** ** Sizes *)

Definition smear (k j : Z) : Z := Z.lor j (Z.shiftr j k).

Definition snapUpSize (i : Z) : Z :=
  if i <? 8 then 8
  else let j := smear 16 (smear 8 (smear 4 (smear 2 (smear 1 (u32 i))))) in
       let j := u32 (j + 1) in
       if i <=? s32 j then s32 j else i.

Definition no_data (t : tagbstring) : bool := bool_decide (data t = None).
(** The guard most operations that write begin with. *)
Definition unwritable (t : tagbstring) : bool :=
  no_data t || (mlen t <? slen t) || (slen t <? 0) || (mlen t <=? 0).
(** ... and those that only read. *)
Definition unreadable (t : tagbstring) : bool := no_data t || (slen t <? 0).

(** The label [reallocStrategy]: the block and its size. *)
Definition reallocStrategy (p : ptr) (len olen : Z) : M (option (ptr * Z)) :=
  x ← realloc p len;
  match x with
  | Some x => mret (Some (x, len))
  | None =>
      x ← realloc p olen;
      mret (match x with Some x => Some (x, olen) | None => None end)
  end.

Definition balloc (b : bstring) (olen : Z) : M Z :=
  match b with
  | None => mret BSTR_ERR
  | Some b =>
      t ← hdr b;
      if unwritable t || (olen <=? 0) then mret BSTR_ERR
      else if olen <? mlen t then mret BSTR_OK
      else
        let len := snapUpSize olen in
        if len <=? mlen t then mret BSTR_OK
        else
          p ← get_data b;
          x ← (if s32 (7 * mlen t) <? s32 (8 * slen t) then reallocStrategy p len olen
               else x ← alloc len;
                    match x with
                    | None => reallocStrategy p len olen
                    | Some x =>
                        (if slen t =? 0 then mret tt else memcpy x 0 p 0 (slen t));;
                        free p;; mret (Some (x, len))
                    end);
          match x with
          | None => mret BSTR_ERR
          | Some (x, len) =>
              set_hdr b (Tag len (slen t) (Some x));; store x (slen t) 0;; mret BSTR_OK
          end
  end.

Definition ballocmin (b : bstring) (len : Z) : M Z :=
  match b with
  | None => mret BSTR_ERR
  | Some b =>
      t ← hdr b;
      if no_data t || (s32 (slen t + 1) <? 0) || (mlen t <=? 0) || (mlen t <? slen t)
         || (len <=? 0) then mret BSTR_ERR
      else
        let len := if len <? slen t + 1 then slen t + 1 else len in
        if len =? mlen t then mret BSTR_OK
        else
          p ← get_data b;
          s ← realloc p len;
          match s with
          | None => mret BSTR_ERR
          | Some s =>
              store s (slen t) 0;; set_hdr b (Tag len (slen t) (Some s));; mret BSTR_OK
          end
  end.

(** ** Creation and destruction *)

(** A header and its block; when there is no block the header is given back. *)
Definition new_bstring (m n : Z) : M (option (nat * ptr)) :=
  b ← alloc_hdr (Tag m n None);
  match b with
  | None => mret None
  | Some b =>
      x ← alloc m;
      match x with
      | None => free_hdr b;; mret None
      | Some x => set_hdr b (Tag m n (Some x));; mret (Some (b, x))
      end
  end.

(** [strlen (str)], and the size asked for it. *)
Definition cstr_size (j : Z) : Z := snapUpSize (s32 (j + (2 - (if j =? 0 then 0 else 1)))).

Definition bfromcstr (str : cstr) : M bstring :=
  match str with
  | None => mret None
  | Some str =>
      let j := Z.of_nat (length str) in
      let i := cstr_size j in
      if i <=? s32 j then mret None
      else
        b ← new_bstring i (s32 j);
        match b with
        | None => mret None
        | Some (b, x) => write x 0 (str ++ [0]);; mret (Some b)
        end
  end.

Definition bfromcstralloc (m : Z) (str : cstr) : M bstring :=
  match str with
  | None => mret None
  | Some str =>
      let j := Z.of_nat (length str) in
      let i := cstr_size j in
      if i <=? s32 j then mret None
      else
        b ← new_bstring (if i <? m then m else i) (s32 j);
        match b with
        | None => mret None
        | Some (b, x) => write x 0 (str ++ [0]);; mret (Some b)
        end
  end.

(** A [const void *]: an argument in memory of its own, or a place in a block. *)
Inductive source :=
| Arg (s : cstr)
| At (p : ptr) (i : Z).
Definition read_source (s : source) (n : Z) : M (list Z) :=
  match s with
  | Arg s => s ← lift (deref s); lift (if decide (0 ≤ n) then read_bytes s (Z.to_nat n) else Oops)
  | At p i => read p i n
  end.
Definition null_source (s : source) : bool := match s with Arg None => true | _ => false end.

Definition blk2bstr (blk : source) (len : Z) : M bstring :=
  if null_source blk || (len <? 0) then mret None
  else
    let i := snapUpSize (s32 (len + (2 - (if len =? 0 then 0 else 1)))) in
    b ← new_bstring i len;
    match b with
    | None => mret None
    | Some (b, x) =>
        (if 0 <? len then l ← read_source blk len; write x 0 l else mret tt);;
        store x len 0;; mret (Some b)
    end.

Definition bstrcpy (b : bstring) : M bstring :=
  match b with
  | None => mret None
  | Some b =>
      t ← hdr b;
      if unreadable t then mret None
      else
        b0 ← alloc_hdr (Tag 0 0 None);
        match b0 with
        | None => mret None
        | Some b0 =>
            let i := slen t in
            let j := snapUpSize (s32 (i + 1)) in
            x ← alloc j;
            x ← match x with
                | Some x => mret (Some (x, j))
                | None => x ← alloc (s32 (i + 1));
                          mret (match x with Some x => Some (x, s32 (i + 1)) | None => None end)
                end;
            match x with
            | None => free_hdr b0;; mret None
            | Some (x, j) =>
                set_hdr b0 (Tag j i (Some x));;
                p ← get_data b;
                (if i =? 0 then mret tt else memcpy x 0 p 0 i);;
                store x i 0;; mret (Some b0)
            end
        end
  end.

Definition bdestroy (b : bstring) : M Z :=
  match b with
  | None => mret BSTR_ERR
  | Some b =>
      t ← hdr b;
      if (slen t <? 0) || (mlen t <=? 0) || (mlen t <? slen t) || no_data t then mret BSTR_ERR
      else
        p ← get_data b; free p;; free_hdr b;; mret BSTR_OK
  end.

(** [bstr2cstr]: the new block holds the string and its NUL. *)
Definition bstr2cstr (b : bstring) (z : Z) : M (option ptr) :=
  match b with
  | None => mret None
  | Some b =>
      t ← hdr b;
      if unreadable t then mret None
      else
        let l := slen t in
        r ← alloc (s32 (l + 1));
        match r with
        | None => mret None
        | Some r =>
            p ← get_data b;
            s ← read p 0 l;
            write r 0 (map (λ c, if c =? 0 then z else c) s);;
            store r l 0;; mret (Some r)
        end
  end.

Definition bcstrfree (s : option ptr) : M Z :=
  match s with Some s => free s;; mret BSTR_OK | None => mret BSTR_ERR end.

(** ** Operations that write *)

(** The operations take a private copy of an argument that lies in the block they
    may replace. *)
Definition inside (p q : option ptr) (n : Z) : bool :=
  match p, q with
  | Some p, Some q => bool_decide (blk p = blk q) && (0 <=? off p - off q) && (off p - off q <? n)
  | _, _ => false
  end.
Definition release (aux b : nat) : M () :=
  if decide (aux = b) then mret tt else bdestroy (Some aux);; mret tt.
Definition copy_if (c : bool) (b : nat) : M bstring :=
  if c then bstrcpy (Some b) else mret (Some b).

(** [if (balloc (...) != BSTR_OK) {release; return BSTR_ERR;}], and what follows. *)
Definition reserve (b : nat) (len : Z) (aux b1 : nat) (k : M Z) : M Z :=
  r ← balloc (Some b) len;
  if r =? BSTR_OK then k else release aux b1;; mret BSTR_ERR.

Definition bconcat (b0 b1 : bstring) : M Z :=
  match b0, b1 with
  | Some b0, Some b1 =>
      t0 ← hdr b0; t1 ← hdr b1;
      if no_data t0 || no_data t1 then mret BSTR_ERR
      else
        let d := slen t0 in let len := slen t1 in
        if Z.lor (Z.lor (Z.lor d (s32 (mlen t0 - d))) len) (s32 (d + len)) <? 0
        then mret BSTR_ERR
        else
          let finish aux :=
            p ← get_data b0; q ← get_data aux;
            bBlockCopy p d q 0 len;;
            store p (d + len) 0;; set_slen b0 (d + len);;
            release aux b1;; mret BSTR_OK in
          if mlen t0 <=? s32 (d + len + 1) then
            aux ← copy_if (inside (data t1) (data t0) (mlen t0)) b1;
            match aux with
            | None => mret BSTR_ERR
            | Some aux => reserve b0 (s32 (d + len + 1)) aux b1 (finish aux)
            end
          else finish b1
  | _, _ => mret BSTR_ERR
  end.

Definition bconchar (b : bstring) (c : Z) : M Z :=
  match b with
  | None => mret BSTR_ERR
  | Some a =>
      t ← hdr a;
      let d := slen t in
      if Z.lor d (s32 (mlen t - d)) <? 0 then mret BSTR_ERR
      else
        r ← balloc b (s32 (d + 2));
        if r =? BSTR_OK then
          p ← get_data a;
          store p d (u8 c);; store p (d + 1) 0;; set_slen a (d + 1);; mret BSTR_OK
        else mret BSTR_ERR
  end.

Definition bcatblk (b : bstring) (s : source) (len : Z) : M Z :=
  match b with
  | None => mret BSTR_ERR
  | Some a =>
      t ← hdr a;
      if unwritable t || null_source s || (len <? 0) then mret BSTR_ERR
      else
        let nl := s32 (slen t + len) in
        if nl <? 0 then mret BSTR_ERR
        else
          r ← (if mlen t <=? nl then balloc b (s32 (nl + 1)) else mret BSTR_OK);
          if r <? 0 then mret BSTR_ERR
          else
            p ← get_data a;
            (if 0 <? len then l ← read_source s len; write p (slen t) l else mret tt);;
            set_slen a nl;; store p nl 0;; mret BSTR_OK
  end.

(** The loop that copies a C string, at most [n] bytes of it: where its NUL was
    met, if it was. *)
Fixpoint copy_cstr (n : nat) (p : ptr) (d : Z) (s : list Z) (i : Z) : M (option Z) :=
  match n with
  | O => mret None
  | S n =>
      let c := default 0 (s !! Z.to_nat i) in
      store p (d + i) c;;
      if c =? 0 then mret (Some i) else copy_cstr n p d s (i + 1)
  end.

Definition bcatcstr (b : bstring) (s : cstr) : M Z :=
  match b, s with
  | Some a, Some s =>
      t ← hdr a;
      if unwritable t then mret BSTR_ERR
      else
        let l := mlen t - slen t in
        p ← get_data a;
        i ← copy_cstr (Z.to_nat l) p (slen t) s 0;
        match i with
        | Some i => set_slen a (slen t + i);; mret BSTR_OK
        | None =>
            set_slen a (slen t + l);;
            let s := drop (Z.to_nat l) s in
            bcatblk b (Arg (Some s)) (s32 (Z.of_nat (length s)))
        end
  | _, _ => mret BSTR_ERR
  end.

Definition bassign (a b : bstring) : M Z :=
  match b with
  | None => mret BSTR_ERR
  | Some b =>
      t ← hdr b;
      if unreadable t then mret BSTR_ERR
      else
        match a with
        | None => mret BSTR_ERR
        | Some a =>
            let finish :=
              p ← get_data a; store p (slen t) 0;; set_slen a (slen t);; mret BSTR_OK in
            if slen t =? 0 then
              ta ← hdr a;
              if no_data ta || (mlen ta <? slen ta) || (slen ta <? 0) || (mlen ta =? 0)
              then mret BSTR_ERR else finish
            else
              r ← balloc (Some a) (slen t);
              if r =? BSTR_OK then
                p ← get_data a; q ← get_data b;
                memmove p 0 q 0 (slen t);; finish
              else mret BSTR_ERR
        end
  end.

(** [lft] and [len] clamped to the ends of a string of [n] bytes. *)
Definition clamp (n lft len : Z) : Z * Z :=
  let '(lft, len) := if lft <? 0 then (0, s32 (len + lft)) else (lft, len) in
  (lft, if s32 (n - lft) <? len then s32 (n - lft) else len).

Definition bassignmidstr (a b : bstring) (lft len : Z) : M Z :=
  match b with
  | None => mret BSTR_ERR
  | Some b =>
      t ← hdr b;
      if unreadable t then mret BSTR_ERR
      else
        let '(lft, len) := clamp (slen t) lft len in
        match a with
        | None => mret BSTR_ERR
        | Some a =>
            ta ← hdr a;
            if no_data ta || (mlen ta <? slen ta) || (slen ta <? 0) || (mlen ta =? 0)
            then mret BSTR_ERR
            else
              let finish :=
                ta ← hdr a; p ← get_data a; store p (slen ta) 0;; mret BSTR_OK in
              if 0 <? len then
                r ← balloc (Some a) len;
                if r =? BSTR_OK then
                  p ← get_data a; q ← get_data b;
                  memmove p 0 q lft len;; set_slen a len;; finish
                else mret BSTR_ERR
              else set_slen a 0;; finish
        end
  end.

Definition bassigncstr (a : bstring) (s : cstr) : M Z :=
  match a, s with
  | Some b, Some s =>
      t ← hdr b;
      if no_data t || (mlen t <? slen t) || (slen t <? 0) || (mlen t =? 0) then mret BSTR_ERR
      else
        p ← get_data b;
        i ← copy_cstr (Z.to_nat (mlen t)) p 0 s 0;
        match i with
        | Some i => set_slen b i;; mret BSTR_OK
        | None =>
            let i := mlen t in
            set_slen b i;;
            let s := drop (Z.to_nat i) s in
            let len := Z.of_nat (length s) in
            if (INT_MAX <? len) || (INT_MAX <? i + len + 1) then mret BSTR_ERR
            else
              r ← balloc a (s32 (i + len + 1));
              if r <? 0 then mret BSTR_ERR
              else
                p ← get_data b;
                write p i (s ++ [0]);; set_slen b (i + len);; mret BSTR_OK
        end
  | _, _ => mret BSTR_ERR
  end.

Definition bassignblk (a : bstring) (s : source) (len : Z) : M Z :=
  match a with
  | None => mret BSTR_ERR
  | Some b =>
      t ← hdr b;
      if no_data t || (mlen t <? slen t) || (slen t <? 0) || (mlen t =? 0) || null_source s
         || (s32 (len + 1) <? 1) then mret BSTR_ERR
      else
        r ← (if mlen t <? len + 1 then balloc a (len + 1) else mret BSTR_OK);
        if r <? 0 then mret BSTR_ERR
        else
          p ← get_data b;
          (if 0 <? len then l ← read_source s len; write p 0 l else mret tt);;
          store p len 0;; set_slen b len;; mret BSTR_OK
  end.

Definition btrunc (b : bstring) (n : Z) : M Z :=
  match b with
  | None => mret BSTR_ERR
  | Some b =>
      t ← hdr b;
      if (n <? 0) || unwritable t then mret BSTR_ERR
      else if n <? slen t then
        p ← get_data b; set_slen b n;; store p n 0;; mret BSTR_OK
      else mret BSTR_OK
  end.

(** [toupper], [tolower], [isspace] of the C locale. *)
Definition upcase (c : Z) : Z := if (97 <=? c) && (c <=? 122) then c - 32 else c.
Definition downcase (c : Z) : Z := if (65 <=? c) && (c <=? 90) then c + 32 else c.
Definition wspace (c : Z) : bool := ((9 <=? c) && (c <=? 13)) || (c =? 32).

(** The loops of [btoupper] and [btolower]. *)
Definition map_bytes (f : Z → Z) (b : bstring) : M Z :=
  match b with
  | None => mret BSTR_ERR
  | Some b =>
      t ← hdr b;
      if unwritable t then mret BSTR_ERR
      else p ← get_data b; s ← read p 0 (slen t); write p 0 (map f s);; mret BSTR_OK
  end.
Definition btoupper : bstring → M Z := map_bytes upcase.
Definition btolower : bstring → M Z := map_bytes downcase.

Definition bdelete (b : bstring) (pos len : Z) : M Z :=
  let '(pos, len) := if pos <? 0 then (0, s32 (len + pos)) else (pos, len) in
  match b with
  | None => mret BSTR_ERR
  | Some b =>
      t ← hdr b;
      if (len <? 0) || unwritable t then mret BSTR_ERR
      else if (0 <? len) && (pos <? slen t) then
        p ← get_data b;
        (if slen t <=? s32 (pos + len) then set_slen b pos
         else bBlockCopy p pos p (pos + len) (s32 (slen t - s32 (pos + len)));;
              set_slen b (slen t - len));;
        t ← hdr b; store p (slen t) 0;; mret BSTR_OK
      else mret BSTR_OK
  end.

(** [for (j = 0; wspace (b->data[j]); j++) {}], and the loop from the other end. *)
Fixpoint skip_ws (n : nat) (l : list Z) (j : Z) : outcome Z :=
  match n with
  | O => Bug
  | S n => c ← at_ l j; if wspace c then skip_ws n l (j + 1) else Done j
  end.
Fixpoint last_black (n : nat) (l : list Z) : outcome Z :=
  match n with
  | O => Done (-1)
  | S i => c ← at_ l (Z.of_nat i); if wspace c then last_black i l else Done (Z.of_nat i)
  end.
Fixpoint first_black (n : nat) (l : list Z) (i : Z) : outcome (option Z) :=
  match n with
  | O => Done None
  | S n => c ← at_ l i; if wspace c then first_black n l (i + 1) else Done (Some i)
  end.

Definition blank (b : nat) : M Z := p ← get_data b; store p 0 0;; set_slen b 0;; mret BSTR_OK.

Definition bltrimws (b : bstring) : M Z :=
  match b with
  | None => mret BSTR_ERR
  | Some a =>
      t ← hdr a;
      if unwritable t then mret BSTR_ERR
      else
        l ← bytes t;
        i ← lift (first_black (Z.to_nat (slen t)) l 0);
        match i with Some i => bdelete b 0 i | None => blank a end
  end.

(** The body of the loop of [brtrimws] and [btrimws] that ends it. *)
Definition cut_after (a : nat) (t : tagbstring) (i : Z) : M () :=
  (if i <? mlen t then p ← get_data a; store p (i + 1) 0 else mret tt);; set_slen a (i + 1).

Definition brtrimws (b : bstring) : M Z :=
  match b with
  | None => mret BSTR_ERR
  | Some a =>
      t ← hdr a;
      if unwritable t then mret BSTR_ERR
      else
        l ← bytes t;
        i ← lift (last_black (Z.to_nat (slen t)) l);
        if i <? 0 then blank a else cut_after a t i;; mret BSTR_OK
  end.

Definition btrimws (b : bstring) : M Z :=
  match b with
  | None => mret BSTR_ERR
  | Some a =>
      t ← hdr a;
      if unwritable t then mret BSTR_ERR
      else
        l ← bytes t;
        i ← lift (last_black (Z.to_nat (slen t)) l);
        if i <? 0 then blank a
        else
          cut_after a t i;;
          l ← bytes t;
          j ← lift (skip_ws (length l) l 0);
          bdelete b 0 j
  end.

Definition bsetstr (b0 : bstring) (pos : Z) (b1 : bstring) (fill : Z) : M Z :=
  match b0 with
  | None => mret BSTR_ERR
  | Some b =>
      t ← hdr b;
      if (pos <? 0) || unwritable t then mret BSTR_ERR
      else
        let finish d (copy : ptr → M ()) :=
          p ← get_data b;
          t ← hdr b;
          newlen ← (if slen t <? pos then memset p (slen t) fill (pos - slen t);; mret pos
                    else mret (slen t));
          copy p;;
          let newlen := if newlen <? d then d else newlen in
          set_slen b newlen;; store p newlen 0;; mret BSTR_OK in
        match b1 with
        | None =>
            r ← balloc b0 (s32 (pos + 1));
            if r =? BSTR_OK then finish pos (λ _, mret tt) else mret BSTR_ERR
        | Some b1 =>
            t1 ← hdr b1;
            if unreadable t1 then mret BSTR_ERR
            else
              aux ← copy_if (inside (data t1) (data t) (mlen t)) b1;
              match aux with
              | None => mret BSTR_ERR
              | Some aux =>
                  ta ← hdr aux;
                  let d := s32 (pos + slen ta) in
                  reserve b (s32 (d + 1)) aux b1
                    (finish d (λ p, ta ← hdr aux; q ← get_data aux;
                                    bBlockCopy p pos q 0 (slen ta);; release aux b1))
              end
        end
  end.

(** [bBlockCopy (p + i, aux->data, aux->slen)], for an [aux] whose [data] may be NULL. *)
Definition copy_from (aux : nat) (p : ptr) (i : Z) : M () :=
  t ← hdr aux;
  if 0 <? slen t then q ← get_data aux; memmove p i q 0 (slen t) else mret tt.

Definition binsert (b1 : bstring) (pos : Z) (b2 : bstring) (fill : Z) : M Z :=
  match b1, b2 with
  | Some a, Some b2 =>
      t ← hdr a; t2 ← hdr b2;
      if (pos <? 0) || (slen t <? 0) || (slen t2 <? 0) || (mlen t <? slen t) || (mlen t <=? 0)
      then mret BSTR_ERR
      else
        aux ← copy_if (inside (data t2) (data t) (mlen t)) b2;
        match aux with
        | None => mret BSTR_ERR
        | Some aux =>
            ta ← hdr aux;
            let n := slen ta in
            let d := s32 (slen t + n) in
            let l := s32 (pos + n) in
            if Z.lor d l <? 0 then mret BSTR_ERR
            else
              let finish :=
                p ← get_data a; copy_from aux p pos;;
                t ← hdr a; store p (slen t) 0;;
                release aux b2;; mret BSTR_OK in
              if d <? l then
                reserve a (s32 (l + 1)) aux b2
                  (p ← get_data a;
                   memset p (slen t) fill (pos - slen t);; set_slen a l;; finish)
              else
                reserve a (s32 (d + 1)) aux b2
                  (p ← get_data a;
                   bBlockCopy p l p pos (d - l);; set_slen a d;; finish)
        end
  | _, _ => mret BSTR_ERR
  end.

Definition breplace (b1 : bstring) (pos len : Z) (b2 : bstring) (fill : Z) : M Z :=
  let pl := s32 (pos + len) in
  match b1, b2 with
  | Some a, Some c =>
      t ← hdr a; t2 ← hdr c;
      if (pos <? 0) || (len <? 0) || (pl <? 0) || unwritable t || unreadable t2
      then mret BSTR_ERR
      else if slen t <=? pl then
        ret ← bsetstr b1 pos b2 fill;
        if ret <? 0 then mret ret
        else
          t ← hdr a; t2 ← hdr c;
          (if s32 (pos + slen t2) <? slen t
           then set_slen a (s32 (pos + slen t2));; p ← get_data a; store p (s32 (pos + slen t2)) 0
           else mret tt);;
          mret ret
      else
        aux ← copy_if (inside (data t2) (data t) (slen t)) c;
        match aux with
        | None => mret BSTR_ERR
        | Some aux =>
            ta ← hdr aux;
            let n := slen ta in
            let finish :=
              p ← get_data a; q ← get_data aux;
              (if n =? len then mret tt
               else memmove p (pos + n) p (pos + len) (slen t - (pos + len)));;
              memcpy p pos q 0 n;;
              set_slen a (slen t + (n - len));;
              store p (slen t + (n - len)) 0;;
              release aux c;; mret BSTR_OK in
            if len <? n then reserve a (s32 (s32 (slen t + n) - len)) aux c finish else finish
        end
  | _, _ => mret BSTR_ERR
  end.

(** [for (i = d - 1; i >= l; i--) b->data[i] = b->data[i - len]]. *)
Fixpoint shift_up (n : nat) (p : ptr) (len i : Z) : M () :=
  match n with
  | O => mret tt
  | S n => l ← read p (i - len) 1; write p i l;; shift_up n p len (i - 1)
  end.

Definition binsertch (b : bstring) (pos len fill : Z) : M Z :=
  match b with
  | None => mret BSTR_ERR
  | Some a =>
      t ← hdr a;
      if (pos <? 0) || (slen t <? 0) || (mlen t <? slen t) || (mlen t <=? 0) || (len <? 0)
      then mret BSTR_ERR
      else
        let d := s32 (slen t + len) in
        let l := s32 (pos + len) in
        if Z.lor d l <? 0 then mret BSTR_ERR
        else
          let finish pos :=
            p ← get_data a;
            memset p pos fill (Z.max 0 (l - pos));;
            t ← hdr a; store p (slen t) 0;; mret BSTR_OK in
          if d <? l then
            r ← balloc b (s32 (l + 1));
            if r =? BSTR_OK then set_slen a l;; finish (slen t) else mret BSTR_ERR
          else
            r ← balloc b (s32 (d + 1));
            if r =? BSTR_OK then
              p ← get_data a;
              shift_up (Z.to_nat (d - l)) p len (d - 1);;
              set_slen a d;; finish pos
            else mret BSTR_ERR
  end.

(** [for (i = d; i < len; i++) b->data[i] = b->data[i - d]]. *)
Fixpoint repeat_bytes (n : nat) (p : ptr) (d i : Z) : M () :=
  match n with
  | O => mret tt
  | S n => l ← read p (i - d) 1; write p i l;; repeat_bytes n p d (i + 1)
  end.

Definition bpattern (b : bstring) (len : Z) : M Z :=
  match b with
  | None => mret BSTR_ERR
  | Some a =>
      t ← hdr a;
      (* blength *)
      let d := if slen t <? 0 then 0 else slen t in
      if (d <=? 0) || (len <? 0) then mret BSTR_ERR
      else
        r ← balloc b (s32 (len + 1));
        if r =? BSTR_OK then
          p ← get_data a;
          let finish := store p len 0;; set_slen a len;; mret BSTR_OK in
          if 0 <? len then
            if d =? 1 then l ← read p 0 1; bsetstr b len None (default 0 (head l))
            else repeat_bytes (Z.to_nat (len - d)) p d d;; finish
          else finish
        else mret BSTR_ERR
  end.

Definition bmidstr (b : bstring) (lft len : Z) : M bstring :=
  match b with
  | None => mret None
  | Some b =>
      t ← hdr b;
      if unreadable t then mret None
      else
        let '(lft, len) := clamp (slen t) lft len in
        if len <=? 0 then bfromcstr (Some [])
        else p ← get_data b; blk2bstr (At p lft) len
  end.

End Alloc.

(** Runs of the model. *)
Definition heap0 : heap := Heap ∅ ∅ 0.
Definition contents (b : nat) : M (list Z) :=
  t ← hdr b; p ← get_data b; read p 0 (slen t).

(** [binsert (b, 2, b, '.')] on "abc": the argument is copied first. *)
Example insert_itself :
  (b ← bfromcstr (Some [97; 98; 99]); r ← binsert b 2 b 46;
   s ← lift (deref b) ≫= contents; mret (r, s)) heap0
  ≫= (λ x, Done x.1) = Done (0, [97; 98; 97; 98; 99; 99]).
Proof. vm_compute. reflexivity. Qed.
