(* ===== verification/BstrMem.v ===== *)
(** The memory of the byte strings (Bstr): rules for the accesses, the state of a
    string whose block is its own, the sizes and the growth of a block. *)
From S2P Require Import Prelude Bstr.
#[local] Open Scope Z_scope.

(** ** Sizes *)

(** The bits of [j] are one from [m - k + 1] to [m] and zero above. *)
Definition top_ones (m k j : Z) : Prop :=
  ∀ n, 0 ≤ n → (m - k < n ≤ m → Z.testbit j n = true) ∧ (m < n → Z.testbit j n = false).

Lemma smear_top m k j : 0 < k → 0 ≤ m → top_ones m k j → top_ones m (2 * k) (smear k j).
Proof.
  intros Hk Hm H n Hn. unfold smear. rewrite Z.lor_spec, Z.shiftr_spec by lia. split; intros Hb.
  - destruct (decide (m - k < n)).
    + by rewrite (proj1 (H n Hn)) by lia.
    + rewrite (proj1 (H (n + k) ltac:(lia))) by lia. by rewrite orb_true_r.
  - rewrite (proj2 (H n Hn)), (proj2 (H (n + k) ltac:(lia))) by lia. done.
Qed.

Lemma top_ones_log2 i : 0 < i → top_ones (Z.log2 i) 1 i.
Proof.
  intros Hi n Hn. split; intros.
  - replace n with (Z.log2 i) by lia. by apply Z.bit_log2.
  - by apply Z.bits_above_log2; lia.
Qed.

Lemma top_ones_all m k j : 0 ≤ m < k → top_ones m k j → j = Z.ones (m + 1).
Proof.
  intros Hm H. apply Z.bits_inj'. intros n Hn.
  rewrite Z.testbit_ones_nonneg by lia. destruct (Z.ltb_spec n (m + 1)).
  - apply H; lia.
  - apply H; lia.
Qed.

(** The size is the least power of two above what is asked, and at least 8. *)
Lemma snapUpSize_pow2 i :
  8 ≤ i < 2 ^ 30 → snapUpSize i = 2 ^ (Z.log2 i + 1).
Proof.
  intros Hi. unfold snapUpSize. rewrite (proj2 (Z.ltb_ge i 8)), (u32_small i) by lia.
  pose proof (Z.log2_nonneg i) as Hl.
  assert (Z.log2 i < 30) by (apply Z.log2_lt_pow2; lia).
  assert (i < 2 ^ (Z.log2 i + 1)) by (apply Z.log2_lt_pow2; lia).
  assert (2 ^ (Z.log2 i + 1) ≤ 2 ^ 30) by (apply Z.pow_le_mono_r; lia).
  rewrite (top_ones_all (Z.log2 i) 32 (smear 16 _)); [|lia|].
  - rewrite Z.ones_equiv.
    replace (Z.pred (2 ^ (Z.log2 i + 1)) + 1) with (2 ^ (Z.log2 i + 1)) by lia.
    rewrite u32_small, s32_small by lia. by rewrite (proj2 (Z.leb_le i _)) by lia.
  - apply (smear_top _ 16), (smear_top _ 8), (smear_top _ 4), (smear_top _ 2), (smear_top _ 1);
      try lia. apply top_ones_log2. lia.
Qed.

Lemma snapUpSize_ge i : i ≤ snapUpSize i.
Proof.
  unfold snapUpSize. destruct (Z.ltb_spec i 8); [lia|].
  cbv zeta. destruct (Z.leb_spec i (s32 (u32 (smear 16 (smear 8 (smear 4 (smear 2 (smear 1 (u32 i)))))+1)))); lia.
Qed.

Lemma snapUpSize_bound i : i ≤ INT_MAX → snapUpSize i ≤ INT_MAX.
Proof.
  intros Hi. unfold snapUpSize, INT_MAX in *. destruct (Z.ltb_spec i 8); [lia|]. cbv zeta.
  match goal with |- context [s32 ?x] => pose proof (s32_range x) end.
  match goal with |- context [if ?c then _ else _] => destruct c end; lia.
Qed.

Lemma snapUpSize_gt i : i < 2 ^ 30 → i < snapUpSize i.
Proof.
  intros Hi. destruct (decide (i < 8)) as [?|?].
  - unfold snapUpSize. rewrite (proj2 (Z.ltb_lt _ _)) by done. lia.
  - rewrite snapUpSize_pow2 by lia. apply Z.log2_lt_pow2; lia.
Qed.
Lemma snapUpSize_pos i : 0 < snapUpSize i.
Proof.
  destruct (decide (i < 8)); [|pose proof (snapUpSize_ge i); lia].
  unfold snapUpSize. by rewrite (proj2 (Z.ltb_lt _ _)) by done.
Qed.

(** ** Weakest preconditions *)

(** [mwp m h Q]: [m] does not fault from [h], and [Q] holds of what it returns. *)
Definition mwp {A} (m : M A) (h : heap) (Q : A → heap → Prop) : Prop :=
  wp False (m h) (λ x, Q x.1 x.2).

Lemma mwp_ret {A} (a : A) h (Q : A → heap → Prop) : Q a h → mwp (mret a) h Q.
Proof. done. Qed.
Lemma mwp_bind {A B} (m : M A) (f : A → M B) h Q :
  mwp m h (λ a h, mwp (f a) h Q) → mwp (m ≫= f) h Q.
Proof. unfold mwp, mbind, M_bind. by destruct (m h) as [[]| |]. Qed.
Lemma mwp_bind_inv {A B} (m : M A) (f : A → M B) h Q :
  mwp (m ≫= f) h Q → mwp m h (λ a h, mwp (f a) h Q).
Proof. unfold mwp, mbind, M_bind. by destruct (m h) as [[]| |]. Qed.
Lemma mwp_mono {A} (m : M A) h (P Q : A → heap → Prop) :
  mwp m h P → (∀ a h, P a h → Q a h) → mwp m h Q.
Proof. unfold mwp. intros ? HPQ. eapply wp_mono; [|done]. intros []; apply HPQ. Qed.
Lemma mwp_lift {A} (o : outcome A) a h (Q : A → heap → Prop) :
  o = Done a → Q a h → mwp (lift o) h Q.
Proof. by intros ->. Qed.
Lemma mwp_done {A} (m : M A) h Q : mwp m h Q → ∃ a h', m h = Done (a, h') ∧ Q a h'.
Proof. unfold mwp. destruct (m h) as [[a h']| |]; simpl; [eauto|done|done]. Qed.

(** ** A string and the block it owns *)

(** The memory [h] where the header [a] is [t] and the block [k] holds [b]. *)
Definition upd (h : heap) (a : nat) (t : tagbstring) (k : nat) (b : list Z) : heap :=
  Heap (<[k := b]> (blocks h)) (<[a := t]> (strs h)) (fresh h).

Lemma upd_id h a t k b : strs h !! a = Some t → blocks h !! k = Some b → upd h a t k b = h.
Proof. intros. unfold upd. rewrite !insert_id by done. by destruct h. Qed.

Lemma upd_delete_id h a t k b :
  strs h !! a = Some t → blocks h !! k = Some b →
  upd (Heap (delete k (blocks h)) (strs h) (fresh h)) a t k b = h.
Proof. intros. unfold upd. cbn. rewrite insert_delete_eq, !insert_id by done. by destruct h. Qed.

Lemma mwp_hdr_eq h a t k b (Q : tagbstring → heap → Prop) :
  Q t (upd h a t k b) → mwp (hdr a) (upd h a t k b) Q.
Proof. intros. unfold mwp, hdr, lift. cbn. by rewrite lookup_insert_eq. Qed.
Lemma mwp_hdr_ne h a t k b c tc (Q : tagbstring → heap → Prop) :
  c ≠ a → strs h !! c = Some tc → Q tc (upd h a t k b) → mwp (hdr c) (upd h a t k b) Q.
Proof. intros ? Hc ?. unfold mwp, hdr, lift. cbn. by rewrite lookup_insert_ne, Hc. Qed.
Lemma mwp_hdr h c tc (Q : tagbstring → heap → Prop) :
  strs h !! c = Some tc → Q tc h → mwp (hdr c) h Q.
Proof. intros Hc ?. unfold mwp, hdr, lift. by rewrite Hc. Qed.

Lemma mwp_set_hdr h a t k b t' (Q : () → heap → Prop) :
  Q tt (upd h a t' k b) → mwp (set_hdr a t') (upd h a t k b) Q.
Proof. intros. unfold mwp, set_hdr. cbn. rewrite lookup_insert_eq. cbn. by rewrite insert_insert_eq. Qed.
Lemma mwp_set_slen h a t k b n (Q : () → heap → Prop) :
  Q tt (upd h a (Tag (mlen t) n (data t)) k b) → mwp (set_slen a n) (upd h a t k b) Q.
Proof. intros. apply mwp_bind, mwp_hdr_eq, mwp_set_hdr. done. Qed.
Lemma mwp_get_data h a t k b p (Q : ptr → heap → Prop) :
  data t = Some p → Q p (upd h a t k b) → mwp (get_data a) (upd h a t k b) Q.
Proof. intros Hp ?. apply mwp_bind, mwp_hdr_eq. unfold mwp. by rewrite Hp. Qed.
Lemma mwp_get_data_any h c tc p (Q : ptr → heap → Prop) :
  strs h !! c = Some tc → data tc = Some p → Q p h → mwp (get_data c) h Q.
Proof. intros Hc Hp ?. apply mwp_bind. eapply mwp_hdr; [done|]. unfold mwp. by rewrite Hp. Qed.

Lemma mwp_read_any h p i n bl (Q : list Z → heap → Prop) :
  blocks h !! blk p = Some bl → in_range (off p + i) n bl →
  Q (slice (Z.to_nat (off p + i)) (Z.to_nat n) bl) h → mwp (read p i n) h Q.
Proof.
  intros Hb Hr ?. apply mwp_bind. unfold mwp, block, lift. rewrite Hb. cbn.
  by rewrite decide_True.
Qed.
Lemma mwp_read h a t k b i n (Q : list Z → heap → Prop) :
  in_range i n b → Q (slice (Z.to_nat i) (Z.to_nat n) b) (upd h a t k b) →
  mwp (read (Ptr k 0) i n) (upd h a t k b) Q.
Proof.
  intros. apply (mwp_read_any _ _ _ _ b); [cbn; by rewrite lookup_insert_eq|done|done].
Qed.
Lemma mwp_write_any h p i l bl (Q : () → heap → Prop) :
  blocks h !! blk p = Some bl → in_range (off p + i) (Z.of_nat (length l)) bl →
  Q tt (Heap (<[blk p := write_at (Z.to_nat (off p + i)) l bl]> (blocks h)) (strs h) (fresh h)) →
  mwp (write p i l) h Q.
Proof. intros Hb Hr ?. unfold mwp, write. by rewrite Hb, decide_True. Qed.
Lemma mwp_write h a t k b i l (Q : () → heap → Prop) :
  in_range i (Z.of_nat (length l)) b → Q tt (upd h a t k (write_at (Z.to_nat i) l b)) →
  mwp (write (Ptr k 0) i l) (upd h a t k b) Q.
Proof.
  intros. unfold mwp, write. cbn. rewrite lookup_insert_eq. cbn. rewrite decide_True by done.
  cbn. by rewrite insert_insert_eq.
Qed.
Lemma mwp_store h a t k b i c (Q : () → heap → Prop) :
  0 ≤ i < Z.of_nat (length b) → Q tt (upd h a t k (write_at (Z.to_nat i) [c] b)) →
  mwp (store (Ptr k 0) i c) (upd h a t k b) Q.
Proof. intros. apply mwp_write; [unfold in_range; cbn; lia|done]. Qed.

(** What a write inside a block leaves. *)
Lemma write_at_in pos l (b : list Z) :
  (pos ≤ length b)%nat → write_at pos l b = take pos b ++ l ++ drop (pos + length l) b.
Proof. intros. unfold write_at. f_equal. apply take_app_le. done. Qed.
Lemma drop_write_at n i l (b : list Z) :
  (i + length l ≤ n)%nat → (i + length l ≤ length b)%nat → drop n (write_at i l b) = drop n b.
Proof.
  intros Hn Hl. rewrite write_at_in by lia. rewrite app_assoc, drop_app_ge by (rewrite length_app, length_take; lia).
  rewrite drop_drop, length_app, length_take. f_equal. lia.
Qed.
Lemma take_write_at n i l (b : list Z) :
  n = (i + length l)%nat → (n ≤ length b)%nat → take n (write_at i l b) = take i b ++ l.
Proof.
  intros -> Hl. rewrite write_at_in by lia. rewrite app_assoc. apply take_app_length'.
  rewrite length_app, length_take. lia.
Qed.
Lemma take_write_before n i l (b : list Z) : (n ≤ i ≤ length b)%nat → take n (write_at i l b) = take n b.
Proof. intros Hn. rewrite write_at_in by lia. rewrite take_app_le, take_take by (rewrite length_take; lia). f_equal. lia. Qed.
Lemma take_patch n i l (b : list Z) :
  (i + length l ≤ n ≤ length b)%nat →
  take n (write_at i l b) = take i (take n b) ++ l ++ drop (i + length l) (take n b).
Proof.
  intros Hn. rewrite write_at_in by lia. rewrite (app_assoc (take i b)), (app_assoc (take i (take n b))).
  assert (length (take i b ++ l) = i + length l)%nat as Hl by (rewrite length_app, length_take; lia).
  replace n with (length (take i b ++ l) + (n - (i + length l)))%nat at 1 by lia.
  rewrite take_app_add. f_equal; [f_equal; rewrite take_take; f_equal; lia|].
  rewrite skipn_firstn_comm. done.
Qed.

Lemma read_written pos l (b : list Z) :
  (pos + length l ≤ length b)%nat → slice pos (length l) (write_at pos l b) = l.
Proof.
  intros. rewrite <- (Nat.add_0_r pos) at 1. rewrite slice_write_at_in by lia.
  unfold slice. by rewrite drop_0, firstn_all.
Qed.

(** The header [t] describes the block [k], which starts with the bytes [s] and a
    NUL. *)
Record buffer (t : tagbstring) (k : nat) (b s : list Z) : Prop := {
  buf_data : data t = Some (Ptr k 0);
  buf_mlen : mlen t = Z.of_nat (length b);
  buf_slen : slen t = Z.of_nat (length s);
  buf_bytes : take (length s) b = s;
  buf_nul : b !! length s = Some 0;
  buf_max : mlen t ≤ INT_MAX }.

Lemma buffer_fits t k b s : buffer t k b s → (length s < length b)%nat.
Proof. intros []. by apply lookup_lt_is_Some_1. Qed.

(** The guards of the code let a buffer through. *)
Lemma buffer_writable t k b s : buffer t k b s → unwritable t = false ∧ unreadable t = false.
Proof.
  intros Hb. pose proof (buffer_fits _ _ _ _ Hb). destruct Hb as [Hd Hm Hs _ _ _].
  unfold unwritable, unreadable, no_data. rewrite Hd, Hm, Hs.
  rewrite bool_decide_eq_false_2 by done.
  rewrite !(proj2 (Z.ltb_ge _ _)), !(proj2 (Z.leb_gt _ _)) by lia. done.
Qed.

(** Writing the NUL. *)
Lemma buffer_close k b s :
  take (length s) b = s → (length s < length b)%nat → Z.of_nat (length b) ≤ INT_MAX →
  buffer (Tag (Z.of_nat (length b)) (Z.of_nat (length s)) (Some (Ptr k 0))) k
    (write_at (length s) [0] b) s.
Proof.
  intros Hs Hl Hm. split; cbn; try done.
  - rewrite length_write_at; [done|cbn; lia].
  - rewrite write_at_in by lia. rewrite take_app_le, take_take, Nat.min_id by (rewrite length_take; lia).
    done.
  - rewrite write_at_in by lia. rewrite lookup_app_r by (rewrite length_take; lia).
    by rewrite length_take, Nat.min_l, Nat.sub_diag by lia.
Qed.

(** ** The heap *)

(** The addresses in use were allocated. *)
Definition heap_ok (h : heap) : Prop :=
  (∀ k, is_Some (blocks h !! k) → (k < fresh h)%nat) ∧
  (∀ a, is_Some (strs h !! a) → (a < fresh h)%nat).

Lemma heap_ok_block h : heap_ok h → blocks h !! fresh h = None.
Proof. intros [H _]. apply eq_None_not_Some. intros Hs. specialize (H _ Hs). lia. Qed.
Lemma heap_ok_str h : heap_ok h → strs h !! fresh h = None.
Proof. intros [_ H]. apply eq_None_not_Some. intros Hs. specialize (H _ Hs). lia. Qed.
Lemma heap_ok_block_lt h k b : heap_ok h → blocks h !! k = Some b → (k < fresh h)%nat.
Proof. intros [H _] ?. apply H. eauto. Qed.
Lemma heap_ok_str_lt h a t : heap_ok h → strs h !! a = Some t → (a < fresh h)%nat.
Proof. intros [_ H] ?. apply H. eauto. Qed.
Lemma heap_ok_bump h f : heap_ok h → (fresh h ≤ f)%nat → heap_ok (Heap (blocks h) (strs h) f).
Proof. intros [H1 H2] Hf. split; intros x Hx; [apply H1 in Hx|apply H2 in Hx]; cbn; lia. Qed.

(** [h] where only [a] has changed: it holds [s], in its block [k] or in a new one,
    with a size that satisfies [P]. Nothing else is allocated or freed. *)
Definition rebuilt (h : heap) (a k : nat) (s : list Z) (P : Z → Prop) (h' : heap) : Prop :=
  ∃ t' k' b' f',
    h' = upd (Heap (delete k (blocks h)) (strs h) f') a t' k' b' ∧ buffer t' k' b' s ∧ P (mlen t') ∧
    (k' = k ∨ (fresh h ≤ k' < f')%nat) ∧ (fresh h ≤ f')%nat.

(** The same memory, after allocations that failed or were given back. *)
Definition same (h h' : heap) : Prop :=
  ∃ f', h' = Heap (blocks h) (strs h) f' ∧ (fresh h ≤ f')%nat.
Lemma same_refl h : same h h.
Proof. exists (fresh h). by destruct h. Qed.
Lemma same_trans h1 h2 h3 : same h1 h2 → same h2 h3 → same h1 h3.
Proof. intros (f&->&?) (g&->&?). exists g. cbn in *. split; [done|lia]. Qed.

(** A block that is kept. *)
Lemma rebuilt_here h a t k b s (P : Z → Prop) :
  buffer t k b s → P (mlen t) → rebuilt h a k s P (upd h a t k b).
Proof.
  intros Hb HP. exists t, k, b, (fresh h). split_and!; [|done|done|by left|done].
  unfold upd. cbn. by rewrite insert_delete_eq.
Qed.

Section Alloc.
Context `{AllocatorLaws}.

(** The allocator gives out nothing smaller once it has refused a block. *)
Definition thrifty : Prop := ∀ n, alloc_ok n = false → alloc_ok (S n) = false.

Lemma mwp_alloc h size (Q : option ptr → heap → Prop) :
  0 ≤ size →
  (alloc_ok (fresh h) = true →
   Q (Some (Ptr (fresh h) 0))
     (Heap (<[fresh h := junk (fresh h) (Z.to_nat size)]> (blocks h)) (strs h) (S (fresh h)))) →
  (alloc_ok (fresh h) = false → Q None (Heap (blocks h) (strs h) (S (fresh h)))) →
  mwp (alloc size) h Q.
Proof.
  intros Hs HT HF. unfold mwp, alloc. destruct (alloc_ok (fresh h)) eqn:E.
  - rewrite decide_True by done. by apply HT.
  - rewrite decide_False by (intros [_ ?]; done). by apply HF.
Qed.

Lemma mwp_free h k (Q : () → heap → Prop) :
  is_Some (blocks h !! k) → Q tt (Heap (delete k (blocks h)) (strs h) (fresh h)) →
  mwp (free (Ptr k 0)) h Q.
Proof. intros. unfold mwp, free. by rewrite decide_True. Qed.

(** [realloc] keeps what fits of the block. *)
Lemma mwp_realloc h k b size (Q : option ptr → heap → Prop) :
  blocks h !! k = Some b → Z.of_nat (length b) ≤ size →
  (∀ new, length (b ++ new) = Z.to_nat size → alloc_ok (fresh h) = true →
   Q (Some (Ptr (fresh h) 0))
     (Heap (<[fresh h := b ++ new]> (delete k (blocks h))) (strs h) (S (fresh h)))) →
  (alloc_ok (fresh h) = false → Q None (Heap (blocks h) (strs h) (S (fresh h)))) →
  mwp (realloc (Ptr k 0) size) h Q.
Proof.
  intros Hb Hs HT HF. unfold mwp, realloc. cbn. rewrite Hb, decide_True by done.
  destruct (alloc_ok (fresh h)) eqn:E.
  - rewrite decide_True by (split; [lia|done]). cbn.
    rewrite take_ge by (rewrite length_app, length_drop, junk_length; lia).
    apply HT; [|done]. rewrite length_app, length_drop, junk_length. lia.
  - rewrite decide_False by (intros [_ ?]; done). by apply HF.
Qed.

(** ** Growing a block *)

(** The bytes [s] now start the new block, of [m] bytes; or nothing changed. *)
Definition regrown (h : heap) (k : nat) (s : list Z) (len olen : Z) (x : option (ptr * Z))
    (h' : heap) : Prop :=
  match x with
  | None => same h h'
  | Some (x, m) => ∃ b' f',
      off x = 0 ∧ h' = Heap (<[blk x := b']> (delete k (blocks h))) (strs h) f' ∧
      take (length s) b' = s ∧ m = Z.of_nat (length b') ∧ olen ≤ m ≤ len ∧ (thrifty → m = len) ∧
      (fresh h ≤ blk x < f')%nat
  end.

Lemma regrown_same h h1 k s len olen x h' :
  same h h1 → regrown h1 k s len olen x h' → regrown h k s len olen x h'.
Proof.
  intros Hs. destruct x as [[x m]|]; cbn.
  - destruct Hs as (f&->&?). intros (b'&f'&?&->&?&?&?&?&?). cbn in *.
    exists b', f'. split_and!; try done; lia.
  - by apply same_trans.
Qed.

Lemma reallocStrategy_spec h k b s len olen :
  blocks h !! k = Some b → take (length s) b = s → (length s ≤ length b)%nat →
  Z.of_nat (length b) ≤ olen ≤ len →
  mwp (reallocStrategy (Ptr k 0) len olen) h (regrown h k s len olen).
Proof.
  intros Hb Hs Hl Ho. unfold reallocStrategy. apply mwp_bind.
  assert (Hgo : ∀ h1 m new, same h h1 → length (b ++ new) = Z.to_nat m → olen ≤ m ≤ len →
    (thrifty → m = len) → regrown h k s len olen (Some (Ptr (fresh h1) 0, m))
      (Heap (<[fresh h1 := b ++ new]> (delete k (blocks h1))) (strs h1) (S (fresh h1)))).
  { intros h1 m new (f&->&?) Hlen Hm Ht. exists (b ++ new), (S f). cbn.
    split_and!; try done; try lia. by rewrite take_app_le by done. }
  eapply mwp_realloc; [done|lia| |].
  - intros new Hlen _. apply mwp_ret, (Hgo h len new); [apply same_refl|done|lia|done].
  - intros Hno. apply mwp_bind.
    assert (same h (Heap (blocks h) (strs h) (S (fresh h)))) as Hsame.
    { eexists. split; [done|cbn; lia]. }
    eapply mwp_realloc; [done|lia| |].
    + intros new Hlen Hyes. apply mwp_ret, (Hgo _ olen new); [done|done|lia|].
      intros Ht. apply Ht in Hno. cbn in Hyes. congruence.
    + intros _. apply mwp_ret. cbn. eexists. split; [done|cbn; lia].
Qed.

(** The tight fallback of [balloc] gives a block of [olen] bytes; otherwise there is
    room for a NUL after [olen] bytes. *)
Definition roomy (olen m : Z) : Prop := olen ≤ m ∧ (thrifty → olen < 2 ^ 30 → olen < m).

(** A string without its NUL, while an operation fills it. *)
Record filled (t : tagbstring) (k : nat) (b s : list Z) : Prop := {
  fil_data : data t = Some (Ptr k 0);
  fil_mlen : mlen t = Z.of_nat (length b);
  fil_slen : slen t = Z.of_nat (length s);
  fil_bytes : take (length s) b = s;
  fil_max : mlen t ≤ INT_MAX;
  fil_pos : (0 < length b)%nat }.

Lemma buffer_filled t k b s : buffer t k b s → filled t k b s.
Proof. intros Hb. pose proof (buffer_fits _ _ _ _ Hb). destruct Hb. split; try done. lia. Qed.
Lemma filled_fits t k b s : filled t k b s → (length s ≤ length b)%nat.
Proof. intros [? ? ? Hb _ _]. rewrite <- Hb, length_take. lia. Qed.
Lemma filled_writable t k b s : filled t k b s → unwritable t = false.
Proof.
  intros Hb. pose proof (filled_fits _ _ _ _ Hb). destruct Hb as [Hd Hm Hs _ _ ?].
  unfold unwritable, no_data. rewrite Hd, Hm, Hs, bool_decide_eq_false_2 by done.
  rewrite !(proj2 (Z.ltb_ge _ _)), !(proj2 (Z.leb_gt _ _)) by lia. done.
Qed.

(** The copy to a block that was just allocated. *)
Lemma mwp_copy_new h k b s n (Q : () → heap → Prop) :
  blocks h !! k = Some b → k ≠ fresh h → take (length s) b = s → (length s ≤ length b)%nat →
  Z.of_nat (length s) ≤ n →
  (∀ b', take (length s) b' = s → n = Z.of_nat (length b') →
   Q tt (Heap (<[fresh h := b']> (blocks h)) (strs h) (S (fresh h)))) →
  mwp (if Z.of_nat (length s) =? 0 then mret tt
       else memcpy (Ptr (fresh h) 0) 0 (Ptr k 0) 0 (Z.of_nat (length s)))
    (Heap (<[fresh h := junk (fresh h) (Z.to_nat n)]> (blocks h)) (strs h) (S (fresh h))) Q.
Proof.
  intros Hk Hne Hs Hl Hn HQ. destruct (Z.eqb_spec (Z.of_nat (length s)) 0).
  - apply mwp_ret, HQ; [|rewrite junk_length; lia]. destruct s; [done|cbn in *; lia].
  - unfold memcpy. rewrite decide_False by (by intros [? _]). apply mwp_bind.
    eapply mwp_read_any; [cbn; by rewrite lookup_insert_ne|unfold in_range; cbn; lia|].
    cbn. rewrite Nat2Z.id. unfold slice. rewrite drop_0, Hs.
    eapply mwp_write_any; [cbn; by rewrite lookup_insert_eq|unfold in_range; cbn; rewrite junk_length; lia|].
    cbn. rewrite insert_insert_eq. apply HQ.
    + rewrite write_at_in by lia. rewrite take_0, app_nil_l. by apply take_app_length.
    + rewrite length_write_at; rewrite ?junk_length; lia.
Qed.

(** The branch of [balloc] that gets another block, then writes the NUL. *)
Lemma balloc_grow h a t k b s olen :
  strs h !! a = Some t → blocks h !! k = Some b → filled t k b s → heap_ok h → olen ≤ INT_MAX →
  Z.of_nat (length s) < olen → mlen t ≤ olen → mlen t < snapUpSize olen →
  mwp (balloc (Some a) olen) h (λ r h',
    (r = BSTR_OK ∧ 0 < olen ∧ rebuilt h a k s (roomy olen) h') ∨ (r = BSTR_ERR ∧ same h h')).
Proof.
  intros Ha Hk Hb Hh Ho Hso Hmo Hsn. pose proof (filled_fits _ _ _ _ Hb) as Hfit.
  unfold balloc. apply mwp_bind. eapply mwp_hdr; [done|]. rewrite (filled_writable _ _ _ _ Hb). cbn [orb].
  rewrite (proj2 (Z.leb_gt olen 0)), (proj2 (Z.ltb_ge _ _)), (proj2 (Z.leb_gt _ _)) by lia.
  pose proof (snapUpSize_bound olen Ho) as Hmax. pose proof (snapUpSize_ge olen) as Hge.
  set (len := snapUpSize olen) in *.
  assert (fresh h ≠ k) as Hne by (intros <-; by rewrite heap_ok_block in Hk).
  destruct Hb as [Hd Hm Hs Hbytes Hmlen Hpos].
  apply mwp_bind. eapply mwp_get_data_any; [done..|]. apply mwp_bind.
  apply (mwp_mono _ _ (regrown h k s len olen)).
  { destruct (_ <? _); [eapply reallocStrategy_spec; [done|done|lia|lia]|].
    apply mwp_bind, mwp_alloc; [lia| |]; intros _.
    - apply mwp_bind. rewrite Hs. eapply mwp_copy_new; [done..|lia|]. intros b' Hb' Hlen.
      apply mwp_bind, mwp_free; [cbn; rewrite lookup_insert_ne by done; eauto|]. apply mwp_ret.
      exists b', (S (fresh h)). cbn. split_and!; try done; try lia. by rewrite delete_insert_ne by done.
    - eapply mwp_mono; [eapply (reallocStrategy_spec (Heap _ _ _)); [done|done|lia|lia]|].
      intros x h'. apply regrown_same. eexists. split; [done|cbn; lia]. }
  intros [[x m]|] h'; cbn [regrown]; [|intros; apply mwp_ret; by right].
  intros (b'&f'&Hx&->&Hb'&->&Hm'&Hr&Hf'). destruct x as [x o]. cbn in Hx, Hf'. subst o. cbn [blk].
  rewrite <- (upd_id (Heap (<[x := b']> (delete k (blocks h))) (strs h) f') a t x b')
    by (cbn; by rewrite ?lookup_insert_eq).
  unfold upd. cbn. rewrite insert_insert_eq.
  change (Heap _ _ _) with (upd (Heap (delete k (blocks h)) (strs h) f') a t x b').
  apply mwp_bind, mwp_set_hdr, mwp_bind, mwp_store; [lia|]. apply mwp_ret. left.
  split_and!; [done|lia|]. rewrite Hs, Nat2Z.id. eexists _, x, _, f'.
  split_and!; [done|by apply buffer_close; [|lia|lia]| |lia|lia].
  cbn. split; [lia|]. intros Ht Hlt'. rewrite Hr by done. by apply snapUpSize_gt.
Qed.

Lemma balloc_spec h a t k b s olen :
  strs h !! a = Some t → blocks h !! k = Some b → buffer t k b s → heap_ok h → olen ≤ INT_MAX →
  mwp (balloc (Some a) olen) h (λ r h',
    (r = BSTR_OK ∧ 0 < olen ∧ rebuilt h a k s (roomy olen) h') ∨ (r = BSTR_ERR ∧ same h h')).
Proof.
  intros Ha Hk Hb Hh Ho. pose proof (buffer_fits _ _ _ _ Hb) as Hfit.
  assert (Hkeep : ∀ P : Z → Prop, P (mlen t) → rebuilt h a k s P h).
  { intros P HP. rewrite <- (upd_id h a t k b Ha Hk) at 2. by apply rebuilt_here. }
  pose proof (buf_mlen _ _ _ _ Hb) as Hm. pose proof (snapUpSize_ge olen).
  destruct (decide (mlen t ≤ olen ∧ mlen t < snapUpSize olen)) as [[? ?]|Hno].
  { eapply balloc_grow; [done|done|by apply buffer_filled|done|done|lia|done|done]. }
  pose proof (buffer_writable _ _ _ _ Hb) as [Hw _].
  unfold balloc. apply mwp_bind. eapply mwp_hdr; [done|]. rewrite Hw. cbn [orb].
  destruct (Z.leb_spec olen 0); [apply mwp_ret; right; split; [done|apply same_refl]|].
  destruct (Z.ltb_spec olen (mlen t)).
  { apply mwp_ret. left. split_and!; [done|done|]. apply Hkeep. unfold roomy. lia. }
  rewrite (proj2 (Z.leb_le _ _)) by lia. apply mwp_ret. left. split_and!; [done|done|]. apply Hkeep.
  split; [lia|]. intros _ Hlt. pose proof (snapUpSize_gt olen Hlt). lia.
Qed.
End Alloc.
