(* ===== verification/BstrSpec.v ===== *)
(** The operations of bstrlib.c (Bstr) against operations on lists of bytes: what a
    string holds afterwards, with an argument that may lie in the block of the
    string itself, and with allocations that may fail. *)
From S2P Require Import Prelude Bstr BstrMem.
#[local] Open Scope Z_scope.

(** ** Arguments *)

Definition bytes_at (h : heap) (q : ptr) (s : list Z) : Prop :=
  ∃ b, blocks h !! blk q = Some b ∧ in_range (off q) (Z.of_nat (length s)) b ∧
    slice (Z.to_nat (off q)) (length s) b = s.

(** The header [c] can be read, and what it holds is [s]: a view of a block, maybe
    of one that another header owns. *)
Record readable (h : heap) (c : nat) (q : ptr) (s : list Z) : Prop := {
  rd_str : ∃ t, strs h !! c = Some t ∧ data t = Some q ∧ slen t = Z.of_nat (length s);
  rd_bytes : bytes_at h q s }.

Lemma buffer_readable h a t k b s :
  strs h !! a = Some t → blocks h !! k = Some b → buffer t k b s → readable h a (Ptr k 0) s.
Proof.
  intros Ha Hk Hb. pose proof (buffer_fits _ _ _ _ Hb). destruct Hb. split.
  - exists t. auto.
  - exists b. cbn. split_and!; [done|unfold in_range; lia|]. unfold slice. by rewrite drop_0.
Qed.

Lemma readable_guard t q (s : list Z) :
  data t = Some q → slen t = Z.of_nat (length s) → unreadable t = false.
Proof.
  intros Hd Hs. unfold unreadable, no_data. rewrite Hd, bool_decide_eq_false_2 by done.
  by rewrite (proj2 (Z.ltb_ge _ _)) by lia.
Qed.

Lemma mwp_read_bytes h q s (Q : list Z → heap → Prop) :
  bytes_at h q s → Q s h → mwp (read q 0 (Z.of_nat (length s))) h Q.
Proof.
  intros (b&Hb&Hr&Hs) ?. eapply mwp_read_any; [done|by rewrite Z.add_0_r|].
  by rewrite Z.add_0_r, Nat2Z.id, Hs.
Qed.

(** Copying the bytes into a block that is not theirs. *)
Lemma mwp_copy h x t k b q s i (Q : () → heap → Prop) :
  bytes_at h q s → blk q ≠ k → in_range i (Z.of_nat (length s)) b →
  Q tt (upd h x t k (write_at (Z.to_nat i) s b)) →
  mwp (memmove (Ptr k 0) i q 0 (Z.of_nat (length s))) (upd h x t k b) Q.
Proof.
  intros (bl&Hb&Hr&Hs) Hne ? ?. apply mwp_bind, mwp_read_bytes.
  - exists bl. cbn. by rewrite lookup_insert_ne.
  - by apply mwp_write.
Qed.

Lemma mwp_copy_start h x t k b q s (Q : () → heap → Prop) :
  bytes_at h q s → blk q ≠ k → (length s < length b)%nat →
  (∀ b', length b' = length b → take (length s) b' = s → Q tt (upd h x t k b')) →
  mwp (if Z.of_nat (length s) =? 0 then mret tt
       else memcpy (Ptr k 0) 0 q 0 (Z.of_nat (length s))) (upd h x t k b) Q.
Proof.
  intros Hb Hne Hl HQ. destruct (Z.eqb_spec (Z.of_nat (length s)) 0).
  - apply mwp_ret, HQ; [done|]. by destruct s.
  - unfold memcpy. rewrite decide_False by (by intros [? _]). apply mwp_copy; [done..| |].
    + unfold in_range. lia.
    + apply HQ; [apply length_write_at; cbn; lia|].
      rewrite write_at_in by lia. rewrite take_0, app_nil_l. by apply take_app_length.
Qed.

Lemma slice_zero {A} i n (l : list A) : n = 0%nat → slice i n l = [].
Proof. intros ->. apply take_0. Qed.

Lemma write_at_nil i (b : list Z) : (i ≤ length b)%nat → write_at i [] b = b.
Proof. intros. rewrite write_at_in by done. cbn. by rewrite Nat.add_0_r, take_drop. Qed.

(** Moving bytes within a block. *)
Lemma mwp_move h a t k b di si n (Q : () → heap → Prop) :
  0 ≤ n → 0 ≤ si → 0 ≤ di → si + n ≤ Z.of_nat (length b) → di + n ≤ Z.of_nat (length b) →
  Q tt (upd h a t k (write_at (Z.to_nat di) (slice (Z.to_nat si) (Z.to_nat n) b) b)) →
  mwp (memmove (Ptr k 0) di (Ptr k 0) si n) (upd h a t k b) Q.
Proof.
  intros. apply mwp_bind, mwp_read; [unfold in_range; lia|].
  apply mwp_write; [|done]. unfold in_range. rewrite slice_length by lia. lia.
Qed.
Lemma mwp_block_move h a t k b di si n (Q : () → heap → Prop) :
  0 ≤ n → 0 ≤ si → 0 ≤ di → si + n ≤ Z.of_nat (length b) → di + n ≤ Z.of_nat (length b) →
  Q tt (upd h a t k (write_at (Z.to_nat di) (slice (Z.to_nat si) (Z.to_nat n) b) b)) →
  mwp (bBlockCopy (Ptr k 0) di (Ptr k 0) si n) (upd h a t k b) Q.
Proof.
  intros Hn ???? HQ. unfold bBlockCopy. destruct (Z.ltb_spec 0 n); [by apply mwp_move|].
  apply mwp_ret. replace n with 0 in HQ by lia. unfold slice in HQ. rewrite take_0 in HQ.
  by rewrite write_at_nil in HQ by lia.
Qed.

(** The start of a block is written, then its NUL. *)
Lemma mwp_close h x t k b s (Q : () → heap → Prop) :
  take (length s) b = s → (length s < length b)%nat → mlen t = Z.of_nat (length b) →
  slen t = Z.of_nat (length s) → data t = Some (Ptr k 0) → mlen t ≤ INT_MAX →
  (∀ b', buffer t k b' s → Q tt (upd h x t k b')) →
  mwp (store (Ptr k 0) (Z.of_nat (length s)) 0) (upd h x t k b) Q.
Proof.
  intros Hb Hl Hm Hs Hd Hmax HQ. apply mwp_store; [lia|]. rewrite Nat2Z.id. apply HQ.
  destruct t. cbn in *. subst. by apply buffer_close.
Qed.

Ltac len := rewrite ?length_app, ?length_take, ?length_drop, ?length_replicate in *; lia.

Lemma s32_max z : s32 z ≤ INT_MAX.
Proof. pose proof (s32_range z). unfold INT_MAX. lia. Qed.

(** A sum that wrapped around is not asked for. *)
Lemma s32_succ z : 0 ≤ z ≤ INT_MAX → 0 < s32 (z + 1) → s32 (z + 1) = z + 1.
Proof.
  intros Hz Hs. destruct (decide (z = INT_MAX)) as [->|].
  - exfalso. revert Hs. vm_compute. discriminate.
  - apply s32_small. unfold INT_MAX in *. lia.
Qed.

Lemma s32_sum x y : 0 ≤ x ≤ INT_MAX → 0 ≤ y ≤ INT_MAX → 0 ≤ s32 (x + y) → s32 (x + y) = x + y.
Proof.
  intros Hx Hy Hs. unfold INT_MAX in *. destruct (decide (x + y < 2 ^ 31)); [by apply s32_small; lia|].
  exfalso. revert Hs. unfold s32.
  rewrite <- (Z_mod_plus_full _ (-1)), Z.mod_small by lia. lia.
Qed.
Lemma s32_sum_succ x y :
  0 ≤ x ≤ INT_MAX → 0 ≤ y ≤ INT_MAX → 0 < s32 (s32 (x + y) + 1) →
  s32 (x + y) = x + y ∧ s32 (s32 (x + y) + 1) = x + y + 1.
Proof.
  intros Hx Hy Hs. assert (0 ≤ s32 (x + y)) as Hn.
  { destruct (decide (0 ≤ s32 (x + y))); [done|]. exfalso.
    pose proof (s32_range (x + y)). rewrite s32_small in Hs by lia. lia. }
  pose proof (s32_sum x y Hx Hy Hn) as E. rewrite E in *. split; [done|].
  pose proof (s32_max (x + y)). apply s32_succ; [|done]. unfold INT_MAX in *. lia.
Qed.

Section Ops.
Context `{AllocatorLaws}.

(** ** Creation *)

(** A new header with a new block that holds [s]; or nothing. *)
Definition created (h : heap) (s : list Z) (r : option nat) (h' : heap) : Prop :=
  match r with
  | None => same h h'
  | Some x => ∃ t k b f',
      (fresh h ≤ x < f')%nat ∧ (fresh h ≤ k < f')%nat ∧ buffer t k b s ∧
      h' = upd (Heap (blocks h) (strs h) f') x t k b
  end.

Lemma alloc_hdr_spec h t :
  mwp (alloc_hdr t) h (λ r h', match r with
    | Some x => x = fresh h ∧ h' = Heap (blocks h) (<[x := t]> (strs h)) (S (fresh h))
    | None => same h h' end).
Proof.
  unfold mwp, alloc_hdr. destruct (alloc_ok (fresh h)); cbn; [done|].
  eexists. split; [done|cbn; lia].
Qed.

Lemma free_new_hdr h x t g (Q : () → heap → Prop) :
  heap_ok h → x = fresh h → blocks g = blocks h → strs g = <[x := t]> (strs h) →
  Q tt (Heap (blocks h) (strs h) (fresh g)) → mwp (free_hdr x) g Q.
Proof.
  intros Hh -> Hb Hs HQ. unfold mwp, free_hdr. rewrite Hs, lookup_insert_eq. cbn.
  by rewrite Hb, delete_insert_id by by apply heap_ok_str.
Qed.

(** A header and a block of [m] bytes, not yet written. *)
Definition unwritten (h : heap) (m n : Z) (r : option (nat * ptr)) (h' : heap) : Prop :=
  match r with
  | None => same h h'
  | Some (x, p) => ∃ k b f',
      (fresh h ≤ x < f')%nat ∧ (fresh h ≤ k < f')%nat ∧ p = Ptr k 0 ∧ Z.of_nat (length b) = m ∧
      h' = upd (Heap (blocks h) (strs h) f') x (Tag m n (Some p)) k b
  end.

Lemma new_bstring_spec h m n : heap_ok h → 0 ≤ m → mwp (new_bstring m n) h (unwritten h m n).
Proof.
  intros Hh Hm. unfold new_bstring. apply mwp_bind.
  eapply mwp_mono; [apply alloc_hdr_spec|]. intros [x|] h1; [|done]. intros [-> ->].
  apply mwp_bind, mwp_alloc; [done| |]; intros _.
  - apply mwp_bind. refine (mwp_set_hdr (Heap (blocks h) (strs h) (S (S (fresh h)))) (fresh h) (Tag m n None)
      (S (fresh h)) _ _ _ _).
    apply mwp_ret. exists (S (fresh h)). eexists _, (S (S (fresh h))).
    split_and!; [| | | |done| |done]; cbn; try lia. rewrite junk_length. lia.
  - apply mwp_bind. eapply (free_new_hdr h); [done..|]. apply mwp_ret.
    eexists. split; [done|cbn; lia].
Qed.

Lemma bstrcpy_spec h c q s :
  heap_ok h → readable h c q s → Z.of_nat (length s) < INT_MAX →
  mwp (bstrcpy (Some c)) h (created h s).
Proof.
  intros Hh [(t&Hc&Hd&Hsl) Hb] Hmax.
  assert ((c < fresh h)%nat) as Hcf by (by eapply heap_ok_str_lt).
  assert ((blk q < fresh h)%nat) as Hqf by (destruct Hb as (bl&?&_); by eapply heap_ok_block_lt).
  unfold bstrcpy. apply mwp_bind. eapply mwp_hdr; [done|].
  rewrite (readable_guard t q s) by done. apply mwp_bind.
  eapply mwp_mono; [apply alloc_hdr_spec|]. intros [x|] h1; [|done]. intros [-> ->].
  rewrite Hsl, s32_small by (unfold INT_MAX in Hmax; lia).
  pose proof (snapUpSize_ge (Z.of_nat (length s) + 1)).
  pose proof (snapUpSize_bound (Z.of_nat (length s) + 1) ltac:(lia)).
  set (j := snapUpSize _) in *.
  assert (Hgo : ∀ k j' bl f, (fresh h ≤ k < f)%nat → Z.of_nat (length bl) = j' →
    Z.of_nat (length s) < j' ≤ INT_MAX → (fresh h < f)%nat →
    mwp (set_hdr (fresh h) (Tag j' (Z.of_nat (length s)) (Some (Ptr k 0)));;
         p ← get_data c;
         (if Z.of_nat (length s) =? 0 then mret tt
          else memcpy (Ptr k 0) 0 p 0 (Z.of_nat (length s)));;
         store (Ptr k 0) (Z.of_nat (length s)) 0;; mret (Some (fresh h)))
      (upd (Heap (blocks h) (strs h) f) (fresh h) (Tag 0 0 None) k bl) (created h s)).
  { intros k j' bl f Hk <- Hj Hf. apply mwp_bind, mwp_set_hdr, mwp_bind.
    eapply mwp_get_data_any; [cbn; rewrite lookup_insert_ne; [done|lia]|done|].
    apply mwp_bind, mwp_copy_start; [done|lia|lia|]. intros b' Hl' Hs'.
    apply mwp_bind, mwp_close; [done|lia|cbn; lia|done|done|cbn; lia|]. intros b'' Hb''.
    apply mwp_ret. eexists _, k, b'', f. split_and!; [lia|lia|lia|lia|done|done]. }
  apply mwp_bind, mwp_alloc; [lia| |]; intros _; apply mwp_bind.
  - apply mwp_ret. refine (Hgo (S (fresh h)) j _ (S (S (fresh h))) _ _ _ _); [lia| |lia|lia].
    rewrite junk_length. lia.
  - apply mwp_bind, mwp_alloc; [lia| |]; intros _; apply mwp_ret.
    + refine (Hgo (S (S (fresh h))) (Z.of_nat (length s) + 1) _ (S (S (S (fresh h)))) _ _ _ _);
        [cbn; lia| |lia|lia]. rewrite junk_length. lia.
    + apply mwp_bind. eapply (free_new_hdr h); [done..|]. apply mwp_ret.
      eexists. split; [done|cbn; lia].
Qed.

(** ** The string that an operation writes, and its argument *)

(** The effect of an operation: it succeeds and the string holds [s'], or it fails
    and nothing has changed. *)
Definition effect (h : heap) (a k : nat) (s' : list Z) (r : Z) (h' : heap) : Prop :=
  (r = BSTR_OK ∧ rebuilt h a k s' (λ _, True) h') ∨ (r = BSTR_ERR ∧ same h h').

(** From [h], the string [a] now lies in the block [k'], and [x] is the argument [c]
    or a copy of it; [x] can still be read when [a] is written, and giving the copy
    back leaves no trace. *)
Record loan (h : heap) (a k c : nat) (s2 : list Z) (x : nat) (hf : heap) (k' : nat) : Prop := {
  loan_ne : x ≠ a;
  loan_str : ∃ t q, strs hf !! x = Some t ∧ data t = Some q ∧ slen t = Z.of_nat (length s2) ∧
    (s2 = [] ∨ blk q ≠ k' ∧ bytes_at hf q s2);
  loan_place : (k' = k ∨ fresh h ≤ k' < fresh hf)%nat ∧ (fresh h ≤ fresh hf)%nat;
  loan_end : ∀ t b (Q : () → heap → Prop),
    Q tt (upd (Heap (delete k (blocks h)) (strs h) (fresh hf)) a t k' b) →
    mwp (release x c) (upd hf a t k' b) Q }.

(** The end of an operation that succeeds. *)
Lemma effect_ok h a k c s2 x hf k' t b s' :
  loan h a k c s2 x hf k' → buffer t k' b s' →
  effect h a k s' BSTR_OK (upd (Heap (delete k (blocks h)) (strs h) (fresh hf)) a t k' b).
Proof.
  intros [_ _ [? ?] _] Hb. left. split; [done|]. exists t, k', b, (fresh hf). done.
Qed.

(** Writing the argument: its bytes lie in a block that is not written. *)
Definition apart (hf : heap) (k' : nat) (s2 : list Z) (q : ptr) : Prop :=
  s2 = [] ∨ blk q ≠ k' ∧ bytes_at hf q s2.

Lemma mwp_data_loan h a k c s2 x hf k' t b (Q : ptr → heap → Prop) :
  loan h a k c s2 x hf k' → (∀ q, apart hf k' s2 q → Q q (upd hf a t k' b)) →
  mwp (get_data x) (upd hf a t k' b) Q.
Proof.
  intros Hl HQ. destruct (loan_str _ _ _ _ _ _ _ _ Hl) as (tx&q&Hx&Hq&_&Hs2).
  eapply mwp_get_data_any; [|done|by apply HQ].
  cbn. rewrite lookup_insert_ne; [done|]. intros ->. by eapply loan_ne.
Qed.
Lemma mwp_copy_apart hf a k' s2 q t b i (Q : () → heap → Prop) :
  apart hf k' s2 q → 0 ≤ i → i + Z.of_nat (length s2) ≤ Z.of_nat (length b) →
  Q tt (upd hf a t k' (write_at (Z.to_nat i) s2 b)) →
  mwp (bBlockCopy (Ptr k' 0) i q 0 (Z.of_nat (length s2))) (upd hf a t k' b) Q.
Proof.
  intros Hs2 Hi Hfit HQ. unfold bBlockCopy. destruct (Z.ltb_spec 0 (Z.of_nat (length s2))).
  - destruct Hs2 as [->|[Hne Hb]]; [done|]. apply mwp_copy; [done..| |done].
    unfold in_range. lia.
  - apply mwp_ret. assert (s2 = []) as -> by (destruct s2; [done|cbn in *; lia]).
    cbn in HQ. by rewrite write_at_nil in HQ by lia.
Qed.
Lemma mwp_slen_loan h a k c s2 x hf k' t b (Q : tagbstring → heap → Prop) :
  loan h a k c s2 x hf k' →
  (∀ tx, slen tx = Z.of_nat (length s2) → Q tx (upd hf a t k' b)) →
  mwp (hdr x) (upd hf a t k' b) Q.
Proof.
  intros Hl HQ. destruct (loan_str _ _ _ _ _ _ _ _ Hl) as (tx&q&Hx&Hq&Hs&_).
  eapply mwp_hdr_ne; [by eapply loan_ne|done|]. by apply HQ.
Qed.

(** [bdestroy] on a string whose header and block are new. *)
Lemma destroy_new h x tx kx bx s2 a t k b f (Q : Z → heap → Prop) :
  heap_ok h → buffer tx kx bx s2 → (fresh h ≤ x)%nat → (fresh h ≤ kx)%nat → x ≠ a → kx ≠ k →
  Q BSTR_OK (upd (Heap (blocks h) (strs h) f) a t k b) →
  mwp (bdestroy (Some x)) (upd (upd (Heap (blocks h) (strs h) f) x tx kx bx) a t k b) Q.
Proof.
  intros Hh Hb Hx Hk Hxa Hkk HQ. pose proof (buffer_fits _ _ _ _ Hb).
  unfold bdestroy. apply mwp_bind. apply (mwp_hdr_ne _ _ _ _ _ x tx); [done|cbn; by rewrite lookup_insert_eq|].
  assert ((slen tx <? 0) || (mlen tx <=? 0) || (mlen tx <? slen tx) || no_data tx = false) as ->.
  { destruct Hb as [Hd Hm Hs _ _ _]. unfold no_data. rewrite Hd, Hm, Hs, bool_decide_eq_false_2 by done.
    rewrite !(proj2 (Z.ltb_ge _ _)), !(proj2 (Z.leb_gt _ _)) by lia. done. }
  apply mwp_bind. eapply mwp_get_data_any; [|by apply Hb|].
  { cbn. by rewrite lookup_insert_ne, lookup_insert_eq by done. }
  apply mwp_bind, mwp_free.
  { cbn. rewrite lookup_insert_ne, lookup_insert_eq by done. eauto. }
  apply mwp_bind. unfold mwp at 1, free_hdr. cbn. rewrite lookup_insert_ne, lookup_insert_eq by done. cbn.
  rewrite (delete_insert_ne _ kx k), (delete_insert_ne _ x a) by done.
  rewrite !delete_insert_id by (apply eq_None_not_Some; intros ?%Hh; lia). done.
Qed.

(** The string [a], which holds [s] in the block [k], and an argument [c] that holds
    [s2]; the operation looks for the argument in the first [n] bytes of the block. *)
Record setting (h : heap) (a : nat) (t : tagbstring) (k : nat) (b s : list Z)
    (c : nat) (q : ptr) (s2 : list Z) (n : Z) : Prop := {
  set_str : strs h !! a = Some t;
  set_block : blocks h !! k = Some b;
  set_buffer : buffer t k b s;
  set_heap : heap_ok h;
  set_arg : readable h c q s2;
  set_short : Z.of_nat (length s2) < INT_MAX;
  set_pos : 0 < n;
  set_in : blk q = k → off q + Z.of_nat (length s2) ≤ n }.

Section Writer.
Context (h : heap) (a : nat) (t : tagbstring) (k : nat) (b s : list Z).
Context (c : nat) (q : ptr) (s2 : list Z) (n : Z).
Hypothesis W : setting h a t k b s c q s2 n.

(** After [copy_if]. *)
Definition lent (x : nat) (h1 : heap) : Prop :=
  (x = c ∧ c ≠ a ∧ (s2 = [] ∨ blk q ≠ k) ∧ h1 = h) ∨ created h s2 (Some x) h1.

Lemma copy_if_spec :
  mwp (copy_if (inside (Some q) (data t) n) c) h (λ r h1,
    match r with None => same h h1 | Some x => lent x h1 end).
Proof.
  destruct W as [Ha Hk Hb Hh Hc Hmax Hn Hin].
  unfold copy_if. rewrite (buf_data _ _ _ _ Hb). cbn.
  destruct (bool_decide (blk q = k) && (0 <=? off q - 0) && (off q - 0 <? n)) eqn:E.
  - eapply mwp_mono; [by eapply bstrcpy_spec|]. intros [x|] h1; [|done]. intros. by right.
  - apply mwp_ret. left. rewrite !andb_false_iff, bool_decide_eq_false, Z.leb_gt, Z.ltb_ge in E.
    destruct (rd_bytes _ _ _ _ Hc) as (bl&_&[_ [? _]]&_).
    split_and!; [done| | |done].
    + intros ->. destruct (rd_str _ _ _ _ Hc) as (t'&Ht'&Hq&_).
      rewrite Ha in Ht'. injection Ht' as <-. rewrite (buf_data _ _ _ _ Hb) in Hq.
      injection Hq as <-. cbn in *. lia.
    + destruct (decide (blk q = k)) as [Hq|]; [|by right]. left. specialize (Hin Hq).
      destruct s2; [done|cbn in *; lia].
Qed.

Lemma lent_loan x h1 f' k' :
  lent x h1 → (fresh h1 ≤ f')%nat → (k' = k ∨ (fresh h1 ≤ k' < f')%nat) →
  loan h a k c s2 x (Heap (delete k (blocks h1)) (strs h1) f') k'.
Proof.
  destruct W as [Ha Hk Hb Hh Hc Hmax Hn Hin].
  assert ((a < fresh h)%nat ∧ (k < fresh h)%nat) as [? ?].
  { split; [by eapply heap_ok_str_lt|by eapply heap_ok_block_lt]. }
  intros [(->&Hca&Hs&->)|(tx&kx&bx&f&Hx&Hkx&Hbx&->)] Hf Hk'; cbn in *.
  - destruct Hc as [(tc&Htc&Hq&Hl) (bl&Hbl&Hr)].
    assert ((blk q < fresh h)%nat) by (by eapply heap_ok_block_lt).
    split; [done| | |]; cbn.
    + exists tc, q. split_and!; [done..|]. destruct Hs as [?|Hs]; [by left|].
      right. split; [lia|]. exists bl. cbn. rewrite lookup_delete_ne by done. done.
    + split; lia.
    + intros t' b' Q HQ. unfold release. rewrite decide_True by done. done.
  - assert ((c < fresh h)%nat) by (destruct (rd_str _ _ _ _ Hc) as (?&?&_); by eapply heap_ok_str_lt).
    split; [lia| | |]; cbn.
    + exists tx, (Ptr kx 0). rewrite lookup_insert_eq.
      split_and!; [done|by apply Hbx|by apply Hbx|]. right. cbn. split; [lia|].
      eapply (buffer_readable _ x); [|..|exact Hbx]; cbn; [by rewrite lookup_insert_eq|].
      by rewrite lookup_delete_ne, lookup_insert_eq by lia.
    + split; lia.
    + intros t' b' Q HQ. unfold release. rewrite decide_False by lia. apply mwp_bind.
      rewrite delete_insert_ne by lia.
      set (g := Heap (delete k (blocks h)) (strs h) (fresh h)).
      change (Heap (<[kx:=bx]> (delete k (blocks h))) (<[x:=tx]> (strs h)) f')
        with (upd (Heap (blocks g) (strs g) f') x tx kx bx).
      eapply mwp_mono; [eapply (destroy_new g x tx kx bx s2 a t' k' b' f'
        (λ _ h', h' = upd (Heap (blocks g) (strs g) f') a t' k' b')); try done; try (cbn; lia)|].
      2: { intros _ ? ->. by apply mwp_ret. }
      split; cbn; intros y; [|apply Hh]. intros [z [_ Hy]%lookup_delete_Some].
      by eapply heap_ok_block_lt.
Qed.

(** The string itself is where it was, and a copy that was not needed is given back. *)
Lemma lent_here x h1 : lent x h1 → strs h1 !! a = Some t ∧ blocks h1 !! k = Some b ∧ heap_ok h1.
Proof.
  destruct W as [Ha Hk Hb Hh Hc Hmax Hn Hin].
  assert ((a < fresh h)%nat ∧ (k < fresh h)%nat) as [? ?].
  { split; [by eapply heap_ok_str_lt|by eapply heap_ok_block_lt]. }
  intros [(_&_&_&->)|(tx&kx&bx&f&Hx&Hkx&Hbx&->)]; [done|]. cbn.
  rewrite !lookup_insert_ne by lia. split_and!; [done|done|].
  split; cbn; intros y [z [[<- _]|[_ Hz]]%lookup_insert_Some]; try lia;
    [assert (y < fresh h)%nat by (by eapply heap_ok_block_lt)
    |assert (y < fresh h)%nat by (by eapply heap_ok_str_lt)]; lia.
Qed.
Lemma lent_back x h1 h2 : lent x h1 → same h1 h2 → mwp (release x c) h2 (λ _ h', same h h').
Proof.
  destruct W as [Ha Hk Hb Hh Hc Hmax Hn Hin].
  intros Hx Hs. destruct (lent_here x h1 Hx) as (Ha1&Hk1&Hh1). destruct Hs as (f&->&Hf).
  assert (loan h a k c s2 x (Heap (delete k (blocks h1)) (strs h1) f) k) as Hl by (apply lent_loan; auto).
  rewrite <- (upd_id _ a t k b) by done.
  unfold upd. rewrite <- (insert_delete_eq (blocks _)).
  apply (loan_end _ _ _ _ _ _ _ _ Hl t b). cbn. unfold upd. cbn.
  rewrite insert_delete_eq, !insert_id by done. exists f. split; [done|].
  destruct (loan_place _ _ _ _ _ _ _ _ Hl). done.
Qed.

Lemma reserve_spec x h1 len (K : M Z) (Q : Z → heap → Prop) :
  lent x h1 → len ≤ INT_MAX →
  (∀ h', same h h' → Q BSTR_ERR h') →
  (∀ hf t' k' b', loan h a k c s2 x hf k' → buffer t' k' b' s → roomy len (mlen t') → 0 < len →
    mwp K (upd hf a t' k' b') Q) →
  mwp (reserve a len x c K) h1 Q.
Proof.
  destruct W as [Ha Hk Hb Hh Hc Hmax Hn Hin].
  intros Hx Hlen Herr Hok. unfold reserve. apply mwp_bind.
  destruct (lent_here x h1 Hx) as (Ha1&Hk1&Hh1).
  eapply mwp_mono; [by eapply balloc_spec|].
  intros r h' [(->&?&t'&k'&b'&f'&->&Hb'&Hr&Hk'&Hf')|(->&Hs)]; cbn.
  - apply (Hok (Heap (delete k (blocks h1)) (strs h1) f')); [by apply lent_loan|done..].
  - apply mwp_bind. eapply mwp_mono; [by eapply lent_back|]. intros ? ? ?. by apply mwp_ret, Herr.
Qed.
(** Its length. *)
Lemma lent_slen x h1 (Q : tagbstring → heap → Prop) :
  lent x h1 → (∀ tx, slen tx = Z.of_nat (length s2) → Q tx h1) → mwp (hdr x) h1 Q.
Proof.
  destruct W as [Ha Hk Hb Hh Hc Hmax Hn Hin].
  intros [(->&_&_&->)|(tx&kx&bx&f&Hx&Hkx&Hbx&->)] HQ.
  - destruct (rd_str _ _ _ _ Hc) as (tc&?&_&?). eapply mwp_hdr; [done|]. by apply HQ.
  - apply mwp_hdr_eq, HQ. by apply Hbx.
Qed.

(** The guards. *)
Lemma setting_guard :
  (slen t <? 0) || (slen t <? 0) || (mlen t <? slen t) || (mlen t <=? 0) = false.
Proof.
  pose proof (buffer_writable _ _ _ _ (set_buffer _ _ _ _ _ _ _ _ _ _ W)) as [Hw _].
  unfold unwritable in Hw. rewrite !orb_false_iff in *. tauto.
Qed.

End Writer.

(** ** Insertion, overwriting, replacement *)

(** [len] bytes at [pos] are replaced by [s2]; a gap before [pos] is filled. *)
Definition splice (pos len : nat) (s2 : list Z) (fill : Z) (s : list Z) : list Z :=
  take pos s ++ replicate (pos - length s) fill ++ s2 ++ drop (pos + len) s.

Lemma splice_length pos len s2 fill s :
  length (splice pos len s2 fill s) = (Nat.max pos (length s) + length s2 - Nat.min len (length s - pos))%nat.
Proof.
  unfold splice. rewrite !length_app, length_take, length_replicate, length_drop. lia.
Qed.

Definition raw (t : tagbstring) (k : nat) (b : list Z) : Prop :=
  data t = Some (Ptr k 0) ∧ mlen t = Z.of_nat (length b) ∧ mlen t ≤ INT_MAX.
Lemma buffer_raw t k b s : buffer t k b s → raw t k b.
Proof. by intros []. Qed.

(** The last steps: the NUL, and the argument is given back. *)
Lemma mwp_end h a k c s2 x hf k' t b s' :
  loan h a k c s2 x hf k' → raw t k' b → slen t = Z.of_nat (length s') →
  take (length s') b = s' → (length s' < length b)%nat →
  mwp (store (Ptr k' 0) (slen t) 0;; release x c;; mret BSTR_OK) (upd hf a t k' b)
    (effect h a k s').
Proof.
  intros Hl (Hd&Hm&Hmax) Hs Hb Hlt. rewrite Hs. apply mwp_bind, mwp_close; [done..|].
  intros b' Hb'. apply mwp_bind. apply (loan_end _ _ _ _ _ _ _ _ Hl). apply mwp_ret.
  by eapply effect_ok.
Qed.

(** The bytes after an insertion in the middle ... *)
Lemma take_insert p s2 s (b : list Z) :
  take (length s) b = s → (p ≤ length s)%nat → (length s + length s2 ≤ length b)%nat →
  take (length s + length s2)
    (write_at p s2 (write_at (p + length s2) (slice p (length s - p) b) b))
  = take p s ++ s2 ++ drop p s.
Proof.
  intros Hs Hp Hb.
  assert (slice p (length s - p) b = drop p s) as ->.
  { rewrite <- Hs at 2. unfold slice. rewrite skipn_firstn_comm. done. }
  assert (take p b = take p s) as Htp by (rewrite <- Hs, take_take; f_equal; lia).
  rewrite (write_at_in (p + _)) by lia. rewrite write_at_in by len.
  rewrite (take_app_le (take (p + _) b)), take_take, Nat.min_l, Htp by len.
  rewrite (drop_app_length' (take (p + _) b)) by len.
  rewrite !app_assoc. rewrite take_app_le by len. apply take_ge. len.
Qed.

(** ... and after the gap is filled. *)
Lemma take_pad p s2 fill s (b : list Z) :
  take (length s) b = s → (length s ≤ p)%nat → (p + length s2 ≤ length b)%nat →
  take (p + length s2) (write_at p s2 (write_at (length s) (replicate (p - length s) fill) b))
  = s ++ replicate (p - length s) fill ++ s2.
Proof.
  intros Hs Hp Hb.
  rewrite (write_at_in (length s)) by lia. rewrite Hs, length_replicate, write_at_in by len.
  rewrite (app_assoc s), (take_app_length' (s ++ _)) by len.
  by rewrite (app_assoc _ s2), take_app_length', app_assoc by len.
Qed.

Lemma mwp_copy_from h a k c s2 x hf k' t b i (Q : () → heap → Prop) :
  loan h a k c s2 x hf k' → (i + length s2 ≤ length b)%nat →
  Q tt (upd hf a t k' (write_at (Z.to_nat (Z.of_nat i)) s2 b)) →
  mwp (copy_from x (Ptr k' 0) (Z.of_nat i)) (upd hf a t k' b) Q.
Proof.
  intros Hl Hi HQ. unfold copy_from. apply mwp_bind. eapply mwp_slen_loan; [done|]. intros tx ->. destruct (Z.ltb_spec 0 (Z.of_nat (length s2))).
  - apply mwp_bind. eapply mwp_data_loan; [done|]. intros q Hq.
    assert (mwp (bBlockCopy (Ptr k' 0) (Z.of_nat i) q 0 (Z.of_nat (length s2))) (upd hf a t k' b) Q) as Hc
      by (apply mwp_copy_apart; [done|lia|lia|done]).
    unfold bBlockCopy in Hc. by rewrite (proj2 (Z.ltb_lt _ _)) in Hc by done.
  - apply mwp_ret. assert (s2 = []) as -> by (destruct s2; [done|cbn in *; lia]).
    by rewrite write_at_nil in HQ by lia.
Qed.

(** What follows the making of room. *)
Lemma mwp_place h a k c s2 x hf k' t b i s' :
  loan h a k c s2 x hf k' → raw t k' b → slen t = Z.of_nat (length s') →
  (i + length s2 ≤ length b)%nat → (length s' < length b)%nat →
  take (length s') (write_at i s2 b) = s' →
  mwp (p ← get_data a; copy_from x p (Z.of_nat i);;
       t ← hdr a; store p (slen t) 0;; release x c;; mret BSTR_OK)
    (upd hf a t k' b) (effect h a k s').
Proof.
  intros Hl (Hd&Hm&Hmax) Hs Hi Hlt Htake.
  apply mwp_bind. eapply mwp_get_data; [done|]. apply mwp_bind, (mwp_copy_from h a k c s2); [done|lia|].
  rewrite Nat2Z.id. assert (length (write_at i s2 b) = length b) as Hlen by (apply length_write_at; lia).
  apply mwp_bind, mwp_hdr_eq. eapply mwp_end; [done| |done|done|lia].
  unfold raw. rewrite Hlen. done.
Qed.

Lemma binsert_spec h a t k b s c q s2 pos fill :
  setting h a t k b s c q s2 (mlen t) → 0 ≤ pos →
  pos + Z.of_nat (length s2) ≤ INT_MAX → Z.of_nat (length s) + Z.of_nat (length s2) ≤ INT_MAX →
  mwp (binsert (Some a) pos (Some c) fill) h (effect h a k (splice (Z.to_nat pos) 0 s2 fill s)).
Proof.
  intros W Hpos Hl Hd. pose proof W as [Ha Hk Hb Hh Hc _ _ _].
  pose proof (buf_slen _ _ _ _ Hb) as Hs.
  destruct (rd_str _ _ _ _ Hc) as (tc&Htc&Hq&Hs2).
  unfold binsert. apply mwp_bind. eapply mwp_hdr; [done|]. apply mwp_bind. eapply mwp_hdr; [done|].
  rewrite Hs2, Hq, (proj2 (Z.ltb_ge pos 0)), (proj2 (Z.ltb_ge (Z.of_nat (length s2)) 0)) by lia.
  cbn [orb]. rewrite orb_false_r.
  pose proof (setting_guard _ _ _ _ _ _ _ _ _ _ W) as Hg.
  rewrite !orb_false_iff in Hg. destruct Hg as [[[_ ->] ->] ->]. cbn [orb].
  apply mwp_bind. eapply mwp_mono; [by eapply copy_if_spec|].
  intros [x|] h1; [|intros; apply mwp_ret; by right]. intros Hx.
  apply mwp_bind. eapply lent_slen; [done..|]. intros tx ->. rewrite Hs.
  unfold INT_MAX in Hl, Hd. rewrite !s32_small by lia.
  rewrite (proj2 (Z.ltb_ge _ 0)) by (apply Z.lor_nonneg; lia).
  destruct (Z.ltb_spec (Z.of_nat (length s) + Z.of_nat (length s2)) (pos + Z.of_nat (length s2))).
  - eapply reserve_spec; [done|done|apply s32_max|by right|].
    intros hf t' k' b' Hloan Hb' [Hr _] Hlen. pose proof (buffer_raw _ _ _ _ Hb') as (Hd'&Hm'&Hmax').
    rewrite s32_succ in Hr by (unfold INT_MAX; lia).
    apply mwp_bind. eapply mwp_get_data; [done|].
    apply mwp_bind, mwp_write; [unfold in_range; rewrite length_replicate; lia|].
    rewrite Nat2Z.id. apply mwp_bind, mwp_set_slen.
    replace pos with (Z.of_nat (Z.to_nat pos)) by lia. rewrite Nat2Z.id.
    replace (Z.to_nat (Z.of_nat (Z.to_nat pos) - Z.of_nat (length s)))
      with (Z.to_nat pos - length s)%nat by lia.
    set (p := Z.to_nat pos) in *. assert (length (splice p 0 s2 fill s) = p + length s2)%nat as Hsp.
    { rewrite splice_length. lia. }
    assert (length s + length (replicate (p - length s) fill) ≤ length b')%nat by len.
    eapply mwp_place; [done|split_and!; cbn; rewrite ?length_write_at by len; done|cbn; lia|rewrite length_write_at; lia|rewrite length_write_at; lia|].
    rewrite Hsp, take_pad by (try apply Hb'; lia). unfold splice.
    rewrite take_ge, drop_ge, app_nil_r by lia. done.
  - eapply reserve_spec; [done|done|apply s32_max|by right|].
    intros hf t' k' b' Hloan Hb' [Hr _] Hlen. pose proof (buffer_raw _ _ _ _ Hb') as (Hd'&Hm'&Hmax').
    rewrite s32_succ in Hr by (unfold INT_MAX; lia).
    apply mwp_bind. eapply mwp_get_data; [done|].
    apply mwp_bind, mwp_block_move; [lia..|]. apply mwp_bind, mwp_set_slen.
    set (p := Z.to_nat pos) in *.
    replace (Z.to_nat (pos + Z.of_nat (length s2))) with (p + length s2)%nat by lia.
    replace (Z.to_nat (Z.of_nat (length s) + Z.of_nat (length s2) - (pos + Z.of_nat (length s2))))
      with (length s - p)%nat by lia.
    replace pos with (Z.of_nat p) by lia.
    assert (length (splice p 0 s2 fill s) = length s + length s2)%nat as Hsp.
    { rewrite splice_length. lia. }
    assert (length (slice p (length s - p) b') = length s - p)%nat as Hsl by (apply slice_length; lia).
    eapply mwp_place; [done|split_and!; cbn; rewrite ?length_write_at by lia; done|cbn; lia|rewrite length_write_at; lia|rewrite length_write_at; lia|].
    rewrite Hsp, take_insert by (try apply Hb'; lia). unfold splice.
    rewrite Nat.add_0_r. by replace (p - length s)%nat with 0%nat by lia.
Qed.

(** The bytes after an overwriting. *)
Lemma take_overwrite p s2 s (b : list Z) :
  take (length s) b = s → (p ≤ length s)%nat → (p + length s2 ≤ length b)%nat →
  take (Nat.max (length s) (p + length s2)) (write_at p s2 b) = take p s ++ s2 ++ drop (p + length s2) s.
Proof.
  intros Hs Hp Hb.
  assert (take p b = take p s) as Htp by (rewrite <- Hs, take_take; f_equal; lia).
  rewrite write_at_in, Htp by lia. rewrite !firstn_app.
  rewrite (take_ge (take p s)), (take_ge s2) by len. do 2 f_equal.
  assert (drop (p + length s2) s = take (length s - (p + length s2)) (drop (p + length s2) b)) as ->.
  { rewrite <- Hs at 1. apply skipn_firstn_comm. }
  f_equal. len.
Qed.

(** ... with a gap that is filled. *)
Definition pad (p : nat) (fill : Z) (s b : list Z) : list Z :=
  write_at (length s) (replicate (p - length s) fill) b.

Lemma pad_length p fill s b :
  (Nat.max p (length s) ≤ length b)%nat → length (pad p fill s b) = length b.
Proof. intros. unfold pad. apply length_write_at. len. Qed.

Lemma take_splice p s2 fill s b :
  take (length s) b = s → (Nat.max (length s) (p + length s2) ≤ length b)%nat →
  take (Nat.max (length s) (p + length s2)) (write_at p s2 (pad p fill s b))
  = splice p (length s2) s2 fill s.
Proof.
  intros Hs Hb. unfold pad, splice. destruct (decide (length s < p)%nat).
  - rewrite Nat.max_r, take_pad by first [done|lia]. rewrite take_ge, drop_ge, app_nil_r by lia. done.
  - replace (p - length s)%nat with 0%nat by lia. cbn. rewrite write_at_nil by lia.
    apply take_overwrite; lia || done.
Qed.

(** The code of [bsetstr] that fills the gap. *)
Lemma mwp_pad hf a t k b s pos fill (Q : Z → heap → Prop) :
  buffer t k b s → 0 ≤ pos ≤ Z.of_nat (length b) →
  Q (Z.max (Z.of_nat (length s)) pos) (upd hf a t k (pad (Z.to_nat pos) fill s b)) →
  mwp (if slen t <? pos then memset (Ptr k 0) (slen t) fill (pos - slen t);; mret pos
       else mret (slen t)) (upd hf a t k b) Q.
Proof.
  intros Hb Hp HQ. pose proof (buffer_fits _ _ _ _ Hb). rewrite (buf_slen _ _ _ _ Hb).
  destruct (Z.ltb_spec (Z.of_nat (length s)) pos).
  - apply mwp_bind, mwp_write; [unfold in_range; len|]. apply mwp_ret.
    rewrite Z.max_r in HQ by lia. unfold pad in HQ. rewrite Nat2Z.id.
    by replace (Z.to_nat (pos - Z.of_nat (length s))) with (Z.to_nat pos - length s)%nat by lia.
  - apply mwp_ret. rewrite Z.max_l in HQ by lia. unfold pad in HQ.
    replace (Z.to_nat pos - length s)%nat with 0%nat in HQ by lia. cbn in HQ.
    by rewrite write_at_nil in HQ by lia.
Qed.

(** The length is set, then the NUL is written. *)
Lemma mwp_seal h a t k b s' (Q : Z → heap → Prop) :
  raw t k b → take (length s') b = s' → (length s' < length b)%nat →
  (∀ t' b', buffer t' k b' s' → Q BSTR_OK (upd h a t' k b')) →
  mwp (set_slen a (Z.of_nat (length s'));; store (Ptr k 0) (Z.of_nat (length s')) 0;; mret BSTR_OK)
    (upd h a t k b) Q.
Proof.
  intros (Hd&Hm&Hmax) Hs Hl HQ. apply mwp_bind, mwp_set_slen, mwp_bind, mwp_close; [done..|].
  intros b' Hb'. apply mwp_ret. by apply HQ.
Qed.

(** Without an argument: what follows the making of room. *)
Lemma mwp_null_end hf a t k b s pos fill (Q : Z → heap → Prop) :
  buffer t k b s → 0 ≤ pos < Z.of_nat (length b) →
  (∀ t' b', buffer t' k b' (splice (Z.to_nat pos) 0 [] fill s) → Q BSTR_OK (upd hf a t' k b')) →
  mwp (p ← get_data a; t ← hdr a;
       newlen ← (if slen t <? pos then memset p (slen t) fill (pos - slen t);; mret pos
                 else mret (slen t));
       mret tt;;
       let newlen := if newlen <? pos then pos else newlen in
       set_slen a newlen;; store p newlen 0;; mret BSTR_OK) (upd hf a t k b) Q.
Proof.
  intros Hb Hpos HQ. pose proof (buffer_raw _ _ _ _ Hb) as (Hd&Hm&Hmax).
  pose proof (buffer_fits _ _ _ _ Hb).
  apply mwp_bind. eapply mwp_get_data; [done|]. apply mwp_bind, mwp_hdr_eq.
  apply mwp_bind. eapply mwp_pad; [done|lia|]. apply mwp_bind, mwp_ret.
  assert ((if Z.max (Z.of_nat (length s)) pos <? pos then pos else Z.max (Z.of_nat (length s)) pos)
    = Z.of_nat (length (splice (Z.to_nat pos) 0 [] fill s))) as ->.
  { rewrite splice_length. destruct (Z.ltb_spec (Z.max (Z.of_nat (length s)) pos) pos); cbn; lia. }
  apply mwp_seal; [| | |done].
  - split_and!; [done| |done]. rewrite pad_length by lia. done.
  - rewrite splice_length. etransitivity; [|apply (take_splice (Z.to_nat pos) [] fill s b);
      [apply Hb|cbn; lia]].
    rewrite write_at_nil by (rewrite pad_length; lia). f_equal. cbn. lia.
  - rewrite splice_length, pad_length; cbn; lia.
Qed.

Lemma bsetstr_null_spec h a t k b s pos fill :
  strs h !! a = Some t → blocks h !! k = Some b → buffer t k b s → heap_ok h → 0 ≤ pos ≤ INT_MAX →
  mwp (bsetstr (Some a) pos None fill) h (effect h a k (splice (Z.to_nat pos) 0 [] fill s)).
Proof.
  intros Ha Hk Hb Hh Hpos. pose proof (buffer_writable _ _ _ _ Hb) as [Hw _].
  unfold bsetstr. apply mwp_bind. eapply mwp_hdr; [done|].
  rewrite (proj2 (Z.ltb_ge pos 0)), Hw by lia. cbn [orb].
  apply mwp_bind. eapply mwp_mono; [eapply balloc_spec; [done..|apply s32_max]|].
  intros r h' [(->&Hlen&t'&k'&b'&f'&->&Hb'&[Hr _]&Hk'&Hf')|(->&Hs)]; cbn [Z.eqb BSTR_OK BSTR_ERR];
    [|apply mwp_ret; by right].
  rewrite s32_succ in Hr by lia. pose proof (buf_mlen _ _ _ _ Hb').
  eapply mwp_null_end; [done|lia|].
  intros t2 b2 Hb2. left. split; [done|]. eexists t2, k', b2, f'. done.
Qed.

Lemma bsetstr_spec h a t k b s c q s2 pos fill :
  setting h a t k b s c q s2 (mlen t) → 0 ≤ pos ≤ INT_MAX →
  mwp (bsetstr (Some a) pos (Some c) fill) h
    (effect h a k (splice (Z.to_nat pos) (length s2) s2 fill s)).
Proof.
  intros W Hpos. pose proof W as [Ha Hk Hb Hh Hc Hshort _ _].
  pose proof (buffer_writable _ _ _ _ Hb) as [Hw _].
  destruct (rd_str _ _ _ _ Hc) as (tc&Htc&Hq&Hs2).
  unfold bsetstr. apply mwp_bind. eapply mwp_hdr; [done|].
  rewrite (proj2 (Z.ltb_ge pos 0)), Hw by lia. cbn [orb].
  apply mwp_bind. eapply mwp_hdr; [done|]. rewrite (readable_guard tc q s2), Hq by done.
  apply mwp_bind. eapply mwp_mono; [by eapply copy_if_spec|].
  intros [x|] h1; [|intros; apply mwp_ret; by right]. intros Hx.
  apply mwp_bind. eapply lent_slen; [done..|]. intros tx ->.
  eapply reserve_spec; [done|done|apply s32_max|by right|].
  intros hf t' k' b' Hloan Hb' [Hr _] Hlen. pose proof (buffer_raw _ _ _ _ Hb') as (Hd'&Hm'&Hmax').
  pose proof (buffer_fits _ _ _ _ Hb').
  destruct (s32_sum_succ pos (Z.of_nat (length s2))) as [Hsum Hsucc]; [lia|lia|done|].
  rewrite Hsucc in Hr. rewrite Hsum.
  apply mwp_bind. eapply mwp_get_data; [done|]. apply mwp_bind, mwp_hdr_eq.
  apply mwp_bind. eapply mwp_pad; [done|lia|].
  apply mwp_bind, mwp_bind. eapply mwp_slen_loan; [done|]. intros tx' ->.
  apply mwp_bind. eapply mwp_data_loan; [done|]. intros q' Hq'.
  apply mwp_bind, mwp_copy_apart; [done|lia|rewrite pad_length; lia|].
  apply (loan_end _ _ _ _ _ _ _ _ Hloan).
  set (p := Z.to_nat pos). set (m := Nat.max (length s) (p + length s2)).
  assert (length (splice p (length s2) s2 fill s) = m) as Hsp by (rewrite splice_length; lia).
  match goal with |- mwp (set_slen a ?n;; _) _ _ => replace n with (Z.of_nat m) end.
  2: { destruct (Z.ltb_spec (Z.max (Z.of_nat (length s)) pos) (pos + Z.of_nat (length s2))); lia. }
  assert (length (pad p fill s b') = length b') as Hpl by (apply pad_length; lia).
  rewrite <- Hsp. apply mwp_seal.
  - split_and!; [done| |done]. by rewrite length_write_at, Hpl by lia.
  - rewrite Hsp. apply take_splice; [apply Hb'|lia].
  - rewrite length_write_at, Hpl by lia. lia.
  - intros. by eapply effect_ok.
Qed.

(** The bytes after the tail has moved and the argument is in place. *)
Lemma take_replace p len s2 s (b : list Z) :
  take (length s) b = s → (p + len ≤ length s)%nat → (length s + length s2 ≤ length b + len)%nat →
  take (length s + length s2 - len)
    (write_at p s2 (write_at (p + length s2) (slice (p + len) (length s - (p + len)) b) b))
  = take p s ++ s2 ++ drop (p + len) s.
Proof.
  intros Hs Hp Hb.
  assert (slice (p + len) (length s - (p + len)) b = drop (p + len) s) as ->.
  { rewrite <- Hs at 2. unfold slice. by rewrite skipn_firstn_comm. }
  assert (length s ≤ length b)%nat by (rewrite <- Hs, length_take; lia).
  assert (take p b = take p s) as Htp by (rewrite <- Hs, take_take; f_equal; lia).
  rewrite (write_at_in (p + _)) by lia. rewrite write_at_in by len.
  rewrite (take_app_le (take (p + _) b)), take_take, Nat.min_l, Htp by len.
  rewrite (drop_app_length' (take (p + _) b)) by len.
  rewrite !app_assoc. rewrite take_app_le by len. apply take_ge. len.
Qed.

(** The argument can be copied with [memcpy] to a block of [n] bytes. *)
Definition copyable (hf : heap) (a k' x : nat) (s2 : list Z) (n : nat) : Prop :=
  ∃ q, (∀ t b (Q : ptr → heap → Prop), Q q (upd hf a t k' b) → mwp (get_data x) (upd hf a t k' b) Q) ∧
    (∀ t b i (Q : () → heap → Prop), length b = n → (i + length s2 ≤ n)%nat →
      Q tt (upd hf a t k' (write_at i s2 b)) →
      mwp (memcpy (Ptr k' 0) (Z.of_nat i) q 0 (Z.of_nat (length s2))) (upd hf a t k' b) Q).

Lemma loan_copyable h a k c s2 x hf k' n :
  loan h a k c s2 x hf k' → s2 ≠ [] → copyable hf a k' x s2 n.
Proof.
  intros [Hne (tx&q&Hx&Hq&_&[?|[Hb Hs]]) _ _] Hs2; [done|]. exists q. split.
  - intros. eapply mwp_get_data_any; [cbn; by rewrite lookup_insert_ne|done|done].
  - intros t b i Q <- Hi HQ. unfold memcpy. rewrite decide_False by (by intros [? _]).
    apply mwp_copy; [done..|unfold in_range; lia|]. by rewrite Nat2Z.id.
Qed.

Lemma lent_copyable h a t k b s c q s2 m x h1 :
  setting h a t k b s c q s2 m → lent h a k c q s2 x h1 →
  copyable (Heap (delete k (blocks h1)) (strs h1) (fresh h1)) a k x s2 (length b).
Proof.
  intros W Hx. destruct (decide (s2 = [])) as [->|]; [|by eapply loan_copyable; [eapply lent_loan|]; eauto].
  pose proof W as [Ha Hk _ Hh Hc _ _ _].
  assert (∃ q' bq, (∃ tx, strs h1 !! x = Some tx ∧ data tx = Some q') ∧ x ≠ a ∧
    blocks h1 !! blk q' = Some bq ∧ in_range (off q') 0 bq ∧ (blk q' = k → bq = b)) as (q'&bq&(tx&Hx1&Hq)&Hxa&Hbq&Hr&Hkq).
  { destruct Hx as [(->&Hca&_&->)|(tx&kx&bx&f&Hxf&Hkf&Hbx&->)].
    - destruct Hc as [(tc&?&?&_) (bl&?&?&_)]. exists q, bl. split_and!; eauto. congruence.
    - exists (Ptr kx 0), bx. cbn. rewrite !lookup_insert_eq.
      assert (a < fresh h)%nat by (by eapply heap_ok_str_lt).
      assert (k < fresh h)%nat by (by eapply heap_ok_block_lt).
      split_and!; [|lia|done|unfold in_range; lia|lia]. exists tx. split; [done|apply Hbx]. }
  exists q'. split.
  - intros. eapply mwp_get_data_any; [cbn; by rewrite lookup_insert_ne|done|done].
  - intros t' b' i Q Hl Hi HQ. cbn in HQ. rewrite write_at_nil in HQ by (cbn in *; lia).
    unfold memcpy. rewrite decide_False by (intros [_ ?]; cbn in *; lia). apply mwp_bind.
    destruct (decide (blk q' = k)) as [E|E].
    + rewrite (Hkq E) in *. destruct q' as [kq oq]. cbn in *. subst kq.
      eapply mwp_read_any; [cbn; by rewrite lookup_insert_eq|cbn; unfold in_range in *; lia|].
      rewrite slice_zero by done. apply mwp_write; [unfold in_range; cbn in *; lia|].
      by rewrite write_at_nil by (cbn in *; lia).
    + eapply mwp_read_any; [cbn; by rewrite lookup_insert_ne, lookup_delete_ne by done|by rewrite Z.add_0_r|].
      rewrite slice_zero by done. apply mwp_write; [unfold in_range; cbn in *; lia|].
      by rewrite write_at_nil by (cbn in *; lia).
Qed.

Lemma write_at_slice i m (b : list Z) :
  (i + m ≤ length b)%nat → write_at i (slice i m b) b = b.
Proof.
  intros. rewrite write_at_in by lia. rewrite slice_length by lia. unfold slice.
  by rewrite app_assoc, take_take_drop, take_drop.
Qed.

(** The last part of [breplace], once there is room. *)
Lemma replace_tail h a k c s2 x hf k' t b s pos len n fill :
  loan h a k c s2 x hf k' → copyable hf a k' x s2 (length b) → buffer t k' b s →
  0 ≤ pos → 0 ≤ len → pos + len < Z.of_nat (length s) →
  Z.of_nat (length s) + Z.of_nat (length s2) - len < Z.of_nat (length b) → n = Z.of_nat (length s2) →
  mwp (p ← get_data a; q ← get_data x;
       (if n =? len then mret tt
        else memmove p (pos + n) p (pos + len) (Z.of_nat (length s) - (pos + len)));;
       memcpy p pos q 0 n;;
       set_slen a (Z.of_nat (length s) + (n - len));;
       store p (Z.of_nat (length s) + (n - len)) 0;;
       release x c;; mret BSTR_OK)
    (upd hf a t k' b) (effect h a k (splice (Z.to_nat pos) (Z.to_nat len) s2 fill s)).
Proof.
  intros Hl (q&Hq&Hcopy) Hb Hpos Hlen Hin Hfit ->. pose proof (buffer_raw _ _ _ _ Hb) as (Hd&Hm&Hmax).
  pose proof (buffer_fits _ _ _ _ Hb).
  apply mwp_bind. eapply mwp_get_data; [done|]. apply mwp_bind, Hq.
  set (p := Z.to_nat pos). set (d := Z.to_nat len).
  set (b1 := write_at (p + length s2) (slice (p + d) (length s - (p + d)) b) b).
  assert (length (slice (p + d) (length s - (p + d)) b) = length s - (p + d))%nat as Hsl
    by (apply slice_length; lia).
  assert (length b1 = length b) as Hb1 by (apply length_write_at; lia).
  apply mwp_bind. apply (mwp_mono _ _ (λ _ h', h' = upd hf a t k' b1)).
  { destruct (Z.eqb_spec (Z.of_nat (length s2)) len) as [E|].
    - apply mwp_ret. unfold b1. replace (p + length s2)%nat with (p + d)%nat by lia.
      by rewrite write_at_slice by lia.
    - apply mwp_move; [lia..|]. unfold b1.
      by replace (Z.to_nat (pos + Z.of_nat (length s2))) with (p + length s2)%nat by lia;
        replace (Z.to_nat (pos + len)) with (p + d)%nat by lia;
        replace (Z.to_nat (Z.of_nat (length s) - (pos + len))) with (length s - (p + d))%nat by lia. }
  intros _ h' ->. apply mwp_bind. replace pos with (Z.of_nat p) by lia.
  apply Hcopy; [done|lia|].
  assert (length (splice p d s2 fill s) = length s + length s2 - d)%nat as Hsp
    by (rewrite splice_length; lia).
  replace (Z.of_nat (length s) + (Z.of_nat (length s2) - len))
    with (Z.of_nat (length (splice p d s2 fill s))) by lia.
  apply mwp_bind, mwp_set_slen, mwp_bind, mwp_close; cbn;
    rewrite ?length_write_at, ?Hb1 by lia; [|lia|done|done|done|done|].
  - rewrite Hsp. unfold b1. rewrite take_replace by (try apply Hb; lia).
    unfold splice. by replace (p - length s)%nat with 0%nat by lia.
  - intros b' Hb'. apply mwp_bind, (loan_end _ _ _ _ _ _ _ _ Hl), mwp_ret. by eapply effect_ok.
Qed.

Lemma breplace_inside h a t k b s c q s2 pos len fill :
  setting h a t k b s c q s2 (slen t) → thrifty →
  0 ≤ pos → 0 ≤ len → pos + len < Z.of_nat (length s) →
  Z.of_nat (length s) + Z.of_nat (length s2) < 2 ^ 30 →
  mwp (breplace (Some a) pos len (Some c) fill) h
    (effect h a k (splice (Z.to_nat pos) (Z.to_nat len) s2 fill s)).
Proof.
  intros W Ht Hpos Hlen Hin Hsmall. pose proof W as [Ha Hk Hb Hh Hc _ _ _].
  pose proof (buffer_writable _ _ _ _ Hb) as [Hw _]. pose proof (buffer_fits _ _ _ _ Hb).
  pose proof (buf_slen _ _ _ _ Hb) as Hs.
  destruct (rd_str _ _ _ _ Hc) as (tc&Htc&Hq&Hs2).
  unfold breplace. rewrite (s32_small (pos + len)) by lia.
  apply mwp_bind. eapply mwp_hdr; [done|]. apply mwp_bind. eapply mwp_hdr; [done|].
  rewrite !(proj2 (Z.ltb_ge _ 0)), Hw, (readable_guard tc q s2) by done || lia. cbn [orb].
  rewrite Hs, (proj2 (Z.leb_gt _ _)), Hq by lia.
  apply mwp_bind. rewrite <- Hs. eapply mwp_mono; [by eapply copy_if_spec|]. rewrite Hs.
  intros [x|] h1; [|intros; apply mwp_ret; by right]. intros Hx.
  apply mwp_bind. eapply lent_slen; [done..|]. intros tx ->.
  destruct (Z.ltb_spec len (Z.of_nat (length s2))).
  - eapply reserve_spec; [done|done|apply s32_max|by right|].
    intros hf t' k' b' Hloan Hb' [Hr Hroom] _. rewrite !s32_small in Hr, Hroom by (rewrite ?s32_small; lia).
    specialize (Hroom Ht ltac:(lia)). pose proof (buf_mlen _ _ _ _ Hb').
    apply replace_tail; try done; try lia. eapply loan_copyable; [done|]. intros ->. cbn in *. lia.
  - destruct (lent_here _ _ _ _ _ _ _ _ _ _ W x h1 Hx) as (Ha1&Hk1&_).
    rewrite <- (upd_delete_id h1 a t k b) by done.
    apply (replace_tail h a k c s2 x (Heap (delete k (blocks h1)) (strs h1) (fresh h1)) k t b);
      try done; try lia; [|by eapply lent_copyable].
    eapply lent_loan; [done..|lia|by left].
Qed.
End Ops.
