(* ===== verification/BstrOps.v ===== *)
(** More of bstrlib.c (Bstr): replacement, concatenation, assignment, deletion and
    trimming. The statements are those of BstrSpec. *)
From S2P Require Import Prelude Bstr BstrMem BstrSpec.
#[local] Open Scope Z_scope.

Section Ops.
Context `{AllocatorLaws}.

(** ** Replacement *)

Lemma take_splice_end p n len s2 fill s :
  length s2 = n → (length s ≤ p + len)%nat → (p + n ≤ length s)%nat →
  take (p + n) (splice p n s2 fill s) = splice p len s2 fill s.
Proof.
  intros <- Hlen Hn. unfold splice. rewrite (drop_ge s (p + len)), app_nil_r by lia.
  replace (p - length s)%nat with 0%nat by lia. cbn. rewrite app_assoc.
  apply take_app_length'. len.
Qed.

(** An argument that is the string itself holds what the string holds. *)
Lemma readable_self h a t k b s q s2 :
  strs h !! a = Some t → blocks h !! k = Some b → buffer t k b s → readable h a q s2 → s2 = s.
Proof.
  intros Ha Hk Hb [(t'&Ht'&Hq&Hs') (b'&Hb'&_&Hs2)]. rewrite Ha in Ht'. injection Ht' as <-.
  rewrite (buf_data _ _ _ _ Hb) in Hq. injection Hq as <-. cbn in *.
  rewrite Hk in Hb'. injection Hb' as <-. rewrite (buf_slen _ _ _ _ Hb) in Hs'.
  rewrite <- Hs2, <- (buf_bytes _ _ _ _ Hb). unfold slice. cbn. rewrite drop_0. f_equal. lia.
Qed.

Lemma breplace_end h a t k b s c q s2 pos len fill :
  setting h a t k b s c q s2 (mlen t) →
  0 ≤ pos < 2 ^ 29 → 0 ≤ len < 2 ^ 30 → Z.of_nat (length s) ≤ pos + len →
  Z.of_nat (length s) + Z.of_nat (length s2) < 2 ^ 30 →
  mwp (breplace (Some a) pos len (Some c) fill) h
    (effect h a k (splice (Z.to_nat pos) (Z.to_nat len) s2 fill s)).
Proof.
  intros W Hpos Hlen Hend Hsmall. pose proof W as [Ha Hk Hb Hh Hc _ _ _].
  pose proof (buffer_writable _ _ _ _ Hb) as [Hw _].
  destruct (rd_str _ _ _ _ Hc) as (tc&Htc&Hq&Hs2).
  unfold breplace. rewrite (s32_small (pos + len)) by lia.
  apply mwp_bind. eapply mwp_hdr; [done|]. apply mwp_bind. eapply mwp_hdr; [done|].
  rewrite !(proj2 (Z.ltb_ge _ 0)), Hw, (readable_guard tc q s2) by done || lia. cbn [orb].
  rewrite (buf_slen _ _ _ _ Hb), (proj2 (Z.leb_le _ _)) by lia.
  apply mwp_bind. eapply mwp_mono; [eapply bsetstr_spec; [done|unfold INT_MAX; lia]|].
  intros r h' [(->&t'&k'&b'&f'&->&Hb'&_&Hk'&Hf')|(->&Hs)]; cbn [Z.ltb Z.compare BSTR_OK BSTR_ERR];
    [|apply mwp_ret; by right].
  set (p := Z.to_nat pos) in *. set (s1 := splice p (length s2) s2 fill s) in *.
  assert (length s1 = Nat.max p (length s) + length s2 - Nat.min (length s2) (length s - p))%nat as Hs1
    by apply splice_length.
  apply mwp_bind, mwp_hdr_eq. rewrite (buf_slen _ _ _ _ Hb'). apply mwp_bind.
  apply (mwp_mono _ _ (λ tc' h', h' = upd (Heap (delete k (blocks h)) (strs h) f') a t' k' b' ∧
    (slen tc' = Z.of_nat (length s2) ∨ slen tc' = Z.of_nat (length s1) ∧ s2 = s))).
  { destruct (decide (c = a)) as [->|].
    - apply mwp_hdr_eq. split; [done|]. right.
      split; [by apply Hb'|]. exact (readable_self _ _ _ _ _ _ _ _ Ha Hk Hb Hc).
    - eapply mwp_hdr_ne; [done..|]. auto. }
  intros tc' ? [-> Hcase].
  assert (s32 (pos + slen tc') = pos + slen tc') as -> by (apply s32_small; destruct Hcase as [->|[-> ->]]; lia).
  destruct (Z.ltb_spec (pos + slen tc') (Z.of_nat (length s1))) as [Hlt|Hge].
  - destruct Hcase as [E|[E ->]]; [|lia]. rewrite E in *.
    assert (take (p + length s2) s1 = splice p (Z.to_nat len) s2 fill s) as Hcut
      by (apply take_splice_end; lia).
    pose proof (buffer_fits _ _ _ _ Hb'). apply mwp_bind, mwp_bind, mwp_set_slen, mwp_bind.
    eapply mwp_get_data; [by apply Hb'|].
    assert (pos + Z.of_nat (length s2) = Z.of_nat (length (splice p (Z.to_nat len) s2 fill s))) as ->
      by (rewrite <- Hcut, length_take; lia).
    assert (length (splice p (Z.to_nat len) s2 fill s) = p + length s2)%nat as Hl
      by (rewrite <- Hcut, length_take; lia).
    apply mwp_close; cbn; try done; try (by apply Hb').
    + rewrite <- Hcut, <- (buf_bytes _ _ _ _ Hb'), take_take. f_equal. rewrite length_take. lia.
    + lia.
    + intros b2 Hb2. apply mwp_ret. left. split; [done|]. eexists _, k', b2, f'. done.
  - apply mwp_bind, mwp_ret, mwp_ret. left. split; [done|].
    assert (splice p (Z.to_nat len) s2 fill s = s1) as ->.
    { unfold s1, splice. rewrite (drop_ge s (p + Z.to_nat len)), (drop_ge s (p + length s2)); [done| |lia].
      destruct Hcase as [E|[E ->]]; lia. }
    exists t', k', b', f'. done.
Qed.

(** ** Concatenation *)

Lemma take_concat s2 s (b : list Z) :
  take (length s) b = s → (length s + length s2 ≤ length b)%nat →
  take (length s + length s2) (write_at (length s) s2 b) = s ++ s2.
Proof.
  intros Hs Hb. rewrite write_at_in, Hs by lia. rewrite app_assoc.
  apply take_app_length'. len.
Qed.

(** The NUL is written, then the length is set. *)
Lemma mwp_seal_after h a t k b n s' (K : M Z) (Q : Z → heap → Prop) :
  raw t k b → n = Z.of_nat (length s') → take (length s') b = s' → (length s' < length b)%nat →
  (∀ t' b', buffer t' k b' s' → mwp K (upd h a t' k b') Q) →
  mwp (store (Ptr k 0) n 0;; set_slen a n;; K) (upd h a t k b) Q.
Proof.
  intros (Hd&Hm&Hmax) -> Hs Hl HQ. apply mwp_bind, mwp_store; [lia|]. rewrite Nat2Z.id.
  apply mwp_bind, mwp_set_slen, HQ. rewrite Hd, Hm. apply buffer_close; [done|done|lia].
Qed.

Lemma mwp_block_copy_any h a t k b q s2 i (Q : () → heap → Prop) :
  strs h !! a = Some t → blocks h !! k = Some b → bytes_at h q s2 →
  (i + length s2 ≤ length b)%nat → Q tt (upd h a t k (write_at i s2 b)) →
  mwp (bBlockCopy (Ptr k 0) (Z.of_nat i) q 0 (Z.of_nat (length s2))) h Q.
Proof.
  intros Ha Hk Hq Hi HQ. unfold bBlockCopy. destruct (Z.ltb_spec 0 (Z.of_nat (length s2))).
  - apply mwp_bind, mwp_read_bytes; [done|]. rewrite <- (upd_id h a t k b) by done.
    apply mwp_write; [unfold in_range; lia|]. by rewrite Nat2Z.id.
  - apply mwp_ret. assert (s2 = []) as -> by (destruct s2; [done|cbn in *; lia]).
    cbn in HQ. by rewrite write_at_nil, upd_id in HQ by (done || lia).
Qed.

(** An operation that cannot fail. *)
Definition succeeds (h : heap) (a k : nat) (s' : list Z) (r : Z) (h' : heap) : Prop :=
  r = BSTR_OK ∧ rebuilt h a k s' (λ _, True) h'.
Lemma succeeds_effect h a k s' r h' : succeeds h a k s' r h' → effect h a k s' r h'.
Proof. by left. Qed.
Lemma succeeds_here h a t k b s' : buffer t k b s' → succeeds h a k s' BSTR_OK (upd h a t k b).
Proof. intros. split; [done|]. by apply rebuilt_here. Qed.
Lemma succeeds_upd h a t k b s' r h' : succeeds (upd h a t k b) a k s' r h' → succeeds h a k s' r h'.
Proof.
  intros [-> (t'&k'&b'&f'&->&?&_&?&?)]. split; [done|]. exists t', k', b', f'. split_and!; [|done..].
  unfold upd. cbn. by rewrite delete_insert_eq, insert_insert_eq.
Qed.
Lemma effect_here h a t k b s' : buffer t k b s' → effect h a k s' BSTR_OK (upd h a t k b).
Proof. intros. by apply succeeds_effect, succeeds_here. Qed.

(** The argument may be the string itself, or lie in its block. *)
Lemma bconcat_spec h a t k b s c q s2 :
  setting h a t k b s c q s2 (mlen t) → Z.of_nat (length s) + Z.of_nat (length s2) < INT_MAX →
  mwp (bconcat (Some a) (Some c)) h (effect h a k (s ++ s2)).
Proof.
  intros W Hmax. pose proof W as [Ha Hk Hb Hh Hc _ _ _].
  destruct Hc as [(tc&Htc&Hq&Hs2) Hbytes]. pose proof (buffer_fits _ _ _ _ Hb).
  pose proof (buffer_raw _ _ _ _ Hb) as (Hd&Hm&Hmm). pose proof (buf_slen _ _ _ _ Hb) as Hs.
  unfold bconcat. apply mwp_bind. eapply mwp_hdr; [done|]. apply mwp_bind. eapply mwp_hdr; [done|].
  unfold no_data. rewrite Hd, Hq, !bool_decide_eq_false_2 by done. cbn [orb].
  rewrite Hs, Hs2. unfold INT_MAX in *. rewrite !s32_small by lia.
  rewrite (proj2 (Z.ltb_ge _ 0)) by (rewrite !Z.lor_nonneg; lia).
  destruct (Z.leb_spec (mlen t) (Z.of_nat (length s) + Z.of_nat (length s2) + 1)).
  - apply mwp_bind. rewrite <- Hd. eapply mwp_mono; [by eapply copy_if_spec|].
    intros [x|] h1; [|intros; apply mwp_ret; by right]. intros Hx.
    eapply reserve_spec; [done|done|unfold INT_MAX; lia|by right|].
    intros hf t' k' b' Hloan Hb' [Hr _] _. pose proof (buffer_raw _ _ _ _ Hb') as (Hd'&Hm'&Hmax').
    apply mwp_bind. eapply mwp_get_data; [done|]. apply mwp_bind. eapply mwp_data_loan; [done|].
    intros q' Hq'. apply mwp_bind, mwp_copy_apart; [done|lia|lia|]. rewrite Nat2Z.id.
    apply (mwp_seal_after _ _ _ _ _ _ (s ++ s2)); rewrite ?length_app, ?length_write_at by lia; try lia.
    + split_and!; [done| |done]. by rewrite length_write_at by lia.
    + apply take_concat; [apply Hb'|lia].
    + intros t2 b2 Hb2. apply mwp_bind, (loan_end _ _ _ _ _ _ _ _ Hloan), mwp_ret. by eapply effect_ok.
  - apply mwp_bind. eapply mwp_get_data_any; [done..|]. apply mwp_bind. eapply mwp_get_data_any; [done..|].
    apply mwp_bind. eapply mwp_block_copy_any; [exact Ha|done|done|lia|].
    apply (mwp_seal_after _ _ _ _ _ _ (s ++ s2)); rewrite ?length_app, ?length_write_at by lia; try lia.
    + split_and!; [done| |done]. by rewrite length_write_at by lia.
    + apply take_concat; [apply Hb|lia].
    + intros t2 b2 Hb2. apply mwp_bind. unfold release. rewrite decide_True by done.
      apply mwp_ret, mwp_ret. by apply effect_here.
Qed.

(** ** Operations without an argument in memory *)

Record owns (h : heap) (a : nat) (t : tagbstring) (k : nat) (b s : list Z) : Prop := {
  own_str : strs h !! a = Some t;
  own_block : blocks h !! k = Some b;
  own_buffer : buffer t k b s;
  own_heap : heap_ok h }.

(** A step that makes room: it fails without a trace, or goes on in a block that has
    [len] bytes. *)
Lemma grow_spec h a t k b s len (Q : Z → heap → Prop) (K : Z → M Z) :
  owns h a t k b s → len ≤ INT_MAX →
  (∀ h', same h h' → mwp (K BSTR_ERR) h' Q) →
  (∀ f t' k' b', (k' = k ∨ (fresh h ≤ k' < f)%nat) → (fresh h ≤ f)%nat → buffer t' k' b' s →
    roomy len (Z.of_nat (length b')) → 0 < len →
    mwp (K BSTR_OK) (upd (Heap (delete k (blocks h)) (strs h) f) a t' k' b') Q) →
  mwp (r ← balloc (Some a) len; K r) h Q.
Proof.
  intros [Ha Hk Hb Hh] Hlen Herr Hok. apply mwp_bind.
  eapply mwp_mono; [by eapply balloc_spec|].
  intros r h' [(->&?&t'&k'&b'&f'&->&Hb'&Hr&Hk'&Hf')|(->&Hs)]; [|by apply Herr].
  rewrite (buf_mlen _ _ _ _ Hb') in Hr. by apply Hok.
Qed.

Lemma effect_moved h a k t' k' b' s' f :
  (k' = k ∨ (fresh h ≤ k' < f)%nat) → (fresh h ≤ f)%nat → buffer t' k' b' s' →
  effect h a k s' BSTR_OK (upd (Heap (delete k (blocks h)) (strs h) f) a t' k' b').
Proof. intros. left. split; [done|]. by exists t', k', b', f. Qed.

Lemma bconchar_spec h a t k b s c :
  owns h a t k b s → Z.of_nat (length s) + 2 ≤ INT_MAX →
  mwp (bconchar (Some a) c) h (effect h a k (s ++ [u8 c])).
Proof.
  intros W Hmax. pose proof W as [Ha Hk Hb Hh]. pose proof (buf_slen _ _ _ _ Hb) as Hs.
  pose proof (buffer_fits _ _ _ _ Hb). pose proof (buffer_raw _ _ _ _ Hb) as (_&Hm&?).
  unfold bconchar. apply mwp_bind. eapply mwp_hdr; [done|]. rewrite Hs.
  unfold INT_MAX in *. rewrite !s32_small by lia.
  rewrite (proj2 (Z.ltb_ge _ 0)) by (rewrite Z.lor_nonneg; lia).
  eapply grow_spec; [done|unfold INT_MAX; lia| |].
  { intros h' Hsame. apply mwp_ret. by right. }
  intros f t' k' b' Hk' Hf Hb' [Hr _] _. pose proof (buffer_raw _ _ _ _ Hb') as (Hd'&Hm'&Hmax').
  cbn [Z.eqb BSTR_OK]. apply mwp_bind. eapply mwp_get_data; [done|].
  apply mwp_bind, mwp_store; [lia|]. rewrite Nat2Z.id.
  apply (mwp_seal_after _ _ _ _ _ _ (s ++ [u8 c])); rewrite ?length_app, ?length_write_at by (cbn; lia);
    cbn; try lia.
  - split_and!; [done| |done]. by rewrite length_write_at by (cbn; lia).
  - apply (take_concat [u8 c]); [apply Hb'|cbn; lia].
  - intros t2 b2 Hb2. apply mwp_ret. by apply effect_moved.
Qed.

Lemma bcatblk_spec h a t k b s l len :
  owns h a t k b s → 0 ≤ len → len ≤ Z.of_nat (length l) → len ≤ INT_MAX →
  mwp (bcatblk (Some a) (Arg (Some l)) len) h (effect h a k (s ++ take (Z.to_nat len) l)).
Proof.
  intros W Hlen Hl Hmax. pose proof W as [Ha Hk Hb Hh]. pose proof (buf_slen _ _ _ _ Hb) as Hs.
  pose proof (buffer_fits _ _ _ _ Hb). pose proof (buffer_raw _ _ _ _ Hb) as (Hd&Hm&?).
  pose proof (buffer_writable _ _ _ _ Hb) as [Hw _].
  set (s2 := take (Z.to_nat len) l). assert (Z.of_nat (length s2) = len) as Hs2 by (unfold s2; len).
  unfold bcatblk. apply mwp_bind. eapply mwp_hdr; [done|]. rewrite Hw, Hs.
  rewrite (proj2 (Z.ltb_ge len 0)) by done. cbn [orb null_source].
  destruct (Z.ltb_spec (s32 (Z.of_nat (length s) + len)) 0);
    [apply mwp_ret; right; split; [done|apply same_refl]|].
  pose proof (s32_max (Z.of_nat (length s) + len)).
  rewrite s32_sum in * by (try done; lia).
  assert (Hend : ∀ f t' k' b' n, (k' = k ∨ (fresh h ≤ k' < f)%nat) → (fresh h ≤ f)%nat →
    buffer t' k' b' s → Z.of_nat (length s) + len < Z.of_nat (length b') → n = Z.of_nat (length s) →
    mwp (p ← get_data a;
         (if 0 <? len then l ← read_source (Arg (Some l)) len; write p n l else mret tt);;
         set_slen a (n + len);; store p (n + len) 0;; mret BSTR_OK)
      (upd (Heap (delete k (blocks h)) (strs h) f) a t' k' b') (effect h a k (s ++ s2))).
  { intros f t' k' b' n Hk' Hf Hb' Hfit ->. pose proof (buffer_raw _ _ _ _ Hb') as (Hd'&Hm'&Hmax').
    apply mwp_bind. eapply mwp_get_data; [done|].
    apply mwp_bind. apply (mwp_mono _ _ (λ _ h', h' = upd (Heap (delete k (blocks h)) (strs h) f) a t' k'
      (write_at (length s) s2 b'))).
    { destruct (Z.ltb_spec 0 len).
      - apply mwp_bind, mwp_bind. eapply mwp_lift; [done|]. cbn. rewrite decide_True by done.
        eapply mwp_lift; [unfold read_bytes; rewrite decide_True by lia; done|].
        change (take (Z.to_nat len) l) with s2. apply mwp_write; [unfold in_range; lia|]. by rewrite Nat2Z.id.
      - apply mwp_ret. assert (s2 = []) as -> by (destruct s2; [done|cbn in *; lia]).
        by rewrite write_at_nil by lia. }
    intros _ ? ->. replace (Z.of_nat (length s) + len) with (Z.of_nat (length (s ++ s2))) by len.
    apply mwp_seal.
    - split_and!; [done| |done]. by rewrite length_write_at by lia.
    - rewrite length_app. apply take_concat; [apply Hb'|lia].
    - rewrite length_app, length_write_at by lia. lia.
    - intros t2 b2 Hb2. by apply effect_moved. }
  destruct (Z.leb_spec (mlen t) (Z.of_nat (length s) + len)).
  - eapply grow_spec; [done|apply s32_max| |].
    { intros h' Hsame. apply mwp_ret. by right. }
    intros f t' k' b' Hk' Hf Hb' [Hr _] Hpos. rewrite s32_succ in Hr by (try done; lia).
    apply Hend; try done. lia.
  - apply mwp_bind, mwp_ret. rewrite <- (upd_delete_id h a t k b) at 1 by done.
    apply (Hend (fresh h) t k b); try done; [by left|lia].
Qed.

Lemma btrunc_spec h a t k b s n :
  owns h a t k b s → 0 ≤ n →
  mwp (btrunc (Some a) n) h (succeeds h a k (take (Z.to_nat n) s)).
Proof.
  intros [Ha Hk Hb Hh] Hn. pose proof (buffer_writable _ _ _ _ Hb) as [Hw _].
  pose proof (buffer_fits _ _ _ _ Hb). pose proof (buf_slen _ _ _ _ Hb) as Hs.
  rewrite <- (upd_id h a t k b) at 1 by done.
  unfold btrunc. apply mwp_bind, mwp_hdr_eq. rewrite (proj2 (Z.ltb_ge n 0)), Hw by done. cbn [orb].
  destruct (Z.ltb_spec n (slen t)).
  - apply mwp_bind. eapply mwp_get_data; [by apply Hb|].
    remember (take (Z.to_nat n) s) as s' eqn:Es.
    assert (n = Z.of_nat (length s')) as -> by (subst s'; len). rewrite Nat2Z.id in Es.
    apply mwp_seal; [by eapply buffer_raw| |lia|intros; by apply succeeds_here].
    rewrite Es at 2. rewrite <- (buf_bytes _ _ _ _ Hb), take_take. f_equal. lia.
  - apply mwp_ret, succeeds_here. by rewrite take_ge by lia.
Qed.

(** The part that [bdelete] removes, and its clamping on the left. *)
Lemma bdelete_spec h a t k b s pos len :
  owns h a t k b s → 0 ≤ pos → 0 ≤ len → pos + len ≤ INT_MAX →
  mwp (bdelete (Some a) pos len) h
    (succeeds h a k (take (Z.to_nat pos) s ++ drop (Z.to_nat pos + Z.to_nat len) s)).
Proof.
  intros [Ha Hk Hb Hh] Hpos Hlen Hsum. pose proof (buffer_writable _ _ _ _ Hb) as [Hw _].
  pose proof (buffer_fits _ _ _ _ Hb). pose proof (buffer_raw _ _ _ _ Hb) as (Hd&Hm&?).
  pose proof (buf_slen _ _ _ _ Hb) as Hs. unfold INT_MAX in *.
  rewrite <- (upd_id h a t k b) at 1 by done.
  unfold bdelete. rewrite (proj2 (Z.ltb_ge pos 0)) by done. apply mwp_bind, mwp_hdr_eq.
  rewrite (proj2 (Z.ltb_ge len 0)), Hw, Hs, (s32_small (pos + len)) by lia. cbn [orb].
  set (p := Z.to_nat pos). set (d := Z.to_nat len).
  assert (Z.of_nat p = pos) by (unfold p; lia). assert (Z.of_nat d = len) by (unfold d; lia).
  destruct (Z.ltb_spec 0 len); cbn [andb].
  2: { apply mwp_ret, succeeds_here. replace d with 0%nat by lia. by rewrite Nat.add_0_r, take_drop. }
  destruct (Z.ltb_spec pos (Z.of_nat (length s))).
  2: { apply mwp_ret, succeeds_here. by rewrite take_ge, drop_ge, app_nil_r by lia. }
  set (s' := take p s ++ drop (p + d) s). apply mwp_bind. eapply mwp_get_data; [done|].
  apply mwp_bind. apply (mwp_mono _ _ (λ _ h', ∃ b', length b' = length b ∧ take (length s') b' = s' ∧
    h' = upd h a (Tag (mlen t) (Z.of_nat (length s')) (data t)) k b')).
  { destruct (Z.leb_spec (Z.of_nat (length s)) (pos + len)).
    - replace pos with (Z.of_nat (length s')) by (unfold s'; rewrite drop_ge, app_nil_r by lia; len).
      apply mwp_set_slen. exists b. split_and!; [done| |done].
      unfold s'. rewrite drop_ge, app_nil_r by lia. rewrite <- (buf_bytes _ _ _ _ Hb) at 2.
      rewrite take_take, length_take. f_equal.
    - rewrite s32_small by lia. apply mwp_bind, mwp_block_move; [lia..|].
      replace (Z.of_nat (length s) - len) with (Z.of_nat (length s')) by (unfold s'; len).
      apply mwp_set_slen. eexists. split_and!; [| |done].
      + apply length_write_at. rewrite slice_length by lia. lia.
      + replace (length s') with (length s - d)%nat
          by (unfold s'; rewrite length_app, length_take, length_drop; lia).
        replace (Z.to_nat (pos + len)) with (p + d)%nat by lia.
        replace (Z.to_nat (Z.of_nat (length s) - (pos + len))) with (length s - (p + d))%nat by lia.
        pose proof (take_replace p d [] s b (buf_bytes _ _ _ _ Hb) ltac:(lia)) as E.
        cbn [length] in E. rewrite !Nat.add_0_r in E. rewrite write_at_nil in E.
        * apply E. lia.
        * rewrite length_write_at by (rewrite slice_length by lia; lia). lia. }
  intros _ ? (b'&Hl&Hb'&->). apply mwp_bind, mwp_hdr_eq. cbn [slen].
  apply mwp_bind, mwp_close; cbn; try done; rewrite ?Hl; try done.
  - unfold s'. len.
  - intros b2 Hb2. apply mwp_ret. by apply succeeds_here.
Qed.

(** ** Creation *)

(** [len] bytes of [s] from [lft], clamped to its ends. *)
Definition middle (lft len : Z) (s : list Z) : list Z :=
  let '(l, n) := clamp (Z.of_nat (length s)) lft len in slice (Z.to_nat l) (Z.to_nat n) s.

Lemma clamp_spec n lft len l m :
  0 ≤ n ≤ INT_MAX → lft ≤ INT_MAX → clamp n lft len = (l, m) →
  0 ≤ l ∧ (0 < m → l + m ≤ n).
Proof.
  unfold clamp, INT_MAX. intros Hn Hl E.
  destruct (Z.ltb_spec lft 0); cbn in E.
  - rewrite Z.sub_0_r, (s32_small n) in E by lia.
    destruct (Z.ltb_spec n (s32 (len + lft))); injection E as <- <-; lia.
  - rewrite (s32_small (n - lft)) in E by lia.
    destruct (Z.ltb_spec (n - lft) len); injection E as <- <-; lia.
Qed.

(** A new string whose bytes are in place. *)
Lemma created_close h x k b f m l :
  (fresh h ≤ x < f)%nat → (fresh h ≤ k < f)%nat → m = Z.of_nat (length b) → m ≤ INT_MAX →
  (length l < length b)%nat → take (length l) b = l →
  mwp (store (Ptr k 0) (Z.of_nat (length l)) 0;; mret (Some x))
    (upd (Heap (blocks h) (strs h) f) x (Tag m (Z.of_nat (length l)) (Some (Ptr k 0))) k b)
    (created h l).
Proof.
  intros Hx Hk -> Hm Hl Hb. apply mwp_bind, mwp_close; cbn; try done.
  intros b' Hb'. by eexists _, k, b', f.
Qed.
Lemma created_fill h x k b f m l :
  (fresh h ≤ x < f)%nat → (fresh h ≤ k < f)%nat → m = Z.of_nat (length b) → m ≤ INT_MAX →
  (length l < length b)%nat →
  mwp (write (Ptr k 0) 0 l;; store (Ptr k 0) (Z.of_nat (length l)) 0;; mret (Some x))
    (upd (Heap (blocks h) (strs h) f) x (Tag m (Z.of_nat (length l)) (Some (Ptr k 0))) k b)
    (created h l).
Proof.
  intros Hx Hk -> Hm Hl. apply mwp_bind, mwp_write; [unfold in_range; lia|].
  apply created_close; rewrite ?length_write_at by (cbn; lia); try done.
  rewrite write_at_in by lia. rewrite take_0, app_nil_l. by apply take_app_length.
Qed.

Lemma cstr_size_spec j : 0 ≤ j → j + 1 < 2 ^ 30 → j < cstr_size j ≤ INT_MAX.
Proof.
  intros Hj Hlt. unfold cstr_size.
  set (i := j + (2 - (if j =? 0 then 0 else 1))).
  assert (j < i + 1 ∧ 0 ≤ i < 2 ^ 30) as [Hi ?] by (unfold i; destruct (Z.eqb_spec j 0); lia).
  rewrite s32_small by lia. pose proof (snapUpSize_gt i).
  pose proof (snapUpSize_bound i ltac:(unfold INT_MAX; lia)). lia.
Qed.

(** The same with the NUL of the source. *)
Lemma created_cstr h x k b f m l :
  (fresh h ≤ x < f)%nat → (fresh h ≤ k < f)%nat → m = Z.of_nat (length b) → m ≤ INT_MAX →
  (length l < length b)%nat →
  mwp (write (Ptr k 0) 0 (l ++ [0]);; mret (Some x))
    (upd (Heap (blocks h) (strs h) f) x (Tag m (Z.of_nat (length l)) (Some (Ptr k 0))) k b)
    (created h l).
Proof.
  intros Hx Hk -> Hm Hl. apply mwp_bind, mwp_write; [unfold in_range; rewrite length_app; cbn; lia|].
  apply mwp_ret. eexists _, k, _, f. split_and!; [lia|lia|lia|lia| |done].
  change (Z.to_nat (0 + 0)) with 0%nat. change (Z.to_nat 0) with 0%nat.
  replace (write_at 0 (l ++ [0]) b) with (write_at (length l) [0] (write_at 0 l b)).
  - rewrite <- (length_write_at 0 l b) by (cbn; lia). apply buffer_close.
    + rewrite write_at_in by lia. rewrite take_0, app_nil_l. by apply take_app_length.
    + rewrite length_write_at by (cbn; lia). done.
    + by rewrite length_write_at by (cbn; lia).
  - rewrite (write_at_in 0 l), (write_at_in 0 (l ++ [0])) by lia.
    rewrite !take_0, !app_nil_l, write_at_in by len.
    rewrite take_app_length, drop_app_add, drop_drop, length_app, <- app_assoc. done.
Qed.

Lemma bfromcstr_spec h l :
  heap_ok h → Z.of_nat (length l) + 1 < 2 ^ 30 → mwp (bfromcstr (Some l)) h (created h l).
Proof.
  intros Hh Hl. unfold bfromcstr.
  destruct (cstr_size_spec (Z.of_nat (length l))) as [Hlt Hmax]; [lia|lia|].
  rewrite s32_small, (proj2 (Z.leb_gt _ _)) by lia.
  apply mwp_bind. eapply mwp_mono; [apply new_bstring_spec; [done|lia]|].
  intros [[x p]|] h1; [|intros; by apply mwp_ret].
  intros (k&b&f&Hx&Hk&->&Hb&->). apply created_cstr; [done|done|done|lia|lia].
Qed.

(** Reading part of what an argument holds. *)
Lemma mwp_read_part h q s i n (Q : list Z → heap → Prop) :
  bytes_at h q s → 0 ≤ i → 0 ≤ n → i + n ≤ Z.of_nat (length s) →
  Q (slice (Z.to_nat i) (Z.to_nat n) s) h → mwp (read q i n) h Q.
Proof.
  intros (b&Hb&(_&Ho&Hr)&Hs) Hi Hn Hin HQ. eapply mwp_read_any; [done|unfold in_range; lia|].
  rewrite Z2Nat.inj_add, <- (slice_slice _ (length s)), Hs by lia. done.
Qed.

(** [blk2bstr] reads what its argument delivers in any memory that keeps the old one. *)
Lemma blk2bstr_spec h src l :
  heap_ok h → Z.of_nat (length l) + 1 < 2 ^ 30 → null_source src = false →
  (∀ f x k t b (Q : list Z → heap → Prop), (fresh h ≤ k)%nat →
    let h' := upd (Heap (blocks h) (strs h) f) x t k b in
    Q l h' → mwp (read_source src (Z.of_nat (length l))) h' Q) →
  mwp (blk2bstr src (Z.of_nat (length l))) h (created h l).
Proof.
  intros Hh Hl Hnull Hsrc. unfold blk2bstr. rewrite Hnull, (proj2 (Z.ltb_ge _ 0)) by lia. cbn [orb].
  fold (cstr_size (Z.of_nat (length l))).
  destruct (cstr_size_spec (Z.of_nat (length l))) as [Hlt Hmax]; [lia|lia|].
  apply mwp_bind. eapply mwp_mono; [apply new_bstring_spec; [done|lia]|].
  intros [[x p]|] h1; [|intros; by apply mwp_ret].
  intros (k&b&f&Hx&Hk&->&Hb&->).
  destruct (Z.ltb_spec 0 (Z.of_nat (length l))) as [Hpos|Hz].
  - apply mwp_bind, mwp_bind. apply Hsrc; [lia|]. apply mwp_bind_inv.
    apply created_fill; [done|done|lia|lia|lia].
  - apply mwp_bind, mwp_ret. apply created_close; [done|done|lia|lia|lia|].
    by destruct l; [|cbn in *; lia].
Qed.

Lemma middle_length lft len s :
  Z.of_nat (length s) ≤ INT_MAX → lft ≤ INT_MAX →
  length (middle lft len s) = Z.to_nat (clamp (Z.of_nat (length s)) lft len).2.
Proof.
  intros Hs Hl. unfold middle. destruct (clamp _ _ _) as [l n] eqn:E.
  apply clamp_spec in E; [|lia|done]. cbn. unfold slice. rewrite length_take, length_drop. lia.
Qed.

Lemma bmidstr_spec h c q s lft len :
  heap_ok h → readable h c q s → Z.of_nat (length s) + 1 < 2 ^ 30 → lft ≤ INT_MAX →
  mwp (bmidstr (Some c) lft len) h (created h (middle lft len s)).
Proof.
  intros Hh [(t&Hc&Hd&Hs) Hb] Hlen Hl. unfold bmidstr.
  apply mwp_bind. eapply mwp_hdr; [done|]. rewrite (readable_guard t q s), Hs by done.
  pose proof (middle_length lft len s ltac:(unfold INT_MAX; lia) Hl) as Hm. unfold middle in *.
  destruct (clamp _ _ _) as [l n] eqn:E. apply clamp_spec in E; [|unfold INT_MAX; lia|done]. cbn in Hm.
  destruct (Z.leb_spec n 0).
  - rewrite slice_zero by lia. by apply bfromcstr_spec.
  - apply mwp_bind. eapply mwp_get_data_any; [done..|].
    replace n with (Z.of_nat (length (slice (Z.to_nat l) (Z.to_nat n) s))) at 1 by lia.
    apply blk2bstr_spec; [done|lia|done|]. intros f x k t' b Q Hk h' HQ. subst h'. unfold read_source.
    apply (mwp_read_part _ _ s); [|lia|lia|lia|].
    + destruct Hb as (bl&Hbl&Hr). exists bl. cbn. split; [|done].
      rewrite lookup_insert_ne; [done|]. apply heap_ok_block_lt in Hbl; [lia|done].
    + rewrite Nat2Z.id, Hm. exact HQ.
Qed.

Lemma bdestroy_spec h a t k b s :
  owns h a t k b s →
  mwp (bdestroy (Some a)) h (λ r h', r = BSTR_OK ∧
    h' = Heap (delete k (blocks h)) (delete a (strs h)) (fresh h)).
Proof.
  intros [Ha Hk Hb Hh]. pose proof (buffer_fits _ _ _ _ Hb).
  unfold bdestroy. apply mwp_bind. eapply mwp_hdr; [done|].
  assert ((slen t <? 0) || (mlen t <=? 0) || (mlen t <? slen t) || no_data t = false) as ->.
  { destruct (buffer_writable _ _ _ _ Hb) as [Hw _]. unfold unwritable in Hw.
    rewrite !orb_false_iff in *. tauto. }
  apply mwp_bind. eapply mwp_get_data_any; [done|by apply Hb|].
  apply mwp_bind, mwp_free; [eauto|]. apply mwp_bind. unfold mwp, free_hdr. cbn. by rewrite Ha.
Qed.

(** ** Assignment *)

Lemma balloc_noop h a t k b s olen (Q : Z → heap → Prop) :
  owns h a t k b s → 0 < olen < mlen t → Q BSTR_OK h → mwp (balloc (Some a) olen) h Q.
Proof.
  intros [Ha Hk Hb Hh] Ho HQ. destruct (buffer_writable _ _ _ _ Hb) as [Hw _].
  unfold balloc. apply mwp_bind. eapply mwp_hdr; [done|].
  rewrite Hw, (proj2 (Z.leb_gt olen 0)), (proj2 (Z.ltb_lt olen _)) by lia. by apply mwp_ret.
Qed.

(** The guard of the assignments. *)
Lemma buffer_assignable t k b s :
  buffer t k b s → no_data t || (mlen t <? slen t) || (slen t <? 0) || (mlen t =? 0) = false.
Proof.
  intros Hb. destruct (buffer_writable _ _ _ _ Hb) as [Hw _]. unfold unwritable in Hw.
  rewrite !orb_false_iff in *. destruct Hw as [[[-> ->] ->] ?%Z.leb_gt].
  rewrite Z.eqb_neq. split_and!; [done..|lia].
Qed.

Lemma setting_owns h a t k b s c q s2 n : setting h a t k b s c q s2 n → owns h a t k b s.
Proof. by intros []. Qed.

(** Room is made for part of the argument, and the part is copied to the start of the
    block. An argument that shares the block must not need room; when there is none
    left, the allocator must not give out a smaller block, which has no place for
    the NUL. *)
Lemma assign_spec h a t k b s c q s2 i l (Q : Z → heap → Prop) (K : M Z) :
  setting h a t k b s c q s2 (mlen t) → thrifty →
  (blk q = k ∨ c = a → Z.of_nat (length l) < mlen t) → 0 < Z.of_nat (length l) < 2 ^ 30 →
  0 ≤ i → i + Z.of_nat (length l) ≤ Z.of_nat (length s2) → slice (Z.to_nat i) (length l) s2 = l →
  (∀ h', same h h' → Q BSTR_ERR h') →
  (∀ f t' k' b', (k' = k ∨ (fresh h ≤ k' < f)%nat) → (fresh h ≤ f)%nat → raw t' k' b' →
    take (length l) b' = l → (length l < length b')%nat →
    mwp K (upd (Heap (delete k (blocks h)) (strs h) f) a t' k' b') Q) →
  mwp (r ← balloc (Some a) (Z.of_nat (length l));
       if r =? BSTR_OK then
         p ← get_data a; q ← get_data c; memmove p 0 q i (Z.of_nat (length l));; K
       else mret BSTR_ERR) h Q.
Proof.
  intros W Ht Hshare Hl Hi Hin Hpart Herr Hok. pose proof W as [Ha Hk Hb Hh Hc _ _ _].
  pose proof (buffer_raw _ _ _ _ Hb) as (Hd&Hm&Hmax). pose proof Hc as [(tc&Htc&Hq&_) Hbytes].
  assert (Hstart : ∀ b', (length l < length b')%nat →
    take (length l) (write_at 0 l b') = l ∧ length (write_at 0 l b') = length b').
  { intros b' Hb'. split; [|apply length_write_at; cbn; lia].
    rewrite write_at_in, take_0, app_nil_l by lia. by apply take_app_length. }
  destruct (decide (Z.of_nat (length l) < mlen t)) as [Hfit|Hfit].
  - apply mwp_bind. eapply balloc_noop; [by eapply setting_owns|lia|]. cbn [Z.eqb BSTR_OK].
    apply mwp_bind. eapply mwp_get_data_any; [exact Ha|done|].
    apply mwp_bind. eapply mwp_get_data_any; [exact Htc|done|].
    apply mwp_bind, mwp_bind. apply (mwp_read_part _ _ s2); [done|lia|lia|lia|].
    rewrite Nat2Z.id, Hpart. rewrite <- (upd_delete_id h a t k b) at 1 by done.
    destruct (Hstart b ltac:(lia)) as [Htake Hlen].
    apply mwp_write; [unfold in_range; lia|]. change (Z.to_nat 0) with 0%nat. apply Hok; [by left|done| |done|].
    + split_and!; [done|by rewrite Hlen|done].
    + rewrite Hlen. lia.
  - eapply grow_spec; [by eapply setting_owns|unfold INT_MAX; lia| |].
    { intros h' Hs. by apply mwp_ret, Herr. }
    intros f t' k' b' Hk' Hf Hb' [Hr Hroom] _. specialize (Hroom Ht ltac:(lia)). cbn [Z.eqb BSTR_OK].
    pose proof (buffer_raw _ _ _ _ Hb') as (Hd'&Hm'&Hmax').
    apply mwp_bind. eapply mwp_get_data; [done|].
    apply mwp_bind. apply (mwp_get_data_any _ _ tc q); [|done|].
    { cbn. rewrite lookup_insert_ne; [done|]. intros ->. tauto. }
    apply mwp_bind, mwp_bind. apply (mwp_read_part _ _ s2); [|lia|lia|lia|].
    { destruct Hbytes as (bl&Hbl&Hbr). exists bl. cbn. split; [|done].
      pose proof (heap_ok_block_lt h (blk q) bl Hh Hbl).
      rewrite lookup_insert_ne, lookup_delete_ne; [done|intros E; apply Hfit, Hshare; auto|].
      intros ->. destruct Hk' as [?|]; [apply Hfit, Hshare; auto|lia]. }
    rewrite Nat2Z.id, Hpart. destruct (Hstart b' ltac:(lia)) as [Htake Hlen].
    apply mwp_write; [unfold in_range; lia|]. change (Z.to_nat 0) with 0%nat. apply Hok; [done|done| |done|].
    + split_and!; [done|by rewrite Hlen|done].
    + rewrite Hlen. lia.
Qed.

Lemma bassign_spec h a t k b s c q s2 :
  setting h a t k b s c q s2 (mlen t) → thrifty → Z.of_nat (length s2) < 2 ^ 30 →
  (blk q = k ∨ c = a → Z.of_nat (length s2) < mlen t) →
  mwp (bassign (Some a) (Some c)) h (effect h a k s2).
Proof.
  intros W Ht Hlen Hshare. pose proof W as [Ha Hk Hb Hh [(tc&Htc&Hq&Hs2) _] _ _ _].
  pose proof (buffer_raw _ _ _ _ Hb) as Hraw. pose proof (buffer_fits _ _ _ _ Hb).
  unfold bassign. apply mwp_bind. eapply mwp_hdr; [done|].
  rewrite (readable_guard tc q s2), Hs2 by done.
  destruct (Z.eqb_spec (Z.of_nat (length s2)) 0) as [E|E].
  - apply mwp_bind. eapply mwp_hdr; [exact Ha|].
    rewrite (buffer_assignable _ _ _ _ Hb).
    rewrite <- (upd_id h a t k b) at 1 by done.
    apply mwp_bind. eapply mwp_get_data; [by apply Hb|].
    apply (mwp_seal_after _ _ _ _ _ _ s2); [done|done|by destruct s2|lia|].
    intros t' b' Hb'. by apply mwp_ret, effect_here.
  - eapply assign_spec; [done|done|done|lia|lia|lia| |by right|].
    { unfold slice. cbn. by rewrite drop_0, firstn_all. }
    intros f t' k' b' Hk' Hf Hraw' Htake Hl.
    apply mwp_bind. eapply mwp_get_data; [apply Hraw'|].
    apply (mwp_seal_after _ _ _ _ _ _ s2); [done|done|done|done|].
    intros t2 b2 Hb2. apply mwp_ret. by apply effect_moved.
Qed.

Lemma bassignmidstr_spec h a t k b s c q s2 lft len :
  setting h a t k b s c q s2 (mlen t) → thrifty → Z.of_nat (length s2) < 2 ^ 30 → lft ≤ INT_MAX →
  (blk q = k ∨ c = a → Z.of_nat (length s2) < mlen t) →
  mwp (bassignmidstr (Some a) (Some c) lft len) h (effect h a k (middle lft len s2)).
Proof.
  intros W Ht Hlen Hl Hshare. pose proof W as [Ha Hk Hb Hh [(tc&Htc&Hq&Hs2) _] _ _ _].
  pose proof (buffer_raw _ _ _ _ Hb) as Hraw. pose proof (buffer_fits _ _ _ _ Hb).
  unfold bassignmidstr. apply mwp_bind. eapply mwp_hdr; [done|].
  rewrite (readable_guard tc q s2), Hs2 by done.
  pose proof (middle_length lft len s2 ltac:(unfold INT_MAX; lia) Hl) as Hm. unfold middle in *.
  destruct (clamp _ _ _) as [l n] eqn:E. apply clamp_spec in E; [|unfold INT_MAX; lia|done]. cbn in Hm.
  apply mwp_bind. eapply mwp_hdr; [exact Ha|]. rewrite (buffer_assignable _ _ _ _ Hb).
  set (m := slice (Z.to_nat l) (Z.to_nat n) s2) in *.
  assert (slice (Z.to_nat l) (length m) s2 = m) as Hpart by (by rewrite Hm). clearbody m.
  assert (Hend : ∀ f t' k' b', (k' = k ∨ (fresh h ≤ k' < f)%nat) → (fresh h ≤ f)%nat → raw t' k' b' →
    take (length m) b' = m → (length m < length b')%nat →
    mwp (set_slen a (Z.of_nat (length m));; ta ← hdr a; p ← get_data a; store p (slen ta) 0;; mret BSTR_OK)
      (upd (Heap (delete k (blocks h)) (strs h) f) a t' k' b') (effect h a k m)).
  { intros f t' k' b' Hk' Hf (Hd'&Hm'&Hmax') Htake Hfit.
    apply mwp_bind, mwp_set_slen, mwp_bind, mwp_hdr_eq, mwp_bind. eapply mwp_get_data; [done|].
    apply mwp_bind, mwp_close; [done..|]. intros b2 Hb2. apply mwp_ret. by apply effect_moved. }
  destruct (Z.ltb_spec 0 n).
  - assert (n = Z.of_nat (length m)) as -> by lia.
    eapply assign_spec; [done|done| |lia|lia|lia|done|by right|exact Hend].
    intros Hs. specialize (Hshare Hs). lia.
  - assert (m = []) as Em by (destruct m; [done|cbn in *; lia]).
    rewrite <- (upd_delete_id h a t k b) at 1 by done.
    replace (set_slen a 0) with (set_slen a (Z.of_nat (length m))) by (by rewrite Em).
    apply (Hend (fresh h) t k b); [by left|done|done| |]; rewrite Em; cbn; [done|lia].
Qed.

(** ** Filling *)

Lemma write_at_app l x y (b : list Z) :
  (l + length x + length y ≤ length b)%nat →
  write_at l x (write_at (l + length x) y b) = write_at l (x ++ y) b.
Proof.
  intros. rewrite (write_at_in (l + _)) by lia. rewrite !write_at_in by len.
  rewrite take_app_le, take_take, Nat.min_l, drop_app_length', length_app, <- app_assoc, Nat.add_assoc by len.
  done.
Qed.

(** The loop that makes room moves the bytes that were there. *)
Lemma mwp_shift_up h a t k b n d l (Q : () → heap → Prop) :
  (d ≤ l)%nat → (l + n ≤ length b)%nat → Q tt (upd h a t k (write_at l (slice (l - d) n b) b)) →
  mwp (shift_up n (Ptr k 0) (Z.of_nat d) (Z.of_nat (l + n) - 1)) (upd h a t k b) Q.
Proof.
  revert b. induction n as [|n IH]; intros b Hd Hl HQ; cbn [shift_up].
  - apply mwp_ret. by rewrite slice_zero, write_at_nil in HQ by (done || lia).
  - destruct (lookup_lt_is_Some_2 b (l - d + n)) as [x Hx]; [lia|].
    apply mwp_bind, mwp_read; [unfold in_range; lia|].
    replace (Z.to_nat (Z.of_nat (l + S n) - 1 - Z.of_nat d)) with (l - d + n)%nat by lia.
    rewrite (slice_cons _ 0 b x), (slice_zero (S _)) by done.
    apply mwp_bind, mwp_write; [unfold in_range; cbn; lia|].
    replace (Z.to_nat (Z.of_nat (l + S n) - 1)) with (l + n)%nat by lia.
    replace (Z.of_nat (l + S n) - 1 - 1) with (Z.of_nat (l + n) - 1) by lia.
    apply IH; [done|rewrite length_write_at; cbn; lia|].
    rewrite slice_write_at_before by lia.
    rewrite (slice_snoc _ _ _ x) in HQ by done.
    pose proof (write_at_app l (slice (l - d) n b) [x] b) as E.
    rewrite slice_length in E by lia. by rewrite <- E in HQ by (cbn; lia).
Qed.

(** The bytes are filled, then the NUL is written. *)
Lemma fill_end h a k f t' k' b' s' i j fill :
  (k' = k ∨ (fresh h ≤ k' < f)%nat) → (fresh h ≤ f)%nat →
  raw t' k' b' → slen t' = Z.of_nat (length s') → (length s' < length b')%nat →
  (i + j ≤ length b')%nat → take (length s') (write_at i (replicate j fill) b') = s' →
  mwp (p ← get_data a; memset p (Z.of_nat i) fill (Z.of_nat j);;
       t ← hdr a; store p (slen t) 0;; mret BSTR_OK)
    (upd (Heap (delete k (blocks h)) (strs h) f) a t' k' b') (effect h a k s').
Proof.
  intros Hk' Hf (Hd'&Hm'&Hmax') Hsl Hfit' Hij Htake.
  apply mwp_bind. eapply mwp_get_data; [done|].
  apply mwp_bind, mwp_write; [unfold in_range; len|]. rewrite !Nat2Z.id.
  apply mwp_bind, mwp_hdr_eq. rewrite Hsl.
  assert (length (write_at i (replicate j fill) b') = length b') as Hlen' by (apply length_write_at; len).
  apply mwp_bind, mwp_close; rewrite ?Hlen'; try done.
  intros b2 Hb2. apply mwp_ret. by apply effect_moved.
Qed.

Lemma binsertch_spec h a t k b s p d fill :
  owns h a t k b s →
  Z.of_nat p + Z.of_nat d ≤ INT_MAX → Z.of_nat (length s) + Z.of_nat d ≤ INT_MAX →
  mwp (binsertch (Some a) (Z.of_nat p) (Z.of_nat d) fill) h
    (effect h a k (splice p 0 (replicate d fill) fill s)).
Proof.
  intros W Hl Hd. pose proof W as [Ha Hk Hb Hh]. pose proof (buf_slen _ _ _ _ Hb) as Hs.
  pose proof (buffer_fits _ _ _ _ Hb) as Hfit.
  pose proof (buffer_writable _ _ _ _ Hb) as [Hw _]. unfold unwritable in Hw.
  rewrite !orb_false_iff in Hw. destruct Hw as [[[_ Hw1] Hw2] Hw3].
  set (s' := splice p 0 (replicate d fill) fill s).
  assert (length s' = Nat.max p (length s) + d)%nat as Hs' by (unfold s'; rewrite splice_length; len).
  unfold binsertch. apply mwp_bind. eapply mwp_hdr; [done|].
  rewrite !(proj2 (Z.ltb_ge _ 0)), Hw1, Hw3 by lia. cbn [orb].
  rewrite Hs. unfold INT_MAX in *. rewrite !s32_small by lia.
  rewrite (proj2 (Z.ltb_ge _ 0)) by (rewrite Z.lor_nonneg; lia).
  destruct (Z.ltb_spec (Z.of_nat (length s) + Z.of_nat d) (Z.of_nat p + Z.of_nat d));
    (eapply grow_spec; [done|apply s32_max|intros h' Hsame; apply mwp_ret; by right|]);
    intros f t' k' b' Hk' Hf Hb' [Hr _] Hpos'; rewrite s32_succ in Hr by (unfold INT_MAX; lia);
    destruct (buffer_raw _ _ _ _ Hb') as (Hd'&Hm'&?); cbn [Z.eqb BSTR_OK].
  - apply mwp_bind, mwp_set_slen.
    replace (Z.max 0 (Z.of_nat p + Z.of_nat d - Z.of_nat (length s))) with (Z.of_nat (p + d - length s)) by lia.
    apply fill_end; [done|done|by split_and!|cbn; lia|lia|lia|].
    rewrite Hs'. pose proof (take_concat (replicate (p + d - length s) fill) s b'
      (buf_bytes _ _ _ _ Hb') ltac:(len)) as E.
    rewrite length_replicate in E. replace (Nat.max p (length s) + d)%nat with (length s + (p + d - length s))%nat by lia.
    rewrite E. unfold s', splice. rewrite take_ge, drop_ge, app_nil_r, <- replicate_add by lia.
    do 2 f_equal. lia.
  - apply mwp_bind. eapply mwp_get_data; [done|].
    replace (Z.of_nat (length s) + Z.of_nat d - 1) with (Z.of_nat (p + d + (length s - p)) - 1) by lia.
    replace (Z.to_nat (Z.of_nat (length s) + Z.of_nat d - (Z.of_nat p + Z.of_nat d))) with (length s - p)%nat by lia.
    apply mwp_bind, mwp_shift_up; [lia|lia|]. apply mwp_bind, mwp_set_slen.
    replace (p + d - d)%nat with p by lia.
    replace (Z.max 0 (Z.of_nat p + Z.of_nat d - Z.of_nat p)) with (Z.of_nat d) by lia.
    assert (length (slice p (length s - p) b') = length s - p)%nat as Hsl by (apply slice_length; lia).
    apply fill_end; [done|done| |cbn; lia| | |]; rewrite ?length_write_at by lia; [|lia|lia|].
    + split_and!; [done| |done]. by rewrite length_write_at by lia.
    + rewrite Hs'.
      pose proof (take_insert p (replicate d fill) s b' (buf_bytes _ _ _ _ Hb') ltac:(lia) ltac:(len)) as E.
      rewrite length_replicate in E. replace (Nat.max p (length s) + d)%nat with (length s + d)%nat by lia.
      rewrite E. unfold s', splice. rewrite Nat.add_0_r. by replace (p - length s)%nat with 0%nat by lia.
Qed.

(** ** Trimming *)

Fixpoint ltrim (l : list Z) : list Z :=
  match l with [] => [] | c :: l' => if wspace c then ltrim l' else l end.
Definition rtrim (l : list Z) : list Z := reverse (ltrim (reverse l)).

Lemma ltrim_suffix l : ltrim l = drop (length l - length (ltrim l)) l ∧ (length (ltrim l) ≤ length l)%nat.
Proof.
  induction l as [|c l [IH Hl]]; [done|]. cbn [ltrim]. destruct (wspace c).
  - cbn [length]. replace (S (length l) - length (ltrim l))%nat with (S (length l - length (ltrim l))) by lia.
    split; [done|lia].
  - by rewrite Nat.sub_diag.
Qed.

Lemma rtrim_snoc l c : rtrim (l ++ [c]) = if wspace c then rtrim l else l ++ [c].
Proof.
  unfold rtrim. rewrite reverse_snoc. cbn [ltrim]. destruct (wspace c); [done|].
  by rewrite reverse_cons, reverse_involutive.
Qed.

Lemma rtrim_prefix l : take (length (rtrim l)) l = rtrim l ∧ (length (rtrim l) ≤ length l)%nat.
Proof.
  induction l as [|c l [IH Hl]] using rev_ind; [done|]. rewrite rtrim_snoc. destruct (wspace c).
  - rewrite take_app_le, IH, length_app by done. split; [done|lia].
  - by rewrite firstn_all.
Qed.

Lemma at_lookup l i c : l !! i = Some c → at_ l (Z.of_nat i) = Done c.
Proof. intros Hi. unfold at_. rewrite decide_True, Nat2Z.id by lia. by rewrite Hi. Qed.

Lemma last_black_spec n l :
  (n ≤ length l)%nat → last_black n l = Done (Z.of_nat (length (rtrim (take n l))) - 1).
Proof.
  induction n as [|i IH]; intros Hn; [done|]. cbn [last_black].
  destruct (lookup_lt_is_Some_2 l i Hn) as [c Hc]. rewrite (at_lookup l i c Hc). cbn.
  rewrite (take_S_r _ _ c Hc), rtrim_snoc. destruct (wspace c); [apply IH; lia|].
  f_equal. rewrite length_app, length_take. cbn. lia.
Qed.

Lemma first_black_spec s r i l :
  drop i l = s ++ r → first_black (length s) l (Z.of_nat i)
  = Done (if decide (ltrim s = []) then None
          else Some (Z.of_nat i + Z.of_nat (length s - length (ltrim s)))).
Proof.
  revert i. induction s as [|c s IH]; intros i Hd; [done|]. cbn [length first_black].
  assert (l !! i = Some c) as Hc by (by rewrite <- (Nat.add_0_r i), <- lookup_drop, Hd).
  rewrite (at_lookup l i c Hc). cbn. destruct (wspace c) eqn:Hw.
  - replace (Z.of_nat i + 1) with (Z.of_nat (S i)) by lia. rewrite IH.
    + destruct (decide (ltrim s = [])); [done|]. do 2 f_equal.
      destruct (ltrim_suffix s) as [_ ?]. lia.
    + rewrite <- (Nat.add_1_r i), <- drop_drop, Hd. done.
  - rewrite decide_False by done. cbn. do 2 f_equal. lia.
Qed.

Lemma skip_ws_spec s r i n l :
  drop i l = s ++ r → ltrim s ≠ [] → (length s ≤ n)%nat →
  skip_ws n l (Z.of_nat i) = Done (Z.of_nat i + Z.of_nat (length s - length (ltrim s))).
Proof.
  revert i n. induction s as [|c s IH]; intros i n Hd Hs Hn; [done|].
  destruct n as [|n]; [cbn in Hn; lia|]. cbn [skip_ws].
  assert (l !! i = Some c) as Hc by (by rewrite <- (Nat.add_0_r i), <- lookup_drop, Hd).
  rewrite (at_lookup l i c Hc). cbn in Hs, Hn |- *. destruct (wspace c) eqn:Hw.
  - replace (Z.of_nat i + 1) with (Z.of_nat (S i)) by lia. rewrite IH; [|..|done|lia].
    + destruct (ltrim_suffix s) as [_ ?]. f_equal. lia.
    + rewrite <- (Nat.add_1_r i), <- drop_drop, Hd. done.
  - cbn. f_equal. lia.
Qed.

Lemma mwp_bytes h a t' k b t (Q : list Z → heap → Prop) :
  data t = Some (Ptr k 0) → Q b (upd h a t' k b) → mwp (bytes t) (upd h a t' k b) Q.
Proof.
  intros Hd HQ. unfold bytes. rewrite Hd. apply mwp_bind. eapply mwp_lift; [done|].
  apply mwp_bind. unfold mwp, block, lift. cbn. rewrite lookup_insert_eq. cbn.
  rewrite decide_True by (unfold in_range; lia). by rewrite drop_0.
Qed.

Lemma blank_spec h a t k b s : owns h a t k b s → mwp (blank a) h (succeeds h a k []).
Proof.
  intros [Ha Hk Hb Hh]. pose proof (buffer_fits _ _ _ _ Hb).
  rewrite <- (upd_id h a t k b) at 1 by done.
  apply mwp_bind. eapply mwp_get_data; [by apply Hb|].
  apply (mwp_seal_after _ _ _ _ _ _ []); [by eapply buffer_raw|done|done|cbn; lia|].
  intros t' b' Hb'. by apply mwp_ret, succeeds_here.
Qed.

Lemma bltrimws_spec h a t k b s : owns h a t k b s → mwp (bltrimws (Some a)) h (succeeds h a k (ltrim s)).
Proof.
  intros W. pose proof W as [Ha Hk Hb Hh]. pose proof (buffer_fits _ _ _ _ Hb).
  unfold bltrimws. apply mwp_bind. eapply mwp_hdr; [done|].
  destruct (buffer_writable _ _ _ _ Hb) as [-> _].
  rewrite <- (upd_id h a t k b) at 1 by done. apply mwp_bind, mwp_bytes; [by apply Hb|].
  rewrite upd_id by done. rewrite (buf_slen _ _ _ _ Hb), Nat2Z.id.
  apply mwp_bind. eapply mwp_lift.
  { apply (first_black_spec s (drop (length s) b) 0). rewrite drop_0.
    by rewrite <- (buf_bytes _ _ _ _ Hb) at 1; rewrite take_drop. }
  destruct (ltrim_suffix s) as [E Hl]. destruct (decide (ltrim s = [])) as [Hn|Hn].
  - rewrite Hn. by eapply blank_spec.
  - rewrite E at 2. replace (Z.of_nat 0 + Z.of_nat (length s - length (ltrim s)))
      with (Z.of_nat (length s - length (ltrim s))) by lia.
    eapply mwp_mono; [eapply bdelete_spec; [done|done|lia|]|].
    + pose proof (buffer_raw _ _ _ _ Hb) as (_&?&?). lia.
    + intros r h'. by rewrite take_0, Nat2Z.id.
Qed.

(** What [brtrimws] leaves, before [btrimws] goes on. *)
Lemma cut_after_spec h a t k b s s' (Q : () → heap → Prop) :
  buffer t k b s → take (length s') s = s' → s' ≠ [] → (length s' ≤ length s)%nat →
  (∀ t' b', buffer t' k b' s' → length b' = length b → Q tt (upd h a t' k b')) →
  mwp (cut_after a t (Z.of_nat (length s') - 1)) (upd h a t k b) Q.
Proof.
  intros Hb Hs' Hne Hl HQ. pose proof (buffer_fits _ _ _ _ Hb).
  pose proof (buffer_raw _ _ _ _ Hb) as (Hd&Hm&?).
  unfold cut_after. rewrite (proj2 (Z.ltb_lt _ _)) by lia.
  replace (Z.of_nat (length s') - 1 + 1) with (Z.of_nat (length s')) by lia.
  apply mwp_bind, mwp_bind. eapply mwp_get_data; [done|]. apply mwp_store; [lia|].
  apply mwp_set_slen. rewrite Nat2Z.id, Hd, Hm. apply HQ.
  - apply buffer_close; [|lia|lia].
    rewrite <- Hs' at 2. rewrite <- (buf_bytes _ _ _ _ Hb), take_take. f_equal. lia.
  - rewrite length_write_at; cbn; lia.
Qed.

Lemma brtrimws_spec h a t k b s : owns h a t k b s → mwp (brtrimws (Some a)) h (succeeds h a k (rtrim s)).
Proof.
  intros W. pose proof W as [Ha Hk Hb Hh]. pose proof (buffer_fits _ _ _ _ Hb).
  unfold brtrimws. apply mwp_bind. eapply mwp_hdr; [done|].
  destruct (buffer_writable _ _ _ _ Hb) as [-> _].
  rewrite <- (upd_id h a t k b) at 1 by done. apply mwp_bind, mwp_bytes; [by apply Hb|].
  rewrite (buf_slen _ _ _ _ Hb), Nat2Z.id. apply mwp_bind.
  eapply mwp_lift; [apply last_black_spec; lia|]. rewrite (buf_bytes _ _ _ _ Hb).
  destruct (rtrim_prefix s) as [Hp Hl]. destruct (Z.ltb_spec (Z.of_nat (length (rtrim s)) - 1) 0).
  - rewrite upd_id by done. assert (rtrim s = []) as -> by (destruct (rtrim s); [done|cbn in *; lia]).
    by eapply blank_spec.
  - apply mwp_bind. eapply cut_after_spec; [done|done|intros E; rewrite E in *; cbn in *; lia|done|].
    intros t' b' Hb' _. by apply mwp_ret, succeeds_here.
Qed.

Lemma ltrim_snoc_black l c : wspace c = false → ltrim (l ++ [c]) ≠ [].
Proof. intros Hc. induction l as [|x l IH]; cbn; [by rewrite Hc|]. by destruct (wspace x). Qed.

Lemma ltrim_rtrim l : rtrim l ≠ [] → ltrim (rtrim l) ≠ [].
Proof.
  induction l as [|c l IH] using rev_ind; [done|]. rewrite rtrim_snoc.
  destruct (wspace c) eqn:E; [done|]. intros _. by apply ltrim_snoc_black.
Qed.

Lemma btrimws_spec h a t k b s :
  owns h a t k b s → mwp (btrimws (Some a)) h (succeeds h a k (ltrim (rtrim s))).
Proof.
  intros W. pose proof W as [Ha Hk Hb Hh]. pose proof (buffer_fits _ _ _ _ Hb).
  unfold btrimws. apply mwp_bind. eapply mwp_hdr; [done|].
  destruct (buffer_writable _ _ _ _ Hb) as [-> _].
  rewrite <- (upd_id h a t k b) at 1 by done. apply mwp_bind, mwp_bytes; [by apply Hb|].
  rewrite (buf_slen _ _ _ _ Hb), Nat2Z.id. apply mwp_bind.
  eapply mwp_lift; [apply last_black_spec; lia|]. rewrite (buf_bytes _ _ _ _ Hb).
  destruct (rtrim_prefix s) as [Hp Hl]. set (s1 := rtrim s) in *.
  destruct (Z.ltb_spec (Z.of_nat (length s1) - 1) 0).
  - rewrite upd_id by done. assert (s1 = []) as -> by (destruct s1; [done|cbn in *; lia]).
    by eapply blank_spec.
  - assert (s1 ≠ []) as Hne by (intros E; rewrite E in *; cbn in *; lia).
    apply mwp_bind. eapply cut_after_spec; [done..|]. intros t' b' Hb' Hlen.
    apply mwp_bind, mwp_bytes; [by apply Hb|]. apply mwp_bind. eapply mwp_lift.
    { apply (skip_ws_spec s1 (drop (length s1) b') 0); [|by apply ltrim_rtrim|lia].
      rewrite drop_0. by rewrite <- (buf_bytes _ _ _ _ Hb') at 1; rewrite take_drop. }
    destruct (ltrim_suffix s1) as [E Hl']. rewrite E at 2.
    replace (Z.of_nat 0 + Z.of_nat (length s1 - length (ltrim s1)))
      with (Z.of_nat (length s1 - length (ltrim s1))) by lia.
    pose proof (buffer_raw _ _ _ _ Hb) as (_&?&?).
    eapply mwp_mono; [eapply (bdelete_spec _ a t' k b' s1); [|done|lia|lia]|].
    + split; cbn; [by rewrite lookup_insert_eq|by rewrite lookup_insert_eq|done|].
      split; cbn; intros y [z [[<- _]|[_ Hz]]%lookup_insert_Some];
        eauto using heap_ok_block_lt, heap_ok_str_lt.
    + intros r h'. rewrite take_0, Nat2Z.id. apply succeeds_upd.
Qed.
End Ops.
