(* ===== verification/BstrMore.v ===== *)
(** More operations of bstrlib.c (Bstr) against lists: case, blocks, sizes, and the
    pattern that [bpattern] repeats. *)
From S2P Require Import Prelude Bstr BstrMem BstrSpec BstrOps.
#[local] Open Scope Z_scope.

Section Ops.
Context `{AllocatorLaws}.

(** ** Case *)

Lemma map_bytes_spec f h a t k b s :
  owns h a t k b s → mwp (map_bytes f (Some a)) h (succeeds h a k (map f s)).
Proof.
  intros [Ha Hk Hb Hh]. pose proof (buffer_writable _ _ _ _ Hb) as [Hw _].
  pose proof (buffer_fits _ _ _ _ Hb) as Hf.
  rewrite <- (upd_id h a t k b) at 1 by done.
  unfold map_bytes. apply mwp_bind, mwp_hdr_eq. rewrite Hw.
  apply mwp_bind. eapply mwp_get_data; [by apply Hb|]. rewrite (buf_slen _ _ _ _ Hb).
  apply mwp_bind, mwp_read; [unfold in_range; lia|].
  rewrite Nat2Z.id. unfold slice. rewrite drop_0, (buf_bytes _ _ _ _ Hb).
  apply mwp_bind, mwp_write; [unfold in_range; rewrite length_map; lia|].
  apply mwp_ret, succeeds_here. destruct Hb as [Hd Hm Hs Htk Hn Hx].
  assert (write_at 0 (map f s) b = map f s ++ drop (length s) b) as Hwr.
  { rewrite write_at_in by lia. by rewrite take_0, length_map. }
  change (Z.to_nat 0) with 0%nat. split; rewrite ?length_map, ?Hwr; try done.
  - rewrite length_app, length_map, length_drop. lia.
  - apply take_app_length'. by rewrite length_map.
  - rewrite lookup_app_r, length_map, Nat.sub_diag, lookup_drop, Nat.add_0_r by (rewrite length_map; lia). done.
Qed.

(** ** Assignment of a block *)

Lemma bassignblk_spec h a t k b s l len :
  owns h a t k b s → 0 ≤ len → len ≤ Z.of_nat (length l) → len < INT_MAX →
  mwp (bassignblk (Some a) (Arg (Some l)) len) h (effect h a k (take (Z.to_nat len) l)).
Proof.
  intros W Hlen Hl Hmax. pose proof W as [Ha Hk Hb Hh].
  pose proof (buffer_raw _ _ _ _ Hb) as (Hd&Hm&?).
  set (s2 := take (Z.to_nat len) l). assert (Z.of_nat (length s2) = len) as Hs2 by (unfold s2; len).
  unfold bassignblk. apply mwp_bind. eapply mwp_hdr; [done|].
  rewrite (buffer_assignable _ _ _ _ Hb). cbn [orb null_source].
  unfold INT_MAX in Hmax. rewrite s32_small by lia. rewrite (proj2 (Z.ltb_ge _ 1)) by lia.
  assert (Hend : ∀ f t' k' b', (k' = k ∨ (fresh h ≤ k' < f)%nat) → (fresh h ≤ f)%nat →
    buffer t' k' b' s → len < Z.of_nat (length b') →
    mwp (p ← get_data a;
         (if 0 <? len then l ← read_source (Arg (Some l)) len; write p 0 l else mret tt);;
         store p len 0;; set_slen a len;; mret BSTR_OK)
      (upd (Heap (delete k (blocks h)) (strs h) f) a t' k' b') (effect h a k s2)).
  { intros f t' k' b' Hk' Hf Hb' Hfit. pose proof (buffer_raw _ _ _ _ Hb') as (Hd'&Hm'&Hmax').
    apply mwp_bind. eapply mwp_get_data; [done|].
    apply mwp_bind. apply (mwp_mono _ _ (λ _ h', h' = upd (Heap (delete k (blocks h)) (strs h) f) a t' k'
      (write_at 0 s2 b'))).
    { destruct (Z.ltb_spec 0 len).
      - apply mwp_bind, mwp_bind. eapply mwp_lift; [done|]. cbn. rewrite decide_True by done.
        eapply mwp_lift; [unfold read_bytes; rewrite decide_True by lia; done|].
        change (take (Z.to_nat len) l) with s2. apply mwp_write; [unfold in_range; lia|]. done.
      - apply mwp_ret. assert (s2 = []) as -> by (destruct s2; [done|cbn in *; lia]).
        by rewrite write_at_nil by lia. }
    intros _ ? ->. apply (mwp_seal_after _ _ _ _ _ _ s2); rewrite ?length_write_at by (cbn; lia); try lia.
    - split_and!; [done| |done]. by rewrite length_write_at by (cbn; lia).
    - rewrite write_at_in by lia. rewrite take_0, app_nil_l. apply take_app_length.
    - intros t2 b2 Hb2. apply mwp_ret. by apply effect_moved. }
  destruct (Z.ltb_spec (mlen t) (len + 1)).
  - eapply grow_spec; [done|unfold INT_MAX; lia| |].
    { intros h' Hsame. apply mwp_ret. by right. }
    intros f t' k' b' Hk' Hf Hb' [Hr _] _. apply Hend; try done. lia.
  - apply mwp_bind, mwp_ret. rewrite <- (upd_delete_id h a t k b) at 1 by done.
    apply (Hend (fresh h) t k b); try done; [by left|lia].
Qed.

(** ** Sizes *)

Lemma mwp_realloc_any h k b size (Q : option ptr → heap → Prop) :
  blocks h !! k = Some b → 0 ≤ size →
  (∀ b', length b' = Z.to_nat size → take (Nat.min (length b) (length b')) b' = take (length b') b →
   Q (Some (Ptr (fresh h) 0)) (Heap (<[fresh h := b']> (delete k (blocks h))) (strs h) (S (fresh h)))) →
  Q None (Heap (blocks h) (strs h) (S (fresh h))) →
  mwp (realloc (Ptr k 0) size) h Q.
Proof.
  intros Hb Hs HT HF. unfold mwp, realloc. cbn. rewrite Hb, decide_True by done.
  destruct (alloc_ok (fresh h)) eqn:E.
  - rewrite decide_True by (split; [lia|done]). cbn.
    set (new := drop _ _).
    assert (length (take (Z.to_nat size) (b ++ new)) = Z.to_nat size) as Hlen.
    { unfold new. rewrite length_take, length_app, length_drop, junk_length. lia. }
    apply HT; [done|]. rewrite Hlen, take_take. destruct (decide (length b ≤ Z.to_nat size)%nat).
    + rewrite !Nat.min_l by lia. rewrite take_app_length. by rewrite take_ge by done.
    + rewrite !Nat.min_r by lia. by rewrite take_app_le by lia.
  - rewrite decide_False by (intros [_ ?]; done). done.
Qed.

(** The block is given the size asked for, or the least one; what it holds stays. *)
Lemma ballocmin_spec h a t k b s len :
  owns h a t k b s → 0 < len ≤ INT_MAX →
  mwp (ballocmin (Some a) len) h (λ r h',
    r = BSTR_OK ∧ rebuilt h a k s (λ m, m = Z.max len (Z.of_nat (length s) + 1)) h' ∨
    r = BSTR_ERR ∧ same h h').
Proof.
  intros [Ha Hk Hb Hh] Hlen. pose proof (buffer_fits _ _ _ _ Hb).
  pose proof (buffer_raw _ _ _ _ Hb) as (Hd&Hm&Hmax). pose proof (buf_slen _ _ _ _ Hb) as Hs.
  unfold ballocmin. apply mwp_bind. eapply mwp_hdr; [done|].
  unfold no_data. rewrite Hd, Hs, bool_decide_eq_false_2 by done.
  unfold INT_MAX in *. rewrite s32_small by lia.
  rewrite !(proj2 (Z.ltb_ge _ _)), !(proj2 (Z.leb_gt _ _)) by lia. cbn [orb].
  set (m := if len <? _ then _ else len).
  assert (m = Z.max len (Z.of_nat (length s) + 1)) as Em
    by (unfold m; destruct (Z.ltb_spec len (Z.of_nat (length s) + 1)); lia).
  cbv zeta. destruct (Z.eqb_spec m (mlen t)) as [Heq|].
  - apply mwp_ret. left. split; [done|]. rewrite <- (upd_id h a t k b) at 2 by done.
    apply rebuilt_here; [done|lia].
  - apply mwp_bind. eapply mwp_get_data_any; [done..|].
    apply mwp_bind. eapply mwp_realloc_any; [done|lia| |].
    + intros b' Hb' Htk.
      assert (Heap (<[fresh h := b']> (delete k (blocks h))) (strs h) (S (fresh h))
        = upd (Heap (delete k (blocks h)) (strs h) (S (fresh h))) a t (fresh h) b') as ->
        by (unfold upd; cbn; by rewrite (insert_id (strs h))).
      apply mwp_bind, mwp_store; [lia|].
      rewrite Nat2Z.id. apply mwp_bind, mwp_set_hdr, mwp_ret. left. split; [done|].
      eexists _, (fresh h), _, (S (fresh h)). split_and!; [done| |done|lia|lia].
      replace m with (Z.of_nat (length b')) by lia. apply buffer_close; [|lia|unfold INT_MAX; lia].
      rewrite <- (buf_bytes _ _ _ _ Hb) at 2.
      apply (f_equal (take (length s))) in Htk. rewrite !take_take in Htk.
      rewrite !Nat.min_l in Htk by lia. done.
    + apply mwp_ret. right. split; [done|]. eexists. split; [done|cbn; lia].
Qed.

Lemma bfromcstralloc_spec h m l :
  heap_ok h → Z.of_nat (length l) + 1 < 2 ^ 30 → m ≤ INT_MAX →
  mwp (bfromcstralloc m (Some l)) h (created h l).
Proof.
  intros Hh Hl Hm. unfold bfromcstralloc.
  destruct (cstr_size_spec (Z.of_nat (length l))) as [Hlt Hmax]; [lia|lia|].
  rewrite s32_small, (proj2 (Z.leb_gt _ _)) by lia.
  set (n := if _ <? m then m else _).
  assert (cstr_size (Z.of_nat (length l)) ≤ n ≤ INT_MAX)
    by (unfold n; destruct (Z.ltb_spec (cstr_size (Z.of_nat (length l))) m); lia).
  apply mwp_bind. eapply mwp_mono; [apply new_bstring_spec; [done|lia]|].
  intros [[x p]|] h1; [|intros; by apply mwp_ret].
  intros (k&b&f&Hx&Hk&->&Hb&->). apply created_cstr; [done|done|done|lia|lia].
Qed.

(** ** Patterns *)

(** [s] end to end, [n] bytes of it. *)
Definition tiled (n : nat) (s : list Z) : list Z :=
  map (λ i, nth (i mod length s)%nat s 0) (seq 0 n).

Lemma tiled_length n s : length (tiled n s) = n.
Proof. unfold tiled. by rewrite length_map, length_seq. Qed.
Lemma tiled_S n s : tiled (S n) s = tiled n s ++ [nth (n mod length s)%nat s 0].
Proof. unfold tiled. by rewrite seq_S, map_app. Qed.
Lemma tiled_lookup n s i : (i < n)%nat → tiled n s !! i = Some (nth (i mod length s)%nat s 0).
Proof.
  intros Hi. unfold tiled. rewrite list_lookup_fmap, lookup_seq_lt by done. done.
Qed.
Lemma tiled_short n s : (n ≤ length s)%nat → tiled n s = take n s.
Proof.
  induction n as [|n IH]; intros Hn; [done|].
  destruct (lookup_lt_is_Some_2 s n) as [c Hc]; [lia|].
  rewrite tiled_S, IH, (take_S_r _ _ c), Nat.mod_small by (done || lia).
  by rewrite (nth_lookup_Some _ _ _ _ Hc).
Qed.

Lemma mwp_repeat h a t k s n : ∀ b i (Q : () → heap → Prop),
  (0 < length s ≤ i)%nat → take i b = tiled i s → (i + n ≤ length b)%nat →
  (∀ b', length b' = length b → take (i + n) b' = tiled (i + n) s → Q tt (upd h a t k b')) →
  mwp (repeat_bytes n (Ptr k 0) (Z.of_nat (length s)) (Z.of_nat i)) (upd h a t k b) Q.
Proof.
  induction n as [|n IH]; intros b i Q Hi Hb Hn HQ; cbn [repeat_bytes].
  - apply mwp_ret, HQ; by rewrite ?Nat.add_0_r.
  - apply mwp_bind, mwp_read; [unfold in_range; lia|].
    assert (slice (Z.to_nat (Z.of_nat i - Z.of_nat (length s))) (Z.to_nat 1) b
      = [nth (i mod length s)%nat s 0]) as ->.
    { replace (Z.to_nat (Z.of_nat i - Z.of_nat (length s))) with (i - length s)%nat by lia.
      assert (b !! (i - length s)%nat = Some (nth (i mod length s)%nat s 0)) as Hl.
      { rewrite <- (lookup_take_lt b i) by lia. rewrite Hb, tiled_lookup by lia. do 2 f_equal.
        rewrite <- (Nat.Div0.mod_add (i - length s) 1). f_equal. lia. }
      unfold slice. by rewrite (drop_S _ _ _ Hl). }
    apply mwp_bind, mwp_write; [unfold in_range; cbn; lia|]. rewrite Nat2Z.id.
    replace (Z.of_nat i + 1) with (Z.of_nat (S i)) by lia.
    apply IH; [lia| |rewrite length_write_at by (cbn; lia); lia|].
    + rewrite write_at_in by lia. rewrite Hb, tiled_S, app_assoc.
      apply take_app_length'. rewrite length_app, tiled_length. cbn. lia.
    + intros b' Hl'. rewrite length_write_at in Hl' by (cbn; lia).
      rewrite Nat.add_succ_comm. by apply HQ.
Qed.

Lemma tiled_one n c : tiled n [c] = replicate n c.
Proof.
  induction n as [|n IH]; [done|]. rewrite tiled_S, IH. cbn [length].
  rewrite Nat.mod_1_r. by rewrite <- replicate_S_end.
Qed.

(** [bsetstr] without an argument, where there is room. *)
Lemma bsetstr_room h a t k b s pos fill (Q : Z → heap → Prop) :
  buffer t k b s → heap_ok (upd h a t k b) → 0 ≤ pos → pos + 1 < Z.of_nat (length b) →
  (∀ t' b', buffer t' k b' (splice (Z.to_nat pos) 0 [] fill s) → Q BSTR_OK (upd h a t' k b')) →
  mwp (bsetstr (Some a) pos None fill) (upd h a t k b) Q.
Proof.
  intros Hb Hh Hpos Hfit HQ. pose proof (buffer_writable _ _ _ _ Hb) as [Hw _].
  pose proof (buffer_raw _ _ _ _ Hb) as (_&Hm&Hmax).
  unfold bsetstr. apply mwp_bind, mwp_hdr_eq. rewrite (proj2 (Z.ltb_ge pos 0)), Hw by lia. cbn [orb].
  unfold INT_MAX in *. rewrite s32_small by lia.
  apply mwp_bind, (balloc_noop _ _ t k b s); [split; cbn; by rewrite ?lookup_insert_eq|lia|].
  cbn [Z.eqb BSTR_OK]. by eapply mwp_null_end; [|lia|].
Qed.

Lemma bpattern_spec h a t k b s len :
  thrifty → owns h a t k b s → s ≠ [] → 0 ≤ len → len + 1 < 2 ^ 30 →
  mwp (bpattern (Some a) len) h (effect h a k (tiled (Z.to_nat len) s)).
Proof.
  intros Hth W Hne Hlen Hmax. pose proof W as [Ha Hk Hb Hh]. pose proof (buf_slen _ _ _ _ Hb) as Hs.
  assert (0 < length s)%nat as Hpos by (destruct s; [done|cbn; lia]).
  unfold bpattern. apply mwp_bind. eapply mwp_hdr; [done|].
  rewrite Hs, (proj2 (Z.ltb_ge (Z.of_nat (length s)) 0)), (proj2 (Z.leb_gt _ _)), (proj2 (Z.ltb_ge len 0)) by lia.
  cbn [orb]. rewrite s32_small by lia.
  eapply grow_spec; [done|unfold INT_MAX; lia|intros h' Hsame; apply mwp_ret; by right|].
  intros f t' k' b' Hk' Hf Hb' [_ Hroom] _. specialize (Hroom Hth Hmax).
  cbn [Z.eqb BSTR_OK]. pose proof (buffer_raw _ _ _ _ Hb') as (Hd'&Hm'&Hx').
  pose proof (buffer_fits _ _ _ _ Hb'). pose proof (buf_bytes _ _ _ _ Hb') as Hbs.
  apply mwp_bind. eapply mwp_get_data; [done|].
  assert (Hfin : ∀ b2, length b2 = length b' → take (Z.to_nat len) b2 = tiled (Z.to_nat len) s →
    mwp (store (Ptr k' 0) len 0;; set_slen a len;; mret BSTR_OK)
      (upd (Heap (delete k (blocks h)) (strs h) f) a t' k' b2) (effect h a k (tiled (Z.to_nat len) s))).
  { intros b2 Hl2 Ht2. apply (mwp_seal_after _ _ _ _ _ _ (tiled (Z.to_nat len) s));
      rewrite ?tiled_length; [split_and!; [done|by rewrite Hl2|done]|lia|done|lia|].
    intros t3 b3 Hb3. apply mwp_ret. by apply effect_moved. }
  assert (Hshort : ∀ n, (n ≤ length s)%nat → take n b' = tiled n s).
  { intros n Hn. rewrite tiled_short, <- Hbs, take_take by done. f_equal. lia. }
  cbv zeta. destruct (Z.ltb_spec 0 len); [|apply Hfin; [done|apply Hshort; lia]].
  destruct (Z.eqb_spec (Z.of_nat (length s)) 1).
  - destruct s as [|c [|? ?]]; [done| |cbn in *; lia]. change (length [c]) with 1%nat in *.
    apply mwp_bind, mwp_read; [unfold in_range; lia|].
    change (slice (Z.to_nat 0) (Z.to_nat 1) b') with (take 1 b'). rewrite Hbs.
    apply (bsetstr_room _ _ _ _ _ [c]); [done| |lia|lia|].
    + assert (heap_ok (Heap (delete k (blocks h)) (strs h) f)) as Hok.
      { split; intros x; cbn; [rewrite lookup_delete_is_Some; intros [_ ?%Hh]|intros ?%Hh]; lia. }
      pose proof (heap_ok_block_lt _ _ _ Hh Hk). pose proof (heap_ok_str_lt _ _ _ Hh Ha).
      split; intros x; cbn; rewrite lookup_insert_is_Some; intros [<-|[_ ?%Hok]]; cbn in *; lia.
    + intros t2 b2 Hb2. apply effect_moved; [done|done|].
      rewrite tiled_one. unfold splice in Hb2. rewrite app_nil_l, take_ge, drop_ge, app_nil_r in Hb2 by (cbn; lia).
      destruct (Z.to_nat len) as [|n] eqn:En; [lia|]. cbn in Hb2. by rewrite Nat.sub_0_r in Hb2.
  - apply mwp_bind. destruct (decide (Z.to_nat len ≤ length s)%nat).
    + replace (Z.to_nat (len - Z.of_nat (length s))) with 0%nat by lia. apply mwp_ret, Hfin; [done|].
      by apply Hshort.
    + apply (mwp_repeat _ _ _ _ s); [lia|by apply Hshort|lia|].
      intros b2 Hl2 Ht2. apply Hfin; [done|].
      replace (length s + Z.to_nat (len - Z.of_nat (length s)))%nat with (Z.to_nat len) in Ht2 by lia. done.
Qed.
End Ops.
