(* ===== verification/BstrFind.v ===== *)
(** Comparison and search in byte strings (bstrlib.c, on the memory of Bstr). The
    operations read what lies between [data] and the end of its block; a loop that
    leaves the block faults. *)
From S2P Require Import Prelude Bstr.
#[local] Open Scope Z_scope.

(** Two strings and the bytes that can be read from their [data]. *)
Definition on_two (b0 b1 : option nat) (err : Z)
    (k : tagbstring → tagbstring → list Z → list Z → outcome Z) : M Z :=
  match b0, b1 with
  | Some b0, Some b1 =>
      t0 ← hdr b0; t1 ← hdr b1;
      if unreadable t0 || unreadable t1 then mret err
      else d0 ← bytes t0; d1 ← bytes t1; lift (k t0 t1 d0 d1)
  | _, _ => mret err
  end.

Definition same_data (t0 t1 : tagbstring) : bool := bool_decide (data t0 = data t1).

(** ** Comparison *)

Fixpoint cmp_loop (n : nat) (d0 d1 : list Z) (i : Z) : outcome (option Z) :=
  match n with
  | O => Done None
  | S n =>
      x ← at_ d0 i; y ← at_ d1 i;
      let v := s8 x - s8 y in
      if negb (v =? 0) then Done (Some v)
      else if x =? 0 then Done (Some BSTR_OK)
      else cmp_loop n d0 d1 (i + 1)
  end.

Definition bstrcmp (b0 b1 : option nat) : M Z :=
  on_two b0 b1 SHRT_MIN (λ t0 t1 d0 d1,
    let n := if slen t1 <? slen t0 then slen t1 else slen t0 in
    if (slen t0 =? slen t1) && (same_data t0 t1 || (slen t0 =? 0)) then Done BSTR_OK
    else
      r ← cmp_loop (Z.to_nat n) d0 d1 0;
      Done (match r with
            | Some v => v
            | None => if n <? slen t0 then 1 else if n <? slen t1 then -1 else BSTR_OK
            end)).

Definition bstrncmp (b0 b1 : option nat) (n : Z) : M Z :=
  on_two b0 b1 SHRT_MIN (λ t0 t1 d0 d1,
    let m := if slen t0 <? n then slen t0 else n in
    let m := if slen t1 <? m then slen t1 else m in
    r ← (if same_data t0 t1 then Done None else cmp_loop (Z.to_nat m) d0 d1 0);
    Done (match r with
          | Some v => v
          | None => if (n =? m) || (slen t0 =? slen t1) then BSTR_OK
                    else if m <? slen t0 then 1 else -1
          end)).

Fixpoint icmp_loop (diff : Z → Z → Z) (n : nat) (d0 d1 : list Z) (i : Z) : outcome (option Z) :=
  match n with
  | O => Done None
  | S n =>
      x ← at_ d0 i; y ← at_ d1 i;
      let v := s8 (downcase x) - s8 (downcase y) in
      if negb (v =? 0) then Done (Some (diff x y)) else icmp_loop diff n d0 d1 (i + 1)
  end.

(** The value of the first extra character. *)
Definition extra (d : list Z) (n : Z) : outcome Z :=
  c ← at_ d n; let v := s8 (downcase c) in Done (if v =? 0 then 256 else v).

Definition bstricmp (b0 b1 : option nat) : M Z :=
  on_two b0 b1 SHRT_MIN (λ t0 t1 d0 d1,
    let n := if slen t1 <? slen t0 then slen t1 else slen t0 in
    if (slen t0 =? slen t1) && same_data t0 t1 then Done BSTR_OK
    else
      r ← icmp_loop (λ x y, s8 (downcase x) - s8 (downcase y)) (Z.to_nat n) d0 d1 0;
      match r with
      | Some v => Done v
      | None => if n <? slen t0 then extra d0 n
                else if n <? slen t1 then v ← extra d1 n; Done (- v) else Done BSTR_OK
      end).

Definition bstrnicmp (b0 b1 : option nat) (n : Z) : M Z :=
  if n <? 0 then mret SHRT_MIN
  else
    on_two b0 b1 SHRT_MIN (λ t0 t1 d0 d1,
      let m := if slen t0 <? n then slen t0 else n in
      let m := if slen t1 <? m then slen t1 else m in
      r ← (if same_data t0 t1 then Done None
           else icmp_loop (λ x y, x - y) (Z.to_nat m) d0 d1 0);
      match r with
      | Some v => Done v
      | None => if (n =? m) || (slen t0 =? slen t1) then Done BSTR_OK
                else if m <? slen t0 then extra d0 m else v ← extra d1 m; Done (- v)
      end).

(** The loops that compare for equality, byte by byte or without regard to case. *)
Fixpoint eq_loop (eqb : Z → Z → bool) (n : nat) (d0 d1 : list Z) (i : Z) : outcome Z :=
  match n with
  | O => Done 1
  | S n => x ← at_ d0 i; y ← at_ d1 i; if eqb x y then eq_loop eqb n d0 d1 (i + 1) else Done 0
  end.
Definition eq_caseless (x y : Z) : bool := (x =? y) || (downcase x =? downcase y).

Definition biseq_with (eqb : Z → Z → bool) (b0 b1 : option nat) : M Z :=
  on_two b0 b1 BSTR_ERR (λ t0 t1 d0 d1,
    if negb (slen t0 =? slen t1) then Done BSTR_OK
    else if same_data t0 t1 || (slen t0 =? 0) then Done 1
    else eq_loop eqb (Z.to_nat (slen t0)) d0 d1 0).
Definition biseq : option nat → option nat → M Z := biseq_with Z.eqb.
Definition biseqcaseless : option nat → option nat → M Z := biseq_with eq_caseless.

(** The block is an argument in memory of its own. *)
Definition bisstem_with (eqb : Z → Z → bool) (b0 : option nat) (blk : option (list Z)) (len : Z) : M Z :=
  match b0, blk with
  | Some b0, Some blk =>
      t0 ← hdr b0;
      if unreadable t0 || (len <? 0) then mret BSTR_ERR
      else if slen t0 <? len then mret BSTR_OK
      else if len =? 0 then mret 1
      else d0 ← bytes t0; lift (eq_loop eqb (Z.to_nat len) d0 blk 0)
  | _, _ => mret BSTR_ERR
  end.
Definition bisstemeqblk : option nat → option (list Z) → Z → M Z := bisstem_with Z.eqb.
Definition bisstemeqcaselessblk : option nat → option (list Z) → Z → M Z := bisstem_with eq_caseless.

(** [s] is followed by its NUL. *)
Fixpoint cstr_loop (eqb : Z → Z → bool) (n : nat) (d : list Z) (s : list Z) (i : Z) : outcome Z :=
  let c := default 0 (s !! Z.to_nat i) in
  match n with
  | O => Done (if c =? 0 then 1 else 0)
  | S n =>
      if c =? 0 then Done BSTR_OK
      else x ← at_ d i; if eqb x c then cstr_loop eqb n d s (i + 1) else Done BSTR_OK
  end.
Definition biseqcstr_with (eqb : Z → Z → bool) (b : option nat) (s : option (list Z)) : M Z :=
  match b, s with
  | Some b, Some s =>
      t ← hdr b;
      if unreadable t then mret BSTR_ERR
      else d ← bytes t; lift (cstr_loop eqb (Z.to_nat (slen t)) d s 0)
  | _, _ => mret BSTR_ERR
  end.
Definition biseqcstr : option nat → option (list Z) → M Z := biseqcstr_with Z.eqb.
Definition biseqcstrcaseless : option nat → option (list Z) → M Z := biseqcstr_with eq_caseless.

(** ** Search for a string *)

Section Search.
Context (d1 d0 : list Z).

(** The loop of [binstr] for an argument of [ll >= 2] bytes: [i] is the place in the
    string, [j] the number of bytes of the argument met from [ii] on, and [c1] the
    next one. The top of the body is reached when [i < lf], the code after the loop
    otherwise; [n0] is the label [N0]. *)
Fixpoint binstr_loop (fuel : nat) (ll lf : Z) (c0 : Z) (i j ii c1 : Z) : outcome Z :=
  match fuel with
  | O => Bug
  | S fuel =>
      let n0 i j ii := if i =? ii + j then Done ii else binstr_loop fuel ll lf c0 (i - j) 0 ii c0 in
      let found i :=
        let ii := if j =? 0 then i else ii in
        let j := j + 1 in let i := i + 1 in
        if j <? ll then c1 ← at_ d0 j; binstr_loop fuel ll lf c0 i j ii c1 else n0 i j ii in
      if i <? lf then
        x ← at_ d1 i;
        if c1 =? x then found i
        else
          y ← at_ d1 (1 + i);
          if c1 =? y then found (i + 1) else binstr_loop fuel ll lf c0 (i + 2) j ii c1
      else if (i =? lf) && (ll =? j + 1) then
        x ← at_ d1 i; if c1 =? x then n0 i j ii else Done BSTR_ERR
      else Done BSTR_ERR
  end.

(** The loop for one byte. *)
Fixpoint byte_loop (n : nat) (c0 : Z) (i : Z) : outcome Z :=
  match n with
  | O => Done BSTR_ERR
  | S n => x ← at_ d1 i; if c0 =? x then Done i else byte_loop n c0 (i + 1)
  end.

(** The loops of [binstrr] and, with [up], of [binstrcaseless]: [i] runs down to 0 or
    up to [l - 1]. *)
Fixpoint brute_loop (fuel : nat) (eqb : Z → Z → bool) (up : bool) (l ll i j : Z) : outcome Z :=
  match fuel with
  | O => Bug
  | S fuel =>
      x ← at_ d0 j; y ← at_ d1 (i + j);
      if eqb x y then
        let j := j + 1 in
        if ll <=? j then Done i else brute_loop fuel eqb up l ll i j
      else
        let i := if up then i + 1 else i - 1 in
        if (if up then l <=? i else i <? 0) then Done BSTR_ERR
        else brute_loop fuel eqb up l ll i 0
  end.
End Search.

(** Enough turns for the loops over [n] bytes. *)
Definition search_fuel (n : Z) : nat := Z.to_nat ((n + 3) * (n + 3)).

Definition binstr (b1 : option nat) (pos : Z) (b2 : option nat) : M Z :=
  on_two b1 b2 BSTR_ERR (λ t1 t2 d1 d0,
    if slen t1 =? pos then Done (if slen t2 =? 0 then pos else BSTR_ERR)
    else if (slen t1 <? pos) || (pos <? 0) then Done BSTR_ERR
    else if slen t2 =? 0 then Done pos
    else
      let lf := slen t1 - slen t2 + 1 in
      if lf <=? pos then Done BSTR_ERR
      else if same_data t1 t2 && (pos =? 0) then Done 0
      else
        let ll := slen t2 in
        c0 ← at_ d0 0;
        if 1 =? ll then byte_loop d1 (Z.to_nat (lf - pos)) c0 pos
        else binstr_loop d1 d0 (search_fuel (slen t1)) ll (slen t1 - 1) c0 pos 0 (-1) c0).

Definition binstrcaseless (b1 : option nat) (pos : Z) (b2 : option nat) : M Z :=
  on_two b1 b2 BSTR_ERR (λ t1 t2 d1 d0,
    if slen t1 =? pos then Done (if slen t2 =? 0 then pos else BSTR_ERR)
    else if (slen t1 <? pos) || (pos <? 0) then Done BSTR_ERR
    else if slen t2 =? 0 then Done pos
    else
      let l := slen t1 - slen t2 + 1 in
      if l <=? pos then Done BSTR_ERR
      else if same_data t1 t2 && (pos =? 0) then Done BSTR_OK
      else brute_loop d1 d0 (search_fuel (slen t1)) eq_caseless true l (slen t2) pos 0).

Definition binstrr_with (eqb : Z → Z → bool) (b1 : option nat) (pos : Z) (b2 : option nat) : M Z :=
  on_two b1 b2 BSTR_ERR (λ t1 t2 d1 d0,
    if (slen t1 =? pos) && (slen t2 =? 0) then Done pos
    else if (slen t1 <? pos) || (pos <? 0) then Done BSTR_ERR
    else if slen t2 =? 0 then Done pos
    else if same_data t1 t2 && (pos =? 0) && (slen t2 <=? slen t1) then Done 0
    else
      let l := slen t1 - slen t2 in
      if l <? 0 then Done BSTR_ERR
      else
        let i := if l + 1 <=? pos then l else pos in
        brute_loop d1 d0 (search_fuel (slen t1)) eqb false 0 (slen t2) i 0).
Definition binstrr : option nat → Z → option nat → M Z := binstrr_with Z.eqb.
Definition binstrrcaseless : option nat → Z → option nat → M Z := binstrr_with eq_caseless.

(** ** Search for a character *)

Fixpoint scan_up (p : Z → bool) (n : nat) (d : list Z) (i : Z) : outcome Z :=
  match n with
  | O => Done BSTR_ERR
  | S n => c ← at_ d i; if p c then Done i else scan_up p n d (i + 1)
  end.
(** From [i = n - 1] down to 0. *)
Fixpoint scan_down (p : Z → bool) (n : nat) (d : list Z) : outcome Z :=
  match n with
  | O => Done BSTR_ERR
  | S i => c ← at_ d (Z.of_nat i); if p c then Done (Z.of_nat i) else scan_down p i d
  end.

Definition bstrchrp (b : option nat) (c pos : Z) : M Z :=
  match b with
  | None => mret BSTR_ERR
  | Some b =>
      t ← hdr b;
      if no_data t || (slen t <=? pos) || (pos <? 0) then mret BSTR_ERR
      else d ← bytes t; lift (scan_up (λ x, x =? u8 c) (Z.to_nat (slen t - pos)) d pos)
  end.

Definition bstrrchrp (b : option nat) (c pos : Z) : M Z :=
  match b with
  | None => mret BSTR_ERR
  | Some b =>
      t ← hdr b;
      if no_data t || (slen t <=? pos) || (pos <? 0) then mret BSTR_ERR
      else d ← bytes t; lift (scan_down (λ x, x =? u8 c) (Z.to_nat (pos + 1)) d)
  end.

(** [struct charField]: one bit per character. *)
Definition CFCLEN : nat := 32.
Definition testInCharField (cf : list Z) (c : Z) : bool :=
  negb (Z.land (default 0 (cf !! Z.to_nat (Z.shiftr c 3))) (Z.shiftl 1 (Z.land c 7)) =? 0).
Definition setInCharField (cf : list Z) (c : Z) : list Z :=
  alter (λ x, u8 (Z.lor x (u8 (Z.shiftl 1 (Z.land c 7))))) (Z.to_nat (Z.shiftr c 3)) cf.
Definition invertCharField (cf : list Z) : list Z := map (λ x, u8 (Z.lnot x)) cf.

(** The set of the characters of [b1]: none when it is NULL or empty. *)
Definition buildCharField (b1 : option nat) : M (option (list Z)) :=
  match b1 with
  | None => mret None
  | Some b1 =>
      t1 ← hdr b1;
      if no_data t1 || (slen t1 <=? 0) then mret None
      else
        d1 ← bytes t1; l ← lift (read_bytes d1 (Z.to_nat (slen t1)));
        mret (Some (foldl setInCharField (replicate CFCLEN 0) l))
  end.
(** [1 == b1->slen]: a set of one byte is left to [bstrchrp] and [bstrrchrp]. *)
Definition single (b1 : nat) : M (option Z) :=
  t1 ← hdr b1;
  if 1 =? slen t1 then d1 ← bytes t1; c ← lift (at_ d1 0); mret (Some c) else mret None.

Definition search_up (t0 : tagbstring) (pos : Z) (cf : option (list Z)) : M Z :=
  match cf with
  | None => mret BSTR_ERR
  | Some cf => d0 ← bytes t0; lift (scan_up (testInCharField cf) (Z.to_nat (slen t0 - pos)) d0 pos)
  end.
Definition search_down (t0 : tagbstring) (pos : Z) (cf : option (list Z)) : M Z :=
  match cf with
  | None => mret BSTR_ERR
  | Some cf => d0 ← bytes t0; lift (scan_down (testInCharField cf) (Z.to_nat (pos + 1)) d0)
  end.

(** [binchr] does not ask whether [b1] is NULL. *)
Definition binchr (b0 : option nat) (pos : Z) (b1 : option nat) : M Z :=
  match b0 with
  | None => mret BSTR_ERR
  | Some a0 =>
      t0 ← hdr a0;
      if (pos <? 0) || no_data t0 || (slen t0 <=? pos) then mret BSTR_ERR
      else
        a1 ← lift (deref b1);
        c ← single a1;
        match c with
        | Some c => bstrchrp b0 c pos
        | None => cf ← buildCharField b1; search_up t0 pos cf
        end
  end.

Definition bninchr (b0 : option nat) (pos : Z) (b1 : option nat) : M Z :=
  match b0 with
  | None => mret BSTR_ERR
  | Some a0 =>
      t0 ← hdr a0;
      if (pos <? 0) || no_data t0 || (slen t0 <=? pos) then mret BSTR_ERR
      else cf ← buildCharField b1; search_up t0 pos (invertCharField <$> cf)
  end.

Definition binchrr (b0 : option nat) (pos : Z) (b1 : option nat) : M Z :=
  match b0, b1 with
  | Some a0, Some a1 =>
      t0 ← hdr a0;
      if (pos <? 0) || no_data t0 || (slen t0 <? pos) then mret BSTR_ERR
      else
        let pos := if pos =? slen t0 then pos - 1 else pos in
        c ← single a1;
        match c with
        | Some c => bstrrchrp b0 c pos
        | None => cf ← buildCharField b1; search_down t0 pos cf
        end
  | _, _ => mret BSTR_ERR
  end.

Definition bninchrr (b0 : option nat) (pos : Z) (b1 : option nat) : M Z :=
  match b0 with
  | None => mret BSTR_ERR
  | Some a0 =>
      t0 ← hdr a0;
      if (pos <? 0) || no_data t0 || (slen t0 <? pos) then mret BSTR_ERR
      else
        let pos := if pos =? slen t0 then pos - 1 else pos in
        cf ← buildCharField b1; search_down t0 pos (invertCharField <$> cf)
  end.
