(* ===== verification/BstrFindSpec.v ===== *)
(** The comparisons and searches of BstrFind against their specifications: the order
    of the strings up to their first NUL, and the first or the last place where a
    string or a character of a set is found. *)
From S2P Require Import Prelude Bstr BstrMem BstrSpec BstrFind.
#[local] Open Scope Z_scope.

(** ** Reading two strings *)

(** The bytes from [q] to the end of its block. *)
Definition tail_of (h : heap) (q : ptr) : list Z :=
  drop (Z.to_nat (off q)) (default [] (blocks h !! blk q)).

Lemma tail_of_bytes h q s : bytes_at h q s → take (length s) (tail_of h q) = s.
Proof. intros (b&Hb&_&Hs). unfold tail_of. by rewrite Hb. Qed.

Lemma mwp_tail h q s t (Q : list Z → heap → Prop) :
  bytes_at h q s → data t = Some q → Q (tail_of h q) h → mwp (bytes t) h Q.
Proof.
  intros (b&Hb&(_&Ho&Hr)&_) Hq HQ. unfold bytes. rewrite Hq. apply mwp_bind. eapply mwp_lift; [done|].
  apply mwp_bind. unfold mwp, block, lift. unfold tail_of in HQ. rewrite Hb in *. cbn.
  rewrite decide_True; [done|]. unfold in_range. lia.
Qed.

(** A query does not change the memory. *)
Definition answers (h : heap) (P : Z → Prop) (r : Z) (h' : heap) : Prop := h' = h ∧ P r.

Lemma on_two_spec h a0 q0 s0 a1 q1 s1 err k (P : Z → Prop) :
  readable h a0 q0 s0 → readable h a1 q1 s1 →
  (∀ t0 t1 d0 d1, slen t0 = Z.of_nat (length s0) → slen t1 = Z.of_nat (length s1) →
    take (length s0) d0 = s0 → take (length s1) d1 = s1 →
    (same_data t0 t1 = true → d0 = d1) →
    ∃ v, k t0 t1 d0 d1 = Done v ∧ P v) →
  mwp (on_two (Some a0) (Some a1) err k) h (answers h P).
Proof.
  intros [(t0&Ha0&Hd0&Hs0) Hb0] [(t1&Ha1&Hd1&Hs1) Hb1] Hk.
  unfold on_two. apply mwp_bind. eapply mwp_hdr; [done|]. apply mwp_bind. eapply mwp_hdr; [done|].
  rewrite (readable_guard t0 q0 s0), (readable_guard t1 q1 s1) by done. cbn [orb].
  apply mwp_bind, (mwp_tail h q0 s0); [done..|]. apply mwp_bind, (mwp_tail h q1 s1); [done..|].
  destruct (Hk t0 t1 (tail_of h q0) (tail_of h q1)) as (v&Hv&HP); try done.
  - by apply tail_of_bytes.
  - by apply tail_of_bytes.
  - unfold same_data. rewrite Hd0, Hd1, bool_decide_eq_true. by intros [= ->].
  - eapply mwp_lift; done.
Qed.

Lemma at_take d s i c : take (length s) d = s → s !! i = Some c → at_ d (Z.of_nat i) = Done c.
Proof.
  intros Hd Hi. unfold at_. rewrite decide_True, Nat2Z.id by lia.
  rewrite <- Hd, lookup_take_Some in Hi. by destruct Hi as [-> _].
Qed.

(** ** The order of [bstrcmp] *)

(** The comparison of two strings: signed characters, up to the first NUL. *)
Fixpoint bcmp (s0 s1 : list Z) : Z :=
  match s0, s1 with
  | [], [] => 0
  | _ :: _, [] => 1
  | [], _ :: _ => -1
  | x :: s0, y :: s1 =>
      if s8 x - s8 y =? 0 then if x =? 0 then 0 else bcmp s0 s1 else s8 x - s8 y
  end.

(** A string up to its first NUL, with that NUL. *)
Fixpoint upto_nul (s : list Z) : list Z :=
  match s with [] => [] | c :: s => if c =? 0 then [c] else c :: upto_nul s end.

Definition bytes_ok (s : list Z) : Prop := Forall (λ c, 0 ≤ c < 256) s.

Lemma s8_inj x y : 0 ≤ x < 256 → 0 ≤ y < 256 → s8 x = s8 y → x = y.
Proof.
  intros Hx Hy E. unfold s8 in E.
  assert ((x + 2 ^ 7) mod 2 ^ 8 = (y + 2 ^ 7) mod 2 ^ 8) as E' by lia.
  destruct (decide (x < 128)), (decide (y < 128)).
  - rewrite !Z.mod_small in E' by lia. lia.
  - rewrite (Z.mod_small (x + _)) in E' by lia.
    rewrite <- (Z_mod_plus_full (y + _) (-1)), Z.mod_small in E' by lia. lia.
  - rewrite (Z.mod_small (y + _)) in E' by lia.
    rewrite <- (Z_mod_plus_full (x + _) (-1)), Z.mod_small in E' by lia. lia.
  - rewrite <- (Z_mod_plus_full (y + _) (-1)), <- (Z_mod_plus_full (x + _) (-1)), !Z.mod_small in E' by lia.
    lia.
Qed.

Lemma bcmp_self s : bcmp s s = 0.
Proof. induction s as [|c s IH]; [done|]. cbn. rewrite Z.sub_diag. cbn. by destruct (c =? 0). Qed.

Lemma bcmp_anti s0 s1 : bytes_ok s0 → bytes_ok s1 → bcmp s1 s0 = - bcmp s0 s1.
Proof.
  intros H0. revert s1. induction H0 as [|x s0 Hx _ IH]; intros [|y s1] H1; [done..|].
  apply Forall_cons in H1 as [Hy H1]. cbn.
  destruct (Z.eqb_spec (s8 y - s8 x) 0) as [E|E], (Z.eqb_spec (s8 x - s8 y) 0); try lia.
  assert (x = y) as -> by (apply s8_inj; lia). destruct (y =? 0); [done|]. by apply IH.
Qed.

Lemma bcmp_zero s0 s1 :
  bytes_ok s0 → bytes_ok s1 → bcmp s0 s1 = 0 ↔ upto_nul s0 = upto_nul s1.
Proof.
  intros H0. revert s1. induction H0 as [|x s0 Hx _ IH]; intros [|y s1] H1; [done| | |].
  - cbn. split; [done|]. by destruct (y =? 0).
  - cbn. split; [done|]. by destruct (x =? 0).
  - apply Forall_cons in H1 as [Hy H1]. cbn.
    destruct (Z.eqb_spec (s8 x - s8 y) 0) as [E|E].
    + assert (x = y) as <- by (apply s8_inj; lia). destruct (x =? 0); [done|].
      rewrite (IH s1 H1). split; [by intros ->|by intros [= ->]].
    + split; [done|]. intros Heq. exfalso. apply E.
      assert (x = y) as -> by (by destruct (x =? 0), (y =? 0); injection Heq). lia.
Qed.

Lemma bcmp_trans s0 s1 s2 :
  bytes_ok s0 → bytes_ok s1 → bytes_ok s2 → bcmp s0 s1 ≤ 0 → bcmp s1 s2 ≤ 0 → bcmp s0 s2 ≤ 0.
Proof.
  intros H0. revert s1 s2. induction H0 as [|x s0 Hx _ IH]; intros s1 s2 H1 H2 H01 H12.
  - by destruct s2.
  - destruct s1 as [|y s1]; [cbn in H01; lia|]. destruct s2 as [|z s2]; [cbn in H12; lia|].
    apply Forall_cons in H1 as [Hy H1]. apply Forall_cons in H2 as [Hz H2]. cbn in *.
    destruct (Z.eqb_spec (s8 x - s8 y) 0), (Z.eqb_spec (s8 y - s8 z) 0), (Z.eqb_spec (s8 x - s8 z) 0); try lia.
    assert (x = y) as <- by (apply s8_inj; lia). assert (x = z) as <- by (apply s8_inj; lia).
    revert H01 H12. destruct (x =? 0); [done|]. by apply IH.
Qed.

Lemma cmp_loop_spec s0 s1 d0 d1 i :
  take (length s0) d0 = s0 → take (length s1) d1 = s1 →
  (i ≤ length s0)%nat → (i ≤ length s1)%nat →
  ∃ r, cmp_loop (Nat.min (length s0) (length s1) - i) d0 d1 (Z.of_nat i) = Done r ∧
    match r with
    | Some v => v
    | None => if (length s1 <? length s0)%nat then 1 else if (length s0 <? length s1)%nat then -1 else 0
    end = bcmp (drop i s0) (drop i s1).
Proof.
  intros Hd0 Hd1. remember (Nat.min (length s0) (length s1) - i)%nat as n eqn:En.
  revert i En. induction n as [|n IH]; intros i En Hi0 Hi1.
  - eexists. split; [done|]. cbn beta iota. destruct (decide (i = length s0)) as [->|].
    + rewrite drop_all. destruct (drop (length s0) s1) eqn:E; apply (f_equal length) in E;
        rewrite length_drop in E; cbn [length] in E; cbn [bcmp].
      * rewrite !(proj2 (Nat.ltb_ge _ _)) by lia. done.
      * rewrite (proj2 (Nat.ltb_ge _ _)), (proj2 (Nat.ltb_lt _ _)) by lia. done.
    + assert (i = length s1) as -> by lia. rewrite drop_all.
      destruct (drop (length s1) s0) eqn:E; apply (f_equal length) in E; rewrite length_drop in E; cbn [length] in E; cbn [bcmp]; [lia|].
      by rewrite (proj2 (Nat.ltb_lt _ _)) by lia.
  - destruct (lookup_lt_is_Some_2 s0 i) as [x Hx]; [lia|].
    destruct (lookup_lt_is_Some_2 s1 i) as [y Hy]; [lia|].
    cbn [cmp_loop]. rewrite (at_take d0 s0 i x), (at_take d1 s1 i y) by done. cbn.
    rewrite (drop_S _ _ _ Hx), (drop_S _ _ _ Hy). cbn.
    destruct (s8 x - s8 y =? 0); cbn; [|eexists; by split].
    destruct (x =? 0); [eexists; by split|].
    replace (Z.of_nat i + 1) with (Z.of_nat (S i)) by lia. apply IH; lia.
Qed.

(** [bstrcmp] computes it. *)
Lemma bstrcmp_spec h a0 q0 s0 a1 q1 s1 :
  readable h a0 q0 s0 → readable h a1 q1 s1 →
  mwp (bstrcmp (Some a0) (Some a1)) h (answers h (λ r, r = bcmp s0 s1)).
Proof.
  intros H0 H1. eapply on_two_spec; [done..|]. intros t0 t1 d0 d1 Hs0 Hs1 Hd0 Hd1 Hsame.
  rewrite Hs0, Hs1. cbv zeta.
  destruct ((Z.of_nat (length s0) =? Z.of_nat (length s1)) && (same_data t0 t1 || (Z.of_nat (length s0) =? 0))) eqn:E.
  - eexists. split; [done|]. rewrite andb_true_iff, orb_true_iff, !Z.eqb_eq in E.
    destruct E as [E [Hd|Hz]].
    + rewrite <- Hd0, <- Hd1, (Hsame Hd). replace (length s1) with (length s0) by lia. by rewrite bcmp_self.
    + by destruct s0, s1.
  - destruct (cmp_loop_spec s0 s1 d0 d1 0 Hd0 Hd1) as (r&Hr&Hv); [lia|lia|].
    rewrite Nat.sub_0_r in Hr.
    replace (Z.to_nat (if Z.of_nat (length s1) <? Z.of_nat (length s0) then Z.of_nat (length s1) else Z.of_nat (length s0)))
      with (Nat.min (length s0) (length s1)) by (destruct (Z.ltb_spec (Z.of_nat (length s1)) (Z.of_nat (length s0))); lia).
    change (Z.of_nat 0) with 0 in Hr. rewrite Hr. cbn. eexists. split; [done|].
    rewrite !drop_0 in Hv. rewrite <- Hv. destruct r; [done|].
    destruct (Z.ltb_spec (Z.of_nat (length s1)) (Z.of_nat (length s0)));
    repeat match goal with |- context [?x <? ?y] => destruct (Z.ltb_spec x y) end;
      repeat match goal with |- context [(?x <? ?y)%nat] => destruct (Nat.ltb_spec x y) end; try done; lia.
Qed.

(** ** The first and the last place *)

(** [r] is the first place from [pos] on where [P] holds, or says there is none. *)
Definition first_at (P : nat → Prop) (pos : nat) (r : Z) : Prop :=
  (r = BSTR_ERR ∧ ∀ p, (pos ≤ p)%nat → ¬ P p) ∨
  (∃ p, r = Z.of_nat p ∧ (pos ≤ p)%nat ∧ P p ∧ ∀ p', (pos ≤ p' < p)%nat → ¬ P p').

(** The last one that is at most [pos]. *)
Definition last_at (P : nat → Prop) (pos : nat) (r : Z) : Prop :=
  (r = BSTR_ERR ∧ ∀ p, (p ≤ pos)%nat → ¬ P p) ∨
  (∃ p, r = Z.of_nat p ∧ (p ≤ pos)%nat ∧ P p ∧ ∀ p', (p < p' ≤ pos)%nat → ¬ P p').

(** [s2] is found in [s1] at [p], for a comparison of bytes. *)
Definition occurs (eqb : Z → Z → bool) (s1 s2 : list Z) (p : nat) : Prop :=
  (p + length s2 ≤ length s1)%nat ∧
  ∀ j x y, s2 !! j = Some x → s1 !! (p + j)%nat = Some y → eqb x y = true.

Section Binstr.
Context (s1 s2 d1 d0 : list Z) (pos : nat).
Hypothesis Hd1 : take (length s1) d1 = s1.
Hypothesis Hd0 : take (length s2) d0 = s2.
Hypothesis Hlong : (2 ≤ length s2 ≤ length s1)%nat.

Abbreviation found := (occurs Z.eqb s1 s2).

(** The invariant of the loop: [j] bytes of the argument were met from [ii] on, in
    order but maybe with others between them, and no occurrence can have its byte
    [j] before [i]. *)
Record scanning (i j ii : nat) : Prop := {
  sc_j : (j < length s2)%nat;
  sc_i : (pos ≤ i ≤ length s1)%nat;
  sc_first : ∀ p, (pos ≤ p)%nat → found p → (i ≤ p + j)%nat;
  sc_ii : (0 < j → pos ≤ ii ∧ ii + j ≤ i)%nat;
  sc_run : i = (ii + j)%nat → ∀ m, (m < j)%nat → s1 !! (ii + m)%nat = s2 !! m }.

(** What decreases: the place where the attempt started, then the place. *)
Definition start (i j ii : nat) : nat := if decide (j = 0)%nat then i else ii.
Definition effort (i j ii : nat) : nat :=
  ((length s1 + 1 - start i j ii) * (length s1 + 3) + (length s1 + 1 - i))%nat.

Lemma found_byte p j y : found p → (j < length s2)%nat → s1 !! (p + j)%nat = Some y → s2 !! j = Some y.
Proof.
  intros [_ H] Hj Hy. destruct (lookup_lt_is_Some_2 s2 j Hj) as [x Hx].
  specialize (H j x y Hx Hy). apply Z.eqb_eq in H. congruence.
Qed.

(** A byte that is not the next one is passed over. *)
Lemma scanning_skip i j ii x y :
  scanning i j ii → s1 !! i = Some x → s2 !! j = Some y → x ≠ y → scanning (S i) j ii.
Proof.
  intros [Hj Hi Hf Hii Hrun] Hx Hy Hne. pose proof (lookup_lt_Some _ _ _ Hx).
  split; [done|lia| |lia|].
  - intros p Hp Hfound. pose proof (Hf p Hp Hfound).
    assert (i ≠ p + j)%nat; [|lia]. intros ->. apply Hne.
    apply (found_byte p j) in Hx; [congruence|done|done].
  - intros E. destruct (decide (0 < j)%nat); [lia|]. intros m. lia.
Qed.

(** The next byte is met. *)
Lemma scanning_step i j ii x :
  scanning i j ii → s1 !! i = Some x → s2 !! j = Some x → (j + 1 < length s2)%nat →
  scanning (S i) (S j) (if decide (j = 0)%nat then i else ii).
Proof.
  intros [Hj Hi Hf Hii Hrun] Hx Hy Hlt. pose proof (lookup_lt_Some _ _ _ Hx).
  split; [lia|lia| | |].
  - intros p Hp Hfound. pose proof (Hf p Hp Hfound). lia.
  - destruct (decide (j = 0)%nat); lia.
  - intros E m Hm. destruct (decide (j = 0)%nat) as [->|].
    + assert (m = 0)%nat as -> by lia. rewrite Nat.add_0_r. congruence.
    + destruct (decide (m = j)) as [->|]; [replace (ii + j)%nat with i by lia; congruence|].
      apply Hrun; lia.
Qed.

(** The label [N0]: all bytes were met. *)
Lemma scanning_end i j ii x :
  scanning i j ii → s1 !! i = Some x → s2 !! j = Some x → (j + 1 = length s2)%nat →
  let ii := if decide (j = 0)%nat then i else ii in
  (S i = ii + length s2 → first_at found pos (Z.of_nat ii))%nat ∧
  (S i ≠ ii + length s2 → scanning (S i - length s2) 0 ii ∧ ii < S i - length s2)%nat.
Proof.
  intros [Hj Hi Hf Hii Hrun] Hx Hy Hlt ii'. pose proof (lookup_lt_Some _ _ _ Hx).
  assert (j ≠ 0)%nat as Hj0 by lia. unfold ii'. rewrite decide_False by done.
  split; intros E.
  - right. exists ii. split_and!; [done|lia| |].
    + split; [lia|]. intros m z y Hm Hy'. apply Z.eqb_eq.
      destruct (decide (m = j)) as [->|].
      * replace (ii + j)%nat with i in Hy' by lia. congruence.
      * rewrite Hrun in Hy'; [congruence|lia|]. apply lookup_lt_Some in Hm. lia.
    + intros p Hp Hfound. specialize (Hf p ltac:(lia) Hfound). lia.
  - split; [|lia]. split; [lia|lia| |lia|lia].
    intros p Hp Hfound. specialize (Hf p Hp Hfound). lia.
Qed.

(** No byte of the string is left for the argument. *)
Lemma scanning_none i j ii :
  scanning i j ii → (length s1 < i + (length s2 - j))%nat → first_at found pos BSTR_ERR.
Proof.
  intros [Hj Hi Hf _ _] Hlen. left. split; [done|]. intros p Hp Hfound.
  pose proof (Hf p Hp Hfound). destruct Hfound. lia.
Qed.

Context (c0 : Z).
Hypothesis Hc0 : s2 !! 0%nat = Some c0.
Abbreviation loop fuel := (binstr_loop d1 d0 fuel (Z.of_nat (length s2)) (Z.of_nat (length s1) - 1) c0).

Lemma effort_lt i j ii i' j' ii' :
  (start i j ii ≤ start i' j' ii')%nat → (i < i' ≤ length s1)%nat → (effort i' j' ii' < effort i j ii)%nat.
Proof.
  intros Hst Hi. unfold effort.
  assert (length s1 + 1 - start i' j' ii' ≤ length s1 + 1 - start i j ii)%nat as Hle by lia.
  pose proof (Nat.mul_le_mono_r _ _ (length s1 + 3) Hle). lia.
Qed.

(** The label in the code: the attempt is the answer, or a new one begins. *)
Lemma n0_spec fuel i j ii x iz jz iiz :
  (∀ i j ii iiz c1, scanning i j ii → s2 !! j = Some c1 → (0 < j → iiz = Z.of_nat ii)%nat →
    (effort i j ii < fuel)%nat →
    ∃ r, loop fuel (Z.of_nat i) (Z.of_nat j) iiz c1 = Done r ∧ first_at found pos r) →
  scanning i j ii → s1 !! i = Some x → s2 !! j = Some x → (j + 1 = length s2)%nat →
  (effort i j ii ≤ fuel)%nat → iz - jz = Z.of_nat (S i) - Z.of_nat (length s2) → iiz = Z.of_nat ii →
  ∃ r, (if iz =? iiz + jz then Done iiz else loop fuel (iz - jz) 0 iiz c0) = Done r ∧
    first_at found pos r.
Proof.
  intros IH Hs Hx Hy Hj Hfuel Hz ->. pose proof (scanning_end i j ii x Hs Hx Hy Hj) as He.
  rewrite decide_False in He by lia. destruct He as [Hyes Hno].
  pose proof (sc_ii _ _ _ Hs). pose proof (sc_i _ _ _ Hs).
  destruct (Z.eqb_spec iz (Z.of_nat ii + jz)).
  - eexists. split; [done|]. apply Hyes. lia.
  - destruct Hno as [Hs' Hlt]; [lia|].
    replace (iz - jz) with (Z.of_nat (S i - length s2)) by lia. change 0 with (Z.of_nat 0).
    eapply IH; [done|done|lia|]. unfold effort, start in *.
    rewrite decide_True by done. rewrite decide_False in Hfuel by lia.
    assert (length s1 + 1 - (S i - length s2) + 1 ≤ length s1 + 1 - ii)%nat as Hstep by lia.
    pose proof (Nat.mul_le_mono_r _ _ (length s1 + 3) Hstep). lia.
Qed.

Lemma binstr_loop_spec fuel i j ii iiz c1 :
  scanning i j ii → s2 !! j = Some c1 → (0 < j → iiz = Z.of_nat ii)%nat → (effort i j ii < fuel)%nat →
  ∃ r, loop fuel (Z.of_nat i) (Z.of_nat j) iiz c1 = Done r ∧ first_at found pos r.
Proof.
  revert i j ii iiz c1. induction fuel as [|fuel IH]; [lia|]. intros i j ii iiz c1 Hs Hc Hii Hfuel.
  (* a byte of the argument is met at [i'] *)
  assert (Hmet : ∀ i', scanning i' j ii → s1 !! i' = Some c1 → (i ≤ i')%nat →
    ∃ r, (let iiz := if Z.of_nat j =? 0 then Z.of_nat i' else iiz in
          let jz := Z.of_nat j + 1 in let iz := Z.of_nat i' + 1 in
          if jz <? Z.of_nat (length s2)
          then c1 ← at_ d0 jz; loop fuel iz jz iiz c1
          else if iz =? iiz + jz then Done iiz else loop fuel (iz - jz) 0 iiz c0) = Done r ∧
      first_at found pos r).
  { intros i' Hs' Hi' Hle. cbv zeta. assert (Hi := sc_i _ _ _ Hs').
    pose proof (lookup_lt_Some _ _ _ Hi').
    assert ((if Z.of_nat j =? 0 then Z.of_nat i' else iiz) =
      Z.of_nat (if decide (j = 0)%nat then i' else ii)) as ->.
    { destruct (Z.eqb_spec (Z.of_nat j) 0), (decide (j = 0)%nat); lia. }
    assert (effort i' j ii ≤ effort i j ii)%nat as Hef.
    { destruct (decide (i' = i)) as [->|]; [done|]. apply Nat.lt_le_incl, effort_lt; [|lia].
      unfold start. destruct (decide _); lia. }
    destruct (Z.ltb_spec (Z.of_nat j + 1) (Z.of_nat (length s2))).
    - destruct (lookup_lt_is_Some_2 s2 (S j)) as [c Hc']; [lia|].
      replace (Z.of_nat j + 1) with (Z.of_nat (S j)) by lia.
      replace (Z.of_nat i' + 1) with (Z.of_nat (S i')) by lia.
      rewrite (at_take d0 s2 (S j) c) by done. cbn [mbind outcome_bind].
      eapply IH; [eapply scanning_step; [done|done|done|lia]|done|done|].
      eapply Nat.lt_le_trans; [apply (effort_lt i' j ii)|lia]; [|lia].
      unfold start. destruct (decide (j = 0)%nat), (decide (S j = 0)%nat); lia.
    - pose proof (sc_j _ _ _ Hs'). rewrite decide_False by lia.
      eapply (n0_spec fuel i' j ii); [exact IH|done|done|done|lia|lia|lia|done]. }
  assert (Hi := sc_i _ _ _ Hs). assert (Hj := sc_j _ _ _ Hs).
  cbn [binstr_loop].
  destruct (Z.ltb_spec (Z.of_nat i) (Z.of_nat (length s1) - 1)).
  - destruct (lookup_lt_is_Some_2 s1 i) as [x Hx]; [lia|].
    destruct (lookup_lt_is_Some_2 s1 (S i)) as [y Hy]; [lia|].
    rewrite (at_take d1 s1 i x) by done. cbn -[Z.add].
    destruct (Z.eqb_spec c1 x) as [->|Hne]; [by apply Hmet|].
    replace (1 + Z.of_nat i) with (Z.of_nat (S i)) by lia.
    rewrite (at_take d1 s1 (S i) y) by done. cbn -[Z.add].
    assert (scanning (S i) j ii) as Hs1 by (by eapply scanning_skip).
    destruct (Z.eqb_spec c1 y) as [->|Hne'].
    + replace (Z.of_nat i + 1) with (Z.of_nat (S i)) by lia. apply Hmet; [done|done|lia].
    + replace (Z.of_nat i + 2) with (Z.of_nat (S (S i))) by lia.
      assert (scanning (S (S i)) j ii) as Hs2 by (by eapply scanning_skip).
      eapply IH; [done..|]. pose proof (sc_i _ _ _ Hs2).
      eapply Nat.lt_le_trans; [apply (effort_lt i j ii)|lia]; [|lia].
      unfold start. destruct (decide _); lia.
  - destruct (Z.eqb_spec (Z.of_nat i) (Z.of_nat (length s1) - 1)); cbn [andb].
    2: { eexists. split; [done|]. eapply scanning_none; [done|lia]. }
    destruct (Z.eqb_spec (Z.of_nat (length s2)) (Z.of_nat j + 1)).
    2: { eexists. split; [done|]. eapply scanning_none; [done|lia]. }
    destruct (lookup_lt_is_Some_2 s1 i) as [x Hx]; [lia|].
    rewrite (at_take d1 s1 i x) by done. cbn [mbind outcome_bind].
    destruct (Z.eqb_spec c1 x) as [->|Hne].
    + eapply (n0_spec fuel i j ii); [exact IH|done|done|done|lia|lia|lia|apply Hii; lia].
    + eexists. split; [done|]. eapply scanning_none; [by eapply scanning_skip|lia].
Qed.
End Binstr.

(** [binstr] finds the first place, and needs no more turns than it is given. *)
Lemma byte_loop_spec s1 d1 c pos n :
  take (length s1) d1 = s1 → (pos + n = length s1)%nat →
  ∃ r, byte_loop d1 n c (Z.of_nat pos) = Done r ∧ first_at (occurs Z.eqb s1 [c]) pos r.
Proof.
  intros Hd. revert pos. induction n as [|n IH]; intros pos Hn; cbn [byte_loop].
  - eexists. split; [done|]. left. split; [done|]. intros p Hp [Hl _]. cbn in Hl. lia.
  - destruct (lookup_lt_is_Some_2 s1 pos) as [x Hx]; [lia|].
    rewrite (at_take d1 s1 pos x) by done. cbn [mbind outcome_bind].
    destruct (Z.eqb_spec c x) as [->|Hne].
    + eexists. split; [done|]. right. exists pos. split_and!; [done|done| |lia]. split; [cbn; lia|].
      intros [|j] y z Hy Hz; [|done]. rewrite Nat.add_0_r in Hz. apply Z.eqb_eq.
      injection Hy as <-. congruence.
    + replace (Z.of_nat pos + 1) with (Z.of_nat (S pos)) by lia.
      destruct (IH (S pos)) as (r&->&Hr); [lia|]. exists r. split; [done|].
      assert (¬ occurs Z.eqb s1 [c] pos) as Hno.
      { intros [_ Ho]. apply Hne. apply Z.eqb_eq, (Ho 0%nat); [done|by rewrite Nat.add_0_r]. }
      destruct Hr as [[-> Hr]|(p&->&Hp&Hf&Hr)]; [left|right].
      * split; [done|]. intros p Hp. destruct (decide (p = pos)) as [->|]; [done|apply Hr; lia].
      * exists p. split_and!; [done|lia|done|]. intros p' Hp'.
        destruct (decide (p' = pos)) as [->|]; [done|apply Hr; lia].
Qed.

Lemma occurs_nil eqb s1 p : (p ≤ length s1)%nat → occurs eqb s1 [] p.
Proof. intros. split; [cbn; lia|]. intros j x y Hx. done. Qed.

Lemma first_here (P : nat → Prop) pos : P pos → first_at P pos (Z.of_nat pos).
Proof. intros. right. exists pos. split_and!; [done|done|done|lia]. Qed.

(** An argument with the same [data] is found at once. *)
Lemma occurs_alias eqb s1 s2 d :
  (∀ x, eqb x x = true) → take (length s1) d = s1 → take (length s2) d = s2 → (length s2 ≤ length s1)%nat →
  occurs eqb s1 s2 0.
Proof.
  intros Hrefl H1 H2 Hl. split; [done|]. intros j x y Hx Hy. cbn in Hy.
  rewrite <- H2, lookup_take_Some in Hx. rewrite <- H1, lookup_take_Some in Hy.
  destruct Hx as [Hx _], Hy as [Hy _]. assert (x = y) as <- by congruence. done.
Qed.

Lemma first_early eqb s1 s2 pos :
  (length s1 < pos + length s2)%nat → first_at (occurs eqb s1 s2) pos BSTR_ERR.
Proof. intros. left. split; [done|]. intros p Hp [Hl _]. lia. Qed.

(** The tests before the loop: they answer, or the argument has a byte and fits. *)
Lemma first_cases eqb s1 s2 d1 d0 t1 t2 pos (K : outcome Z) :
  (∀ x, eqb x x = true) → take (length s1) d1 = s1 → take (length s2) d0 = s2 →
  (same_data t1 t2 = true → d1 = d0) →
  let m :=
    if Z.of_nat (length s1) =? Z.of_nat pos
    then Done (if Z.of_nat (length s2) =? 0 then Z.of_nat pos else BSTR_ERR)
    else if (Z.of_nat (length s1) <? Z.of_nat pos) || (Z.of_nat pos <? 0) then Done BSTR_ERR
    else if Z.of_nat (length s2) =? 0 then Done (Z.of_nat pos)
    else if Z.of_nat (length s1) - Z.of_nat (length s2) + 1 <=? Z.of_nat pos then Done BSTR_ERR
    else if same_data t1 t2 && (Z.of_nat pos =? 0) then Done 0 else K in
  (∃ v, m = Done v ∧ first_at (occurs eqb s1 s2) pos v) ∨
  ((1 ≤ length s2 ∧ pos + length s2 ≤ length s1)%nat ∧ m = K).
Proof.
  intros Hrefl Hd1 Hd0 Hsame. cbv zeta.
  destruct (Z.eqb_spec (Z.of_nat (length s1)) (Z.of_nat pos)) as [E|E].
  { left. eexists. split; [done|]. destruct (Z.eqb_spec (Z.of_nat (length s2)) 0).
    - apply first_here. destruct s2; [apply occurs_nil; lia|done].
    - apply first_early. lia. }
  rewrite (proj2 (Z.ltb_ge (Z.of_nat pos) 0)), orb_false_r by lia.
  destruct (Z.ltb_spec (Z.of_nat (length s1)) (Z.of_nat pos)).
  { left. eexists. split; [done|]. apply first_early. lia. }
  destruct (Z.eqb_spec (Z.of_nat (length s2)) 0).
  { left. eexists. split; [done|]. apply first_here. destruct s2; [apply occurs_nil; lia|done]. }
  destruct (Z.leb_spec (Z.of_nat (length s1) - Z.of_nat (length s2) + 1) (Z.of_nat pos)).
  { left. eexists. split; [done|]. apply first_early. lia. }
  destruct (same_data t1 t2 && (Z.of_nat pos =? 0)) eqn:Ealias; [|right; split; [lia|done]].
  apply andb_true_iff in Ealias as [Hs Hp%Z.eqb_eq]. assert (pos = 0)%nat as -> by lia.
  left. eexists. split; [done|]. apply (first_here _ 0). rewrite (Hsame Hs) in Hd1.
  eapply occurs_alias; [done|done|done|lia].
Qed.

Lemma binstr_spec h a0 q0 s1 a1 q1 s2 pos :
  readable h a0 q0 s1 → readable h a1 q1 s2 →
  mwp (binstr (Some a0) (Z.of_nat pos) (Some a1)) h (answers h (first_at (occurs Z.eqb s1 s2) pos)).
Proof.
  intros H0 H1. eapply on_two_spec; [done..|]. intros t1 t2 d1 d0 Hs1 Hs2 Hd1 Hd0 Hsame.
  rewrite Hs1, Hs2. cbv zeta.
  edestruct (first_cases Z.eqb s1 s2 d1 d0 t1 t2 pos) as [H|[H' ->]];
    [apply Z.eqb_refl|done|done|done|exact H|].
  destruct (lookup_lt_is_Some_2 s2 0) as [c0 Hc0]; [lia|].
  change 0 with (Z.of_nat 0). rewrite (at_take d0 s2 0 c0) by done. cbn [mbind outcome_bind].
  destruct (Z.eqb_spec 1 (Z.of_nat (length s2))).
  - replace (Z.to_nat _) with (length s1 - pos)%nat by lia.
    assert (s2 = [c0]) as -> by (destruct s2 as [|? [|]]; cbn in *; try lia; by injection Hc0 as ->).
    apply byte_loop_spec; [done|lia].
  - eapply (binstr_loop_spec s1 s2 d1 d0 pos Hd1 Hd0 ltac:(lia) c0 Hc0 _ pos 0 0); [|done|lia|].
    + split; lia.
    + unfold effort, start, search_fuel. rewrite decide_True by done. nia.
Qed.

Section Brute.
Context (eqb : Z → Z → bool) (s1 s2 d1 d0 : list Z) (pos : nat).
Hypothesis Hrefl : ∀ x, eqb x x = true.
Hypothesis Hd1 : take (length s1) d1 = s1.
Hypothesis Hd0 : take (length s2) d0 = s2.
Hypothesis Hlong : (1 ≤ length s2 ≤ length s1)%nat.

Definition matched (i j : nat) : Prop :=
  ∀ m x y, (m < j)%nat → s2 !! m = Some x → s1 !! (i + m)%nat = Some y → eqb x y = true.

Lemma matched_0 i : matched i 0.
Proof. by intros m x y ?%Nat.nlt_0_r. Qed.

(** One turn: the answer, one more byte, or a mismatch. *)
Lemma brute_turn up l fuel i j :
  (j < length s2)%nat → (i + length s2 ≤ length s1)%nat → matched i j →
  (occurs eqb s1 s2 i ∧
   brute_loop d1 d0 (S fuel) eqb up l (Z.of_nat (length s2)) (Z.of_nat i) (Z.of_nat j) = Done (Z.of_nat i)) ∨
  ((S j < length s2)%nat ∧ matched i (S j) ∧
   brute_loop d1 d0 (S fuel) eqb up l (Z.of_nat (length s2)) (Z.of_nat i) (Z.of_nat j)
   = brute_loop d1 d0 fuel eqb up l (Z.of_nat (length s2)) (Z.of_nat i) (Z.of_nat (S j))) ∨
  (¬ occurs eqb s1 s2 i ∧
   brute_loop d1 d0 (S fuel) eqb up l (Z.of_nat (length s2)) (Z.of_nat i) (Z.of_nat j)
   = let i' := if up : bool then Z.of_nat i + 1 else Z.of_nat i - 1 in
     if (if up then l <=? i' else i' <? 0) then Done BSTR_ERR
     else brute_loop d1 d0 fuel eqb up l (Z.of_nat (length s2)) i' 0).
Proof.
  intros Hj Hi Hm. cbn [brute_loop].
  destruct (lookup_lt_is_Some_2 s2 j Hj) as [x Hx].
  destruct (lookup_lt_is_Some_2 s1 (i + j)) as [y Hy]; [lia|].
  rewrite (at_take d0 s2 j x), <- Nat2Z.inj_add, (at_take d1 s1 (i + j) y) by done.
  cbn [mbind outcome_bind]. destruct (eqb x y) eqn:E.
  - assert (matched i (S j)) as Hm'.
    { intros m x' y' Hlt Hx' Hy'. destruct (decide (m = j)) as [->|]; [congruence|].
      eapply Hm; [|done|done]. lia. }
    replace (Z.of_nat j + 1) with (Z.of_nat (S j)) by lia. cbv zeta.
    destruct (Z.leb_spec (Z.of_nat (length s2)) (Z.of_nat (S j))).
    + left. split; [|done]. split; [done|]. intros m x' y' Hx' Hy'.
      eapply Hm'; [|done|done]. apply lookup_lt_Some in Hx'. lia.
    + right; left. split_and!; [lia|done|done].
  - right; right. split; [|done]. intros [_ Ho]. rewrite (Ho j x y Hx Hy) in E. done.
Qed.

Lemma brute_up_spec fuel i j :
  (j < length s2)%nat → (pos ≤ i)%nat → (i + length s2 ≤ length s1)%nat → matched i j →
  (∀ p, (pos ≤ p < i)%nat → ¬ occurs eqb s1 s2 p) →
  ((length s1 - i) * (length s2 + 1) + (length s2 - j) < fuel)%nat →
  ∃ r, brute_loop d1 d0 fuel eqb true (Z.of_nat (length s1) - Z.of_nat (length s2) + 1)
    (Z.of_nat (length s2)) (Z.of_nat i) (Z.of_nat j) = Done r ∧ first_at (occurs eqb s1 s2) pos r.
Proof.
  revert i j. induction fuel as [|fuel IH]; [by intros ????????%Nat.nlt_0_r|]. intros i j Hj Hp Hi Hm Hno Hf.
  destruct (brute_turn true (Z.of_nat (length s1) - Z.of_nat (length s2) + 1) fuel i j Hj Hi Hm)
    as [[Ho ->]|[(Hj'&Hm'&->)|[Ho ->]]].
  - eexists. split; [done|]. right. exists i. done.
  - apply IH; try done. lia.
  - cbv zeta. destruct (Z.leb_spec (Z.of_nat (length s1) - Z.of_nat (length s2) + 1) (Z.of_nat i + 1)).
    + eexists. split; [done|]. left. split; [done|]. intros p Hpp Hop.
      destruct (decide (p = i)) as [->|]; [done|]. destruct (decide (p < i)%nat).
      * by apply (Hno p).
      * destruct Hop. lia.
    + replace (Z.of_nat i + 1) with (Z.of_nat (S i)) by lia. change 0 with (Z.of_nat 0).
      apply IH; [lia|lia|lia|apply matched_0| |].
      * intros p Hpp. destruct (decide (p = i)) as [->|]; [done|]. apply Hno. lia.
      * pose proof (Nat.mul_sub_distr_r (length s1 - i) 1 (length s2 + 1)).
        replace (length s1 - S i)%nat with (length s1 - i - 1)%nat by lia. nia.
Qed.

Lemma brute_down_spec fuel i j :
  (j < length s2)%nat → (i ≤ pos)%nat → (i + length s2 ≤ length s1)%nat → matched i j →
  (∀ p, (i < p ≤ pos)%nat → ¬ occurs eqb s1 s2 p) →
  (i * (length s2 + 1) + (length s2 - j) < fuel)%nat →
  ∃ r, brute_loop d1 d0 fuel eqb false 0 (Z.of_nat (length s2)) (Z.of_nat i) (Z.of_nat j) = Done r ∧
    last_at (occurs eqb s1 s2) pos r.
Proof.
  revert i j. induction fuel as [|fuel IH]; [by intros ????????%Nat.nlt_0_r|]. intros i j Hj Hp Hi Hm Hno Hf.
  destruct (brute_turn false 0 fuel i j Hj Hi Hm) as [[Ho ->]|[(Hj'&Hm'&->)|[Ho ->]]].
  - eexists. split; [done|]. right. exists i. done.
  - apply IH; try done. lia.
  - cbv zeta. destruct (Z.ltb_spec (Z.of_nat i - 1) 0).
    + eexists. split; [done|]. left. split; [done|]. intros p Hpp Hop.
      destruct (decide (p = i)) as [->|]; [done|]. apply (Hno p); [lia|done].
    + destruct i as [|i]; [lia|]. replace (Z.of_nat (S i) - 1) with (Z.of_nat i) by lia.
      change 0 with (Z.of_nat 0).
      apply IH; [lia|lia|lia|apply matched_0| |lia].
      intros p Hpp. destruct (decide (p = S i)) as [->|]; [done|]. apply Hno. lia.
Qed.
End Brute.

Lemma eq_caseless_refl x : eq_caseless x x = true.
Proof. unfold eq_caseless. by rewrite Z.eqb_refl. Qed.

Lemma last_here (P : nat → Prop) pos : P pos → last_at P pos (Z.of_nat pos).
Proof. intros. right. exists pos. split_and!; [done|done|done|lia]. Qed.

(** Backwards, for a comparison of bytes that is reflexive. *)
Lemma binstrr_with_spec eqb h a0 q0 s1 a1 q1 s2 pos :
  (∀ x, eqb x x = true) → readable h a0 q0 s1 → readable h a1 q1 s2 → (pos ≤ length s1)%nat →
  mwp (binstrr_with eqb (Some a0) (Z.of_nat pos) (Some a1)) h
    (answers h (last_at (occurs eqb s1 s2) pos)).
Proof.
  intros Hrefl H0 H1 Hpos. eapply on_two_spec; [done..|]. intros t1 t2 d1 d0 Hs1 Hs2 Hd1 Hd0 Hsame.
  rewrite Hs1, Hs2. cbv zeta.
  destruct ((Z.of_nat (length s1) =? Z.of_nat pos) && (Z.of_nat (length s2) =? 0)) eqn:E.
  { apply andb_true_iff in E as [_ E%Z.eqb_eq]. eexists. split; [done|]. apply last_here.
    destruct s2; [by apply occurs_nil|cbn in *; lia]. }
  rewrite !(proj2 (Z.ltb_ge _ _)) by lia. cbn [orb].
  destruct (Z.eqb_spec (Z.of_nat (length s2)) 0).
  { eexists. split; [done|]. apply last_here. destruct s2; [by apply occurs_nil|cbn in *; lia]. }
  destruct (same_data t1 t2 && (Z.of_nat pos =? 0) && (Z.of_nat (length s2) <=? Z.of_nat (length s1))) eqn:Ea.
  { rewrite !andb_true_iff, Z.eqb_eq, Z.leb_le in Ea. destruct Ea as [[Hs Hp] Hl].
    assert (pos = 0)%nat as -> by lia. eexists. split; [done|]. apply (last_here _ 0).
    rewrite (Hsame Hs) in Hd1. eapply occurs_alias; [done|done|done|lia]. }
  destruct (Z.ltb_spec (Z.of_nat (length s1) - Z.of_nat (length s2)) 0).
  { eexists. split; [done|]. left. split; [done|]. intros p _ [Hl _]. lia. }
  set (i := Nat.min pos (length s1 - length s2)).
  replace (if Z.of_nat (length s1) - Z.of_nat (length s2) + 1 <=? Z.of_nat pos
    then Z.of_nat (length s1) - Z.of_nat (length s2) else Z.of_nat pos) with (Z.of_nat i).
  2: { destruct (Z.leb_spec (Z.of_nat (length s1) - Z.of_nat (length s2) + 1) (Z.of_nat pos)); lia. }
  assert (1 ≤ length s2 ≤ length s1)%nat as Hlong by lia.
  apply (brute_down_spec eqb s1 s2 d1 d0 pos Hd1 Hd0 Hlong _ i 0);
    [lia|lia|lia|apply matched_0| |].
  - intros p Hp [Hl _]. lia.
  - unfold search_fuel. nia.
Qed.

Lemma binstrcaseless_spec h a0 q0 s1 a1 q1 s2 pos :
  readable h a0 q0 s1 → readable h a1 q1 s2 →
  mwp (binstrcaseless (Some a0) (Z.of_nat pos) (Some a1)) h
    (answers h (first_at (occurs eq_caseless s1 s2) pos)).
Proof.
  intros H0 H1. eapply on_two_spec; [done..|]. intros t1 t2 d1 d0 Hs1 Hs2 Hd1 Hd0 Hsame.
  rewrite Hs1, Hs2. cbv zeta.
  edestruct (first_cases eq_caseless s1 s2 d1 d0 t1 t2 pos) as [H|[H' ->]];
    [apply eq_caseless_refl|done|done|done|exact H|].
  assert (1 ≤ length s2 ≤ length s1)%nat as Hlong by lia.
  apply (brute_up_spec eq_caseless s1 s2 d1 d0 pos Hd1 Hd0 Hlong _ pos 0);
    [lia|lia|lia|apply matched_0|lia|unfold search_fuel; nia].
Qed.

(** ** Characters and sets of characters *)

Definition holds_at (p : Z → bool) (s : list Z) (k : nat) : Prop := ∃ c, s !! k = Some c ∧ p c = true.

Lemma scan_up_spec p s d n i :
  take (length s) d = s → (i + n = length s)%nat →
  ∃ r, scan_up p n d (Z.of_nat i) = Done r ∧ first_at (holds_at p s) i r.
Proof.
  intros Hd. revert i. induction n as [|n IH]; intros i Hn; cbn [scan_up].
  - eexists. split; [done|]. left. split; [done|].
    intros k Hk (c&Hc&_). apply lookup_lt_Some in Hc. lia.
  - destruct (lookup_lt_is_Some_2 s i) as [c Hc]; [lia|].
    rewrite (at_take d s i c) by done. cbn [mbind outcome_bind]. destruct (p c) eqn:Hp.
    + eexists. split; [done|]. apply first_here. by exists c.
    + replace (Z.of_nat i + 1) with (Z.of_nat (S i)) by lia.
      destruct (IH (S i)) as (r&->&Hr); [lia|]. exists r. split; [done|].
      assert (¬ holds_at p s i) as Hno by (intros (c'&Hc'&Hp'); congruence).
      destruct Hr as [[-> Hr]|(k&->&Hk&Hf&Hr)]; [left|right].
      * split; [done|]. intros k Hk. destruct (decide (k = i)) as [->|]; [done|apply Hr; lia].
      * exists k. split_and!; [done|lia|done|]. intros k' Hk'.
        destruct (decide (k' = i)) as [->|]; [done|apply Hr; lia].
Qed.

Lemma scan_down_spec p s d n :
  take (length s) d = s → (S n ≤ length s)%nat →
  ∃ r, scan_down p (S n) d = Done r ∧ last_at (holds_at p s) n r.
Proof.
  intros Hd. induction n as [|n IH]; intros Hn; cbn [scan_down] in *.
  1: destruct (lookup_lt_is_Some_2 s 0) as [c Hc]; [lia|].
  2: destruct (lookup_lt_is_Some_2 s (S n)) as [c Hc]; [lia|].
  all: rewrite (at_take d s _ c Hd Hc); cbn [mbind outcome_bind]; destruct (p c) eqn:Hp;
    [eexists; split; [done|apply last_here; by exists c]|].
  - eexists. split; [done|]. left. split; [done|]. intros k Hk (c'&Hc'&Hp').
    assert (k = 0)%nat as -> by lia. congruence.
  - destruct IH as (r&->&Hr); [lia|]. exists r. split; [done|].
    assert (¬ holds_at p s (S n)) as Hno by (intros (c'&Hc'&Hp'); congruence).
    destruct Hr as [[-> Hr]|(k&->&Hk&Hf&Hr)]; [left|right].
    + split; [done|]. intros k Hk. destruct (decide (k = S n)) as [->|]; [done|apply Hr; lia].
    + exists k. split_and!; [done|lia|done|]. intros k' Hk'.
      destruct (decide (k' = S n)) as [->|]; [done|apply Hr; lia].
Qed.

(** A bit of a byte. *)
Lemma land_bit v k : 0 ≤ k → negb (Z.land v (Z.shiftl 1 k) =? 0) = Z.testbit v k.
Proof.
  intros Hk. rewrite Z.shiftl_1_l. destruct (Z.testbit v k) eqn:E.
  - apply negb_true_iff, Z.eqb_neq. intros Hz. apply (f_equal (λ z, Z.testbit z k)) in Hz.
    rewrite Z.land_spec, E, Z.pow2_bits_true, Z.bits_0 in Hz by done. done.
  - apply negb_false_iff, Z.eqb_eq, Z.bits_inj'. intros n Hn.
    rewrite Z.land_spec, Z.bits_0, Z.pow2_bits_eqb by done.
    destruct (Z.eqb_spec k n) as [->|]; [by rewrite E|apply andb_false_r].
Qed.

Lemma u8_bit z k : 0 ≤ k < 8 → Z.testbit (u8 z) k = Z.testbit z k.
Proof. intros. unfold u8. apply Z.mod_pow2_bits_low. lia. Qed.

Lemma char_place c : 0 ≤ c < 256 → 0 ≤ Z.land c 7 < 8 ∧ 0 ≤ Z.shiftr c 3 < 32 ∧ c = 8 * Z.shiftr c 3 + Z.land c 7.
Proof.
  intros Hc. change 7 with (Z.ones 3). rewrite Z.land_ones, Z.shiftr_div_pow2 by lia.
  change (2 ^ 3) with 8. pose proof (Z.div_mod c 8 ltac:(lia)). pose proof (Z.mod_pos_bound c 8 ltac:(lia)). lia.
Qed.

Lemma test_bit cf c :
  0 ≤ c < 256 → testInCharField cf c = Z.testbit (default 0 (cf !! Z.to_nat (Z.shiftr c 3))) (Z.land c 7).
Proof. intros Hc. destruct (char_place c Hc). apply land_bit. lia. Qed.

(** Adding a character. *)
Lemma test_set cf x c :
  length cf = CFCLEN → 0 ≤ x < 256 → 0 ≤ c < 256 →
  testInCharField (setInCharField cf x) c = bool_decide (c = x) || testInCharField cf c.
Proof.
  intros Hl Hx Hc. rewrite !test_bit by done.
  destruct (char_place x Hx) as (Hx1&Hx2&Ex), (char_place c Hc) as (Hc1&Hc2&Ec). unfold setInCharField.
  destruct (decide (Z.shiftr x 3 = Z.shiftr c 3)) as [E|E].
  - rewrite E. destruct (lookup_lt_is_Some_2 cf (Z.to_nat (Z.shiftr c 3))) as [v Hv];
      [unfold CFCLEN in Hl; lia|].
    rewrite list_lookup_alter_eq, Hv. cbn [default fmap option_fmap option_map from_option id].
    rewrite u8_bit, Z.lor_spec, u8_bit, Z.shiftl_1_l, Z.pow2_bits_eqb by lia.
    rewrite orb_comm. f_equal. apply eq_true_iff_eq.
    rewrite Z.eqb_eq, bool_decide_eq_true. lia.
  - rewrite list_lookup_alter_ne by lia. rewrite bool_decide_eq_false_2 by congruence. done.
Qed.

Lemma length_fields cf l : length (foldl setInCharField cf l) = length cf.
Proof. revert cf. induction l as [|x l IH]; intros cf; [done|]. cbn. rewrite IH. apply length_alter. Qed.

(** The bits are the set. *)
Lemma test_fields l cf c :
  length cf = CFCLEN → bytes_ok l → 0 ≤ c < 256 →
  testInCharField (foldl setInCharField cf l) c = bool_decide (c ∈ l) || testInCharField cf c.
Proof.
  intros Hcf Hl Hc. revert cf Hcf. induction Hl as [|x l Hx _ IH]; intros cf Hcf; [done|].
  cbn [foldl]. rewrite IH by (unfold setInCharField; by rewrite length_alter).
  rewrite test_set by done. rewrite orb_assoc. f_equal. apply eq_true_iff_eq.
  rewrite orb_true_iff, !bool_decide_eq_true, elem_of_cons. tauto.
Qed.

Lemma test_empty c : 0 ≤ c < 256 → testInCharField (replicate CFCLEN 0) c = false.
Proof.
  intros Hc. rewrite test_bit by done. destruct (char_place c Hc) as (?&?&_).
  rewrite lookup_replicate_2 by (unfold CFCLEN; lia). apply Z.bits_0.
Qed.

Lemma test_invert cf c :
  length cf = CFCLEN → 0 ≤ c < 256 → testInCharField (invertCharField cf) c = negb (testInCharField cf c).
Proof.
  intros Hl Hc. rewrite !test_bit by done. destruct (char_place c Hc) as (?&?&_).
  unfold invertCharField. rewrite list_lookup_fmap.
  destruct (lookup_lt_is_Some_2 cf (Z.to_nat (Z.shiftr c 3))) as [v ->]; [unfold CFCLEN in Hl; lia|].
  cbn [default fmap option_fmap option_map from_option id]. by rewrite u8_bit, Z.lnot_spec by lia.
Qed.

Lemma first_at_ext (P P' : nat → Prop) pos r : (∀ p, P p ↔ P' p) → first_at P pos r → first_at P' pos r.
Proof.
  intros HP [[-> H]|(p&->&?&?&H)]; [left|right; exists p]; split_and!; try done;
    [intros k Hk Hp; eapply H; [exact Hk|by apply HP]|by apply HP|intros k Hk Hp; eapply H; [exact Hk|by apply HP]].
Qed.
Lemma last_at_ext (P P' : nat → Prop) pos r : (∀ p, P p ↔ P' p) → last_at P pos r → last_at P' pos r.
Proof.
  intros HP [[-> H]|(p&->&?&?&H)]; [left|right; exists p]; split_and!; try done;
    [intros k Hk Hp; eapply H; [exact Hk|by apply HP]|by apply HP|intros k Hk Hp; eapply H; [exact Hk|by apply HP]].
Qed.

Lemma holds_at_ext p p' s k :
  (∀ c, 0 ≤ c < 256 → p c = p' c) → bytes_ok s → holds_at p s k ↔ holds_at p' s k.
Proof.
  intros Hp Hs. unfold holds_at. split; intros (c&Hc&Ht); exists c; (split; [done|]);
    pose proof (Forall_lookup_1 _ _ _ _ Hs Hc) as Hb; cbn in Hb; [rewrite <- Hp|rewrite Hp]; done.
Qed.

Lemma buildCharField_spec h a q s :
  readable h a q s →
  mwp (buildCharField (Some a)) h (λ r h', h' = h ∧
    r = if decide (s = []) then None else Some (foldl setInCharField (replicate CFCLEN 0) s)).
Proof.
  intros [(t&Ha&Hd&Hs) Hb]. unfold buildCharField. apply mwp_bind. eapply mwp_hdr; [done|].
  unfold no_data. rewrite Hd, Hs, bool_decide_eq_false_2 by done. cbn [orb].
  destruct (Z.leb_spec (Z.of_nat (length s)) 0).
  - apply mwp_ret. rewrite decide_True; [done|]. destruct s; [done|cbn in *; lia].
  - rewrite decide_False by (intros ->; cbn in *; lia).
    apply mwp_bind, (mwp_tail h q s); [done..|]. pose proof (tail_of_bytes _ _ _ Hb) as Ht.
    apply mwp_bind. eapply mwp_lift; [|by apply mwp_ret].
    unfold read_bytes. rewrite Nat2Z.id, decide_True, Ht; [done|].
    apply (f_equal length) in Ht. rewrite length_take in Ht. lia.
Qed.

(** The guard of the searches. *)
Lemma search_guard t q (s : list Z) pos :
  data t = Some q → slen t = Z.of_nat (length s) → (pos < length s)%nat →
  (Z.of_nat pos <? 0) || no_data t || (slen t <=? Z.of_nat pos) = false.
Proof.
  intros Hd Hs Hp. unfold no_data. rewrite Hd, Hs, bool_decide_eq_false_2 by done.
  by rewrite (proj2 (Z.ltb_ge _ _)), (proj2 (Z.leb_gt _ _)) by lia.
Qed.

Lemma bstrchrp_spec h a q s c pos :
  readable h a q s → (pos < length s)%nat → 0 ≤ c < 256 →
  mwp (bstrchrp (Some a) c (Z.of_nat pos)) h (answers h (first_at (λ k, s !! k = Some c) pos)).
Proof.
  intros [(t&Ha&Hd&Hs) Hb] Hp Hc. unfold bstrchrp. apply mwp_bind. eapply mwp_hdr; [done|].
  unfold no_data. rewrite Hd, Hs, bool_decide_eq_false_2, (proj2 (Z.leb_gt _ _)), (proj2 (Z.ltb_ge _ _)) by (done || lia).
  cbn [orb]. apply mwp_bind, (mwp_tail h q s); [done..|].
  replace (Z.to_nat _) with (length s - pos)%nat by lia.
  destruct (scan_up_spec (λ x, x =? u8 c) s (tail_of h q) (length s - pos) pos) as (r&Hr&Hf);
    [by apply tail_of_bytes|lia|].
  eapply mwp_lift; [exact Hr|]. split; [done|]. eapply first_at_ext; [|done].
  intros p. unfold holds_at, u8. rewrite Z.mod_small by lia.
  split; [intros (x&Hx&->%Z.eqb_eq); done|]. intros Hx. exists c. by rewrite Z.eqb_refl.
Qed.

Lemma bstrrchrp_spec h a q s c pos :
  readable h a q s → (pos < length s)%nat → 0 ≤ c < 256 →
  mwp (bstrrchrp (Some a) c (Z.of_nat pos)) h (answers h (last_at (λ k, s !! k = Some c) pos)).
Proof.
  intros [(t&Ha&Hd&Hs) Hb] Hp Hc. unfold bstrrchrp. apply mwp_bind. eapply mwp_hdr; [done|].
  unfold no_data. rewrite Hd, Hs, bool_decide_eq_false_2, (proj2 (Z.leb_gt _ _)), (proj2 (Z.ltb_ge _ _)) by (done || lia).
  cbn [orb]. apply mwp_bind, (mwp_tail h q s); [done..|].
  replace (Z.to_nat _) with (S pos) by lia.
  destruct (scan_down_spec (λ x, x =? u8 c) s (tail_of h q) pos) as (r&Hr&Hf);
    [by apply tail_of_bytes|lia|].
  eapply mwp_lift; [exact Hr|]. split; [done|]. eapply last_at_ext; [|done].
  intros p. unfold holds_at, u8. rewrite Z.mod_small by lia.
  split; [intros (x&Hx&->%Z.eqb_eq); done|]. intros Hx. exists c. by rewrite Z.eqb_refl.
Qed.

Definition member (s2 : list Z) (c : Z) : bool := bool_decide (c ∈ s2).

Lemma test_members s2 c :
  bytes_ok s2 → 0 ≤ c < 256 →
  testInCharField (foldl setInCharField (replicate CFCLEN 0) s2) c = member s2 c.
Proof.
  intros Hs Hc. rewrite test_fields, test_empty, orb_false_r by (done || apply length_replicate). done.
Qed.
Lemma test_others s2 c :
  bytes_ok s2 → 0 ≤ c < 256 →
  testInCharField (invertCharField (foldl setInCharField (replicate CFCLEN 0) s2)) c = negb (member s2 c).
Proof.
  intros Hs Hc. rewrite test_invert, test_members by (done || (rewrite length_fields; apply length_replicate)).
  done.
Qed.

(** The scans with a set of bits. *)
Lemma search_up_spec h t q s cf p pos :
  bytes_at h q s → bytes_ok s → data t = Some q → slen t = Z.of_nat (length s) → (pos < length s)%nat →
  (∀ c, 0 ≤ c < 256 → testInCharField cf c = p c) →
  mwp (search_up t (Z.of_nat pos) (Some cf)) h (answers h (first_at (holds_at p s) pos)).
Proof.
  intros Hb Hs Hd Hl Hp Hcf. unfold search_up. apply mwp_bind, (mwp_tail h q s); [done..|].
  rewrite Hl. replace (Z.to_nat _) with (length s - pos)%nat by lia.
  destruct (scan_up_spec (testInCharField cf) s (tail_of h q) (length s - pos) pos) as (r&Hr&Hf);
    [by apply tail_of_bytes|lia|].
  eapply mwp_lift; [exact Hr|]. split; [done|]. eapply first_at_ext; [|done].
  intros k. by apply holds_at_ext.
Qed.
Lemma search_down_spec h t q s cf p pos :
  bytes_at h q s → bytes_ok s → data t = Some q → (pos < length s)%nat →
  (∀ c, 0 ≤ c < 256 → testInCharField cf c = p c) →
  mwp (search_down t (Z.of_nat pos) (Some cf)) h (answers h (last_at (holds_at p s) pos)).
Proof.
  intros Hb Hs Hd Hp Hcf. unfold search_down. apply mwp_bind, (mwp_tail h q s); [done..|].
  replace (Z.to_nat _) with (S pos) by lia.
  destruct (scan_down_spec (testInCharField cf) s (tail_of h q) pos) as (r&Hr&Hf);
    [by apply tail_of_bytes|lia|].
  eapply mwp_lift; [exact Hr|]. split; [done|]. eapply last_at_ext; [|done].
  intros k. by apply holds_at_ext.
Qed.

Lemma single_spec h a q s :
  readable h a q s →
  mwp (single a) h (λ r h', h' = h ∧ match r with Some c => s = [c] | None => length s ≠ 1%nat end).
Proof.
  intros [(t&Ha&Hd&Hs) Hb]. unfold single. apply mwp_bind. eapply mwp_hdr; [done|]. rewrite Hs.
  destruct (Z.eqb_spec 1 (Z.of_nat (length s))); [|apply mwp_ret; split; [done|lia]].
  apply mwp_bind, (mwp_tail h q s); [done..|]. destruct s as [|c [|]]; cbn in *; try lia.
  apply mwp_bind. change 0 with (Z.of_nat 0).
  eapply mwp_lift; [apply (at_take _ [c] 0 c); [by apply (tail_of_bytes h q [c])|done]|].
  by apply mwp_ret.
Qed.

(** The first member of the set, and the first character that is none. *)
Lemma binchr_spec h a q s c q2 s2 pos :
  readable h a q s → readable h c q2 s2 → bytes_ok s → bytes_ok s2 → (pos < length s)%nat →
  mwp (binchr (Some a) (Z.of_nat pos) (Some c)) h (answers h (first_at (holds_at (member s2) s) pos)).
Proof.
  intros Ha Hc Hs Hs2 Hp. pose proof Ha as [(t&Ht&Hd&Hl) Hb].
  unfold binchr. apply mwp_bind. eapply mwp_hdr; [done|]. rewrite (search_guard t q s) by done.
  apply mwp_bind. eapply mwp_lift; [done|].
  apply mwp_bind. eapply mwp_mono; [by eapply single_spec|]. intros [x|] ? [-> Hx].
  - subst s2. eapply mwp_mono; [eapply bstrchrp_spec; [done..|]; by apply (Forall_lookup_1 _ _ 0%nat x Hs2)|].
    intros r ? [-> Hr]. split; [done|]. eapply first_at_ext; [|done]. intros k. unfold holds_at, member.
    split; [intros; exists x; by rewrite bool_decide_eq_true, list_elem_of_singleton|].
    intros (y&Hy&He). rewrite bool_decide_eq_true, list_elem_of_singleton in He. by subst.
  - apply mwp_bind. eapply mwp_mono; [by eapply buildCharField_spec|]. intros ? ? [-> ->].
    destruct (decide (s2 = [])) as [->|].
    + apply mwp_ret. split; [done|]. left. split; [done|]. intros p _ (y&_&Hy). done.
    + eapply search_up_spec; [done..|]. intros. by apply test_members.
Qed.

Lemma bninchr_spec h a q s c q2 s2 pos :
  readable h a q s → readable h c q2 s2 → bytes_ok s → bytes_ok s2 → (pos < length s)%nat → s2 ≠ [] →
  mwp (bninchr (Some a) (Z.of_nat pos) (Some c)) h
    (answers h (first_at (holds_at (λ x, negb (member s2 x)) s) pos)).
Proof.
  intros Ha Hc Hs Hs2 Hp Hne. pose proof Ha as [(t&Ht&Hd&Hl) Hb].
  unfold bninchr. apply mwp_bind. eapply mwp_hdr; [done|]. rewrite (search_guard t q s) by done.
  apply mwp_bind. eapply mwp_mono; [by eapply buildCharField_spec|]. intros ? ? [-> ->].
  rewrite decide_False by done. eapply search_up_spec; [done..|]. intros. by apply test_others.
Qed.

(** Backwards; [pos] may be the length. *)
Lemma last_snap (P : nat → Prop) n r :
  ¬ P n → last_at P (n - 1) r → (0 < n)%nat → last_at P n r.
Proof.
  intros HP [[-> H]|(p&->&?&?&H)] Hn; [left|right].
  - split; [done|]. intros p Hp. destruct (decide (p = n)) as [->|]; [done|]. apply H. lia.
  - exists p. split_and!; try done; [lia|]. intros p' Hp'.
    destruct (decide (p' = n)) as [->|]; [done|]. apply H. lia.
Qed.

Lemma snapped n pos : (pos ≤ n)%nat → (0 < n)%nat →
  ∃ p, (if Z.of_nat pos =? Z.of_nat n then Z.of_nat pos - 1 else Z.of_nat pos) = Z.of_nat p ∧
    (p < n)%nat ∧ (p = pos ∨ pos = n ∧ p = pos - 1)%nat.
Proof.
  intros. destruct (Z.eqb_spec (Z.of_nat pos) (Z.of_nat n)).
  - exists (pos - 1)%nat. split_and!; [lia|lia|right; lia].
  - exists pos. split_and!; [done|lia|by left].
Qed.

Lemma last_snapped p (s : list Z) pos k r :
  (k = pos ∨ pos = length s ∧ k = pos - 1)%nat → (0 < length s)%nat →
  last_at (holds_at p s) k r → last_at (holds_at p s) pos r.
Proof.
  intros [->|[-> ->]] Hs Hr; [done|]. apply last_snap; [|done|done].
  intros (c&Hc&_). apply lookup_lt_Some in Hc. lia.
Qed.

Lemma binchrr_spec h a q s c q2 s2 pos :
  readable h a q s → readable h c q2 s2 → bytes_ok s → bytes_ok s2 →
  (pos ≤ length s)%nat → (0 < length s)%nat →
  mwp (binchrr (Some a) (Z.of_nat pos) (Some c)) h (answers h (last_at (holds_at (member s2) s) pos)).
Proof.
  intros Ha Hc Hs Hs2 Hp Hn. pose proof Ha as [(t&Ht&Hd&Hl) Hb].
  destruct (snapped (length s) pos) as (k&Hk&Hkn&Hkp); [done..|].
  unfold binchrr. apply mwp_bind. eapply mwp_hdr; [done|].
  unfold no_data. rewrite Hd, Hl, bool_decide_eq_false_2, !(proj2 (Z.ltb_ge _ _)) by (done || lia).
  cbn [orb]. rewrite Hk.
  apply mwp_bind. eapply mwp_mono; [by eapply single_spec|]. intros [x|] ? [-> Hx].
  - subst s2. eapply mwp_mono; [eapply bstrrchrp_spec; [done..|]; by apply (Forall_lookup_1 _ _ 0%nat x Hs2)|].
    intros r ? [-> Hr]. split; [done|]. eapply last_snapped; [done..|].
    eapply last_at_ext; [|exact Hr]. intros i. unfold holds_at, member.
    split; [intros; exists x; by rewrite bool_decide_eq_true, list_elem_of_singleton|].
    intros (y&Hy&He). rewrite bool_decide_eq_true, list_elem_of_singleton in He. by subst.
  - apply mwp_bind. eapply mwp_mono; [by eapply buildCharField_spec|]. intros ? ? [-> ->].
    destruct (decide (s2 = [])) as [->|].
    + apply mwp_ret. split; [done|]. left. split; [done|]. intros p _ (y&_&Hy). done.
    + eapply mwp_mono; [eapply search_down_spec; [done..|]; intros; by apply test_members|].
      intros r ? [-> Hr]. split; [done|]. by eapply last_snapped.
Qed.

Lemma bninchrr_spec h a q s c q2 s2 pos :
  readable h a q s → readable h c q2 s2 → bytes_ok s → bytes_ok s2 → s2 ≠ [] →
  (pos ≤ length s)%nat → (0 < length s)%nat →
  mwp (bninchrr (Some a) (Z.of_nat pos) (Some c)) h
    (answers h (last_at (holds_at (λ x, negb (member s2 x)) s) pos)).
Proof.
  intros Ha Hc Hs Hs2 Hne Hp Hn. pose proof Ha as [(t&Ht&Hd&Hl) Hb].
  destruct (snapped (length s) pos) as (k&Hk&Hkn&Hkp); [done..|].
  unfold bninchrr. apply mwp_bind. eapply mwp_hdr; [done|].
  unfold no_data. rewrite Hd, Hl, bool_decide_eq_false_2, !(proj2 (Z.ltb_ge _ _)) by (done || lia).
  cbn [orb]. rewrite Hk.
  apply mwp_bind. eapply mwp_mono; [by eapply buildCharField_spec|]. intros ? ? [-> ->].
  rewrite decide_False by done.
  eapply mwp_mono; [eapply search_down_spec; [done..|]; intros; by apply test_others|].
  intros r ? [-> Hr]. split; [done|]. by eapply last_snapped.
Qed.

(** ** What the queries answer *)

(** C20. [binstr] finds the first place, from [pos] on, where the second string lies
    in the first one, or says that there is none, for strings that may share a block:
    its loop, which goes on two bytes at a time and does not go back when a byte
    differs, skips no occurrence and reports none that is not there; it stays inside
    the blocks and ends. *)
Theorem binstr_first h a q s1 c q2 s2 pos :
  readable h a q s1 → readable h c q2 s2 →
  ∃ r, binstr (Some a) (Z.of_nat pos) (Some c) h = Done (r, h) ∧
    first_at (occurs Z.eqb s1 s2) pos r.
Proof.
  intros Ha Hc. destruct (mwp_done _ _ _ (binstr_spec h a q s1 c q2 s2 pos Ha Hc)) as (r&h'&Hr&->&?).
  eauto.
Qed.

(** [bstrcmp] orders strings: swapping them changes the sign, the order is
    transitive, and the answer is 0 just when the two agree up to their first NUL.
    (The order is that of signed characters.) *)
Theorem bstrcmp_order h a0 q0 s0 a1 q1 s1 a2 q2 s2 :
  readable h a0 q0 s0 → readable h a1 q1 s1 → readable h a2 q2 s2 →
  bytes_ok s0 → bytes_ok s1 → bytes_ok s2 →
  ∃ r01 r10 r12 r02,
    bstrcmp (Some a0) (Some a1) h = Done (r01, h) ∧ bstrcmp (Some a1) (Some a0) h = Done (r10, h) ∧
    bstrcmp (Some a1) (Some a2) h = Done (r12, h) ∧ bstrcmp (Some a0) (Some a2) h = Done (r02, h) ∧
    r10 = - r01 ∧ (r01 ≤ 0 → r12 ≤ 0 → r02 ≤ 0) ∧ (r01 = 0 ↔ upto_nul s0 = upto_nul s1).
Proof.
  intros H0 H1 H2 Hb0 Hb1 Hb2.
  assert (∀ a q s a' q' s', readable h a q s → readable h a' q' s' →
    bstrcmp (Some a) (Some a') h = Done (bcmp s s', h)) as Hcmp.
  { intros a q s a' q' s' Ha Ha'.
    destruct (mwp_done _ _ _ (bstrcmp_spec h a q s a' q' s' Ha Ha')) as (r&h'&->&->&->). done. }
  exists (bcmp s0 s1), (bcmp s1 s0), (bcmp s1 s2), (bcmp s0 s2).
  split_and!; [by eapply Hcmp..|by apply bcmp_anti|by apply bcmp_trans|by apply bcmp_zero].
Qed.

(** Strings in memory, one after the other. *)
Definition placed (l : list (list Z)) : heap :=
  Heap (list_to_map (imap (λ i s, (i, s ++ [0])) l))
       (list_to_map (imap (λ i s, (i, Tag (Z.of_nat (length s) + 1) (Z.of_nat (length s)) (Some (Ptr i 0)))) l))
       (length l).

(** "ababab" and "abab": from 1 on it is found at 2. *)
Lemma binstr_first_witness :
  let h := placed [[97; 98; 97; 98; 97; 98]; [97; 98; 97; 98]] in
  ∃ r, binstr (Some 0%nat) 1 (Some 1%nat) h = Done (r, h) ∧ r = 2 ∧
    first_at (occurs Z.eqb [97; 98; 97; 98; 97; 98] [97; 98; 97; 98]) 1 r.
Proof.
  set (h := placed _). cbv zeta.
  assert (readable h 0 (Ptr 0 0) [97; 98; 97; 98; 97; 98]) as H0.
  { split; [eexists; done|]. eexists. split_and!; [reflexivity|by vm_compute|done]. }
  assert (readable h 1 (Ptr 1 0) [97; 98; 97; 98]) as H1.
  { split; [eexists; done|]. eexists. split_and!; [reflexivity|by vm_compute|done]. }
  destruct (binstr_first h _ _ _ _ _ _ 1 H0 H1) as (r&Hr&Hf). exists r.
  split; [exact Hr|]. split; [|exact Hf]. vm_compute in Hr. by injection Hr as <-.
Defined.

(** "ab", "abc" and "b". *)
Lemma bstrcmp_order_witness :
  let h := placed [[97; 98]; [97; 98; 99]; [98]] in
  ∃ r01 r12 r02,
    bstrcmp (Some 0%nat) (Some 1%nat) h = Done (r01, h) ∧ bstrcmp (Some 1%nat) (Some 2%nat) h = Done (r12, h) ∧
    bstrcmp (Some 0%nat) (Some 2%nat) h = Done (r02, h) ∧ r01 = -1 ∧ r12 = -1 ∧ r02 ≤ 0.
Proof.
  set (h := placed _). cbv zeta.
  assert (readable h 0 (Ptr 0 0) [97; 98]) as H0.
  { split; [eexists; done|]. eexists. split_and!; [reflexivity|by vm_compute|done]. }
  assert (readable h 1 (Ptr 1 0) [97; 98; 99]) as H1.
  { split; [eexists; done|]. eexists. split_and!; [reflexivity|by vm_compute|done]. }
  assert (readable h 2 (Ptr 2 0) [98]) as H2.
  { split; [eexists; done|]. eexists. split_and!; [reflexivity|by vm_compute|done]. }
  assert (∀ s, Forall (λ c, (0 <=? c) && (c <? 256) = true) s → bytes_ok s) as Hok.
  { intros s Hs. eapply Forall_impl; [exact Hs|]. cbn. lia. }
  destruct (bstrcmp_order h _ _ _ _ _ _ _ _ _ H0 H1 H2) as (r01&r10&r12&r02&?&_&?&?&_&Ht&_);
    [apply Hok; repeat constructor..|].
  exists r01, r12, r02.
  assert (r01 = -1) as -> by (vm_compute in *; congruence).
  assert (r12 = -1) as -> by (vm_compute in *; congruence).
  split_and!; try done. apply Ht; done.
Defined.
