(* ===== verification/BstrEqSpec.v ===== *)
(** The tests for equality of BstrFind (biseq, bisstemeqblk, biseqcstr and their
    caseless kin): what they answer, on strings that may share a block. *)
From S2P Require Import Prelude Bstr BstrMem BstrSpec BstrFind BstrFindSpec.
#[local] Open Scope Z_scope.

(** ** Equality *)

(** Two lists agree, byte by byte, for a comparison of bytes. *)
Fixpoint agree (eqb : Z → Z → bool) (s0 s1 : list Z) : bool :=
  match s0, s1 with
  | [], [] => true
  | x :: s0, y :: s1 => eqb x y && agree eqb s0 s1
  | _, _ => false
  end.

Lemma agree_eq s0 s1 : agree Z.eqb s0 s1 = true ↔ s0 = s1.
Proof.
  revert s1. induction s0 as [|x s0 IH]; intros [|y s1]; cbn; try done.
  rewrite andb_true_iff, Z.eqb_eq, IH. split; [by intros [-> ->]|by intros [= -> ->]].
Qed.

Lemma agree_refl eqb s : (∀ x, eqb x x = true) → agree eqb s s = true.
Proof. intros He. induction s as [|x s IH]; [done|]. cbn. by rewrite He, IH. Qed.

Lemma agree_length eqb s0 s1 : length s0 ≠ length s1 → agree eqb s0 s1 = false.
Proof.
  revert s1. induction s0 as [|x s0 IH]; intros [|y s1] Hl; cbn in *; try done.
  rewrite IH by lia. apply andb_false_r.
Qed.

(** Without regard to case: the lowered strings are equal. *)
Lemma agree_caseless s0 s1 :
  agree eq_caseless s0 s1 = true ↔ map downcase s0 = map downcase s1.
Proof.
  revert s1. induction s0 as [|x s0 IH]; intros [|y s1]; cbn; try done.
  rewrite andb_true_iff, IH. unfold eq_caseless. rewrite orb_true_iff, !Z.eqb_eq. split.
  - intros [[->|E] ->]; [done|by rewrite E].
  - intros [= ? ?]. auto.
Qed.

Definition truth (b : bool) : Z := if b then 1 else 0.

Lemma eq_loop_spec eqb s0 s1 d0 d1 i n :
  take (length s0) d0 = s0 → take (length s1) d1 = s1 →
  (i + n ≤ length s0)%nat → (i + n ≤ length s1)%nat →
  eq_loop eqb n d0 d1 (Z.of_nat i) = Done (truth (agree eqb (slice i n s0) (slice i n s1))).
Proof.
  intros H0 H1. revert i. induction n as [|n IH]; intros i Hn0 Hn1; cbn [eq_loop]; [done|].
  destruct (lookup_lt_is_Some_2 s0 i) as [x Hx]; [lia|].
  destruct (lookup_lt_is_Some_2 s1 i) as [y Hy]; [lia|].
  rewrite (at_take d0 s0 i x), (at_take d1 s1 i y) by done. cbn [mbind outcome_bind].
  assert (∀ (s : list Z) z, s !! i = Some z → slice i (S n) s = z :: slice (S i) n s) as Hsl.
  { intros s z Hz. unfold slice. by rewrite (drop_S _ _ _ Hz). }
  rewrite (Hsl s0 x), (Hsl s1 y) by done. cbn [agree].
  destruct (eqb x y); cbn [andb]; [|done]. replace (Z.of_nat i + 1) with (Z.of_nat (S i)) by lia.
  apply IH; lia.
Qed.

Lemma biseq_with_spec eqb h a0 q0 s0 a1 q1 s1 :
  (∀ x, eqb x x = true) → readable h a0 q0 s0 → readable h a1 q1 s1 →
  mwp (biseq_with eqb (Some a0) (Some a1)) h (answers h (λ r, r = truth (agree eqb s0 s1))).
Proof.
  intros He Ha0 Ha1. eapply on_two_spec; [done..|]. intros t0 t1 d0 d1 Hs0 Hs1 Hd0 Hd1 Hsame.
  rewrite Hs0, Hs1. destruct (Z.eqb_spec (Z.of_nat (length s0)) (Z.of_nat (length s1))) as [Hl|Hl]; cbn [negb].
  - assert (length s0 = length s1) as Hl' by lia.
    destruct (same_data t0 t1) eqn:Es; cbn [orb].
    + eexists. split; [done|]. assert (s0 = s1) as ->.
      { rewrite <- Hd0, <- Hd1, Hl'. by rewrite (Hsame eq_refl). }
      by rewrite agree_refl.
    + destruct (Z.eqb_spec (Z.of_nat (length s0)) 0).
      * eexists. split; [done|]. destruct s0, s1; done.
      * rewrite Nat2Z.id. change 0 with (Z.of_nat 0).
        rewrite (eq_loop_spec eqb s0 s1) by (done || lia). eexists. split; [done|].
        unfold slice. rewrite !drop_0, firstn_all. by rewrite Hl', firstn_all.
  - eexists. split; [done|]. rewrite agree_length by lia. done.
Qed.

(** The block starts the string. *)
Lemma bisstem_with_spec eqb h a q s blk len :
  readable h a q s → 0 ≤ len ≤ Z.of_nat (length blk) →
  mwp (bisstem_with eqb (Some a) (Some blk) len) h (answers h (λ r,
    r = truth (agree eqb (take (Z.to_nat len) s) (take (Z.to_nat len) blk)))).
Proof.
  intros [(t&Ha&Hd&Hs) Hb] Hlen. unfold bisstem_with. apply mwp_bind. eapply mwp_hdr; [done|].
  rewrite (readable_guard t q s), (proj2 (Z.ltb_ge len 0)), Hs by (done || lia). cbn [orb].
  destruct (Z.ltb_spec (Z.of_nat (length s)) len).
  - apply mwp_ret. split; [done|]. rewrite agree_length; [done|]. rewrite !length_take. lia.
  - destruct (Z.eqb_spec len 0) as [->|]; [by apply mwp_ret|].
    apply mwp_bind, (mwp_tail h q s); [done..|]. change 0 with (Z.of_nat 0).
    eapply mwp_lift; [apply (eq_loop_spec eqb s blk)|].
    + by apply tail_of_bytes.
    + apply firstn_all.
    + lia.
    + lia.
    + split; [done|]. unfold slice. by rewrite !drop_0.
Qed.

(** The C string ends at its NUL. *)
Lemma cstr_loop_spec eqb s d str i n :
  take (length s) d = s → (i + n = length s)%nat → Forall (λ c, c ≠ 0) str → (i ≤ length str)%nat →
  cstr_loop eqb n d str (Z.of_nat i) = Done (truth (agree eqb (drop i s) (drop i str))).
Proof.
  intros Hd Hn Hz. revert i Hn. induction n as [|n IH]; intros i Hn Hi; cbn [cstr_loop]; rewrite Nat2Z.id.
  - rewrite (drop_ge s) by lia. destruct (str !! i) as [c|] eqn:Ec; cbn [default from_option id].
    + pose proof (Forall_lookup_1 _ _ _ _ Hz Ec) as Hc. cbn in Hc.
      rewrite (proj2 (Z.eqb_neq c 0)) by done. by rewrite (drop_S _ _ _ Ec).
    + by rewrite drop_ge by (by apply lookup_ge_None_1).
  - destruct (lookup_lt_is_Some_2 s i) as [x Hx]; [lia|]. rewrite (drop_S s x i Hx).
    destruct (str !! i) as [c|] eqn:Ec; cbn [default from_option id].
    + pose proof (Forall_lookup_1 _ _ _ _ Hz Ec) as Hc. cbn in Hc.
      rewrite (proj2 (Z.eqb_neq c 0)) by done. rewrite (drop_S _ _ _ Ec).
      rewrite (at_take d s i x) by done. cbn [mbind outcome_bind agree].
      destruct (eqb x c); cbn [andb]; [|done]. replace (Z.of_nat i + 1) with (Z.of_nat (S i)) by lia.
      apply IH; [lia|]. apply lookup_lt_Some in Ec. lia.
    + by rewrite (drop_ge str) by (by apply lookup_ge_None_1).
Qed.

Lemma biseqcstr_with_spec eqb h a q s str :
  readable h a q s → Forall (λ c, c ≠ 0) str →
  mwp (biseqcstr_with eqb (Some a) (Some str)) h (answers h (λ r, r = truth (agree eqb s str))).
Proof.
  intros [(t&Ha&Hd&Hs) Hb] Hz. unfold biseqcstr_with. apply mwp_bind. eapply mwp_hdr; [done|].
  rewrite (readable_guard t q s), Hs, Nat2Z.id by done.
  apply mwp_bind, (mwp_tail h q s); [done..|]. change 0 with (Z.of_nat 0).
  eapply mwp_lift; [apply (cstr_loop_spec eqb s); [by apply tail_of_bytes|done|done|lia]|].
  split; [done|]. by rewrite !drop_0.
Qed.
