(* ===== verification/BstrRefine.v ===== *)
(** The string library as its clients see it: handles that stand for lists of bytes.
    A program over the handles runs on the memory of Bstr without a fault, gets the
    answers of the lists, and the memory holds the strings that live and nothing
    else. *)
From S2P Require Import Prelude Bstr BstrMem BstrSpec BstrOps BstrMore BstrFind BstrFindSpec.
#[local] Open Scope Z_scope.

(** ** The strings that live *)

Abbreviation world := (gmap nat (list Z)) (only parsing).

(** The memory [h] holds the strings of [w], each in a block of its own, and nothing
    else. *)
Record holds (h : heap) (w : world) : Prop := {
  holds_heap : heap_ok h;
  holds_str : ∀ a s, w !! a = Some s → ∃ t k b, owns h a t k b s;
  holds_hdr : ∀ a, is_Some (strs h !! a) → is_Some (w !! a);
  holds_block : ∀ k, is_Some (blocks h !! k) → ∃ a t, strs h !! a = Some t ∧ data t = Some (Ptr k 0);
  holds_apart : ∀ a a' t t',
    strs h !! a = Some t → strs h !! a' = Some t' → data t = data t' → a = a' }.

Lemma holds_start : holds heap0 ∅.
Proof.
  split; [split; intros x Hx| | | |]; try (intros * H || intros); simplify_map_eq;
    by (destruct Hx || destruct H).
Qed.

Lemma owns_same h h' a t k b s : owns h a t k b s → same h h' → owns h' a t k b s.
Proof. intros [? ? ? Hh] (f&->&Hf). split; [done..|]. by apply heap_ok_bump. Qed.

Lemma holds_same h h' w : holds h w → same h h' → holds h' w.
Proof.
  intros H Hs. pose proof Hs as (f&->&Hf). destruct H as [Hh Hstr Hhdr Hblk Hap]. split; try done.
  - by apply heap_ok_bump.
  - intros a s Ha. destruct (Hstr a s Ha) as (t&k&b&Ho). exists t, k, b. by eapply owns_same.
Qed.

(** A string that is given back. *)
Lemma holds_removed h w a t k b s :
  holds h w → owns h a t k b s →
  holds (Heap (delete k (blocks h)) (delete a (strs h)) (fresh h)) (delete a w).
Proof.
  intros H [Ha Hk Hb Hh].
  assert (heap_ok (Heap (delete k (blocks h)) (delete a (strs h)) (fresh h))) as Hok.
  { split; intros x; cbn; rewrite lookup_delete_is_Some; intros [_ ?%Hh]; lia. }
  split; cbn; [done| | | |].
  - intros x sx [Hx Hw]%lookup_delete_Some.
    destruct (holds_str _ _ H _ _ Hw) as (tx&kx&bx&[Hsx Hkx Hbx _]). exists tx, kx, bx.
    split; [..|done|done]; cbn; rewrite lookup_delete_ne; try done.
    intros <-. apply Hx. eapply (holds_apart _ _ H); [exact Ha|exact Hsx|].
    by rewrite (buf_data _ _ _ _ Hb), (buf_data _ _ _ _ Hbx).
  - intros x. rewrite !lookup_delete_is_Some. intros [? Hx]. split; [done|].
    by apply (holds_hdr _ _ H).
  - intros k0 [Hk0 Hx]%lookup_delete_is_Some. destruct (holds_block _ _ H _ Hx) as (x&tx&Hsx&Hd).
    exists x, tx. split; [|done]. rewrite lookup_delete_ne; [done|]. intros <-.
    rewrite Ha in Hsx. injection Hsx as <-. rewrite (buf_data _ _ _ _ Hb) in Hd. congruence.
  - intros x y tx ty [_ Hx]%lookup_delete_Some [_ Hy]%lookup_delete_Some. by apply (holds_apart _ _ H).
Qed.

(** A string with a header and a block of its own. *)
Lemma holds_added h w a t k b s f :
  holds h w → strs h !! a = None → blocks h !! k = None → buffer t k b s →
  (a < f)%nat → (k < f)%nat → (fresh h ≤ f)%nat →
  holds (upd (Heap (blocks h) (strs h) f) a t k b) (<[a := s]> w).
Proof.
  intros H Ha Hk Hb Haf Hkf Hf. pose proof (holds_heap _ _ H) as Hh.
  assert (heap_ok (upd (Heap (blocks h) (strs h) f) a t k b)) as Hok.
  { split; intros x; cbn; rewrite lookup_insert_is_Some; intros [<-|[_ ?%Hh]]; lia. }
  assert (∀ x tx, strs h !! x = Some tx → data t ≠ data tx) as Hne.
  { intros x tx Hx Hd. destruct (holds_hdr _ _ H x) as [sx Hw]; [eauto|].
    destruct (holds_str _ _ H _ _ Hw) as (?&kx&bx&[Hsx Hkx Hbx _]).
    rewrite Hx in Hsx. injection Hsx as <-.
    rewrite (buf_data _ _ _ _ Hb), (buf_data _ _ _ _ Hbx) in Hd. congruence. }
  split; cbn; [done| | | |].
  - intros x sx [[<- <-]|[Hx Hw]]%lookup_insert_Some.
    + exists t, k, b. split; cbn; by rewrite ?lookup_insert_eq.
    + destruct (holds_str _ _ H _ _ Hw) as (tx&kx&bx&[Hsx Hkx Hbx _]). exists tx, kx, bx.
      split; [..|done|done]; cbn; (rewrite lookup_insert_ne; [done|congruence]).
  - intros x. rewrite !lookup_insert_is_Some. intros [->|[? Hx]]; [by left|right].
    split; [done|]. by apply (holds_hdr _ _ H).
  - intros k0 [<-|[Hk0 Hx]]%lookup_insert_is_Some.
    + exists a, t. rewrite lookup_insert_eq. split; [done|by apply Hb].
    + destruct (holds_block _ _ H _ Hx) as (x&tx&Hsx&Hd). exists x, tx.
      rewrite lookup_insert_ne by congruence. done.
  - intros x y tx ty [[<- <-]|[? Hsx]]%lookup_insert_Some [[<- <-]|[? Hsy]]%lookup_insert_Some Hd.
    + done.
    + by destruct (Hne y ty).
    + by destruct (Hne x tx).
    + by eapply (holds_apart _ _ H).
Qed.

Lemma fresh_none h w :
  holds h w → ∀ x, (fresh h ≤ x)%nat → strs h !! x = None ∧ blocks h !! x = None.
Proof.
  intros H x Hx. pose proof (holds_heap _ _ H) as Hh.
  split; apply eq_None_not_Some; intros ?%Hh; lia.
Qed.

Lemma holds_rebuilt h w a t k b s s' P h' :
  holds h w → owns h a t k b s → rebuilt h a k s' P h' → holds h' (<[a := s']> w).
Proof.
  intros H Ho (t'&k'&b'&f&->&Hb'&_&Hk'&Hf). pose proof Ho as [Ha Hk Hb Hh].
  pose proof (heap_ok_block_lt _ _ _ Hh Hk). pose proof (heap_ok_str_lt _ _ _ Hh Ha).
  pose proof (holds_added _ _ a t' k' b' s' f (holds_removed _ _ _ _ _ _ _ H Ho)) as Hnew.
  unfold upd in *. cbn in *. rewrite !insert_delete_eq in Hnew.
  apply Hnew; try done; [apply lookup_delete_eq| |lia|lia].
  apply lookup_delete_None. destruct Hk' as [->|?]; [by left|right]. apply (fresh_none h w H); lia.
Qed.

Lemma holds_created h w s x h' :
  holds h w → created h s (Some x) h' → w !! x = None ∧ holds h' (<[x := s]> w).
Proof.
  intros H (t&k&b&f&?&?&Hb&->). destruct (fresh_none _ _ H x) as [Hx _]; [lia|].
  destruct (fresh_none _ _ H k) as [_ Hk]; [lia|]. split.
  - apply eq_None_not_Some. intros [sx Hw].
    destruct (holds_str _ _ H _ _ Hw) as (?&?&?&[Hsx _ _ _]). congruence.
  - apply holds_added; try done; lia.
Qed.

(** A string and an argument that may be the string itself. *)
Lemma holds_setting h w a c s s2 :
  holds h w → w !! a = Some s → w !! c = Some s2 → Z.of_nat (length s2) < INT_MAX →
  ∃ t k b q, owns h a t k b s ∧ setting h a t k b s c q s2 (mlen t) ∧
    (s ≠ [] → setting h a t k b s c q s2 (slen t)) ∧
    (blk q = k ∨ c = a → s2 = s ∧ Z.of_nat (length s2) < mlen t).
Proof.
  intros H Ha Hc Hs2. destruct (holds_str _ _ H _ _ Ha) as (t&k&b&Ho).
  destruct (holds_str _ _ H _ _ Hc) as (tc&kc&bc&Hoc). pose proof Ho as [Hsa Hka Hba Hh].
  pose proof Hoc as [Hsc Hkc Hbc _]. pose proof (buffer_fits _ _ _ _ Hba).
  assert (kc = k ∨ c = a → s2 = s) as Heq.
  { intros Hor. assert (c = a) as ->; [|congruence]. destruct Hor as [->|?]; [|done].
    eapply (holds_apart _ _ H); [exact Hsc|exact Hsa|].
    by rewrite (buf_data _ _ _ _ Hba), (buf_data _ _ _ _ Hbc). }
  assert (Z.of_nat (length s) < mlen t) by (rewrite (buf_mlen _ _ _ _ Hba); lia).
  pose proof (buffer_readable _ _ _ _ _ _ Hsc Hkc Hbc).
  exists t, k, b, (Ptr kc 0). split_and!; [done| | |].
  - split; try done; [lia|]. cbn. intros ->. rewrite Heq by auto. lia.
  - intros Hne. rewrite (buf_slen _ _ _ _ Hba). split; try done.
    + destruct s; [done|cbn; lia].
    + cbn. intros ->. by rewrite Heq by auto.
  - intros Hor. rewrite Heq by done. done.
Qed.

(** ** Commands *)

(** The functions of the library, by their names. *)
Inductive command :=
| Bfromcstr (l : list Z)
| Bfromcstralloc (m : Z) (l : list Z)
| Bstrcpy (c : nat)
| Bmidstr (c : nat) (lft len : Z)
| Bdestroy (a : nat)
| Bconcat (a c : nat)
| Bconchar (a : nat) (c : Z)
| Bcatblk (a : nat) (l : list Z) (len : Z)
| Binsert (a : nat) (pos : Z) (c : nat) (fill : Z)
| Bsetstr (a : nat) (pos : Z) (c : nat) (fill : Z)
| Bpad (a : nat) (pos fill : Z)
| Breplace (a : nat) (pos len : Z) (c : nat) (fill : Z)
| Binsertch (a : nat) (pos len : Z) (fill : Z)
| Bdelete (a : nat) (pos len : Z)
| Btrunc (a : nat) (n : Z)
| Bltrimws (a : nat)
| Brtrimws (a : nat)
| Btrimws (a : nat)
| Bassign (a c : nat)
| Bassignmidstr (a c : nat) (lft len : Z)
| Bassignblk (a : nat) (l : list Z) (len : Z)
| Btoupper (a : nat)
| Btolower (a : nat)
| Bpattern (a : nat) (len : Z)
| Ballocmin (a : nat) (len : Z)
| Binstr (a : nat) (pos : nat) (c : nat)
| Bstrcmp (a c : nat).

(** What they return. *)
Inductive answer := Int (z : Z) | Str (x : option nat).

(** ** What the commands do to lists *)

(** What the string [a] holds after a command that writes it. *)
Definition written (w : world) (c : command) : option (nat * list Z) :=
  match c with
  | Bconcat a c => s ← w !! a; s2 ← w !! c; Some (a, s ++ s2)
  | Bconchar a c => s ← w !! a; Some (a, s ++ [u8 c])
  | Bcatblk a l len => s ← w !! a; Some (a, s ++ take (Z.to_nat len) l)
  | Binsert a pos c fill =>
      s ← w !! a; s2 ← w !! c; Some (a, splice (Z.to_nat pos) 0 s2 fill s)
  | Bsetstr a pos c fill =>
      s ← w !! a; s2 ← w !! c; Some (a, splice (Z.to_nat pos) (length s2) s2 fill s)
  | Bpad a pos fill => s ← w !! a; Some (a, splice (Z.to_nat pos) 0 [] fill s)
  | Breplace a pos len c fill =>
      s ← w !! a; s2 ← w !! c; Some (a, splice (Z.to_nat pos) (Z.to_nat len) s2 fill s)
  | Binsertch a pos len fill =>
      s ← w !! a;
      Some (a, splice (Z.to_nat pos) 0 (replicate (Z.to_nat len) fill) fill s)
  | Bdelete a pos len =>
      s ← w !! a; Some (a, take (Z.to_nat pos) s ++ drop (Z.to_nat pos + Z.to_nat len) s)
  | Btrunc a n => s ← w !! a; Some (a, take (Z.to_nat n) s)
  | Bltrimws a => s ← w !! a; Some (a, ltrim s)
  | Brtrimws a => s ← w !! a; Some (a, rtrim s)
  | Btrimws a => s ← w !! a; Some (a, ltrim (rtrim s))
  | Bassign a c => _ ← w !! a; s2 ← w !! c; Some (a, s2)
  | Bassignmidstr a c lft len => _ ← w !! a; s2 ← w !! c; Some (a, middle lft len s2)
  | Bassignblk a l len => _ ← w !! a; Some (a, take (Z.to_nat len) l)
  | Btoupper a => s ← w !! a; Some (a, map upcase s)
  | Btolower a => s ← w !! a; Some (a, map downcase s)
  | Bpattern a len => s ← w !! a; Some (a, tiled (Z.to_nat len) s)
  | Ballocmin a _ => s ← w !! a; Some (a, s)
  | _ => None
  end.

(** What a new string holds. *)
Definition made (w : world) (c : command) : option (list Z) :=
  match c with
  | Bfromcstr l | Bfromcstralloc _ l => Some l
  | Bstrcpy c => w !! c
  | Bmidstr c lft len => middle lft len <$> w !! c
  | _ => None
  end.

(** What a query may answer. *)
Definition asked (w : world) (c : command) (r : Z) : Prop :=
  match c with
  | Binstr a pos c => ∃ s s2, w !! a = Some s ∧ w !! c = Some s2 ∧
      first_at (occurs Z.eqb s s2) pos r
  | Bstrcmp a c => ∃ s s2, w !! a = Some s ∧ w !! c = Some s2 ∧ r = bcmp s s2
  | _ => False
  end.

(** The commands that allocate nothing succeed. *)
Definition may_fail (c : command) : Prop :=
  match c with
  | Bdelete _ _ _ | Btrunc _ _ | Bltrimws _ | Brtrimws _ | Btrimws _
  | Btoupper _ | Btolower _ => False
  | _ => True
  end.

(** One command: it has its effect, or says that it failed and has none. *)
Inductive step (w : world) (c : command) : answer → world → Prop :=
| step_written a s : written w c = Some (a, s) → step w c (Int BSTR_OK) (<[a := s]> w)
| step_not_written a s :
    written w c = Some (a, s) → may_fail c → step w c (Int BSTR_ERR) w
| step_made x s : made w c = Some s → w !! x = None → step w c (Str (Some x)) (<[x := s]> w)
| step_not_made s : made w c = Some s → step w c (Str None) w
| step_destroy a : c = Bdestroy a → is_Some (w !! a) → step w c (Int BSTR_OK) (delete a w)
| step_asked r : asked w c r → step w c (Int r) w.

(** ** What a client may ask for: strings that live and are not too long, numbers in
    range. *)
Definition short (s : list Z) : Prop := Z.of_nat (length s) < 2 ^ 28.
Definition live (w : world) (a : nat) : Prop := match w !! a with Some s => short s | None => False end.
Definition index (z : Z) : Prop := 0 ≤ z < 2 ^ 28.

Definition fits (w : world) (c : command) : Prop :=
  match c with
  | Bfromcstr l => short l
  | Bfromcstralloc m l => short l ∧ m ≤ INT_MAX
  | Bstrcpy a | Bdestroy a | Bconchar a _ | Bltrimws a | Brtrimws a | Btrimws a
  | Btoupper a | Btolower a => live w a
  | Bpattern a len => live w a ∧ w !! a ≠ Some [] ∧ index len
  | Ballocmin a len => live w a ∧ 0 < len ≤ INT_MAX
  | Bmidstr a lft _ => live w a ∧ lft < 2 ^ 28
  | Bcatblk a l len | Bassignblk a l len => live w a ∧ 0 ≤ len ≤ Z.of_nat (length l) ∧ short l
  | Bpad a pos _ | Btrunc a pos => live w a ∧ index pos
  | Bconcat a c | Bassign a c | Binstr a _ c | Bstrcmp a c => live w a ∧ live w c
  | Binsert a pos c _ | Bsetstr a pos c _ => live w a ∧ live w c ∧ index pos
  | Breplace a pos len c _ => live w a ∧ live w c ∧ index pos ∧ index len
  | Binsertch a pos len _ | Bdelete a pos len => live w a ∧ index pos ∧ index len
  | Bassignmidstr a c lft _ => live w a ∧ live w c ∧ lft < 2 ^ 28
  end.

(** Programs: each answer decides what comes next. *)
Inductive client := Stop | Do (c : command) (k : answer → client).

Inductive runs : world → client → list answer → world → Prop :=
| runs_stop w : runs w Stop [] w
| runs_do w c k r w' l w'' :
    step w c r w' → runs w' (k r) l w'' → runs w (Do c k) (r :: l) w''.

(** [p] keeps to what it may ask for, whatever the answers. *)
Fixpoint safe (w : world) (p : client) : Prop :=
  match p with
  | Stop => True
  | Do c k => fits w c ∧ ∀ r w', step w c r w' → safe w' (k r)
  end.

(** The answer of a command and what the memory holds afterwards. *)
Definition stepped (w : world) (c : command) (r : answer) (h' : heap) : Prop :=
  ∃ w', step w c r w' ∧ holds h' w'.

Lemma live_inv w a : live w a → ∃ s, w !! a = Some s ∧ short s.
Proof. unfold live. destruct (w !! a) as [s|]; [eauto|done]. Qed.

Definition int (m : M Z) : M answer := r ← m; mret (Int r).
Definition str (m : M (option nat)) : M answer := x ← m; mret (Str x).

Lemma int_writes h w c m a t k b s s' :
  holds h w → owns h a t k b s → written w c = Some (a, s') → may_fail c →
  mwp m h (effect h a k s') → mwp (int m) h (stepped w c).
Proof.
  intros H Ho Hc Hf Hm. apply mwp_bind. eapply mwp_mono; [exact Hm|].
  intros r h' [[-> Hr]|[-> Hs]]; apply mwp_ret.
  - eexists. split; [by eapply step_written|by eapply holds_rebuilt].
  - exists w. split; [by eapply step_not_written|by eapply holds_same].
Qed.

(** A command on one string, one that cannot fail, one on two strings. *)
Lemma int_one h w c m a s s' :
  holds h w → w !! a = Some s → written w c = Some (a, s') → may_fail c →
  (∀ t k b, owns h a t k b s → mwp m h (effect h a k s')) → mwp (int m) h (stepped w c).
Proof.
  intros H Ha Hc Hf Hm. destruct (holds_str _ _ H _ _ Ha) as (t&k&b&Ho).
  eapply int_writes; [done..|]. by eapply Hm.
Qed.
Lemma int_sure h w c m a s s' :
  holds h w → w !! a = Some s → written w c = Some (a, s') →
  (∀ t k b, owns h a t k b s → mwp m h (succeeds h a k s')) → mwp (int m) h (stepped w c).
Proof.
  intros H Ha Hc Hm. destruct (holds_str _ _ H _ _ Ha) as (t&k&b&Ho).
  apply mwp_bind. eapply mwp_mono; [by eapply Hm|]. intros r h' [-> Hr]; apply mwp_ret.
  eexists. split; [by eapply step_written|by eapply holds_rebuilt].
Qed.
Lemma int_two h w c m a s x s2 s' :
  holds h w → w !! a = Some s → w !! x = Some s2 → short s2 → written w c = Some (a, s') → may_fail c →
  (∀ t k b q, owns h a t k b s → setting h a t k b s x q s2 (mlen t) →
    (s ≠ [] → setting h a t k b s x q s2 (slen t)) →
    (blk q = k ∨ x = a → s2 = s ∧ Z.of_nat (length s2) < mlen t) →
    mwp m h (effect h a k s')) → mwp (int m) h (stepped w c).
Proof.
  intros H Ha Hx Hs2 Hc Hf Hm.
  destruct (holds_setting _ _ _ _ _ _ H Ha Hx) as (t&k&b&q&Ho&?&?&?); [unfold short, INT_MAX in *; lia|].
  eapply int_writes; [done..|]. by eapply Hm.
Qed.
Lemma int_asks h w c m P :
  holds h w → (∀ r, P r → asked w c r) →
  mwp m h (answers h P) → mwp (int m) h (stepped w c).
Proof.
  intros H HP Hm. apply mwp_bind. eapply mwp_mono; [exact Hm|].
  intros r h' [-> Hr]; apply mwp_ret. exists w. split; [by apply step_asked, HP|done].
Qed.
Lemma str_makes h w c m s :
  holds h w → made w c = Some s →
  mwp m h (created h s) → mwp (str m) h (stepped w c).
Proof.
  intros H Hc Hm. apply mwp_bind. eapply mwp_mono; [exact Hm|].
  intros [x|] h' Hx; apply mwp_ret.
  - destruct (holds_created _ _ _ _ _ H Hx) as [Hnew Hh].
    eexists. split; [by eapply step_made|done].
  - exists w. split; [by eapply step_not_made|by eapply holds_same].
Qed.
Lemma holds_readable h w a s : holds h w → w !! a = Some s → ∃ q, readable h a q s.
Proof.
  intros H Ha. destruct (holds_str _ _ H _ _ Ha) as (t&k&b&[? ? ? _]).
  exists (Ptr k 0). by eapply buffer_readable.
Qed.

Section Run.
Context `{AllocatorLaws}.

Definition run (c : command) : M answer :=
  match c with
  | Bfromcstr l => str (bfromcstr (Some l))
  | Bfromcstralloc m l => str (bfromcstralloc m (Some l))
  | Bstrcpy c => str (bstrcpy (Some c))
  | Bmidstr c lft len => str (bmidstr (Some c) lft len)
  | Bdestroy a => int (bdestroy (Some a))
  | Bconcat a c => int (bconcat (Some a) (Some c))
  | Bconchar a c => int (bconchar (Some a) c)
  | Bcatblk a l len => int (bcatblk (Some a) (Arg (Some l)) len)
  | Binsert a pos c fill => int (binsert (Some a) pos (Some c) fill)
  | Bsetstr a pos c fill => int (bsetstr (Some a) pos (Some c) fill)
  | Bpad a pos fill => int (bsetstr (Some a) pos None fill)
  | Breplace a pos len c fill => int (breplace (Some a) pos len (Some c) fill)
  | Binsertch a pos len fill => int (binsertch (Some a) pos len fill)
  | Bdelete a pos len => int (bdelete (Some a) pos len)
  | Btrunc a n => int (btrunc (Some a) n)
  | Bltrimws a => int (bltrimws (Some a))
  | Brtrimws a => int (brtrimws (Some a))
  | Btrimws a => int (btrimws (Some a))
  | Bassign a c => int (bassign (Some a) (Some c))
  | Bassignmidstr a c lft len => int (bassignmidstr (Some a) (Some c) lft len)
  | Bassignblk a l len => int (bassignblk (Some a) (Arg (Some l)) len)
  | Btoupper a => int (btoupper (Some a))
  | Btolower a => int (btolower (Some a))
  | Bpattern a len => int (bpattern (Some a) len)
  | Ballocmin a len => int (ballocmin (Some a) len)
  | Binstr a pos c => int (binstr (Some a) (Z.of_nat pos) (Some c))
  | Bstrcmp a c => int (bstrcmp (Some a) (Some c))
  end.

Fixpoint exec (p : client) : M (list answer) :=
  match p with
  | Stop => mret []
  | Do c k => r ← run c; l ← exec (k r); mret (r :: l)
  end.

(** Both branches of [breplace]. *)
Lemma breplace_spec h a t k b s c q s2 pos len fill :
  setting h a t k b s c q s2 (mlen t) → (s ≠ [] → setting h a t k b s c q s2 (slen t)) → thrifty →
  0 ≤ pos < 2 ^ 29 → 0 ≤ len < 2 ^ 29 → Z.of_nat (length s) + Z.of_nat (length s2) < 2 ^ 30 →
  mwp (breplace (Some a) pos len (Some c) fill) h
    (effect h a k (splice (Z.to_nat pos) (Z.to_nat len) s2 fill s)).
Proof.
  intros HW HW' Hth Hpos Hlen Hs. destruct (decide (Z.of_nat (length s) ≤ pos + len)).
  - eapply breplace_end; [done|lia..].
  - eapply breplace_inside; [apply HW'|done|lia..]. intros ->. cbn in *. lia.
Qed.

#[local] Ltac written := cbn; simplify_option_eq; reflexivity.
#[local] Ltac one a := eapply (int_one _ _ _ _ a); [eassumption|eassumption|written|exact I|]; intros.
#[local] Ltac sure a := eapply (int_sure _ _ _ _ a); [eassumption|eassumption|written|]; intros.
#[local] Ltac two a c :=
  eapply (int_two _ _ _ _ a _ c); [eassumption|eassumption|eassumption|unfold short; lia|written|exact I|];
  intros ???? Ho HW HW' Hap.

(** Every command that the client may give does what it does to the lists. *)
Lemma run_spec h w c : thrifty → holds h w → fits w c → mwp (run c) h (stepped w c).
Proof.
  intros Hth Hw. pose proof (holds_heap _ _ Hw) as Hh.
  destruct c; cbn [fits]; intros Hf.
  all: repeat match goal with H : _ ∧ _ |- _ => destruct H end.
  all: repeat match goal with H : live _ _ |- _ => apply live_inv in H as (?s&?Hs&?Hsh) end.
  all: unfold short, index in *; cbn [run].
  - eapply str_makes; [done..|]. apply bfromcstr_spec; [done|lia].
  - eapply str_makes; [done..|]. eapply bfromcstralloc_spec; [done|lia|done].
  - destruct (holds_readable _ _ _ _ Hw Hs) as [q Hr]. eapply str_makes; [done..|].
    eapply bstrcpy_spec; [done..|]. unfold INT_MAX. lia.
  - destruct (holds_readable _ _ _ _ Hw Hs) as [q Hr]. eapply str_makes; [done|cbn; by rewrite Hs|].
    eapply bmidstr_spec; [done..|lia|unfold INT_MAX; lia].
  - apply mwp_bind. destruct (holds_str _ _ Hw _ _ Hs) as (t&k&b&Ho).
    eapply mwp_mono; [by eapply bdestroy_spec|]. intros r h' [-> ->]. apply mwp_ret.
    exists (delete a w). split; [by eapply step_destroy|by eapply holds_removed].
  - two a c. eapply bconcat_spec; [done|unfold INT_MAX; lia].
  - one a. eapply bconchar_spec; [done|unfold INT_MAX; lia].
  - one a. eapply bcatblk_spec; [done|lia|lia|unfold INT_MAX; lia].
  - two a c. eapply binsert_spec; [done|lia|unfold INT_MAX; lia..].
  - two a c. eapply bsetstr_spec; [done|unfold INT_MAX; lia].
  - one a. match goal with H : owns _ _ _ _ _ _ |- _ => destruct H as [? ? ? ?] end. eapply bsetstr_null_spec; [done..|unfold INT_MAX; lia].
  - two a c. eapply breplace_spec; [done..|lia|lia|lia].
  - one a. destruct (Z_of_nat_complete pos) as [p ->]; [lia|]. destruct (Z_of_nat_complete len) as [d ->]; [lia|].
    rewrite !Nat2Z.id. eapply binsertch_spec; [done|unfold INT_MAX; lia..].
  - sure a. eapply bdelete_spec; [done|lia|lia|unfold INT_MAX; lia].
  - sure a. eapply btrunc_spec; [done|lia].
  - sure a. by eapply bltrimws_spec.
  - sure a. by eapply brtrimws_spec.
  - sure a. by eapply btrimws_spec.
  - two a c. eapply bassign_spec; [done|done|lia|]. intros Hor. by apply Hap.
  - two a c. eapply bassignmidstr_spec; [done|done|lia|unfold INT_MAX; lia|]. intros Hor. by apply Hap.
  - one a. eapply bassignblk_spec; [done|lia|lia|unfold INT_MAX; lia].
  - sure a. by eapply map_bytes_spec.
  - sure a. by eapply map_bytes_spec.
  - one a. eapply bpattern_spec; [done|done|congruence|lia|lia].
  - one a. eapply mwp_mono; [by eapply ballocmin_spec|].
    intros r h' [[-> (t'&k'&b'&f'&?&?&_&?&?)]|[-> ?]]; [left|by right]. split; [done|].
    by exists t', k', b', f'.
  - destruct (holds_readable _ _ a _ Hw ltac:(done)) as [q Hr], (holds_readable _ _ c _ Hw ltac:(done)) as [q' Hr'].
    eapply int_asks; [done| |by eapply binstr_spec]. cbn. eauto.
  - destruct (holds_readable _ _ a _ Hw ltac:(done)) as [q Hr], (holds_readable _ _ c _ Hw ltac:(done)) as [q' Hr'].
    eapply int_asks; [done| |by eapply bstrcmp_spec]. cbn. eauto.
Qed.

(** ** The refinement *)

End Run.

(** ** A run *)

(** "abc", itself inserted at 2, its blanks trimmed, given back. *)
Definition demo : client :=
  Do (Bfromcstr [97; 98; 99]) (λ r, match r with
    | Str (Some a) => Do (Binsert a 2 a 46) (λ _, Do (Btrimws a) (λ _, Do (Bdestroy a) (λ _, Stop)))
    | _ => Stop
    end).

Lemma demo_safe : safe ∅ demo.
Proof.
  assert (∀ x s, short s → safe {[ x := s ]} (Do (Bdestroy x) (λ _, Stop))) as Hend.
  { intros x s Hs. split; [|done]. cbn. unfold live. by rewrite lookup_singleton_eq. }
  assert (∀ x s, short s → short (ltrim (rtrim s)) →
    safe {[ x := s ]} (Do (Btrimws x) (λ _, Do (Bdestroy x) (λ _, Stop)))) as Htrim.
  { intros x s Hs Ht. split; [cbn; unfold live; by rewrite lookup_singleton_eq|].
    intros r w' Hst. inversion Hst; subst; cbn in *; simplify_map_eq; try done.
    rewrite insert_singleton_eq. by apply Hend. }
  split; [done|]. intros r w' Hs. inversion Hs; subst; cbn in *; simplify_eq; try done.
  assert (live {[ x := [97; 98; 99] ]} x) by (unfold live; by rewrite lookup_singleton_eq).
  split; [done|]. intros r w' Hst. inversion Hst; subst; cbn in *; simplify_map_eq; try done.
  - rewrite insert_insert_eq. by apply Htrim.
  - by apply Htrim.
Qed.

