(* ===== verification/BstrList.v ===== *)
(** Lists of byte strings (bstrlib.c, on the memory of Bstr): splitting with a
    callback, the lists that [bsplit], [bsplits] and [bsplitstr] build, and [bjoin].

    A [struct bstrList] is a value: its two allocations may fail, but the memory they
    take is not followed. The state behind the [parm] of a callback is passed from
    call to call. *)
From S2P Require Import Prelude Bstr BstrFind.
#[local] Open Scope Z_scope.

(** [entry] holds the pointers that were stored, [lmlen] the size of the array. *)
Record bstrList := BstrList { qty : Z; lmlen : Z; entry : list (option nat) }.

(** ** Splitting *)

Section Split.
Context {P : Type} (cb : P → Z → Z → M (Z * P)).

(** [for (i = p; i < str->slen; i++) if (f (str->data[i])) break;] *)
Definition field_end (str : nat) (f : Z → bool) (p : Z) : M Z :=
  t ← hdr str;
  if p <? slen t then
    d ← bytes t;
    i ← lift (scan_up f (Z.to_nat (slen t - p)) d p);
    mret (if i <? 0 then slen t else i)
  else mret p.

(** The loop over the fields; one turn per field. *)
Fixpoint each_field (fuel : nat) (str : nat) (f : Z → bool) (p : Z) (parm : P) : M (Z * P) :=
  match fuel with
  | O => λ _, Bug
  | S fuel =>
      i ← field_end str f p;
      '(ret, parm) ← cb parm p (i - p);
      if ret <? 0 then mret (ret, parm)
      else
        let p := i + 1 in
        t ← hdr str;
        if p <=? slen t then each_field fuel str f p parm else mret (BSTR_OK, parm)
  end.

(** Enough for a callback that does not lengthen the string. *)
Definition split_fuel (t : tagbstring) : nat := Z.to_nat (slen t + 2).

Definition bsplitcb (str : option nat) (splitChar pos : Z) (parm : P) : M (Z * P) :=
  match str with
  | None => mret (BSTR_ERR, parm)
  | Some a =>
      t ← hdr a;
      if (pos <? 0) || (slen t <? pos) then mret (BSTR_ERR, parm)
      else each_field (split_fuel t) a (λ c, c =? splitChar) pos parm
  end.

Definition first_byte (b : nat) : M Z := t ← hdr b; d ← bytes t; lift (at_ d 0).

Definition bsplitscb (str splitStr : option nat) (pos : Z) (parm : P) : M (Z * P) :=
  match str, splitStr with
  | Some a, Some b =>
      t ← hdr a; t2 ← hdr b;
      if (pos <? 0) || (slen t <? pos) || (slen t2 <? 0) then mret (BSTR_ERR, parm)
      else if slen t2 =? 0 then
        '(ret, parm) ← cb parm 0 (slen t); mret (if 0 <? ret then 0 else ret, parm)
      else if slen t2 =? 1 then c ← first_byte b; bsplitcb str c pos parm
      else
        (* the field of bits is not set when splitStr has no data *)
        cf ← buildCharField splitStr; cf ← lift (deref cf);
        each_field (split_fuel t) a (testInCharField cf) pos parm
  | _, _ => mret (BSTR_ERR, parm)
  end.

(** One call per character. *)
Fixpoint each_byte (fuel : nat) (str : nat) (i : Z) (parm : P) : M (Z * P) :=
  match fuel with
  | O => λ _, Bug
  | S fuel =>
      t ← hdr str;
      if i <? slen t then
        '(ret, parm) ← cb parm i 1;
        if ret <? 0 then mret (ret, parm) else each_byte fuel str (i + 1) parm
      else mret (BSTR_OK, parm)
  end.

(** [0 == memcmp (splitStr->data, str->data + i, splitStr->slen)] *)
Definition same_bytes (a b : nat) (i n : Z) : M bool :=
  p ← get_data a; q ← get_data b;
  x ← read q 0 n; y ← read p i n; mret (bool_decide (x = y)).

(** The loop of [bsplitstrcb]: after a separator at [i], [p] is the place that
    follows it, and the [i++] of the loop goes one byte further. *)
Fixpoint each_part (fuel : nat) (str sep : nat) (i p : Z) (parm : P) : M (Z * P) :=
  match fuel with
  | O => λ _, Bug
  | S fuel =>
      t ← hdr str; t2 ← hdr sep;
      if i <=? slen t - slen t2 then
        e ← same_bytes str sep i (slen t2);
        if e : bool then
          '(ret, parm) ← cb parm p (i - p);
          if ret <? 0 then mret (ret, parm)
          else
            t2 ← hdr sep;
            let i := i + slen t2 in each_part fuel str sep (i + 1) i parm
        else each_part fuel str sep (i + 1) p parm
      else
        '(ret, parm) ← cb parm p (slen t - p);
        mret (if ret <? 0 then ret else BSTR_OK, parm)
  end.

Definition bsplitstrcb (str splitStr : option nat) (pos : Z) (parm : P) : M (Z * P) :=
  match str, splitStr with
  | Some a, Some b =>
      t ← hdr a; t2 ← hdr b;
      if (pos <? 0) || (slen t <? pos) || (slen t2 <? 0) then mret (BSTR_ERR, parm)
      else if slen t2 =? 0 then each_byte (split_fuel t) a pos parm
      else if slen t2 =? 1 then c ← first_byte b; bsplitcb str c pos parm
      else each_part (split_fuel t) a b pos pos parm
  | _, _ => mret (BSTR_ERR, parm)
  end.
End Split.

(** ** Lists *)

Section Lists.
Context `{Allocator}.

(** An allocation that is not followed further. *)
Definition try_alloc (size : Z) : M bool := λ h,
  Done (bool_decide (0 ≤ size) && alloc_ok (fresh h), Heap (blocks h) (strs h) (S (fresh h))).

Definition bstrListCreate : M (option bstrList) :=
  ok ← try_alloc 16;
  if ok : bool then
    ok ← try_alloc 8;
    mret (if ok : bool then Some (BstrList 0 1 []) else None)
  else mret None.

(** The pointers a list has. *)
Definition entries (sl : bstrList) : M (list (option nat)) :=
  lift (if decide (Z.to_nat (qty sl) ≤ length (entry sl))%nat
        then Done (take (Z.to_nat (qty sl)) (entry sl)) else Oops).

Fixpoint destroy_all (l : list (option nat)) : M () :=
  match l with
  | [] => mret tt
  | e :: l => (match e with Some _ => bdestroy e;; mret tt | None => mret tt end);; destroy_all l
  end.

Definition bstrListDestroy (sl : option bstrList) : M Z :=
  match sl with
  | None => mret BSTR_ERR
  | Some sl =>
      if qty sl <? 0 then mret BSTR_ERR
      else l ← entries sl; destroy_all l;; mret BSTR_OK
  end.

(** A list whose numbers make sense. *)
Definition list_ok (sl : bstrList) (msz : Z) : bool :=
  (0 <? msz) && (0 <=? qty sl) && (0 <? lmlen sl) && (qty sl <=? lmlen sl).

Definition bstrListAlloc (sl : option bstrList) (msz : Z) : M (Z * option bstrList) :=
  match sl with
  | None => mret (BSTR_ERR, sl)
  | Some l =>
      if negb (list_ok l msz) then mret (BSTR_ERR, sl)
      else if msz <=? lmlen l then mret (BSTR_OK, sl)
      else
        let smsz := snapUpSize msz in
        ok ← try_alloc (smsz * 8);
        if ok : bool then mret (BSTR_OK, Some (BstrList (qty l) smsz (entry l)))
        else
          ok ← try_alloc (msz * 8);
          mret (if ok : bool then (BSTR_OK, Some (BstrList (qty l) msz (entry l))) else (BSTR_ERR, sl))
  end.

Definition bstrListAllocMin (sl : option bstrList) (msz : Z) : M (Z * option bstrList) :=
  match sl with
  | None => mret (BSTR_ERR, sl)
  | Some l =>
      if negb (list_ok l msz) then mret (BSTR_ERR, sl)
      else
        let msz := if msz <? qty l then qty l else msz in
        if lmlen l =? msz then mret (BSTR_OK, sl)
        else
          ok ← try_alloc (msz * 8);
          mret (if ok : bool then (BSTR_OK, Some (BstrList (qty l) msz (entry l))) else (BSTR_ERR, sl))
  end.

(** [while (g->bl->qty >= mlen)]: doubled until there is room, unless it wraps. *)
Fixpoint doubled (fuel : nat) (q m0 m : Z) : outcome (option Z) :=
  match fuel with
  | O => Bug
  | S fuel =>
      if m <=? q then if m <? m0 then Done None else doubled fuel q m0 (s32 (m + m)) else Done (Some m)
  end.

(** The callback of the three functions below; [b] is the string that is split. *)
Definition bscb (b : option nat) (bl : bstrList) (ofs len : Z) : M (Z * bstrList) :=
  x ← (if lmlen bl <=? qty bl then
         m ← lift (doubled 33 (qty bl) (lmlen bl) (s32 (lmlen bl * 2)));
         match m with
         | None => mret None
         | Some m => ok ← try_alloc (8 * m);
                     mret (if ok : bool then Some (BstrList (qty bl) m (entry bl)) else None)
         end
       else mret (Some bl));
  match x with
  | None => mret (BSTR_ERR, bl)
  | Some bl =>
      e ← bmidstr b ofs len;
      mret (BSTR_OK, BstrList (qty bl + 1) (lmlen bl) (entry bl ++ [e]))
  end.

(** The body that [bsplit], [bsplits] and [bsplitstr] share. *)
Definition split_with (split : bstrList → M (Z * bstrList)) : M (option bstrList) :=
  ok ← try_alloc 16;
  if negb ok then mret None
  else
    ok ← try_alloc 32;
    if negb ok then mret None
    else
      '(ret, bl) ← split (BstrList 0 4 []);
      if ret <? 0 then bstrListDestroy (Some bl);; mret None else mret (Some bl).

Definition bsplit (str : option nat) (splitChar : Z) : M (option bstrList) :=
  match str with
  | None => mret None
  | Some a =>
      t ← hdr a;
      if unreadable t then mret None
      else split_with (bsplitcb (bscb str) str splitChar 0)
  end.

Definition bsplitstr (str splitStr : option nat) : M (option bstrList) :=
  match str with
  | None => mret None
  | Some a =>
      t ← hdr a;
      if unreadable t then mret None
      else split_with (bsplitstrcb (bscb str) str splitStr 0)
  end.

Definition bsplits (str splitStr : option nat) : M (option bstrList) :=
  match str, splitStr with
  | Some a, Some b =>
      t ← hdr a; t2 ← hdr b;
      if unreadable t || unreadable t2 then mret None
      else split_with (bsplitscb (bscb str) str splitStr 0)
  | _, _ => mret None
  end.

(** [for (i = 0, c = 1; ...)]: the sum of the lengths, if none is negative and the
    sum does not wrap. *)
Fixpoint total (l : list (option nat)) (c : Z) : M (option Z) :=
  match l with
  | [] => mret (Some c)
  | e :: l =>
      e ← lift (deref e); t ← hdr e;
      if slen t <? 0 then mret None
      else let c := s32 (c + slen t) in if c <? 0 then mret None else total l c
  end.

(** The bytes of [b] at [p + c]. *)
Definition put (b : nat) (p : ptr) (c : Z) : M Z :=
  t ← hdr b; q ← get_data b; memcpy p c q 0 (slen t);; mret (c + slen t).

Fixpoint join_loop (l : list (option nat)) (first : bool) (sep : option nat) (p : ptr) (c : Z) : M Z :=
  match l with
  | [] => mret c
  | e :: l =>
      c ← (match sep with
           | Some s => if first then mret c else put s p c
           | None => mret c
           end);
      e ← lift (deref e); c ← put e p c;
      join_loop l false sep p c
  end.

Definition bjoin (bl : option bstrList) (sep : option nat) : M (option nat) :=
  match bl with
  | None => mret None
  | Some bl =>
      if qty bl <? 0 then mret None
      else
        bad ← (match sep with Some s => t ← hdr s; mret (unreadable t) | None => mret false end);
        if bad : bool then mret None
        else
          l ← entries bl;
          c ← total l 1;
          match c with
          | None => mret None
          | Some c =>
              c ← (match sep with
                   | Some s => t ← hdr s; mret (s32 (c + (qty bl - 1) * slen t))
                   | None => mret c
                   end);
              b ← new_bstring c (c - 1);
              match b with
              | None => mret None
              | Some (b, p) => c ← join_loop l true sep p 0; store p c 0;; mret (Some b)
              end
          end
  end.
End Lists.

(** ** Runs *)

Definition held (bl : option bstrList) : M (list (list Z)) :=
  bl ← lift (deref bl);
  foldr (λ e k, e ← lift (deref e); x ← contents e; l ← k; mret (x :: l)) (mret []) (entry bl).

(** "a,,b" at ','. *)
Example bsplit_runs :
  (b ← bfromcstr (Some [97; 44; 44; 98]); bl ← bsplit b 44; held bl) heap0 ≫= (λ x, Done x.1)
  = Done [[97]; []; [98]].
Proof. vm_compute. reflexivity. Qed.

(** "a----b" at "--": the second separator is not seen. *)
Example bsplitstr_skips :
  (b ← bfromcstr (Some [97; 45; 45; 45; 45; 98]); s ← bfromcstr (Some [45; 45]);
   bl ← bsplitstr b s; held bl) heap0 ≫= (λ x, Done x.1)
  = Done [[97]; [45; 45; 98]].
Proof. vm_compute. reflexivity. Qed.
