(* ===== verification/BstrListSpec.v ===== *)
(** Splitting and joining (BstrList) against lists of lists: what the callbacks are
    given, what the lists hold, and that joining with the separator gives the string
    back. *)
From S2P Require Import Prelude Bstr BstrMem BstrSpec BstrOps BstrFind BstrFindSpec BstrRefine BstrList.
#[local] Open Scope Z_scope.

(** ** Fields *)

(** The fields of [s], as places and lengths in the string it is the end of: one
    starts at [p], and [n] bytes of it were seen. *)
Fixpoint cuts (f : Z → bool) (p n : nat) (s : list Z) : list (nat * nat) :=
  match s with
  | [] => [(p, n)]
  | c :: s => if f c then (p, n) :: cuts f (p + n + 1) 0 s else cuts f p (n + 1) s
  end.

Definition pieces (s : list Z) (l : list (nat * nat)) : list (list Z) := map (λ x, slice x.1 x.2 s) l.

(** The pieces with [sep] between them. *)
Definition join (sep : list Z) (l : list (list Z)) : list Z :=
  match l with [] => [] | x :: l => x ++ concat (map (app sep) l) end.

(** The places from [p] on are separated by [sep] and reach the end of [s]. *)
Inductive covers (sep s : list Z) : nat → list (nat * nat) → Prop :=
| covers_last p : (p ≤ length s)%nat → covers sep s p [(p, length s - p)%nat]
| covers_next p n l :
    (p + n + length sep ≤ length s)%nat → slice (p + n) (length sep) s = sep →
    covers sep s (p + n + length sep) l → covers sep s p ((p, n) :: l).

Lemma slice_app i n m (s : list Z) : slice i (n + m) s = slice i n s ++ slice (i + n) m s.
Proof. unfold slice. by rewrite <- drop_drop, take_take_drop. Qed.

Lemma slice_end i (s : list Z) : slice i (length s - i) s = drop i s.
Proof. unfold slice. apply take_ge. rewrite length_drop. lia. Qed.

Lemma covers_join sep s p l : covers sep s p l → join sep (pieces s l) = drop p s.
Proof.
  induction 1 as [p Hp|p n l Hn Hs Hl IH].
  - unfold pieces. cbn [map join concat fst snd]. by rewrite app_nil_r, slice_end.
  - destruct l as [|x l]; [by inversion Hl|]. unfold pieces in *. cbn [map join concat fst snd] in *.
    rewrite <- app_assoc, IH.
    rewrite <- Hs at 1. rewrite app_assoc, <- slice_app.
    rewrite <- (take_drop (n + length sep) (drop p s)), drop_drop. unfold slice.
    by rewrite Nat.add_assoc.
Qed.

Lemma covers_in sep s p l x : covers sep s p l → x ∈ l → (x.1 + x.2 ≤ length s)%nat.
Proof.
  induction 1 as [p Hp|p n l Hn Hs Hl IH].
  - intros ->%list_elem_of_singleton. cbn. lia.
  - intros [->|?]%elem_of_cons; [cbn; lia|auto].
Qed.

(** Fields that end with one character. *)
Lemma cuts_covers c s r p n :
  drop (p + n) s = r → (p + n ≤ length s)%nat → covers [c] s p (cuts (λ x, x =? c) p n r).
Proof.
  revert p n. induction r as [|x r IH]; intros p n Hd Hn; cbn [cuts].
  - assert (length s = p + n)%nat.
    { apply (f_equal length) in Hd. rewrite length_drop in Hd. cbn in Hd. lia. }
    replace n with (length s - p)%nat by lia. constructor. lia.
  - assert (length s = p + n + S (length r))%nat.
    { apply (f_equal length) in Hd. rewrite length_drop in Hd. cbn in Hd. lia. }
    assert (drop (p + n + 1) s = r) as Hd' by (by rewrite <- drop_drop, Hd).
    destruct (Z.eqb_spec x c) as [->|].
    + constructor; [cbn; lia| |].
      * unfold slice. by rewrite Hd.
      * apply IH; cbn [length]; rewrite ?Nat.add_0_r; [done|lia].
    + apply IH; [by rewrite Nat.add_assoc|lia].
Qed.

(** No piece has the character. *)
Lemma cuts_free f s r p n :
  drop (p + n) s = r → Forall (λ c, f c = false) (slice p n s) →
  Forall (Forall (λ c, f c = false)) (pieces s (cuts f p n r)).
Proof.
  revert p n. induction r as [|x r IH]; intros p n Hd Hf; cbn [cuts].
  - by constructor.
  - assert (drop (p + n + 1) s = r) as Hd' by (by rewrite <- drop_drop, Hd).
    destruct (f x) eqn:Ex.
    + constructor; [done|]. apply IH; [by rewrite Nat.add_0_r|constructor].
    + apply IH; [by rewrite Nat.add_assoc|]. rewrite slice_app. apply Forall_app_2; [done|].
      unfold slice. rewrite Hd. by repeat constructor.
Qed.

Lemma cuts_ext f g p n s : Forall (λ c, f c = g c) s → cuts f p n s = cuts g p n s.
Proof. intros HF. revert p n. induction HF as [|c s Hc _ IH]; intros p n; [done|]. cbn. by rewrite Hc, !IH. Qed.

Lemma cuts_none p n s : cuts (λ _, false) p n s = [(p, n + length s)%nat].
Proof.
  revert n. induction s as [|c s IH]; intros n; cbn [cuts length]; [by rewrite Nat.add_0_r|].
  rewrite IH. by rewrite <- Nat.add_assoc.
Qed.

(** ** The calls of the callback *)

Lemma readable_hdr h a q s t :
  readable h a q s → strs h !! a = Some t → data t = Some q ∧ slen t = Z.of_nat (length s).
Proof. intros [(t'&Ha&?&?) _] Ht. rewrite Ha in Ht. by injection Ht as <-. Qed.

Lemma field_end_spec h a q s f p n :
  readable h a q s → (p ≤ length s)%nat →
  (∀ k, (p ≤ k < p + n)%nat → ¬ holds_at f s k) →
  (p + n = length s ∨ holds_at f s (p + n))%nat → (p + n ≤ length s)%nat →
  mwp (field_end a f (Z.of_nat p)) h (λ i h', h' = h ∧ i = Z.of_nat (p + n)).
Proof.
  intros [(t&Ha&Hd&Hl) Hb] Hp Hno Hend Hn. unfold field_end. apply mwp_bind. eapply mwp_hdr; [done|].
  rewrite Hl. destruct (Z.ltb_spec (Z.of_nat p) (Z.of_nat (length s))).
  - apply mwp_bind, (mwp_tail h q s); [done..|]. replace (Z.to_nat _) with (length s - p)%nat by lia.
    destruct (scan_up_spec f s (tail_of h q) (length s - p) p) as (r&Hr&Hf); [by apply tail_of_bytes|lia|].
    apply mwp_bind. eapply mwp_lift; [exact Hr|]. apply mwp_ret. split; [done|].
    destruct Hf as [[-> H']|(k&->&Hk&Hpk&Hmin)]; cbn [Z.ltb BSTR_ERR].
    + destruct Hend as [<-|Hh]; [done|]. exfalso. eapply H'; [|exact Hh]. lia.
    + destruct (Z.ltb_spec (Z.of_nat k) 0); [lia|]. f_equal.
      destruct (decide (k < p + n)%nat) as [Hlt|Hge]; [by destruct (Hno k)|].
      destruct Hend as [Hend|Hh].
      * destruct Hpk as (c&Hc&_). apply lookup_lt_Some in Hc. lia.
      * destruct (decide (k = p + n)%nat) as [|Hne]; [done|].
        exfalso. eapply Hmin; [|exact Hh]. lia.
  - apply mwp_ret. split; [done|]. lia.
Qed.

Lemma same_bytes_spec h a q s b q2 sp i :
  readable h a q s → readable h b q2 sp → (i + length sp ≤ length s)%nat →
  mwp (same_bytes a b (Z.of_nat i) (Z.of_nat (length sp))) h
    (λ e h', h' = h ∧ e = bool_decide (sp = slice i (length sp) s)).
Proof.
  intros [(t&Ha&Hd&Hl) Hb] [(t2&Ha2&Hd2&Hl2) Hb2] Hi. unfold same_bytes.
  apply mwp_bind. eapply mwp_get_data_any; [done..|]. apply mwp_bind. eapply mwp_get_data_any; [done..|].
  apply mwp_bind, mwp_read_bytes; [done|]. apply mwp_bind.
  eapply mwp_read_part; [done|lia|lia|lia|]. rewrite !Nat2Z.id. by apply mwp_ret.
Qed.

Section Calls.
Context {P : Type} (cb : P → Z → Z → M (Z * P)) (I : list (nat * nat) → P → heap → Prop).
Context (a : nat) (s : list Z).
Hypothesis str_kept : ∀ l parm h, I l parm h → ∃ q, readable h a q s.
(* the places grow, so there are at most as many calls *)
Hypothesis cb_spec : ∀ l parm h ofs len,
  (length l ≤ ofs)%nat → (ofs + len ≤ length s)%nat → I l parm h →
  mwp (cb parm (Z.of_nat ofs) (Z.of_nat len)) h (λ x h', 0 ≤ x.1 ∧ I (l ++ [(ofs, len)]) x.2 h').

Definition called (l : list (nat * nat)) (x : Z * P) (h' : heap) : Prop :=
  x.1 = BSTR_OK ∧ I l x.2 h'.

(** The first field of [cuts] ends where the loop stops. *)
Lemma cuts_first f p n r :
  drop (p + n) s = r → (p + n ≤ length s)%nat →
  ∃ m, (n ≤ m ∧ p + m ≤ length s)%nat ∧
    (∀ k, (p + n ≤ k < p + m)%nat → ¬ holds_at f s k) ∧
    ((p + m = length s)%nat ∧ cuts f p n r = [(p, m)] ∨
     (p + m < length s)%nat ∧ holds_at f s (p + m) ∧
     cuts f p n r = (p, m) :: cuts f (p + m + 1) 0 (drop (p + m + 1) s)).
Proof.
  revert n. induction r as [|x r IH]; intros n Hd Hn; cbn [cuts].
  - assert (length s = p + n)%nat.
    { apply (f_equal length) in Hd. rewrite length_drop in Hd. cbn in Hd. lia. }
    exists n. split_and!; [lia|lia|lia|by left].
  - assert (length s = p + n + S (length r))%nat.
    { apply (f_equal length) in Hd. rewrite length_drop in Hd. cbn in Hd. lia. }
    assert (drop (p + n + 1) s = r) as Hd' by (by rewrite <- drop_drop, Hd).
    assert (s !! (p + n)%nat = Some x) as Hx.
    { rewrite <- (Nat.add_0_r (p + n)), <- lookup_drop, Hd. done. }
    destruct (f x) eqn:Ex.
    + exists n. split_and!; [lia|lia|lia|]. right. split_and!; [lia|by exists x|by rewrite Hd'].
    + destruct (IH (n + 1)%nat) as (m&Hm&Hno&Hor); [by rewrite Nat.add_assoc|lia|].
      exists m. split_and!; [lia|lia| |done]. intros k Hk. destruct (decide (k = p + n)%nat) as [->|].
      * intros (y&Hy&Hfy). congruence.
      * apply Hno. lia.
Qed.

Lemma each_field_spec f fuel : ∀ l parm h p,
  I l parm h → (length l ≤ p ≤ length s)%nat → (length s - p < fuel)%nat →
  mwp (each_field cb fuel a f (Z.of_nat p) parm) h (called (l ++ cuts f p 0 (drop p s))).
Proof.
  induction fuel as [|fuel IH]; intros l parm h p HI Hp Hfuel; [lia|]. cbn [each_field].
  destruct (cuts_first f p 0 (drop p s)) as (m&Hm&Hno&Hor); [by rewrite Nat.add_0_r|lia|].
  rewrite Nat.add_0_r in Hno. destruct (str_kept _ _ _ HI) as [q Hq].
  apply mwp_bind. eapply mwp_mono; [eapply (field_end_spec _ _ _ _ _ _ m); [done|lia|done| |lia]|].
  { destruct Hor as [[? _]|(_&?&_)]; auto. }
  intros ? ? [-> ->]. replace (Z.of_nat (p + m) - Z.of_nat p) with (Z.of_nat m) by lia.
  apply mwp_bind. eapply mwp_mono; [apply (cb_spec l); [lia|lia|done]|].
  intros [ret parm'] h' [Hret HI']. cbn in Hret, HI'. rewrite (proj2 (Z.ltb_ge ret 0)) by done.
  destruct (str_kept _ _ _ HI') as [q' Hq']. pose proof Hq' as [(t&Ht&_&Hl) _].
  apply mwp_bind. eapply mwp_hdr; [done|]. rewrite Hl.
  destruct Hor as [[Hend ->]|(Hlt&_&->)].
  - rewrite (proj2 (Z.leb_gt _ _)) by lia. by apply mwp_ret.
  - rewrite (proj2 (Z.leb_le _ _)) by lia. replace (Z.of_nat (p + m) + 1) with (Z.of_nat (p + m + 1)) by lia.
    eapply mwp_mono; [apply (IH (l ++ [(p, m)])); [done|rewrite length_app; cbn; lia|lia]|].
    intros x h2 Hx. by rewrite <- app_assoc in Hx.
Qed.

Lemma bsplitcb_spec l parm h c pos :
  I l parm h → (length l ≤ pos ≤ length s)%nat →
  mwp (bsplitcb cb (Some a) c (Z.of_nat pos) parm) h
    (called (l ++ cuts (λ x, x =? c) pos 0 (drop pos s))).
Proof.
  intros HI Hpos. destruct (str_kept _ _ _ HI) as [q Hq]. pose proof Hq as [(t&Ht&_&Hl) _].
  unfold bsplitcb. apply mwp_bind. eapply mwp_hdr; [done|]. rewrite Hl, !(proj2 (Z.ltb_ge _ _)) by lia.
  cbn [orb]. apply each_field_spec; [done|lia|]. unfold split_fuel. lia.
Qed.

Lemma each_byte_spec fuel : ∀ l parm h p,
  I l parm h → (length l ≤ p ≤ length s)%nat → (length s - p < fuel)%nat →
  mwp (each_byte cb fuel a (Z.of_nat p) parm) h (called (l ++ map (λ i, (i, 1%nat)) (seq p (length s - p)))).
Proof.
  induction fuel as [|fuel IH]; intros l parm h p HI Hp Hfuel; [lia|]. cbn [each_byte].
  destruct (str_kept _ _ _ HI) as [q Hq]. pose proof Hq as [(t&Ht&_&Hl) _].
  apply mwp_bind. eapply mwp_hdr; [done|]. rewrite Hl.
  destruct (Z.ltb_spec (Z.of_nat p) (Z.of_nat (length s))).
  - apply mwp_bind. change 1 with (Z.of_nat 1).
    eapply mwp_mono; [apply (cb_spec l); [lia|lia|done]|].
    intros [ret parm'] h' [Hret HI']. cbn in Hret, HI'. rewrite (proj2 (Z.ltb_ge ret 0)) by done.
    replace (Z.of_nat p + Z.of_nat 1) with (Z.of_nat (S p)) by lia.
    eapply mwp_mono; [apply (IH (l ++ [(p, 1%nat)])); [done|rewrite length_app; cbn; lia|lia]|].
    intros x h2 Hx. rewrite <- app_assoc in Hx.
    replace (length s - p)%nat with (S (length s - S p)) by lia. done.
  - apply mwp_ret. replace (length s - p)%nat with 0%nat by lia. rewrite app_nil_r. done.
Qed.

Context (b : nat) (sp : list Z).
Hypothesis sep_kept : ∀ l parm h, I l parm h → ∃ q, readable h b q sp.

Lemma each_part_spec fuel : ∀ l parm h i p,
  I l parm h → (p ≤ i)%nat → (length l ≤ p ≤ length s)%nat → (length s + 1 - i < fuel)%nat → (0 < length sp)%nat →
  mwp (each_part cb fuel a b (Z.of_nat i) (Z.of_nat p) parm) h
    (λ x h', ∃ l', covers sp s p l' ∧ called (l ++ l') x h').
Proof.
  induction fuel as [|fuel IH]; intros l parm h i p HI Hpi Hp Hfuel Hsp; [lia|]. cbn [each_part].
  destruct (str_kept _ _ _ HI) as [q Hq], (sep_kept _ _ _ HI) as [q2 Hq2].
  pose proof Hq as [(t&Ht&_&Hl) _]. pose proof Hq2 as [(t2&Ht2&_&Hl2) _].
  apply mwp_bind. eapply mwp_hdr; [done|]. apply mwp_bind. eapply mwp_hdr; [done|]. rewrite Hl, Hl2.
  destruct (Z.leb_spec (Z.of_nat i) (Z.of_nat (length s) - Z.of_nat (length sp))).
  - apply mwp_bind. eapply mwp_mono; [eapply same_bytes_spec; [done..|lia]|]. intros ? ? [-> ->].
    destruct (decide (sp = slice i (length sp) s)) as [Heq|Hne].
    + rewrite bool_decide_eq_true_2 by done. apply mwp_bind.
      replace (Z.of_nat i - Z.of_nat p) with (Z.of_nat (i - p)) by lia.
      eapply mwp_mono; [apply (cb_spec l); [lia|lia|done]|].
      intros [ret parm'] h' [Hret HI']. cbn in Hret, HI'. rewrite (proj2 (Z.ltb_ge ret 0)) by done.
      destruct (sep_kept _ _ _ HI') as [q2' [(t2'&Ht2'&_&Hl2') _]].
      apply mwp_bind. eapply mwp_hdr; [done|]. rewrite Hl2'. cbv zeta.
      replace (Z.of_nat i + Z.of_nat (length sp)) with (Z.of_nat (i + length sp)) by lia.
      replace (Z.of_nat (i + length sp) + 1) with (Z.of_nat (i + length sp + 1)) by lia.
      eapply mwp_mono; [apply (IH (l ++ [(p, i - p)%nat])); [done|lia|rewrite length_app; cbn; lia|lia..]|].
      intros x h2 (l'&Hc&Hx). exists ((p, (i - p)%nat) :: l'). rewrite <- app_assoc in Hx.
      split; [|done]. replace i with (p + (i - p))%nat in Hc by lia.
      constructor; [lia|replace (p + (i - p))%nat with i by lia; by symmetry|done].
    + rewrite bool_decide_eq_false_2 by done.
      replace (Z.of_nat i + 1) with (Z.of_nat (i + 1)) by lia. apply IH; [done|lia..].
  - apply mwp_bind. replace (Z.of_nat (length s) - Z.of_nat p) with (Z.of_nat (length s - p)) by lia.
    eapply mwp_mono; [apply (cb_spec l); [lia|lia|done]|].
    intros [ret parm'] h' [Hret HI']. cbn in Hret, HI'. rewrite (proj2 (Z.ltb_ge ret 0)) by done.
    apply mwp_ret. eexists. split; [constructor; lia|]. done.
Qed.

(** What [bsplitstrcb] makes of the string, for each kind of separator. *)
Definition divided (l : list (nat * nat)) : Prop :=
  if decide (sp = []) then l = map (λ i, (i, 1%nat)) (seq 0 (length s)) else covers sp s 0 l.

Lemma bsplitstrcb_spec parm h :
  I [] parm h →
  mwp (bsplitstrcb cb (Some a) (Some b) 0 parm) h (λ x h', ∃ l, divided l ∧ called l x h').
Proof.
  intros HI. destruct (str_kept _ _ _ HI) as [q Hq], (sep_kept _ _ _ HI) as [q2 Hq2].
  pose proof Hq as [(t&Ht&_&Hl) _]. pose proof Hq2 as [(t2&Ht2&Hd2&Hl2) Hb2].
  unfold bsplitstrcb. apply mwp_bind. eapply mwp_hdr; [done|]. apply mwp_bind. eapply mwp_hdr; [done|].
  rewrite Hl, Hl2, !(proj2 (Z.ltb_ge _ _)) by lia. cbn [orb].
  destruct (Z.eqb_spec (Z.of_nat (length sp)) 0) as [H0|H0].
  - change 0 with (Z.of_nat 0).
    eapply mwp_mono; [apply (each_byte_spec _ [] _ _ 0 HI); [cbn; lia|unfold split_fuel; lia]|].
    intros x h' Hx. rewrite Nat.sub_0_r in Hx. eexists. split; [|done].
    unfold divided. rewrite decide_True; [done|]. apply nil_length_inv. lia.
  - assert (sp ≠ []) as Hne by (intros E; rewrite E in H0; done).
    assert (∀ l', covers sp s 0 l' → divided l') as Hdiv by (intros; unfold divided; by rewrite decide_False).
    destruct (Z.eqb_spec (Z.of_nat (length sp)) 1) as [H1|H1].
    + assert (∃ c, sp = [c]) as [c Hc].
      { destruct sp as [|c [|? ?]]; [done|by exists c|cbn in *; lia]. }
      apply mwp_bind. unfold first_byte. rewrite Hc in Hb2.
      apply mwp_bind. eapply mwp_hdr; [done|]. apply mwp_bind, (mwp_tail h q2 [c]); [done..|].
      change 0 with (Z.of_nat 0). eapply mwp_lift; [apply (at_take _ [c]); [by apply tail_of_bytes|done]|].
      eapply mwp_mono; [apply (bsplitcb_spec []); [done|cbn; lia]|]. intros x h' Hx.
      eexists. split; [|done]. apply Hdiv. rewrite Hc. by apply cuts_covers; [|lia].
    + change 0 with (Z.of_nat 0).
      eapply mwp_mono; [apply (each_part_spec _ []); [done|lia|cbn; lia|unfold split_fuel; lia|lia]|].
      intros x h' (l'&Hl'&Hx). eexists. split; [by apply Hdiv|done].
Qed.

(** [bsplitscb]: the string ends a field at each character of the set. *)
Lemma bsplitscb_spec parm h :
  bytes_ok s → bytes_ok sp → I [] parm h →
  mwp (bsplitscb cb (Some a) (Some b) 0 parm) h (called (cuts (member sp) 0 0 s)).
Proof.
  intros Hs Hsp HI. destruct (str_kept _ _ _ HI) as [q Hq], (sep_kept _ _ _ HI) as [q2 Hq2].
  pose proof Hq as [(t&Ht&_&Hl) _]. pose proof Hq2 as [(t2&Ht2&Hd2&Hl2) Hb2].
  unfold bsplitscb. apply mwp_bind. eapply mwp_hdr; [done|]. apply mwp_bind. eapply mwp_hdr; [done|].
  rewrite Hl, Hl2, !(proj2 (Z.ltb_ge _ _)) by lia. cbn [orb].
  destruct (Z.eqb_spec (Z.of_nat (length sp)) 0) as [H0|H0].
  - assert (sp = []) as Hnil by (apply nil_length_inv; lia). apply mwp_bind. change (cb parm 0) with (cb parm (Z.of_nat 0)).
    eapply mwp_mono; [apply (cb_spec []); [done|lia|done]|]. intros [ret parm'] h' [Hret HI']. cbn in Hret, HI'.
    apply mwp_ret. rewrite (cuts_ext _ (λ _, false)), cuts_none.
    + split; [|done]. cbn. destruct (Z.ltb_spec 0 ret); [done|]. unfold BSTR_OK. lia.
    + apply Forall_forall. intros c _. rewrite Hnil. unfold member. by apply bool_decide_eq_false_2, not_elem_of_nil.
  - destruct (Z.eqb_spec (Z.of_nat (length sp)) 1) as [H1|H1].
    + assert (∃ c, sp = [c]) as [c Hc].
      { destruct sp as [|c [|? ?]]; [done|by exists c|cbn in *; lia]. }
      apply mwp_bind. unfold first_byte. rewrite Hc in Hb2.
      apply mwp_bind. eapply mwp_hdr; [done|]. apply mwp_bind, (mwp_tail h q2 [c]); [done..|].
      change 0 with (Z.of_nat 0). eapply mwp_lift; [apply (at_take _ [c]); [by apply tail_of_bytes|done]|].
      eapply mwp_mono; [apply (bsplitcb_spec []); [done|cbn; lia]|]. intros x h' Hx.
      rewrite (cuts_ext _ (λ x, x =? c)); [done|]. apply Forall_forall. intros x' _. rewrite Hc. unfold member.
      apply eq_true_iff_eq. by rewrite bool_decide_eq_true, list_elem_of_singleton, Z.eqb_eq.
    + apply mwp_bind. eapply mwp_mono; [by eapply buildCharField_spec|]. intros ? ? [-> ->].
      rewrite decide_False by (intros E; rewrite E in H0; done).
      apply mwp_bind. eapply mwp_lift; [done|]. change 0 with (Z.of_nat 0).
      rewrite (cuts_ext _ (testInCharField (foldl setInCharField (replicate CFCLEN 0) sp))).
      * apply (each_field_spec _ _ []); [done|cbn; lia|unfold split_fuel; lia].
      * eapply Forall_impl; [exact Hs|]. intros c Hc. by rewrite test_members.
Qed.
End Calls.

(** ** The lists *)

(** The entries are strings that live and hold [l]; the array has room for them and
    is not much larger. *)
Definition listed (w : world) (bl : bstrList) (l : list (list Z)) : Prop :=
  qty bl = Z.of_nat (length (entry bl)) ∧ 0 < lmlen bl ∧ qty bl ≤ lmlen bl ≤ Z.max 4 (2 * qty bl) ∧
  Forall2 (λ e x, ∃ n, e = Some n ∧ w !! n = Some x) (entry bl) l.

Lemma listed_grown w w' bl l : w ⊆ w' → listed w bl l → listed w' bl l.
Proof.
  intros Hw (?&?&?&HF). split_and!; try done; try lia.
  eapply Forall2_impl; [exact HF|]. intros e x (n&->&Hn). exists n. split; [done|].
  by eapply lookup_weaken.
Qed.

Lemma listed_snoc w bl l n x m :
  listed w bl l → w !! n = Some x → 0 < m → qty bl < m ≤ Z.max 4 (2 * (qty bl + 1)) →
  listed w (BstrList (qty bl + 1) m (entry bl ++ [Some n])) (l ++ [x]).
Proof.
  intros (Hq&_&_&HF) Hn Hm Hb. split_and!; cbn; [rewrite length_app; cbn; lia|done|lia|lia|].
  apply Forall2_app; [done|]. constructor; [by exists n|done].
Qed.

Lemma doubled_once fuel q m :
  0 < m < 2 ^ 29 → q ≤ m → doubled (S fuel) q m (s32 (m * 2)) = Done (Some (m * 2)).
Proof. intros. rewrite s32_small by lia. cbn [doubled]. by rewrite (proj2 (Z.leb_gt _ _)) by lia. Qed.

(** What holds of the result when there is one. *)
Definition pwp {A} (m : M A) (h : heap) (Q : A → Prop) : Prop := ∀ a h', m h = Done (a, h') → Q a.
Lemma pwp_bind {A B} (m : M A) (f : A → M B) h Q :
  (∀ a h1, m h = Done (a, h1) → pwp (f a) h1 Q) → pwp (m ≫= f) h Q.
Proof.
  intros Hf b h'. unfold mbind, M_bind. destruct (m h) as [[a h1]| |] eqn:E; [|done|done].
  by apply Hf.
Qed.
Lemma pwp_ret {A} (a : A) h (Q : A → Prop) : Q a → pwp (mret a) h Q.
Proof. intros HQ ? ? [= <- <-]. done. Qed.
Lemma mwp_pwp {A} (m : M A) h (P : A → heap → Prop) (Q : A → Prop) :
  mwp m h P → pwp m h Q → mwp m h (λ a h', P a h' ∧ Q a).
Proof.
  unfold mwp, pwp. destruct (m h) as [[a h']| |] eqn:E; [|done|done].
  intros HP HQ. split; [done|]. by eapply HQ.
Qed.

Section Lists.
Context `{AllocatorLaws}.

(** Every allocation succeeds. *)
Definition plenty : Prop := ∀ n, alloc_ok n = true.

Lemma mwp_try_alloc size h (Q : bool → heap → Prop) :
  plenty → 0 ≤ size → Q true (Heap (blocks h) (strs h) (S (fresh h))) → mwp (try_alloc size) h Q.
Proof. intros Hp Hs HQ. unfold mwp, try_alloc. by rewrite bool_decide_eq_true_2, Hp by done. Qed.

Lemma holds_bump h w : holds h w → holds (Heap (blocks h) (strs h) (S (fresh h))) w.
Proof. intros Hw. eapply holds_same; [done|]. exists (S (fresh h)). split; [done|lia]. Qed.

(** With memory, what makes a string makes it. *)
Lemma new_bstring_plenty h m n : plenty → 0 ≤ m → pwp (new_bstring m n) h (λ r, r ≠ None).
Proof.
  intros Hp Hm r h'. unfold new_bstring, alloc_hdr, alloc, set_hdr, mbind, M_bind. rewrite Hp.
  cbn. rewrite decide_True by (by rewrite Hp). cbn [strs]. rewrite lookup_insert_eq. by intros [= <- <-].
Qed.

Lemma bmidstr_plenty h c q s lft len :
  plenty → readable h c q s → Z.of_nat (length s) + 1 < 2 ^ 30 → lft ≤ INT_MAX →
  pwp (bmidstr (Some c) lft len) h (λ r, r ≠ None).
Proof.
  intros Hp [(t&Hc&Hd&Hs) _] Hlen Hl. apply pwp_bind. intros t' h1 Ht'.
  unfold hdr in Ht'. rewrite Hc in Ht'. injection Ht' as <- <-. rewrite (readable_guard t q s) by done.
  destruct (clamp _ _ _) as [l m] eqn:E. rewrite Hs in E.
  apply clamp_spec in E as [Hl0 Hm]; [|unfold INT_MAX; lia|done].
  destruct (Z.leb_spec m 0).
  - apply pwp_bind. intros r h1 Hr. destruct r as [[b x]|];
      [|by eapply new_bstring_plenty in Hr; [|done|done]].
    apply pwp_bind. intros. by apply pwp_ret.
  - apply pwp_bind. intros p h1 _. unfold blk2bstr. rewrite (proj2 (Z.ltb_ge m 0)) by lia. cbn [orb null_source].
    pose proof (snapUpSize_pos (s32 (m + (2 - (if m =? 0 then 0 else 1))))).
    apply pwp_bind. intros r h2 Hr. destruct r as [[b x]|];
      [|by eapply new_bstring_plenty in Hr; [|done|lia]].
    apply pwp_bind. intros. apply pwp_bind. intros. by apply pwp_ret.
Qed.

Lemma middle_slice ofs len (s : list Z) :
  (ofs + len ≤ length s)%nat → Z.of_nat (length s) ≤ INT_MAX →
  middle (Z.of_nat ofs) (Z.of_nat len) s = slice ofs len s.
Proof.
  intros Hs Hmax. unfold middle, clamp. unfold INT_MAX in *.
  rewrite (proj2 (Z.ltb_ge _ _)), s32_small, (proj2 (Z.ltb_ge _ _)), !Nat2Z.id by lia. done.
Qed.

(** ** The callback and the three functions *)

Context (w : world) (a : nat) (s : list Z).
Hypothesis str_held : w !! a = Some s.
Hypothesis str_short : short s.
Hypothesis memory : plenty.

(** After the calls [l]. *)
Definition built (l : list (nat * nat)) (bl : bstrList) (h : heap) : Prop :=
  ∃ w', holds h w' ∧ w ⊆ w' ∧ listed w' bl (pieces s l).

Lemma built_readable b x l bl h : w !! b = Some x → built l bl h → ∃ q, readable h b q x.
Proof. intros Hx (w'&Hw&Hsub&_). eapply holds_readable; [done|]. by eapply lookup_weaken. Qed.

Lemma bscb_spec l bl h ofs len :
  (length l ≤ ofs)%nat → (ofs + len ≤ length s)%nat → built l bl h →
  mwp (bscb (Some a) bl (Z.of_nat ofs) (Z.of_nat len)) h
    (λ x h', 0 ≤ x.1 ∧ built (l ++ [(ofs, len)]) x.2 h').
Proof.
  intros Hl Hs Hb. unfold short in str_short. unfold bscb. apply mwp_bind.
  apply (mwp_mono _ _ (λ x h', built l bl h' ∧ ∃ m, x = Some (BstrList (qty bl) m (entry bl)) ∧
    0 < m ∧ qty bl < m ≤ Z.max 4 (2 * (qty bl + 1)))).
  { destruct Hb as (w'&Hw&Hsub&Hli). pose proof Hli as (Hq&Hm0&Hm&HF).
    apply Forall2_length in HF. unfold pieces in HF. rewrite length_map in HF.
    destruct (Z.leb_spec (lmlen bl) (qty bl)).
    - apply mwp_bind. eapply mwp_lift; [apply doubled_once; lia|].
      apply mwp_bind, mwp_try_alloc; [done|lia|]. apply mwp_ret. split; [|eexists; split_and!; [done|lia..]].
      exists w'. split_and!; [by apply holds_bump|done|done].
    - apply mwp_ret. split; [by exists w'|]. exists (lmlen bl). destruct bl. cbn in *.
      split_and!; [done|lia..]. }
  intros x h1 (Hb1&m&->&Hm0&Hm). cbn [qty entry lmlen].
  destruct (built_readable a s _ _ _ str_held Hb1) as [q Hr]. destruct Hb1 as (w'&Hw&Hsub&Hli).
  apply mwp_bind. eapply mwp_mono.
  { apply mwp_pwp; [eapply bmidstr_spec; [by apply Hw|done|lia|unfold INT_MAX; lia]|].
    eapply bmidstr_plenty; [done|done|lia|unfold INT_MAX; lia]. }
  intros [e|] h2 [Hcr Hne]; [|done]. apply mwp_ret. cbn. split; [done|].
  rewrite middle_slice in Hcr by (unfold INT_MAX; lia).
  destruct (holds_created _ _ _ _ _ Hw Hcr) as [Hnew Hw2].
  exists (<[e := slice ofs len s]> w'). split_and!; [done| |].
  - etransitivity; [done|]. by apply insert_subseteq.
  - unfold pieces. rewrite map_app. cbn. apply listed_snoc; [|by rewrite lookup_insert_eq|done|done].
    eapply listed_grown; [|done]. by apply insert_subseteq.
Qed.

Lemma built_start h : holds h w → built [] (BstrList 0 4 []) h.
Proof. intros Hw. exists w. split_and!; [done|done|]. unfold listed. cbn. split_and!; [done|lia|lia|lia|constructor]. Qed.

Lemma split_with_spec (split : bstrList → M (Z * bstrList)) (D : list (nat * nat) → Prop) h :
  holds h w →
  (∀ h, holds h w → mwp (split (BstrList 0 4 [])) h (λ x h', ∃ l, D l ∧ called built l x h')) →
  mwp (split_with split) h (λ r h', ∃ l bl, D l ∧ r = Some bl ∧ built l bl h').
Proof.
  intros Hw Hsplit. unfold split_with.
  apply mwp_bind, mwp_try_alloc; [done|lia|]. cbn [negb].
  apply mwp_bind, mwp_try_alloc; [done|lia|]. cbn [negb].
  apply mwp_bind. eapply mwp_mono; [apply Hsplit; by do 2 apply holds_bump|].
  intros [ret bl] h' (l&Hl&Hret&Hb). cbn in Hret, Hb. subst ret. apply mwp_ret. by exists l, bl.
Qed.

Lemma bsplit_spec h c :
  holds h w →
  mwp (bsplit (Some a) c) h (λ r h', ∃ bl, r = Some bl ∧ built (cuts (λ x, x =? c) 0 0 s) bl h').
Proof.
  intros Hw. destruct (holds_readable _ _ _ _ Hw str_held) as (q&Hr). pose proof Hr as [(t&Ht&Hd&Hl) _].
  unfold bsplit. apply mwp_bind. eapply mwp_hdr; [done|]. rewrite (readable_guard t q s) by done.
  eapply mwp_mono; [apply (split_with_spec _ (λ l, l = cuts (λ x, x =? c) 0 0 s)); [done|]|].
  - intros h1 Hw1. eapply mwp_mono.
    { apply (bsplitcb_spec _ built a s (λ l bl h, built_readable a s l bl h str_held) bscb_spec [] _ _ _ 0);
        [by apply built_start|cbn; lia]. }
    intros x h' Hx. by eexists.
  - intros r h' (l&bl&->&->&Hb). by exists bl.
Qed.

Lemma bsplits_spec h b sp :
  holds h w → w !! b = Some sp → bytes_ok s → bytes_ok sp →
  mwp (bsplits (Some a) (Some b)) h (λ r h', ∃ bl, r = Some bl ∧ built (cuts (member sp) 0 0 s) bl h').
Proof.
  intros Hw Hsp Hs1 Hs2. destruct (holds_readable _ _ _ _ Hw str_held) as (q&Hr). pose proof Hr as [(t&Ht&Hd&Hl) _].
  destruct (holds_readable _ _ _ _ Hw Hsp) as (q2&Hr2). pose proof Hr2 as [(t2&Ht2&Hd2&Hl2) _].
  unfold bsplits. apply mwp_bind. eapply mwp_hdr; [done|]. apply mwp_bind. eapply mwp_hdr; [done|].
  rewrite (readable_guard t q s), (readable_guard t2 q2 sp) by done. cbn [orb].
  eapply mwp_mono; [apply (split_with_spec _ (λ l, l = cuts (member sp) 0 0 s)); [done|]|].
  - intros h1 Hw1. eapply mwp_mono.
    { apply (bsplitscb_spec _ built a s (λ l bl h, built_readable a s l bl h str_held) bscb_spec b sp
        (λ l bl h, built_readable b sp l bl h Hsp)); [done|done|by apply built_start]. }
    intros x h' Hx. by eexists.
  - intros r h' (l&bl&->&->&Hb). by exists bl.
Qed.

Lemma bsplitstr_spec h b sp :
  holds h w → w !! b = Some sp →
  mwp (bsplitstr (Some a) (Some b)) h (λ r h', ∃ l bl, divided s sp l ∧ r = Some bl ∧ built l bl h').
Proof.
  intros Hw Hsp. destruct (holds_readable _ _ _ _ Hw str_held) as (q&Hr). pose proof Hr as [(t&Ht&Hd&Hl) _].
  unfold bsplitstr. apply mwp_bind. eapply mwp_hdr; [done|]. rewrite (readable_guard t q s) by done.
  apply split_with_spec; [done|]. intros h1 Hw1.
  apply (bsplitstrcb_spec _ built a s (λ l bl h, built_readable a s l bl h str_held) bscb_spec b sp
    (λ l bl h, built_readable b sp l bl h Hsp)). by apply built_start.
Qed.
End Lists.

(** ** Joining *)

Definition entries_of (w : world) (es : list (option nat)) (l : list (list Z)) : Prop :=
  Forall2 (λ e x, ∃ n, e = Some n ∧ w !! n = Some x) es l.

(** What [join] adds for the entries, the first one maybe without a separator. *)
Definition rest_of (sep : list Z) (first : bool) (l : list (list Z)) : list Z :=
  if first then join sep l else concat (map (app sep) l).

Lemma rest_of_cons sep first x l :
  rest_of sep first (x :: l) = (if first then [] else sep) ++ x ++ rest_of sep false l.
Proof. destruct first; [done|]. cbn. by rewrite app_assoc. Qed.

Lemma total_spec h w es l : holds h w → entries_of w es l → ∀ c,
  0 ≤ c → c + Z.of_nat (length (concat l)) ≤ INT_MAX →
  mwp (total es c) h (λ r h', h' = h ∧ r = Some (c + Z.of_nat (length (concat l)))).
Proof.
  intros Hw. induction 1 as [|e x es l (n&->&Hn) _ IH]; intros c Hc Hmax; cbn [total].
  - apply mwp_ret. cbn. rewrite Z.add_0_r. done.
  - cbn [concat] in *. rewrite length_app, Nat2Z.inj_add in *. unfold INT_MAX in *.
    apply mwp_bind. eapply mwp_lift; [done|].
    destruct (holds_str _ _ Hw _ _ Hn) as (t&k&b&[Ht _ Hb _]).
    apply mwp_bind. eapply mwp_hdr; [done|]. rewrite (buf_slen _ _ _ _ Hb).
    rewrite (proj2 (Z.ltb_ge _ 0)), s32_small, (proj2 (Z.ltb_ge _ 0)) by lia.
    rewrite Z.add_assoc. apply IH; unfold INT_MAX; lia.
Qed.

Section Join.
Context `{AllocatorLaws}.
Context (h : heap) (w : world) (Hw : holds h w).
(* the new string: its header, its block, the allocations so far *)
Context (x : nat) (t : tagbstring) (k f : nat) (Hx : (fresh h ≤ x)%nat) (Hk : (fresh h ≤ k)%nat).

Lemma put_spec b y blk c (Q : Z → heap → Prop) :
  w !! b = Some y → (c + length y ≤ length blk)%nat →
  Q (Z.of_nat (c + length y)) (upd (Heap (blocks h) (strs h) f) x t k (write_at c y blk)) →
  mwp (put b (Ptr k 0) (Z.of_nat c)) (upd (Heap (blocks h) (strs h) f) x t k blk) Q.
Proof.
  intros Hb Hfit HQ. destruct (holds_str _ _ Hw _ _ Hb) as (tb&kb&bb&[Ht Hkb Hbuf Hh]).
  assert (b ≠ x) as Hne by (apply (heap_ok_str_lt _ _ _ Hh) in Ht; lia).
  assert (kb ≠ k) as Hkne by (apply (heap_ok_block_lt _ _ _ Hh) in Hkb; lia).
  unfold put. apply mwp_bind. eapply mwp_hdr_ne; [done|done|].
  apply mwp_bind. eapply mwp_get_data_any; [cbn; by rewrite lookup_insert_ne|by apply Hbuf|].
  rewrite (buf_slen _ _ _ _ Hbuf). apply mwp_bind.
  unfold memcpy. rewrite decide_False by (cbn; intros [? _]; congruence).
  apply mwp_copy; [|done|unfold in_range; lia|].
  - exists bb. pose proof (buffer_fits _ _ _ _ Hbuf). split_and!; [done|unfold in_range; cbn; lia|].
    cbn. unfold slice. rewrite drop_0. by apply Hbuf.
  - rewrite Nat2Z.id. apply mwp_ret. by rewrite <- Nat2Z.inj_add.
Qed.

Lemma write_take c y (b r : list Z) :
  take c b = r → (c + length y ≤ length b)%nat → take (c + length y) (write_at c y b) = r ++ y.
Proof.
  intros <- Hb. rewrite write_at_in, app_assoc by lia. apply take_app_length'. len.
Qed.

Lemma join_loop_spec b sep es l : w !! b = Some sep → entries_of w es l →
  ∀ first blk c (Q : Z → heap → Prop), (c + length (rest_of sep first l) ≤ length blk)%nat →
  (∀ blk', length blk' = length blk →
    take (c + length (rest_of sep first l)) blk' = take c blk ++ rest_of sep first l →
    Q (Z.of_nat (c + length (rest_of sep first l))) (upd (Heap (blocks h) (strs h) f) x t k blk')) →
  mwp (join_loop es first (Some b) (Ptr k 0) (Z.of_nat c)) (upd (Heap (blocks h) (strs h) f) x t k blk) Q.
Proof.
  intros Hb. induction 1 as [|e y es l (n&->&Hn) _ IH]; intros first blk c Q Hfit HQ; cbn [join_loop].
  - assert (rest_of sep first [] = []) as E by by destruct first. rewrite E in HQ.
    apply mwp_ret. specialize (HQ blk). rewrite app_nil_r, Nat.add_0_r in HQ. by apply HQ.
  - rewrite rest_of_cons, !length_app in Hfit, HQ. set (s1 := if first then [] else sep) in *.
    apply mwp_bind. apply (mwp_mono _ _ (λ c' h', c' = Z.of_nat (c + length s1) ∧
      ∃ b1, h' = upd (Heap (blocks h) (strs h) f) x t k b1 ∧ length b1 = length blk ∧
        take (c + length s1) b1 = take c blk ++ s1)).
    { unfold s1. destruct first.
      - apply mwp_ret. rewrite Nat.add_0_r, app_nil_r. split; [done|]. by exists blk.
      - apply (put_spec _ sep); [done|unfold s1 in Hfit; lia|]. split; [done|].
        eexists. split_and!; [done|apply length_write_at; unfold s1 in Hfit; lia|].
        apply write_take; [done|unfold s1 in Hfit; lia]. }
    intros c1 h1 (->&b1&->&Hl1&Ht1). apply mwp_bind. eapply mwp_lift; [done|].
    apply mwp_bind, (put_spec _ y); [done|lia|].
    apply IH; [rewrite length_write_at by lia; lia|].
    intros b2 Hl2 Ht2. rewrite length_write_at in Hl2 by lia.
    rewrite (write_take _ _ _ _ Ht1) in Ht2 by lia.
    replace (c + length s1 + length y + length (rest_of sep false l))%nat
      with (c + (length s1 + (length y + length (rest_of sep false l))))%nat in * by lia.
    apply HQ; [lia|]. by rewrite Ht2, <- !app_assoc.
Qed.
End Join.

Lemma join_length sep l :
  (l = [] → sep = []) →
  Z.of_nat (length (join sep l)) = Z.of_nat (length (concat l)) + (Z.of_nat (length l) - 1) * Z.of_nat (length sep).
Proof.
  intros Hl. destruct l as [|x l]; [rewrite Hl by done; done|]. cbn [join concat]. clear Hl.
  rewrite !length_app. assert (length (concat (map (app sep) l)) = length (concat l) + length l * length sep)%nat as ->.
  { induction l as [|y l IH]; [done|]. cbn. rewrite !length_app, IH. lia. }
  cbn [length]. lia.
Qed.

Section Joined.
Context `{AllocatorLaws}.

Lemma bjoin_spec h w b sep bl l :
  holds h w → w !! b = Some sep → qty bl = Z.of_nat (length (entry bl)) → entries_of w (entry bl) l →
  (l = [] → sep = []) → Z.of_nat (length (join sep l)) < 2 ^ 30 →
  mwp (bjoin (Some bl) (Some b)) h (λ r h', created h (join sep l) r h' ∧ (plenty → r ≠ None)).
Proof.
  intros Hw Hb Hq HF Hnil Hmax. pose proof (join_length sep l Hnil) as Hlen.
  destruct (holds_readable _ _ _ _ Hw Hb) as [q [(t&Ht&Hd&Hl) _]].
  unfold bjoin. rewrite Hq, (proj2 (Z.ltb_ge _ 0)) by lia.
  apply mwp_bind, mwp_bind. eapply mwp_hdr; [done|]. apply mwp_ret. rewrite (readable_guard t q sep) by done.
  apply mwp_bind. eapply mwp_lift.
  { unfold entries. rewrite Hq, Nat2Z.id, decide_True, firstn_all by lia. done. }
  assert (0 ≤ (Z.of_nat (length l) - 1) * Z.of_nat (length sep)) as Hnn.
  { destruct l; [rewrite Hnil by done; done|]. cbn [length]. lia. }
  apply mwp_bind. eapply mwp_mono; [eapply total_spec; [done..|lia|unfold INT_MAX; lia]|].
  intros ? ? [-> ->]. apply mwp_bind, mwp_bind. eapply mwp_hdr; [done|]. apply mwp_ret.
  rewrite Hl. pose proof (Forall2_length _ _ _ HF) as ->. rewrite s32_small by lia.
  replace (1 + _ + _) with (Z.of_nat (length (join sep l)) + 1) by lia.
  apply mwp_bind. eapply mwp_mono.
  { apply (mwp_pwp _ _ (unwritten h (Z.of_nat (length (join sep l)) + 1)
      (Z.of_nat (length (join sep l)) + 1 - 1)) (λ r, plenty → r ≠ None)); [apply new_bstring_spec; [apply Hw|lia]|].
    intros r h' Hr Hp. eapply new_bstring_plenty; [done| |exact Hr]. lia. }
  intros [[x p]|] h1 [Hun Hp]; [|apply mwp_ret; split; [done|intros ?%Hp; done]].
  destruct Hun as (k&blk&f&Hx&Hk&->&Hblk&->). apply mwp_bind.
  apply (join_loop_spec h w Hw x _ k f (proj1 Hx) (proj1 Hk) b sep _ l Hb HF true blk 0); [cbn [rest_of]; lia|].
  intros blk' Hl' Ht'. cbn [rest_of Nat.add] in *. rewrite take_0, app_nil_l in Ht'.
  rewrite Z.add_simpl_r.
  eapply mwp_mono; [apply (mwp_pwp _ _ (created h (join sep l)) (λ r, r ≠ None))|by intros r h' [? ?]].
  - apply created_close; [lia|lia|lia|unfold INT_MAX; lia|lia|done].
  - apply pwp_bind. intros. by apply pwp_ret.
Qed.

(** ** What the list functions do *)

Lemma seq_pieces s : concat (pieces s (map (λ i, (i, 1%nat)) (seq 0 (length s)))) = s.
Proof.
  assert (∀ p, (p ≤ length s)%nat →
    concat (pieces s (map (λ i, (i, 1%nat)) (seq p (length s - p)))) = drop p s) as Hp; [|rewrite <- (Nat.sub_0_r (length s)); by apply (Hp 0%nat); lia].
  intros p. remember (length s - p)%nat as n eqn:Hn. revert p Hn. induction n as [|n IH]; intros p Hn Hp.
  - cbn. symmetry. apply drop_ge. lia.
  - cbn [seq]. unfold pieces in *. cbn [map concat fst snd]. rewrite IH by lia.
    destruct (lookup_lt_is_Some_2 s p) as [c Hc]; [lia|]. unfold slice. by rewrite (drop_S _ _ _ Hc).
Qed.

Lemma divided_join s sp l :
  divided s sp l → (pieces s l = [] → sp = []) ∧ join sp (pieces s l) = s.
Proof.
  unfold divided. destruct (decide (sp = [])) as [->|Hne].
  - intros ->. split; [done|]. etransitivity; [|apply seq_pieces].
    destruct (pieces _ _) as [|x m]; [done|]. cbn. f_equal. by rewrite map_id.
  - intros Hc. split; [|by apply covers_join in Hc]. inversion Hc; subst; done.
Qed.

(** [bsplit] divides a string at a character: the entries of the list are new
    strings, none of them holds the character, and with the character between them
    they are the string; the string itself is unchanged, and nothing else is
    allocated. *)
Theorem bsplit_fields h w a s c :
  plenty → holds h w → w !! a = Some s → short s →
  ∃ bl ls h' w', bsplit (Some a) c h = Done (Some bl, h') ∧ holds h' w' ∧ w ⊆ w' ∧
    qty bl = Z.of_nat (length ls) ∧ entries_of w' (entry bl) ls ∧
    Forall (λ x, c ∉ x) ls ∧ join [c] ls = s.
Proof.
  intros Hp Hw Ha Hs.
  destruct (mwp_done _ _ _ (bsplit_spec w a s Ha Hs Hp h c Hw)) as (r&h'&Hr&bl&->&w'&Hw'&Hsub&Hq&_&_&HF).
  exists bl, (pieces s (cuts (λ x, x =? c) 0 0 s)), h', w'.
  pose proof (Forall2_length _ _ _ HF) as Hlen. split_and!; try done; [by rewrite Hq, Hlen| |].
  - eapply Forall_impl; [apply cuts_free; [done|constructor]|].
    intros x Hx Hin. eapply Forall_forall in Hx; [|exact Hin]. cbn in Hx. lia.
  - rewrite (covers_join [c] s 0); [done|]. apply cuts_covers; [done|cbn; lia].
Qed.

(** C21. [bjoin] undoes [bsplitstr]: the list that a separator divides a string into,
    joined with the same separator, is the string again, for every string and every
    separator, the empty one too: also where [bsplitstr] does not see a separator that
    follows another one. All the strings that were there are unchanged. *)
Theorem bjoin_restores h w a b s sp :
  plenty → holds h w → w !! a = Some s → w !! b = Some sp → short s →
  ∃ bl x h1 h2 w2, bsplitstr (Some a) (Some b) h = Done (Some bl, h1) ∧
    bjoin (Some bl) (Some b) h1 = Done (Some x, h2) ∧
    holds h2 w2 ∧ w ⊆ w2 ∧ w2 !! x = Some s.
Proof.
  intros Hp Hw Ha Hb Hs.
  destruct (mwp_done _ _ _ (bsplitstr_spec w a s Ha Hs Hp h b sp Hw Hb))
    as (r&h1&Hr&l&bl&Hl&->&w'&Hw'&Hsub&Hq&_&_&HF).
  apply divided_join in Hl as [Hnil Hjoin]. unfold short in Hs.
  assert (w' !! b = Some sp) as Hb' by by eapply lookup_weaken.
  destruct (mwp_done _ _ _ (bjoin_spec h1 w' b sp bl _ Hw' Hb' Hq HF Hnil ltac:(rewrite Hjoin; lia)))
    as (x&h2&Hx&Hcr&Hsome).
  destruct x as [x|]; [|by destruct (Hsome Hp)]. rewrite Hjoin in Hcr.
  destruct (holds_created _ _ _ _ _ Hw' Hcr) as [Hnew Hw2].
  exists bl, x, h1, h2, (<[x := s]> w'). split_and!; [done..| |by rewrite lookup_insert_eq].
  etransitivity; [done|]. by apply insert_subseteq.
Qed.
End Joined.

(** ** Runs *)

(** One more string in memory. *)
Definition place (h : heap) (s : list Z) : heap :=
  upd (Heap (blocks h) (strs h) (S (fresh h))) (fresh h)
    (Tag (Z.of_nat (length s) + 1) (Z.of_nat (length s)) (Some (Ptr (fresh h) 0))) (fresh h) (s ++ [0]).

Lemma place_holds h w s :
  holds h w → Z.of_nat (length s) < INT_MAX → holds (place h s) (<[fresh h := s]> w).
Proof.
  intros Hw Hs. destruct (fresh_none _ _ Hw (fresh h)) as [? ?]; [done|].
  apply holds_added; try done; try lia. split; cbn; try done.
  - rewrite length_app. cbn. lia.
  - by apply take_app_length.
  - rewrite lookup_app_r, Nat.sub_diag by done. done.
  - lia.
Qed.

Lemma zero_plenty : plenty.
Proof. done. Qed.

(** "a,,b" at ','. *)
Lemma bsplit_fields_witness :
  let h := place heap0 [97; 44; 44; 98] in
  ∃ bl h', bsplit (Some 0%nat) 44 h = Done (Some bl, h') ∧ qty bl = 3 ∧
    ∃ ls w', holds h' w' ∧ entries_of w' (entry bl) ls ∧ length ls = 3%nat ∧
      Forall (λ x, 44 ∉ x) ls ∧ join [44] ls = [97; 44; 44; 98].
Proof.
  set (h := place _ _). cbv zeta.
  assert (holds h (<[0%nat := [97; 44; 44; 98]]> ∅)) as Hw by (by apply place_holds; [apply holds_start|]).
  destruct (bsplit_fields h _ 0 [97; 44; 44; 98] 44 zero_plenty Hw (lookup_insert_eq _ _ _) ltac:(done))
    as (bl&ls&h'&w'&Hr&Hw'&_&Hq&He&Hf&Hj).
  exists bl, h'. split; [exact Hr|].
  assert (qty bl = 3) as Hq3.
  { pose proof Hr as Hc. vm_compute in Hc. injection Hc as <- _. reflexivity. }
  split; [exact Hq3|]. exists ls, w'. split_and!; [exact Hw'|exact He|lia|exact Hf|exact Hj].
Defined.

(** "a----b" at "--": two pieces, and the string again. *)
Lemma bjoin_restores_witness :
  let s := [97; 45; 45; 45; 45; 98] in
  let h := place (place heap0 s) [45; 45] in
  ∃ bl x h1 h2, bsplitstr (Some 0%nat) (Some 1%nat) h = Done (Some bl, h1) ∧ qty bl = 2 ∧
    bjoin (Some bl) (Some 1%nat) h1 = Done (Some x, h2) ∧ ∃ w2, holds h2 w2 ∧ w2 !! x = Some s.
Proof.
  intros s h.
  assert (holds h (<[1%nat := [45; 45]]> (<[0%nat := s]> ∅))) as Hw.
  { apply place_holds; [|done]. by apply (place_holds heap0); [apply holds_start|]. }
  destruct (bjoin_restores h _ 0 1 s [45; 45] zero_plenty Hw) as (bl&x&h1&h2&w2&H1&H2&Hw2&_&Hx);
    [by rewrite lookup_insert_ne, lookup_insert_eq|by rewrite lookup_insert_eq|done|].
  exists bl, x, h1, h2. split; [exact H1|].
  assert (qty bl = 2) as Hq.
  { pose proof H1 as Hc. vm_compute in Hc. injection Hc as <- _. reflexivity. }
  split; [exact Hq|]. split; [exact H2|]. exists w2. split; [exact Hw2|exact Hx].
Defined.
