(* ===== verification/BstrIO.v ===== *)
(** Reading into byte strings (bstrlib.c, on the memory of Bstr): the loops that read
    from a callback to its end or to a terminator, and the streams [struct bStream],
    which keep in a string what was read too far.

    What lies behind [parm] is a state that the callbacks take and return; a
    [struct bStream] is a value that the operations take and return, its buffer is a
    string in memory. The loops run until the callback has no more: they take their
    fuel as an argument. *)
From S2P Require Import Prelude Bstr BstrFind BstrList.
#[local] Open Scope Z_scope.

(** ** Callbacks *)

(** [bNread]: asked for so many bytes, the bytes it writes and the number it
    returns; [bNgetc]: a character, or a negative number. *)
Definition bNread (P : Type) : Type := P → Z → (list Z * Z) * P.
Definition bNgetc (P : Type) : Type := P → Z * P.

Definition BS_BUFF_SZ : Z := 1024.
Definition BSSSC_BUFF_LEN : Z := 256.

(** [(int) readPtr (p + i, 1, n, parm)] *)
Definition call_read {P} (readPtr : bNread P) (p : ptr) (i n : Z) (parm : P) : M (Z * P) :=
  let '((l, r), parm) := readPtr parm n in write p i l;; mret (s32 r, parm).

(** [for (i=0; !stop (b[i]); i++) ;]: the loop ends at a byte of the block, or
    leaves it. *)
Fixpoint scan_to (stop : Z → bool) (l : list Z) (i : Z) : outcome Z :=
  match l with
  | [] => Oops
  | c :: l => if stop c then Done i else scan_to stop l (i + 1)
  end.
Definition seek (stop : Z → bool) (p : ptr) (i : Z) : M Z :=
  b ← block (blk p);
  if decide (in_range (off p + i) 0 b)
  then lift (scan_to stop (drop (Z.to_nat (off p + i)) b) 0) else fault.

(** A header on the stack; [mlen] is not set, or -1. *)
Definition with_view {A} (t : tagbstring) (f : bstring → M A) : M A :=
  x ← (λ h, Done (fresh h, Heap (blocks h) (<[fresh h := t]> (strs h)) (S (fresh h))));
  r ← f (Some x); free_hdr x;; mret r.

(** The guard of the loops that append. *)
Definition unappendable (t : tagbstring) : bool :=
  (mlen t <=? 0) || (slen t <? 0) || (mlen t <? slen t).

Section Alloc.
Context `{Allocator} {P : Type}.

(** ** Reading to the end *)

Fixpoint breada_loop (fuel : nat) (b : nat) (readPtr : bNread P) (i n : Z) (parm : P) : M (Z * P) :=
  match fuel with
  | O => λ _, Bug
  | S fuel =>
      r ← balloc (Some b) (s32 (n + 1));
      if negb (r =? BSTR_OK) then mret (BSTR_ERR, parm)
      else
        p ← get_data b;
        '(l, parm) ← call_read readPtr p i (n - i) parm;
        let i := s32 (i + l) in
        set_slen b i;;
        if i <? n then p ← get_data b; store p i 0;; mret (BSTR_OK, parm)
        else breada_loop fuel b readPtr i (s32 (n + (if n <? BS_BUFF_SZ then n else BS_BUFF_SZ))) parm
  end.

Definition breada (fuel : nat) (b : bstring) (readPtr : option (bNread P)) (parm : P) : M (Z * P) :=
  match b with
  | None => mret (BSTR_ERR, parm)
  | Some a =>
      t ← hdr a;
      if unappendable t then mret (BSTR_ERR, parm)
      else
        match readPtr with
        | None => mret (BSTR_ERR, parm)
        | Some readPtr => breada_loop fuel a readPtr (slen t) (s32 (slen t + 16)) parm
        end
  end.

Definition bread (fuel : nat) (readPtr : option (bNread P)) (parm : P) : M (bstring * P) :=
  buff ← bfromcstr (Some []);
  '(r, parm) ← breada fuel buff readPtr parm;
  if r <? 0 then bdestroy buff;; mret (None, parm) else mret (buff, parm).

(** ** Reading to a terminator *)

(** The loop of [bgetsa] and [bassigngets], and what follows it: [d] bytes are
    there, [e] is the last place that leaves room for a NUL. *)
Fixpoint gets_loop (fuel : nat) (b : nat) (getcPtr : bNgetc P) (terminator d e : Z) (parm : P) : M (Z * P) :=
  let finish c d parm :=
    p ← get_data b; store p d 0;; set_slen b d;;
    mret (if (d =? 0) && (c <? 0) then 1 else 0, parm) in
  match fuel with
  | O => λ _, Bug
  | S fuel =>
      let '(c, parm) := getcPtr parm in
      if 0 <=? c then
        room ← (if e <? d then
                  set_slen b d;;
                  r ← balloc (Some b) (s32 (d + 2));
                  if r =? BSTR_OK then t ← hdr b; mret (Some (s32 (mlen t - 2))) else mret None
                else mret (Some e));
        match room with
        | None => mret (BSTR_ERR, parm)
        | Some e =>
            p ← get_data b; store p d (u8 c);;
            let d := d + 1 in
            if c =? terminator then finish c d parm
            else gets_loop fuel b getcPtr terminator d e parm
        end
      else finish c d parm
  end.

Definition gets_from (start : tagbstring → Z) (fuel : nat) (b : bstring) (getcPtr : option (bNgetc P))
    (parm : P) (terminator : Z) : M (Z * P) :=
  match b with
  | None => mret (BSTR_ERR, parm)
  | Some a =>
      t ← hdr a;
      if unappendable t then mret (BSTR_ERR, parm)
      else
        match getcPtr with
        | None => mret (BSTR_ERR, parm)
        | Some getcPtr =>
            gets_loop fuel a getcPtr (s8 terminator) (start t) (s32 (mlen t - 2)) parm
        end
  end.
Definition bassigngets := gets_from (λ _, 0).
Definition bgetsa := gets_from slen.

(** [buff->slen] is read although [bgetsa] may have been given NULL: only when it
    did not return an error. *)
Definition bgets (fuel : nat) (getcPtr : option (bNgetc P)) (parm : P) (terminator : Z) : M (bstring * P) :=
  buff ← bfromcstr (Some []);
  '(r, parm) ← bgetsa fuel buff getcPtr parm terminator;
  empty ← (if r <? 0 then mret true else b ← lift (deref buff); t ← hdr b; mret (slen t <=? 0));
  if empty : bool then bdestroy buff;; mret (None, parm) else mret (buff, parm).

(** ** Streams *)

Record bStream := BStream {
  buff : bstring;
  parm : P;
  readFnPtr : option (bNread P);
  isEOF : bool;
  maxBuffSz : Z }.

Definition bsopen (readPtr : option (bNread P)) (parm : P) : M (option bStream) :=
  match readPtr with
  | None => mret None
  | Some _ =>
      ok ← try_alloc 40;
      if ok : bool then buff ← bfromcstr (Some []); mret (Some (BStream buff parm readPtr false BS_BUFF_SZ))
      else mret None
  end.

Definition set_eof (s : bStream) (e : bool) : bStream :=
  BStream (buff s) (parm s) (readFnPtr s) e (maxBuffSz s).
Definition set_parm (s : bStream) (x : P) : bStream :=
  BStream (buff s) x (readFnPtr s) (isEOF s) (maxBuffSz s).

Definition bsbufflength (s : option bStream) (sz : Z) : Z * option bStream :=
  match s with
  | None => (BSTR_ERR, s)
  | Some x =>
      if sz <? 0 then (BSTR_ERR, s)
      else (maxBuffSz x,
            if 0 <? sz then Some (BStream (buff x) (parm x) (readFnPtr x) (isEOF x) sz) else s)
  end.

Definition bseof (s : option bStream) : M Z :=
  match s with
  | None => mret BSTR_ERR
  | Some s =>
      match readFnPtr s with
      | None => mret BSTR_ERR
      | Some _ =>
          if isEOF s then b ← lift (deref (buff s)); t ← hdr b; mret (if slen t =? 0 then 1 else 0)
          else mret 0
      end
  end.

(** The stream is given back with its buffer. *)
Definition bsclose (s : option bStream) : M (option P) :=
  match s with
  | None => mret None
  | Some s =>
      (match buff s with Some _ => bdestroy (buff s);; mret tt | None => mret tt end);;
      mret (Some (parm s))
  end.

(** [s->readFnPtr (p + i, 1, n, s->parm)] *)
Definition core_read (s : bStream) (p : ptr) (i n : Z) : M (Z * bStream) :=
  f ← lift (deref (readFnPtr s));
  '(l, x) ← call_read f p i n (parm s);
  mret (l, set_parm s x).

(** [BSTR_ERR & -(r->slen == rlo)] *)
Definition grew (r : nat) (rlo : Z) : M Z :=
  t ← hdr r; mret (if slen t =? rlo then BSTR_ERR else BSTR_OK).

(** ** Lines *)

(** The body of [bsreadlna] and [bsreadlnsa]: [stop] tells the terminators and
    [first] is the one used as sentinel. The loop that reads in place ... *)
Fixpoint line_loop (fuel : nat) (r sb : nat) (first : Z) (stop : Z → bool) (rlo : Z) (s : bStream)
    : M (Z * bStream) :=
  match fuel with
  | O => λ _, Bug
  | S fuel =>
      t ← hdr r;
      x ← balloc (Some r) (s32 (slen t + maxBuffSz s + 1));
      if negb (x =? BSTR_OK) then mret (BSTR_ERR, s)
      else
        t ← hdr r; p ← get_data r;
        '(l, s) ← core_read s p (slen t) (maxBuffSz s);
        if l <=? 0 then
          store p (slen t) 0;; set_slen sb 0;;
          ret ← grew r rlo; mret (ret, set_eof s true)
        else
          store p (slen t + l) first;;
          i ← seek stop p (slen t);
          if i <? l then
            let i := i + 1 in
            set_slen r (slen t + i);; set_slen sb (l - i);;
            q ← get_data sb; memcpy q 0 p (slen t + i) (l - i);;
            t ← hdr r; p ← get_data r; store p (slen t) 0;; mret (BSTR_OK, s)
          else set_slen r (slen t + l);; line_loop fuel r sb first stop rlo s
  end.

(** ... and what precedes it. *)
Definition read_line (fuel : nat) (r sb : nat) (first : Z) (stop : Z → bool) (s : bStream) : M (Z * bStream) :=
  t ← hdr sb;
  let l := slen t in
  x ← balloc (Some sb) (s32 (maxBuffSz s + 1));
  if negb (x =? BSTR_OK) then mret (BSTR_ERR, s)
  else
    b ← get_data sb;
    store b l first;;
    i ← seek stop b 0;
    if i <? l then
      ret ← with_view (Tag (-1) (i + 1) (Some b)) (bconcat (Some r));
      set_slen sb l;;
      (if ret =? BSTR_OK then bdelete (Some sb) 0 (i + 1);; mret tt else mret tt);;
      mret (BSTR_OK, s)
    else
      tr ← hdr r;
      ret ← with_view (Tag (-1) l (Some b)) (bconcat (Some r));
      if negb (ret =? BSTR_OK) then mret (BSTR_ERR, s)
      else line_loop fuel r sb first stop (slen tr) s.

(** [s == NULL || s->buff == NULL], for the operations that read. *)
Definition on_stream (s : option bStream) (k : bStream → nat → M (Z * option bStream)) : M (Z * option bStream) :=
  match s with
  | Some x => match buff x with Some sb => k x sb | None => mret (BSTR_ERR, s) end
  | None => mret (BSTR_ERR, s)
  end.
Definition with_stream (m : M (Z * bStream)) : M (Z * option bStream) := '(r, s) ← m; mret (r, Some s).

(** The characters are compared as [char]: two bytes are equal when they are the
    same. *)
Definition bsreadlna (fuel : nat) (r : bstring) (s : option bStream) (terminator : Z) : M (Z * option bStream) :=
  on_stream s (λ x sb,
    match r with
    | None => mret (BSTR_ERR, s)
    | Some a =>
        t ← hdr a;
        if unappendable t then mret (BSTR_ERR, s)
        else with_stream (read_line fuel a sb (u8 terminator) (λ c, c =? u8 terminator) x)
    end).

Definition bsreadlnsa (fuel : nat) (r : bstring) (s : option bStream) (term : bstring) : M (Z * option bStream) :=
  on_stream s (λ x sb,
    match r, term with
    | Some a, Some c =>
        tc ← hdr c; t ← hdr a;
        if no_data tc || unappendable t then mret (BSTR_ERR, s)
        else if slen tc =? 1 then c0 ← first_byte c; bsreadlna fuel r s c0
        else if slen tc <? 1 then mret (BSTR_ERR, s)
        else
          cf ← buildCharField term;
          match cf with
          | None => mret (BSTR_ERR, s)
          | Some cf => c0 ← first_byte c; with_stream (read_line fuel a sb c0 (testInCharField cf) x)
          end
    | _, _ => mret (BSTR_ERR, s)
    end).

(** [r->slen = 0] once the buffer has its room, for [bsreadln], [bsreadlns] and
    [bsread]. *)
Definition restart (r : nat) (s : option bStream) (k : M (Z * option bStream)) : M (Z * option bStream) :=
  on_stream s (λ x sb,
    ret ← balloc (Some sb) (s32 (maxBuffSz x + 1));
    if negb (ret =? BSTR_OK) then mret (BSTR_ERR, s) else set_slen r 0;; k).

Definition bsreadln (fuel : nat) (r : bstring) (s : option bStream) (terminator : Z) : M (Z * option bStream) :=
  on_stream s (λ x sb,
    match r with
    | None => mret (BSTR_ERR, s)
    | Some a =>
        t ← hdr a;
        if mlen t <=? 0 then mret (BSTR_ERR, s) else restart a s (bsreadlna fuel r s terminator)
    end).

Definition bsreadlns (fuel : nat) (r : bstring) (s : option bStream) (term : bstring) : M (Z * option bStream) :=
  on_stream s (λ x sb,
    match r, term with
    | Some a, Some c =>
        tc ← hdr c; t ← hdr a;
        if no_data tc || (mlen t <=? 0) then mret (BSTR_ERR, s)
        else if slen tc =? 1 then c0 ← first_byte c; bsreadln fuel r s c0
        else if slen tc <? 1 then mret (BSTR_ERR, s)
        else restart a s (bsreadlnsa fuel r s term)
    | _, _ => mret (BSTR_ERR, s)
    end).

(** ** A number of bytes *)

(** The [do] loop of [bsreada], and what follows it; [n] bytes are wanted in all
    and [l] are in the buffer [b] of the stream. *)
Fixpoint reada_loop (fuel : nat) (r sb : nat) (b : ptr) (n l orslen : Z) (s : bStream) : M (Z * bStream) :=
  let finish l s :=
    let l := if l <? 0 then 0 else l in
    set_slen sb l;; ret ← grew r orslen;
    mret (ret, if l =? 0 then set_eof s true else s) in
  match fuel with
  | O => λ _, Bug
  | S fuel =>
      t ← hdr r;
      if n <=? l + slen t then
        let m := n - slen t in
        ret ← with_view (Tag (-1) m (Some b)) (bconcat (Some r));
        set_slen sb l;;
        (if ret =? BSTR_OK then bdelete (Some sb) 0 m;; mret tt else mret tt);;
        ret ← grew r orslen; mret (ret, s)
      else
        ret ← with_view (Tag (-1) l (Some b)) (bconcat (Some r));
        if negb (ret =? BSTR_OK) then finish l s
        else
          t ← hdr r;
          let m := n - slen t in
          let m := if maxBuffSz s <? m then maxBuffSz s else m in
          '(l, s) ← core_read s b 0 m;
          if 0 <? l then reada_loop fuel r sb b n l orslen s else finish l s
  end.

Definition bsreada (fuel : nat) (r : bstring) (s : option bStream) (n : Z) : M (Z * option bStream) :=
  on_stream s (λ x sb,
    match r with
    | None => mret (BSTR_ERR, s)
    | Some a =>
        t ← hdr a;
        if unappendable t || (n <=? 0) then mret (BSTR_ERR, s)
        else
          let n := s32 (n + slen t) in
          if n <=? 0 then mret (BSTR_ERR, s)
          else
            tb ← hdr sb;
            let rest :=
              ret ← balloc (Some sb) (s32 (maxBuffSz x + 1));
              if negb (ret =? BSTR_OK) then mret (BSTR_ERR, s)
              else b ← get_data sb; with_stream (reada_loop fuel a sb b n (slen tb) (slen t) x) in
            if slen tb =? 0 then
              if isEOF x then mret (BSTR_ERR, s)
              else if n <? mlen t then
                p ← get_data a;
                '(l, x) ← core_read x p (slen t) (n - slen t);
                if (l <=? 0) || (n - slen t <? l) then mret (BSTR_ERR, Some (set_eof x true))
                else
                  set_slen a (slen t + l);;
                  t ← hdr a; p ← get_data a; store p (slen t) 0;; mret (0, Some x)
              else rest
            else rest
    end).

Definition bsread (fuel : nat) (r : bstring) (s : option bStream) (n : Z) : M (Z * option bStream) :=
  on_stream s (λ x sb,
    match r with
    | None => mret (BSTR_ERR, s)
    | Some a =>
        t ← hdr a;
        if (mlen t <=? 0) || (n <=? 0) then mret (BSTR_ERR, s)
        else restart a s (bsreada fuel r s n)
    end).

(** ** What is in the buffer *)

Definition bsunread (s : option bStream) (b : bstring) : M Z :=
  match s with
  | Some x => match buff x with None => mret BSTR_ERR | Some _ => binsert (buff x) 0 b 63 end
  | None => mret BSTR_ERR
  end.

Definition bspeek (r : bstring) (s : option bStream) : M Z :=
  match s with
  | Some x => match buff x with None => mret BSTR_ERR | Some _ => bassign r (buff x) end
  | None => mret BSTR_ERR
  end.

(** ** Splitting a stream *)

Section Split.
(** The callback is given the place of an entry, the entry, and the stream it may
    act on. *)
Context {Q : Type} (cb : Q → Z → bstring → option bStream → M (Z * Q * option bStream)).

(** [s == NULL || s->readFnPtr == NULL || splitStr == NULL || splitStr->slen < 0] *)
Definition splittable (s : option bStream) (splitStr : bstring) : M bool :=
  match s, splitStr with
  | Some x, Some b =>
      match readFnPtr x with
      | None => mret false
      | Some _ => t ← hdr b; mret (0 <=? slen t)
      end
  | _, _ => mret false
  end.

(** [while (bsreada (buff, s, BSSSC_BUFF_LEN) >= 0) ;] *)
Fixpoint read_all (fuel : nat) (b : nat) (s : option bStream) : M (option bStream) :=
  match fuel with
  | O => λ _, Bug
  | S n => '(r, s) ← bsreada fuel (Some b) s BSSSC_BUFF_LEN; if 0 <=? r then read_all n b s else mret s
  end.

(** The loop over the characters: an entry starts at [p] of the stream, and [i]
    bytes of it were seen. *)
Fixpoint chars_loop (fuel : nat) (chrs : list Z) (b : nat) (i p : Z) (q : Q) (s : option bStream)
    : M (Z * Q * option bStream) :=
  match fuel with
  | O => λ _, Bug
  | S n =>
      t ← hdr b;
      '(last, s) ← (if slen t <=? i then
                      '(_, s) ← bsreada fuel (Some b) s BSSSC_BUFF_LEN;
                      t ← hdr b; mret (slen t <=? i, s)
                    else mret (false, s));
      if last : bool then
        '(ret, q, s) ← cb q p (Some b) s; mret (if 0 <? ret then 0 else ret, q, s)
      else
        d ← get_data b; c ← read d i 1; c ← lift (at_ c 0);
        if testInCharField chrs c then
          t ← hdr b;
          ret ← with_view (Tag (-1) (slen t - (i + 1)) (Some (Ptr (blk d) (off d + i + 1)))) (bsunread s);
          if ret <? 0 then mret (ret, q, s)
          else
            set_slen b i;; store d i 0;;
            '(ret, q, s) ← cb q p (Some b) s;
            if ret <? 0 then mret (ret, q, s)
            else d ← get_data b; store d i c;; set_slen b 0;; chars_loop n chrs b 0 (p + (i + 1)) q s
        else chars_loop n chrs b (i + 1) p q s
  end.

Definition bssplitscb (fuel : nat) (s : option bStream) (splitStr : bstring) (q : Q) : M (Z * Q * option bStream) :=
  ok ← splittable s splitStr;
  if negb ok then mret (BSTR_ERR, q, s)
  else
    buff ← bfromcstr (Some []);
    match buff with
    | None => mret (BSTR_ERR, q, s)
    | Some b =>
        t ← lift (deref splitStr) ≫= hdr;
        '(ret, q, s) ←
          (if slen t =? 0 then
             s ← read_all fuel b s;
             '(ret, q, s) ← cb q 0 (Some b) s; mret (if 0 <? ret then 0 else ret, q, s)
           else
             cf ← buildCharField splitStr; cf ← lift (deref cf); chars_loop fuel cf b 0 0 q s);
        bdestroy (Some b);; mret (ret, q, s)
    end.

(** The loop of an empty separator; it does not give the string back at the end. *)
Fixpoint bytes_loop (fuel : nat) (b : nat) (q : Q) (s : option bStream) : M (Z * Q * option bStream) :=
  match fuel with
  | O => λ _, Bug
  | S n =>
      '(r, s) ← bsreada fuel (Some b) s BSSSC_BUFF_LEN;
      if 0 <=? r then
        '(ret, q, s) ← cb q 0 (Some b) s;
        if ret <? 0 then bdestroy (Some b);; mret (ret, q, s)
        else set_slen b 0;; bytes_loop n b q s
      else mret (BSTR_OK, q, s)
  end.

Fixpoint parts_loop (fuel : nat) (splitStr : bstring) (b : nat) (p : Z) (q : Q) (s : option bStream)
    : M (Z * Q * option bStream) :=
  match fuel with
  | O => λ _, Bug
  | S n =>
      ret ← binstr (Some b) 0 splitStr;
      if 0 <=? ret then
        d ← get_data b; t ← lift (deref splitStr) ≫= hdr;
        let i := ret + slen t in
        '(ret, q, s) ← with_view (Tag (-1) ret (Some d)) (λ v, cb q p v s);
        if ret <? 0 then mret (ret, q, s)
        else bdelete (Some b) 0 i;; parts_loop n splitStr b (p + i) q s
      else
        '(_, s) ← bsreada fuel (Some b) s BSSSC_BUFF_LEN;
        e ← bseof s;
        if negb (e =? 0) then
          '(ret, q, s) ← cb q p (Some b) s; mret (if 0 <? ret then 0 else ret, q, s)
        else parts_loop n splitStr b p q s
  end.

Definition bssplitstrcb (fuel : nat) (s : option bStream) (splitStr : bstring) (q : Q) : M (Z * Q * option bStream) :=
  ok ← splittable s splitStr;
  if negb ok then mret (BSTR_ERR, q, s)
  else
    t ← lift (deref splitStr) ≫= hdr;
    if slen t =? 1 then bssplitscb fuel s splitStr q
    else
      buff ← bfromcstr (Some []);
      match buff with
      | None => mret (BSTR_ERR, q, s)
      | Some b =>
          if slen t =? 0 then bytes_loop fuel b q s
          else '(ret, q, s) ← parts_loop fuel splitStr b 0 q s; bdestroy (Some b);; mret (ret, q, s)
      end.
End Split.
End Alloc.
Arguments bStream : clear implicits.

(** ** Runs *)

(** A source that holds a list, and gives [n] bytes of it at most; the characters of
    a list. *)
Definition by_chunks (n : nat) : bNread (list Z) := λ l k,
  let k := Nat.min n (Z.to_nat k) in ((take k l, Z.of_nat (length (take k l))), drop k l).
Definition one_by_one : bNgetc (list Z) := λ l,
  match l with [] => (-1, []) | c :: l => (c, l) end.

(** The lines of the stream [s], until one cannot be read. *)
Fixpoint all_lines (fuel : nat) (r : nat) (s : option (bStream (list Z))) (terminator : Z) : M (list (list Z)) :=
  match fuel with
  | O => λ _, Bug
  | S n =>
      '(ret, s) ← bsreadln fuel (Some r) s terminator;
      if ret =? BSTR_OK then x ← contents r; l ← all_lines n r s terminator; mret (x :: l)
      else mret []
  end.

(** "a
bc

d" in reads of two bytes. *)
Example lines_run :
  (r ← bfromcstr (Some []); s ← bsopen (Some (by_chunks 2)) [97; 10; 98; 99; 10; 10; 100];
   r ← lift (deref r); all_lines 20 r s 10) heap0 ≫= (λ x, Done x.1)
  = Done [[97; 10]; [98; 99; 10]; [10]; [100]].
Proof. vm_compute. reflexivity. Qed.

(** The entries that a splitting function passes to its callback. *)
Definition collect : list (list Z) → Z → bstring → option (bStream (list Z)) →
    M (Z * list (list Z) * option (bStream (list Z))) := λ q _ e s,
  e ← lift (deref e); x ← contents e; mret (0, q ++ [x], s).

(** "a--b" at "-" ... *)
Example bssplitscb_run :
  (s ← bsopen (Some (by_chunks 3)) [97; 45; 45; 98]; c ← bfromcstr (Some [45]);
   '(ret, q, s) ← bssplitscb collect 20 s c []; mret q) heap0 ≫= (λ x, Done x.1)
  = Done [[97]; []; [98]].
Proof. vm_compute. reflexivity. Qed.

(** ... and at "--": the stream ends with the read that delivers the separator,
    which is not looked for any more. *)
Example bssplitstrcb_misses :
  (s ← bsopen (Some (by_chunks 3)) [97; 45; 45; 98]; c ← bfromcstr (Some [45; 45]);
   '(ret, q, s) ← bssplitstrcb collect 20 s c []; mret q) heap0 ≫= (λ x, Done x.1)
  = Done [[97; 45; 45; 98]].
Proof. vm_compute. reflexivity. Qed.
