(* ===== verification/BstrCell.v ===== *)
(** Rules for one string, and for two at once, while an operation works on them: the
    bytes at the start of a block, not yet followed by a NUL, with an allocator that
    has memory. *)
From S2P Require Import Prelude Bstr BstrMem BstrSpec BstrOps BstrFind BstrFindSpec BstrList BstrListSpec BstrIO.
#[local] Open Scope Z_scope.

(** The block [k] starts with the bytes [x] and has room for [m]; the header says
    that [n] of them are the string. *)
Record cell (n : nat) (x : list Z) (m : Z) (t : tagbstring) (k : nat) (b : list Z) : Prop := {
  cell_data : data t = Some (Ptr k 0);
  cell_mlen : mlen t = Z.of_nat (length b);
  cell_slen : slen t = Z.of_nat n;
  cell_bytes : take (length x) b = x;
  cell_max : mlen t ≤ INT_MAX;
  cell_room : m ≤ Z.of_nat (length b);
  cell_in : (n < length b)%nat }.
(** ... and [p] points to it. *)
Definition cell_at (p : ptr) (n : nat) (x : list Z) (m : Z) (t : tagbstring) (k : nat) (b : list Z) : Prop :=
  p = Ptr k 0 ∧ cell n x m t k b.
(** A string without its NUL. *)
Abbreviation partial s m := (cell (length s) s m) (only parsing).

Lemma cell_fits n x m t k b : cell n x m t k b → (length x ≤ length b)%nat.
Proof. intros H. rewrite <- (cell_bytes _ _ _ _ _ _ H), length_take. lia. Qed.
Lemma buffer_cell t k b s m : buffer t k b s → m ≤ Z.of_nat (length s) + 1 → cell (length s) s m t k b.
Proof. intros Hb ?. pose proof (buffer_fits _ _ _ _ Hb). destruct Hb. split; try done. lia. Qed.
Lemma cell_filled s m t k b : cell (length s) s m t k b → filled t k b s.
Proof. intros []. split; try done. lia. Qed.
Lemma cell_less n x m m' t k b : cell n x m t k b → m' ≤ m → cell n x m' t k b.
Proof. intros [] ?. split; try done. lia. Qed.
Lemma cell_guard n x m t k b :
  cell n x m t k b → unwritable t = false ∧ unappendable t = false ∧ no_data t = false ∧ 0 < mlen t.
Proof.
  intros [Hd Hm Hs _ _ _ ?]. unfold unwritable, unappendable, no_data.
  rewrite Hd, Hm, Hs, bool_decide_eq_false_2 by done.
  rewrite !(proj2 (Z.ltb_ge _ _)), !(proj2 (Z.leb_gt _ _)) by lia. split_and!; [done..|lia].
Qed.
(** Bytes past [i] are written, then the length is set. *)
Lemma cell_write n x m t k b i l :
  cell n x m t k b → (i ≤ length x)%nat → (i + length l ≤ length b)%nat →
  cell n (take i x ++ l) m t k (write_at i l b).
Proof.
  intros [? ? ? Hx ? ? ?] Hi Hl. pose proof (f_equal length Hx) as Hlx. rewrite length_take in Hlx.
  split; rewrite ?length_write_at by lia; try done. rewrite length_app, length_take, Nat.min_l by lia.
  rewrite write_at_in by lia. rewrite app_assoc, take_app_length'; [|rewrite !length_app, length_take; lia].
  f_equal. rewrite <- Hx, take_take. f_equal. lia.
Qed.
Lemma cell_slen_set n n' x m t k b :
  cell n x m t k b → (n' < length b)%nat → cell n' x m (Tag (mlen t) (Z.of_nat n') (data t)) k b.
Proof. intros [] ?. by split. Qed.
Lemma cell_take n x m t k b i : cell n x m t k b → cell n (take i x) m t k b.
Proof.
  intros [? ? ? Hx ? ? ?]. split; try done. rewrite <- Hx at 2. rewrite take_take, length_take. f_equal.
Qed.
Lemma cell_buffer s m t k b : cell (length s) (s ++ [0]) m t k b → buffer t k b s.
Proof.
  intros [? ? ? Hx ? ? ?]. rewrite length_app in Hx. cbn in Hx. split; try done.
  - apply (f_equal (take (length s))) in Hx. rewrite take_take, take_app_length in Hx. rewrite <- Hx at 2.
    f_equal. lia.
  - rewrite <- (lookup_take_lt _ (length s + 1)), Hx, lookup_app_r, Nat.sub_diag by lia. done.
Qed.

(** ** One string *)

Definition bump (g : heap) (f : nat) : heap := Heap (blocks g) (strs g) f.

(** The string [c] in the block [k] is not described by [g], the rest is. *)
Record frame (g : heap) (c k : nat) : Prop := {
  frame_heap : heap_ok g;
  frame_str : (c < fresh g)%nat;
  frame_lt : (k < fresh g)%nat;
  frame_block : blocks g !! k = None }.

(** From the string [P], [m] makes the string [Q]; it changes nothing else. *)
Definition local {A} (c : nat) (m : M A) (P : tagbstring → nat → list Z → Prop)
    (Q : A → tagbstring → nat → list Z → Prop) : Prop :=
  ∀ g t k b, P t k b → frame g c k →
    mwp m (upd g c t k b) (λ r h', ∃ f t' k' b', Q r t' k' b' ∧ (fresh g ≤ f)%nat ∧
      (k' = k ∨ (fresh g ≤ k' < f)%nat) ∧ h' = upd (bump g f) c t' k' b').

Lemma frame_bump g c k k' f :
  frame g c k → (fresh g ≤ f)%nat → (k' = k ∨ (fresh g ≤ k' < f)%nat) → frame (bump g f) c k'.
Proof.
  intros [Hh Hc Hk Hn] Hf Hk'. split; cbn; [by apply heap_ok_bump|lia|lia|].
  destruct Hk' as [->|?]; [done|]. apply eq_None_not_Some. intros ?%Hh. lia.
Qed.

Lemma stays {A} g c t k b (Q : A → tagbstring → nat → list Z → Prop) r :
  Q r t k b → ∃ f t' k' b', Q r t' k' b' ∧ (fresh g ≤ f)%nat ∧
    (k' = k ∨ (fresh g ≤ k' < f)%nat) ∧ upd g c t k b = upd (bump g f) c t' k' b'.
Proof. exists (fresh g), t, k, b. split; [done|]. split; [done|]. split; [by left|by destruct g]. Qed.

Lemma upd_heap_ok g c t k b : frame g c k → heap_ok (upd g c t k b).
Proof.
  intros [Hh Hc Hk _]. split; intros x; cbn; rewrite lookup_insert_is_Some; intros [<-|[_ ?%Hh]]; lia.
Qed.

Section Local.
Context (c : nat).
Implicit Types (P : tagbstring → nat → list Z → Prop).

Lemma local_ret {A} (a : A) P : local c (mret a) P (λ r t k b, r = a ∧ P t k b).
Proof.
  intros g t k b HP Hg. by apply mwp_ret, (stays _ _ _ _ _ (λ r t k b, r = a ∧ P t k b)).
Qed.
Lemma local_return {A} (a : A) P (Q : A → tagbstring → nat → list Z → Prop) :
  (∀ t k b, P t k b → Q a t k b) → local c (mret a) P Q.
Proof. intros HPQ g t k b HP Hg. by apply mwp_ret, stays, HPQ. Qed.
Lemma local_bind {A B} (m : M A) (f : A → M B) P (Q : A → tagbstring → nat → list Z → Prop) R :
  local c m P Q → (∀ a, local c (f a) (Q a) R) → local c (m ≫= f) P R.
Proof.
  intros Hm Hf g t k b HP Hg. apply mwp_bind. eapply mwp_mono; [by apply Hm|].
  intros a h' (f1&t1&k1&b1&HQ&Hf1&Hk1&->).
  eapply mwp_mono; [eapply Hf; [exact HQ|by eapply frame_bump]|]. intros r h2 (f2&t2&k2&b2&HR&Hf2&Hk2&->). cbn in *.
  exists f2, t2, k2, b2. split_and!; [done|lia|lia|done].
Qed.
Lemma local_mono {A} (m : M A) P P' (Q Q' : A → tagbstring → nat → list Z → Prop) :
  local c m P' Q' → (∀ t k b, P t k b → P' t k b) → (∀ r t k b, Q' r t k b → Q r t k b) → local c m P Q.
Proof.
  intros Hm HP HQ g t k b H Hg. eapply mwp_mono; [apply Hm; auto|].
  intros r h' (f&t'&k'&b'&?&?&?&->). exists f, t', k', b'. auto.
Qed.
Lemma local_pure {A} (m : M A) (φ : Prop) P Q :
  (φ → local c m P Q) → local c m (λ t k b, φ ∧ P t k b) Q.
Proof. intros Hm g t k b [Hφ HP]. by apply Hm. Qed.
Lemma local_exists {A B} (m : M A) (P : B → tagbstring → nat → list Z → Prop) Q :
  (∀ y, local c m (P y) Q) → local c m (λ t k b, ∃ y, P y t k b) Q.
Proof. intros Hm g t k b [y HP] Hg. by apply (Hm y). Qed.
(** An access that leaves the memory as it is. *)
Lemma local_reads {A} (m : M A) P (Q : A → Prop) :
  (∀ g t k b, P t k b → frame g c k → mwp m (upd g c t k b) (λ r h', h' = upd g c t k b ∧ Q r)) →
  local c m P (λ r t k b, Q r ∧ P t k b).
Proof.
  intros Hm g t k b HP Hg. eapply mwp_mono; [by apply Hm|]. intros r h' [-> HQ].
  by apply (stays _ _ _ _ _ (λ r t k b, Q r ∧ P t k b)).
Qed.

Lemma local_hdr n x m :
  local c (hdr c) (cell n x m) (λ t t' k b, t' = t ∧ cell n x m t k b).
Proof.
  intros g t k b Hc Hg.
  by apply mwp_hdr_eq, (stays _ _ _ _ _ (λ t t' k b, t' = t ∧ cell n x m t k b)).
Qed.
(** What is read of the header. *)
Lemma local_slen n x m (z : nat) :
  z = n → local c (hdr c) (cell n x m) (λ t t' k b, (slen t = Z.of_nat z ∧ unwritable t = false ∧
    unappendable t = false ∧ no_data t = false ∧ 0 < mlen t ∧ m ≤ mlen t ≤ INT_MAX) ∧ cell n x m t' k b).
Proof.
  intros ->. eapply local_mono; [apply local_hdr|done|]. intros t t' k b [-> Hc]. split; [|done].
  destruct (cell_guard _ _ _ _ _ _ Hc) as (?&?&?&?). destruct Hc. split_and!; try done. lia.
Qed.
(** ... with the room that there is. *)
Lemma local_room n x m :
  local c (hdr c) (cell n x m) (λ t t' k b, (slen t = Z.of_nat n ∧ unappendable t = false ∧
    Z.of_nat n < mlen t ≤ INT_MAX) ∧ cell n x (mlen t) t' k b).
Proof.
  eapply local_mono; [apply local_hdr|done|]. intros t t' k b [-> Hc].
  pose proof (cell_guard _ _ _ _ _ _ Hc) as (_&?&_). pose proof (cell_mlen _ _ _ _ _ _ Hc) as Hm.
  destruct Hc. split; [split_and!; try done; lia|]. split; try done. lia.
Qed.
Lemma local_data n x m : local c (get_data c) (cell n x m) (λ p, cell_at p n x m).
Proof.
  intros g t k b Hc Hg. eapply mwp_get_data; [by apply Hc|].
  by apply (stays _ _ _ _ _ (λ p, cell_at p n x m)).
Qed.
Lemma local_write p n x m i l :
  (i ≤ length x)%nat → Z.of_nat (i + length l) ≤ m →
  local c (write p (Z.of_nat i) l) (cell_at p n x m) (λ _, cell_at p n (take i x ++ l) m).
Proof.
  intros Hi Hl g t k b [-> Hc] Hg. pose proof (cell_room _ _ _ _ _ _ Hc).
  apply mwp_write; [unfold in_range; lia|]. rewrite Nat2Z.id.
  apply (stays _ _ _ _ _ (λ _ : (), cell_at (Ptr k 0) n (take i x ++ l) m) tt). split; [done|]. apply cell_write; [done|done|lia].
Qed.
Lemma local_set_slen p n x m (n' : nat) :
  Z.of_nat n' < m →
  local c (set_slen c (Z.of_nat n')) (cell_at p n x m) (λ _, cell_at p n' x m).
Proof.
  intros Hn g t k b [-> Hc] Hg. pose proof (cell_room _ _ _ _ _ _ Hc).
  apply mwp_set_slen, (stays _ _ _ _ _ (λ _ : (), cell_at (Ptr k 0) n' x m) tt).
  split; [done|]. apply (cell_slen_set n); [done|lia].
Qed.
Lemma local_cell_slen n x m (n' : nat) :
  Z.of_nat n' < m → local c (set_slen c (Z.of_nat n')) (cell n x m) (λ _, cell n' x m).
Proof.
  intros Hn g t k b Hc Hg. eapply mwp_mono; [by apply (local_set_slen (Ptr k 0) n x m n')|].
  intros [] h' (f&t'&k'&b'&[_ Hc']&?). by exists f, t', k', b'.
Qed.
(** The NUL. *)
Lemma local_close p s m n :
  Z.of_nat (length s) < m → n = Z.of_nat (length s) →
  local c (store p n 0) (cell_at p (length s) s m) (λ _ t k b, p = Ptr k 0 ∧ buffer t k b s).
Proof.
  intros Hm ->. eapply local_mono; [apply (local_write p (length s) s m (length s) [0]); cbn; lia|done|].
  intros r t k b [-> Hc]. split; [done|]. rewrite firstn_all in Hc. by eapply cell_buffer.
Qed.

Lemma scan_to_spec (stop : Z → bool) x b i j :
  take (length x) b = x → (∃ y, x !! j = Some y ∧ stop y = true) →
  (∀ k y, (k < j)%nat → x !! k = Some y → stop y = false) →
  scan_to stop b i = Done (i + Z.of_nat j).
Proof.
  revert b i j. induction x as [|c0 x IH]; intros b i j Hb (y&Hy&Hst) Hno; [done|].
  destruct b as [|c1 b]; [done|]. cbn in Hb. injection Hb as -> Hb. cbn [scan_to].
  destruct j as [|j].
  - cbn in Hy. injection Hy as ->. rewrite Hst. f_equal. lia.
  - rewrite (Hno 0%nat c0) by (lia || done). rewrite (IH b (i + 1) j); [f_equal; lia|done|eauto|].
    intros k z Hk Hz. apply (Hno (S k)); [lia|done].
Qed.
Lemma local_seek p n x m (stop : Z → bool) (i j : nat) :
  (i ≤ length x)%nat → (∃ y, x !! (i + j)%nat = Some y ∧ stop y = true) →
  (∀ k y, (i ≤ k < i + j)%nat → x !! k = Some y → stop y = false) →
  local c (seek stop p (Z.of_nat i)) (cell_at p n x m) (λ r t k b, r = Z.of_nat j ∧ cell_at p n x m t k b).
Proof.
  intros Hi Hst Hno. apply local_reads. intros g t k b [-> Hc] Hg. unfold seek. apply mwp_bind.
  unfold block, mwp at 1, lift. cbn. rewrite lookup_insert_eq. cbn.
  pose proof (cell_fits _ _ _ _ _ _ Hc). rewrite decide_True by (unfold in_range; cbn; lia).
  replace (Z.to_nat _) with i by (cbn; lia). eapply mwp_lift; [|done].
  rewrite (scan_to_spec stop (drop i x) _ 0 j); [f_equal; lia| | |].
  - rewrite length_drop, <- skipn_firstn_comm. f_equal. apply Hc.
  - destruct Hst as (y&Hy&?). exists y. by rewrite lookup_drop.
  - intros q y Hq. rewrite lookup_drop. apply Hno. lia.
Qed.

Section Alloc.
Context `{AllocatorLaws}.
Hypothesis memory : plenty.

Lemma plenty_thrifty : thrifty.
Proof. intros n. by rewrite memory. Qed.

(** Growth is never refused. *)
Lemma reallocStrategy_plenty h p len olen :
  0 ≤ len → pwp (reallocStrategy p len olen) h (λ x, x ≠ None).
Proof.
  intros Hl x h' E. unfold reallocStrategy, mbind, M_bind in E. cbn in E. unfold realloc in E.
  destruct (blocks h !! blk p); [|done]. destruct (decide (off p = 0)); [|done].
  rewrite decide_True in E by (split; [done|apply memory]). cbn in E. by injection E as <- <-.
Qed.
Lemma balloc_plenty h a t olen :
  strs h !! a = Some t → unwritable t = false → 0 < olen → pwp (balloc (Some a) olen) h (λ r, r = BSTR_OK).
Proof.
  intros Ha Hw Ho. unfold balloc. apply pwp_bind. intros t' h1 E.
  unfold hdr, lift in E. rewrite Ha in E. cbn in E. injection E as <- <-.
  rewrite Hw, (proj2 (Z.leb_gt olen 0)) by done. cbn [orb]. destruct (_ <? _); [by apply pwp_ret|].
  pose proof (snapUpSize_pos olen). destruct (_ <=? _); [by apply pwp_ret|].
  apply pwp_bind. intros p h2 _. apply pwp_bind. intros x h3 Hx.
  assert (x ≠ None) as Hne.
  { destruct (s32 _ <? s32 _); [by eapply reallocStrategy_plenty in Hx; [|lia]|].
    revert x h3 Hx. change (pwp (y ← alloc (snapUpSize olen);
      match y with None => reallocStrategy p (snapUpSize olen) olen
      | Some y => (if slen t =? 0 then mret tt else memcpy y 0 p 0 (slen t));; free p;; mret (Some (y, snapUpSize olen))
      end) h2 (λ x, x ≠ None)).
    apply pwp_bind. intros [y|] h3 _; [|apply reallocStrategy_plenty; lia].
    apply pwp_bind. intros. apply pwp_bind. intros. by apply pwp_ret. }
  destruct x as [[y m]|]; [|done]. apply pwp_bind. intros. apply pwp_bind. intros. by apply pwp_ret.
Qed.

Lemma local_balloc s m o :
  0 < o < 2 ^ 30 → local c (balloc (Some c) o) (partial s m) (λ r t k b, r = BSTR_OK ∧ partial s (o + 1) t k b).
Proof.
  intros Ho g t k b Hc Hg. pose proof (cell_guard _ _ _ _ _ _ Hc) as [Hw _].
  pose proof (cell_mlen _ _ _ _ _ _ Hc) as Hm. pose proof (cell_in _ _ _ _ _ _ Hc) as Hin.
  pose proof (snapUpSize_gt o ltac:(lia)) as Hsn.
  destruct (decide (mlen t ≤ o ∧ mlen t < snapUpSize o)) as [[Hle Hlt]|Hno].
  - eapply mwp_mono; [apply mwp_pwp; [apply (balloc_grow _ c t k b s)|
      apply (balloc_plenty _ _ t); [cbn; by rewrite lookup_insert_eq|done|lia]]|]; cbn.
    + by rewrite lookup_insert_eq.
    + by rewrite lookup_insert_eq.
    + by eapply cell_filled.
    + by apply upd_heap_ok.
    + unfold INT_MAX. lia.
    + lia.
    + done.
    + done.
    + intros r h' [[(->&_&t'&k'&b'&f&->&Hb'&[_ Hr]&Hk'&Hf)|[-> _]] Hr']; [|done]. cbn in *.
      specialize (Hr plenty_thrifty ltac:(lia)). pose proof (buffer_fits _ _ _ _ Hb').
      rewrite (buf_mlen _ _ _ _ Hb') in Hr.
      exists f, t', k', b'. split_and!; [done| |done|done|].
      * destruct Hb'. split; try done. lia.
      * unfold upd. cbn. by rewrite delete_insert_id, insert_insert_eq by apply Hg.
  - unfold balloc. apply mwp_bind, mwp_hdr_eq. rewrite Hw, (proj2 (Z.leb_gt o 0)) by lia. cbn [orb].
    assert (Hk : mlen t < o + 1 → False) by lia.
    assert (partial s (o + 1) t k b) as Hc'.
    { destruct Hc. split; try done. lia. }
    destruct (Z.ltb_spec o (mlen t));
      [by apply mwp_ret, (stays _ _ _ _ _ (λ r t k b, r = BSTR_OK ∧ partial s (o + 1) t k b))|].
    destruct (Z.leb_spec (snapUpSize o) (mlen t)); [|lia].
    by apply mwp_ret, (stays _ _ _ _ _ (λ r t k b, r = BSTR_OK ∧ partial s (o + 1) t k b)).
Qed.
End Alloc.
End Local.
