(* ===== verification/BstrPair.v ===== *)
(** Two strings at once (rules over BstrCell): one that an operation writes and one
    it takes bytes from, through a header on the stack. *)
From S2P Require Import Prelude Bstr BstrMem BstrSpec BstrOps BstrFind BstrFindSpec BstrList BstrListSpec BstrIO BstrCell.
#[local] Open Scope Z_scope.

Lemma upd_comm g a t k b c t' k' b' :
  a ≠ c → k ≠ k' → upd (upd g a t k b) c t' k' b' = upd (upd g c t' k' b') a t k b.
Proof. intros. unfold upd. cbn. f_equal; apply insert_insert_ne; auto. Qed.

(** The strings [a] and [c] are [A] and [B], in blocks of their own; [g] is the rest
    of the memory. *)
Definition pair_at (g : heap) (a c : nat) (A B : tagbstring → nat → list Z → Prop) (h : heap) : Prop :=
  ∃ f ta ka ba tc kc bc, h = upd (upd (bump g f) a ta ka ba) c tc kc bc ∧ A ta ka ba ∧ B tc kc bc ∧
    (fresh g ≤ f)%nat ∧ ka ≠ kc ∧ (ka < f)%nat ∧ (kc < f)%nat ∧
    blocks g !! ka = None ∧ blocks g !! kc = None.

(** The rest of the memory is well formed and has the headers. *)
Record rest_of (g : heap) (a c : nat) : Prop := {
  rest_ne : a ≠ c;
  rest_heap : heap_ok g;
  rest_a : (a < fresh g)%nat;
  rest_c : (c < fresh g)%nat }.

Lemma rest_sym g a c : rest_of g a c → rest_of g c a.
Proof. by intros []. Qed.

Lemma pair_sym g a c A B h : rest_of g a c → pair_at g a c A B h ↔ pair_at g c a B A h.
Proof.
  intros [Hne _ _ _]. split; intros (f&ta&ka&ba&tc&kc&bc&->&?&?&?&?&?&?&?&?); exists f, tc, kc, bc, ta, ka, ba;
    (rewrite upd_comm by done; split_and!; done).
Qed.

Lemma pair_mono g a c (A A' B B' : tagbstring → nat → list Z → Prop) h :
  pair_at g a c A B h → (∀ t k b, A t k b → A' t k b) → (∀ t k b, B t k b → B' t k b) → pair_at g a c A' B' h.
Proof.
  intros (f&ta&ka&ba&tc&kc&bc&->&?&?&?) HA HB. exists f, ta, ka, ba, tc, kc, bc. auto.
Qed.
Lemma pair_mono_c g a c (A B B' : tagbstring → nat → list Z → Prop) h :
  pair_at g a c A B h → (∀ t k b, B t k b → B' t k b) → pair_at g a c A B' h.
Proof. intros HP HB. by eapply pair_mono. Qed.
Lemma pair_pure g a c A B (φ : Prop) h :
  pair_at g a c A (λ t k b, φ ∧ B t k b) h → φ ∧ pair_at g a c A B h.
Proof.
  intros (f&ta&ka&ba&tc&kc&bc&->&?&[? ?]&?). split; [done|]. by exists f, ta, ka, ba, tc, kc, bc.
Qed.
Lemma pair_exists {C} g a c A (B : C → tagbstring → nat → list Z → Prop) h :
  pair_at g a c A (λ t k b, ∃ y, B y t k b) h → ∃ y, pair_at g a c A (B y) h.
Proof.
  intros (f&ta&ka&ba&tc&kc&bc&->&?&[y ?]&?). exists y. by exists f, ta, ka, ba, tc, kc, bc.
Qed.

Lemma pair_local {A} g a c (m : M A) X P Q h :
  rest_of g a c → local c m P Q → pair_at g a c X P h → mwp m h (λ r h', pair_at g a c X (Q r) h').
Proof.
  intros [Hne Hh Ha Hc] Hm (f&ta&ka&ba&tc&kc&bc&->&HX&HP&Hf&Hk&Hka&Hkc&Hna&Hnc).
  assert (frame (upd (bump g f) a ta ka ba) c kc) as Hfr.
  { split; cbn; [|lia|done|by rewrite lookup_insert_ne].
    split; intros x; cbn; rewrite lookup_insert_is_Some; intros [<-|[_ ?%Hh]]; lia. }
  eapply mwp_mono; [by apply Hm|]. intros r h' (f'&t'&k'&b'&HQ&Hf'&Hk'&->). cbn in *.
  exists f', ta, ka, ba, t', k', b'. split_and!; [done|done|done|lia|lia|lia|lia|done|].
  destruct Hk' as [->|?]; [done|]. apply eq_None_not_Some. intros ?%Hh. lia.
Qed.

(** A step on one of the two, and what follows it. *)
Lemma step_c {A B} g a c (m : M A) (k : A → M B) X P Q h R :
  local c m P Q → rest_of g a c → pair_at g a c X P h →
  (∀ r h', pair_at g a c X (Q r) h' → mwp (k r) h' R) → mwp (m ≫= k) h R.
Proof. intros Hm Hg HP Hk. apply mwp_bind. eapply mwp_mono; [by eapply pair_local|]. auto. Qed.
Lemma step_a {A B} g a c (m : M A) (k : A → M B) X P Q h R :
  local a m P Q → rest_of g a c → pair_at g a c P X h →
  (∀ r h', pair_at g a c (Q r) X h' → mwp (k r) h' R) → mwp (m ≫= k) h R.
Proof.
  intros Hm Hg HP Hk. rewrite pair_sym in HP by done. eapply step_c; [done|by apply rest_sym|done|].
  intros r h' Hr. rewrite pair_sym in Hr by (by apply rest_sym). auto.
Qed.

(** Another header. *)
Lemma pair_hdr {B} g a c A C h x t (k : tagbstring → M B) R :
  pair_at g a c A C h → strs g !! x = Some t → x ≠ a → x ≠ c → mwp (k t) h R → mwp (hdr x ≫= k) h R.
Proof.
  intros (f&ta&ka&ba&tc&kc&bc&->&?) Hx Hxa Hxc Hk. apply mwp_bind.
  eapply mwp_hdr_ne; [done| |exact Hk]. cbn. by rewrite lookup_insert_ne.
Qed.
Lemma pair_get_data {B} g a c A C h x t p (k : ptr → M B) R :
  pair_at g a c A C h → strs g !! x = Some t → data t = Some p → x ≠ a → x ≠ c →
  mwp (k p) h R → mwp (get_data x ≫= k) h R.
Proof.
  intros (f&ta&ka&ba&tc&kc&bc&->&?) Hx Hp Hxa Hxc Hk. apply mwp_bind, mwp_bind.
  eapply mwp_hdr_ne; [done|cbn; by rewrite lookup_insert_ne|]. unfold mwp. by rewrite Hp.
Qed.

(** Bytes go from the second block to the first. *)
Lemma pair_move {B} g a c p n x m q j n2 x2 m2 i l h (k : () → M B) R :
  rest_of g a c → pair_at g a c (cell_at p n x m) (cell_at q n2 x2 m2) h →
  (i ≤ length x)%nat → Z.of_nat (i + length l) ≤ m →
  (j + length l ≤ length x2)%nat → slice j (length l) x2 = l →
  (∀ h', pair_at g a c (cell_at p n (take i x ++ l) m) (cell_at q n2 x2 m2) h' → mwp (k tt) h' R) →
  mwp (memmove p (Z.of_nat i) q (Z.of_nat j) (Z.of_nat (length l)) ≫= k) h R.
Proof.
  intros Hg Hp Hi Hm Hj Hl Hk. apply mwp_bind, mwp_bind.
  assert (local c (read q (Z.of_nat j) (Z.of_nat (length l))) (cell_at q n2 x2 m2)
    (λ r t k b, r = l ∧ cell_at q n2 x2 m2 t k b)) as Hread.
  { apply local_reads. intros g' t k' b [-> Hc] _. pose proof (cell_fits _ _ _ _ _ _ Hc).
    apply mwp_read; [unfold in_range; lia|]. split; [done|].
    rewrite !Nat2Z.id. transitivity (slice j (length l) x2); [|done]. pose proof (cell_bytes _ _ _ _ _ _ Hc) as Hx2.
    clear Hl. unfold slice. rewrite <- Hx2 at 1. rewrite skipn_firstn_comm, take_take. f_equal. lia. }
  eapply mwp_mono; [by eapply pair_local|]. intros r h1 [-> H1]%pair_pure.
  rewrite pair_sym in H1 by done.
  eapply mwp_mono; [eapply pair_local; [by apply rest_sym|by apply (local_write a p n x m i l)|done]|].
  intros [] h2 H2. apply Hk. by rewrite pair_sym.
Qed.

Lemma pair_blks g a c p n x m q n2 x2 m2 h :
  pair_at g a c (cell_at p n x m) (cell_at q n2 x2 m2) h → blk q ≠ blk p.
Proof. intros (f&ta&ka&ba&tc&kc&bc&->&[-> _]&[-> _]&_&Hk&_). cbn. auto. Qed.

Lemma pair_block_copy {B} g a c p n x m q j n2 x2 m2 i l h (k : () → M B) R :
  rest_of g a c → pair_at g a c (cell_at p n x m) (cell_at q n2 x2 m2) h →
  i = length x → Z.of_nat (i + length l) ≤ m →
  (j + length l ≤ length x2)%nat → slice j (length l) x2 = l →
  (∀ h', pair_at g a c (cell_at p n (x ++ l) m) (cell_at q n2 x2 m2) h' → mwp (k tt) h' R) →
  mwp (bBlockCopy p (Z.of_nat i) q (Z.of_nat j) (Z.of_nat (length l)) ≫= k) h R.
Proof.
  intros Hg Hp -> Hm Hj Hl Hk. unfold bBlockCopy. destruct (Z.ltb_spec 0 (Z.of_nat (length l))).
  - eapply pair_move; [done..|]. by rewrite firstn_all.
  - apply mwp_bind, mwp_ret, Hk. assert (l = []) as -> by (destruct l; [done|cbn in *; lia]).
    by rewrite app_nil_r.
Qed.

(** A header on the stack belongs to the rest of the memory while it lasts. *)
Lemma pair_view {A B} g a c X Y X' Y' h t (f : bstring → M A) (k : A → M B) R :
  rest_of g a c → pair_at g a c X Y h →
  (∀ g' x h1, rest_of g' a c → strs g' !! x = Some t → x ≠ a → x ≠ c → pair_at g' a c X Y h1 →
    mwp (f (Some x)) h1 (λ r h2, pair_at g' a c (X' r) (Y' r) h2)) →
  (∀ r h2, pair_at g a c (X' r) (Y' r) h2 → mwp (k r) h2 R) → mwp (with_view t f ≫= k) h R.
Proof.
  intros [Hne Hh Ha Hc] (f0&ta&ka&ba&tc&kc&bc&->&HX&HY&Hf&Hk&Hka&Hkc&Hna&Hnc) Hrun Hend.
  apply mwp_bind. unfold with_view. apply mwp_bind. unfold mwp at 1. cbn.
  set (g' := Heap (blocks g) (<[f0 := t]> (strs g)) (S f0)).
  assert (Hstrs : ∀ tc ta (m : gmap nat tagbstring),
    <[f0:=t]> (<[c:=tc]> (<[a:=ta]> m)) = <[c:=tc]> (<[a:=ta]> (<[f0:=t]> m))).
  { intros tc' ta' m. rewrite (insert_insert_ne _ f0 c), (insert_insert_ne _ f0 a) by lia. done. }
  assert (strs g !! f0 = None) as Hno by (apply eq_None_not_Some; intros ?%Hh; lia).
  apply mwp_bind. eapply mwp_mono; [apply (Hrun g')|].
  - split; [done| |cbn; lia|cbn; lia]. split; intros x; cbn; [intros ?%Hh; lia|].
    rewrite lookup_insert_is_Some. intros [<-|[_ ?%Hh]]; lia.
  - cbn. by rewrite lookup_insert_eq.
  - lia.
  - lia.
  - exists (S f0), ta, ka, ba, tc, kc, bc. split_and!; [|done..|cbn; lia|done|lia|lia|done|done].
    unfold upd. cbn. by rewrite Hstrs.
  - intros r h2 (f1&ta1&ka1&ba1&tc1&kc1&bc1&->&HX1&HY1&Hf1&Hk1&Hka1&Hkc1&Hna1&Hnc1). cbn in *.
    apply mwp_bind. unfold mwp at 1, free_hdr. cbn.
    rewrite !lookup_insert_ne, lookup_insert_eq by lia. cbn. apply Hend.
    exists f1, ta1, ka1, ba1, tc1, kc1, bc1. split_and!; [|done..|lia|done|done|done|done|done].
    unfold upd. cbn. f_equal. rewrite <- Hstrs. by rewrite delete_insert_id by (rewrite !lookup_insert_ne by lia; done).
Qed.
