(* ===== verification/BstrIOSpec.v ===== *)
(** The reading loops and the streams of bstrlib.c (BstrIO) against the bytes their
    source delivers: nothing is lost or read twice, whatever the sizes of the reads. *)
From S2P Require Import Prelude Bstr BstrMem BstrSpec BstrOps BstrFind BstrFindSpec BstrList BstrListSpec BstrIO BstrCell BstrPair.
#[local] Open Scope Z_scope.

Tactic Notation "locally" uconstr(H) := eapply local_bind; [eapply H|intros ?r].
Ltac on_a H Hg Hp := eapply (step_a _ _ _ _ _ _ _ _ _ _ H Hg Hp); clear Hp; intros ?r ?h Hp.
Ltac on_c H Hg Hp := eapply (step_c _ _ _ _ _ _ _ _ _ _ H Hg Hp); clear Hp; intros ?r ?h Hp.

(** ** Sources *)

(** [rest] is what the source has not delivered: a read delivers its beginning, one
    byte or more as long as there is one. *)
Class Source {P} (f : bNread P) (rest : P → list Z) : Prop :=
  source_read : ∀ p n, 0 < n → ∃ l p', f p n = ((l, Z.of_nat (length l)), p') ∧
    Z.of_nat (length l) ≤ n ∧ rest p = l ++ rest p' ∧ (l = [] → rest p = []).
(** A read that delivers less is the last one, as with [fread]. *)
Class FullSource {P} (f : bNread P) (rest : P → list Z) : Prop := {
  full_source :: Source f rest;
  full_read : ∀ p n l r p', 0 < n → f p n = ((l, r), p') → Z.of_nat (length l) < n → rest p' = [] }.

#[export] Instance by_chunks_source n : TCEq (Nat.eqb n 0) false → Source (by_chunks n) (λ l, l).
Proof.
  intros Hn%TCEq_eq%Nat.eqb_neq l k Hk. unfold by_chunks. cbv zeta. eexists _, _. split; [done|].
  split_and!; [rewrite length_take; lia|by rewrite take_drop|].
  destruct l; [done|]. destruct (Nat.min _ _) eqn:E; [lia|done].
Qed.

(** The characters of a source, then a negative number. *)
Class CharSource {P} (f : bNgetc P) (rest : P → list Z) : Prop :=
  char_read : ∀ p, match rest p with
    | [] => (f p).1 < 0 ∧ rest (f p).2 = []
    | c :: l => (f p).1 = c ∧ 0 ≤ c < 256 ∧ rest (f p).2 = l
    end.

(** ** Steps on one string *)

Lemma local_call_read {P} c (f : bNread P) p n x m i k q l q' :
  f q k = ((l, Z.of_nat (length l)), q') → Z.of_nat (length l) < 2 ^ 31 → (i ≤ length x)%nat →
  Z.of_nat (i + length l) ≤ m →
  local c (call_read f p (Z.of_nat i) k q) (cell_at p n x m)
    (λ r t k b, r = (Z.of_nat (length l), q') ∧ cell_at p n (take i x ++ l) m t k b).
Proof.
  intros Hf Hl Hi Hm. unfold call_read. rewrite Hf. locally local_write; [done|done|].
  rewrite s32_small by lia. apply local_ret.
Qed.

Lemma cell_at_data c p n x m :
  local c (get_data c) (cell_at p n x m) (λ r t k b, r = p ∧ cell_at p n x m t k b).
Proof.
  intros g t k b [-> Hc] Hg. eapply mwp_get_data; [by apply Hc|].
  by apply (stays _ _ _ _ _ (λ r t k' b, r = Ptr k 0 ∧ cell_at (Ptr k 0) n x m t k' b)).
Qed.
Lemma cell_at_slen c p n x m (z : nat) :
  z = n → local c (hdr c) (cell_at p n x m) (λ t t' k b, slen t = Z.of_nat z ∧ cell_at p n x m t' k b).
Proof.
  intros -> g t k b [-> Hc] Hg. apply mwp_hdr_eq.
  apply (stays _ _ _ _ _ (λ t t' k' b, slen t = Z.of_nat n ∧ cell_at (Ptr k 0) n x m t' k' b)).
  split; [by apply Hc|done].
Qed.
Lemma local_weak {A} c (m : M A) P P' Q :
  local c m P' Q → (∀ t k b, P t k b → P' t k b) → local c m P Q.
Proof. intros. by eapply local_mono. Qed.

(** Moving bytes to the start of the block. *)
Lemma local_shift c p n x m i l :
  (i + length l ≤ length x)%nat → slice i (length l) x = l →
  local c (bBlockCopy p 0 p (Z.of_nat i) (Z.of_nat (length l))) (cell_at p n x m) (λ _, cell_at p n l m).
Proof.
  intros Hi Hl g t k b [-> Hc] Hg. pose proof (cell_fits _ _ _ _ _ _ Hc).
  apply mwp_block_move; [lia..|]. rewrite !Nat2Z.id.
  apply (stays _ _ _ _ _ (λ _ : (), cell_at (Ptr k 0) n l m) tt). split; [done|].
  assert (slice i (length l) b = l) as ->.
  { transitivity (slice i (length l) x); [|done]. unfold slice. rewrite <- (cell_bytes _ _ _ _ _ _ Hc) at 1.
    rewrite skipn_firstn_comm, take_take. f_equal. lia. }
  exact (cell_write n x m t k b 0 l Hc ltac:(lia) ltac:(lia)).
Qed.

(** Moving them up, and writing before them. *)
Lemma local_shift_up c p n x m i :
  Z.of_nat (i + length x) ≤ m →
  local c (bBlockCopy p (Z.of_nat i) p 0 (Z.of_nat (length x))) (cell_at p n x m)
    (λ _ t k b, ∃ y, (length y = i) ∧ cell_at p n (y ++ x) m t k b).
Proof.
  intros Hm g t k b [-> Hc] Hg. pose proof (cell_fits _ _ _ _ _ _ Hc). pose proof (cell_room _ _ _ _ _ _ Hc).
  apply mwp_block_move; [lia..|]. rewrite !Nat2Z.id.
  apply (stays _ _ _ _ _ (λ (_ : ()) t k' b, ∃ y, (length y = i) ∧ cell_at (Ptr k 0) n (y ++ x) m t k' b) tt).
  exists (take i b). assert (length (take i b) = i) as Hi by (rewrite length_take; lia). split; [done|]. split; [done|].
  assert (slice (Z.to_nat 0) (length x) b = x) as -> by apply Hc.
  destruct Hc as [? ? ? Hx ? ? ?]. split; rewrite ?length_write_at by lia; try done.
  rewrite length_app, Hi, write_at_in, app_assoc by lia. apply take_app_length'. rewrite length_app. lia.
Qed.
Lemma local_overwrite c p n y x m l :
  length y = length l → Z.of_nat (length l + length x) ≤ m →
  local c (write p 0 l) (cell_at p n (y ++ x) m) (λ _, cell_at p n (l ++ x) m).
Proof.
  intros Hy Hm g t k b [-> Hc] Hg. pose proof (cell_fits _ _ _ _ _ _ Hc) as Hf. rewrite length_app in Hf.
  apply mwp_write; [unfold in_range; lia|].
  apply (stays _ _ _ _ _ (λ _ : (), cell_at (Ptr k 0) n (l ++ x) m) tt). split; [done|].
  destruct Hc as [? ? ? Hx ? ? ?]. cbn [Z.to_nat]. split; rewrite ?length_write_at by (cbn; lia); try done.
  rewrite write_at_in by lia. rewrite take_0, app_nil_l, length_app, take_app_add. f_equal.
  rewrite length_app in Hx. cbn [Nat.add]. rewrite <- Hy.
  apply (f_equal (drop (length y))) in Hx. rewrite drop_app_length, skipn_firstn_comm in Hx.
  by replace (length y + length x - length y)%nat with (length x) in Hx by lia.
Qed.

(** The first [j] of the [n] bytes go. *)
Lemma local_bdelete c n x m (j : nat) :
  (0 < j ≤ n)%nat → (n ≤ length x)%nat → Z.of_nat n < m → Z.of_nat n ≤ INT_MAX →
  local c (bdelete (Some c) 0 (Z.of_nat j)) (cell n x m)
    (λ r t k b, r = BSTR_OK ∧ partial (slice j (n - j) x) m t k b).
Proof.
  intros Hj Hn Hm Hmax. unfold bdelete. cbn [Z.ltb Z.compare]. locally local_slen; [done|].
  apply local_pure. intros (Hs&Hw&_). rewrite Hw, Hs, (proj2 (Z.ltb_ge _ 0)), !(proj2 (Z.ltb_lt 0 _)) by lia.
  cbn [orb andb]. locally local_data. unfold INT_MAX in *. rewrite (s32_small (0 + _)) by lia.
  set (s := slice j (n - j) x). assert (length s = n - j)%nat as Hls by (apply slice_length; lia).
  eapply (local_bind _ _ _ _ (λ _, cell_at r0 (length s) s m)).
  { destruct (Z.leb_spec (Z.of_nat n) (0 + Z.of_nat j)).
    - assert (length s = 0)%nat as Hl0 by lia. change 0 with (Z.of_nat 0). rewrite Hl0.
      eapply local_mono; [apply (local_set_slen c r0 n x m 0); lia|done|].
      intros [] t k b [-> Hc]. split; [done|]. apply nil_length_inv in Hl0. rewrite Hl0.
      by apply (cell_take 0 x m _ _ _ 0).
    - rewrite (s32_small (_ - _)) by lia.
      replace (Z.of_nat n - (0 + Z.of_nat j)) with (Z.of_nat (length s)) by lia.
      replace (Z.of_nat n - Z.of_nat j) with (Z.of_nat (length s)) by lia. cbn [Z.add].
      locally (local_shift c r0 n x m j s); [lia|unfold s at 2; by rewrite Hls|].
      apply local_set_slen. lia. }
  intros []. locally cell_at_slen; [done|]. apply local_pure. intros Hs'. rewrite Hs'.
  locally local_write; [lia|cbn; lia|]. apply local_return. intros t k b [-> Hc]. split; [done|]. rewrite <- Hls, firstn_all in Hc.
  apply (cell_take _ _ _ _ _ _ (length s)) in Hc. by rewrite take_app_length in Hc.
Qed.

Lemma local_drop c n x m (j : nat) :
  (0 < j ≤ n)%nat → (n ≤ length x)%nat → Z.of_nat n < m → Z.of_nat n ≤ INT_MAX →
  local c (bdelete (Some c) 0 (Z.of_nat j);; mret tt) (cell n x m)
    (λ _, partial (slice j (n - j) x) m).
Proof.
  intros. locally local_bdelete; [done..|]. apply local_return. by intros t k b [_ Hc].
Qed.

(** ** Reading to the end *)

(** What the loops make of their string. *)
Definition read_to {P} (rest : P → list Z) (s left : list Z) (ret : Z) (x : Z * P)
    (t : tagbstring) (k : nat) (b : list Z) : Prop :=
  (x.1 = ret ∧ rest x.2 = left) ∧ buffer t k b s.

Section Read.
Context `{AllocatorLaws} {P : Type} (c : nat).
Hypothesis memory : plenty.

Lemma breada_loop_spec (f : bNread P) rest fuel : FullSource f rest → ∀ s n q m,
  Z.of_nat (length s) < n ≤ Z.of_nat (length s) + 1024 →
  Z.of_nat (length s + length (rest q)) + 2048 < 2 ^ 30 → (length (rest q) < fuel)%nat →
  local c (breada_loop fuel c f (Z.of_nat (length s)) n q) (partial s m) (read_to rest (s ++ rest q) [] BSTR_OK).
Proof.
  intros Hsrc. induction fuel as [|fuel IH]; intros s n q m Hn Hmax Hfuel; [lia|]. cbn [breada_loop].
  rewrite (s32_small (n + 1)) by lia. locally (local_balloc c memory); [lia|]. apply local_pure. intros ->. cbn [Z.eqb negb BSTR_OK].
  locally local_data.
  destruct (source_read q (n - Z.of_nat (length s)) ltac:(lia)) as (l&q'&Hf&Hl&Hr&Hnil).
  pose proof (λ H1, full_read q (n - Z.of_nat (length s)) _ _ _ H1 Hf) as Hfull. pose proof (f_equal length Hr) as Hlr.
  rewrite length_app in Hlr. locally local_call_read; [done|lia|done|lia|]. apply local_pure. intros ->.
  rewrite firstn_all, (s32_small (_ + _)) by lia.
  replace (Z.of_nat (length s) + Z.of_nat (length l)) with (Z.of_nat (length (s ++ l))) by (rewrite length_app; lia).
  locally local_set_slen; [rewrite length_app; lia|].
  rewrite length_app, Nat2Z.inj_add, <- length_app.
  destruct (Z.ltb_spec (Z.of_nat (length s) + Z.of_nat (length l)) n).
  - locally cell_at_data. apply local_pure. intros ->.
    rewrite <- Nat2Z.inj_add, <- length_app. locally local_close; [rewrite length_app; lia|done|].
    apply local_return. intros t k b [_ Hb].
    assert (rest q' = []) as Hq by (apply Hfull; lia). rewrite Hr, Hq, app_nil_r. done.
  - rewrite <- Nat2Z.inj_add, <- length_app, Hr, app_assoc. rewrite s32_small by (unfold BS_BUFF_SZ; case_match; lia).
    eapply local_weak; [eapply IH|intros t k b [_ Hc]; exact Hc]; rewrite ?length_app; unfold BS_BUFF_SZ.
    + case_match; lia.
    + lia.
    + destruct l; [cbn in *; lia|cbn in *; lia].
Qed.

Lemma breada_spec (f : bNread P) rest fuel s q :
  FullSource f rest → Z.of_nat (length s + length (rest q)) + 2048 < 2 ^ 30 → (length (rest q) < fuel)%nat →
  local c (breada fuel (Some c) (Some f) q) (λ t k b, buffer t k b s) (read_to rest (s ++ rest q) [] BSTR_OK).
Proof.
  intros Hsrc Hmax Hfuel. eapply local_weak; [|intros t k b Hb; by apply (buffer_cell _ _ _ _ 1 Hb); lia].
  unfold breada. locally local_slen; [done|]. apply local_pure. intros (Hs&_&->&_).
  rewrite Hs, s32_small by lia. eapply breada_loop_spec; [done|lia|lia|done].
Qed.

(** ** Reading to a terminator *)

(** What comes up to and with the first terminator, and what is left. *)
Fixpoint line (stop : Z → bool) (l : list Z) : list Z * list Z :=
  match l with
  | [] => ([], [])
  | c :: l => if stop c then ([c], l) else let '(x, y) := line stop l in (c :: x, y)
  end.

Lemma line_app stop l : (line stop l).1 ++ (line stop l).2 = l.
Proof.
  induction l as [|c' l IH]; [done|]. cbn. destruct (stop c'); [done|].
  destruct (line stop l) as [x y]. cbn in *. by rewrite IH.
Qed.

Lemma gets_loop_spec (f : bNgetc P) rest term fuel : CharSource f rest → ∀ x n q e m,
  let s := line (λ y, y =? term) (rest q) in
  e + 2 ≤ m → e ≤ INT_MAX → Z.of_nat (length x) < m →
  Z.of_nat (length x + length (rest q)) + 4 < 2 ^ 30 → (length (rest q) < fuel)%nat →
  local c (gets_loop fuel c f term (Z.of_nat (length x)) e q) (cell n x m)
    (read_to rest (x ++ s.1) s.2 (if decide (x ++ s.1 = []) then 1 else 0)).
Proof.
  intros Hsrc. induction fuel as [|fuel IH]; intros x n q e m s He Hem Hm Hmax Hfuel; [lia|].
  pose proof (char_read q) as Hq. cbn [gets_loop]. unfold s. clear s.
  assert (Hend : ∀ (x' : list Z) c' q' m' n', (c' < 0 ∨ x' ≠ []) → Z.of_nat (length x') < m' → local c
      (p ← get_data c; store p (Z.of_nat (length x')) 0;; set_slen c (Z.of_nat (length x'));;
       mret (if (Z.of_nat (length x') =? 0) && (c' <? 0) then 1 else 0, q'))
      (cell n' x' m') (read_to rest x' (rest q') (if decide (x' = []) then 1 else 0))).
  { intros x' c' q' m' n' Hc' Hm'. locally local_data. locally local_write; [lia|cbn; lia|].
    rewrite firstn_all. locally local_set_slen; [lia|].
    apply local_return. intros t k b [_ Hb]. apply cell_buffer in Hb.
    split; [|done]. split; [|done]. cbn. destruct (decide (x' = [])) as [->|Hx']; cbn.
    - destruct Hc' as [Hc'|]; [|done]. by rewrite (proj2 (Z.ltb_lt _ _)).
    - by rewrite (proj2 (Z.eqb_neq _ _)) by (destruct x'; [done|cbn; lia]). }
  destruct (f q) as [c0 q'] eqn:Hf. cbn [fst snd] in Hq.
  destruct (rest q) as [|c1 l] eqn:Hr; cbn [line fst snd].
  { destruct Hq as [Hc0 Hq']. rewrite (proj2 (Z.leb_gt 0 c0)), app_nil_r by lia.
    pose proof (Hend x c0 q' m n (or_introl Hc0) Hm) as Hx. by rewrite Hq' in Hx. }
  destruct Hq as (->&Hc1&Hq'). rewrite (proj2 (Z.leb_le 0 _)) by lia. cbn [length] in Hmax, Hfuel.
  eapply (local_bind _ _ _ _ (λ r t k b, ∃ e' m' n', (r = Some e' ∧ e' + 2 ≤ m' ∧ e' ≤ INT_MAX ∧
    Z.of_nat (length x) + 1 < m') ∧ cell n' x m' t k b)).
  { destruct (Z.ltb_spec e (Z.of_nat (length x))).
    - locally local_cell_slen; [done|]. rewrite s32_small by lia.
      locally (local_balloc c memory); [lia|]. apply local_pure. intros ->. cbn [Z.eqb BSTR_OK].
      locally local_hdr. apply local_return. intros t k b [<- Hc].
      pose proof (cell_mlen _ _ _ _ _ _ Hc). pose proof (cell_room _ _ _ _ _ _ Hc).
      pose proof (cell_max _ _ _ _ _ _ Hc). unfold INT_MAX in *.
      exists (mlen t - 2), (mlen t), (length x). rewrite s32_small by lia. split; [repeat split; lia|].
      destruct Hc. split; try done. lia.
    - apply local_return. intros t k b Hc. exists e, m, n. split; [|done]. repeat split; lia. }
  intros room. apply local_exists. intros e'. apply local_exists. intros m'. apply local_exists. intros n'.
  apply local_pure. intros (->&He'&Hem'&Hm').
  locally local_data. locally local_write; [lia|cbn; lia|]. rewrite firstn_all.
  unfold u8. rewrite Z.mod_small by lia.
  replace (Z.of_nat (length x) + 1) with (Z.of_nat (length (x ++ [c1]))) by (rewrite length_app; cbn; lia).
  assert (x ++ [c1] ≠ []) as Hne by by destruct x.
  destruct (Z.eqb_spec c1 term).
  - cbn [fst snd]. rewrite <- Hq'. eapply local_weak; [|intros t k b [_ Hc]; exact Hc].
    apply Hend; [by right|rewrite length_app; cbn; lia].
  - destruct (line _ l) as [y z] eqn:Hl. cbn [fst snd].
    eapply local_weak; [|intros t k b [_ Hc]; exact Hc].
    specialize (IH (x ++ [c1]) n' q' e' m'). rewrite Hq', Hl in IH. cbn [fst snd] in IH.
    rewrite <- app_assoc in IH. cbn [app] in IH. apply IH; try done; rewrite ?length_app; cbn; lia.
Qed.

Lemma gets_from_spec start (f : bNgetc P) rest fuel term s (d : nat) q :
  (∀ t k b, buffer t k b s → start t = Z.of_nat d) → (d ≤ length s)%nat → CharSource f rest →
  Z.of_nat (length s + length (rest q)) + 4 < 2 ^ 30 → (length (rest q) < fuel)%nat →
  let l := line (λ y, y =? s8 term) (rest q) in
  local c (gets_from start fuel (Some c) (Some f) q term) (λ t k b, buffer t k b s)
    (read_to rest (take d s ++ l.1) l.2 (if decide (take d s ++ l.1 = []) then 1 else 0)).
Proof.
  intros Hstart Hd Hsrc Hmax Hfuel l. unfold gets_from.
  eapply (local_bind _ _ _ _ (λ t t' k b, ∃ m, (start t = Z.of_nat d ∧ unappendable t = false ∧
    mlen t = m ∧ Z.of_nat (length s) < m ≤ INT_MAX) ∧ cell (length s) s m t' k b)).
  { intros g t k b Hb Hg. apply mwp_hdr_eq. pose proof (buffer_cell _ _ _ _ 1 Hb ltac:(lia)) as Hc.
    pose proof (cell_guard _ _ _ _ _ _ Hc) as (_&Hu&_).
    apply (stays _ _ _ _ _ (λ t t' k b, ∃ m, (start t = Z.of_nat d ∧ unappendable t = false ∧
      mlen t = m ∧ Z.of_nat (length s) < m ≤ INT_MAX) ∧ cell (length s) s m t' k b)).
    exists (mlen t). pose proof (Hstart _ _ _ Hb). pose proof (cell_mlen _ _ _ _ _ _ Hc).
    destruct Hc. split; [split_and!; try done; lia|]. split; try done. lia. }
  intros t. apply local_exists. intros m. apply local_pure. intros (->&->&->&Hm).
  unfold INT_MAX in *. rewrite s32_small by lia.
  assert (length (take d s) = d) as Hld by (rewrite length_take; lia). rewrite <- Hld at 1.
  eapply local_weak; [apply (gets_loop_spec f rest (s8 term) fuel Hsrc (take d s) (length s) q (m - 2) m);
    unfold INT_MAX; lia|].
  intros t' k b Hc. by apply cell_take.
Qed.

(** [bgetsa] appends, [bassigngets] writes over what was there. *)
Lemma bgetsa_spec (f : bNgetc P) rest fuel term s q :
  CharSource f rest → Z.of_nat (length s + length (rest q)) + 4 < 2 ^ 30 → (length (rest q) < fuel)%nat →
  let l := line (λ y, y =? s8 term) (rest q) in
  local c (bgetsa fuel (Some c) (Some f) q term) (λ t k b, buffer t k b s)
    (read_to rest (s ++ l.1) l.2 (if decide (s ++ l.1 = []) then 1 else 0)).
Proof.
  intros Hsrc Hmax Hfuel l.
  pose proof (gets_from_spec slen f rest fuel term s (length s) q (λ t k b Hb, buf_slen t k b s Hb)) as Hx.
  rewrite firstn_all in Hx. by apply Hx.
Qed.
Lemma bassigngets_spec (f : bNgetc P) rest fuel term s q :
  CharSource f rest → Z.of_nat (length s + length (rest q)) + 4 < 2 ^ 30 → (length (rest q) < fuel)%nat →
  let l := line (λ y, y =? s8 term) (rest q) in
  local c (bassigngets fuel (Some c) (Some f) q term) (λ t k b, buffer t k b s)
    (read_to rest l.1 l.2 (if decide (l.1 = []) then 1 else 0)).
Proof.
  intros Hsrc Hmax Hfuel l. apply (gets_from_spec (λ _, 0) f rest fuel term s 0); try done. lia.
Qed.
End Read.
