(* ===== verification/BstrStreamSpec.v ===== *)
(** The streams of bstrlib.c (BstrIO) against a list of bytes: the buffer followed by
    what the source has left. The requests take bytes off its front. *)
From S2P Require Import Prelude Bstr BstrMem BstrSpec BstrOps BstrFind BstrFindSpec BstrList BstrListSpec BstrIO BstrCell BstrPair BstrIOSpec.
#[local] Open Scope Z_scope.

Tactic Notation "on_a" uconstr(H) "at" ident(Hp) :=
  eapply (λ X Y, step_a _ _ _ _ _ _ _ _ _ _ X Y Hp); [eapply H|done|clear Hp; intros ?r ?h Hp].
Tactic Notation "on_c" uconstr(H) "at" ident(Hp) :=
  eapply (λ X Y, step_c _ _ _ _ _ _ _ _ _ _ X Y Hp); [eapply H|done|clear Hp; intros ?r ?h Hp].
Tactic Notation "on_a" uconstr(H) "at" ident(Hp) "as" ident(r) :=
  eapply (λ X Y, step_a _ _ _ _ _ _ _ _ _ _ X Y Hp); [eapply H|done|clear Hp; intros r ?h Hp].
Tactic Notation "on_c" uconstr(H) "at" ident(Hp) "as" ident(r) :=
  eapply (λ X Y, step_c _ _ _ _ _ _ _ _ _ _ X Y Hp); [eapply H|done|clear Hp; intros r ?h Hp].

Lemma pair_pure_a g a c A B (φ : Prop) h :
  rest_of g a c → pair_at g a c (λ t k b, φ ∧ A t k b) B h → φ ∧ pair_at g a c A B h.
Proof. intros Hg Hp. rewrite pair_sym in Hp by done. apply pair_pure in Hp. by rewrite pair_sym. Qed.

(** ** Lines *)

Lemma stop_cases (stop : Z → bool) l :
  Forall (λ y, stop y = false) l ∨
  ∃ j y, l !! j = Some y ∧ stop y = true ∧ ∀ k z, (k < j)%nat → l !! k = Some z → stop z = false.
Proof.
  induction l as [|y l IH]; [by left|]. destruct (stop y) eqn:E.
  - right. exists 0%nat, y. split_and!; [done|done|lia].
  - destruct IH as [?|(j&z&Hz&Hs&Hno)]; [left; by constructor|right]. exists (S j), z.
    split_and!; [done|done|]. intros [|k] u Hk Hu; cbn in Hu; [congruence|]. apply (Hno k); [lia|done].
Qed.
Lemma line_none stop l r :
  Forall (λ y, stop y = false) l → line stop (l ++ r) = (l ++ (line stop r).1, (line stop r).2).
Proof.
  induction 1 as [|y l Hy _ IH]; cbn; [by destruct (line stop r)|]. by rewrite Hy, IH.
Qed.
Lemma line_found stop l r j y :
  l !! j = Some y → stop y = true → (∀ k z, (k < j)%nat → l !! k = Some z → stop z = false) →
  line stop (l ++ r) = (take (S j) l, drop (S j) l ++ r).
Proof.
  revert j. induction l as [|z l IH]; intros j Hy Hs Hno; [done|]. destruct j as [|j]; cbn [line app take drop].
  - cbn in Hy. injection Hy as ->. by rewrite Hs.
  - rewrite (Hno 0%nat z) by (lia || done). rewrite (IH j); [done|done|done|].
    intros k u Hk Hu. apply (Hno (S k)); [lia|done].
Qed.
Lemma line_ext stop stop' l : Forall (λ y, stop y = stop' y) l → line stop l = line stop' l.
Proof. induction 1 as [|y l Hy _ IH]; [done|]. cbn. by rewrite Hy, IH. Qed.

Section Streams.
Context `{AllocatorLaws}.
Hypothesis memory : plenty.
Context (a c : nat).

(** The header of the string that is written, beside a block that is not its own. *)
Lemma pair_hdr_a {B} g n x m p n2 x2 m2 h (k : tagbstring → M B) R :
  rest_of g a c → pair_at g a c (cell n x m) (cell_at p n2 x2 m2) h →
  (∀ t d, slen t = Z.of_nat n → data t = Some d → blk p ≠ blk d → Z.of_nat n < mlen t ≤ INT_MAX →
    pair_at g a c (cell n x (mlen t)) (cell_at p n2 x2 m2) h → mwp (k t) h R) → mwp (hdr a ≫= k) h R.
Proof.
  intros Hg (f&ta&ka&ba&tc&kc&bc&->&HA&[-> HC]&Hf&Hk&Hk') HK. apply mwp_bind.
  apply (mwp_hdr_ne _ _ _ _ _ a ta); [apply Hg|cbn; by rewrite lookup_insert_eq|].
  pose proof (cell_mlen _ _ _ _ _ _ HA). destruct HA as [Hd Hm Hs Hx Hmax Hroom Hin].
  apply (HK ta (Ptr ka 0)); [done|done|cbn; auto|lia|].
  exists f, ta, ka, ba, tc, kc, bc. split_and!; try done; try apply Hk'. split; try done. lia.
Qed.

(** [bconcat] through a header on the stack. *)
Lemma concat_spec g x p s m n2 x2 m2 l h :
  rest_of g a c → strs g !! x = Some (Tag (-1) (Z.of_nat (length l)) (Some p)) → x ≠ a → x ≠ c →
  (length l ≤ length x2)%nat → take (length l) x2 = l →
  pair_at g a c (partial s m) (cell_at p n2 x2 m2) h → Z.of_nat (length s + length l) + 2 < 2 ^ 30 →
  mwp (bconcat (Some a) (Some x)) h (λ r h',
    pair_at g a c (λ t k b, r = BSTR_OK ∧ buffer t k b (s ++ l)) (cell_at p n2 x2 m2) h').
Proof.
  intros Hg Hx Hxa Hxc Hl Hl2 HP Hmax. unfold bconcat.
  eapply pair_hdr_a; [done|done|]. clear m HP. intros t d Hs Hd Hne Hm HP. eapply pair_hdr; [done..|].
  unfold no_data. rewrite Hd, !bool_decide_eq_false_2 by done. cbn [orb slen data]. rewrite Hs.
  unfold INT_MAX in *. rewrite !s32_small by lia.
  rewrite (proj2 (Z.ltb_ge _ 0)) by (rewrite !Z.lor_nonneg; lia).
  assert (Hend : ∀ m h, Z.of_nat (length s + length l) < m →
    pair_at g a c (partial s m) (cell_at p n2 x2 m2) h →
    mwp (p ← get_data a; q ← get_data x;
         bBlockCopy p (Z.of_nat (length s)) q 0 (Z.of_nat (length l));;
         store p (Z.of_nat (length s) + Z.of_nat (length l)) 0;;
         set_slen a (Z.of_nat (length s) + Z.of_nat (length l));;
         release x x;; mret BSTR_OK) h
      (λ r h', pair_at g a c (λ t k b, r = BSTR_OK ∧ buffer t k b (s ++ l)) (cell_at p n2 x2 m2) h')).
  { clear h HP. intros m h Hmm HP. on_a local_data at HP. eapply pair_get_data; [done..|].
    change 0 with (Z.of_nat 0) at 1. eapply (pair_block_copy _ _ _ _ _ _ _ _ 0 _ _ _ _ l); [exact Hg|exact HP|done|lia|lia| |].
    { unfold slice. by rewrite drop_0. }
    clear h HP. intros h HP. rewrite <- Nat2Z.inj_add, <- length_app.
    on_a local_write at HP; [lia|rewrite length_app; cbn; lia|]. rewrite firstn_all in HP.
    on_a local_set_slen at HP; [rewrite length_app; lia|].
    unfold release. rewrite decide_True by done. apply mwp_bind, mwp_ret, mwp_ret.
    eapply pair_mono; [done| |done]. intros t' k b [_ Hb]. split; [done|]. by eapply cell_buffer. }
  destruct (Z.leb_spec (mlen t) (Z.of_nat (length s) + Z.of_nat (length l) + 1)).
  - unfold inside. rewrite bool_decide_eq_false_2 by done. cbn [andb copy_if]. apply mwp_bind, mwp_ret.
    unfold reserve. on_a (local_balloc a memory) at HP; [lia|].
    apply pair_pure_a in HP as [-> HP]; [|done]. cbn [Z.eqb BSTR_OK]. eapply Hend; [|done]. lia.
  - eapply Hend; [|done]. lia.
Qed.

(** The bytes at the start of a string are appended to another. *)
Lemma append_view {B} g p s m n2 x2 m2 l h (k : Z → M B) R :
  rest_of g a c → pair_at g a c (partial s m) (cell_at p n2 x2 m2) h →
  (length l ≤ length x2)%nat → take (length l) x2 = l → Z.of_nat (length s + length l) + 2 < 2 ^ 30 →
  (∀ h', pair_at g a c (λ t k b, buffer t k b (s ++ l)) (cell_at p n2 x2 m2) h' → mwp (k BSTR_OK) h' R) →
  mwp (with_view (Tag (-1) (Z.of_nat (length l)) (Some p)) (bconcat (Some a)) ≫= k) h R.
Proof.
  intros Hg HP Hl Hl2 Hmax HK.
  eapply (pair_view _ _ _ _ _ (λ r t k b, r = BSTR_OK ∧ buffer t k b (s ++ l)) (λ _, cell_at p n2 x2 m2)); [done|done| |].
  - intros g' x h1 Hg' Hx Hxa Hxc HP1. by eapply concat_spec.
  - intros r h2 HP2. apply pair_pure_a in HP2 as [-> HP2]; [|done]. by apply HK.
Qed.

(** ** The loop over the reads *)

Context {P : Type} (f : bNread P) (rest : P → list Z) `{!Source f rest}.

Definition stream_ok (x : bStream P) : Prop :=
  buff x = Some c ∧ readFnPtr x = Some f ∧ 0 < maxBuffSz x < 2 ^ 28 ∧
  (isEOF x = true → rest (parm x) = []).
(** A stream after a request: the same source and the same size. *)
Definition later (x y : bStream P) : Prop := stream_ok y ∧ maxBuffSz y = maxBuffSz x.

Lemma local_core_read e x p n z m i k :
  stream_ok x → 0 < k < 2 ^ 31 → (i ≤ length z)%nat → Z.of_nat i + k ≤ m →
  ∃ l q, (Z.of_nat (length l) ≤ k ∧ rest (parm x) = l ++ rest q ∧ (l = [] → rest (parm x) = []) ∧
      f (parm x) k = ((l, Z.of_nat (length l)), q)) ∧
    local e (core_read x p (Z.of_nat i) k) (cell_at p n z m)
      (λ r t k b, r = (Z.of_nat (length l), set_parm x q) ∧ cell_at p n (take i z ++ l) m t k b).
Proof.
  intros (_&Hf&_&_) Hk Hi Hm. destruct (source_read (parm x) k ltac:(lia)) as (l&q&Hl&Hlk&Hr&Hnil).
  exists l, q. split; [done|]. unfold core_read. rewrite Hf.
  locally (local_ret e f). apply local_pure. intros ->.
  locally local_call_read; [done|lia|done|lia|]. apply local_pure. intros ->. apply local_return. auto.
Qed.

Lemma local_grew (P0 : tagbstring → nat → list Z → Prop) (n rlo : nat) :
  (∀ t k b, P0 t k b → slen t = Z.of_nat n) →
  local a (grew a (Z.of_nat rlo)) P0
    (λ r t k b, r = (if decide (n = rlo) then BSTR_ERR else BSTR_OK) ∧ P0 t k b).
Proof.
  intros HP. apply local_reads. intros g t k b Hb _. apply mwp_bind, mwp_hdr_eq, mwp_ret. split; [done|].
  rewrite (HP _ _ _ Hb). destruct (Z.eqb_spec (Z.of_nat n) (Z.of_nat rlo)), (decide (n = rlo)); (done || lia).
Qed.

(** What a request for a line makes of the two strings. *)
Definition lined (g : heap) (x : bStream P) (s : list Z) (rlo : nat) (l : list Z * list Z)
    (r : Z * bStream P) (h' : heap) : Prop :=
  r.1 = (if decide (length (s ++ l.1) = rlo) then BSTR_ERR else BSTR_OK) ∧ later x r.2 ∧
  ∃ buf, l.2 = buf ++ rest (parm r.2) ∧
    pair_at g a c (λ t k b, buffer t k b (s ++ l.1)) (partial buf (maxBuffSz x + 1)) h'.

(** The terminator was met in the [l] bytes of the last read: the rest of them goes
    to the buffer. *)
Lemma over_read g x y p s l e j n2 x2 q h :
  rest_of g a c → later x (set_parm y q) →
  pair_at g a c (cell_at p (length s) (s ++ l ++ [e]) (Z.of_nat (length s) + maxBuffSz x + 2))
    (cell n2 x2 (maxBuffSz x + 1)) h →
  (j < length l)%nat → Z.of_nat (length l) ≤ maxBuffSz x → Z.of_nat (length s) + maxBuffSz x + 2 < 2 ^ 30 →
  mwp (set_slen a (Z.of_nat (length s + S j));; set_slen c (Z.of_nat (length l - S j));;
       d ← get_data c; memcpy d 0 p (Z.of_nat (length s + S j)) (Z.of_nat (length l - S j));;
       t ← hdr a; p ← get_data a; store p (slen t) 0;; mret (BSTR_OK, set_parm y q)) h
    (λ r h', r = (BSTR_OK, set_parm y q) ∧
      pair_at g a c (λ t k b, buffer t k b (s ++ take (S j) l)) (partial (drop (S j) l) (maxBuffSz x + 1)) h').
Proof.
  intros Hg Hlater HP Hj Hl Hmax.
  on_a local_set_slen at HP; [lia|]. on_c local_cell_slen at HP; [lia|]. on_c local_data at HP.
  assert (length (drop (S j) l) = length l - S j)%nat as Hlen by apply length_drop.
  unfold memcpy. rewrite decide_False by (intros [E _]; by apply (pair_blks _ _ _ _ _ _ _ _ _ _ _ _ HP)).
  rewrite pair_sym in HP by done. rewrite <- Hlen.
  eapply (pair_move _ _ _ _ _ _ _ _ _ _ _ _ 0 (drop (S j) l)); [by apply rest_sym|exact HP|lia|lia| | |].
  { rewrite !length_app. lia. }
  { unfold slice. rewrite drop_app_add. rewrite drop_app_le by lia. by rewrite take_app_length. }
  clear h HP. intros h HP. rewrite pair_sym in HP by (by apply rest_sym). rewrite take_0, app_nil_l in HP.
  on_a cell_at_slen at HP; [done|]. apply pair_pure_a in HP as [-> HP]; [|done].
  on_a cell_at_data at HP. apply pair_pure_a in HP as [-> HP]; [|done].
  on_a local_write at HP; [rewrite !length_app; lia|cbn; lia|]. apply mwp_ret. split; [done|].
  eapply pair_mono; [done| |].
  - intros t k b [_ Hc]. rewrite firstn_app_2, take_app_le in Hc by lia. eapply cell_buffer.
    rewrite length_app, length_take, Nat.min_l by lia. exact Hc.
  - intros t k b [_ Hc]. by rewrite Hlen.
Qed.

(** ** The loop for a number of bytes *)

Lemma reada_loop_spec fuel : ∀ g x b s buf m n2 M n orslen h,
  rest_of g a c → stream_ok x → pair_at g a c (partial s m) (cell_at b n2 buf M) h →
  maxBuffSz x + 1 ≤ M → Z.of_nat (length buf) + 1 ≤ M → (length s < n)%nat → (orslen ≤ length s)%nat →
  Z.of_nat n + 4 < 2 ^ 30 → Z.of_nat (length buf) < 2 ^ 30 → (length (rest (parm x)) < fuel)%nat →
  let k := (n - length s)%nat in let all := buf ++ rest (parm x) in
  mwp (reada_loop fuel a c b (Z.of_nat n) (Z.of_nat (length buf)) (Z.of_nat orslen) x) h
    (lined g x s orslen (take k all, drop k all)).
Proof.
  induction fuel as [|fuel IH]; intros g x b s buf m n2 M n orslen h Hg Hx HP HM HM' Hn Hors Hmax Hbl Hfuel k all; [lia|].
  pose proof Hx as (Hbuff&Hf&Hsz&Heof). cbn [reada_loop].
  on_a local_slen at HP; [done|]. apply pair_pure_a in HP as [(Hs&_) HP]; [|done]. rewrite Hs.
  destruct (Z.leb_spec (Z.of_nat n) (Z.of_nat (length buf) + Z.of_nat (length s))).
  - assert (length (take k buf) = k) as Hk by (rewrite length_take; lia).
    assert (take k all = take k buf ∧ drop k all = drop k buf ++ rest (parm x)) as [-> ->].
    { unfold all. split; [apply take_app_le; lia|apply drop_app_le; lia]. }
    replace (Z.of_nat n - Z.of_nat (length s)) with (Z.of_nat (length (take k buf))) by lia.
    eapply append_view; [done|exact HP|lia|by rewrite Hk|lia|]. clear h h0 HP. intros h HP.
    on_c local_set_slen at HP; [lia|]. cbn [Z.eqb BSTR_OK]. rewrite Hk.
    eapply pair_mono_c in HP; [|intros t j d [_ Hc]; exact Hc].
    on_c local_drop at HP; [lia|lia|lia|unfold INT_MAX; lia|].
    on_a (local_grew _ (length (s ++ take k buf))) at HP; [intros t j d Hb; apply Hb|].
    apply pair_pure_a in HP as [-> HP]; [|done]. apply mwp_ret. split; [done|split; [done|]].
    exists (drop k buf). split; [done|]. eapply pair_mono_c; [done|]. intros t j d Hc.
    assert (slice k (length buf - k) buf = drop k buf) as Heq by apply slice_end.
    rewrite Heq in Hc. eapply cell_less; [exact Hc|lia].
  - eapply append_view; [done|exact HP|done|apply firstn_all|lia|]. clear h h0 HP. intros h HP.
    cbn [Z.eqb negb BSTR_OK].
    eapply (step_a _ _ _ (hdr a) _ _ _ (λ t t' j d, slen t = Z.of_nat (length (s ++ buf)) ∧ buffer t' j d (s ++ buf)));
      [|done|exact HP|].
    { intros g0 t j d Hb Hfr. apply mwp_hdr_eq.
      apply (stays _ _ _ _ _ (λ t t' j d, slen t = Z.of_nat (length (s ++ buf)) ∧ buffer t' j d (s ++ buf))).
      split; [apply Hb|done]. }
    clear h HP. intros r0 h HP. apply pair_pure_a in HP as [-> HP]; [|done].
    set (w := if maxBuffSz x <? _ then _ else _).
    assert (0 < w ∧ w ≤ maxBuffSz x) as [Hw Hw'].
    { unfold w. rewrite length_app. destruct (Z.ltb_spec (maxBuffSz x) (Z.of_nat n - Z.of_nat (length s + length buf))); lia. }
    destruct (local_core_read c x b n2 buf M 0 w) as (l&q&(Hl&Hr&Hnil&_)&Hread); [done|lia|lia|lia|].
    on_c Hread at HP. apply pair_pure in HP as [-> HP]. cbn [take app] in HP.
    assert (later x (set_parm x q)) as Hlat.
    { split; [|done]. split; [done|]. split; [done|]. split; [done|]. cbn. intros He. specialize (Heof He).
      rewrite Hr in Heof. by apply app_eq_nil in Heof as [_ ?]. }
    assert (take k all = buf ++ take (n - length (s ++ buf)) (l ++ rest q) ∧
      drop k all = drop (n - length (s ++ buf)) (l ++ rest q)) as [-> ->].
    { unfold all. rewrite Hr, length_app.
      replace k with (length buf + (n - (length s + length buf)))%nat by lia.
      by rewrite take_app_add, drop_app_add. }
    destruct (Z.ltb_spec 0 (Z.of_nat (length l))).
    + assert (length (rest (parm x)) = length l + length (rest q))%nat as Hlr by (rewrite Hr; apply length_app).
      eapply mwp_mono; [eapply (IH g (set_parm x q) b (s ++ buf) l 1 n2 M); try done|]; try (cbn; rewrite ?length_app; lia).
      * apply Hlat.
      * eapply pair_mono; [done| |done]. intros t j d Hb. apply (buffer_cell _ _ _ _ 1 Hb). lia.
      * intros ? h' (Hr1&[Hok Hsame]&buf'&Hbuf'&HP'). unfold lined. cbn [fst snd] in *. rewrite app_assoc.
        split; [done|]. split; [by split|]. by exists buf'.
    + assert (l = []) as -> by (destruct l; [done|cbn in *; lia]). specialize (Hnil eq_refl).
      rewrite Hnil in Hr. cbn [app] in *. rewrite <- Hr, take_nil, drop_nil, app_nil_r.
      cbn [length Z.of_nat Z.ltb Z.compare]. change 0 with (Z.of_nat 0) at 1.
      on_c (local_set_slen c b n2 [] M 0) at HP; [lia|].
      on_a (local_grew _ (length (s ++ buf))) at HP; [intros t j d Hb; apply Hb|].
      apply pair_pure_a in HP as [-> HP]; [|done]. apply mwp_ret. split; [done|]. split; cbn [fst snd].
      { destruct Hlat as [(?&?&?&?) ?]. split; [|done]. by split; [|split; [|split]]. }
      exists []. split; [by cbn|]. eapply pair_mono_c; [done|]. intros t j d [_ Hc]. eapply cell_less; [exact Hc|lia].
Qed.

Context (e : Z) (stop : Z → bool).
Hypothesis sentinel : stop e = true.

(** Where the scan stops: at a terminator in [l], or at the sentinel after it. *)
Lemma seek_cases (s l left : list Z) :
  ∃ j, (j ≤ length l)%nat ∧ (∃ y, (s ++ l ++ [e]) !! (length s + j)%nat = Some y ∧ stop y = true) ∧
    (∀ k y, (length s ≤ k < length s + j)%nat → (s ++ l ++ [e]) !! k = Some y → stop y = false) ∧
    line stop (l ++ left) =
      if decide (j = length l) then (l ++ (line stop left).1, (line stop left).2)
      else (take (S j) l, drop (S j) l ++ left).
Proof.
  destruct (stop_cases stop l) as [Hnone|(j&y&Hy&Hy'&Hno)].
  - exists (length l). rewrite decide_True by done. split_and!; [done| | |by apply line_none].
    + exists e. split; [|done]. rewrite lookup_app_r, lookup_app_r by lia.
      by replace (_ - _ - _)%nat with 0%nat by lia.
    + intros k y Hk. rewrite lookup_app_r, lookup_app_l by lia. apply (Forall_lookup_1 _ _ _ _ Hnone).
  - exists j. pose proof (lookup_lt_Some _ _ _ Hy). rewrite decide_False by lia.
    split_and!; [lia| | |by eapply line_found].
    + exists y. split; [|done]. rewrite lookup_app_r, lookup_app_l by lia.
      by replace (_ + _ - _)%nat with j by lia.
    + intros k z Hk. rewrite lookup_app_r, lookup_app_l by lia. apply Hno. lia.
Qed.

Lemma line_loop_spec fuel : ∀ g x s rlo m n2 x2 h,
  rest_of g a c → stream_ok x → pair_at g a c (partial s m) (cell n2 x2 (maxBuffSz x + 1)) h →
  (rlo ≤ length s)%nat → Z.of_nat (length s + length (rest (parm x))) + maxBuffSz x + 2 < 2 ^ 30 →
  (length (rest (parm x)) < fuel)%nat →
  mwp (line_loop fuel a c e stop (Z.of_nat rlo) x) h (lined g x s rlo (line stop (rest (parm x)))).
Proof.
  induction fuel as [|fuel IH]; intros g x s rlo m n2 x2 h Hg Hx HP Hrlo Hmax Hfuel; [lia|].
  pose proof Hx as (Hbuff&Hf&Hsz&Heof). cbn [line_loop].
  on_a local_slen at HP; [done|]. apply pair_pure_a in HP as [(Hs&_) HP]; [|done]. rewrite Hs, s32_small by lia.
  on_a (local_balloc a memory) at HP; [lia|]. apply pair_pure_a in HP as [-> HP]; [|done]. cbn [Z.eqb negb BSTR_OK].
  on_a local_slen at HP; [done|]. apply pair_pure_a in HP as [(Hs'&_) HP]; [|done]. rewrite Hs'.
  on_a local_data at HP as p.
  destruct (local_core_read a x p (length s) s (Z.of_nat (length s) + maxBuffSz x + 1 + 1) (length s) (maxBuffSz x))
    as (l&q&(Hl&Hr&Hnil&_)&Hread); [done|lia|lia|lia|].
  on_a Hread at HP. apply pair_pure_a in HP as [-> HP]; [|done]. rewrite firstn_all in HP.
  assert (Hlater : stream_ok (set_parm x q)).
  { split_and!; [done|done|cbn; lia|cbn; lia|]. cbn. intros He. specialize (Heof He). rewrite Hr in Heof.
    by apply app_eq_nil in Heof as [_ ?]. }
  assert (later x (set_parm x q)) as Hlat by done.
  destruct (Z.leb_spec (Z.of_nat (length l)) 0) as [Hz|Hz].
  - assert (l = []) as -> by (destruct l; [done|cbn in *; lia]). rewrite (Hnil eq_refl) in *.
    rewrite app_nil_r in HP. symmetry in Hr. cbn in Hr. cbn [line fst snd].
    on_a local_write at HP; [lia|cbn; lia|]. rewrite firstn_all in HP.
    change 0 with (Z.of_nat 0) at 1. on_c local_cell_slen at HP; [lia|].
    on_a (local_grew _ (length s)) at HP; [intros t k b [_ Hc]; apply Hc|].
    apply pair_pure_a in HP as [-> HP]; [|done]. apply mwp_ret.
    assert (later x (set_eof (set_parm x q) true)) as Hlat2.
    { destruct Hlater as (?&?&?&_). split; [|done]. by split; [|split; [|split]]. }
    split; [|split; [exact Hlat2|]]; cbn [fst snd].
    + by rewrite app_nil_r.
    + exists []. split; [cbn; by rewrite Hr|]. eapply pair_mono; [done| |].
      * intros t k b [_ Hb]. rewrite app_nil_r. by eapply cell_buffer.
      * intros t k b Hb. by apply (cell_take 0 x2 _ _ _ _ 0).
  - rewrite <- Nat2Z.inj_add. on_a local_write at HP; [rewrite length_app; lia|cbn; lia|].
    rewrite take_ge in HP by (rewrite length_app; lia). rewrite <- app_assoc in HP.
    destruct (seek_cases s l (rest q)) as (j&Hj&Hst&Hno&Hline). rewrite <- Hr in Hline.
    on_a local_seek at HP; [rewrite !length_app; lia|exact Hst|exact Hno|].
    apply pair_pure_a in HP as [-> HP]; [|done].
    destruct (Z.ltb_spec (Z.of_nat j) (Z.of_nat (length l))).
    + rewrite Hline, decide_False by lia.
      replace (Z.of_nat (length s) + (Z.of_nat j + 1)) with (Z.of_nat (length s + S j)) by lia.
      replace (Z.of_nat (length l) - (Z.of_nat j + 1)) with (Z.of_nat (length l - S j)) by lia.
      eapply mwp_mono; [eapply (over_read g x x); [done|done| |lia|lia|lia]|].
      { eapply pair_mono; [done| |by intros]. intros t k b [-> Hc]. split; [done|].
        by replace (Z.of_nat (length s) + maxBuffSz x + 2) with (Z.of_nat (length s) + maxBuffSz x + 1 + 1) by lia. }
      intros ? h' [-> HP']. split; [|split; [exact Hlat|]].
      * cbn [fst snd]. rewrite decide_False; [done|]. rewrite length_app, length_take. lia.
      * by eexists.
    + assert (j = length l) as -> by lia. rewrite Hline, decide_True by done.
      rewrite <- length_app. on_a local_set_slen at HP; [rewrite length_app; lia|].
      rewrite Hr, length_app in Hmax, Hfuel. assert (0 < length l)%nat by lia.
      eapply mwp_mono; [eapply (IH g (set_parm x q) (s ++ l)); [done|done| |..]|].
      * eapply pair_mono; [done| |by intros]. intros t k b [_ Hc].
        apply (cell_take _ _ _ _ _ _ (length (s ++ l))) in Hc. rewrite app_assoc, take_app_length in Hc. exact Hc.
      * rewrite length_app. lia.
      * cbn. rewrite length_app. lia.
      * cbn. lia.
      * intros ? h' (Hr1&[Hok Hsame]&buf&Hbuf&HP'). unfold lined. cbn [fst snd]. rewrite app_assoc.
        split; [done|]. split; [by split|]. by exists buf.
Qed.

Lemma cell_raise n y m t k b : cell n y m t k b → cell n y (Z.max m (Z.of_nat n + 1)) t k b.
Proof. intros []. split; try done. lia. Qed.

Lemma read_line_spec fuel g x s buf m m2 h :
  rest_of g a c → stream_ok x → pair_at g a c (partial s m) (partial buf m2) h →
  Z.of_nat (length s + length buf + length (rest (parm x))) + maxBuffSz x + 2 < 2 ^ 30 →
  (length (rest (parm x)) < fuel)%nat →
  mwp (read_line fuel a c e stop x) h (lined g x s (length s) (line stop (buf ++ rest (parm x)))).
Proof.
  intros Hg Hx HP Hmax Hfuel. pose proof Hx as (Hbuff&Hf&Hsz&Heof). unfold read_line.
  on_c local_slen at HP; [done|]. apply pair_pure in HP as [(Hl&_) HP]. rewrite Hl, s32_small by lia.
  on_c (local_balloc c memory) at HP; [lia|]. apply pair_pure in HP as [-> HP]. cbn [Z.eqb negb BSTR_OK].
  eapply pair_mono_c in HP; [|intros t k b; apply cell_raise].
  set (M := Z.max _ _) in HP. assert (maxBuffSz x + 2 ≤ M ∧ Z.of_nat (length buf) + 1 ≤ M) as [HM HM'] by (unfold M; lia).
  on_c local_data at HP as p. on_c local_write at HP; [lia|cbn; lia|]. rewrite firstn_all in HP.
  destruct (seek_cases [] buf (rest (parm x))) as (j&Hj&Hst&Hno&Hline). change (seek stop p 0) with (seek stop p (Z.of_nat 0)).
  on_c local_seek at HP; [lia|exact Hst|exact Hno|]. apply pair_pure in HP as [-> HP].
  destruct (Z.ltb_spec (Z.of_nat j) (Z.of_nat (length buf))).
  - rewrite decide_False in Hline by lia. rewrite Hline.
    assert (length (take (S j) buf) = S j) as Htk by (rewrite length_take; lia).
    replace (Z.of_nat j + 1) with (Z.of_nat (length (take (S j) buf))) by lia.
    eapply append_view; [done|exact HP|rewrite length_app; lia|rewrite Htk, take_app_le by lia; done|lia|].
    clear h1 h2 h3 h4 h HP. intros h HP. on_c local_set_slen at HP; [lia|]. cbn [Z.eqb BSTR_OK].
    rewrite Htk. eapply pair_mono_c in HP; [|intros t k b [_ Hc]; exact Hc].
    on_c local_drop at HP; [lia|rewrite length_app; lia|lia|unfold INT_MAX; lia|]. apply mwp_ret.
    split; [|split; [done|]]; cbn [fst snd].
    + rewrite decide_False; [done|]. rewrite length_app, length_take. lia.
    + exists (drop (S j) buf). split; [done|]. eapply pair_mono_c; [done|]. intros t k b Hc.
      assert (slice (S j) (length buf - S j) (buf ++ [e]) = drop (S j) buf) as Heq.
      { unfold slice. rewrite drop_app_le, take_app_le by (rewrite ?length_drop; lia). apply take_ge. rewrite length_drop. lia. }
      rewrite Heq in Hc. eapply cell_less; [exact Hc|lia].
  - assert (j = length buf) as -> by lia. rewrite decide_True in Hline by done. rewrite Hline.
    on_a local_slen at HP; [done|].
    apply pair_pure_a in HP as [(Hs&_) HP]; [|done]. rewrite Hs.
    eapply append_view; [done|exact HP|rewrite length_app; lia|by rewrite take_app_length|lia|].
    clear HP. intros h' HP. cbn [Z.eqb negb BSTR_OK].
    eapply mwp_mono; [eapply (line_loop_spec fuel g x (s ++ buf) (length s)); [done|done| |rewrite length_app; lia|rewrite length_app; lia|done]|].
    + eapply pair_mono; [exact HP| |].
      * intros t k b Hb. apply (buffer_cell _ _ _ _ 1 Hb). lia.
      * intros t k b [_ Hc]. eapply cell_less; [exact Hc|lia].
    + intros ? ? (Hr1&Hlat&buf'&Hbuf&HP'). unfold lined. cbn [fst snd]. rewrite app_assoc. eauto.
Qed.
End Streams.
