(* ===== verification/BstrStream.v ===== *)
(** The requests to a stream of bstrlib.c (BstrIO), and what a program that opens one,
    asks and closes it gets: the bytes of the source, in order, each once, whatever
    the sizes of the reads, of the buffer and of the requests. *)
From S2P Require Import Prelude Bstr BstrMem BstrSpec BstrOps BstrFind BstrFindSpec BstrRefine BstrList BstrListSpec.
From S2P Require Import BstrIO BstrCell BstrPair BstrIOSpec BstrStreamSpec.
#[local] Open Scope Z_scope.

(** ** A string beside the two *)

Lemma pair_readable g a c A B d q s h :
  rest_of g a c → pair_at g a c A B h → readable g d q s → d ≠ a → d ≠ c →
  readable h d q s.
Proof.
  intros Hg (f&ta&ka&ba&tc&kc&bc&->&_&_&_&_&_&_&Hna&Hnc) [(t&Ht&Hd&Hl) (b&Hb&Hr)] Hda Hdc. split.
  - exists t. cbn. by rewrite !lookup_insert_ne.
  - exists b. cbn. rewrite !lookup_insert_ne; [done|intros E; rewrite E in Hna; congruence|intros E; rewrite E in Hnc; congruence].
Qed.

Lemma length_one {A} (l : list A) : Z.of_nat (length l) = 1 → ∃ y, l = [y].
Proof. destruct l as [|y [|? ?]]; cbn; [lia|eauto|lia]. Qed.
Lemma cons_of {A} (l : list A) : 1 ≤ Z.of_nat (length l) → ∃ y l', l = y :: l'.
Proof. destruct l; cbn; [lia|eauto]. Qed.

Section Requests.
Context `{AllocatorLaws}.
Hypothesis memory : plenty.
Context {P : Type} (f : bNread P) (rest : P → list Z) `{!Source f rest}.
Context (g : heap) (a c d : nat) (q : ptr) (term : list Z).
Hypothesis Hg : rest_of g a c.
Hypothesis Hd : readable g d q term.
Hypothesis Hda : d ≠ a.
Hypothesis Hdc : d ≠ c.
Hypothesis Hterm : bytes_ok term.

(** A string, with its NUL if [z]. *)
Definition text (z : bool) (s : list Z) (t : tagbstring) (k : nat) (b : list Z) : Prop :=
  partial s 1 t k b ∧ (z = true → buffer t k b s).
Lemma text_buffer s t k b : buffer t k b s → text true s t k b.
Proof using Type. clear. intros Hb. split; [|done]. apply (buffer_cell _ _ _ _ 1 Hb). lia. Qed.
Lemma text_partial s m t k b : cell (length s) s m t k b → text false s t k b.
Proof using Type. clear. intros Hc. split; [|done]. destruct Hc. split; try done. lia. Qed.

(** The string [a] holds [s], and the stream [x], whose buffer is [c], will deliver
    [all]. *)
Definition streaming (x : bStream P) (z : bool) (s all : list Z) (h : heap) : Prop :=
  stream_ok c f rest x ∧
  ∃ buf m, all = buf ++ rest (parm x) ∧ pair_at g a c (text z s) (partial buf m) h.

(** The answer to a request that takes [l] and leaves [all'] when the string holds
    [s]. *)
Definition served (x : bStream P) (s l all' : list Z) (r : Z * option (bStream P)) (h' : heap) : Prop :=
  r.1 = (if decide (l = []) then BSTR_ERR else BSTR_OK) ∧
  ∃ y z, r.2 = Some y ∧ maxBuffSz y = maxBuffSz x ∧ (l ≠ [] → z = true) ∧ streaming y z (s ++ l) all' h'.

Lemma streaming_mono x z s all h : streaming x z s all h → streaming x false s all h.
Proof.
  intros (Hx&buf&m&Hall&HP). split; [done|]. exists buf, m. split; [done|].
  eapply pair_mono; [done| |done]. intros t k b [Hc _]. by eapply text_partial.
Qed.

Lemma lined_served x s l r h' :
  lined a c f rest g x s (length s) l r h' → served x s l.1 l.2 (r.1, Some r.2) h'.
Proof.
  intros (Hr&[Hok Hsame]&buf&Hbuf&HP). split; cbn [fst snd].
  - rewrite Hr, length_app. destruct (decide (l.1 = [])) as [->|Hne].
    + rewrite decide_True by (cbn; lia). done.
    + rewrite decide_False; [done|]. destruct l.1; [done|cbn; lia].
  - exists r.2, true. split; [done|]. split; [done|]. split; [done|]. split; [exact Hok|]. exists buf, (maxBuffSz x + 1). split; [done|].
    eapply pair_mono; [done| |done]. intros t k b. apply text_buffer.
Qed.

(** The lengths stay in range. *)
Definition small (x : bStream P) (s all : list Z) : Prop :=
  Z.of_nat (length s + length all) + maxBuffSz x + 2 < 2 ^ 29.

Lemma live_parts x s buf : small x s (buf ++ rest (parm x)) →
  Z.of_nat (length s + length buf + length (rest (parm x))) + maxBuffSz x + 2 < 2 ^ 29.
Proof. unfold small. rewrite length_app. lia. Qed.

Lemma with_stream_spec (m : M (Z * bStream P)) x s l h :
  mwp m h (lined a c f rest g x s (length s) l) → mwp (with_stream m) h (served x s l.1 l.2).
Proof.
  intros Hm. apply mwp_bind. eapply mwp_mono; [exact Hm|]. intros [r y] h' Hl. apply mwp_ret.
  by apply lined_served in Hl.
Qed.

Lemma bsreadlna_spec fuel x z s all t h :
  streaming x z s all h → small x s all → (length all < fuel)%nat →
  let l := line (λ y, y =? u8 t) all in
  mwp (bsreadlna fuel (Some a) (Some x) t) h (served x s l.1 l.2).
Proof.
  intros (Hx&buf&m&->&HP) Hs%live_parts Hfuel l. rewrite length_app in Hfuel. pose proof Hx as (Hb&_&Hsz&_).
  unfold bsreadlna, on_stream. rewrite Hb. eapply pair_mono in HP; [|intros ??? [Hc _]; exact Hc|done].
  on_a local_slen at HP; [done|]. apply pair_pure_a in HP as [(_&_&->&_) HP]; [|done].
  apply with_stream_spec. eapply read_line_spec; [done|done|by rewrite Z.eqb_refl|done|done|done|lia|lia].
Qed.

(** The header of the string that is written. *)
Lemma streaming_hdr {B} x z s all h (k : tagbstring → M B) R :
  streaming x z s all h →
  (∀ t, slen t = Z.of_nat (length s) → unappendable t = false → 0 < mlen t → mwp (k t) h R) →
  mwp (hdr a ≫= k) h R.
Proof.
  intros (_&buf&m&_&f0&ta&ka&ba&tc&kc&bc&->&[Hc _]&_) HK. apply mwp_bind.
  apply (mwp_hdr_ne _ _ _ _ _ a ta); [apply Hg|cbn; by rewrite lookup_insert_eq|].
  apply HK; [apply Hc|apply (cell_guard _ _ _ _ _ _ Hc)..].
Qed.

(** ... with the room that there is. *)
Lemma streaming_room {B} x z s all h (k : tagbstring → M B) R :
  streaming x z s all h →
  (∀ t buf m, slen t = Z.of_nat (length s) → unappendable t = false → Z.of_nat (length s) < mlen t ≤ INT_MAX →
    stream_ok c f rest x → all = buf ++ rest (parm x) →
    pair_at g a c (cell (length s) s (mlen t)) (partial buf m) h → mwp (k t) h R) →
  mwp (hdr a ≫= k) h R.
Proof.
  intros (Hx&buf&m&Hall&f0&ta&ka&ba&tc&kc&bc&->&[Hc _]&HP) HK. apply mwp_bind.
  apply (mwp_hdr_ne _ _ _ _ _ a ta); [apply Hg|cbn; by rewrite lookup_insert_eq|].
  pose proof (cell_guard _ _ _ _ _ _ Hc) as (_&Hu&_). pose proof Hc as [? Hm ? ? Hmax ? ?].
  apply (HK ta buf m); [done|done|lia|done|done|]. exists f0, ta, ka, ba, tc, kc, bc.
  split; [done|]. split; [|done]. split; try done. lia.
Qed.

Lemma restart_spec x z s all h k R :
  streaming x z s all h → maxBuffSz x + 1 < 2 ^ 30 → (∀ h', streaming x false [] all h' → mwp k h' R) →
  mwp (restart a (Some x) k) h R.
Proof.
  intros (Hx&buf&m&->&HP) Hmax HK. pose proof Hx as (Hb&_&Hsz&_).
  unfold restart, on_stream. rewrite Hb, s32_small by lia.
  on_c (local_balloc c memory) at HP; [lia|]. apply pair_pure in HP as [-> HP]. cbn [Z.eqb negb BSTR_OK].
  eapply pair_mono in HP; [|intros ??? [Hc _]; exact Hc|intros ??? Hc; exact Hc].
  change (set_slen a 0) with (set_slen a (Z.of_nat 0)). on_a local_cell_slen at HP; [lia|].
  apply HK. split; [done|]. exists buf, (maxBuffSz x + 1 + 1). split; [done|]. eapply pair_mono; [done| |done].
  intros t k' b Hc. eapply (text_partial []), (cell_take 0 s 1 _ _ _ 0), Hc.
Qed.

Lemma small_nil x s all : small x s all → small x [] all.
Proof. unfold small. cbn. lia. Qed.
Lemma small_max x s all : small x s all → maxBuffSz x + 1 < 2 ^ 30.
Proof. unfold small. lia. Qed.

Lemma bsreadln_spec fuel x z s all t h :
  streaming x z s all h → small x s all → (length all < fuel)%nat →
  let l := line (λ y, y =? u8 t) all in
  mwp (bsreadln fuel (Some a) (Some x) t) h (served x [] l.1 l.2).
Proof.
  intros Hst Hs Hfuel l. unfold bsreadln, on_stream. rewrite (proj1 (proj1 Hst)).
  eapply streaming_hdr; [done|]. intros ta _ _ Hm. rewrite (proj2 (Z.leb_gt _ _)) by done.
  eapply restart_spec; [done|by eapply small_max|]. intros h' Hst'.
  eapply bsreadlna_spec; [done|by eapply small_nil|done].
Qed.

(** ** Several terminators *)

Lemma stream_arg x z s all h : streaming x z s all h → readable h d q term.
Proof. intros (_&buf&m&_&HP). by eapply pair_readable. Qed.

Lemma arg_hdr {B} x z s all h (k : tagbstring → M B) R :
  streaming x z s all h →
  (∀ t, slen t = Z.of_nat (length term) → no_data t = false → mwp (k t) h R) → mwp (hdr d ≫= k) h R.
Proof.
  intros Hst HK. destruct (stream_arg _ _ _ _ _ Hst) as [(t&Ht&Hq&Hl) _]. apply mwp_bind.
  eapply mwp_hdr; [done|]. apply HK; [done|]. unfold no_data. rewrite Hq. by apply bool_decide_eq_false_2.
Qed.
Lemma arg_first {B} x z s all h y l (k : Z → M B) R :
  streaming x z s all h → term = y :: l → mwp (k y) h R → mwp (first_byte d ≫= k) h R.
Proof.
  intros Hst Heq HK. pose proof (stream_arg _ _ _ _ _ Hst) as Hr. rewrite Heq in Hr.
  destruct Hr as [(t&Ht&Hq&Hl) Hb]. unfold first_byte. apply mwp_bind, mwp_bind. eapply mwp_hdr; [done|].
  apply mwp_bind, (mwp_tail h q (y :: l)); [done..|]. change 0 with (Z.of_nat 0).
  eapply mwp_lift; [apply (at_take _ (y :: l)); [by apply tail_of_bytes|done]|]. done.
Qed.

(** Nothing is asked when there is no terminator. *)
Definition lines_of (l : list Z) : list Z * list Z :=
  if decide (term = []) then ([], l) else line (member term) l.
Lemma refused x z s all h : streaming x z s all h → served x s [] all (BSTR_ERR, Some x) h.
Proof.
  intros Hst. split; [by rewrite decide_True|]. exists x, z. rewrite app_nil_r.
  split; [done|]. split; [done|]. split; [done|done].
Qed.

Lemma lines_of_one y all : term = [y] → lines_of all = line (λ z, z =? u8 y) all.
Proof.
  intros Heq. unfold lines_of. rewrite decide_False by (by rewrite Heq). apply line_ext, Forall_forall.
  intros z _. unfold member. rewrite Heq. apply eq_true_iff_eq.
  rewrite Heq in Hterm. apply Forall_cons_1 in Hterm as [Hy _].
  rewrite bool_decide_eq_true, list_elem_of_singleton, Z.eqb_eq. unfold u8. by rewrite Z.mod_small.
Qed.

Lemma bsreadlnsa_spec fuel x z s all h :
  streaming x z s all h → small x s all → bytes_ok all → (length all < fuel)%nat →
  let l := lines_of all in
  mwp (bsreadlnsa fuel (Some a) (Some x) (Some d)) h (served x s l.1 l.2).
Proof.
  intros Hst Hs Hall Hfuel l. unfold bsreadlnsa, on_stream. rewrite (proj1 (proj1 Hst)).
  eapply arg_hdr; [done|]. intros td Hld Hnd. eapply streaming_hdr; [done|]. intros ta _ Hu _.
  rewrite Hld, Hnd, Hu. cbn [orb]. destruct (Z.eqb_spec (Z.of_nat (length term)) 1) as [H1|H1].
  { destruct (length_one term) as [y Heq]; [lia|]. eapply arg_first; [done|done|].
    unfold l. rewrite (lines_of_one y) by done. eapply bsreadlna_spec; [exact Hst|done|done]. }
  destruct (Z.ltb_spec (Z.of_nat (length term)) 1).
  { assert (term = []) as Heq by (apply nil_length_inv; lia). apply mwp_ret. unfold l, lines_of.
    rewrite decide_True by done. by eapply refused. }
  assert (∃ y l, term = y :: l) as (y&l'&Heq) by by apply cons_of.
  pose proof (stream_arg _ _ _ _ _ Hst) as Hr.
  apply mwp_bind. eapply mwp_mono; [by eapply buildCharField_spec|]. intros ? ? [-> ->].
  rewrite decide_False by (by rewrite Heq).
  eapply arg_first; [done|done|]. destruct Hst as (Hx&buf&m&->&HP). apply live_parts in Hs.
  rewrite length_app in Hfuel. apply with_stream_spec.
  assert (l = line (testInCharField (foldl setInCharField (replicate CFCLEN 0) term)) (buf ++ rest (parm x))) as Hl.
  { unfold l, lines_of. rewrite decide_False by (by rewrite Heq). symmetry. apply line_ext.
    eapply Forall_impl; [exact Hall|]. intros y' Hy'. by apply test_members. }
  rewrite Hl. eapply read_line_spec; [done|done| |done|done| |lia|lia].
  - pose proof Hterm as Hy. rewrite Heq in Hy. apply Forall_cons_1 in Hy as [Hy _].
    rewrite test_members by done. apply bool_decide_eq_true_2. rewrite Heq. by left.
  - eapply pair_mono; [exact HP| |by intros]. by intros t k b [Hc _].
Qed.

Lemma bsreadlns_spec fuel x z s all h :
  streaming x z s all h → small x s all → bytes_ok all → (length all < fuel)%nat →
  let l := lines_of all in
  mwp (bsreadlns fuel (Some a) (Some x) (Some d)) h
    (served x (if decide (term = []) then s else []) l.1 l.2).
Proof.
  intros Hst Hs Hall Hfuel l. unfold bsreadlns, on_stream. rewrite (proj1 (proj1 Hst)).
  eapply arg_hdr; [done|]. intros td Hld Hnd. eapply streaming_hdr; [done|]. intros ta _ _ Hm.
  rewrite Hld, Hnd, (proj2 (Z.leb_gt _ _)) by done. cbn [orb].
  destruct (Z.eqb_spec (Z.of_nat (length term)) 1) as [H1|H1].
  { destruct (length_one term) as [y Heq]; [lia|]. eapply arg_first; [done|done|].
    unfold l. rewrite (lines_of_one y), decide_False by (done || by rewrite Heq).
    eapply bsreadln_spec; [exact Hst|done|done]. }
  destruct (Z.ltb_spec (Z.of_nat (length term)) 1).
  { assert (term = []) as Heq by (apply nil_length_inv; lia). apply mwp_ret. unfold l, lines_of.
    rewrite !decide_True by done. by eapply refused. }
  destruct (cons_of term) as (y&l'&Heq); [lia|]. rewrite decide_False by (by rewrite Heq).
  eapply restart_spec; [done|by eapply small_max|]. intros h' Hst'.
  eapply bsreadlnsa_spec; [exact Hst'|by eapply small_nil|done|done].
Qed.


(** ** A number of bytes *)

(** The answer to a request for [n] bytes: one or more if there are any, and all of
    them when the source reads in full. *)
Definition got (n : nat) (x : bStream P) (s all : list Z) (r : Z * option (bStream P)) (h' : heap) : Prop :=
  ∃ k, (0 < k ≤ n)%nat ∧ (FullSource f rest → k = n) ∧ served x s (take k all) (drop k all) r h'.

Lemma pair_hdr_c {B} A n y m h (k : tagbstring → M B) R :
  pair_at g a c A (cell n y m) h →
  (∀ t, slen t = Z.of_nat n → (∃ j, data t = Some (Ptr j 0) ∧ j ≠ blk q) ∧ unreadable t = false ∧
    Z.of_nat n < mlen t → mwp (k t) h R) → mwp (hdr c ≫= k) h R.
Proof.
  intros (f0&ta&ka&ba&tc&kc&bc&->&_&Hc&_&_&_&_&_&Hnc) HK. apply mwp_bind, mwp_hdr_eq, HK; [by apply Hc|].
  pose proof (cell_guard _ _ _ _ _ _ Hc) as (Hw&_&Hn&_). pose proof (cell_mlen _ _ _ _ _ _ Hc) as Hm.
  pose proof (cell_in _ _ _ _ _ _ Hc). split; [|split; [|lia]].
  - exists kc. split; [by apply Hc|]. destruct (rd_bytes _ _ _ _ Hd) as (b&Hb&_). intros E. rewrite <- E in Hb. congruence.
  - unfold unreadable, unwritable in *. rewrite Hn, (cell_slen _ _ _ _ _ _ Hc). cbn. apply Z.ltb_ge. lia.
Qed.

(** The read into the string itself, when nothing is buffered and there is room. *)
Lemma direct_read x s n m m2 h :
  stream_ok c f rest x → pair_at g a c (cell (length s) s m) (cell 0 [] m2) h →
  (0 < n)%nat → Z.of_nat (length s + n) + 1 ≤ m → Z.of_nat (length s + n) < 2 ^ 30 →
  mwp (p ← get_data a;
       '(l, x) ← core_read x p (Z.of_nat (length s)) (Z.of_nat n);
       if (l <=? 0) || (Z.of_nat n <? l) then mret (BSTR_ERR, Some (set_eof x true))
       else
         set_slen a (Z.of_nat (length s) + l);;
         t ← hdr a; p ← get_data a; store p (slen t) 0;; mret (0, Some x)) h
    (got n x s (rest (parm x))).
Proof.
  intros Hx HP Hn Hm Hmax. pose proof Hx as (Hb&Hf&Hsz&Heof). on_a local_data at HP as p.
  destruct (local_core_read c f rest a x p (length s) s m (length s) (Z.of_nat n))
    as (l&q'&(Hl&Hr&Hnil&Hfq)&Hread); [done|lia|lia|lia|].
  on_a Hread at HP. apply pair_pure_a in HP as [-> HP]; [|done]. rewrite firstn_all in HP.
  rewrite (proj2 (Z.ltb_ge (Z.of_nat n) _)), orb_false_r by lia.
  assert (Hok : ∀ e, (e = true → rest q' = []) → stream_ok c f rest (set_eof (set_parm x q') e)) by
    (intros e He; by split; [|split; [|split]]).
  destruct (Z.leb_spec (Z.of_nat (length l)) 0) as [Hz|Hz].
  - assert (l = []) as -> by (destruct l; [done|cbn in *; lia]). rewrite (Hnil eq_refl) in *.
    cbn in Hr. apply mwp_ret. exists n. split; [lia|]. split; [done|]. rewrite take_nil, drop_nil.
    split; [by rewrite decide_True|]. eexists _, false. split; [done|]. split; [done|]. split; [done|].
    split; [by apply Hok|]. exists [], m2. split; [done|]. eapply pair_mono; [done| |done].
    intros t k b [_ Hc]. eapply (text_partial (s ++ [])). rewrite app_nil_r in *. exact Hc.
  - rewrite <- Nat2Z.inj_add, <- length_app. on_a local_set_slen at HP; [rewrite length_app; lia|].
    on_a cell_at_slen at HP; [done|]. apply pair_pure_a in HP as [-> HP]; [|done].
    on_a cell_at_data at HP. apply pair_pure_a in HP as [-> HP]; [|done].
    on_a local_close at HP; [rewrite length_app; lia|done|]. apply mwp_ret.
    exists (if decide (rest q' = []) then n else length l). split; [case_decide; lia|]. split.
    { intros Hfull. case_decide as Hne; [done|]. destruct (decide (length l = n)) as [|Hnl]; [done|].
      exfalso. apply Hne. eapply full_read; [|exact Hfq|]; lia. }
    assert (∃ k, k = (if decide (rest q' = []) then n else length l) ∧ take k (l ++ rest q') = l ∧
      drop k (l ++ rest q') = rest q') as (k&<-&Htk&Hdk).
    { eexists. split; [done|]. case_decide as Hq.
      - rewrite Hq, app_nil_r. split; [apply take_ge; lia|apply drop_ge; lia].
      - by rewrite take_app_length, drop_app_length. }
    rewrite Hr, Htk, Hdk. assert (l ≠ []) as Hne by (intros ->; cbn in *; lia).
    split; [by rewrite decide_False|]. eexists _, true. split; [done|]. split; [done|]. split; [done|].
    split; [apply (Hok (isEOF x)); intros He; specialize (Heof He); rewrite Hr in Heof; by destruct l|].
    exists [], m2. split; [done|]. eapply pair_mono; [done| |done]. intros t j b [_ Hbf]. by apply text_buffer.
Qed.

Lemma bsreada_spec fuel x z s all n h :
  streaming x z s all h → small x s all → (0 < n)%nat → Z.of_nat (length s + n) + 4 < 2 ^ 30 →
  (length all < fuel)%nat →
  mwp (bsreada fuel (Some a) (Some x) (Z.of_nat n)) h (got n x s all).
Proof.
  intros Hst Hs Hn Hmax Hfuel. unfold bsreada, on_stream. rewrite (proj1 (proj1 Hst)).
  eapply streaming_room; [done|]. intros t buf m Hl Hu Hm Hx -> HP. apply live_parts in Hs.
  rewrite length_app in Hfuel. rewrite Hl, Hu, (proj2 (Z.leb_gt _ _)) by lia. cbn [orb].
  rewrite s32_small, (proj2 (Z.leb_gt _ _)) by lia. pose proof Hx as (Hb&Hf&Hsz&Heof).
  eapply pair_hdr_c; [done|]. intros tb Hlb _. rewrite Hlb.
  match goal with |- mwp (if _ then _ else ?R) _ _ => assert (mwp R h (got n x s (buf ++ rest (parm x)))) as Hloop end.
  { rewrite s32_small by lia. on_c (local_balloc c memory) at HP; [lia|]. apply pair_pure in HP as [-> HP].
    cbn [Z.eqb negb BSTR_OK]. eapply pair_mono_c in HP; [|intros ???; apply cell_raise].
    on_c local_data at HP as p. replace (Z.of_nat n + Z.of_nat (length s)) with (Z.of_nat (length s + n)) by lia.
    eapply mwp_mono; [apply (with_stream_spec _ x s (take n (buf ++ rest (parm x)), drop n (buf ++ rest (parm x))))|].
    - replace n with (length s + n - length s)%nat at 2 3 by lia.
      eapply reada_loop_spec; [done|done|done|done|exact HP|lia..].
    - intros r h' Hr. exists n. split; [lia|]. split; [done|done]. }
  destruct (Z.eqb_spec (Z.of_nat (length buf)) 0) as [Hz|Hz]; [|done].
  assert (buf = []) as -> by (apply nil_length_inv; lia). cbn [app] in *.
  destruct (isEOF x) eqn:He.
  - rewrite (Heof eq_refl) in *. apply mwp_ret. exists n. split; [lia|]. split; [done|].
    rewrite take_nil, drop_nil. by eapply refused.
  - destruct (Z.ltb_spec (Z.of_nat n + Z.of_nat (length s)) (mlen t)); [|done].
    replace (Z.of_nat n + Z.of_nat (length s) - Z.of_nat (length s)) with (Z.of_nat n) by lia.
    eapply direct_read; [done|exact HP|done|lia|lia].
Qed.

Lemma bsread_spec fuel x z s all n h :
  streaming x z s all h → small x s all → (0 < n)%nat → Z.of_nat n + 4 < 2 ^ 30 → (length all < fuel)%nat →
  mwp (bsread fuel (Some a) (Some x) (Z.of_nat n)) h (got n x [] all).
Proof.
  intros Hst Hs Hn Hmax Hfuel. unfold bsread, on_stream. rewrite (proj1 (proj1 Hst)).
  eapply streaming_hdr; [done|]. intros t _ _ Hm. rewrite !(proj2 (Z.leb_gt _ _)) by lia. cbn [orb].
  eapply restart_spec; [done|by eapply small_max|]. intros h' Hst'.
  eapply bsreada_spec; [done|by eapply small_nil|done|cbn; lia|done].
Qed.

(** ** What is in the buffer *)

Lemma bseof_spec x z s all h :
  streaming x z s all h →
  mwp (bseof (Some x)) h (λ r h', h' = h ∧ (r = 0 ∨ r = 1 ∧ all = [])).
Proof.
  intros ((Hb&Hf&_&Heof)&buf&m&->&HP). unfold bseof. rewrite Hf, Hb. destruct (isEOF x) eqn:He.
  - apply mwp_bind, mwp_ret. eapply pair_hdr_c; [done|]. intros t Hl _. rewrite Hl, (Heof eq_refl), app_nil_r.
    apply mwp_ret. split; [done|]. destruct (Z.eqb_spec (Z.of_nat (length buf)) 0) as [Hz|]; [right|by left].
    split; [done|]. apply nil_length_inv. lia.
  - apply mwp_ret. auto.
Qed.

Lemma bsbufflength_spec x z s all sz h :
  streaming x z s all h → 0 ≤ sz < 2 ^ 28 →
  ∃ y, bsbufflength (Some x) sz = (maxBuffSz x, Some y) ∧ maxBuffSz y = (if decide (0 < sz) then sz else maxBuffSz x) ∧
    streaming y z s all h.
Proof using Type.
  clear. intros ((Hb&Hf&Hs&Heof)&HP) Hsz. unfold bsbufflength. rewrite (proj2 (Z.ltb_ge sz 0)) by lia.
  destruct (Z.ltb_spec 0 sz); [rewrite decide_True by done|rewrite decide_False by lia].
  - eexists. split; [done|]. split; [done|]. split; [|exact HP].
    split; [done|]. split; [done|]. split; [cbn; lia|done].
  - eexists. split; [done|]. split; [done|]. split; [|exact HP]. by split; [|split; [|split]].
Qed.

(** The string is made a copy of the buffer. *)
Lemma bspeek_spec x z s all h :
  streaming x z s all h → small x s all →
  mwp (bspeek (Some a) (Some x)) h (λ r h', r = BSTR_OK ∧ ∃ buf left, all = buf ++ left ∧ streaming x true buf all h').
Proof.
  intros (Hx&buf&m&->&HP) Hs%live_parts. pose proof Hx as (Hb&_&Hsz&_). unfold bspeek, bassign. rewrite Hb.
  eapply pair_mono in HP; [|intros ??? [Hc _]; exact Hc|done].
  eapply pair_hdr_c; [done|]. intros tc Hl (_&->&_). rewrite Hl.
  assert (Hend : ∀ n y m2 h, take (length buf) y = buf → (length buf ≤ length y)%nat → Z.of_nat (length buf) < m2 →
    pair_at g a c (cell n y m2) (partial buf m) h →
    mwp (p ← get_data a; store p (Z.of_nat (length buf)) 0;; set_slen a (Z.of_nat (length buf));; mret BSTR_OK) h
      (λ r h', r = BSTR_OK ∧ ∃ buf' left, buf ++ rest (parm x) = buf' ++ left ∧
        streaming x true buf' (buf ++ rest (parm x)) h')).
  { clear h HP. intros n y m2 h Hy Hly Hm2 HP. on_a local_data at HP.
    on_a local_write at HP; [done|cbn; lia|]. rewrite Hy in HP.
    on_a local_set_slen at HP; [lia|]. apply mwp_ret. split; [done|]. exists buf, (rest (parm x)).
    split; [done|]. split; [done|]. exists buf, m. split; [done|]. eapply pair_mono; [done| |done].
    intros t k b [_ Hc]. by apply text_buffer, (cell_buffer _ m2). }
  destruct (Z.eqb_spec (Z.of_nat (length buf)) 0) as [Hz|Hz].
  - on_a local_slen at HP; [done|]. apply pair_pure_a in HP as [(_&Hw&_&_&Hm&_) HP]; [|done].
    unfold unwritable in Hw. rewrite !orb_false_iff in Hw. destruct Hw as [[[-> ->] ->] _].
    rewrite (proj2 (Z.eqb_neq _ _)) by lia. cbn [orb].
    assert (buf = []) as -> by (apply nil_length_inv; lia). eapply (Hend _ s 1); [done|cbn; lia|cbn; lia|done].
  - on_a (local_balloc a memory) at HP; [lia|]. apply pair_pure_a in HP as [-> HP]; [|done]. cbn [Z.eqb BSTR_OK].
    on_a local_data at HP as p. on_c local_data at HP as p2.
    change (memmove p 0 p2 0) with (memmove p (Z.of_nat 0) p2 (Z.of_nat 0)).
    eapply (pair_move _ _ _ _ _ _ _ _ 0 _ _ _ 0 buf); [done|exact HP|lia|lia|lia| |].
    { unfold slice. by rewrite drop_0, firstn_all. }
    intros hm HPm. eapply Hend; [| | |eapply pair_mono; [exact HPm| |]].
    + cbn. apply firstn_all.
    + cbn. lia.
    + instantiate (1 := Z.of_nat (length buf) + 1). lia.
    + by intros t k b [_ Hc].
    + by intros t k b [_ Hc].
Qed.

(** What was pushed back comes first. *)
Lemma bsunread_spec x z s all h :
  streaming x z s all h → small x s all → Z.of_nat (length all + length term) < 2 ^ 29 →
  mwp (bsunread (Some x) (Some d)) h (λ r h', r = BSTR_OK ∧ streaming x z s (term ++ all) h').
Proof.
  intros Hst Hs Hmax. pose proof Hst as (Hx&buf&m&->&HP). rewrite length_app in Hmax. pose proof Hx as (Hb&_&Hsz&_).
  unfold bsunread, binsert. rewrite Hb. eapply pair_hdr_c; [done|]. intros tc Hl ((j&Hj&Hne)&Hu&Hm).
  destruct (stream_arg _ _ _ _ _ Hst) as [(td&Htd&Hq&Hld) Hbytes]. apply mwp_bind. eapply mwp_hdr; [done|].
  rewrite Hl, Hld, !(proj2 (Z.ltb_ge _ _)), (proj2 (Z.leb_gt _ _)), Hq, Hj by lia. cbn [orb].
  unfold inside. rewrite bool_decide_eq_false_2 by (cbn; auto). cbn [andb copy_if]. apply mwp_bind, mwp_ret, mwp_bind.
  eapply mwp_hdr; [done|]. rewrite Hld, !s32_small by lia.
  rewrite (proj2 (Z.ltb_ge _ 0)) by (apply Z.lor_nonneg; lia). rewrite (proj2 (Z.ltb_ge _ _)) by lia.
  unfold reserve. on_c (local_balloc c memory) at HP; [lia|]. apply pair_pure in HP as [-> HP]. cbn [Z.eqb BSTR_OK].
  on_c local_data at HP as p. rewrite !Z.add_0_l.
  replace (Z.of_nat (length buf) + Z.of_nat (length term) - Z.of_nat (length term)) with (Z.of_nat (length buf)) by lia.
  on_c local_shift_up at HP; [lia|].
  apply pair_exists in HP as [y HP]. apply pair_pure in HP as [Hy HP].
  replace (Z.of_nat (length buf) + Z.of_nat (length term)) with (Z.of_nat (length (term ++ buf))) in *
    by (rewrite length_app; lia).
  on_c local_set_slen at HP; [lia|]. on_c cell_at_data at HP. apply pair_pure in HP as [-> HP].
  pose proof (pair_readable _ _ _ _ _ _ _ _ _ Hg HP Hd Hda Hdc) as [(te&Hte&Hqe&Hle) Hbe].
  eapply (mwp_bind _ _ _ _). eapply (mwp_mono _ _ (λ _ h', ∃ m', Z.of_nat (length (term ++ buf)) < m' ∧
    pair_at g a c (text z s) (cell_at p (length (term ++ buf)) (term ++ buf) m') h')).
  { unfold copy_from. apply mwp_bind. eapply mwp_hdr; [done|]. rewrite Hle.
    destruct (Z.ltb_spec 0 (Z.of_nat (length term))).
    - apply mwp_bind. eapply mwp_get_data_any; [done..|]. apply mwp_bind, mwp_read_bytes; [done|].
      eapply mwp_mono; [eapply pair_local; [done| |exact HP]|].
      + apply local_overwrite; [done|]. rewrite length_app. lia.
      + intros [] h' HP'. eexists. split; [|exact HP']. lia.
    - assert (term = []) as Ht by (apply nil_length_inv; lia). apply mwp_ret.
      exists (Z.of_nat (length (term ++ buf)) + 1 + 1). split; [lia|].
      apply (f_equal length) in Ht as Hlt. destruct y; [|cbn in *; lia]. rewrite Ht in *. exact HP. }
  intros [] h' (m'&Hm'&HP'). on_c cell_at_slen at HP'; [done|]. apply pair_pure in HP' as [-> HP'].
  on_c local_write at HP'; [lia|cbn; lia|]. rewrite firstn_all in HP'.
  unfold release. rewrite decide_True by done. apply mwp_bind, mwp_ret, mwp_ret. split; [done|].
  split; [done|]. exists (term ++ buf), m'. rewrite app_assoc. split; [done|]. eapply pair_mono_c; [done|].
  intros t k b [_ Hc]. apply (cell_take _ _ _ _ _ _ (length (term ++ buf))) in Hc. by rewrite take_app_length in Hc.
Qed.
End Requests.
