(* ===== verification/BstrSession.v ===== *)
(** A program that opens a stream of bstrlib.c, asks for lines, sets of terminators and
    numbers of bytes, pushes bytes back, looks at what is buffered, and closes it. *)
From S2P Require Import Prelude Bstr BstrMem BstrSpec BstrOps BstrFind BstrFindSpec BstrRefine BstrList BstrListSpec.
From S2P Require Import BstrIO BstrCell BstrPair BstrIOSpec BstrStreamSpec BstrStream.
#[local] Open Scope Z_scope.

(** ** Requests *)

Inductive request :=
| Readln (t : Z)
| Readlna (t : Z)
| Readlns
| Readlnsa
| Read (n : nat)
| Reada (n : nat)
| Unread
| Peek
| Eof
| Bufflength (sz : Z).

(** What may be asked. *)
Definition askable (r : request) : Prop :=
  match r with
  | Read n | Reada n => (0 < n)%nat ∧ Z.of_nat n < 2 ^ 27
  | Bufflength sz => 0 ≤ sz < 2 ^ 27
  | _ => True
  end.

(** BSTR_ERR says that there was nothing. *)
Definition answer (l : list Z) : Z := if decide (l = []) then BSTR_ERR else BSTR_OK.

(** One request to a stream that will deliver the third argument, with [s] in the
    string it reads into: the answer, the string and what is left. [term] is the
    string of terminators, and what is pushed back; [full] says that the source reads
    in full. *)
Inductive serves (full : Prop) (term : list Z) : request → list Z → list Z → Z → list Z → list Z → Prop :=
| serves_readln t s all : let l := line (λ y, y =? u8 t) all in
    serves full term (Readln t) s all (answer l.1) l.1 l.2
| serves_readlna t s all : let l := line (λ y, y =? u8 t) all in
    serves full term (Readlna t) s all (answer l.1) (s ++ l.1) l.2
| serves_readlns s all : term ≠ [] → let l := line (member term) all in
    serves full term Readlns s all (answer l.1) l.1 l.2
| serves_readlnsa s all : term ≠ [] → let l := line (member term) all in
    serves full term Readlnsa s all (answer l.1) (s ++ l.1) l.2
| serves_no_terminator r s all : term = [] → r = Readlns ∨ r = Readlnsa →
    serves full term r s all BSTR_ERR s all
| serves_read n k s all : (0 < k ≤ n)%nat → (full → k = n) →
    serves full term (Read n) s all (answer (take k all)) (take k all) (drop k all)
| serves_reada n k s all : (0 < k ≤ n)%nat → (full → k = n) →
    serves full term (Reada n) s all (answer (take k all)) (s ++ take k all) (drop k all)
| serves_unread s all : serves full term Unread s all BSTR_OK s (term ++ all)
| serves_peek s buf left : serves full term Peek s (buf ++ left) BSTR_OK buf (buf ++ left)
| serves_eof s all r : r = 0 ∨ r = 1 ∧ all = [] → serves full term Eof s all r s all
| serves_bufflength sz old s all : serves full term (Bufflength sz) s all old s all.

(** A list of requests: after each one, its answer and what the string holds. *)
Inductive session (full : Prop) (term : list Z) :
    list request → list Z → list Z → list (Z * list Z) → list Z → list Z → Prop :=
| session_end s all : session full term [] s all [] s all
| session_next r rs s all z s' all' l s'' all'' :
    serves full term r s all z s' all' → session full term rs s' all' l s'' all'' →
    session full term (r :: rs) s all ((z, s') :: l) s'' all''.

Section Run.
Context `{Allocator} {P : Type}.

Definition ask (fuel : nat) (a d : nat) (r : request) (s : option (bStream P)) : M (Z * option (bStream P)) :=
  match r with
  | Readln t => bsreadln fuel (Some a) s t
  | Readlna t => bsreadlna fuel (Some a) s t
  | Readlns => bsreadlns fuel (Some a) s (Some d)
  | Readlnsa => bsreadlnsa fuel (Some a) s (Some d)
  | Read n => bsread fuel (Some a) s (Z.of_nat n)
  | Reada n => bsreada fuel (Some a) s (Z.of_nat n)
  | Unread => z ← bsunread s (Some d); mret (z, s)
  | Peek => z ← bspeek (Some a) s; mret (z, s)
  | Eof => z ← bseof s; mret (z, s)
  | Bufflength sz => mret (bsbufflength s sz)
  end.

Fixpoint asks (fuel : nat) (a d : nat) (rs : list request) (s : option (bStream P))
    : M (list (Z * list Z) * option (bStream P)) :=
  match rs with
  | [] => mret ([], s)
  | r :: rs =>
      '(z, s) ← ask fuel a d r s; x ← contents a;
      '(l, s) ← asks fuel a d rs s; mret ((z, x) :: l, s)
  end.

(** The stream is opened on [f], asked, and closed. *)
Definition visit (fuel : nat) (a d : nat) (rs : list request) (f : bNread P) (p : P)
    : M (list (Z * list Z) * option P) :=
  s ← bsopen (Some f) p;
  '(l, s) ← asks fuel a d rs s;
  p ← bsclose s; mret (l, p).
End Run.

Section Session.
Context `{AllocatorLaws}.
Hypothesis memory : plenty.
Context {P : Type} (f : bNread P) (rest : P → list Z) `{!Source f rest}.
Context (g : heap) (a c d : nat) (q : ptr) (term : list Z).
Hypothesis Hg : rest_of g a c.
Hypothesis Hd : readable g d q term.
Hypothesis Hda : d ≠ a.
Hypothesis Hdc : d ≠ c.
Hypothesis Hterm : bytes_ok term.

Lemma line_split stop l x y : line stop l = (x, y) → l = x ++ y.
Proof. intros E. rewrite <- (line_app stop l), E. done. Qed.

(** A bound on what the string and the stream hold, that grows with each byte that
    is pushed back. *)
Definition bounded (B : nat) (x : bStream P) (s all : list Z) : Prop :=
  (length all ≤ B)%nat ∧ (length s + length all ≤ 2 * B)%nat ∧ Z.of_nat B < 2 ^ 27 ∧ maxBuffSz x < 2 ^ 27 ∧
  bytes_ok all.

Lemma bounded_small B x s all : bounded B x s all → small x s all.
Proof. unfold bounded, small. lia. Qed.

Lemma serves_bounded full r s all z s' all' B :
  serves full term r s all z s' all' → (length all ≤ B)%nat → (length s + length all ≤ 2 * B)%nat → bytes_ok all →
  (length all' ≤ B + length term)%nat ∧ (length s' + length all' ≤ 2 * (B + length term))%nat ∧ bytes_ok all'.
Proof.
  intros Hs HB Hsum Hall.
  assert (Hcut : ∀ x y, all = x ++ y → (length x + length y = length all)%nat ∧ bytes_ok y).
  { intros x y E. rewrite E in *. rewrite length_app. apply Forall_app in Hall as [_ ?]. done. }
  destruct Hs; try (destruct l as [x y] eqn:El; apply line_split in El; destruct (Hcut _ _ El)); cbn [fst snd];
    rewrite ?length_app in *; try (destruct (Hcut (take k all) (drop k all)); [by rewrite take_drop|]);
    (split; [lia|split; [lia|]]); try done.
  by apply Forall_app.
Qed.

Abbreviation full := (FullSource f rest) (only parsing).
Abbreviation live x z s all := (streaming f rest g a c x z s all) (only parsing).

(** The outcome of a request. *)
Definition asked (x : bStream P) (r : request) (s all : list Z) (res : Z * option (bStream P)) (h' : heap) : Prop :=
  ∃ y z' s' all', res.2 = Some y ∧ serves full term r s all res.1 s' all' ∧ maxBuffSz y < 2 ^ 27 ∧
    live y z' s' all' h'.

Lemma served_asked x r s l res s0 all h' :
  served f rest g a c x s l.1 l.2 res h' → maxBuffSz x < 2 ^ 27 →
  serves full term r s0 all (answer l.1) (s ++ l.1) l.2 → asked x r s0 all res h'.
Proof.
  intros (Hr&y&z'&Hy&Hsz&_&Hst) Hx Hs. exists y, z', (s ++ l.1), l.2.
  split; [done|]. split; [by rewrite Hr|]. split; [lia|done].
Qed.
Lemma got_asked x r s n res s0 all h' :
  got f rest g a c n x s all res h' → maxBuffSz x < 2 ^ 27 →
  (∀ k, (0 < k ≤ n)%nat → (full → k = n) →
    serves full term r s0 all (answer (take k all)) (s ++ take k all) (drop k all)) → asked x r s0 all res h'.
Proof.
  intros (k&Hk&Hf&Hs) Hx Hr. eapply (served_asked x r s (take k all, drop k all)); [exact Hs|done|]. by apply Hr.
Qed.

Lemma ask_spec fuel x z s all B r h :
  live x z s all h → bounded B x s all → askable r → (B < fuel)%nat → Z.of_nat (length term) < 2 ^ 28 →
  mwp (ask fuel a d r (Some x)) h (asked x r s all).
Proof.
  intros Hst HB Hr Hfuel Ht. pose proof (bounded_small _ _ _ _ HB) as Hs.
  destruct HB as (Hall&Hsum&HBm&Hsz&Hok). assert (length all < fuel)%nat as Hf by lia.
  assert (Hun : ∀ (m : M Z) s' all', mwp m h (λ ret h', ∃ z', serves full term r s all ret s' all' ∧ live x z' s' all' h') →
    mwp (ret ← m; mret (ret, Some x)) h (asked x r s all)).
  { intros m s' all' Hm. apply mwp_bind. eapply mwp_mono; [exact Hm|]. intros ret h' (z'&?&?). apply mwp_ret.
    exists x, z', s', all'. done. }
  destruct r as [t|t| | |n|n| | | |sz]; cbn [ask askable] in *.
  - eapply mwp_mono; [by eapply bsreadln_spec|]. intros res h' Hres. eapply served_asked; [done|done|constructor].
  - eapply mwp_mono; [by eapply bsreadlna_spec|]. intros res h' Hres. eapply served_asked; [done|done|constructor].
  - eapply mwp_mono; [by eapply bsreadlns_spec|]. intros res h' Hres. eapply served_asked; [done|done|].
    unfold lines_of. case_decide as Hnil; cbn [fst snd]; [rewrite app_nil_r|]; by constructor; auto.
  - eapply mwp_mono; [by eapply bsreadlnsa_spec|]. intros res h' Hres. eapply served_asked; [done|done|].
    unfold lines_of. case_decide as Hnil; cbn [fst snd]; [rewrite app_nil_r|]; by constructor; auto.
  - eapply mwp_mono; [eapply bsread_spec; [done..|lia|lia|done]|]. intros res h' Hres.
    eapply got_asked; [done|done|]. intros k Hk Hkn. by constructor.
  - eapply mwp_mono; [eapply bsreada_spec; [done..|lia|lia|done]|]. intros res h' Hres.
    eapply got_asked; [done|done|]. intros k Hk Hkn. by constructor.
  - apply (Hun _ s (term ++ all)). eapply mwp_mono; [eapply bsunread_spec; try done; lia|]. intros ret h' [-> Hst'].
    exists z. split; [constructor|done].
  - apply mwp_bind. eapply mwp_mono; [by eapply bspeek_spec|]. intros ret h' (->&buf&left&->&Hst'). apply mwp_ret.
    exists x, true, buf, (buf ++ left). split; [done|]. split; [constructor|done].
  - apply (Hun _ s all). eapply mwp_mono; [by eapply (bseof_spec f rest g a c d q term Hd)|]. intros ret h' [-> Hret]. exists z.
    split; [by constructor|done].
  - destruct (bsbufflength_spec f rest g a c x z s all sz h) as (y&->&Hy&Hst'); [done|lia|].
    apply mwp_ret. exists y, z, s, all. split; [done|]. split; [constructor|]. split; [rewrite Hy; case_decide; lia|done].
Qed.

Lemma contents_spec x z s all h : live x z s all h → mwp (contents a) h (λ r h', h' = h ∧ r = s).
Proof.
  intros (_&buf&m&_&f0&ta&ka&ba&tc&kc&bc&->&[Hc _]&_&_&Hk&_). unfold contents. apply mwp_bind.
  apply (mwp_hdr_ne _ _ _ _ _ a ta); [apply Hg|cbn; by rewrite lookup_insert_eq|]. apply mwp_bind.
  eapply mwp_get_data_any; [|by apply Hc|].
  { cbn. rewrite lookup_insert_ne; [by rewrite lookup_insert_eq|]. intros E. by apply (rest_ne _ _ _ Hg). }
  rewrite (cell_slen _ _ _ _ _ _ Hc). pose proof (cell_fits _ _ _ _ _ _ Hc).
  eapply (mwp_read_any _ _ _ _ ba); [cbn; rewrite lookup_insert_ne; [by rewrite lookup_insert_eq|done]|
    unfold in_range; cbn; lia|]. split; [done|]. cbn. rewrite Nat2Z.id. unfold slice. rewrite drop_0. apply Hc.
Qed.

Lemma asks_spec fuel rs : ∀ x z s all B h,
  live x z s all h → Forall askable rs → bounded B x s all →
  Z.of_nat (B + length term * length rs) < 2 ^ 27 → (B + length term * length rs < fuel)%nat →
  Z.of_nat (length term) < 2 ^ 28 →
  mwp (asks fuel a d rs (Some x)) h (λ res h', ∃ y z' s' all',
    res.2 = Some y ∧ session full term rs s all res.1 s' all' ∧ live y z' s' all' h').
Proof.
  induction rs as [|r rs IH]; intros x z s all B h Hst Hrs HB Hmax Hfuel Ht; cbn [asks].
  { apply mwp_ret. exists x, z, s, all. split; [done|]. split; [constructor|done]. }
  apply Forall_cons_1 in Hrs as [Hr Hrs]. cbn [length] in *. apply mwp_bind.
  eapply mwp_mono; [eapply ask_spec; [done|done|done|lia|done]|].
  intros [ret sx] h1 (y&z'&s'&all'&Hy&Hserve&Hsz&Hst'). cbn [fst snd] in *. subst sx.
  apply mwp_bind. eapply mwp_mono; [by eapply contents_spec|]. intros ? ? [-> ->].
  apply mwp_bind. destruct HB as (HB1&HB2&HB3&HB4&HB5).
  destruct (serves_bounded _ _ _ _ _ _ _ B Hserve HB1 HB2 HB5) as (?&?&?).
  eapply mwp_mono; [eapply (IH y z' s' all' (B + length term)%nat); [done|done|split_and!; (done || lia)|lia|lia|done]|].
  intros [l sy] h2 (y2&z2&s2&all2&Hy2&Hsess&Hst2). cbn [fst snd] in *. subst sy. apply mwp_ret.
  exists y2, z2, s2, all2. split; [done|]. split; [by econstructor|done].
Qed.
End Session.

(** ** Opening and closing *)

Section Visit.
Context `{AllocatorLaws}.
Hypothesis memory : plenty.
Context {P : Type} (f : bNread P) (rest : P → list Z) `{!Source f rest}.

Lemma bfromcstr_plenty h l : Z.of_nat (length l) + 1 < 2 ^ 30 → pwp (bfromcstr (Some l)) h (λ r, r ≠ None).
Proof.
  intros Hl. unfold bfromcstr. destruct (cstr_size_spec (Z.of_nat (length l))) as [Hlt Hmax]; [lia|lia|].
  rewrite s32_small, (proj2 (Z.leb_gt _ _)) by lia. apply pwp_bind. intros [[b x]|] h1 Hr.
  - apply pwp_bind. intros. by apply pwp_ret.
  - by eapply new_bstring_plenty in Hr; [|done|lia].
Qed.

(** A new string, which a loop then fills. *)
Lemma new_string {A} h l (K : option nat → M A) R :
  heap_ok h → Z.of_nat (length l) + 1 < 2 ^ 30 →
  (∀ c f t k b, frame (bump h f) c k → (fresh h ≤ c < f)%nat → (fresh h ≤ k < f)%nat → buffer t k b l →
    mwp (K (Some c)) (upd (bump h f) c t k b) R) → mwp (bfromcstr (Some l) ≫= K) h R.
Proof.
  intros Hh Hl HK. apply mwp_bind.
  eapply mwp_mono; [apply mwp_pwp; [by apply bfromcstr_spec|by apply bfromcstr_plenty]|].
  intros [c|] h1 [Hc Hne]; [|done]. destruct Hc as (t&k&b&f'&?&?&Hb&->). apply HK; [|lia|lia|done].
  split; cbn; [by apply heap_ok_bump; [|lia]|lia|lia|].
  apply eq_None_not_Some. intros ?%Hh. lia.
Qed.
Lemma read_to_created {A} c (m : M A) h g k t b s Q :
  local c m (λ t k b, buffer t k b s) Q → frame (bump h g) c k → (fresh h ≤ c < g)%nat → (fresh h ≤ k < g)%nat →
  buffer t k b s → ∀ s', (∀ r t k b, Q r t k b → buffer t k b s') →
  mwp m (upd (bump h g) c t k b) (λ r h', (∃ t k b, Q r t k b) ∧ created h s' (Some c) h').
Proof.
  intros Hm Hfr Hc Hk Hb s' HQ. eapply mwp_mono; [by apply Hm|].
  intros r h2 (f2&t2&k2&b2&Hr&?&?&->). cbn in *. split; [eauto|]. exists t2, k2, b2, f2.
  split; [lia|]. split; [lia|]. split; [by eapply HQ|done].
Qed.

(** [bread] makes a string of everything the source has, [bgets] one of what comes up
    to and with the terminator. *)
Lemma bread_spec `{!FullSource f rest} fuel h p :
  heap_ok h → Z.of_nat (length (rest p)) + 2048 < 2 ^ 30 → (length (rest p) < fuel)%nat →
  mwp (bread fuel (Some f) p) h (λ r h', r.1 ≠ None ∧ rest r.2 = [] ∧ created h (rest p) r.1 h').
Proof.
  intros Hh Hl Hfuel. unfold bread. apply new_string; [done|done|]. intros c g t k b Hfr Hc Hk Hb. apply mwp_bind.
  eapply mwp_mono; [eapply read_to_created; [by apply (breada_spec c memory f rest fuel [] p)|done..|];
    by intros r' t' k' b' [_ Hr]|].
  intros [r p'] h' [(?&?&?&[Hr Hp] &_) Hcr]. cbn in Hr, Hp, Hcr. subst r. by apply mwp_ret.
Qed.
Lemma bgets_spec (fc : bNgetc P) `{!CharSource fc rest} fuel h p term :
  heap_ok h → Z.of_nat (length (rest p)) + 4 < 2 ^ 30 → (length (rest p) < fuel)%nat →
  let l := line (λ y, y =? s8 term) (rest p) in
  mwp (bgets fuel (Some fc) p term) h (λ r h', rest r.2 = l.2 ∧
    (l.1 ≠ [] → r.1 ≠ None ∧ created h l.1 r.1 h') ∧ (l.1 = [] → r.1 = None ∧ same h h')).
Proof.
  intros Hh Hl Hfuel l. unfold bgets. apply new_string; [done|done|]. intros c g t k b Hfr Hc Hk Hb. apply mwp_bind.
  eapply mwp_mono; [eapply (read_to_created _ _ h g); [by apply (bgetsa_spec c memory fc rest fuel term [] p)|done..|];
    by intros r' t' k' b' [_ Hr]|].
  intros [r p'] h' [(?&?&?&[Hr Hp] &_) (t2&k2&b2&f2&Hc2&Hk2&Hb2&->)]. cbn in Hr, Hp. fold l in Hr, Hp, Hb2. cbn [app] in Hb2.
  assert ((r <? 0) = false) as -> by (subst r; by case_decide).
  apply mwp_bind, mwp_bind, mwp_ret, mwp_bind, mwp_hdr_eq, mwp_ret. rewrite (buf_slen _ _ _ _ Hb2).
  destruct (Z.leb_spec (Z.of_nat (length l.1)) 0) as [Hz|Hz].
  - assert (l.1 = []) as E by (apply nil_length_inv; lia). apply mwp_bind.
    eapply mwp_mono; [eapply bdestroy_spec; split; [cbn; apply lookup_insert_eq|cbn; apply lookup_insert_eq|done|]|].
    { apply upd_heap_ok. split; cbn; [by apply heap_ok_bump; [|lia]|lia|lia|].
      apply eq_None_not_Some. intros ?%Hh. lia. }
    intros ? h2 [_ ->]. apply mwp_ret. cbn. split; [done|]. split; [done|]. intros _. split; [done|].
    exists f2. split; [|lia]. f_equal; apply delete_insert_id, eq_None_not_Some; intros ?%Hh; lia.
  - apply mwp_ret. split; [done|]. split; [|intros E; rewrite E in Hz; cbn in Hz; lia].
    intros _. split; [done|]. by exists t2, k2, b2, f2.
Qed.

Lemma bsopen_spec h p :
  heap_ok h → mwp (bsopen (Some f) p) h (λ r h', ∃ c t k b f',
    r = Some (BStream (Some c) p (Some f) false BS_BUFF_SZ) ∧ (fresh h ≤ c < f')%nat ∧ (fresh h ≤ k < f')%nat ∧
    buffer t k b [] ∧ h' = upd (Heap (blocks h) (strs h) f') c t k b).
Proof.
  intros Hh. unfold bsopen. apply mwp_bind, mwp_try_alloc; [done|lia|]. apply mwp_bind.
  eapply mwp_mono; [apply mwp_pwp; [apply bfromcstr_spec; [by apply heap_ok_bump; cbn; [|lia]|done]|by apply bfromcstr_plenty]|].
  intros [c|] h1 [Hc Hne]; [|done]. destruct Hc as (t&k&b&f'&?&?&Hb&->). apply mwp_ret. cbn in *.
  exists c, t, k, b, f'. split; [done|]. split; [lia|]. split; [lia|done].
Qed.

Lemma bsclose_spec g a c x z s all h :
  rest_of g a c → strs g !! c = None → streaming f rest g a c x z s all h →
  mwp (bsclose (Some x)) h (λ r h', r = Some (parm x) ∧ ∃ buf f' ta ka ba, all = buf ++ rest (parm x) ∧
    h' = upd (bump g f') a ta ka ba ∧ text z s ta ka ba ∧ (fresh g ≤ f')%nat ∧ (ka < f')%nat ∧ blocks g !! ka = None).
Proof.
  intros Hg Hno ((Hb&_)&buf&m&->&f0&ta&ka&ba&tc&kc&bc&->&Ha&Hc&Hf&Hk&Hka&Hkc&Hna&Hnc). unfold bsclose. rewrite Hb.
  apply mwp_bind, mwp_bind. unfold bdestroy. apply mwp_bind, mwp_hdr_eq.
  pose proof (cell_guard _ _ _ _ _ _ Hc) as (Hw&_). unfold unwritable in Hw. rewrite !orb_false_iff in Hw.
  destruct Hw as [[[-> ->] ->] ->]. cbn [orb]. apply mwp_bind. eapply mwp_get_data; [by apply Hc|].
  apply mwp_bind, mwp_free; [cbn; rewrite lookup_insert_eq; eauto|]. apply mwp_bind. unfold mwp at 1, free_hdr. cbn.
  rewrite lookup_insert_eq. cbn. split; [done|]. exists buf, f0, ta, ka, ba. split; [done|]. split; [|done].
  rewrite !delete_insert_id; [done|..]; rewrite lookup_insert_ne; (done || apply Hg || auto).
Qed.

(** C23. A program opens a stream on a source that delivers its bytes in pieces of any
    size, makes any list of requests (a line, what comes up to one of a set of
    characters, a number of bytes, each over the string or after what it holds; bytes
    pushed back, a look at the buffer, the end, another size of the buffer) and closes
    the stream. It runs to its end without a fault, and every answer is the one that a
    list of bytes gives: the bytes arrive in order, each once, a line up to and with
    the first terminator, exactly [n] bytes if the source reads in full, and BSTR_ERR
    only when there is nothing left. After it the memory is as before but for the string
    that was read into: the stream and its buffer are given back, with the bytes [buf]
    that were taken from the source and not asked for. *)
Theorem stream_delivers fuel h w a s d term rs p :
  holds h w → w !! a = Some s → w !! d = Some term → d ≠ a → bytes_ok term → bytes_ok (rest p) →
  Forall askable rs → Z.of_nat (length s + length (rest p) + length term * length rs) < 2 ^ 27 →
  (length s + length (rest p) + length term * length rs < fuel)%nat → Z.of_nat (length term) < 2 ^ 28 →
  ∃ l p' h' s' buf, visit fuel a d rs f p h = Done ((l, Some p'), h') ∧
    session (FullSource f rest) term rs s (rest p) l s' (buf ++ rest p') ∧
    ∃ t k b t' k' b' f', owns h a t k b s ∧
      h' = upd (Heap (delete k (blocks h)) (strs h) f') a t' k' b' ∧ partial s' 1 t' k' b' ∧
      (k' = k ∨ blocks h !! k' = None).
Proof.
  intros Hw Hwa Hwd Hda Hterm Hall Hrs Hmax Hfuel Ht.
  destruct (holds_str _ _ Hw _ _ Hwa) as (t&k&b&Ho), (holds_str _ _ Hw _ _ Hwd) as (td&kd&bd&[Hsd Hkd Hbd _]).
  pose proof (buffer_readable _ _ _ _ _ _ Hsd Hkd Hbd) as Hd. pose proof Ho as [Ha Hk Hb Hh].
  assert (kd ≠ k) as Hq.
  { intros ->. apply Hda, (holds_apart _ _ Hw d a td t); [done|done|].
    by rewrite (buf_data _ _ _ _ Hb), (buf_data _ _ _ _ Hbd). }
  assert ((a < fresh h)%nat ∧ (k < fresh h)%nat) as [Haf Hkf]
    by (split; [by eapply heap_ok_str_lt|by eapply heap_ok_block_lt]).
  assert (mwp (visit fuel a d rs f p) h (λ r h', ∃ l p', r = (l, Some p') ∧ ∃ s' buf,
    session (FullSource f rest) term rs s (rest p) l s' (buf ++ rest p') ∧
    ∃ t' k' b' f', h' = upd (Heap (delete k (blocks h)) (strs h) f') a t' k' b' ∧ partial s' 1 t' k' b' ∧
      (k' = k ∨ blocks h !! k' = None))) as Hrun.
  2: { destruct (mwp_done _ _ _ Hrun) as ([l p0]&h'&Hv&l0&p'&[= -> ->]&s'&buf&Hs&t'&k'&b'&f'&?).
       exists l0, p', h', s', buf. split; [done|]. split; [done|]. by exists t, k, b, t', k', b', f'. }
  unfold visit. apply mwp_bind. eapply mwp_mono; [by apply bsopen_spec|].
  intros ? h1 (c&tc&kc&bc&f1&->&Hc&Hkc&Hbc&->).
  set (g := Heap (delete k (blocks h)) (strs h) f1).
  assert (rest_of g a c) as Hg.
  { split; [lia| |cbn; lia|cbn; lia]. split; intros y; cbn; [rewrite lookup_delete_is_Some; intros [_ ?%Hh]; lia|].
    intros ?%Hh. lia. }
  assert (∀ y, (fresh h ≤ y)%nat → blocks h !! y = None ∧ strs h !! y = None) as Hfr.
  { intros y Hy. split; apply eq_None_not_Some; intros ?%Hh; lia. }
  assert (readable g d (Ptr kd 0) term) as Hdg.
  { destruct Hd as [? (bq&Hbq&?)]. split; [done|]. exists bq. cbn. by rewrite lookup_delete_ne. }
  assert (d ≠ c) as Hdc.
  { intros ->. destruct (rd_str _ _ _ _ Hd) as (tx&Htx&_). destruct (Hfr c) as [_ E]; [lia|]. congruence. }
  apply mwp_bind. eapply mwp_mono; [eapply (asks_spec memory f rest g a c d _ term Hg Hdg Hda Hdc Hterm fuel rs _ true s
    (rest p) (length s + length (rest p))%nat); [|done|split_and!; cbn; (done || lia)|lia|lia|done]|].
  - split; [by split; [|split; [|split]]|]. exists [], 1. split; [done|].
    exists f1, t, k, b, tc, kc, bc. split.
    + unfold upd, bump. cbn. f_equal.
      * by rewrite insert_delete_eq, (insert_id _ k b).
      * by rewrite (insert_id _ a t).
    + split; [by apply text_buffer|]. split; [by apply (buffer_cell _ _ _ _ 1 Hbc)|]. cbn.
      rewrite lookup_delete_eq. split_and!; try done; try lia. rewrite lookup_delete_ne by lia. apply Hfr; lia.
  - intros [l sx] h2 (y&z'&s'&all'&Hy&Hsess&Hst). cbn [fst snd] in *. subst sx.
    apply mwp_bind. eapply mwp_mono; [eapply (bsclose_spec g a c y); [done| |done]|].
    { cbn. apply Hfr. lia. }
    intros ? h3 (->&buf&f'&ta&ka&ba&->&->&[Hpa _]&_&_&Hka). apply mwp_ret. exists l, (parm y). split; [done|].
    exists s', buf. split; [done|]. exists ta, ka, ba, f'. split; [done|]. split; [done|].
    cbn in Hka. rewrite lookup_delete_None in Hka. destruct Hka; auto.
Qed.
End Visit.

(** ** A run *)

(** ">" is read into, "," and a newline end a line; "a,bcd\ne" in reads of two bytes. *)
Lemma stream_delivers_witness :
  let h := place (place heap0 [62]) [44; 10] in
  ∃ l p' h', visit 40 0 1 [Readlns; Reada 3; Unread; Readlna 10; Eof; Readln 10; Read 4]
      (by_chunks 2) [97; 44; 98; 99; 100; 10; 101] h = Done ((l, Some p'), h') ∧
    l = [(0, [97; 44]); (0, [97; 44; 98; 99]); (0, [97; 44; 98; 99]); (0, [97; 44; 98; 99; 44; 10]);
         (0, [97; 44; 98; 99; 44; 10]); (0, [100; 10]); (0, [101])] ∧ p' = [] ∧
    ∃ s' buf, session (FullSource (by_chunks 2) (λ l, l)) [44; 10]
      [Readlns; Reada 3; Unread; Readlna 10; Eof; Readln 10; Read 4] [62] [97; 44; 98; 99; 100; 10; 101]
      l s' (buf ++ p').
Proof.
  set (h := place _ _). cbv zeta.
  assert (holds h (<[1%nat := [44; 10]]> (<[0%nat := [62]]> ∅))) as Hw.
  { apply place_holds; [|done]. by apply (place_holds heap0); [apply holds_start|]. }
  assert (∀ s, Forall (λ c, (0 <=? c) && (c <? 256) = true) s → bytes_ok s) as Hok.
  { intros s Hs. eapply Forall_impl; [exact Hs|]. cbn. lia. }
  destruct (stream_delivers zero_plenty (by_chunks 2) (λ l, l) 40 h _ 0 [62] 1 [44; 10]
    [Readlns; Reada 3; Unread; Readlna 10; Eof; Readln 10; Read 4] [97; 44; 98; 99; 100; 10; 101] Hw)
    as (l&p'&h'&s'&buf&Hv&Hs&_);
    [by rewrite lookup_insert_ne, lookup_insert_eq|by rewrite lookup_insert_eq|done| | | |vm_compute; done|
     vm_compute; lia|vm_compute; done|].
  { apply Hok. by repeat constructor. }
  { apply Hok. by repeat constructor. }
  { repeat constructor; cbn; lia. }
  exists l, p', h'. split; [exact Hv|]. pose proof Hv as Hc. vm_compute in Hc. injection Hc as <- <- <-.
  split; [done|]. split; [done|]. exists s', buf. exact Hs.
Defined.
