(* ===== verification/BstrReplace.v ===== *)
(** Find and replace in byte strings (bstrlib.c, on the memory of Bstr): the engine of
    [bfindreplace] and [bfindreplacecaseless], with its three cases. The array of
    places starts on the stack and moves to the heap; it is a list here, its
    allocations may fail. *)
From S2P Require Import Prelude Bstr BstrFind BstrList BstrIO.
#[local] Open Scope Z_scope.

Definition INITIAL_STATIC_FIND_INDEX_COUNT : Z := 32.

(** [lo < p - q && p - q < hi], for pointers into one block. *)
Definition between (p q : option ptr) (lo hi : Z) : bool :=
  match p, q with
  | Some p, Some q => bool_decide (blk p = blk q) && (lo <? off p - off q) && (off p - off q <? hi)
  | _, _ => false
  end.

Section Replace.
Context `{Allocator} (instr : bstring → Z → bstring → M Z).
Implicit Types (b auxf auxr : nat).

(** The strings have the same length. *)
Fixpoint replace_same (fuel : nat) (b auxf auxr : nat) (pos : Z) : M () :=
  match fuel with
  | O => λ _, Bug
  | S fuel =>
      pos ← instr (Some b) pos (Some auxf);
      if pos <? 0 then mret tt
      else
        p ← get_data b; q ← get_data auxr; tr ← hdr auxr; memcpy p pos q 0 (slen tr);;
        tf ← hdr auxf; replace_same fuel b auxf auxr (pos + slen tf)
  end.

(** The replacement is shorter: [acc] bytes were saved up to [pos]. *)
Fixpoint replace_shorter (fuel : nat) (b auxf auxr : nat) (delta acc pos : Z) : M (Z * Z) :=
  match fuel with
  | O => λ _, Bug
  | S fuel =>
      i ← instr (Some b) pos (Some auxf);
      if i <? 0 then mret (acc, pos)
      else
        (if negb (acc =? 0) && (pos <? i)
         then p ← get_data b; memmove p (pos - acc) p pos (i - pos) else mret tt);;
        tr ← hdr auxr;
        (if slen tr =? 0 then mret tt
         else p ← get_data b; q ← get_data auxr; memcpy p (i - acc) q 0 (slen tr));;
        tf ← hdr auxf; replace_shorter fuel b auxf auxr delta (acc + delta) (i + slen tf)
  end.
Definition close_gap (b : nat) (acc pos : Z) : M () :=
  if acc =? 0 then mret tt
  else
    t ← hdr b;
    (if pos <? slen t
     then p ← get_data b; memmove p (pos - acc) p pos (slen t - pos) else mret tt);;
    set_slen b (slen t - acc);;
    t ← hdr b; p ← get_data b; store p (slen t) 0.

(** The replacement is longer: the places are collected in an array of [mlen]
    entries, and the bytes that are needed in [acc]. *)
Definition more_places (mlen n : Z) : M (option Z) :=
  if mlen - 1 <=? n then
    let mlen := s32 (mlen + mlen) in
    let sl := s32 (8 * mlen) in
    if (mlen <=? 0) || (sl <? mlen) then mret None
    else ok ← try_alloc sl; mret (if ok : bool then Some mlen else None)
  else mret (Some mlen).
Fixpoint find_places (fuel : nat) (b auxf : nat) (delta mlen acc pos : Z) (d : list Z) : M (option (list Z * Z)) :=
  match fuel with
  | O => λ _, Bug
  | S fuel =>
      pos ← instr (Some b) pos (Some auxf);
      if pos <? 0 then mret (Some (d, acc))
      else
        m ← more_places mlen (Z.of_nat (length d));
        match m with
        | None => mret None
        | Some mlen =>
            tf ← hdr auxf;
            let acc := s32 (acc - delta) in
            let next := s32 (pos + slen tf) in
            if (next <? 0) || (acc <? 0) then mret None
            else find_places fuel b auxf delta mlen acc next (d ++ [pos])
        end
  end.

(** [for (i = slen-1; i >= 0; i--)]: the places from the last one on, [next] is the
    place that follows. *)
Fixpoint spread (b auxf auxr : nat) (delta : Z) (places : list Z) (next acc : Z) : M () :=
  match places with
  | [] => mret tt
  | di :: places =>
      tf ← hdr auxf;
      let s := di + slen tf in
      let l := next - s in
      (if l =? 0 then mret tt else p ← get_data b; memmove p (s + acc) p s l);;
      tr ← hdr auxr;
      (if slen tr =? 0 then mret tt
       else p ← get_data b; q ← get_data auxr; memmove p (s + acc - slen tr) q 0 (slen tr));;
      spread b auxf auxr delta places di (acc + delta)
  end.

Definition replace_longer (fuel : nat) (b auxf auxr : nat) (delta pos : Z) : M Z :=
  x ← find_places fuel b auxf delta INITIAL_STATIC_FIND_INDEX_COUNT 0 pos [];
  match x with
  | None => mret BSTR_ERR
  | Some (d, acc) =>
      t ← hdr b;
      ret ← balloc (Some b) (s32 (slen t + acc + 1));
      (if ret =? BSTR_OK then
         set_slen b (slen t + acc);;
         spread b auxf auxr delta (reverse d) (slen t) acc;;
         t ← hdr b; p ← get_data b; store p (slen t) 0
       else mret tt);;
      mret ret
  end.

(** The three cases, by [delta]: how much longer [find] is than [repl]. *)
Definition replace_any (fuel : nat) (b auxf auxr : nat) (delta pos : Z) : M Z :=
  if delta =? 0 then replace_same fuel b auxf auxr pos;; mret BSTR_OK
  else if 0 <? delta then
    '(acc, pos) ← replace_shorter fuel b auxf auxr delta 0 pos;
    close_gap b acc pos;; mret BSTR_OK
  else replace_longer fuel b auxf auxr delta pos.

(** A search that starts at [pos] finds something or moves on: one turn per byte is
    enough. *)
Definition findreplaceengine (b find repl : bstring) (pos : Z) : M Z :=
  match b, find, repl with
  | Some b, Some find, Some repl =>
      t ← hdr b; tf ← hdr find; tr ← hdr repl;
      if no_data t || no_data tf || no_data tr || (pos <? 0) || (slen tf <=? 0) || (mlen t <? 0)
         || (mlen t <? slen t) || (mlen t <=? 0) || (slen t <? 0) || (slen tr <? 0) then mret BSTR_ERR
      else if slen t - slen tf <? pos then mret BSTR_OK
      else
        auxf ← copy_if (between (data tf) (data t) (pos - slen tf) (slen t)) find;
        match auxf with
        | None => mret BSTR_ERR
        | Some auxf =>
            auxr ← copy_if (between (data tr) (data t) (pos - slen tr) (slen t)) repl;
            match auxr with
            | None => release auxf find;; mret BSTR_ERR
            | Some auxr =>
                tf ← hdr auxf; tr ← hdr auxr;
                ret ← replace_any (Z.to_nat (slen t + 2)) b auxf auxr (slen tf - slen tr) pos;
                release auxf find;; release auxr repl;; mret ret
            end
        end
  | _, _, _ => mret BSTR_ERR
  end.
End Replace.

Definition bfindreplace `{Allocator} := findreplaceengine binstr.
Definition bfindreplacecaseless `{Allocator} := findreplaceengine binstrcaseless.

(** ** Runs *)

Definition replaced_run (b f r : list Z) (pos : Z) : outcome (Z * list Z) :=
  (b ← bfromcstr (Some b); f ← bfromcstr (Some f); r ← bfromcstr (Some r);
   ret ← bfindreplace b f r pos; s ← lift (deref b) ≫= contents; mret (ret, s)) heap0 ≫= (λ x, Done x.1).

(** "abcabca": "bc" by "xy", by "-" and by "<+>". *)
Example replace_runs :
  replaced_run [97; 98; 99; 97; 98; 99; 97] [98; 99] [120; 121] 0 = Done (0, [97; 120; 121; 97; 120; 121; 97]) ∧
  replaced_run [97; 98; 99; 97; 98; 99; 97] [98; 99] [45] 0 = Done (0, [97; 45; 97; 45; 97]) ∧
  replaced_run [97; 98; 99; 97; 98; 99; 97] [98; 99] [60; 43; 62] 2 = Done (0, [97; 98; 99; 97; 60; 43; 62; 97]).
Proof. vm_compute. auto. Qed.

(** A replacement that lies in the string before [pos] is not copied: the string moves
    to another block and the header of the replacement points to the one that was
    given back. *)
Example replace_dangles :
  (b ← bfromcstr (Some ([120; 121; 122] ++ replicate 10 97)); f ← bfromcstr (Some [97]);
   p ← lift (deref b) ≫= get_data;
   with_view (Tag (-1) 2 (Some p)) (λ r, bfindreplace b f r 3)) heap0 = Oops.
Proof. vm_compute. reflexivity. Qed.
