(* ===== verification/BstrReplaceSpec.v ===== *)
(** Find and replace (BstrReplace) against a function on lists that replaces the
    occurrences from the left: all three cases of the engine compute it. *)
From S2P Require Import Prelude Bstr BstrMem BstrSpec BstrOps BstrFind BstrFindSpec BstrRefine BstrList BstrListSpec.
From S2P Require Import BstrIO BstrCell BstrReplace.
#[local] Open Scope Z_scope.

(** ** The reference *)

Fixpoint starts (eqb : Z → Z → bool) (find s : list Z) : bool :=
  match find, s with
  | [], _ => true
  | x :: find, y :: s => eqb x y && starts eqb find s
  | _, [] => false
  end.

(** Each occurrence that does not overlap the one before it; [skip] bytes belong to
    one that was replaced. *)
Fixpoint replaced (eqb : Z → Z → bool) (find repl : list Z) (skip : nat) (s : list Z) : list Z :=
  match s with
  | [] => []
  | y :: s' =>
      match skip with
      | S skip => replaced eqb find repl skip s'
      | O => if starts eqb find s then repl ++ replaced eqb find repl (length find - 1) s'
             else y :: replaced eqb find repl 0 s'
      end
  end.

Section Reference.
Context (eqb : Z → Z → bool) (find repl : list Z).
Hypothesis some : find ≠ [].

Lemma starts_occurs s : starts eqb find s = true ↔ occurs eqb s find 0.
Proof.
  clear some. unfold occurs. cbn [Nat.add]. revert s. induction find as [|x l IH]; intros s; cbn [starts].
  - split; [|done]. intros _. split; [cbn; lia|]. intros j x y Hx. done.
  - destruct s as [|y s]; [split; [done|intros [? _]; cbn in *; lia]|].
    rewrite andb_true_iff, IH. split.
    + intros (Hxy&Hl&Hj). split; [cbn; lia|]. intros [|j] u v Hu Hv; cbn in *; [congruence|eauto].
    + intros (Hl&Hj). split; [by apply (Hj 0%nat)|]. split; [cbn in *; lia|].
      intros j u v Hu Hv. by apply (Hj (S j)).
Qed.
Lemma occurs_drop s p j : (p ≤ length s)%nat → occurs eqb (drop p s) find j ↔ occurs eqb s find (p + j).
Proof.
  intros Hp. unfold occurs. rewrite length_drop. setoid_rewrite lookup_drop. setoid_rewrite Nat.add_assoc.
  split; intros [? ?]; (split; [lia|done]).
Qed.

Lemma replaced_skip k s : replaced eqb find repl k s = replaced eqb find repl 0 (drop k s).
Proof. revert k. induction s as [|y s IH]; intros [|k]; try done. cbn [drop replaced]. apply IH. Qed.

(** Nothing is replaced before the first occurrence, and nothing at all without one. *)
Lemma replaced_before n s :
  (∀ p, (p < n)%nat → ¬ occurs eqb s find p) →
  replaced eqb find repl 0 s = take n s ++ replaced eqb find repl 0 (drop n s).
Proof.
  revert s. induction n as [|n IH]; intros s Hno; [done|]. destruct s as [|y s]; [done|].
  cbn [take drop app]. rewrite <- IH.
  - cbn [replaced]. destruct (starts eqb find (y :: s)) eqn:E; [|done].
    apply starts_occurs in E. exfalso. apply (Hno 0%nat); [lia|done].
  - intros p Hp Ho. apply (Hno (S p)); [lia|]. by apply (occurs_drop (y :: s) 1); [cbn; lia|].
Qed.
Lemma replaced_none pos s :
  (∀ p, (pos ≤ p)%nat → ¬ occurs eqb s find p) → replaced eqb find repl 0 (drop pos s) = drop pos s.
Proof.
  intros Hno. destruct (decide (pos ≤ length s)%nat) as [Hp|]; [|by rewrite drop_ge by lia].
  rewrite (replaced_before (length (drop pos s))), firstn_all, drop_all, app_nil_r; [done|].
  intros p _ Ho. apply occurs_drop in Ho; [|done]. by apply (Hno (pos + p)%nat); [lia|].
Qed.
Lemma replaced_next pos p s :
  (pos ≤ p)%nat → occurs eqb s find p → (∀ p', (pos ≤ p' < p)%nat → ¬ occurs eqb s find p') →
  replaced eqb find repl 0 (drop pos s) =
    slice pos (p - pos) s ++ repl ++ replaced eqb find repl 0 (drop (p + length find) s).
Proof.
  intros Hp Ho Hno. pose proof Ho as [Hl _].
  rewrite (replaced_before (p - pos)), drop_drop.
  2: { intros p' Hp' Ho'. apply occurs_drop in Ho'; [|lia]. by apply (Hno (pos + p')%nat); [lia|]. }
  replace (pos + (p - pos))%nat with p by lia. f_equal.
  replace p with (p + 0)%nat in Ho by lia. apply occurs_drop in Ho; [|lia]. apply starts_occurs in Ho.
  rewrite <- drop_drop. destruct (drop p s) as [|y s'] eqn:Ed; [by destruct find|]. cbn [replaced].
  rewrite Ho, replaced_skip. f_equal. f_equal. destruct find as [|x l]; [done|]. cbn [length drop].
  by rewrite Nat.sub_1_r.
Qed.

(** The search only looks at what follows. *)
Lemma first_suffix s s' pos r :
  drop pos s = drop pos s' → length s = length s' → (pos ≤ length s)%nat →
  first_at (occurs eqb s find) pos r → first_at (occurs eqb s' find) pos r.
Proof.
  intros Hd Hl Hp.
  assert (∀ p, (pos ≤ p)%nat → occurs eqb s find p ↔ occurs eqb s' find p) as Heq.
  { intros p Hpp. replace p with (pos + (p - pos))%nat by lia.
    rewrite <- !occurs_drop by lia. by rewrite Hd. }
  intros [[-> Hno]|(p&->&Hpp&Ho&Hno)]; [left|right].
  - split; [done|]. intros p Hpp Ho. by apply (Hno p), Heq.
  - exists p. split; [done|]. split; [done|]. split; [by apply Heq|]. intros p' Hp' Ho'. by apply (Hno p'), Heq; [|lia|].
Qed.
End Reference.

(** ** The loops *)

Lemma drop_take_eq pos n (x y : list Z) :
  (pos ≤ n)%nat → drop pos (take n x) = drop pos (take n y) → ∀ p, (pos ≤ p)%nat → drop p (take n x) = drop p (take n y).
Proof.
  intros Hn Hd p Hp. replace p with (pos + (p - pos))%nat by lia. by rewrite <- !drop_drop, Hd.
Qed.
Lemma drop_more {A} pos p (x y : list A) : drop pos x = drop pos y → (pos ≤ p)%nat → drop p x = drop p y.
Proof. intros Hd Hp. replace p with (pos + (p - pos))%nat by lia. by rewrite <- !drop_drop, Hd. Qed.

Lemma take_join pos p (x : list Z) : (pos ≤ p)%nat → take p x = take pos x ++ take (p - pos) (drop pos x).
Proof. intros Hp. rewrite take_take_drop. f_equal. lia. Qed.

(** A search for the first occurrence. *)
Class Finder (instr : bstring → Z → bstring → M Z) (eqb : Z → Z → bool) : Prop :=
  find_first : ∀ h a q s c q' s' pos, readable h a q s → readable h c q' s' →
    mwp (instr (Some a) (Z.of_nat pos) (Some c)) h (answers h (first_at (occurs eqb s s') pos)).
#[export] Instance binstr_finder : Finder binstr Z.eqb.
Proof. intros h a q s c q' s' pos. apply binstr_spec. Qed.
#[export] Instance binstrcaseless_finder : Finder binstrcaseless eq_caseless.
Proof. intros h a q s c q' s' pos. apply binstrcaseless_spec. Qed.

Section Engine.
Context `{Allocator} (instr : bstring → Z → bstring → M Z) (eqb : Z → Z → bool) `{!Finder instr eqb}.
Context (b f r k : nat) (qf qr : ptr) (find repl s : list Z).
Hypothesis some : find ≠ [].

(** The arguments, or the copies of them: apart from the string and its block [k]. *)
Record beside (g : heap) : Prop := {
  find_ne : f ≠ b;
  repl_ne : r ≠ b;
  find_rd : readable g f qf find;
  repl_rd : readable g r qr repl;
  find_apart : blk qf ≠ k;
  repl_apart : blk qr ≠ k }.

(** The block starts with [cur], as long as [s]. *)
Record current (t : tagbstring) (bl cur : list Z) : Prop := {
  cur_data : data t = Some (Ptr k 0);
  cur_slen : slen t = Z.of_nat (length s);
  cur_bytes : take (length s) bl = cur;
  cur_fits : (length s < length bl)%nat }.

Lemma cur_length t bl cur : current t bl cur → length cur = length s.
Proof. intros [_ _ <- ?]. rewrite length_take. lia. Qed.

Lemma beside_upd g t bl d q l :
  readable g d q l → d ≠ b → blk q ≠ k → readable (upd g b t k bl) d q l.
Proof.
  intros [(td&Hd&?&?) (bd&Hb&?)] Hne Hk. split.
  - exists td. cbn. by rewrite lookup_insert_ne.
  - exists bd. cbn. by rewrite lookup_insert_ne.
Qed.
Lemma current_readable g t bl cur : current t bl cur → readable (upd g b t k bl) b (Ptr k 0) cur.
Proof.
  intros Hc. pose proof (cur_length _ _ _ Hc) as Hl. destruct Hc as [Hd Hs Hb Hf]. split.
  - exists t. cbn. rewrite lookup_insert_eq, Hl. done.
  - exists bl. cbn. rewrite lookup_insert_eq. split; [done|]. split; [unfold in_range; lia|].
    unfold slice. by rewrite drop_0, Hl.
Qed.

Lemma search {B} g t bl cur pos (K : Z → M B) R :
  beside g → current t bl cur → drop pos cur = drop pos s → (pos ≤ length s)%nat →
  (∀ i, first_at (occurs eqb s find) pos i → mwp (K i) (upd g b t k bl) R) →
  mwp (instr (Some b) (Z.of_nat pos) (Some f) ≫= K) (upd g b t k bl) R.
Proof.
  intros [Hfb _ Hf _ Hkf _] Hc Hd Hp HK. pose proof (cur_length _ _ _ Hc) as Hl. apply mwp_bind.
  eapply mwp_mono; [eapply find_first; [by eapply current_readable|by eapply beside_upd]|].
  intros i h' [-> Hi]. apply HK. by eapply first_suffix; [..|exact Hi]; [done|done|lia].
Qed.
Lemma hdr_find {B} g t bl (K : tagbstring → M B) R :
  beside g → (∀ tf, slen tf = Z.of_nat (length find) → mwp (K tf) (upd g b t k bl) R) →
  mwp (hdr f ≫= K) (upd g b t k bl) R.
Proof.
  intros [Hfb _ [(tf&Htf&_&Hl) _] _ _ _] HK. apply mwp_bind. eapply mwp_hdr_ne; [done..|]. by apply HK.
Qed.
Lemma hdr_repl {B} g t bl (K : tagbstring → M B) R :
  beside g → (∀ tr, slen tr = Z.of_nat (length repl) → mwp (K tr) (upd g b t k bl) R) →
  mwp (hdr r ≫= K) (upd g b t k bl) R.
Proof.
  intros [_ Hrb _ [(tr&Htr&_&Hl) _] _ _] HK. apply mwp_bind. eapply mwp_hdr_ne; [done..|]. by apply HK.
Qed.
Lemma data_repl {B} g t bl (K : ptr → M B) R :
  beside g → mwp (K qr) (upd g b t k bl) R → mwp (get_data r ≫= K) (upd g b t k bl) R.
Proof.
  intros [_ Hrb _ [(tr&Htr&Hq&_) _] _ _] HK. apply mwp_bind. eapply mwp_get_data_any; [|done|done].
  cbn. by rewrite lookup_insert_ne.
Qed.
Lemma put_repl {B} g t bl i (K : () → M B) R :
  beside g → (i + length repl ≤ length bl)%nat → mwp (K tt) (upd g b t k (write_at i repl bl)) R →
  mwp (memmove (Ptr k 0) (Z.of_nat i) qr 0 (Z.of_nat (length repl)) ≫= K) (upd g b t k bl) R.
Proof.
  intros [_ _ _ [_ Hb] _ Hk] Hi HK. apply mwp_bind, mwp_copy; [done|done|unfold in_range; lia|].
  by rewrite Nat2Z.id.
Qed.
Lemma cpy_repl {B} g t bl i (K : () → M B) R :
  beside g → (i + length repl ≤ length bl)%nat → mwp (K tt) (upd g b t k (write_at i repl bl)) R →
  mwp (memcpy (Ptr k 0) (Z.of_nat i) qr 0 (Z.of_nat (length repl)) ≫= K) (upd g b t k bl) R.
Proof.
  intros Hg Hi HK. unfold memcpy. rewrite decide_False; [by apply put_repl|].
  intros [E _]. by apply (repl_apart _ Hg).
Qed.

(** *** Same length *)

Lemma replace_same_spec g fuel : beside g → length repl = length find → ∀ t bl cur pos,
  current t bl cur → drop pos cur = drop pos s → (pos ≤ length s)%nat → (length s - pos < fuel)%nat →
  mwp (replace_same instr fuel b f r (Z.of_nat pos)) (upd g b t k bl) (λ _ h', ∃ bl',
    h' = upd g b t k bl' ∧ length bl' = length bl ∧ drop (length s) bl' = drop (length s) bl ∧
    take (length s) bl' = take pos cur ++ replaced eqb find repl 0 (drop pos s)).
Proof.
  intros Hg Heq. assert (0 < length find)%nat as Hfl by (destruct find; [done|cbn; lia]).
  induction fuel as [|fuel IH]; intros t bl cur pos Hc Hd Hp Hfuel; [lia|]. cbn [replace_same].
  pose proof (cur_length _ _ _ Hc) as Hcl. pose proof (cur_fits _ _ _ Hc) as Hfit.
  eapply search; [done..|]. intros i Hi.
  destruct Hi as [[-> Hno]|(p&->&Hpp&Ho&Hno)]; cbn [Z.ltb Z.compare BSTR_ERR].
  - apply mwp_ret. exists bl. split; [done|]. split; [done|]. split; [done|].
    rewrite replaced_none by done. rewrite <- Hd, take_drop. apply Hc.
  - pose proof Ho as [Hpl _]. rewrite (proj2 (Z.ltb_ge (Z.of_nat p) 0)) by lia.
    apply mwp_bind. eapply mwp_get_data; [by apply Hc|]. apply data_repl; [done|].
    apply hdr_repl; [done|]. intros tr ->. apply cpy_repl; [done|lia|]. apply hdr_find; [done|]. intros tf ->.
    rewrite <- Nat2Z.inj_add.
    assert (take (length s) (write_at p repl bl) = take p cur ++ repl ++ drop (p + length find) cur) as Hcur2.
    { rewrite <- (cur_bytes _ _ _ Hc), <- Heq. apply take_patch. lia. }
    assert (length (take p cur ++ repl) = p + length find)%nat as Hpl2 by (rewrite length_app, length_take; lia).
    eapply mwp_mono; [apply (IH t (write_at p repl bl) (take p cur ++ repl ++ drop (p + length find) cur))|].
    + destruct Hc. split; [done|done|done|]. rewrite length_write_at; lia.
    + rewrite app_assoc, <- Hpl2, drop_app_length, Hpl2. eapply drop_more; [exact Hd|lia].
    + lia.
    + lia.
    + intros _ h' (bl'&->&Hl'&Hdr&Htk). exists bl'. split; [done|].
      rewrite Hl', Hdr, length_write_at, drop_write_at by lia. split; [done|]. split; [done|].
      rewrite Htk, app_assoc, <- Hpl2, take_app_length, Hpl2, (replaced_next _ _ _ some pos p) by done.
      rewrite !app_assoc. f_equal. f_equal. unfold slice. rewrite <- Hd. apply take_join. lia.
Qed.

(** *** A shorter replacement *)

Lemma slice_current t bl cur pos p :
  current t bl cur → drop pos cur = drop pos s → (pos ≤ p ≤ length s)%nat → slice pos (p - pos) bl = slice pos (p - pos) s.
Proof.
  intros [_ _ Hb _] Hd Hp. unfold slice. rewrite <- Hd, <- Hb, skipn_firstn_comm, take_take. f_equal. lia.
Qed.
Lemma current_changed t bl bl' pos cur :
  current t bl cur → drop pos cur = drop pos s → drop pos bl' = drop pos bl → length bl' = length bl →
  current t bl' (take (length s) bl') ∧ drop pos (take (length s) bl') = drop pos s.
Proof.
  intros [Hda Hs Hb Hf] Hd Hdr Hl. split; [by split; [..|lia]|].
  by rewrite <- Hd, <- Hb, !skipn_firstn_comm, Hdr.
Qed.

(** The bytes up to an occurrence at [p] move to their place, then the replacement. *)
Lemma shorter_turn {B} g t bl cur pos p acc (K : () → M B) R :
  beside g → current t bl cur → drop pos cur = drop pos s → (acc ≤ pos ≤ p)%nat →
  (p + length find ≤ length s)%nat → (length repl ≤ length find)%nat →
  (∀ bl', length bl' = length bl → drop (p + length find) bl' = drop (p + length find) bl →
    take (p - acc + length repl) bl' = take (pos - acc) bl ++ slice pos (p - pos) s ++ repl →
    mwp (K tt) (upd g b t k bl') R) →
  mwp ((if negb (Z.of_nat acc =? 0) && (Z.of_nat pos <? Z.of_nat p)
        then d ← get_data b; memmove d (Z.of_nat pos - Z.of_nat acc) d (Z.of_nat pos) (Z.of_nat p - Z.of_nat pos)
        else mret tt);;
       tr ← hdr r;
       (if slen tr =? 0 then mret tt
        else d ← get_data b; q ← get_data r; memcpy d (Z.of_nat p - Z.of_nat acc) q 0 (slen tr)) ≫= K)
    (upd g b t k bl) R.
Proof.
  intros Hg Hc Hd Hp Hf Hrl HK. pose proof (cur_fits _ _ _ Hc) as Hfit. apply mwp_bind.
  apply (mwp_mono _ _ (λ _ h', ∃ bl1, h' = upd g b t k bl1 ∧ length bl1 = length bl ∧ drop p bl1 = drop p bl ∧
    take (p - acc) bl1 = take (pos - acc) bl ++ slice pos (p - pos) s)).
  { rewrite <- (slice_current t bl cur pos p) by (done || lia).
    assert (length (slice pos (p - pos) bl) = p - pos)%nat as Hsl by (apply slice_length; lia).
    destruct (Z.eqb_spec (Z.of_nat acc) 0) as [Ha|Ha]; cbn [negb andb].
    - apply mwp_ret. exists bl. split; [done|]. split; [done|]. split; [done|].
      replace (pos - acc)%nat with pos by lia. replace (p - acc)%nat with p by lia. apply take_join. lia.
    - destruct (Z.ltb_spec (Z.of_nat pos) (Z.of_nat p)).
      + apply mwp_bind. eapply mwp_get_data; [by apply Hc|].
        replace (Z.of_nat pos - Z.of_nat acc) with (Z.of_nat (pos - acc)) by lia.
        replace (Z.of_nat p - Z.of_nat pos) with (Z.of_nat (p - pos)) by lia.
        apply mwp_move; [lia..|]. rewrite !Nat2Z.id. eexists. split; [done|].
        split; [apply length_write_at; lia|]. split; [apply drop_write_at; lia|]. apply take_write_at; lia.
      + apply mwp_ret. exists bl. replace p with pos by lia. rewrite Nat.sub_diag. unfold slice. cbn.
        rewrite app_nil_r. done. }
  intros _ h1 (bl1&->&Hl1&Hd1&Ht1). apply hdr_repl; [done|]. intros tr ->.
  assert (mwp (K tt) (upd g b t k (write_at (p - acc) repl bl1)) R) as Hend.
  { apply HK.
    - rewrite length_write_at; lia.
    - rewrite drop_write_at by lia. eapply drop_more; [exact Hd1|lia].
    - rewrite take_write_at, Ht1 by lia. by rewrite app_assoc. }
  destruct (Z.eqb_spec (Z.of_nat (length repl)) 0).
  - apply mwp_bind, mwp_ret. assert (repl = []) as Hr by (apply nil_length_inv; lia).
    by rewrite Hr, write_at_nil in Hend by lia.
  - apply mwp_bind, mwp_bind. eapply mwp_get_data; [by apply Hc|]. apply data_repl; [done|].
    replace (Z.of_nat p - Z.of_nat acc) with (Z.of_nat (p - acc)) by lia.
    eapply mwp_bind_inv. eapply (cpy_repl g t bl1 (p - acc) K); [done|lia|done].
Qed.

Lemma replace_shorter_spec g fuel (delta : nat) :
  beside g → (length find = delta + length repl)%nat → ∀ t bl cur pos acc,
  current t bl cur → drop pos cur = drop pos s → (acc ≤ pos ≤ length s)%nat → (length s - pos < fuel)%nat →
  mwp (replace_shorter instr fuel b f r (Z.of_nat delta) (Z.of_nat acc) (Z.of_nat pos)) (upd g b t k bl)
    (λ x h', ∃ bl' acc' pos', x = (Z.of_nat acc', Z.of_nat pos') ∧ h' = upd g b t k bl' ∧ (acc' ≤ pos' ≤ length s)%nat ∧
      length bl' = length bl ∧ drop (length s) bl' = drop (length s) bl ∧
      drop pos' (take (length s) bl') = drop pos' s ∧
      take (pos' - acc') bl' ++ drop pos' s = take (pos - acc) bl ++ replaced eqb find repl 0 (drop pos s)).
Proof.
  intros Hg Heq. assert (0 < length find)%nat as Hfl by (destruct find; [done|cbn; lia]).
  induction fuel as [|fuel IH]; intros t bl cur pos acc Hc Hd Hp Hfuel; [lia|]. cbn [replace_shorter].
  pose proof (cur_fits _ _ _ Hc) as Hfit. eapply search; [done..|lia|]. intros i Hi.
  destruct Hi as [[-> Hno]|(p&->&Hpp&Ho&Hno)]; cbn [Z.ltb Z.compare BSTR_ERR].
  - apply mwp_ret. exists bl, acc, pos. split; [done|]. split; [done|]. split; [lia|]. split; [done|]. split; [done|].
    split; [by rewrite (cur_bytes _ _ _ Hc)|]. by rewrite replaced_none.
  - pose proof Ho as [Hpl _]. rewrite (proj2 (Z.ltb_ge (Z.of_nat p) 0)) by lia.
    eapply shorter_turn; [done|done|done|lia|lia|lia|]. intros bl2 Hl2 Hd2 Ht2.
    apply hdr_find; [done|]. intros tf ->. rewrite <- !Nat2Z.inj_add.
    destruct (current_changed t bl bl2 (p + length find) cur) as [Hc2 Hcd2]; [done| |done|done|].
    { eapply drop_more; [exact Hd|lia]. }
    eapply mwp_mono; [eapply (IH t bl2 _ (p + length find)%nat (acc + delta)%nat Hc2 Hcd2); lia|].
    intros x h' (bl'&acc'&pos'&->&->&Hp'&Hl'&Hdr&Hcd&Htk). exists bl', acc', pos'.
    split; [done|]. split; [done|]. split; [done|]. rewrite Hl', Hdr. split; [done|]. split; [|split; [done|]].
    + eapply drop_more; [exact Hd2|lia].
    + rewrite Htk, (replaced_next _ _ _ some pos p) by done.
      replace (p + length find - (acc + delta))%nat with (p - acc + length repl)%nat by lia.
      rewrite Ht2. by rewrite <- !app_assoc.
Qed.

Lemma close_gap_spec g t bl acc pos s' :
  beside g → mlen t = Z.of_nat (length bl) → mlen t ≤ INT_MAX → data t = Some (Ptr k 0) →
  slen t = Z.of_nat (length s) → (acc ≤ pos ≤ length s)%nat → (length s < length bl)%nat → bl !! length s = Some 0 →
  drop pos (take (length s) bl) = drop pos s → take (pos - acc) bl ++ drop pos s = s' →
  mwp (close_gap b (Z.of_nat acc) (Z.of_nat pos)) (upd g b t k bl) (λ _ h', ∃ t' bl', h' = upd g b t' k bl' ∧ buffer t' k bl' s').
Proof.
  intros Hg Hm Hmax Hd Hs Hp Hfit Hnul Hdr <-. unfold close_gap. destruct (Z.eqb_spec (Z.of_nat acc) 0).
  - apply mwp_ret. exists t, bl. split; [done|]. assert (acc = 0%nat) as -> by lia. rewrite Nat.sub_0_r.
    assert (take (length s) bl = take pos bl ++ drop pos s) as Heq.
    { rewrite <- Hdr, <- (take_drop pos (take (length s) bl)) at 1. rewrite take_take. do 2 f_equal. lia. }
    rewrite <- Heq. assert (length (take (length s) bl) = length s) as Hl by (rewrite length_take; lia).
    split; rewrite ?Hl; done.
  - apply mwp_bind, mwp_hdr_eq. rewrite Hs. apply mwp_bind.
    assert (length (drop pos s) = length s - pos)%nat as Hld by apply length_drop.
    assert (slice pos (length s - pos) bl = drop pos s) as Hsl.
    { unfold slice. rewrite <- Hdr, skipn_firstn_comm. done. }
    apply (mwp_mono _ _ (λ _ h', h' = upd g b t k (write_at (pos - acc) (drop pos s) bl))).
    { destruct (Z.ltb_spec (Z.of_nat pos) (Z.of_nat (length s))).
      - apply mwp_bind. eapply mwp_get_data; [done|].
        replace (Z.of_nat pos - Z.of_nat acc) with (Z.of_nat (pos - acc)) by lia.
        replace (Z.of_nat (length s) - Z.of_nat pos) with (Z.of_nat (length s - pos)) by lia.
        apply mwp_move; [lia..|]. by rewrite !Nat2Z.id, Hsl.
      - apply mwp_ret. assert (drop pos s = []) as -> by (apply nil_length_inv; lia). by rewrite write_at_nil by lia. }
    intros _ ? ->. apply mwp_bind, mwp_set_slen, mwp_bind, mwp_hdr_eq, mwp_bind. eapply mwp_get_data; [done|].
    set (s' := take (pos - acc) bl ++ drop pos s). assert (length s' = length s - acc)%nat as Hl'
      by (unfold s'; rewrite length_app, length_take; lia). cbn [slen].
    replace (Z.of_nat (length s) - Z.of_nat acc) with (Z.of_nat (length s')) by lia.
    apply mwp_close; cbn [mlen slen data]; try done; rewrite ?length_write_at by lia; try lia.
    + rewrite Hl'. apply take_write_at; lia.
    + intros bl' Hb'. eauto.
Qed.

(** *** A longer replacement *)

(** The places of the occurrences from [pos] on. *)
Inductive places : nat → list nat → Prop :=
| places_none pos : (∀ p, (pos ≤ p)%nat → ¬ occurs eqb s find p) → places pos []
| places_next pos p l :
    (pos ≤ p)%nat → occurs eqb s find p → (∀ p', (pos ≤ p' < p)%nat → ¬ occurs eqb s find p') →
    places (p + length find) l → places pos (p :: l).

(** From [pos] on, with the places replaced, to [next]; [tail] follows. *)
Fixpoint build (pos : nat) (l : list nat) (next : nat) (tail : list Z) : list Z :=
  match l with
  | [] => slice pos (next - pos) s ++ tail
  | p :: l => slice pos (p - pos) s ++ repl ++ build (p + length find) l next tail
  end.
Fixpoint fitted (pos : nat) (l : list nat) (next : nat) : Prop :=
  match l with [] => (pos ≤ next)%nat | p :: l => (pos ≤ p)%nat ∧ fitted (p + length find) l next end.

Lemma places_build pos l :
  places pos l → (pos ≤ length s)%nat →
  fitted pos l (length s) ∧ build pos l (length s) [] = replaced eqb find repl 0 (drop pos s).
Proof.
  induction 1 as [pos Hno|pos p l Hp Ho Hno Hl IH]; intros Hpos; cbn [fitted build].
  - split; [done|]. rewrite replaced_none, app_nil_r by done. unfold slice. apply take_ge. rewrite length_drop. lia.
  - pose proof Ho as [Hpl _]. destruct IH as [Hf Hb]; [lia|]. split; [done|].
    by rewrite Hb, (replaced_next _ _ _ some pos p).
Qed.
Lemma build_snoc pos l p next tail :
  build pos (l ++ [p]) next tail = build pos l p (repl ++ slice (p + length find) (next - (p + length find)) s ++ tail).
Proof. revert pos. induction l as [|x l IH]; intros pos; cbn [app build]; [done|]. by rewrite IH. Qed.
Lemma fitted_snoc pos l p next :
  fitted pos (l ++ [p]) next ↔ fitted pos l p ∧ (p + length find ≤ next)%nat.
Proof.
  revert pos. induction l as [|x l IH]; intros pos; cbn [app fitted]; [done|]. rewrite IH. tauto.
Qed.
Lemma fitted_le pos l next : fitted pos l next → (pos ≤ next)%nat.
Proof. revert pos. induction l as [|x l IH]; intros pos; cbn [fitted]; [done|]. intros [? ?%IH]. lia. Qed.

Lemma beside_bump g f' : beside g → beside (bump g f').
Proof. intros [? ? [] [] ? ?]. by split. Qed.

Lemma find_places_spec g t bl (e : nat) fuel : beside g → current t bl s →
  (length repl = length find + e)%nat → Z.of_nat (length s) ≤ INT_MAX → Z.of_nat e ≤ INT_MAX →
  ∀ f1 mlen acc pos d, (fresh g ≤ f1)%nat → (pos ≤ length s)%nat → (length s - pos < fuel)%nat → 0 ≤ acc ≤ INT_MAX →
  mwp (find_places instr fuel b f (- Z.of_nat e) mlen acc (Z.of_nat pos) d) (upd (bump g f1) b t k bl)
    (λ x h', ∃ f2, (fresh g ≤ f2)%nat ∧ h' = upd (bump g f2) b t k bl ∧
      match x with
      | None => True
      | Some (l, acc') => ∃ ps, l = d ++ map Z.of_nat ps ∧ places pos ps ∧
          acc' = acc + Z.of_nat (length ps * e) ∧ 0 ≤ acc' ≤ INT_MAX
      end).
Proof.
  intros Hg Hc Heq Hmax He. assert (0 < length find)%nat as Hfl by (destruct find; [done|cbn; lia]).
  induction fuel as [|fuel IH]; intros f1 mlen acc pos d Hf1 Hp Hfuel Hacc; [lia|]. cbn [find_places].
  eapply search; [by apply beside_bump|done|done|done|]. intros i Hi.
  destruct Hi as [[-> Hno]|(p&->&Hpp&Ho&Hno)]; cbn [Z.ltb Z.compare BSTR_ERR].
  - apply mwp_ret. exists f1. split; [done|]. split; [done|]. exists []. cbn [map length Nat.mul].
    split; [by rewrite app_nil_r|]. split; [by constructor|]. lia.
  - pose proof Ho as [Hpl _]. rewrite (proj2 (Z.ltb_ge (Z.of_nat p) 0)) by lia.
    apply mwp_bind. apply (mwp_mono _ _ (λ m h', ∃ f2, (fresh g ≤ f2)%nat ∧ h' = upd (bump g f2) b t k bl)).
    { unfold more_places. destruct (_ <=? _); [|apply mwp_ret; eauto].
      destruct (_ || _); [apply mwp_ret; eauto|]. apply mwp_bind. unfold mwp at 1, try_alloc. cbn.
      exists (S f1). split; [lia|done]. }
    intros [m|] h1 (f2&Hf2&->); [|apply mwp_ret; eauto].
    apply hdr_find; [by apply beside_bump|]. intros tf ->. unfold INT_MAX in *.
    rewrite (s32_small (_ + _)), <- Nat2Z.inj_add by lia. rewrite (proj2 (Z.ltb_ge (Z.of_nat _) 0)) by lia. cbn [orb].
    destruct (Z.ltb_spec (s32 (acc - - Z.of_nat e)) 0) as [|Hnn]; [apply mwp_ret; eauto|].
    replace (acc - - Z.of_nat e) with (acc + Z.of_nat e) in * by lia.
    pose proof (s32_max (acc + Z.of_nat e)) as Hle. rewrite s32_sum in * by (unfold INT_MAX; lia).
    eapply mwp_mono; [eapply (IH f2 m (acc + Z.of_nat e)); [done|lia|lia|unfold INT_MAX in Hle; lia]|].
    intros [[l acc']|] h2 (f3&Hf3&->&Hx); exists f3; (split; [done|split; [done|]]); [|done].
    destruct Hx as (ps&->&Hps&->&Hrange). exists (p :: ps). cbn [map length].
    split; [by rewrite <- app_assoc|]. split; [by econstructor|]. split; lia.
Qed.

Lemma drop_patch n i l (bl : list Z) :
  (i + length l ≤ n ≤ length bl)%nat → drop i (take n (write_at i l bl)) = l ++ drop (i + length l) (take n bl).
Proof. intros Hn. rewrite take_patch by done. apply drop_app_length'. rewrite !length_take. lia. Qed.

(** What is between two occurrences goes to its place, then the replacement before it. *)
Lemma spread_turn {B} g t bl p acc next N tail (K : () → M B) R :
  beside g → data t = Some (Ptr k 0) → (p + length find ≤ next ≤ length s)%nat →
  (length find < length repl ≤ length find + acc)%nat → take next bl = take next s →
  drop (next + acc) (take N bl) = tail → (next + acc + length tail = N)%nat → (N ≤ length bl)%nat →
  (∀ bl', length bl' = length bl → take p bl' = take p s →
    drop (p + length find + acc - length repl) (take N bl') =
      repl ++ slice (p + length find) (next - (p + length find)) s ++ tail →
    mwp (K tt) (upd g b t k bl') R) →
  mwp ((if Z.of_nat next - (Z.of_nat p + Z.of_nat (length find)) =? 0 then mret tt
        else d ← get_data b;
             memmove d (Z.of_nat p + Z.of_nat (length find) + Z.of_nat acc) d (Z.of_nat p + Z.of_nat (length find))
               (Z.of_nat next - (Z.of_nat p + Z.of_nat (length find))));;
       tr ← hdr r;
       (if slen tr =? 0 then mret tt
        else d ← get_data b; q ← get_data r;
             memmove d (Z.of_nat p + Z.of_nat (length find) + Z.of_nat acc - slen tr) q 0 (slen tr)) ≫= K)
    (upd g b t k bl) R.
Proof.
  intros Hg Hd Hp Hr Hnext Htail Hlt HN HK. set (e := (p + length find)%nat) in *.
  assert (take p bl = take p s) as Htp.
  { apply (f_equal (take p)) in Hnext. rewrite !take_take in Hnext. by replace (Nat.min p next) with p in Hnext by lia. }
  assert (slice e (next - e) bl = slice e (next - e) s) as Hsl.
  { apply (f_equal (drop e)) in Hnext. rewrite !skipn_firstn_comm in Hnext. exact Hnext. }
  assert (length (slice e (next - e) bl) = next - e)%nat as Hsll by (apply slice_length; lia). apply mwp_bind.
  apply (mwp_mono _ _ (λ _ h', ∃ bl1, h' = upd g b t k bl1 ∧ length bl1 = length bl ∧ take p bl1 = take p s ∧
    drop (e + acc) (take N bl1) = slice e (next - e) s ++ tail)).
  { replace (Z.of_nat p + Z.of_nat (length find)) with (Z.of_nat e) by lia.
    destruct (Z.eqb_spec (Z.of_nat next - Z.of_nat e) 0).
    - apply mwp_ret. exists bl. split; [done|]. split; [done|]. split; [done|].
      replace next with e in * by lia. by rewrite Nat.sub_diag, slice_zero.
    - apply mwp_bind. eapply mwp_get_data; [done|]. rewrite <- Nat2Z.inj_add.
      replace (Z.of_nat next - Z.of_nat e) with (Z.of_nat (next - e)) by lia.
      apply mwp_move; [lia..|]. rewrite !Nat2Z.id. eexists. split; [done|]. split; [apply length_write_at; lia|].
      split; [rewrite take_write_before by lia; done|]. rewrite drop_patch, Hsll, Hsl by lia.
      f_equal. rewrite <- Htail. f_equal. lia. }
  intros _ h1 (bl1&->&Hl1&Ht1&Hd1). apply hdr_repl; [done|]. intros tr ->.
  rewrite (proj2 (Z.eqb_neq _ _)) by lia.
  apply mwp_bind, mwp_bind. eapply mwp_get_data; [done|]. apply data_repl; [done|].
  replace (Z.of_nat p + Z.of_nat (length find) + Z.of_nat acc - Z.of_nat (length repl))
    with (Z.of_nat (e + acc - length repl)) by lia.
  eapply mwp_bind_inv, (put_repl g t bl1 _ K); [done|lia|]. apply HK.
  - rewrite length_write_at; lia.
  - rewrite take_write_before by lia. done.
  - rewrite drop_patch by lia. f_equal. rewrite <- Hd1. f_equal. lia.
Qed.

Lemma spread_spec g t (e N pos : nat) l :
  beside g → data t = Some (Ptr k 0) → (length repl = length find + e)%nat → (0 < e)%nat →
  ∀ bl next tail, fitted pos l next → (next ≤ length s)%nat → take next bl = take next s →
  drop (next + length l * e) (take N bl) = tail → (next + length l * e + length tail = N)%nat → (N ≤ length bl)%nat →
  mwp (spread b f r (- Z.of_nat e) (reverse (map Z.of_nat l)) (Z.of_nat next) (Z.of_nat (length l * e)))
    (upd g b t k bl) (λ _ h', ∃ bl', h' = upd g b t k bl' ∧ length bl' = length bl ∧
      take N bl' = take pos s ++ build pos l next tail).
Proof.
  intros Hg Hd Heq He. induction l as [|p l IH] using rev_ind; intros bl next tail Hf Hn Hnext Htail Hlt HN.
  - cbn [length Nat.mul reverse map] in *. rewrite Nat.add_0_r in *. apply mwp_ret. exists bl. split; [done|].
    split; [done|]. cbn [build fitted] in *. rewrite app_assoc, <- Htail.
    unfold slice. rewrite <- take_join by done. rewrite <- Hnext, <- (take_drop next (take N bl)) at 1.
    rewrite take_take. do 2 f_equal. lia.
  - apply fitted_snoc in Hf as [Hf Hp]. pose proof (fitted_le _ _ _ Hf).
    rewrite length_app in *. cbn [length] in *. rewrite map_app, reverse_app. cbn [map].
    assert (∃ A, A = ((length l + 1) * e)%nat ∧ (A = e + length l * e)%nat) as (A&HA&HA') by (eexists; split; [done|lia]).
    rewrite <- HA in *. change (reverse [Z.of_nat p]) with [Z.of_nat p]. cbn [app spread].
    apply hdr_find; [done|]. intros tf ->.
    eapply (spread_turn g t bl p A next N tail); [done|done|lia|lia|done|done|done|done|].
    intros bl' Hl' Htp Htl. replace (Z.of_nat A + - Z.of_nat e) with (Z.of_nat (length l * e)) by lia.
    eapply mwp_mono; [eapply (IH bl' p); [done|lia|done|reflexivity| |lia]|].
    + rewrite length_drop, length_take. lia.
    + intros _ h' (bl2&->&Hl2&Ht2). exists bl2. split; [done|]. split; [lia|]. rewrite Ht2, build_snoc. do 2 f_equal.
      rewrite <- Htl. f_equal. lia.
Qed.
End Engine.
