(* ===== verification/BstrReplaceAll.v ===== *)
(** The engine of find and replace on the strings of a client: whichever case applies,
    and whether or not the arguments are the string itself, every occurrence is
    replaced, or the call fails and nothing has changed. *)
From S2P Require Import Prelude Bstr BstrMem BstrSpec BstrOps BstrFind BstrFindSpec BstrRefine BstrList BstrListSpec.
From S2P Require Import BstrIO BstrCell BstrReplace BstrReplaceSpec.
#[local] Open Scope Z_scope.

Section Any.
Context `{AllocatorLaws} (instr : bstring → Z → bstring → M Z) (eqb : Z → Z → bool) `{!Finder instr eqb}.
Context (h : heap) (b : nat) (t : tagbstring) (k : nat) (bl : list Z) (f r : nat) (qf qr : ptr) (find repl s : list Z).
Hypothesis some : find ≠ [].
Hypothesis own : owns h b t k bl s.
Hypothesis rest : beside b f r k qf qr find repl (Heap (delete k (blocks h)) (strs h) (fresh h)).

Lemma owned : upd (Heap (delete k (blocks h)) (strs h) (fresh h)) b t k bl = h.
Proof. destruct own. by apply upd_delete_id. Qed.
Lemma owned_current : current k s t bl s.
Proof. destruct own as [_ _ Hb _]. pose proof (buffer_fits _ _ _ _ Hb). destruct Hb. by split. Qed.

(** They stay beside a block that is new. *)
Lemma beside_moved k' f' :
  k' = k ∨ (fresh h ≤ k')%nat → beside b f r k' qf qr find repl (Heap (delete k (blocks h)) (strs h) f').
Proof using own rest.
  destruct own as [_ _ _ Hh]. destruct rest as [? ? [Hf Hbf] [Hr Hbr] ? ?]. intros Hk'.
  assert (∀ q l, bytes_at (Heap (delete k (blocks h)) (strs h) (fresh h)) q l → blk q ≠ k → blk q ≠ k') as Hne.
  { intros q l (bq&Hq&_) Hqk Ek. cbn in Hq. apply lookup_delete_Some in Hq as [_ Hq]. destruct Hk' as [->|?]; [done|].
    pose proof (heap_ok_block_lt _ _ _ Hh Hq). lia. }
  split; try done; eauto.
Qed.

Lemma succeeds_kept t' bl' s' : buffer t' k bl' s' →
  succeeds h b k s' BSTR_OK (upd (Heap (delete k (blocks h)) (strs h) (fresh h)) b t' k bl').
Proof. intros. split; [done|]. exists t', k, bl', (fresh h). split_and!; try done. by left. Qed.

Lemma replace_any_same pos fuel :
  length find = length repl → (pos ≤ length s)%nat → (length s - pos < fuel)%nat →
  mwp (replace_same instr fuel b f r (Z.of_nat pos);; mret BSTR_OK) h
    (succeeds h b k (take pos s ++ replaced eqb find repl 0 (drop pos s))).
Proof using All.
  intros Hl Hp Hfuel. rewrite <- owned at 1. apply mwp_bind.
  eapply mwp_mono; [eapply (replace_same_spec instr eqb); [done|done|by symmetry|apply owned_current|done|done|done]|].
  intros _ h' (bl'&->&Hl'&Hd&Ht). apply mwp_ret, succeeds_kept. destruct own as [_ _ Hb _].
  pose proof (buffer_fits _ _ _ _ Hb). set (s' := take pos s ++ _) in *.
  assert (length s' = length s) as Hs' by (rewrite <- Ht, length_take; lia).
  destruct Hb as [? Hm ? ? Hn ?]. split; rewrite ?Hs'; try done; [by rewrite Hl'|].
  rewrite <- Hn, <- (Nat.add_0_r (length s)), <- !lookup_drop, Hd. done.
Qed.

Lemma replace_any_shorter pos fuel (d : nat) :
  (length find = d + length repl)%nat → (pos ≤ length s)%nat → (length s - pos < fuel)%nat →
  mwp ('(acc, p) ← replace_shorter instr fuel b f r (Z.of_nat d) 0 (Z.of_nat pos); close_gap b acc p;; mret BSTR_OK) h
    (succeeds h b k (take pos s ++ replaced eqb find repl 0 (drop pos s))).
Proof using All.
  intros Hl Hp Hfuel. rewrite <- owned at 1. apply mwp_bind. destruct own as [_ _ Hb _].
  pose proof (buffer_fits _ _ _ _ Hb).
  eapply mwp_mono; [eapply (replace_shorter_spec instr eqb) with (acc := 0%nat); [done|done|done|apply owned_current|done|lia|lia]|].
  intros ? h' (bl'&acc&p&->&->&Hap&Hl'&Hd&Hdp&Ht). apply mwp_bind.
  rewrite Nat.sub_0_r in Ht. replace (take pos bl) with (take pos s) in Ht.
  2: { rewrite <- (buf_bytes _ _ _ _ Hb), take_take. f_equal. lia. }
  assert (bl' !! length s = Some 0) as Hnul.
  { rewrite <- (buf_nul _ _ _ _ Hb), <- (Nat.add_0_r (length s)), <- !lookup_drop, Hd. done. }
  eapply mwp_mono; [eapply close_gap_spec; [exact rest|rewrite Hl'; apply Hb|apply Hb|apply Hb|apply Hb|
    exact Hap|lia|exact Hnul|exact Hdp|exact Ht]|].
  intros _ ? (t'&b'&->&?). by apply mwp_ret, succeeds_kept.
Qed.

Lemma replace_any_longer pos fuel (e : nat) :
  (length repl = length find + e)%nat → (0 < e)%nat → Z.of_nat e ≤ INT_MAX → (pos ≤ length s)%nat →
  (length s - pos < fuel)%nat →
  mwp (replace_longer instr fuel b f r (- Z.of_nat e) (Z.of_nat pos)) h
    (effect h b k (take pos s ++ replaced eqb find repl 0 (drop pos s))).
Proof using All.
  intros Hl He Hmax Hp Hfuel. pose proof own as [Ha Hk Hb Hh]. pose proof (buffer_fits _ _ _ _ Hb).
  pose proof (buf_max _ _ _ _ Hb). pose proof (buf_mlen _ _ _ _ Hb). pose proof (buf_slen _ _ _ _ Hb) as Hsl.
  unfold replace_longer. apply mwp_bind.
  set (g := Heap (delete k (blocks h)) (strs h) (fresh h)).
  eapply mwp_mono.
  { rewrite <- owned. change (upd _ b t k bl) with (upd (bump g (fresh g)) b t k bl).
    eapply (find_places_spec instr eqb b f r k qf qr find repl s some g t bl e fuel rest owned_current Hl);
      [lia|lia|done|done|done|]. unfold INT_MAX; lia. }
  intros x h1 (f2&Hf2&E&Hx). cbn in Hf2.
  assert (h1 = Heap (blocks h) (strs h) f2) as ->.
  { rewrite E. unfold upd, bump, g. cbn. by rewrite insert_delete_id, insert_id. }
  destruct x as [[l acc]|]; [|apply mwp_ret; right; split; [done|by exists f2]].
  destruct Hx as (ps&->&Hps&->&Hacc). rewrite Z.add_0_l in *. cbn [app].
  destruct (places_build eqb find repl s some _ _ Hps Hp) as [Hfit Hbuild].
  apply mwp_bind. eapply mwp_hdr; [exact Ha|]. rewrite Hsl. apply mwp_bind.
  eapply mwp_mono; [apply (balloc_spec (Heap (blocks h) (strs h) f2) b t k bl s); [done|done|done|by apply heap_ok_bump|apply s32_max]|].
  intros rr h2 [(->&Hpos&t'&k'&b'&f3&->&Hb'&[Hroom _]&Hk'&Hf3)|(->&Hs)]; cbn [Z.eqb BSTR_OK BSTR_ERR].
  2: { apply mwp_bind, mwp_ret, mwp_ret. right. split; [done|]. eapply same_trans; [|exact Hs]. by exists f2. }
  cbn in Hpos, Hroom, Hk', Hf3. set (n := (length ps * e)%nat) in *.
  replace (Z.of_nat (length s) + Z.of_nat n + 1) with (Z.of_nat (length s) + 1 + Z.of_nat n) in Hpos, Hroom by lia.
  rewrite s32_sum in Hroom by lia. pose proof (buf_mlen _ _ _ _ Hb') as Hm'. pose proof (buf_max _ _ _ _ Hb').
  apply mwp_bind, mwp_bind, mwp_set_slen, mwp_bind. cbn [blocks strs].
  pose proof (buffer_fits _ _ _ _ Hb').
  eapply mwp_mono; [eapply (spread_spec b f r k' qf qr find repl s _ _ e (length s + n) pos ps)
    with (next := length s) (tail := []); [|apply Hb'|done|done|done|done| | |cbn [length]; lia|lia]|].
  - apply (beside_moved k' f3). lia.
  - rewrite firstn_all. apply Hb'.
  - apply drop_ge. rewrite length_take. lia.
  - intros _ h' (b2&->&Hl2&Ht2). rewrite Hbuild in Ht2. set (s' := take pos s ++ _) in *.
    assert (length s' = length s + n)%nat as Hs' by (rewrite <- Ht2, length_take; lia).
    apply mwp_bind, mwp_hdr_eq, mwp_bind. eapply mwp_get_data; [by apply Hb'|]. cbn [slen].
    rewrite <- Nat2Z.inj_add, <- Hs'. apply mwp_close; cbn [mlen slen data]; rewrite ?Hs', ?Hl2; try done; try lia.
    + apply Hb'.
    + intros b3 Hb3. apply mwp_ret. left. split; [done|]. eexists _, k', b3, f3. split; [done|].
      split; [done|]. split; [done|]. lia.
Qed.

Lemma replace_any_spec pos fuel :
  Z.of_nat (length find) ≤ INT_MAX → Z.of_nat (length repl) ≤ INT_MAX → (pos ≤ length s)%nat →
  (length s - pos < fuel)%nat →
  mwp (replace_any instr fuel b f r (Z.of_nat (length find) - Z.of_nat (length repl)) (Z.of_nat pos)) h
    (λ ret h', effect h b k (take pos s ++ replaced eqb find repl 0 (drop pos s)) ret h' ∧
      ((length repl ≤ length find)%nat → ret = BSTR_OK)).
Proof using All.
  intros Hf Hr Hp Hfuel. unfold replace_any. destruct (Z.eqb_spec (Z.of_nat (length find) - Z.of_nat (length repl)) 0).
  - eapply mwp_mono; [apply replace_any_same; lia|]. intros ret h' [-> ?]. split; [by left|done].
  - destruct (Z.ltb_spec 0 (Z.of_nat (length find) - Z.of_nat (length repl))).
    + replace (_ - _) with (Z.of_nat (length find - length repl)) by lia.
      eapply mwp_mono; [apply replace_any_shorter; lia|]. intros ret h' [-> ?]. split; [by left|done].
    + replace (_ - _) with (- Z.of_nat (length repl - length find)) by lia.
      eapply mwp_mono; [apply replace_any_longer; lia|]. intros ret h' ?. split; [done|lia].
Qed.
End Any.

(** ** On the strings of a client *)

(** [y] stands for the argument [c] next to the string [b]: [c] itself or a copy, which
    is one more string. *)
Definition aside (w : world) (b c y : nat) (l : list Z) (w' : world) : Prop :=
  y ≠ b ∧ w' !! y = Some l ∧ ((y = c ∧ w' = w) ∨ (y ≠ c ∧ w !! y = None ∧ w' = <[y := l]> w)).
Definition back (y c : nat) (w : world) : world := if decide (y = c) then w else delete y w.

Lemma aside_kept w b c y l w' x v : aside w b c y l w' → w !! x = Some v → w' !! x = Some v.
Proof. intros (_&_&[(_&->)|(_&?&->)]) Hx; [done|]. rewrite lookup_insert_ne by congruence. done. Qed.
Lemma back_kept w b f r yf yr lf lr w1 w2 s' :
  aside w b f yf lf w1 → aside w1 b r yr lr w2 → is_Some (w !! r) →
  back yf f (<[b := s']> w2) !! yr = Some lr.
Proof.
  intros (_&Hyf&Hf) (Hb&Hyr&Hr) [lr' Hw].
  assert (<[b := s']> w2 !! yr = Some lr) as Hl by by rewrite lookup_insert_ne by congruence.
  unfold back. destruct (decide (yf = f)) as [|Hne]; [done|]. rewrite lookup_delete_ne; [done|].
  destruct Hf as [[? _]|(_&Hn&_)]; [done|]. destruct Hr as [[-> _]|(_&Hn'&_)]; congruence.
Qed.
Lemma back_one w b f yf lf w1 s' : aside w b f yf lf w1 → back yf f (<[b := s']> w1) = <[b := s']> w.
Proof.
  intros (Hb&_&[(->&->)|(Hne&Hn&->)]); unfold back; [by rewrite decide_True|].
  rewrite decide_False, delete_insert_ne, delete_insert_id by done. done.
Qed.
Lemma back_two w b f r yf yr lf lr w1 w2 s' :
  aside w b f yf lf w1 → aside w1 b r yr lr w2 →
  back yr r (back yf f (<[b := s']> w2)) = <[b := s']> w.
Proof.
  intros Hf (Hb&_&[(->&->)|(Hne&Hn&->)]).
  - rewrite (back_one _ _ _ _ _ _ _ Hf). unfold back. by rewrite decide_True.
  - destruct Hf as (Hbf&Hyf&[(->&->)|(Hnf&Hnn&->)]).
    + unfold back at 2. rewrite decide_True by done. apply (back_one w b r yr lr).
      split; [done|]. split; [apply lookup_insert_eq|]. by right.
    + assert (yr ≠ yf) as Hyy by (intros ->; by rewrite lookup_insert_eq in Hn).
      unfold back. rewrite !decide_False, !(delete_insert_ne _ yf), delete_insert_id by done.
      rewrite delete_insert_ne, delete_insert_id; [done| |done]. by rewrite lookup_insert_ne in Hn.
Qed.

Section Client.
Context `{AllocatorLaws}.

Lemma copy_aside h w b c s l cnd :
  holds h w → w !! b = Some s → w !! c = Some l → short l → (cnd = true ↔ c = b) →
  mwp (copy_if cnd c) h (λ x h1, match x with
    | None => c = b ∧ holds h1 w
    | Some y => ∃ w', aside w b c y l w' ∧ holds h1 w'
    end).
Proof.
  intros Hw Hb Hc Hs Hcnd. unfold copy_if. destruct cnd.
  - assert (c = b) as -> by by apply Hcnd. destruct (holds_readable _ _ _ _ Hw Hc) as [q Hq].
    eapply mwp_mono; [eapply bstrcpy_spec; [by apply (holds_heap _ _ Hw)|exact Hq|unfold short, INT_MAX in *; lia]|].
    intros [y|] h1 Hh1; [|split; [done|by eapply holds_same]].
    destruct (holds_created _ _ _ _ _ Hw Hh1) as [Hy Hh]. assert (y ≠ b) by congruence.
    exists (<[y := l]> w). split; [|done]. split; [done|]. split; [apply lookup_insert_eq|]. by right.
  - apply mwp_ret. exists w. split; [|done]. split; [|split; [done|by left]]. intros E. by apply Hcnd in E.
Qed.
Lemma release_back h w y c l :
  holds h w → w !! y = Some l → mwp (release y c) h (λ _ h', holds h' (back y c w)).
Proof.
  intros Hw Hy. unfold release, back. destruct (decide (y = c)); [by apply mwp_ret|].
  destruct (holds_str _ _ Hw _ _ Hy) as (t&k&bl&Ho). apply mwp_bind.
  eapply mwp_mono; [by eapply bdestroy_spec|]. intros r h' [_ ->]. apply mwp_ret. by eapply holds_removed.
Qed.

(** The test for an overlap: strings have blocks of their own, so it is a test for the
    same string. *)
Lemma between_same h w b c t k bl s tc kc blc l lo hi :
  holds h w → owns h b t k bl s → owns h c tc kc blc l → (c = b → lo < 0 < hi) →
  between (data tc) (data t) lo hi = true ↔ c = b.
Proof.
  intros Hw [Hb Hk Hbb _] [Hc Hkc Hbc _] Hr. rewrite (buf_data _ _ _ _ Hbb), (buf_data _ _ _ _ Hbc). cbn [between blk off].
  rewrite !andb_true_iff, bool_decide_eq_true, !Z.ltb_lt. split.
  - intros [[-> _] _]. eapply (holds_apart _ _ Hw); [done..|].
    by rewrite (buf_data _ _ _ _ Hbb), (buf_data _ _ _ _ Hbc).
  - intros ->. specialize (Hr eq_refl). rewrite Hb in Hc. injection Hc as <-.
    assert (Some (Ptr kc 0) = Some (Ptr k 0)) as [= ->] by by rewrite <- (buf_data _ _ _ _ Hbb), <- (buf_data _ _ _ _ Hbc).
    split; [split; [done|]|]; lia.
Qed.

Context (instr : bstring → Z → bstring → M Z) (eqb : Z → Z → bool) `{!Finder instr eqb}.

(** The string [b] has become [s'], or the call was refused and nothing has changed,
    which only happens when [φ]. *)
Definition done_or_not (φ : Prop) (w : world) (b : nat) (s' : list Z) (ret : Z) (h' : heap) : Prop :=
  (ret = BSTR_OK ∧ holds h' (<[b := s']> w)) ∨ (φ ∧ ret = BSTR_ERR ∧ holds h' w).

Lemma replace_any_holds h w b f r s find repl pos fuel :
  holds h w → w !! b = Some s → w !! f = Some find → w !! r = Some repl → f ≠ b → r ≠ b →
  find ≠ [] → short find → short repl → (pos ≤ length s)%nat → (length s - pos < fuel)%nat →
  mwp (replace_any instr fuel b f r (Z.of_nat (length find) - Z.of_nat (length repl)) (Z.of_nat pos)) h
    (done_or_not (length find < length repl)%nat w b (take pos s ++ replaced eqb find repl 0 (drop pos s))).
Proof.
  intros Hw Hb Hf Hr Hfb Hrb some Hsf Hsr Hp Hfuel.
  destruct (holds_str _ _ Hw _ _ Hb) as (t&k&bl&Ho). destruct (holds_str _ _ Hw _ _ Hf) as (tf&kf&blf&Hof).
  destruct (holds_str _ _ Hw _ _ Hr) as (tr&kr&blr&Hor).
  assert (∀ c tc kc blc l, c ≠ b → owns h c tc kc blc l →
    kc ≠ k ∧ readable (Heap (delete k (blocks h)) (strs h) (fresh h)) c (Ptr kc 0) l) as Hrd.
  { intros c tc kc blc l Hcb [Hsc Hkc Hbc _]. destruct Ho as [Hsb _ Hbb _].
    assert (kc ≠ k) as Hkk.
    { intros ->. apply Hcb. eapply (holds_apart _ _ Hw); [done..|].
      by rewrite (buf_data _ _ _ _ Hbb), (buf_data _ _ _ _ Hbc). }
    split; [done|]. eapply buffer_readable; cbn; [done| |done]. by rewrite lookup_delete_ne. }
  destruct (Hrd _ _ _ _ _ Hfb Hof) as [? ?]. destruct (Hrd _ _ _ _ _ Hrb Hor) as [? ?].
  unfold short, INT_MAX in *.
  eapply mwp_mono; [eapply (replace_any_spec instr eqb h b t k bl f r (Ptr kf 0) (Ptr kr 0) find repl s some Ho);
    [by split|unfold INT_MAX; lia..|done|done]|].
  intros ret h' [[[-> Hre]|[-> Hsame]] Hok]; [left; split; [done|by eapply holds_rebuilt]|right].
  split; [|split; [done|by eapply holds_same]].
  destruct (decide (length find < length repl)%nat); [done|]. discriminate Hok. lia.
Qed.

(** What is refused. *)
Lemma engine_refuses h w b f r s find repl pos :
  holds h w → w !! b = Some s → w !! f = Some find → w !! r = Some repl →
  (pos <? 0) || bool_decide (find = []) = true →
  mwp (findreplaceengine instr (Some b) (Some f) (Some r) pos) h (λ ret h', ret = BSTR_ERR ∧ h' = h).
Proof.
  intros Hw Hb Hf Hr E. destruct (holds_str _ _ Hw _ _ Hb) as (t&k&bl&[Hst _ Hbb _]).
  destruct (holds_str _ _ Hw _ _ Hf) as (tf&kf&blf&[Hsft _ Hbf _]).
  destruct (holds_str _ _ Hw _ _ Hr) as (tr&kr&blr&[Hsrt _ Hbr _]).
  unfold findreplaceengine. apply mwp_bind. eapply mwp_hdr; [exact Hst|].
  apply mwp_bind. eapply mwp_hdr; [exact Hsft|]. apply mwp_bind. eapply mwp_hdr; [exact Hsrt|].
  rewrite (buf_slen _ _ _ _ Hbf). apply orb_true_iff in E as [->|E%bool_decide_eq_true]; [|rewrite E]; cbn [length Z.of_nat Z.leb];
    rewrite !orb_true_r; by apply mwp_ret.
Qed.

Lemma findreplaceengine_spec h w b f r s find repl pos :
  holds h w → w !! b = Some s → w !! f = Some find → w !! r = Some repl →
  short s → short find → short repl → find ≠ [] →
  mwp (findreplaceengine instr (Some b) (Some f) (Some r) (Z.of_nat pos)) h
    (done_or_not (f = b ∨ r = b ∨ (length find < length repl)%nat) w b (take pos s ++ replaced eqb find repl 0 (drop pos s))).
Proof.
  intros Hw Hb Hf Hr Hss Hsf Hsr some. assert (0 < length find)%nat as Hfl by (destruct find; [done|cbn; lia]).
  destruct (holds_str _ _ Hw _ _ Hb) as (t&k&bl&Ho). destruct (holds_str _ _ Hw _ _ Hf) as (tf&kf&blf&Hof).
  destruct (holds_str _ _ Hw _ _ Hr) as (tr&kr&blr&Hor).
  pose proof Ho as [Hst _ Hbb _]. pose proof Hof as [Hsft _ Hbf _]. pose proof Hor as [Hsrt _ Hbr _].
  unfold findreplaceengine. apply mwp_bind. eapply mwp_hdr; [exact Hst|].
  apply mwp_bind. eapply mwp_hdr; [exact Hsft|]. apply mwp_bind. eapply mwp_hdr; [exact Hsrt|].
  pose proof (buffer_fits _ _ _ _ Hbb). pose proof (buf_mlen _ _ _ _ Hbb).
  unfold no_data. rewrite (buf_data _ _ _ _ Hbb), (buf_data _ _ _ _ Hbf), (buf_data _ _ _ _ Hbr), !bool_decide_eq_false_2 by done.
  rewrite (buf_slen _ _ _ _ Hbb), (buf_slen _ _ _ _ Hbf), (buf_slen _ _ _ _ Hbr).
  rewrite !(proj2 (Z.ltb_ge _ _)), !(proj2 (Z.leb_gt _ _)) by lia. cbn [orb].
  destruct (Z.ltb_spec (Z.of_nat (length s) - Z.of_nat (length find)) (Z.of_nat pos)) as [Hout|Hin].
  { apply mwp_ret. left. split; [done|]. rewrite replaced_none, take_drop, insert_id by (done || intros p Hp [? _]; lia).
    done. }
  assert (∀ x l, w !! x = Some l → x = b → l = s) as Heq by (intros x l Hx ->; congruence).
  apply mwp_bind. rewrite <- (buf_data _ _ _ _ Hbb), <- (buf_data _ _ _ _ Hbf), <- (buf_data _ _ _ _ Hbr).
  eapply mwp_mono; [eapply (copy_aside h w b f s find _ Hw Hb Hf Hsf)|].
  { eapply between_same; [done..|]. intros ->. rewrite (Heq _ _ Hf eq_refl) in *. lia. }
  intros [yf|] h1; [|intros [-> Hh1]; apply mwp_ret; right; by split; [left|]]. intros (w1&Hy1&Hh1).
  assert (w1 !! b = Some s ∧ w1 !! r = Some repl) as [Hb1 Hr1] by (split; by eapply aside_kept).
  apply mwp_bind. eapply mwp_mono; [eapply (copy_aside h1 w1 b r s repl _ Hh1 Hb1 Hr1 Hsr)|].
  { eapply (between_same h w b r); [done..|]. intros ->. rewrite (Heq _ _ Hr eq_refl) in *. lia. }
  intros [yr|] h2 Hy.
  2: { destruct Hy as [-> Hy]. apply mwp_bind. eapply mwp_mono; [eapply (release_back _ w1); [done|apply Hy1]|].
       intros ? h3 Hh3. apply mwp_ret. right. split; [by right; left|]. split; [done|]. cbn in Hh3.
       rewrite <- (insert_id w1 b s), (back_one _ _ _ _ _ _ _ Hy1), insert_id in Hh3 by done. done. }
  destruct Hy as (w2&Hy2&Hh2).
  assert (w2 !! b = Some s ∧ w2 !! yf = Some find) as [Hb2 Hf2].
  { split; eapply aside_kept; [exact Hy2|done|exact Hy2|apply Hy1]. }
  destruct (holds_readable _ _ _ _ Hh2 Hf2) as [qf [(tf2&Htf2&_&Hlf) _]].
  destruct (holds_readable _ w2 yr repl Hh2 ltac:(apply Hy2)) as [qr [(tr2&Htr2&_&Hlr) _]].
  apply mwp_bind. eapply mwp_hdr; [exact Htf2|]. apply mwp_bind. eapply mwp_hdr; [exact Htr2|]. rewrite Hlf, Hlr.
  apply mwp_bind. eapply mwp_mono; [eapply (replace_any_holds h2 w2 b yf yr s find repl); try done; [apply Hy2|apply Hy1|apply Hy2|lia..]|].
  intros ret h3 Hret. set (s' := take pos s ++ _) in *.
  assert (∃ x, holds h3 (<[b := x]> w2) ∧ (ret = BSTR_OK ∧ x = s' ∨ (length find < length repl)%nat ∧ ret = BSTR_ERR ∧ x = s)) as (x&Hh3&Hx).
  { destruct Hret as [[-> ?]|(?&->&?)]; eexists; (split; [|by eauto]); [done|by rewrite insert_id]. }
  apply mwp_bind. eapply mwp_mono; [eapply (release_back _ _ yf f find Hh3); rewrite lookup_insert_ne; [done|apply not_eq_sym, Hy1]|].
  intros ? h4 Hh4. cbn in Hh4. apply mwp_bind. eapply mwp_mono; [eapply (release_back _ _ yr r repl Hh4), (back_kept _ _ _ _ _ _ _ _ _ _ _ Hy1 Hy2); eauto|].
  intros ? h5 Hh5. cbn in Hh5. rewrite (back_two _ _ _ _ _ _ _ _ _ _ _ Hy1 Hy2) in Hh5. apply mwp_ret.
  destruct Hx as [[-> ->]|(?&->&->)]; [by left|right]. rewrite insert_id in Hh5 by done. by split; [right; right|].
Qed.
End Client.

(** ** The interface *)

Section Interface.
Context `{AllocatorLaws}.

(** C22. [bfindreplace] and [bfindreplacecaseless] on the strings of a client, whichever of
    them the three arguments are (two or all of them may be one string): the call runs
    without a fault and every occurrence from [pos] on is replaced, the leftmost first
    and none inside another, while the other strings stay as they are; or the
    call answers [BSTR_ERR] and nothing has changed, and then an argument had to be
    copied or the string had to grow. A negative position and an empty string
    to look for are refused. *)
Theorem bfindreplace_replaces (caseless : bool) h w b f r s find repl pos :
  holds h w → w !! b = Some s → w !! f = Some find → w !! r = Some repl →
  short s → short find → short repl →
  let engine := if caseless then bfindreplacecaseless else bfindreplace in
  let eqb := if caseless then eq_caseless else Z.eqb in
  ∃ ret h', engine (Some b) (Some f) (Some r) pos h = Done (ret, h') ∧
    if (pos <? 0) || bool_decide (find = []) then ret = BSTR_ERR ∧ h' = h
    else
      let n := Z.to_nat pos in
      (ret = BSTR_OK ∧ holds h' (<[b := take n s ++ replaced eqb find repl 0 (drop n s)]> w)) ∨
      ((f = b ∨ r = b ∨ (length find < length repl)%nat) ∧ ret = BSTR_ERR ∧ holds h' w).
Proof.
  intros Hw Hb Hf Hr Hss Hsf Hsr. cbv zeta.
  assert (∀ (instr : bstring → Z → bstring → M Z) eqb, Finder instr eqb → ∃ ret h',
    findreplaceengine instr (Some b) (Some f) (Some r) pos h = Done (ret, h') ∧
    if (pos <? 0) || bool_decide (find = []) then ret = BSTR_ERR ∧ h' = h
    else done_or_not (f = b ∨ r = b ∨ (length find < length repl)%nat) w b
      (take (Z.to_nat pos) s ++ replaced eqb find repl 0 (drop (Z.to_nat pos) s)) ret h') as Hall.
  { intros instr eqb ?. destruct ((pos <? 0) || bool_decide (find = [])) eqn:E.
    - by apply mwp_done, (engine_refuses instr h w b f r s find repl).
    - apply orb_false_iff in E as [?%Z.ltb_ge ?%bool_decide_eq_false]. apply mwp_done.
      rewrite <- (Z2Nat.id pos) at 1 by done. by apply findreplaceengine_spec. }
  destruct caseless; apply Hall; apply _.
Qed.
End Interface.

(** "abcabca" with "<+>" for "bc", from 2 on. *)
Lemma bfindreplace_replaces_witness :
  let h := place (place (place heap0 [97; 98; 99; 97; 98; 99; 97]) [98; 99]) [60; 43; 62] in
  ∃ ret h', bfindreplace (Some 0%nat) (Some 1%nat) (Some 2%nat) 2 h = Done (ret, h') ∧ ret = BSTR_OK ∧
    holds h' (<[0%nat := [97; 98; 99; 97; 60; 43; 62; 97]]>
      (<[2%nat := [60; 43; 62]]> (<[1%nat := [98; 99]]> (<[0%nat := [97; 98; 99; 97; 98; 99; 97]]> ∅)))).
Proof.
  set (h := place _ _). cbv zeta.
  assert (holds h (<[2%nat := [60; 43; 62]]> (<[1%nat := [98; 99]]> (<[0%nat := [97; 98; 99; 97; 98; 99; 97]]> ∅)))) as Hw.
  { apply (place_holds (place (place heap0 _) _)); [|done]. apply (place_holds (place heap0 _)); [|done].
    by apply (place_holds heap0); [apply holds_start|]. }
  destruct (bfindreplace_replaces false h _ 0 1 2 [97; 98; 99; 97; 98; 99; 97] [98; 99] [60; 43; 62] 2 Hw)
    as (ret&h'&Hrun&Hret); [by vm_compute..|].
  exists ret, h'. split; [exact Hrun|]. pose proof Hrun as Hc. vm_compute in Hc. injection Hc as <- <-.
  split; [done|]. destruct Hret as [[_ Hret]|(_&E&_)]; [exact Hret|discriminate E].
Defined.
