(* ===== verification/BstrFormat.v ===== *)
(** Formatted output into byte strings (bstrlib.c, on the memory of Bstr): the buffer
    that grows until vsnprintf has room, and the macro [bvformata] of bstrlib.h.

    A format and its arguments stand for the bytes they print; vsnprintf stores as
    many of them as fit before a NUL. What it returns differs between C libraries
    (bstrlib.c:2781), so that it is a parameter, whatever the size. A call that fails
    and leaves the buffer undefined is left out. *)
From S2P Require Import Prelude Bstr BstrIO.
#[local] Open Scope Z_scope.

Definition START_VSNBUFF : Z := 16.

(** The bytes that are printed, and what vsnprintf returns for a size. *)
Record printed := Printed { text : list Z; returned : Z → Z }.
Implicit Types q : printed.

(** [vsnprintf (p + i, n, fmt, arglist)] *)
Definition vsnprintf q (p : ptr) (i n : Z) : M Z :=
  (if n <=? 0 then mret tt else write p i (take (Z.to_nat n - 1) (text q) ++ [0]));; mret (s32 (returned q n)).

(** [strlen (p)] *)
Definition strlen (p : ptr) : M Z := seek (λ c, c =? 0) p 0.

Section Format.
Context `{Allocator}.

(** [2*strlen (fmt)], or the least size. *)
Definition start_size (fmt : list Z) : Z :=
  let n := s32 (2 * Z.of_nat (length fmt)) in if n <? START_VSNBUFF then START_VSNBUFF else n.

(** The loop: it ends when the text is shorter than [n], or without memory. *)
Fixpoint format_loop (fuel : nat) q (b : nat) (n : Z) : M bool :=
  match fuel with
  | O => λ _, Bug
  | S fuel =>
      p ← get_data b;
      r ← vsnprintf q p 0 (n + 1);
      store p n 0;;
      l ← strlen p; set_slen b l;;
      if l <? n then mret true
      else
        let n := if n <? r then r else s32 (n + n) in
        ret ← balloc (Some b) (s32 (n + 2));
        if ret =? BSTR_OK then format_loop fuel q b n else bdestroy (Some b);; mret false
  end.

(** What the three functions begin with. [n] grows with each turn. *)
Definition format_buffer (fmt : list Z) q : M bstring :=
  let n := start_size fmt in
  buff ← bfromcstralloc (s32 (n + 2)) (Some []);
  '(buff, n) ← match buff with
               | Some _ => mret (buff, n)
               | None => buff ← bfromcstralloc 3 (Some []); mret (buff, 1)
               end;
  match buff with
  | None => mret None
  | Some b => ok ← format_loop (S (length (text q))) q b n; mret (if ok : bool then buff else None)
  end.

Definition bformat (fmt : cstr) q : M bstring :=
  match fmt with None => mret None | Some fmt => format_buffer fmt q end.

Definition format_into (f : bstring → bstring → M Z) (b : bstring) (fmt : cstr) q : M Z :=
  match b, fmt with
  | Some a, Some fmt =>
      t ← hdr a;
      if no_data t || unappendable t then mret BSTR_ERR
      else
        buff ← format_buffer fmt q;
        match buff with
        | None => mret BSTR_ERR
        | Some _ => r ← f b buff; bdestroy buff;; mret r
        end
  | _, _ => mret BSTR_ERR
  end.
Definition bformata := format_into bconcat.
Definition bassignformat := format_into bassign.

(** [for (l = b->slen; l <= n; l++)], for the first NUL. *)
Fixpoint nul_loop (fuel : nat) (p : ptr) (l : Z) : M (option Z) :=
  match fuel with
  | O => mret None
  | S fuel => c ← read p l 1; c ← lift (at_ c 0); if c =? 0 then mret (Some l) else nul_loop fuel p (l + 1)
  end.

Definition bvcformata (b : bstring) (count : Z) (fmt : cstr) q : M Z :=
  match b, fmt with
  | Some a, Some _ =>
      t ← hdr a;
      if (count <=? 0) || no_data t || unappendable t then mret BSTR_ERR
      else
        let n := s32 (slen t + count) in
        if s32 (n + 2) <? count then mret BSTR_ERR
        else
          ret ← balloc b (s32 (n + 2));
          if negb (ret =? BSTR_OK) then mret BSTR_ERR
          else
            p ← get_data a;
            r ← vsnprintf q p (slen t) (count + 2);
            l ← nul_loop (Z.to_nat (n - slen t + 1)) p (slen t);
            match l with
            | Some l => set_slen a l;; mret BSTR_OK
            | None =>
                store p (slen t) 0;;
                let n := if count + 1 <? r then r
                         else let n := s32 (count + count) in if n <? count then INT_MAX else n in
                mret (if BSTR_ERR - 1 <? - n then BSTR_ERR - 1 else - n)
            end
  | _, _ => mret BSTR_ERR
  end.

(** The macro: the count grows until the text fits. *)
Fixpoint vformata_loop (fuel : nat) (b : bstring) (sz : Z) (fmt : cstr) q : M Z :=
  match fuel with
  | O => λ _, Bug
  | S fuel =>
      r ← bvcformata b sz fmt q;
      if 0 <=? r then mret BSTR_OK
      else if - r <=? sz then mret BSTR_ERR
      else vformata_loop fuel b (- r) fmt q
  end.
Definition bvformata (b : bstring) (fmt : cstr) q : M Z := vformata_loop (S (length (text q))) b 16 fmt q.
End Format.

(** ** Runs *)

(** vsnprintf of C99, and one that answers -1 when the text does not fit. *)
Definition c99 (l : list Z) : printed := Printed l (λ _, Z.of_nat (length l)).
Definition old (l : list Z) : printed := Printed l (λ n, if Z.of_nat (length l) <? n then Z.of_nat (length l) else -1).

Definition format_run (q : printed) : outcome (list Z) :=
  (b ← bfromcstr (Some [62]); _ ← bformata b (Some [37; 115]) q; lift (deref b) ≫= contents) heap0 ≫= (λ x, Done x.1).
Definition vformat_run (q : printed) : outcome (list Z) :=
  (b ← bfromcstr (Some [62]); _ ← bvformata b (Some [37; 115]) q; lift (deref b) ≫= contents) heap0 ≫= (λ x, Done x.1).

(** 40 bytes behind ">", whatever vsnprintf returns. *)
Example format_runs :
  let l := replicate 40 97 in
  format_run (c99 l) = Done (62 :: l) ∧ format_run (old l) = Done (62 :: l) ∧
  vformat_run (c99 l) = Done (62 :: l) ∧ vformat_run (old l) = Done (62 :: l).
Proof. vm_compute. auto. Qed.

(** The text ends at its first NUL. *)
Example format_nul : format_run (c99 [97; 0; 98]) = Done [62; 97].
Proof. vm_compute. reflexivity. Qed.
