(* ===== verification/BstrFormatSpec.v ===== *)
(** Formatted output (BstrFormat): whatever vsnprintf returns, the loops end, and the
    string holds what was printed, up to the first NUL. *)
From S2P Require Import Prelude Bstr BstrMem BstrSpec BstrOps BstrMore BstrFind BstrFindSpec BstrRefine BstrList BstrListSpec.
From S2P Require Import BstrIO BstrCell BstrReplaceAll BstrFormat.
#[local] Open Scope Z_scope.

(** ** Up to the first NUL *)

Fixpoint until_nul (l : list Z) : list Z :=
  match l with [] => [] | c :: l => if c =? 0 then [] else c :: until_nul l end.

Lemma until_nul_take n l : until_nul (take n l) = take n (until_nul l).
Proof.
  revert n. induction l as [|c l IH]; intros [|n]; cbn; try done. destruct (c =? 0); [done|]. cbn. by rewrite IH.
Qed.
Lemma until_nul_some l : Forall (λ c, c ≠ 0) (until_nul l).
Proof. induction l as [|c l IH]; cbn; [done|]. destruct (Z.eqb_spec c 0); by constructor. Qed.
Lemma until_nul_length l : (length (until_nul l) ≤ length l)%nat.
Proof. induction l as [|c l IH]; cbn; [done|]. destruct (c =? 0); cbn; lia. Qed.
(** Where it stops, in a block that starts with the text and a NUL. *)
Lemma until_nul_block l b :
  take (length l + 1) b = l ++ [0] →
  take (length (until_nul l)) b = until_nul l ∧ b !! length (until_nul l) = Some 0.
Proof.
  revert b. induction l as [|c l IH]; intros [|y b] Hb; try done; cbn in *.
  - injection Hb as ->. done.
  - injection Hb as -> Hb. destruct (Z.eqb_spec c 0) as [->|]; [done|]. cbn. destruct (IH _ Hb) as [-> ?]. done.
Qed.

(** ** vsnprintf and strlen *)

Lemma mwp_strlen h a t k b s (Q : Z → heap → Prop) :
  take (length s) b = s → Forall (λ c, c ≠ 0) s → b !! length s = Some 0 →
  Q (Z.of_nat (length s)) (upd h a t k b) → mwp (strlen (Ptr k 0)) (upd h a t k b) Q.
Proof.
  intros Hs Hne Hn HQ. unfold strlen, seek. apply mwp_bind. unfold block, mwp at 1, lift. cbn.
  rewrite lookup_insert_eq. cbn. rewrite decide_True by (unfold in_range; cbn; lia).
  eapply mwp_lift; [|exact HQ]. change (drop _ b) with b.
  rewrite (scan_to_spec (λ c, c =? 0) (s ++ [0]) _ 0 (length s)); [f_equal; lia| | |].
  - rewrite length_app, Nat.add_1_r. by rewrite (take_S_r b (length s) 0), Hs.
  - exists 0. split; [|done]. by rewrite lookup_app_r, Nat.sub_diag by done.
  - intros i y Hi Hy. rewrite lookup_app_l in Hy by lia. apply Z.eqb_neq.
    by eapply Forall_lookup_1 in Hne.
Qed.

(** What the block holds when [n] bytes and a NUL were asked for, and a NUL was stored
    behind them. *)
Lemma printed_block n l (b : list Z) :
  (n < length b)%nat →
  let b' := write_at n [0] (write_at 0 (take n l ++ [0]) b) in
  length b' = length b ∧ take (length (take n l) + 1) b' = take n l ++ [0].
Proof.
  intros Hn. cbv zeta. set (v := take n l). assert (length v ≤ n)%nat as Hv by (unfold v; rewrite length_take; lia).
  assert (length (v ++ [0%Z]) = length v + 1)%nat as Hl by (rewrite length_app; done).
  assert (length (write_at 0 (v ++ [0]) b) = length b) as Hb1 by (rewrite length_write_at; lia).
  assert (take (length v + 1) (write_at 0 (v ++ [0]) b) = v ++ [0]) as Hv1 by (rewrite take_write_at by lia; done).
  rewrite length_write_at by (cbn; lia). split; [done|]. destruct (decide (length v = n)) as [He|].
  - rewrite take_write_at by (cbn; lia). f_equal. rewrite <- He.
    apply (f_equal (take (length v))) in Hv1. rewrite take_take, take_app_length, Nat.min_l in Hv1 by lia. exact Hv1.
  - rewrite take_write_before by lia. done.
Qed.

Section Format.
Context `{AllocatorLaws}.

Lemma mwp_vsnprintf q h a t k b i n (Q : Z → heap → Prop) :
  (i + n < length b)%nat →
  (∀ r, r ≤ INT_MAX → Q r (upd h a t k (write_at i (take n (text q) ++ [0]) b))) →
  mwp (vsnprintf q (Ptr k 0) (Z.of_nat i) (Z.of_nat n + 1)) (upd h a t k b) Q.
Proof.
  intros Hi HQ. unfold vsnprintf. rewrite (proj2 (Z.leb_gt _ _)) by lia.
  replace (Z.to_nat (Z.of_nat n + 1) - 1)%nat with n by lia.
  apply mwp_bind, mwp_write.
  - unfold in_range. rewrite length_app, length_take. cbn. lia.
  - rewrite Nat2Z.id. apply mwp_ret, HQ, s32_max.
Qed.

Lemma s32_over z : 2 ^ 31 ≤ z < 2 ^ 32 + 2 ^ 31 → s32 z = z - 2 ^ 32.
Proof. intros Hz. unfold s32. rewrite <- (Z_mod_plus_full _ (-1)), Z.mod_small by lia. lia. Qed.

(** The next size: it is larger, or the sum that balloc is asked for is negative. *)
Lemma next_size (n : nat) r :
  Z.of_nat n + 2 ≤ INT_MAX → r ≤ INT_MAX → (1 ≤ n)%nat →
  let m := if Z.of_nat n <? r then r else s32 (Z.of_nat n + Z.of_nat n) in
  0 < s32 (m + 2) → s32 (m + 2) = m + 2 ∧ Z.of_nat n < m.
Proof.
  intros Hn Hr H1 m Hm. unfold INT_MAX in *. subst m. destruct (Z.ltb_spec (Z.of_nat n) r).
  - split; [|done]. apply s32_sum; unfold INT_MAX; lia.
  - destruct (decide (Z.of_nat n + Z.of_nat n < 2 ^ 31)).
    + rewrite (s32_small (Z.of_nat n + Z.of_nat n)) in Hm |- * by lia. split; [|lia]. apply s32_sum; unfold INT_MAX; lia.
    + exfalso. rewrite (s32_over (Z.of_nat n + Z.of_nat n)) in Hm by lia. rewrite s32_small in Hm by lia. lia.
Qed.

(** A string that only this computation knows. *)
Definition ended (g : heap) (x k : nat) (s : list Z) (ok : bool) (h' : heap) : Prop :=
  ∃ f, (fresh g ≤ f)%nat ∧
    if ok then ∃ t' k' b', buffer t' k' b' s ∧ (k' = k ∨ (fresh g ≤ k' < f)%nat) ∧ h' = upd (bump g f) x t' k' b'
    else h' = bump g f.

Lemma format_loop_spec q x fuel : ∀ g t k b s n,
  frame g x k → strs g !! x = None → buffer t k b s → Z.of_nat n + 2 ≤ mlen t → (1 ≤ n)%nat →
  (0 < fuel)%nat → (length (until_nul (text q)) + 1 < fuel + n)%nat →
  mwp (format_loop fuel q x (Z.of_nat n)) (upd g x t k b) (ended g x k (until_nul (text q))).
Proof.
  induction fuel as [|fuel IH]; intros g t k b s n Hg Hx Hb Hm Hn Hpos Hfuel; [lia|].
  cbn [format_loop]. apply mwp_bind. eapply mwp_get_data; [by apply Hb|].
  pose proof (buf_mlen _ _ _ _ Hb) as Hml. pose proof (buf_max _ _ _ _ Hb) as Hmax.
  apply mwp_bind, (mwp_vsnprintf q g x t k b 0 n); [lia|]. intros r Hr.
  apply mwp_bind, mwp_store; [rewrite length_write_at; rewrite ?length_app, ?length_take; cbn; lia|]. rewrite Nat2Z.id.
  destruct (printed_block n (text q) b) as [Hl2 Hb2]; [lia|]. set (b2 := write_at n _ _) in *.
  apply until_nul_block in Hb2 as [Ht2 Hn2]. rewrite until_nul_take in *. set (u := take n (until_nul (text q))) in *.
  apply mwp_bind. eapply (mwp_strlen _ _ _ _ _ u); [done|by apply Forall_take, until_nul_some|done|].
  apply mwp_bind, mwp_set_slen.
  assert (buffer (Tag (mlen t) (Z.of_nat (length u)) (data t)) k b2 u) as Hbu.
  { split; cbn; try done; [by apply Hb|lia]. }
  destruct (Z.ltb_spec (Z.of_nat (length u)) (Z.of_nat n)) as [Hlt|Hge].
  - apply mwp_ret. exists (fresh g). split; [done|]. eexists _, k, b2. split; [|split; [by left|by destruct g]].
    unfold u in Hlt. rewrite length_take in Hlt. assert (u = until_nul (text q)) as <- by (apply take_ge; lia). done.
  - assert (length u = n) as Hu by (unfold u in *; rewrite length_take in *; lia).
    cbv zeta. set (m := if _ <? r then _ else _). apply mwp_bind.
    pose proof (upd_heap_ok g x (Tag (mlen t) (Z.of_nat (length u)) (data t)) k b2 Hg) as Hok.
    eapply mwp_mono; [eapply balloc_spec; [apply lookup_insert_eq|apply lookup_insert_eq|exact Hbu|done|apply s32_max]|].
    intros ret h1 [(->&Hpos1&t1&k1&b1&f1&->&Hb1&[Hroom _]&Hk1&Hf1)|(->&f1&->&Hf1)]; cbn [Z.eqb BSTR_OK BSTR_ERR]; cbn in Hf1.
    + destruct (next_size n r) as [Hm1 Hm2]; [lia|done|done|done|]. fold m in Hm1, Hm2. rewrite Hm1 in Hroom.
      replace m with (Z.of_nat (Z.to_nat m)) by lia.
      replace (upd (Heap (delete k (blocks _)) _ f1) x t1 k1 b1) with (upd (bump g f1) x t1 k1 b1).
      2: { unfold upd, bump. cbn. by rewrite delete_insert_id, insert_insert_eq by apply Hg. }
      eapply mwp_mono; [eapply (IH (bump g f1) t1 k1 b1 u); [by eapply frame_bump|done|done|lia|lia|unfold u in Hu; rewrite length_take in Hu; lia..]|].
      intros ok h2 (f2&Hf2&Hres). exists f2. cbn in *. split; [lia|]. destruct ok; [|done].
      destruct Hres as (t'&k'&b'&?&?&->). exists t', k', b'. split; [done|]. split; [lia|done].
    + apply mwp_bind. eapply mwp_mono; [eapply bdestroy_spec|].
      { split; [apply lookup_insert_eq|apply lookup_insert_eq|exact Hbu|by apply heap_ok_bump]. }
      intros ? h2 [_ ->]. apply mwp_ret. exists f1. split; [done|]. unfold bump. cbn.
      by rewrite !delete_insert_id by (done || apply Hg).
Qed.

(** An empty string with room for [m] bytes. *)
Definition roomy_empty (h : heap) (m : Z) (r : option nat) (h' : heap) : Prop :=
  match r with
  | None => same h h'
  | Some x => ∃ t k b f, (fresh h ≤ x < f)%nat ∧ (fresh h ≤ k < f)%nat ∧ buffer t k b [] ∧ m ≤ mlen t ∧
      h' = upd (Heap (blocks h) (strs h) f) x t k b
  end.
Lemma bfromcstralloc_room h m :
  heap_ok h → m ≤ INT_MAX → mwp (bfromcstralloc m (Some [])) h (roomy_empty h m).
Proof.
  intros Hh Hm. unfold bfromcstralloc.
  change (cstr_size (Z.of_nat (length []))) with 8. change (s32 (Z.of_nat (length []))) with 0.
  change (8 <=? 0) with false. cbn iota zeta.
  set (n := if _ <? m then m else _).
  assert (m ≤ n ∧ 0 < n ≤ INT_MAX) as (?&?&?).
  { unfold n. clear n. destruct (Z.ltb_spec 8 m); unfold INT_MAX in *; lia. }
  apply mwp_bind. eapply mwp_mono; [apply new_bstring_spec; [done|lia]|].
  intros [[x p]|] h1; [|intros; by apply mwp_ret]. intros (k&b&f&Hx&Hk&->&Hb&->).
  apply mwp_bind, mwp_write; [unfold in_range; cbn; lia|]. apply mwp_ret. eexists _, k, _, f.
  split; [done|]. split; [done|]. split; [|split; [|done]]; [|cbn; lia].
  rewrite <- Hb. by apply (buffer_close k b []); [|cbn; lia|lia].
Qed.

Lemma format_from q h x t k b f n :
  heap_ok h → (fresh h ≤ x < f)%nat → (fresh h ≤ k < f)%nat → buffer t k b [] → Z.of_nat n + 2 ≤ mlen t → (1 ≤ n)%nat →
  mwp (format_loop (S (length (text q))) q x (Z.of_nat n)) (upd (Heap (blocks h) (strs h) f) x t k b) (λ ok,
    created h (until_nul (text q)) (if ok : bool then Some x else None)).
Proof.
  intros Hh Hx Hk Hb Hm Hn. pose proof (until_nul_length (text q)).
  assert (frame (Heap (blocks h) (strs h) f) x k) as Hg.
  { split; cbn; [apply heap_ok_bump; [done|lia]|lia|lia|]. apply eq_None_not_Some. intros ?%Hh. lia. }
  eapply mwp_mono; [eapply (format_loop_spec q x _ _ t k b []); [exact Hg| |done|done|done|lia|lia]|].
  { apply eq_None_not_Some. cbn. intros ?%Hh. lia. }
  intros ok h' (f'&Hf&Hres). cbn in *. destruct ok; [|exists f'; split; [done|lia]].
  destruct Hres as (t'&k'&b'&?&?&->). exists t', k', b', f'. split_and!; try done; lia.
Qed.

Lemma format_buffer_spec fmt q h :
  heap_ok h → short fmt → mwp (format_buffer fmt q) h (created h (until_nul (text q))).
Proof.
  intros Hh Hfmt. unfold short in Hfmt. unfold format_buffer.
  assert (∃ n, start_size fmt = Z.of_nat n ∧ (1 ≤ n)%nat ∧ Z.of_nat n < 2 ^ 30) as (n&->&Hn&Hmax).
  { unfold start_size, START_VSNBUFF. rewrite s32_small by lia. destruct (Z.ltb_spec (2 * Z.of_nat (length fmt)) 16).
    - exists 16%nat. split; [done|]. lia.
    - exists (2 * length fmt)%nat. lia. }
  rewrite s32_small by lia. apply mwp_bind.
  eapply mwp_mono; [apply bfromcstralloc_room; [done|unfold INT_MAX; lia]|]. intros r h1 Hr. apply mwp_bind.
  apply (mwp_mono _ _ (λ x h', ∃ m : nat, x.2 = Z.of_nat m ∧ (1 ≤ m)%nat ∧ roomy_empty h (Z.of_nat m + 2) x.1 h')).
  { destruct r as [x|]; [by apply mwp_ret; exists n|]. destruct Hr as (f&->&Hf).
    apply mwp_bind. eapply mwp_mono; [apply bfromcstralloc_room; [by apply heap_ok_bump|done]|].
    intros r h2 Hr. apply mwp_ret. exists 1%nat. split; [done|]. split; [done|].
    destruct r as [x|]; cbn in *.
    - destruct Hr as (t&k&b&f'&?&?&?&?&->). exists t, k, b, f'. split_and!; try done; lia.
    - destruct Hr as (f'&->&?). exists f'. cbn in *. split; [done|lia]. }
  intros [buff z] h2 (m&Hz&Hm&Hbuff). cbn in Hz, Hbuff. subst z. destruct buff as [x|]; [|by apply mwp_ret].
  destruct Hbuff as (t&k&b&f&Hx&Hk&Hb&Hmt&->). apply mwp_bind.
  eapply mwp_mono; [by eapply (format_from q h x t k b f m)|]. intros ok h3 Hok. by apply mwp_ret.
Qed.

(** *** bvcformata *)

Lemma mwp_nul_loop h a t k b fuel : ∀ i x (Q : option Z → heap → Prop),
  take (length x + 1) (drop i b) = x ++ [0] →
  Q (if decide (length (until_nul x) < fuel)%nat then Some (Z.of_nat (i + length (until_nul x))) else None) (upd h a t k b) →
  mwp (nul_loop fuel (Ptr k 0) (Z.of_nat i)) (upd h a t k b) Q.
Proof.
  induction fuel as [|fuel IH]; intros i x Q Hx HQ; cbn [nul_loop]; [by apply mwp_ret|].
  destruct (drop i b) as [|y b'] eqn:Ed; [by destruct x|].
  assert (i < length b)%nat as Hi by (apply (f_equal length) in Ed; rewrite length_drop in Ed; cbn in Ed; lia).
  assert (slice i 1 b = [y]) as Hsl by (unfold slice; by rewrite Ed).
  apply mwp_bind, mwp_read; [unfold in_range; lia|]. rewrite Nat2Z.id. change (Z.to_nat 1) with 1%nat. rewrite Hsl.
  apply mwp_bind. eapply mwp_lift; [done|]. destruct x as [|c x]; cbn in Hx.
  - injection Hx as ->. cbn [Z.eqb]. apply mwp_ret. cbn [until_nul length] in HQ. rewrite decide_True, Nat.add_0_r in HQ by lia. done.
  - injection Hx as -> Hx. cbn [until_nul] in HQ. destruct (Z.eqb_spec c 0); cbn [length] in HQ.
    + apply mwp_ret. rewrite decide_True, Nat.add_0_r in HQ by lia. done.
    + replace (Z.of_nat i + 1) with (Z.of_nat (S i)) by lia. apply (IH _ x).
      * replace (S i) with (i + 1)%nat by lia. by rewrite <- drop_drop, Ed.
      * destruct (decide (length (until_nul x) < fuel)%nat).
        -- rewrite decide_True in HQ by lia. by replace (S i + length (until_nul x))%nat with (i + S (length (until_nul x)))%nat by lia.
        -- by rewrite decide_False in HQ by lia.
Qed.

Lemma count_sum z count :
  0 ≤ z ≤ INT_MAX → 0 < count ≤ INT_MAX → count ≤ s32 (s32 (z + count) + 2) →
  s32 (z + count) = z + count ∧ s32 (z + count + 2) = z + count + 2.
Proof.
  intros Hz Hc Hle. unfold INT_MAX in *. destruct (decide (z + count < 2 ^ 31)).
  - rewrite (s32_small (z + count)) in Hle |- * by lia. split; [done|].
    destruct (decide (z + count + 2 < 2 ^ 31)); [by apply s32_small; lia|]. rewrite s32_over in Hle by lia. lia.
  - rewrite (s32_over (z + count)) in Hle by lia. rewrite s32_small in Hle by lia. lia.
Qed.

(** The text is appended when it has at most [count] bytes. Otherwise nothing has
    changed and the answer, below -count, says how much to ask for. *)
Definition counted q (count : nat) h a k s (r : Z) (h' : heap) : Prop :=
  if decide (length (until_nul (text q)) ≤ count)%nat then effect h a k (s ++ until_nul (text q)) r h'
  else (- INT_MAX ≤ r < - Z.of_nat count ∧ r < BSTR_ERR ∧ rebuilt h a k s (λ _, True) h') ∨ (r = BSTR_ERR ∧ same h h').

Lemma bvcformata_spec q h a t k b s (count : nat) fmt :
  owns h a t k b s → (0 < count)%nat → Z.of_nat count ≤ INT_MAX →
  mwp (bvcformata (Some a) (Z.of_nat count) (Some fmt) q) h (counted q count h a k s).
Proof.
  intros Ho Hc Hmax. pose proof Ho as [Ha Hk Hb Hh]. pose proof (buffer_fits _ _ _ _ Hb).
  pose proof (buf_mlen _ _ _ _ Hb). pose proof (buf_max _ _ _ _ Hb).
  assert (∀ h', same h h' → counted q count h a k s BSTR_ERR h') as Herr.
  { intros h' Hs. unfold counted. destruct (decide _); right; done. }
  unfold bvcformata. apply mwp_bind. eapply mwp_hdr; [exact Ha|]. unfold no_data, unappendable.
  rewrite (buf_data _ _ _ _ Hb), (buf_slen _ _ _ _ Hb), bool_decide_eq_false_2 by done.
  rewrite !(proj2 (Z.ltb_ge _ _)), !(proj2 (Z.leb_gt _ _)) by lia. cbn [orb].
  destruct (Z.ltb_spec (s32 (s32 (Z.of_nat (length s) + Z.of_nat count) + 2)) (Z.of_nat count)) as [|Hle].
  { apply mwp_ret, Herr, same_refl. }
  apply count_sum in Hle as [E1 E2]; [|lia|lia]. rewrite E1, E2.
  apply mwp_bind. eapply mwp_mono; [eapply balloc_spec; [done..|rewrite <- E2; apply s32_max]|].
  intros r h' [(->&Hpos&t'&k'&b'&f&->&Hb'&[Hroom _]&Hk'&Hf)|(->&Hs)]; cbn [Z.eqb BSTR_OK BSTR_ERR negb];
    [|by apply mwp_ret, Herr].
  pose proof (buf_mlen _ _ _ _ Hb') as Hm'. pose proof (buf_max _ _ _ _ Hb'). pose proof (buffer_fits _ _ _ _ Hb').
  apply mwp_bind. eapply mwp_get_data; [by apply Hb'|]. apply mwp_bind.
  replace (Z.of_nat count + 2) with (Z.of_nat (count + 1) + 1) by lia.
  apply (mwp_vsnprintf q _ _ _ _ _ (length s) (count + 1)); [lia|]. intros r Hr.
  set (x := take (count + 1) (text q)). assert (length x ≤ count + 1)%nat as Hx by (unfold x; rewrite length_take; lia).
  set (b2 := write_at (length s) (x ++ [0]) b').
  assert (length (x ++ [0%Z]) = length x + 1)%nat as Hlx by (rewrite length_app; done).
  assert (length b2 = length b') as Hb2 by (apply length_write_at; lia).
  assert (take (length s + (length x + 1)) b2 = s ++ x ++ [0]) as Ht2.
  { unfold b2. rewrite take_write_at by lia. f_equal. apply Hb'. }
  assert (take (length x + 1) (drop (length s) b2) = x ++ [0]) as Hd2.
  { rewrite <- (Nat.add_sub (length x + 1) (length s)), <- skipn_firstn_comm, Nat.add_comm, Ht2. by rewrite drop_app_length. }
  assert (take (length s) b2 = s) as Hs2.
  { apply (f_equal (take (length s))) in Ht2. rewrite take_take, take_app_length, Nat.min_l in Ht2 by lia. done. }
  apply mwp_bind. replace (Z.to_nat _) with (count + 1)%nat by lia. eapply mwp_nul_loop; [exact Hd2|].
  pose proof (until_nul_block x _ Hd2) as [Hu Hn]. set (l := until_nul (text q)) in *.
  assert (until_nul x = take (count + 1) l) as El by apply until_nul_take. unfold counted. fold l.
  destruct (decide (length l ≤ count)%nat).
  - rewrite take_ge in El by lia. rewrite El in *. rewrite decide_True by lia.
    apply mwp_bind, mwp_set_slen, mwp_ret. apply effect_moved; [done|done|].
    split; cbn; try done; [by apply Hb'|lia|by rewrite length_app| |].
    + by rewrite length_app, <- take_take_drop, Hs2, Hu.
    + rewrite length_app, <- lookup_drop. done.
  - rewrite decide_False by (rewrite El, length_take; lia). apply mwp_bind, mwp_close; try done; try lia; [apply Hb'|by apply Hb'|].
    intros b3 Hb3. cbv zeta. apply mwp_ret.
    set (m := if _ <? r then _ else _). assert (Z.of_nat count < m ≤ INT_MAX) as Hm.
    { unfold m, INT_MAX in *. destruct (Z.ltb_spec (Z.of_nat count + 1) r); [lia|].
      destruct (Z.ltb_spec (s32 (Z.of_nat count + Z.of_nat count)) (Z.of_nat count)) as [|Hge]; [lia|].
      pose proof (s32_max (Z.of_nat count + Z.of_nat count)) as Hle. unfold INT_MAX in Hle.
      rewrite s32_sum in * by (unfold INT_MAX; lia). lia. }
    left. unfold BSTR_ERR. split; [unfold INT_MAX in *; destruct (Z.ltb_spec (-1 - 1) (- m)); lia|]. split; [destruct (Z.ltb_spec (-1 - 1) (- m)); lia|].
    exists t', k', b3, f. done.
Qed.

(** ** On the strings of a client *)

Lemma bformat_spec q h w fmt :
  holds h w → short fmt → mwp (bformat (Some fmt) q) h (λ x h', match x with
    | None => holds h' w
    | Some x => w !! x = None ∧ holds h' (<[x := until_nul (text q)]> w)
    end).
Proof.
  intros Hw Hf. eapply mwp_mono; [apply format_buffer_spec; [by apply (holds_heap _ _ Hw)|done]|].
  intros [x|] h' Hx; [by eapply holds_created|by eapply holds_same].
Qed.

(** The buffer is put into the string by [f] and given back. *)
Lemma format_into_spec f q h w a s s' fmt :
  (∀ h1 w1 x, holds h1 w1 → w1 !! a = Some s → w1 !! x = Some (until_nul (text q)) → x ≠ a →
    mwp (f (Some a) (Some x)) h1 (done_or_not True w1 a s')) →
  holds h w → w !! a = Some s → short fmt →
  mwp (format_into f (Some a) (Some fmt) q) h (done_or_not True w a s').
Proof.
  intros Hf Hw Ha Hfmt. destruct (holds_str _ _ Hw _ _ Ha) as (t&k&b&[Hst _ Hb _]).
  pose proof (buffer_fits _ _ _ _ Hb). pose proof (buf_mlen _ _ _ _ Hb).
  unfold format_into. apply mwp_bind. eapply mwp_hdr; [done|]. unfold no_data, unappendable.
  rewrite (buf_data _ _ _ _ Hb), (buf_slen _ _ _ _ Hb), bool_decide_eq_false_2 by done.
  rewrite !(proj2 (Z.ltb_ge _ _)), !(proj2 (Z.leb_gt _ _)) by lia. cbn [orb].
  apply mwp_bind. eapply mwp_mono; [by apply (bformat_spec q h w fmt)|].
  intros [x|] h1 Hx; [|apply mwp_ret; by right]. destruct Hx as [Hx Hw1]. assert (x ≠ a) by congruence.
  apply mwp_bind. eapply mwp_mono; [apply (Hf h1 _ x Hw1); [by rewrite lookup_insert_ne|apply lookup_insert_eq|done]|].
  intros r h2 Hr.
  assert (∃ y, holds h2 (<[a := y]> (<[x := until_nul (text q)]> w)) ∧ (r = BSTR_OK ∧ y = s' ∨ r = BSTR_ERR ∧ y = s))
    as (y&Hw2&Hy).
  { destruct Hr as [[-> ?]|(_&->&?)]; eexists; (split; [|by eauto]); [done|].
    rewrite insert_id; [done|]. by rewrite lookup_insert_ne. }
  destruct (holds_str _ _ Hw2 x (until_nul (text q))) as (t2&k2&b2&Ho2); [by rewrite lookup_insert_ne, lookup_insert_eq|].
  apply mwp_bind. eapply mwp_mono; [by eapply bdestroy_spec|]. intros ? h3 [_ ->]. apply mwp_ret.
  pose proof (holds_removed _ _ _ _ _ _ _ Hw2 Ho2) as Hw3.
  rewrite delete_insert_ne, delete_insert_id in Hw3 by congruence.
  destruct Hy as [[-> ->]|[-> ->]]; [by left|right]. rewrite insert_id in Hw3 by done. done.
Qed.

Lemma bformata_spec q h w a s fmt :
  holds h w → w !! a = Some s → short s → short fmt → short (until_nul (text q)) →
  mwp (bformata (Some a) (Some fmt) q) h (done_or_not True w a (s ++ until_nul (text q))).
Proof.
  intros Hw Ha Hs Hf Hl. eapply format_into_spec; [|done..]. intros h1 w1 x Hw1 Ha1 Hx Hne. unfold short in *.
  destruct (holds_setting _ _ _ _ _ _ Hw1 Ha1 Hx) as (t&k&b&p&Ho&Hset&_); [unfold INT_MAX; lia|].
  eapply mwp_mono; [eapply bconcat_spec; [exact Hset|unfold INT_MAX; lia]|].
  intros r h' [[-> Hr]|[-> Hr]]; [left|right]; [split; [done|by eapply holds_rebuilt]|]. split; [done|]. split; [done|]. by eapply holds_same.
Qed.

(** [bassign] asks for the length without the NUL. *)
Lemma bassignformat_spec q h w a s fmt :
  thrifty → holds h w → w !! a = Some s → short fmt → short (until_nul (text q)) →
  mwp (bassignformat (Some a) (Some fmt) q) h (done_or_not True w a (until_nul (text q))).
Proof.
  intros Hth Hw Ha Hf Hl. eapply format_into_spec; [|done..]. intros h1 w1 x Hw1 Ha1 Hx Hne. unfold short in *.
  destruct (holds_setting _ _ _ _ _ _ Hw1 Ha1 Hx) as (t&k&b&p&Ho&Hset&_&Hap); [unfold INT_MAX; lia|].
  eapply mwp_mono; [eapply bassign_spec; [exact Hset|done|lia|intros Hor; by destruct (Hap Hor)]|].
  intros r h' [[-> Hr]|[-> Hr]]; [left|right]; [split; [done|by eapply holds_rebuilt]|]. split; [done|]. split; [done|]. by eapply holds_same.
Qed.

(** The macro: a count that is too small is followed by a larger one. *)
Lemma vformata_spec q fuel : ∀ h w a s fmt (count : nat),
  holds h w → w !! a = Some s → (0 < count)%nat → Z.of_nat count ≤ INT_MAX →
  (0 < fuel)%nat → (length (until_nul (text q)) + 1 < fuel + count)%nat →
  mwp (vformata_loop fuel (Some a) (Z.of_nat count) (Some fmt) q) h
    (done_or_not True w a (s ++ until_nul (text q))).
Proof.
  induction fuel as [|fuel IH]; intros h w a s fmt count Hw Ha Hc Hmax Hpos Hfuel; [lia|]. cbn [vformata_loop].
  destruct (holds_str _ _ Hw _ _ Ha) as (t&k&b&Ho). apply mwp_bind.
  eapply mwp_mono; [by eapply (bvcformata_spec q h a t k b s count)|].
  assert (∀ h', same h h' → mwp (if - BSTR_ERR <=? Z.of_nat count then mret BSTR_ERR
    else vformata_loop fuel (Some a) (- BSTR_ERR) (Some fmt) q) h' (done_or_not True w a (s ++ until_nul (text q)))) as Herr.
  { intros h' Hs. unfold BSTR_ERR at 1. rewrite (proj2 (Z.leb_le _ _)) by lia. apply mwp_ret. right. split; [done|].
    split; [done|]. by eapply holds_same. }
  intros r h' Hr. unfold counted in Hr. destruct (decide _) as [Hl|Hl].
  - destruct Hr as [[-> Hr]|[-> Hr]]; cbn [Z.leb Z.compare BSTR_OK BSTR_ERR].
    + apply mwp_ret. left. split; [done|]. by eapply holds_rebuilt.
    + by apply Herr.
  - destruct Hr as [(Hr&Hr1&Hre)|[-> Hr]]; [|by apply Herr].
    rewrite (proj2 (Z.leb_gt 0 r)), (proj2 (Z.leb_gt (- r) _)) by (unfold BSTR_ERR in *; lia).
    replace (- r) with (Z.of_nat (Z.to_nat (- r))) by lia.
    assert (holds h' w) as Hw'.
    { rewrite <- (insert_id w a s) by done. by eapply holds_rebuilt. }
    apply IH; try done; try lia.
Qed.
End Format.

(** ** Property *)


